(* ===== verification/_CoqProject ===== *)
-Q . S2P
Prelude.v
Search.v
Config.v
ConfigFile.v
Double.v
RateLimiter.v
UpstreamManager.v
RouteUtils.v
ApiKeyManager.v
ConnectionBudget.v
FileCache.v
FdCache.v
ConnectionPool.v
ThreadPool.v
LoggingUtils.v
HttpParser.v
HttpResponse.v
Routes.v
HttpClient.v
TlsContexts.v
Metrics.v
MetricsProperties.v
UpstreamResponse.v
UpstreamExchange.v
Sockets.v
Descriptors.v
HealthProbe.v
EchoHandler.v
AdminServer.v
Tracing.v
ExchangeDelivery.v
ClientTool.v
ClientProcess.v
ForwardRequest.v
ForwardAgrees.v
AdminProperties.v
HttpRoundtrip.v
Responder.v
Admission.v
StaticFiles.v
Proxy.v
ProxyInvariant.v
ProxyProperties.v
ProxyDelivery.v
ReadPath.v
ReadProperties.v
ReadScenarios.v
WritePath.v
WriteProperties.v
WriteScenarios.v
TcpWorker.v
TcpInvariant.v
TcpProperties.v
TcpScenarios.v
Startup.v
Process.v
ServeRequest.v
UpstreamRequest.v
