(* ===== verification/Prelude.v ===== *)
(** * The epoll gateway: a verification library

    The program is an HTTP/1.1 gateway in C++ (sources under [src/src] and
    [src/include]). Worker threads with one epoll set each accept TLS connections,
    parse requests, admit or refuse them (routes, API keys, rate limits), answer
    them from built-in handlers or static files, or ask backends for them, one or
    several per request, over pooled connections. All workers share one budget of
    connections, one rate limiter and one table of circuit breakers. A thread with
    a listener of its own serves the administrative API. A command-line client
    comes with it.

    The library is a shallow embedding. A function of the source is a function
    here, objects are records, a map is a [gmap], a [std::string] is a list of
    bytes, [size_t] is [Z] with its wrap-around written out, [double] is IEEE
    binary64. What the kernel, OpenSSL, clocks and generators answer is an
    argument, one answer per call; theorems quantify over the answers. Exceptions
    are values. Iteration over an [unordered_map] is in an order that the class
    [HashOrder] leaves open. zlib, the file system and nlohmann's [dump] and parser
    are classes or parameters with their documented behaviour as laws; each has a
    concrete instance in the scenario files.

    ** Parts and files

    - Bytes, searching, numbers, tactics and hints: this file, [Search],
      [Double].
    - Configuration ([include/server/config.h]): [Config] has the data and
      [validate], [ConfigFile] the loader with its complaints.
    - Small components: [RateLimiter] (rate_limiter.cpp, rate_limiter_manager.h),
      [UpstreamManager] (upstream_manager.cpp), [RouteUtils] (route_utils.h),
      [ApiKeyManager], [ConnectionBudget] (atomic steps of several workers),
      [FileCache], [FdCache], [ConnectionPool], [ThreadPool] (pool.cpp),
      [LoggingUtils], [HttpResponse] (gzip_utils.cpp, content_type.cpp), [Metrics]
      and [MetricsProperties] (metrics.cpp).
    - Wrappers: [Sockets] (mysocket.cpp, poller.cpp, myepoll.cpp), [Descriptors]
      (the set-up of descriptors in mysocket.cpp, the objects of myepoll.cpp,
      error_utils.cpp), [TlsContexts] (tls_utils.cpp, tls_context.cpp,
      client_tls.cpp and the context cache). [HealthProbe] has the TCP probe of
      upstream_manager.cpp over these wrappers.
    - Requests of clients: [HttpParser] (http_parser.cpp), [HttpRoundtrip].
    - Backends ([http_client.cpp]): [HttpClient] has header lookup, retry policy
      and the chunk scanner, [UpstreamExchange] the state machine driven by epoll,
      [ExchangeDelivery] and [UpstreamRequest] what it delivers and sends,
      [ForwardRequest] the blocking function, [ForwardAgrees] their agreement.
    - The handler ([http_handler.cpp]): [Routes], [Tracing], [Responder],
      [Admission], [StaticFiles], [UpstreamResponse]; [Proxy] for exchanges and
      composites, with [ProxyInvariant], [ProxyProperties] and [ProxyDelivery]
      (a proxied request from its start to the client's queue); [ReadPath],
      [ReadProperties] and [ReadScenarios] for [handle_read]; [WritePath],
      [WriteProperties] and [WriteScenarios] for [handle_write].
    - The worker ([tcpworker.cpp]): [TcpWorker], [TcpInvariant], [TcpProperties],
      [TcpScenarios]. The process (main.cpp, server.cpp): [Startup] up to the
      first turn of the workers, [Process] all workers at once with what they
      share.
    - [ServeRequest] puts the reading loops, the parser, admission, the handlers
      and the writing loop together, from the bytes read to the bytes written.
    - [AdminServer], [AdminProperties] (admin_server.cpp); [ClientTool] (the
      client's state machine, loop and options), [ClientProcess] (its constructor
      and [main]); [EchoHandler] (echohandler.cpp, not used by the server).

    ** What the theorems show

    - Parsing: printed requests parse back, whatever follows and however the
      bytes are cut; an accepted request has one framing within the limits.
    - Decisions: routing, authorization, admission, validation and circuit
      breaking meet declarative specifications; caches and limiters refine simple
      ones.
    - Delivery: what a client receives is what was queued, byte by byte, whatever
      the kernel takes; a response is framed as its headers say; a backend's
      response arrives as sent; a request is repeated only if it may be.
    - Event loops: [handle_read] and [handle_write] return on every input and
      leave the connection waiting for the right event. Each descriptor of a
      backend leads to the exchange that holds it. Through any interleaving a
      worker's slots match its connections, its configuration is a validated one,
      and draining ends with every slot returned; a worker that is told to stop
      ends.
    - The process: [Startup] gives the initial states of the workers and says how a
      start fails. [Process] composes the workers: the slots in use are the
      connections of all of them, never more than the highest limit in force, and
      the history of each worker is one of the runs above. A request that is
      well formed reaches its handler once, however it is cut; the liveness
      probe is answered; and a proxied request whose backend answers ends with the
      backend's response in the client's queue, over any number of events.
    - Resources: sockets, SSL objects, cached descriptors and pooled connections
      have one owner and are released once; so have epoll descriptors. The
      threads of a stopped pool end with all tasks run.
    - The client: exit status 0 means a complete response from a peer that was
      checked as the options ask.
    - Several theorems state where the code does not do what its comments say; the
      scenario files show such behaviours on concrete inputs.

    ** Fuel and bounds

    Loops that are not structural carry fuel, and a lemma shows that the fuel given
    is enough: the header and chunk loops get more turns than the buffer has
    positions ([scan_fuel_enough], [header_loop_total]), [handle_read] more than
    there are bytes ([read_fuel]), [handle_write] two turns ([write_fuel]). Loops
    over answers recurse on the answers; running out of them is a result of its
    own, which the theorems exclude or name. The chunk scanner can loop for ever on
    a size near [2 ^ 64]: that is a result too.

    ** Not modelled

    - [mylogger.cpp] and log lines other than the access and audit records:
      nothing is computed from them.
    - What [bind], [listen], [connect] and name resolution do in the kernel and the
      resolver: their answers are data.
    - The bodies of OpenSSL, zlib, nlohmann::json and spdlog.
    - The reuse of the address of a destroyed [Socket]: sockets are numbered.
    - Memory exhaustion and data races within one object; the atomic operations of
      [ConnectionBudget] and [Metrics] and the locks of the shared tables are
      modelled, with sequential consistency.
    - [TcpWorker::close] and [Tcpserver::stop] as functions: they set flags, which
      the loop of a worker reads as data of its turns ([lt_stop]).
    - Accessors, and the usage text of the client. *)

From stdpp Require Export base tactics strings gmap list numbers option sorting.
From Stdlib Require Export ZArith Lia.
From Stdlib Require Export Ascii.
From coqutil Require Export Datatypes.RecordSetters.
Export DoubleBraceUpdate.
#[global] Arguments constant {_} _ _ /.

#[global] Set Default Goal Selector "!".

(** * Bytes *)

(** [std::string] is a sequence of bytes; string literals are read as bytes. *)
Abbreviation bytes := (list ascii).
Coercion lit (s : string) : list ascii := String.list_ascii_of_string s.
Arguments lit _ : simpl never.

Declare Scope gateway_scope.
Delimit Scope gateway_scope with gw.

Notation "a == b" := (bool_decide (a = b)) (at level 70, no associativity) : gateway_scope.
Notation "a != b" := (negb (bool_decide (a = b))) (at level 70, no associativity) : gateway_scope.

Definition CR : ascii := "013"%char.
Definition LF : ascii := "010"%char.
Definition HT : ascii := "009"%char.
Definition CRLF : bytes := [CR; LF].

(** A [char] seen as [unsigned char]. *)
Definition code (c : ascii) : N := N_of_ascii c.

Definition in_range (lo hi c : ascii) : bool := (code lo <=? code c)%N && (code c <=? code hi)%N.

Definition is_digit (c : ascii) : bool := in_range "0" "9" c.
Definition is_upper (c : ascii) : bool := in_range "A" "Z" c.
Definition is_lower (c : ascii) : bool := in_range "a" "z" c.

(** [std::tolower] in the "C" locale. *)
Definition tolower (c : ascii) : ascii :=
  if is_upper c then ascii_of_N (code c + 32) else c.

Definition lowercase (s : bytes) : bytes := tolower <$> s.

(** [size()] as a [size_t]. *)
Definition size (s : bytes) : Z := Z.of_nat (length s).

(** [empty()] *)
Definition is_empty {A} (l : list A) : bool := match l with [] => true | _ :: _ => false end.

(** ** [std::string] searches; [None] is [npos]. *)
Fixpoint find_char (c : ascii) (s : bytes) : option nat :=
  match s with
  | [] => None
  | x :: s' => if bool_decide (x = c) then Some 0 else S <$> find_char c s'
  end.

(** [s.find(c, pos)] *)
Definition find_char_from (c : ascii) (pos : nat) (s : bytes) : option nat :=
  (Nat.add pos) <$> find_char c (drop pos s).

(** [s.rfind(c)] *)
Fixpoint rfind_char (c : ascii) (s : bytes) : option nat :=
  match s with
  | [] => None
  | x :: s' =>
    match rfind_char c s' with
    | Some i => Some (S i)
    | None => if bool_decide (x = c) then Some 0 else None
    end
  end.

(** [s.rfind(p, 0) == 0], and [s.compare(0, p.size(), p) == 0] *)
Fixpoint starts_with (p s : bytes) : bool :=
  match p, s with
  | [], _ => true
  | x :: p', y :: s' => bool_decide (x = y) && starts_with p' s'
  | _ :: _, [] => false
  end.

(** [s.find(p)] *)
Fixpoint find_sub (p s : bytes) : option nat :=
  if starts_with p s then Some 0 else
  match s with
  | [] => None
  | _ :: s' => S <$> find_sub p s'
  end.

(** [s.find(p, pos)] *)
Definition find_sub_from (p : bytes) (pos : nat) (s : bytes) : option nat :=
  (Nat.add pos) <$> find_sub p (drop pos s).

(** [s.substr(pos, n)] *)
Definition substr (pos n : nat) (s : bytes) : bytes := take n (drop pos s).

(** [s.erase(0, s.find_first_not_of(" \t"))]; with no other character the
    position is [npos] and the whole string goes. *)
Definition is_blank (c : ascii) : bool := bool_decide (c = " "%char) || bool_decide (c = HT).

Fixpoint trim_left (s : bytes) : bytes :=
  match s with
  | [] => []
  | c :: s' => if is_blank c then trim_left s' else s
  end.

(** [s.erase(s.find_last_not_of(" \t") + 1)]; with no other character
    [npos + 1] is [0]. *)
Definition trim_right (s : bytes) : bytes := reverse (trim_left (reverse s)).

Definition trim (s : bytes) : bytes := trim_right (trim_left s).

(** ** Decimal and hexadecimal rendering *)
Definition digit_char (d : Z) : ascii :=
  if (d <? 10)%Z then ascii_of_N (48 + Z.to_N d) else ascii_of_N (87 + Z.to_N d).

Fixpoint render (fuel : nat) (base n : Z) (acc : bytes) : bytes :=
  match fuel with
  | O => acc
  | S fuel' =>
    let acc' := digit_char (n mod base) :: acc in
    if (n / base =? 0)%Z then acc' else render fuel' base (n / base) acc'
  end.

Definition render_fuel (n : Z) : nat := S (Z.to_nat (Z.log2 n)).

(** [std::to_string] *)
Definition to_string (n : Z) : bytes :=
  if (n <? 0)%Z then "-"%char :: render (render_fuel (- n)) 10 (- n) []
  else render (render_fuel n) 10 n [].

(** [oss << std::hex << n] *)
Definition to_hex (n : Z) : bytes := render (render_fuel n) 16 n [].

(** * Machine integers *)
Definition SIZE_MAX : Z := 2 ^ 64 - 1.
Definition wrap64 (z : Z) : Z := z mod 2 ^ 64.

(** * Lemmas on bytes *)

Create HintDb gateway.
Create Rewrite HintDb size.

Lemma size_nonneg s : (0 <= size s)%Z.
Proof. unfold size. lia. Qed.

Lemma size_nil : size [] = 0%Z.
Proof. done. Qed.

Lemma size_cons c s : size (c :: s) = (1 + size s)%Z.
Proof. unfold size. cbn [length]. lia. Qed.

Lemma size_app s t : size (s ++ t) = (size s + size t)%Z.
Proof. unfold size. rewrite length_app. lia. Qed.

Lemma size_snoc s c : size (s ++ [c]) = (size s + 1)%Z.
Proof. rewrite size_app. unfold size at 2. cbn [length]. lia. Qed.

#[export] Hint Rewrite size_nil size_cons size_app : size.
#[export] Hint Resolve size_nonneg : gateway.

(** The number a string of decimal digits denotes. *)
Definition digit_value (c : ascii) : Z := Z.of_N (code c) - 48.

Definition decimal (s : bytes) : Z := foldl (λ v c, v * 10 + digit_value c)%Z 0%Z s.

Lemma is_digit_value c : is_digit c = true → (0 <= digit_value c < 10)%Z.
Proof.
  unfold is_digit, in_range, digit_value. rewrite andb_true_iff, !N.leb_le.
  change (code "0"%char) with 48%N. change (code "9"%char) with 57%N. lia.
Qed.

Lemma forallb_Forall {A} (f : A → bool) l : forallb f l = true ↔ Forall (λ x, f x = true) l.
Proof. rewrite forallb_forall, List.Forall_forall. done. Qed.

(** * Tactics *)

(** Turn boolean tests in the context into propositions. *)
Ltac bool_props :=
  repeat match goal with
  | H : bool_decide _ = true |- _ => apply bool_decide_eq_true in H
  | H : bool_decide _ = false |- _ => apply bool_decide_eq_false in H
  | H : negb _ = true |- _ => apply negb_true_iff in H
  | H : negb _ = false |- _ => apply negb_false_iff in H
  | H : (_ <? _)%Z = true |- _ => apply Z.ltb_lt in H
  | H : (_ <? _)%Z = false |- _ => apply Z.ltb_ge in H
  | H : (_ <=? _)%Z = true |- _ => apply Z.leb_le in H
  | H : (_ <=? _)%Z = false |- _ => apply Z.leb_gt in H
  | H : (_ =? _)%Z = true |- _ => apply Z.eqb_eq in H
  | H : (_ =? _)%Z = false |- _ => apply Z.eqb_neq in H
  | H : _ && _ = true |- _ => apply andb_true_iff in H as [? ?]
  | H : _ || _ = false |- _ => apply orb_false_iff in H as [? ?]
  end.

(** A decidable proposition at closed terms, by evaluation. *)
Ltac evaluate := apply (bool_decide_unpack _); by vm_compute.

(** Open the existentials and conjunctions of the context. *)
Ltac open_hyps :=
  repeat match goal with
  | H : ∃ _, _ |- _ => destruct H
  | H : _ ∧ _ |- _ => destruct H
  end.

(** * Case folding and trimming *)

Lemma tolower_idemp c : tolower (tolower c) = tolower c.
Proof. by destruct c as [[][][][][][][][]]. Qed.

Lemma lowercase_idemp s : lowercase (lowercase s) = lowercase s.
Proof.
  unfold lowercase. rewrite <- list_fmap_compose. apply list_fmap_ext.
  intros _ c _. apply tolower_idemp.
Qed.

Lemma length_lowercase s : length (lowercase s) = length s.
Proof. apply length_fmap. Qed.

Lemma trim_left_snoc s c :
  is_blank c = false → ∃ s', trim_left (s ++ [c]) = s' ++ [c] ∧ suffix s' s.
Proof.
  intros Hc. induction s as [|x s IH]; simpl.
  { rewrite Hc. exists []. split; [done|]. apply suffix_nil. }
  destruct (is_blank x).
  - destruct IH as (s' & -> & Hs). exists s'. split; [done|]. by apply suffix_cons_r.
  - by exists (x :: s).
Qed.

Lemma trim_left_head s : trim_left s = [] ∨ ∃ c s', trim_left s = c :: s' ∧ is_blank c = false.
Proof.
  induction s as [|c s IH]; simpl; [by left|].
  destruct (is_blank c) eqn:E; [done|]. right; eauto.
Qed.

Lemma trim_left_idemp s : trim_left (trim_left s) = trim_left s.
Proof.
  destruct (trim_left_head s) as [->|(c & s' & -> & Hc)]; [done|]. simpl. by rewrite Hc.
Qed.

Lemma trim_right_idemp s : trim_right (trim_right s) = trim_right s.
Proof. unfold trim_right. by rewrite reverse_involutive, trim_left_idemp. Qed.

Lemma trim_right_cons c s :
  is_blank c = false → ∃ s', trim_right (c :: s) = c :: s'.
Proof.
  intros Hc. unfold trim_right. rewrite reverse_cons.
  destruct (trim_left_snoc (reverse s) c Hc) as (s' & -> & _).
  rewrite reverse_snoc. eauto.
Qed.

Lemma trim_idemp s : trim (trim s) = trim s.
Proof.
  unfold trim. destruct (trim_left_head s) as [->|(c & s' & -> & Hc)]; [done|].
  destruct (trim_right_cons c s' Hc) as [t Ht].
  rewrite Ht at 1. simpl. rewrite Hc, <- Ht. apply trim_right_idemp.
Qed.

(** A string whose ends are not blank is left alone. *)
Definition blank_free_ends (s : bytes) : Prop :=
  (∀ c, head s = Some c → is_blank c = false) ∧ (∀ c, last s = Some c → is_blank c = false).

Lemma trim_left_id s : (∀ c, head s = Some c → is_blank c = false) → trim_left s = s.
Proof. destruct s as [|c s]; [done|]. simpl. intros H. by rewrite H. Qed.

Lemma trim_right_id s : (∀ c, last s = Some c → is_blank c = false) → trim_right s = s.
Proof.
  intros H. unfold trim_right. rewrite trim_left_id; [apply reverse_involutive|].
  intros c. rewrite head_reverse. apply H.
Qed.

Lemma trim_id s : blank_free_ends s → trim s = s.
Proof. intros [H1 H2]. unfold trim. by rewrite trim_left_id, trim_right_id. Qed.

(** * Rendering numbers *)

Lemma render_value (val : ascii → Z) base fuel n acc :
  (2 <= base)%Z → (∀ d, (0 <= d < base)%Z → val (digit_char d) = d) →
  (0 <= n < base ^ Z.of_nat fuel)%Z → fuel ≠ 0 →
  foldl (λ a c, a * base + val c)%Z 0%Z (render fuel base n acc) =
  foldl (λ a c, a * base + val c)%Z n acc.
Proof.
  intros Hb Hval. revert n acc. induction fuel as [|fuel IH]; intros n acc Hn Hf; [done|].
  simpl render. pose proof (Z.div_mod n base). pose proof (Z.mod_pos_bound n base).
  destruct (Z.eqb_spec (n / base) 0) as [E|E].
  - simpl. rewrite Hval by lia. f_equal. lia.
  - rewrite Nat2Z.inj_succ, Z.pow_succ_r in Hn by lia.
    assert (0 <= n / base < base ^ Z.of_nat fuel)%Z.
    { split; [apply Z.div_pos; lia|apply Z.div_lt_upper_bound; lia]. }
    rewrite IH; [|done|].
    + simpl. rewrite Hval by lia. f_equal. lia.
    + intros ->. simpl in *. lia.
Qed.

Lemma render_Forall (P : ascii → Prop) base fuel n acc :
  (0 < base)%Z → (∀ d, (0 <= d < base)%Z → P (digit_char d)) →
  Forall P acc → Forall P (render fuel base n acc).
Proof.
  intros Hb HP. revert n acc. induction fuel as [|fuel IH]; intros n acc Hacc; simpl; [done|].
  pose proof (Z.mod_pos_bound n base Hb).
  case_match; [|apply IH]; constructor; auto.
Qed.

Lemma render_length base k fuel n acc :
  (2 <= base)%Z → (0 <= n < base ^ Z.of_nat (S k))%Z →
  length (render fuel base n acc) ≤ S k + length acc.
Proof.
  intros Hb. revert k n acc. induction fuel as [|fuel IH]; intros k n acc Hn; simpl; [lia|].
  destruct (Z.eqb_spec (n / base) 0) as [E|E]; simpl; [lia|].
  rewrite Nat2Z.inj_succ, Z.pow_succ_r in Hn by lia.
  destruct k as [|k].
  { rewrite Z.div_small in E by lia. done. }
  etrans; [apply (IH k)|simpl; lia].
  split; [apply Z.div_pos; lia|apply Z.div_lt_upper_bound; lia].
Qed.

Lemma render_cons base fuel n acc : fuel ≠ 0 → render fuel base n acc ≠ [].
Proof.
  revert n acc. induction fuel as [|fuel IH]; intros n acc Hf; [done|]. simpl.
  case_match; [done|]. destruct fuel; [done|]. by apply IH.
Qed.

Lemma render_fuel_enough base n :
  (2 <= base)%Z → (0 <= n)%Z → (0 <= n < base ^ Z.of_nat (render_fuel n))%Z.
Proof.
  intros Hb Hn. split; [done|]. unfold render_fuel.
  rewrite Nat2Z.inj_succ, Z2Nat.id by apply Z.log2_nonneg.
  assert (n < 2 ^ Z.succ (Z.log2 n))%Z.
  { destruct (Z.eq_dec n 0) as [->|]; [done|]. apply Z.log2_spec. lia. }
  eapply Z.lt_le_trans; [done|]. apply Z.pow_le_mono_l. lia.
Qed.

(** A property of the sixteen digits is checked by evaluation. *)
Lemma digits_Forall (P : Z → bool) k :
  forallb P (seqZ 0 k) = true → ∀ d, (0 <= d < k)%Z → P d = true.
Proof.
  rewrite forallb_Forall, Forall_forall. intros H d Hd. apply H. rewrite elem_of_seqZ. lia.
Qed.

Lemma to_string_digits n : (0 <= n)%Z → Forall (λ c, is_digit c = true) (to_string n).
Proof.
  intros Hn. unfold to_string. rewrite (proj2 (Z.ltb_ge _ _)) by done.
  apply render_Forall; [done| |done]. by apply (digits_Forall (λ d, is_digit (digit_char d))).
Qed.

Lemma to_string_cons n : (0 <= n)%Z → to_string n ≠ [].
Proof.
  intros Hn. unfold to_string. rewrite (proj2 (Z.ltb_ge _ _)) by done. by apply render_cons.
Qed.

(** [std::to_string] of an unsigned number denotes that number. *)
Lemma decimal_to_string n : (0 <= n)%Z → decimal (to_string n) = n.
Proof.
  intros Hn. unfold decimal, to_string. rewrite (proj2 (Z.ltb_ge _ _)) by done.
  rewrite (render_value digit_value); [done|done| |by apply render_fuel_enough|done].
  intros d Hd. apply Z.eqb_eq.
  by apply (digits_Forall (λ d, digit_value (digit_char d) =? d)%Z 10).
Qed.

Lemma decimal_nonneg_go v acc :
  (0 <= acc)%Z → Forall (λ c, is_digit c = true) v →
  (acc <= foldl (λ a c, a * 10 + digit_value c) acc v)%Z.
Proof.
  intros Hacc Hv. revert acc Hacc. induction Hv as [|c v Hc _ IH]; intros acc Hacc; simpl; [done|].
  apply is_digit_value in Hc. etrans; [|apply IH]; lia.
Qed.

Lemma decimal_nonneg v : Forall (λ c, is_digit c = true) v → (0 <= decimal v)%Z.
Proof. by apply decimal_nonneg_go. Qed.

Lemma drop_app2 {A} (a b c : list A) : drop (length a + length b) (a ++ b ++ c) = c.
Proof. by rewrite app_assoc, <- length_app, drop_app_length. Qed.

(** * Searches *)

Lemma find_char_app c s t : c ∉ s → find_char c (s ++ c :: t) = Some (length s).
Proof.
  induction s as [|x s IH]; simpl; intros Hs; [by rewrite bool_decide_eq_true_2|].
  apply not_elem_of_cons in Hs as [? ?].
  by rewrite bool_decide_eq_false_2, IH by congruence.
Qed.

Lemma find_char_notin c s : c ∉ s → find_char c s = None.
Proof.
  induction s as [|x s IH]; simpl; intros Hs; [done|].
  apply not_elem_of_cons in Hs as [? ?]. by rewrite bool_decide_eq_false_2, IH by congruence.
Qed.

Lemma rfind_char_app c s t : c ∉ t → rfind_char c (s ++ c :: t) = Some (length s).
Proof.
  intros Ht. assert (rfind_char c t = None) as Hn.
  { induction t as [|x t IH]; [done|]. cbn. apply not_elem_of_cons in Ht as [Hx Ht]. rewrite IH by done. by rewrite bool_decide_eq_false_2. }
  induction s as [|x s IH]; cbn; [|by rewrite IH]. by rewrite Hn, bool_decide_eq_true_2.
Qed.

Lemma find_char_split c s i :
  find_char c s = Some i → (c ∉ take i s) ∧ head (drop i s) = Some c ∧ i < length s.
Proof.
  revert i. induction s as [|x s IH]; intros i; simpl; [done|]. case_bool_decide as E.
  - intros [= <-]. subst. split_and!; simpl; try done; [set_solver|lia].
  - destruct (find_char c s) as [j|] eqn:Ej; simpl; [|done]. intros [= <-].
    destruct (IH j) as (? & ? & ?); [done|]. split_and!; simpl; [set_solver|done|lia].
Qed.

Lemma find_char_None c s : find_char c s = None → c ∉ s.
Proof.
  induction s as [|x s IH]; simpl; [set_solver|]. case_bool_decide; [done|].
  destruct (find_char c s); [done|]. intros _. specialize (IH eq_refl). set_solver.
Qed.

(** * Hash tables *)

(** [std::unordered_map] leaves its iteration order unspecified; a definition
    that iterates over one takes the order from this interface. *)
Class HashOrder := {
  iter {A} : gmap bytes A → list (bytes * A);
  iter_perm {A} (t : gmap bytes A) : iter t ≡ₚ map_to_list t;
}.

#[export] Instance some_order : HashOrder | 100 :=
  {| iter := λ A t, map_to_list t; iter_perm := λ A t, reflexivity _ |}.

Lemma elem_of_iter `{HashOrder} {A} (t : gmap bytes A) k v : (k, v) ∈ iter t ↔ t !! k = Some v.
Proof. by rewrite iter_perm, elem_of_map_to_list. Qed.

Lemma NoDup_iter `{HashOrder} {A} (t : gmap bytes A) : NoDup (iter t).*1.
Proof. rewrite iter_perm. apply NoDup_fst_map_to_list. Qed.

Lemma list_to_map_iter `{HashOrder} {A} (t : gmap bytes A) : list_to_map (iter t) = t.
Proof.
  rewrite (list_to_map_proper (iter t) (map_to_list t)); [apply list_to_map_to_list| |apply iter_perm].
  apply NoDup_iter.
Qed.

Lemma is_empty_true {A} (l : list A) : is_empty l = true ↔ l = [].
Proof. by destruct l. Qed.

Lemma is_empty_false {A} (l : list A) : is_empty l = false ↔ l ≠ [].
Proof. by destruct l. Qed.

(** * Lists of messages *)

Definition check (b : bool) (msg : bytes) : list bytes := if b then [msg] else [].

Lemma check_nil b msg : check b msg = [] ↔ b = false.
Proof. by destruct b. Qed.

Lemma app_nil_iff {A} (a b : list A) : a ++ b = [] ↔ a = [] ∧ b = [].
Proof. split; [apply app_eq_nil|by intros [-> ->]]. Qed.

Lemma concat_nil_iff {A} (l : list (list A)) : concat l = [] ↔ Forall (λ x, x = []) l.
Proof.
  induction l as [|a l IH]; simpl; [done|]. by rewrite app_nil_iff, IH, Forall_cons.
Qed.

Create Rewrite HintDb checks.
#[export] Hint Rewrite @app_nil_iff @concat_nil_iff check_nil @is_empty_false @is_empty_true
  negb_false_iff negb_true_iff orb_false_iff Z.eqb_neq Z.leb_gt Z.ltb_ge : checks.

(** Split a list of messages being empty into the tests that failed to fire. *)
Ltac checks := autorewrite with checks in *.

(** * Association lists *)

Fixpoint alookup {K A} `{EqDecision K} (k : K) (m : list (K * A)) : option A :=
  match m with
  | [] => None
  | (k', v) :: m' => if bool_decide (k' = k) then Some v else alookup k m'
  end.

(** Every entry of the key removed. *)
Definition assoc_remove {K A} `{EqDecision K} (k : K) (m : list (K * A)) : list (K * A) :=
  filter (λ kv, kv.1 ≠ k) m.

Section assoc.
  Context {K A : Type} `{EqDecision K}.
  Implicit Types (m : list (K * A)) (k : K).

Lemma alookup_Some k v m : NoDup m.*1 → alookup k m = Some v ↔ (k, v) ∈ m.
Proof.
  induction m as [|[k' v'] m IH]; simpl; [set_solver|]. intros [Hk Hnd]%NoDup_cons.
  case_bool_decide as E.
  - subst. rewrite elem_of_cons. split; [naive_solver|]. intros [|Hin]; [naive_solver|].
    exfalso. apply Hk, list_elem_of_fmap. by exists (k, v).
  - rewrite IH by done. set_solver.
Qed.

Lemma alookup_None k m : alookup k m = None ↔ k ∉ m.*1.
Proof.
  induction m as [|[k' v'] m IH]; simpl; [set_solver|].
  case_bool_decide as E; [set_solver|]. rewrite IH. set_solver.
Qed.

Lemma assoc_remove_cons k k' v m :
  assoc_remove k ((k', v) :: m) =
  if decide (k' = k) then assoc_remove k m else (k', v) :: assoc_remove k m.
Proof.
  unfold assoc_remove. rewrite filter_cons. simpl. repeat case_decide; done.
Qed.

Lemma assoc_remove_subseteq k m : (assoc_remove k m).*1 ⊆ m.*1.
Proof.
  intros x (kv & -> & [_ Hin]%list_elem_of_filter)%list_elem_of_fmap. by apply list_elem_of_fmap_2.
Qed.

Lemma assoc_remove_notin k m : k ∉ (assoc_remove k m).*1.
Proof. intros (kv & -> & [Hk _]%list_elem_of_filter)%list_elem_of_fmap. done. Qed.

Lemma assoc_remove_NoDup k m : NoDup m.*1 → NoDup (assoc_remove k m).*1.
Proof.
  intros Hnd. apply (sublist_NoDup _ m.*1); [done|]. apply fmap_sublist, sublist_filter.
Qed.

Lemma assoc_remove_id k m : k ∉ m.*1 → assoc_remove k m = m.
Proof.
  intros Hk. unfold assoc_remove. induction m as [|kv m IH]; [done|].
  rewrite fmap_cons, not_elem_of_cons in Hk. destruct Hk as [? ?].
  by rewrite filter_cons_True, IH by done.
Qed.

Lemma assoc_remove_shorter k v m : (k, v) ∈ m → length (assoc_remove k m) < length m.
Proof. intros Hin. apply length_filter_lt with (k, v); [done|naive_solver]. Qed.

Lemma removed_last k v m :
  NoDup m.*1 → last m = Some (k, v) → take (length m - 1) m = assoc_remove k m.
Proof.
  intros Hn [m' ->]%last_Some. rewrite fmap_app, NoDup_app in Hn. destruct Hn as (_ & Hn & _).
  rewrite length_app. simpl length. rewrite Nat.add_sub, take_app_length.
  unfold assoc_remove. rewrite filter_app, filter_cons_False, filter_nil, app_nil_r by naive_solver.
  symmetry. apply (assoc_remove_id k). intros Hin. apply (Hn k Hin). simpl. by left.
Qed.

Lemma assoc_remove_length k m : length (assoc_remove k m) ≤ length m.
Proof. apply length_filter. Qed.
End assoc.

(** ** [std::list] *)

(** A list of nodes with stable identities; an iterator is such an identity.
    [l.splice(l.begin(), l, it)]: *)
Definition splice_front {A} (it : nat) (l : list (nat * A)) : list (nat * A) :=
  match alookup it l with
  | Some x => (it, x) :: assoc_remove it l
  | None => l
  end.

Lemma splice_front_in {A} it (x : A) l :
  NoDup l.*1 → (it, x) ∈ l → splice_front it l = (it, x) :: assoc_remove it l.
Proof. intros Hn Hin%alookup_Some; [|done]. unfold splice_front. by rewrite Hin. Qed.

Lemma NoDup_snd_inj {A B} (l : list (A * B)) a a' b :
  NoDup l.*2 → (a, b) ∈ l → (a', b) ∈ l → a = a'.
Proof.
  intros Hnd [i Hi]%list_elem_of_lookup [j Hj]%list_elem_of_lookup.
  assert (i = j) as ->; [|congruence].
  eapply (NoDup_lookup l.*2); [done|..]; rewrite list_lookup_fmap; [by rewrite Hi|by rewrite Hj].
Qed.

Lemma splice_front_perm {A} it (x : A) l : NoDup l.*1 → (it, x) ∈ l → splice_front it l ≡ₚ l.
Proof.
  intros Hn Hin. rewrite (splice_front_in it x) by done.
  apply list_elem_of_split in Hin as (l1 & l2 & ->).
  rewrite fmap_app, fmap_cons, NoDup_app, NoDup_cons in Hn. destruct Hn as (_ & Hn & Hn2 & _).
  unfold assoc_remove. rewrite filter_app, filter_cons_False by naive_solver.
  pose proof (assoc_remove_id it l1) as E1. pose proof (assoc_remove_id it l2) as E2.
  unfold assoc_remove in E1, E2. rewrite E1, E2; [by rewrite Permutation_middle|done|].
  intros H. apply (Hn it H). by left.
Qed.

(** ** Unique decompositions *)

Lemma split_first {A} (c : A) a b a' b' :
  c ∉ a → c ∉ a' → a ++ c :: b = a' ++ c :: b' → a = a' ∧ b = b'.
Proof.
  revert a'. induction a as [|x a IH]; intros [|x' a'] Ha Ha'; simpl; intros E; simplify_eq; try set_solver.
  destruct (IH a') as [-> ->]; [set_solver..|done].
Qed.

Lemma split_last {A} (c : A) a b a' b' :
  c ∉ b → c ∉ b' → a ++ c :: b = a' ++ c :: b' → a = a' ∧ b = b'.
Proof.
  intros Hb Hb' E%(f_equal reverse). rewrite !reverse_app, !reverse_cons, <- !app_assoc in E.
  apply split_first in E as [E1 E2]; [|by rewrite elem_of_reverse..].
  by apply (inj reverse) in E1, E2.
Qed.

Lemma to_string_inj n n' : (0 <= n)%Z → (0 <= n')%Z → to_string n = to_string n' → n = n'.
Proof. intros Hn Hn' E. by rewrite <- (decimal_to_string n), <- (decimal_to_string n'), E. Qed.

Lemma to_string_plain c n : (0 <= n)%Z → is_digit c = false → c ∉ to_string n.
Proof.
  intros Hn Hc Hin. pose proof (to_string_digits n Hn) as H. rewrite Forall_forall in H.
  apply H in Hin. congruence.
Qed.
