(* ===== verification/Search.v ===== *)
(** Searching and splitting byte strings: what [std::string::find] with a
    pattern returns, splitting at a separator, and the orbit argument for loops
    whose position is determined by the previous one. *)

From S2P Require Import Prelude.

(** * Splitting at a character *)

Fixpoint split_on (c : ascii) (s cur : bytes) : list bytes :=
  match s with
  | [] => [cur]
  | x :: s' => if bool_decide (x = c) then cur :: split_on c s' [] else split_on c s' (cur ++ [x])
  end.

Fixpoint join (c : ascii) (parts : list bytes) : bytes :=
  match parts with
  | [] => []
  | [p] => p
  | p :: parts' => p ++ c :: join c parts'
  end.

(** Splitting at CRLF. *)
Fixpoint split_crlf (s cur : bytes) : list bytes :=
  match s with
  | [] => [cur]
  | x :: s' =>
    match s' with
    | y :: s'' =>
      if bool_decide (x = CR) && bool_decide (y = LF) then cur :: split_crlf s'' []
      else split_crlf s' (cur ++ [x])
    | [] => [cur ++ [x]]
    end
  end.

Lemma split_on_word c w rest cur : c ∉ w → split_on c (w ++ rest) cur = split_on c rest (cur ++ w).
Proof.
  revert cur. induction w as [|x w IH]; intros cur Hw; simpl; [by rewrite app_nil_r|].
  apply not_elem_of_cons in Hw as [? ?].
  rewrite bool_decide_eq_false_2 by congruence. rewrite IH by done. by rewrite <- app_assoc.
Qed.

Lemma split_on_nonempty c s cur : split_on c s cur ≠ [].
Proof. revert cur. induction s as [|x s IH]; intros cur; simpl; [done|]. by case_bool_decide. Qed.

Lemma join_cons c p parts : parts ≠ [] → join c (p :: parts) = p ++ c :: join c parts.
Proof. by destruct parts. Qed.

Lemma split_on_join c parts :
  parts ≠ [] → Forall (λ p, c ∉ p) parts → split_on c (join c parts) [] = parts.
Proof.
  intros Hne Hall. induction Hall as [|p parts Hp Hall IH]; [done|]. destruct parts as [|p' parts].
  - simpl. rewrite <- (app_nil_r p) at 1. by rewrite split_on_word.
  - rewrite join_cons, split_on_word by done. cbn [split_on].
    rewrite bool_decide_eq_true_2 by done. by rewrite IH.
Qed.

(** One turn of a loop that walks the pieces by position. *)
Lemma split_on_from c s pos :
  split_on c (drop pos s) [] =
  match find_char_from c pos s with
  | Some i => substr pos (i - pos) s :: split_on c (drop (S i) s) []
  | None => [drop pos s]
  end.
Proof.
  unfold find_char_from, substr. destruct (find_char c (drop pos s)) as [i|] eqn:Ef; simpl.
  - apply find_char_split in Ef as (Hw & Hh & Hi). replace (pos + i - pos) with i by lia.
    rewrite <- (take_drop i (drop pos s)) at 1. rewrite split_on_word by done. simpl.
    destruct (drop i (drop pos s)) as [|x rest] eqn:Ed; [done|]. simpl in Hh. simplify_eq.
    assert (drop (S (pos + i)) s = rest) as ->.
    { rewrite <- Nat.add_1_r, <- !drop_drop, Ed. done. }
    simpl. by rewrite bool_decide_eq_true_2.
  - apply find_char_None in Ef. rewrite <- (app_nil_r (drop pos s)) at 1. by rewrite split_on_word.
Qed.

(** * Searching a pattern *)

Lemma starts_with_spec p s : starts_with p s = true ↔ ∃ t, s = p ++ t.
Proof.
  revert s. induction p as [|x p IH]; intros s; simpl; [naive_solver|].
  destruct s as [|y s]; [naive_solver|]. rewrite andb_true_iff, bool_decide_eq_true, IH. naive_solver.
Qed.

Lemma starts_with_app p t : starts_with p (p ++ t) = true.
Proof. apply starts_with_spec. eauto. Qed.

Lemma starts_with_mono p s t : starts_with p s = true → starts_with p (s ++ t) = true.
Proof. rewrite !starts_with_spec. intros [u ->]. exists (u ++ t). by rewrite app_assoc. Qed.

Lemma starts_with_long p s t : length p ≤ length s → starts_with p (s ++ t) = starts_with p s.
Proof.
  revert s. induction p as [|x p IH]; intros [|y s]; simpl; intros; try done; [lia|].
  by rewrite IH by lia.
Qed.

Lemma find_sub_Some p s i :
  find_sub p s = Some i → (∃ t, drop i s = p ++ t) ∧ i + length p ≤ length s.
Proof.
  revert i. induction s as [|x s IH]; intros i; simpl.
  - destruct p; [|done]. intros [= <-]. simpl. eauto.
  - destruct (starts_with p (x :: s)) eqn:E.
    + intros [= <-]. apply starts_with_spec in E as [t E]. split; [by exists t|].
      change (S (length s)) with (length (x :: s)). rewrite E, length_app. lia.
    + destruct (find_sub p s) as [j|]; simpl; [|done]. intros [= <-].
      destruct (IH j) as [[t Ht] ?]; [done|]. simpl. split; [eauto|lia].
Qed.

(** The first occurrence stays the first when bytes arrive behind it. *)
Lemma find_sub_app p s t i : find_sub p s = Some i → find_sub p (s ++ t) = Some i.
Proof.
  revert i. induction s as [|x s IH]; intros i.
  - destruct p; simpl; [|done]. intros [= <-]. by destruct t.
  - intros H. pose proof (find_sub_Some _ _ _ H) as [_ Hlen]. simpl in Hlen |- *. simpl in H.
    change (x :: s ++ t) with ((x :: s) ++ t). rewrite starts_with_long by (simpl; lia).
    destruct (starts_with p (x :: s)); [done|].
    destruct (find_sub p s) as [j|] eqn:E; simpl in H; [|done]. by rewrite (IH j).
Qed.

Lemma find_sub_from_Some p pos s i :
  find_sub_from p pos s = Some i → pos ≤ i ∧ (i + length p ≤ length s ∨ length s < pos).
Proof.
  unfold find_sub_from. destruct (find_sub p (drop pos s)) as [j|] eqn:E; simpl; [|done].
  intros [= <-]. apply find_sub_Some in E as [_ E]. rewrite length_drop in E. lia.
Qed.

Lemma find_sub_from_le p pos s i :
  find_sub_from p pos s = Some i → p ≠ [] → pos ≤ i ∧ i + length p ≤ length s.
Proof.
  intros H Hp. pose proof (find_sub_from_Some _ _ _ _ H) as [? ?]. split; [done|].
  unfold find_sub_from in H. destruct (find_sub p (drop pos s)) as [j|] eqn:E; simpl in H; [|done].
  apply find_sub_Some in E as [_ E]. rewrite length_drop in E. destruct p; simpl in *; [done|].
  simplify_eq. lia.
Qed.

Lemma find_sub_from_app p pos s t i :
  pos ≤ length s → find_sub_from p pos s = Some i → find_sub_from p pos (s ++ t) = Some i.
Proof.
  unfold find_sub_from. intros Hpos. destruct (find_sub p (drop pos s)) as [j|] eqn:E; simpl; [|done].
  intros [= <-]. rewrite drop_app_le by done. by rewrite (find_sub_app _ _ _ j).
Qed.

(** A line: no CRLF inside, and none straddling the one that ends it. *)
Definition is_line (s : bytes) : Prop := find_sub CRLF (s ++ CRLF) = Some (length s).

#[global] Instance is_line_dec s : Decision (is_line s) := decide (_ = _).

Lemma is_line_plain s : CR ∉ s → is_line s.
Proof.
  unfold is_line. induction s as [|x s IH]; intros Hs; [done|].
  apply not_elem_of_cons in Hs as [? ?]. simpl.
  rewrite bool_decide_eq_false_2 by congruence. simpl. by rewrite IH.
Qed.

Lemma find_line s t : is_line s → find_sub CRLF (s ++ CRLF ++ t) = Some (length s).
Proof. intros H. rewrite app_assoc. by apply find_sub_app. Qed.

(** The line at a position. *)
Lemma find_line_at pre s t :
  is_line s → find_sub_from CRLF (length pre) (pre ++ s ++ CRLF ++ t) = Some (length pre + length s).
Proof. intros H. unfold find_sub_from. by rewrite drop_app_length, find_line. Qed.

Lemma substr_at (pre s t : bytes) n :
  n = length s → substr (length pre) n (pre ++ s ++ t) = s.
Proof. intros ->. unfold substr. by rewrite drop_app_length, take_app_length. Qed.

Lemma find_crlf_cons x y s :
  find_sub CRLF (x :: y :: s) =
  if bool_decide (x = CR) && bool_decide (y = LF) then Some 0 else S <$> find_sub CRLF (y :: s).
Proof.
  cbn [find_sub starts_with CRLF]. rewrite andb_true_r.
  rewrite (bool_decide_ext (CR = x) (x = CR)), (bool_decide_ext (LF = y) (y = LF)) by done. done.
Qed.

Lemma split_crlf_from s pos cur :
  split_crlf (drop pos s) cur =
  match find_sub_from CRLF pos s with
  | Some i => (cur ++ substr pos (i - pos) s) :: split_crlf (drop (i + 2) s) []
  | None => [cur ++ drop pos s]
  end.
Proof.
  unfold find_sub_from, substr.
  assert (∀ i, drop (pos + i + 2) s = drop (i + 2) (drop pos s)) as Hd.
  { intros i. rewrite drop_drop. f_equal. lia. }
  transitivity (match find_sub CRLF (drop pos s) with
    | Some i => (cur ++ take i (drop pos s)) :: split_crlf (drop (i + 2) (drop pos s)) []
    | None => [cur ++ drop pos s] end); last first.
  { destruct (find_sub CRLF (drop pos s)) as [i|]; simpl; [|done].
    rewrite Hd. do 3 f_equal. lia. }
  generalize (drop pos s). clear. intros s. revert cur.
  induction s as [s IH] using (induction_ltof1 _ length); unfold ltof in IH. intros cur.
  destruct s as [|x [|y s]]; [by simpl; rewrite app_nil_r|simpl; by rewrite andb_false_r|].
  rewrite find_crlf_cons.
  change (split_crlf (x :: y :: s) cur) with
    (if bool_decide (x = CR) && bool_decide (y = LF) then cur :: split_crlf s []
     else split_crlf (y :: s) (cur ++ [x])).
  destruct (bool_decide (x = CR) && bool_decide (y = LF)) eqn:E.
  - simpl. by rewrite app_nil_r.
  - rewrite (IH (y :: s)) by (simpl; lia).
    destruct (find_sub CRLF (y :: s)) as [i|]; simpl; by rewrite <- app_assoc.
Qed.

(** * Loops determined by their position *)

(** A loop over positions at most [n] that has not stopped after more than
    [n] turns never stops. *)
Section orbit.
  Context (next : nat → option nat) (n : nat).
  Hypothesis next_le : ∀ p q, next p = Some q → q ≤ n.

Fixpoint orbit (k p : nat) : option nat :=
  match k with O => Some p | S k' => match next p with Some q => orbit k' q | None => None end end.

Lemma orbit_add j k p : orbit (j + k) p = orbit j p ≫= orbit k.
Proof.
  revert p. induction j as [|j IH]; intros p; simpl; [done|]. destruct (next p); [apply IH|done].
Qed.

Lemma orbit_le k p q : p ≤ n → orbit k p = Some q → q ≤ n.
Proof.
  revert p. induction k as [|k IH]; intros p Hp; simpl; [naive_solver|].
  destruct (next p) as [p'|] eqn:E; [|done]. apply IH. eauto.
Qed.

Lemma orbit_defined j k p : j ≤ k → is_Some (orbit k p) → is_Some (orbit j p).
Proof.
  intros Hjk. replace k with (j + (k - j)) by lia. rewrite orbit_add.
  destruct (orbit j p); simpl; [eauto|]. by intros [? ?].
Qed.

Lemma orbit_cycle a d p q :
  0 < d → orbit a p = Some q → orbit d q = Some q → ∀ k, is_Some (orbit k p).
Proof.
  intros Hd Ha Hq k. apply (orbit_defined _ (a + k * d)); [nia|]. rewrite orbit_add, Ha. simpl.
  exists q. clear Ha. induction k as [|k IH]; simpl; [done|]. by rewrite orbit_add, Hq.
Qed.

Lemma duplicate_lookup (l : list nat) :
  ¬ NoDup l → ∃ i j x, i < j ∧ l !! i = Some x ∧ l !! j = Some x.
Proof.
  induction l as [|x l IH]; intros Hl; [by destruct Hl; constructor|].
  destruct (decide (x ∈ l)) as [[j Hj]%list_elem_of_lookup|Hx].
  - exists 0, (S j), x. split_and!; [lia|done|done].
  - destruct IH as (i & j & y & ? & ? & ?).
    { intros Hnd. apply Hl. by constructor. }
    exists (S i), (S j), y. split_and!; [lia|done|done].
Qed.

Lemma orbit_forever p : p ≤ n → is_Some (orbit (S n) p) → ∀ k, is_Some (orbit k p).
Proof.
  intros Hp Hn.
  assert (∀ j, j ≤ S n → is_Some (orbit j p)) as Hdef by (intros; by eapply orbit_defined).
  set (trace := (λ j, default 0 (orbit j p)) <$> seq 0 (S (S n))).
  assert (¬ NoDup trace) as Hdup.
  { intros Hnd. assert (trace ⊆+ seq 0 (S n)) as Hlen%submseteq_length; last first.
    - unfold trace in Hlen. rewrite length_fmap, !length_seq in Hlen. lia.
    - apply NoDup_submseteq; [done|]. intros x (j & -> & Hj%elem_of_seq)%list_elem_of_fmap.
      destruct (Hdef j) as [q Hq]; [lia|]. rewrite Hq. apply elem_of_seq.
      apply orbit_le in Hq; [simpl; lia|done]. }
  apply duplicate_lookup in Hdup as (i & j & x & Hij & Hi & Hj). unfold trace in Hi, Hj.
  rewrite list_lookup_fmap_Some in Hi, Hj. destruct Hi as (i' & Hi' & Hi), Hj as (j' & Hj' & Hj).
  apply lookup_seq in Hi as [-> ?], Hj as [-> ?]. simpl in *.
  destruct (Hdef i) as [q Hq]; [lia|]. destruct (Hdef j) as [q' Hq']; [lia|].
  rewrite Hq in Hi'. rewrite Hq' in Hj'. simpl in *. subst.
  apply (orbit_cycle i (j - i) p q'); [lia|done|].
  replace j with (i + (j - i)) in Hq' by lia. rewrite orbit_add, Hq in Hq'. done.
Qed.
End orbit.

(** * The order of a [std::map] *)

Fixpoint bytes_leb (a b : bytes) : bool :=
  match a, b with
  | [], _ => true
  | _ :: _, [] => false
  | x :: a', y :: b' => if (code x =? code y)%N then bytes_leb a' b' else (code x <? code y)%N
  end.

Definition key_le {A} (p q : bytes * A) : Prop := bytes_leb p.1 q.1 = true.

#[global] Instance key_le_dec {A} : RelDecision (@key_le A) := λ p q, decide (bytes_leb p.1 q.1 = true).

(** A [std::map] read from begin to end. *)
Definition in_order {A} (m : gmap bytes A) : list (bytes * A) := merge_sort key_le (map_to_list m).

Lemma in_order_perm {A} (m : gmap bytes A) : in_order m ≡ₚ map_to_list m.
Proof. apply merge_sort_Permutation. Qed.

Lemma elem_of_in_order {A} (m : gmap bytes A) k v : (k, v) ∈ in_order m ↔ m !! k = Some v.
Proof. by rewrite in_order_perm, elem_of_map_to_list. Qed.

Lemma NoDup_in_order {A} (m : gmap bytes A) : NoDup (in_order m).*1.
Proof. rewrite in_order_perm. apply NoDup_fst_map_to_list. Qed.
