(* ===== verification/Config.v ===== *)
(** Configuration data and its semantic validation: the structs of
    [include/server/config.h] and [Config::validate]. *)

From S2P Require Import Prelude.

#[local] Open Scope Z_scope.
#[local] Open Scope gateway_scope.

(** * Data *)

Record RateLimitConfig := mkRateLimit {
  rl_capacity : Z;
  rl_refill_per_second : Z;
}.

Definition default_RateLimitConfig : RateLimitConfig := mkRateLimit 100 50.

Record ApiKeyConfig := mkApiKey {
  ak_key : bytes;
  ak_name : bytes;
  ak_rate_limit : RateLimitConfig;
  ak_allowed_hosts : list bytes;
  ak_allowed_tenants : list bytes;
}.

Definition default_ApiKeyConfig : ApiKeyConfig := mkApiKey [] [] (mkRateLimit 200 100) [] [].

Record UpstreamServer := mkServer {
  us_host : bytes;
  us_port : Z;
  us_tls : bool;
  us_tls_ca_file : bytes;
  us_tls_server_name : bytes;
  us_tls_skip_verify : bool;
  us_healthy : bool;
  us_consecutive_failures : Z;
}.

Definition default_UpstreamServer : UpstreamServer := mkServer [] 80 false [] [] false true 0.

Record Upstream := mkUpstream {
  up_servers : list UpstreamServer;
  up_algorithm : bytes;
}.

Definition default_Upstream : Upstream := mkUpstream [] "round_robin".

Record UpstreamTarget := mkTarget {
  ut_name : bytes;
  ut_timeout_ms : Z;
  ut_max_retries : Z;
  ut_circuit_failure_threshold : Z;
  ut_circuit_recovery_timeout_ms : Z;
}.

Definition default_UpstreamTarget : UpstreamTarget := mkTarget [] 5000 1 5 10000.

Record CompositeDependency := mkDependency {
  cd_name : bytes;
  cd_upstream_name : bytes;
  cd_path : bytes;
  cd_method : bytes;
  cd_required : bool;
  cd_timeout_ms : Z;
}.

Definition default_CompositeDependency : CompositeDependency :=
  mkDependency [] [] "/" "GET" true 5000.

Record CompositeTarget := mkComposite {
  ct_name : bytes;
  ct_dependencies : list CompositeDependency;
  ct_total_timeout_ms : Z;
}.

Definition default_CompositeTarget : CompositeTarget := mkComposite [] [] 0.

Record GatewayRoute := mkRoute {
  rt_name : bytes;
  rt_method : bytes;
  rt_path : bytes;
  rt_host : bytes;
  rt_tenant : bytes;
  rt_target_type : bytes;
  rt_handler_name : bytes;
  rt_upstream_target : UpstreamTarget;
  rt_composite_target : CompositeTarget;
  rt_static_root : bytes;
  rt_enabled : bool;
  rt_auth_required : bool;
  rt_allow_anonymous : bool;
  rt_rate_limit_policy : bytes;
  rt_allowed_api_keys : list bytes;
  rt_denied_api_keys : list bytes;
}.

Definition default_GatewayRoute : GatewayRoute :=
  mkRoute [] "GET" "/" "*" "*" "upstream" [] default_UpstreamTarget default_CompositeTarget []
    true true false "api_key" [] [].

(** [GatewayRoute::upstream_group_id] and [resolve_upstream_group_id] *)
Definition upstream_group_id (r : GatewayRoute) : bytes :=
  if negb (is_empty (ut_name (rt_upstream_target r))) then ut_name (rt_upstream_target r) else rt_name r.

Definition resolve_upstream_group_id (r : GatewayRoute) : bytes := upstream_group_id r.

Record UpstreamConfig := mkUpstreamConfig {
  uc_upstreams : gmap bytes Upstream;
  uc_routes : list GatewayRoute;
  uc_health_check_timeout_ms : Z;
}.

Definition default_UpstreamConfig : UpstreamConfig := mkUpstreamConfig ∅ [] 500.

Record TlsConfig := mkTls {
  tls_cert_path : bytes;
  tls_key_path : bytes;
}.

Definition default_TlsConfig : TlsConfig := mkTls "certs/server.crt" "certs/server.key".

Record AdminConfig := mkAdmin {
  adm_enabled : bool;
  adm_port : Z;
  adm_bind : bytes;
  adm_api_keys : list bytes;
}.

Definition default_AdminConfig : AdminConfig := mkAdmin false 8105 "127.0.0.1" [].

Record LoggingConfig := mkLogging {
  lg_access_log_enabled : bool;
  lg_redact_sensitive_headers : bool;
  lg_redact_sensitive_query_params : bool;
  lg_sensitive_headers : list bytes;
  lg_sensitive_query_params : list bytes;
}.

Definition default_LoggingConfig : LoggingConfig :=
  mkLogging true true true
    (lit <$> ["authorization"; "proxy-authorization"; "x-api-key"; "cookie";
              "set-cookie"; "x-forwarded-for"; "x-real-ip"]%string)
    (lit <$> ["access_token"; "api_key"; "apikey"; "key"; "password"; "secret"; "token"]%string).

Record ThreadPoolConfig := mkThreadPool {
  tp_min_threads : Z;
  tp_max_threads : Z;
  tp_scale_up_threshold : Z;
  tp_scale_down_threshold : Z;
}.

Definition default_ThreadPoolConfig : ThreadPoolConfig := mkThreadPool 2 10 2 1.

Record Config := mkConfig {
  port : Z;
  backlog : Z;
  max_connections : Z;
  max_response_bytes : Z;
  num_workers : Z;
  www_root : bytes;
  cache_max_entries : Z;
  cache_max_file_size_mb : Z;
  keepalive_timeout : Z;
  shutdown_drain_timeout : Z;
  thread_pool : ThreadPoolConfig;
  upstream_config : UpstreamConfig;
  tls : TlsConfig;
  logging : LoggingConfig;
  admin : AdminConfig;
  rate_limit_config : RateLimitConfig;
  api_keys : list ApiKeyConfig;
  api_keys_file : bytes;
}.

Definition default_Config : Config :=
  mkConfig 5005 1024 10000 (64 * 1024 * 1024) 0 "./www" 1024 1 60 30
    default_ThreadPoolConfig default_UpstreamConfig default_TlsConfig default_LoggingConfig
    default_AdminConfig default_RateLimitConfig [] [].

(** * Config::validate *)
Section validate.
  Context `{HashOrder}.

  (** [inet_pton(AF_INET, s, _) == 1] *)
  Variable inet_pton : bytes → bool.

Definition validate_scalars (c : Config) : list bytes :=
  check (port c =? 0) "port: must be in [1, 65535]" ++
  check (backlog c <=? 0) "backlog: must be > 0" ++
  check (max_connections c =? 0) "max_connections: must be > 0" ++
  check (max_response_bytes c =? 0) "max_response_bytes: must be > 0" ++
  check (keepalive_timeout c <=? 0) "keepalive_timeout: must be > 0" ++
  check (shutdown_drain_timeout c <=? 0) "shutdown_drain_timeout: must be > 0" ++
  check (is_empty (lg_sensitive_headers (logging c))) "logging.sensitive_headers: must not be empty" ++
  check (is_empty (lg_sensitive_query_params (logging c)))
    "logging.sensitive_query_params: must not be empty" ++
  check (cache_max_entries c =? 0) "cache_max_entries: must be > 0" ++
  check (cache_max_file_size_mb c =? 0) "cache_max_file_size_mb: must be > 0" ++
  check (tp_min_threads (thread_pool c) =? 0) "thread_pool.min: must be > 0" ++
  check (tp_max_threads (thread_pool c) <? tp_min_threads (thread_pool c))
    "thread_pool.max: must be >= thread_pool.min" ++
  check (tp_scale_up_threshold (thread_pool c) =? 0) "thread_pool.scale_up: must be > 0" ++
  check (tp_scale_down_threshold (thread_pool c) =? 0) "thread_pool.scale_down: must be > 0" ++
  check (rl_capacity (rate_limit_config c) =? 0) "rate_limit.capacity: must be > 0" ++
  check (rl_refill_per_second (rate_limit_config c) =? 0)
    "rate_limit.refill_per_second: must be > 0" ++
  check (is_empty (tls_cert_path (tls c))) "tls.cert_path: must not be empty" ++
  check (is_empty (tls_key_path (tls c))) "tls.key_path: must not be empty".

Definition validate_admin (a : AdminConfig) : list bytes :=
  if adm_enabled a then
    check (negb (inet_pton (adm_bind a)))
      ("admin.bind: '" ++ adm_bind a ++ "' is not a valid IPv4 address") ++
    check (is_empty (adm_api_keys a))
      "admin.api_keys: at least one key is required when admin is enabled" ++
    concat (imap (λ i k, check (is_empty k)
      ("admin.api_keys[" ++ to_string (Z.of_nat i) ++ "]: must not be empty")) (adm_api_keys a))
  else [].

Definition validate_server (name : bytes) (i : nat) (s : UpstreamServer) : list bytes :=
  let at_ := "upstreams." ++ name ++ ".servers[" ++ to_string (Z.of_nat i) ++ "]" in
  check (is_empty (us_host s)) (at_ ++ ".host: must not be empty") ++
  check ((us_port s <=? 0) || (65535 <? us_port s)) (at_ ++ ".port: must be in [1, 65535]") ++
  check (negb (us_tls s) && ((negb (is_empty (us_tls_ca_file s))) || (negb (is_empty (us_tls_server_name s))) ||
         us_tls_skip_verify s))
    (at_ ++ ": tls_ca_file/tls_server_name/tls_skip_verify require tls (or an https:// host)").

Definition validate_upstream (nu : bytes * Upstream) : list bytes :=
  let '(name, up) := nu in
  check (is_empty (up_servers up)) ("upstreams." ++ name ++ ": at least one server is required") ++
  check (is_empty (up_algorithm up)) ("upstreams." ++ name ++ ".algorithm: must not be empty") ++
  concat (imap (validate_server name) (up_servers up)).

(** [s.empty() || s[0] != '/'] *)
Definition not_absolute (s : bytes) : bool :=
  match s with [] => true | c :: _ => c != "/"%char end.

Definition validate_dependency (ups : gmap bytes Upstream) (at_ : bytes) (i : nat)
    (dep : CompositeDependency) : list bytes :=
  let dep_at := at_ ++ ".composite_target.dependencies[" ++ to_string (Z.of_nat i) ++ "]" in
  check (is_empty (cd_name dep)) (dep_at ++ ".name: must not be empty") ++
  check (is_empty (cd_upstream_name dep)) (dep_at ++ ".upstream_name: must not be empty") ++
  check (not_absolute (cd_path dep)) (dep_at ++ ".path: must start with '/'") ++
  check (cd_timeout_ms dep <=? 0) (dep_at ++ ".timeout_ms: must be > 0") ++
  check (negb (bool_decide (is_Some (ups !! cd_upstream_name dep))))
    (dep_at ++ ".upstream_name: references unknown upstream '" ++ cd_upstream_name dep ++ "'").

Definition validate_composite (ups : gmap bytes Upstream) (at_ : bytes) (ct : CompositeTarget)
    : list bytes :=
  check (is_empty (ct_name ct)) (at_ ++ ".composite_target.name: required for target_type=composite") ++
  check (is_empty (ct_dependencies ct))
    (at_ ++ ".composite_target.dependencies: at least one dependency is required") ++
  check (ct_total_timeout_ms ct <? 0)
    (at_ ++ ".composite_target.total_timeout_ms: must be >= 0 (0 disables the overall deadline)") ++
  concat (imap (validate_dependency ups at_) (ct_dependencies ct)).

Definition known_target (t : bytes) : bool :=
  (t == "local") || (t == "upstream") || (t == "composite") || (t == "static").

Definition known_policy (t : bytes) : bool := (t == "api_key") || (t == "ip") || (t == "route").

Definition match_key (r : GatewayRoute) : bytes :=
  rt_method r ++ "|" ++ rt_host r ++ "|" ++ rt_tenant r ++ "|" ++ rt_path r.

(** The checks on one route that do not depend on the routes before it. *)
Definition validate_route_target (ups : gmap bytes Upstream) (at_ : bytes) (r : GatewayRoute)
    : list bytes :=
  (if rt_target_type r == "upstream" then
     if is_empty (ut_name (rt_upstream_target r)) then
       [at_ ++ ".upstream_target.name: required for target_type=upstream"]
     else check (negb (bool_decide (is_Some (ups !! ut_name (rt_upstream_target r)))))
       (at_ ++ ".upstream_target.name: references unknown upstream '" ++
        ut_name (rt_upstream_target r) ++ "'")
   else check ((rt_target_type r == "static") && is_empty (rt_static_root r))
     (at_ ++ ".static_root: required for target_type=static")) ++
  check (ut_timeout_ms (rt_upstream_target r) <=? 0)
    (at_ ++ ".upstream_target.timeout_ms: must be > 0") ++
  check (ut_max_retries (rt_upstream_target r) <? 0)
    (at_ ++ ".upstream_target.max_retries: must be >= 0") ++
  check (ut_circuit_failure_threshold (rt_upstream_target r) <=? 0)
    (at_ ++ ".upstream_target.circuit_failure_threshold: must be > 0") ++
  check (ut_circuit_recovery_timeout_ms (rt_upstream_target r) <=? 0)
    (at_ ++ ".upstream_target.circuit_recovery_timeout_ms: must be > 0").

Definition validate_route_body (ups : gmap bytes Upstream) (at_ : bytes) (r : GatewayRoute)
    : list bytes :=
  check (is_empty (rt_method r)) (at_ ++ ".method: must not be empty") ++
  check (not_absolute (rt_path r)) (at_ ++ ".path: must start with '/'") ++
  check (negb (known_target (rt_target_type r)))
    (at_ ++ ".target_type: unknown value '" ++ rt_target_type r ++
     "' (expected local|upstream|composite|static)") ++
  (if rt_target_type r == "composite" then validate_composite ups at_ (rt_composite_target r)
   else []) ++
  check (negb (known_policy (rt_rate_limit_policy r)))
    (at_ ++ ".rate_limit_policy: unknown value '" ++ rt_rate_limit_policy r ++
     "' (expected api_key|ip|route)") ++
  validate_route_target ups at_ r.

(** The loop over the routes, with the two [std::set]s it fills. *)
Fixpoint validate_routes (ups : gmap bytes Upstream) (i : nat) (route_names match_keys : gset bytes)
    (rs : list GatewayRoute) : list bytes :=
  match rs with
  | [] => []
  | r :: rs' =>
    let at_ := "routes[" ++ to_string (Z.of_nat i) ++ "]" ++
               (if is_empty (rt_name r) then [] else " (" ++ rt_name r ++ ")") in
    (if is_empty (rt_name r) then [at_ ++ ".name: must not be empty"]
     else check (bool_decide (rt_name r ∈ route_names))
       (at_ ++ ".name: duplicate route name '" ++ rt_name r ++ "'")) ++
    validate_route_body ups at_ r ++
    check (bool_decide (match_key r ∈ match_keys))
      (at_ ++ ": duplicate route match (method/host/tenant/path): " ++ match_key r) ++
    validate_routes ups (S i)
      (if is_empty (rt_name r) then route_names else {[rt_name r]} ∪ route_names)
      ({[match_key r]} ∪ match_keys) rs'
  end.

Fixpoint validate_api_keys (i : nat) (seen_keys : gset bytes) (aks : list ApiKeyConfig) : list bytes :=
  match aks with
  | [] => []
  | ak :: aks' =>
    let at_ := "api_keys[" ++ to_string (Z.of_nat i) ++ "]" in
    (if is_empty (ak_key ak) then [at_ ++ ".key: must not be empty"]
     else check (bool_decide (ak_key ak ∈ seen_keys)) (at_ ++ ".key: duplicate api key")) ++
    check (rl_capacity (ak_rate_limit ak) =? 0) (at_ ++ ".rate_limit.capacity: must be > 0") ++
    check (rl_refill_per_second (ak_rate_limit ak) =? 0)
      (at_ ++ ".rate_limit.refill_per_second: must be > 0") ++
    validate_api_keys (S i)
      (if is_empty (ak_key ak) then seen_keys else {[ak_key ak]} ∪ seen_keys) aks'
  end.

Definition validate (c : Config) : list bytes :=
  validate_scalars c ++ validate_admin (admin c) ++
  concat (validate_upstream <$> iter (uc_upstreams (upstream_config c))) ++
  validate_routes (uc_upstreams (upstream_config c)) 0 ∅ ∅ (uc_routes (upstream_config c)) ++
  validate_api_keys 0 ∅ (api_keys c).

(** * What a valid configuration is *)

Definition absolute (s : bytes) : Prop := head s = Some "/"%char.

Record server_ok (s : UpstreamServer) : Prop := {
  server_host : us_host s ≠ [];
  server_port : 0 < us_port s <= 65535;
  server_tls : us_tls s = false →
    us_tls_ca_file s = [] ∧ us_tls_server_name s = [] ∧ us_tls_skip_verify s = false;
}.

Record upstream_ok (u : Upstream) : Prop := {
  upstream_servers : up_servers u ≠ [];
  upstream_algorithm : up_algorithm u ≠ [];
  upstream_each : Forall server_ok (up_servers u);
}.

Record dependency_ok (ups : gmap bytes Upstream) (d : CompositeDependency) : Prop := {
  dep_name : cd_name d ≠ [];
  dep_path : absolute (cd_path d);
  dep_timeout : 0 < cd_timeout_ms d;
  dep_upstream_name : cd_upstream_name d ≠ [];
  dep_upstream : is_Some (ups !! cd_upstream_name d);
}.

Record route_ok (ups : gmap bytes Upstream) (r : GatewayRoute) : Prop := {
  route_name : rt_name r ≠ [];
  route_method : rt_method r ≠ [];
  route_path : absolute (rt_path r);
  route_policy : rt_rate_limit_policy r ∈ lit <$> ["api_key"; "ip"; "route"]%string;
  route_target : rt_target_type r ∈ lit <$> ["local"; "upstream"; "composite"; "static"]%string;
  route_upstream : rt_target_type r = "upstream" →
    ut_name (rt_upstream_target r) ≠ [] ∧ is_Some (ups !! ut_name (rt_upstream_target r));
  route_static : rt_target_type r = "static" → rt_static_root r ≠ [];
  route_composite : rt_target_type r = "composite" →
    ct_name (rt_composite_target r) ≠ [] ∧ ct_dependencies (rt_composite_target r) ≠ [] ∧
    0 <= ct_total_timeout_ms (rt_composite_target r) ∧
    Forall (dependency_ok ups) (ct_dependencies (rt_composite_target r));
  route_timeout : 0 < ut_timeout_ms (rt_upstream_target r);
  route_retries : 0 <= ut_max_retries (rt_upstream_target r);
  route_threshold : 0 < ut_circuit_failure_threshold (rt_upstream_target r);
  route_recovery : 0 < ut_circuit_recovery_timeout_ms (rt_upstream_target r);
}.

Record admin_ok (a : AdminConfig) : Prop := {
  admin_bind : inet_pton (adm_bind a) = true;
  admin_keys : adm_api_keys a ≠ [];
  admin_each : Forall (λ k, k ≠ []) (adm_api_keys a);
}.

Record scalars_ok (c : Config) : Prop := {
  ok_port : port c ≠ 0;
  ok_backlog : 0 < backlog c;
  ok_max_connections : max_connections c ≠ 0;
  ok_max_response_bytes : max_response_bytes c ≠ 0;
  ok_keepalive : 0 < keepalive_timeout c;
  ok_drain : 0 < shutdown_drain_timeout c;
  ok_sensitive_headers : lg_sensitive_headers (logging c) ≠ [];
  ok_sensitive_query : lg_sensitive_query_params (logging c) ≠ [];
  ok_cache_entries : cache_max_entries c ≠ 0;
  ok_cache_size : cache_max_file_size_mb c ≠ 0;
  ok_min_threads : tp_min_threads (thread_pool c) ≠ 0;
  ok_max_threads : tp_min_threads (thread_pool c) <= tp_max_threads (thread_pool c);
  ok_scale_up : tp_scale_up_threshold (thread_pool c) ≠ 0;
  ok_scale_down : tp_scale_down_threshold (thread_pool c) ≠ 0;
  ok_capacity : rl_capacity (rate_limit_config c) ≠ 0;
  ok_refill : rl_refill_per_second (rate_limit_config c) ≠ 0;
  ok_cert : tls_cert_path (tls c) ≠ [];
  ok_key : tls_key_path (tls c) ≠ [];
}.

Record config_ok (c : Config) : Prop := {
  ok_scalars : scalars_ok c;
  ok_admin : adm_enabled (admin c) = true → admin_ok (admin c);
  ok_upstreams : map_Forall (λ _ u, upstream_ok u) (uc_upstreams (upstream_config c));
  ok_routes : Forall (route_ok (uc_upstreams (upstream_config c))) (uc_routes (upstream_config c));
  ok_route_names : NoDup (rt_name <$> uc_routes (upstream_config c));
  ok_match_keys : NoDup (match_key <$> uc_routes (upstream_config c));
  ok_api_keys : Forall (λ ak, ak_key ak ≠ [] ∧ rl_capacity (ak_rate_limit ak) ≠ 0 ∧
                              rl_refill_per_second (ak_rate_limit ak) ≠ 0) (api_keys c);
  ok_distinct_keys : NoDup (ak_key <$> api_keys c);
}.
End validate.

(** * Validation meets its specification *)

Lemma imap_nil_iff {A B} (f : nat → A → list B) (P : A → Prop) l :
  (∀ i x, f i x = [] ↔ P x) → concat (imap f l) = [] ↔ Forall P l.
Proof.
  intros Hf. rewrite concat_nil_iff. revert f Hf.
  induction l as [|x l IH]; intros f Hf; [done|].
  rewrite imap_cons, !Forall_cons, Hf, IH; [done|]. intros i y. apply Hf.
Qed.

Section proofs.
  Context `{HashOrder} (inet_pton : bytes → bool).

Lemma validate_scalars_nil c : validate_scalars c = [] ↔ scalars_ok c.
Proof.
  unfold validate_scalars. checks. split.
  - intros. destruct_and!. split; done.
  - intros []. by split_and!.
Qed.

Lemma validate_admin_nil a :
  validate_admin inet_pton a = [] ↔ (adm_enabled a = true → admin_ok inet_pton a).
Proof.
  unfold validate_admin. destruct (adm_enabled a); [|done]. rewrite !app_nil_iff.
  rewrite (imap_nil_iff _ (λ k, k ≠ [])) by (intros; by checks). checks.
  split; [intros (? & ? & ?) _; by split|intros []; done].
Qed.

Lemma validate_server_nil name i s : validate_server name i s = [] ↔ server_ok s.
Proof.
  unfold validate_server. checks. rewrite andb_false_iff. checks.
  split.
  - intros (? & ? & Ht). split; [done|lia|]. intros E. rewrite E in Ht. naive_solver.
  - intros [? ? Ht]. split_and!; [done|lia..|]. destruct (us_tls s); naive_solver.
Qed.

Lemma validate_upstream_nil nu : validate_upstream nu = [] ↔ upstream_ok nu.2.
Proof.
  destruct nu as [name up]. unfold validate_upstream. rewrite !app_nil_iff.
  rewrite (imap_nil_iff _ server_ok) by (intros; apply validate_server_nil). checks.
  split; [intros (? & ? & ?); by split|intros []; done].
Qed.

Lemma not_absolute_false s : not_absolute s = false ↔ absolute s.
Proof.
  unfold absolute. destruct s as [|c s]; simpl; [done|].
  rewrite negb_false_iff, bool_decide_eq_true. naive_solver.
Qed.

Lemma validate_dependency_nil ups at_ i d : validate_dependency ups at_ i d = [] ↔ dependency_ok ups d.
Proof.
  unfold validate_dependency. checks. rewrite not_absolute_false, bool_decide_eq_true.
  split; [intros; destruct_and!; by split|intros []; by split_and!].
Qed.

Lemma validate_composite_nil ups at_ ct :
  validate_composite ups at_ ct = [] ↔
  ct_name ct ≠ [] ∧ ct_dependencies ct ≠ [] ∧ 0 <= ct_total_timeout_ms ct ∧
  Forall (dependency_ok ups) (ct_dependencies ct).
Proof.
  unfold validate_composite. rewrite !app_nil_iff.
  rewrite (imap_nil_iff _ (dependency_ok ups)) by (intros; apply validate_dependency_nil).
  by checks.
Qed.

Lemma known_target_true t :
  known_target t = true ↔ t ∈ lit <$> ["local"; "upstream"; "composite"; "static"]%string.
Proof.
  unfold known_target. rewrite !orb_true_iff, !bool_decide_eq_true. simpl. set_solver.
Qed.

Lemma known_policy_true t :
  known_policy t = true ↔ t ∈ lit <$> ["api_key"; "ip"; "route"]%string.
Proof.
  unfold known_policy. rewrite !orb_true_iff, !bool_decide_eq_true. simpl. set_solver.
Qed.

Lemma validate_route_target_nil ups at_ r :
  validate_route_target ups at_ r = [] ↔
  (rt_target_type r = "upstream" →
    ut_name (rt_upstream_target r) ≠ [] ∧ is_Some (ups !! ut_name (rt_upstream_target r))) ∧
  (rt_target_type r = "static" → rt_static_root r ≠ []) ∧
  0 < ut_timeout_ms (rt_upstream_target r) ∧ 0 <= ut_max_retries (rt_upstream_target r) ∧
  0 < ut_circuit_failure_threshold (rt_upstream_target r) ∧
  0 < ut_circuit_recovery_timeout_ms (rt_upstream_target r).
Proof.
  unfold validate_route_target. rewrite app_nil_iff, (assoc (∧)). f_equiv; [|by checks].
  case_bool_decide as E; [rewrite E|].
  - destruct (is_empty _) eqn:Hn; checks; [naive_solver|].
    rewrite bool_decide_eq_true. split; [|naive_solver].
    intros Hs. split; [done|]. intros Hx. vm_compute in Hx. done.
  - checks. rewrite andb_false_iff, bool_decide_eq_false, is_empty_false.
    destruct (decide (rt_target_type r = "static")); naive_solver.
Qed.

Lemma validate_route_body_nil ups at_ r :
  rt_name r ≠ [] → validate_route_body ups at_ r = [] ↔ route_ok ups r.
Proof.
  intros Hn. unfold validate_route_body. rewrite !app_nil_iff, validate_route_target_nil. checks.
  rewrite not_absolute_false, known_target_true, known_policy_true.
  assert ((if rt_target_type r == "composite"
           then validate_composite ups at_ (rt_composite_target r) else []) = [] ↔
          (rt_target_type r = "composite" → validate_composite ups at_ (rt_composite_target r) = []))
    as -> by (case_bool_decide; naive_solver).
  rewrite validate_composite_nil.
  split; [intros; destruct_and!; by split|intros []; by split_and!].
Qed.

(** The sets filled by the loops refuse exactly the repeated keys. *)
Definition fresh {A} (f : A → bytes) (seen : gset bytes) (l : list A) : Prop :=
  NoDup (f <$> l) ∧ Forall (λ x, f x ∉ seen) l.

Lemma fresh_nil {A} (f : A → bytes) seen : fresh f seen [].
Proof. by split; [apply NoDup_nil|]. Qed.

Lemma fresh_cons {A} (f : A → bytes) seen x l :
  fresh f seen (x :: l) ↔ (f x ∉ seen) ∧ fresh f ({[f x]} ∪ seen) l.
Proof.
  unfold fresh. rewrite fmap_cons, NoDup_cons, Forall_cons.
  rewrite list_elem_of_fmap. rewrite !Forall_forall. set_solver.
Qed.

Lemma validate_routes_nil ups i names keys rs :
  validate_routes ups i names keys rs = [] ↔
  Forall (route_ok ups) rs ∧ fresh rt_name names rs ∧ fresh match_key keys rs.
Proof.
  revert i names keys. induction rs as [|r rs IH]; intros i names keys.
  { split; [intros _|done]. auto using fresh_nil. }
  cbn [validate_routes]. rewrite !app_nil_iff, IH, !fresh_cons, Forall_cons.
  destruct (is_empty (rt_name r)) eqn:Hn; checks.
  - split; [naive_solver|]. by intros ([[] _] & _).
  - rewrite validate_route_body_nil by done. rewrite !bool_decide_eq_false. naive_solver.
Qed.

Lemma validate_api_keys_nil i seen aks :
  validate_api_keys i seen aks = [] ↔
  Forall (λ ak, ak_key ak ≠ [] ∧ rl_capacity (ak_rate_limit ak) ≠ 0 ∧
                rl_refill_per_second (ak_rate_limit ak) ≠ 0) aks ∧ fresh ak_key seen aks.
Proof.
  revert i seen. induction aks as [|ak aks IH]; intros i seen.
  { split; [intros _|done]. auto using fresh_nil. }
  cbn [validate_api_keys]. rewrite !app_nil_iff, IH, fresh_cons, Forall_cons.
  destruct (is_empty (ak_key ak)) eqn:Hn; checks; rewrite ?bool_decide_eq_false; naive_solver.
Qed.

Lemma validate_ok (c : Config) : validate inet_pton c = [] ↔ config_ok inet_pton c.
Proof.
  unfold validate. rewrite !app_nil_iff, validate_scalars_nil, validate_admin_nil.
  rewrite validate_routes_nil, validate_api_keys_nil, concat_nil_iff, Forall_fmap.
  assert (Forall ((λ x, x = []) ∘ validate_upstream) (iter (uc_upstreams (upstream_config c))) ↔
          map_Forall (λ _ u, upstream_ok u) (uc_upstreams (upstream_config c))) as ->.
  { rewrite Forall_forall, map_Forall_lookup. setoid_rewrite <- (elem_of_iter _).
    setoid_rewrite validate_upstream_nil. split; [|by intros Hu [? ?]; apply Hu].
    intros Hu k u. apply (Hu (k, u)). }
  unfold fresh. split.
  - intros. destruct_and!. by split.
  - intros []. split_and!; try done; apply Forall_true; set_solver.
Qed.

(** [Config::validate] accepts exactly the configurations that meet the
    declarative specification [config_ok]. *)
Theorem validate_correct (c : Config) : validate inet_pton c = [] ↔ config_ok inet_pton c.
Proof. apply validate_ok. Qed.
End proofs.
