(* ===== verification/ConfigFile.v ===== *)
(** Loading the configuration: [Config::from_file] and [Config::is_valid_file] of
    [include/server/config.h]. The JSON reader, the file system and the
    environment are parameters. *)

From S2P Require Import Prelude Config.

#[local] Open Scope Z_scope.
#[local] Open Scope gateway_scope.

#[local] Set Warnings "-register-all".

(** * JSON values, as [nlohmann::json] presents them *)

(** A number without fraction or exponent is an integer; an object keeps its
    members in key order. *)
Inductive json :=
| JNull
| JBool (b : bool)
| JInt (n : Z)
| JFloat
| JString (s : bytes)
| JArray (l : list json)
| JObject (m : list (bytes * json)).

(** [j.find(key)], [j.end()] for anything that is not an object. *)
Definition jfind (k : bytes) (j : json) : option json :=
  match j with JObject m => alookup k m | _ => None end.

Definition is_object (j : json) : bool := match j with JObject _ => true | _ => false end.
Definition is_null (j : json) : bool := match j with JNull => true | _ => false end.

(** [j.get<long long>()] of an integer: the unsigned ones above [LLONG_MAX] wrap. *)
Definition to_longlong (n : Z) : Z := (n + 2 ^ 63) mod 2 ^ 64 - 2 ^ 63.

(** * Collecting errors *)

(** A computation with the messages it appends to [errs]. *)
Definition collect (A : Type) : Type := A * list bytes.
Definition ret {A} (x : A) : collect A := (x, []).
Definition bind {A B} (m : collect A) (f : A → collect B) : collect B :=
  let '(x, e) := m in let '(y, e') := f x in (y, e ++ e').
Definition complain {A} (x : A) (msg : bytes) : collect A := (x, [msg]).

Notation "x <~ m ; k" := (bind m (λ x, k)) (at level 100, m at next level, right associativity).

(** The loops over arrays: [f] in order, with the accumulated value. *)
Fixpoint each {A B} (f : nat → A → B → collect A) (i : nat) (acc : A) (l : list B) : collect A :=
  match l with
  | [] => ret acc
  | x :: l' => acc' <~ f i acc x; each f (S i) acc' l'
  end.

(** * Field readers *)

(** [read_int]: the returned flag and the value of [out]. *)
Definition read_int (obj : json) (key : bytes) (min_value max_value out : Z) (context : bytes)
    : collect (bool * Z) :=
  match jfind key obj with
  | None => ret (true, out)
  | Some (JInt n) =>
    let value := to_longlong n in
    if (value <? min_value) || (max_value <? value) then
      complain (false, out)
        (context ++ key ++ ": value " ++ to_string value ++ " out of range [" ++
         to_string min_value ++ ", " ++ to_string max_value ++ "]")
    else ret (true, value)
  | Some _ => complain (false, out) (context ++ key ++ ": expected an integer")
  end.

(** [long long v = field; if (read_int(..., v, ...)) field = static_cast<...>(v);] *)
Definition int_field (obj : json) (key : bytes) (min_value max_value field : Z) (context : bytes)
    : collect Z :=
  r <~ read_int obj key min_value max_value field context;
  ret (if r.1 then r.2 else field).

(** [read_str] and [read_bool]: the value of [out]; no caller uses the flag. *)
Definition read_str (obj : json) (key : bytes) (out context : bytes) : collect bytes :=
  match jfind key obj with
  | None => ret out
  | Some (JString s) => ret s
  | Some _ => complain out (context ++ key ++ ": expected a string")
  end.

Definition read_bool (obj : json) (key : bytes) (out : bool) (context : bytes) : collect bool :=
  match jfind key obj with
  | None => ret out
  | Some (JBool b) => ret b
  | Some _ => complain out (context ++ key ++ ": expected a boolean")
  end.

(** The loop that appends the strings of an array. *)
Definition push_strings (label : bytes) (out : list bytes) (l : list json) : collect (list bytes) :=
  each (λ _ acc v,
    match v with
    | JString s => ret (acc ++ [s])
    | _ => complain acc (label ++ ": entries must be strings")
    end) 0 out l.

(** [if (obj.contains(key)) { ... is_array ... push_back ... }] *)
Definition string_array (obj : json) (key : bytes) (on_array old : list bytes) (label : bytes)
    : collect (list bytes) :=
  match jfind key obj with
  | None => ret old
  | Some (JArray l) => push_strings label on_array l
  | Some _ => complain old (label ++ ": expected an array")
  end.

(** * API keys *)

Definition read_rate_limit (rl : json) (old : RateLimitConfig) (context : bytes)
    : collect RateLimitConfig :=
  cap <~ int_field rl "capacity" 1 1000000000 (rl_capacity old) context;
  ref <~ int_field rl "refill_per_second" 1 1000000000 (rl_refill_per_second old) context;
  ret (mkRateLimit cap ref).

Definition parse_api_key (source : bytes) (i : nat) (out : list ApiKeyConfig) (item : json)
    : collect (list ApiKeyConfig) :=
  let at_ := source ++ "[" ++ to_string (Z.of_nat i) ++ "]." in
  let ak := default_ApiKeyConfig in
  key <~ read_str item "key" (ak_key ak) at_;
  name <~ read_str item "name" (ak_name ak) at_;
  rl <~ (match jfind "rate_limit" item with
         | Some rl => read_rate_limit rl (ak_rate_limit ak) (at_ ++ "rate_limit.")
         | None => ret (ak_rate_limit ak)
         end);
  hosts <~ string_array item "allowed_hosts" [] [] (at_ ++ "allowed_hosts");
  tenants <~ string_array item "allowed_tenants" [] [] (at_ ++ "allowed_tenants");
  ret (out ++ [mkApiKey key name rl hosts tenants]).

Definition parse_api_keys_array (arr : json) (source : bytes) (out : list ApiKeyConfig)
    : collect (list ApiKeyConfig) :=
  match arr with
  | JArray l => each (parse_api_key source) 0 out l
  | _ => complain out (source ++ ": expected an array")
  end.

(** * The sections of the file *)

Definition read_thread_pool (j : json) (tp : ThreadPoolConfig) : collect ThreadPoolConfig :=
  match jfind "thread_pool" j with
  | None => ret tp
  | Some o =>
    a <~ int_field o "min" 1 1000000 (tp_min_threads tp) "thread_pool.";
    b <~ int_field o "max" 1 1000000 (tp_max_threads tp) "thread_pool.";
    c <~ int_field o "scale_up" 1 1000000 (tp_scale_up_threshold tp) "thread_pool.";
    d <~ int_field o "scale_down" 1 1000000 (tp_scale_down_threshold tp) "thread_pool.";
    ret (mkThreadPool a b c d)
  end.

Definition read_logging (j : json) (lg : LoggingConfig) : collect LoggingConfig :=
  match jfind "logging" j with
  | None => ret lg
  | Some (JObject _ as o) =>
    a <~ read_bool o "access_log_enabled" (lg_access_log_enabled lg) "logging.";
    b <~ read_bool o "redact_sensitive_headers" (lg_redact_sensitive_headers lg) "logging.";
    c <~ read_bool o "redact_sensitive_query_params" (lg_redact_sensitive_query_params lg) "logging.";
    hs <~ string_array o "sensitive_headers" [] (lg_sensitive_headers lg) "logging.sensitive_headers";
    qs <~ string_array o "sensitive_query_params" [] (lg_sensitive_query_params lg)
            "logging.sensitive_query_params";
    ret (mkLogging a b c hs qs)
  | Some _ => complain lg "logging: expected an object"
  end.

(** The scheme prefix of a backend address: the host left and whether it asks
    for TLS. *)
Definition strip_scheme (host : bytes) (tls : bool) : bytes * bool :=
  if starts_with "https://" host then (drop 8 host, true)
  else if starts_with "http://" host then (drop 7 host, tls)
  else (host, tls).

Definition read_server (name : bytes) (i : nat) (servers : list UpstreamServer) (srv : json)
    : collect (list UpstreamServer) :=
  let ctx := "upstreams." ++ name ++ ".servers[" ++ to_string (Z.of_nat i) ++ "]." in
  let s := default_UpstreamServer in
  host <~ read_str srv "host" (us_host s) ctx;
  let '(host, tls) := strip_scheme host (us_tls s) in
  tls <~ read_bool srv "tls" tls ctx;
  ca <~ read_str srv "tls_ca_file" (us_tls_ca_file s) ctx;
  sni <~ read_str srv "tls_server_name" (us_tls_server_name s) ctx;
  skip <~ read_bool srv "tls_skip_verify" (us_tls_skip_verify s) ctx;
  p <~ read_int srv "port" 1 65535 80 ctx;
  ret (servers ++ [mkServer host (if p.1 then p.2 else us_port s) tls ca sni skip
                     (us_healthy s) (us_consecutive_failures s)]).

Definition read_upstream (i : nat) (ups : gmap bytes Upstream) (nv : bytes * json)
    : collect (gmap bytes Upstream) :=
  let '(name, val) := nv in
  servers <~ (match jfind "servers" val with
              | None => ret []
              | Some (JArray l) => each (read_server name) 0 [] l
              | Some _ => complain [] ("upstreams." ++ name ++ ".servers: expected an array")
              end);
  alg <~ read_str val "algorithm" (up_algorithm default_Upstream) ("upstreams." ++ name ++ ".");
  ret (<[name := mkUpstream servers alg]> ups).

Definition read_upstreams (j : json) (ups : gmap bytes Upstream) : collect (gmap bytes Upstream) :=
  match jfind "upstreams" j with
  | None => ret ups
  | Some (JObject m) => each read_upstream 0 ups m
  | Some _ => complain ups "upstreams: expected an object"
  end.

(** * Routes *)

Definition read_dependency (_ : nat) (deps : list CompositeDependency) (dep_json : json)
    : collect (list CompositeDependency) :=
  if negb (is_object dep_json) then
    complain deps "route.composite_target.dependencies: entries must be objects"
  else
    let ctx := "route.composite_target.dependencies[]." : bytes in
    let d := default_CompositeDependency in
    name <~ read_str dep_json "name" (cd_name d) ctx;
    up <~ read_str dep_json "upstream_name" (cd_upstream_name d) ctx;
    path <~ read_str dep_json "path" (cd_path d) ctx;
    method <~ read_str dep_json "method" (cd_method d) ctx;
    required <~ read_bool dep_json "required" (cd_required d) ctx;
    timeout <~ int_field dep_json "timeout_ms" 1 600000 (cd_timeout_ms d) ctx;
    ret (deps ++ [mkDependency name up path method required timeout]).

Definition read_composite_target (item : json) : collect CompositeTarget :=
  let d := default_CompositeTarget in
  match jfind "composite_target" item with
  | None => ret d
  | Some ct =>
    name <~ read_str ct "name" (ct_name d) "route.composite_target.";
    total <~ int_field ct "total_timeout_ms" 0 600000 (ct_total_timeout_ms d) "route.composite_target.";
    deps <~ (match jfind "dependencies" ct with
             | None => ret (ct_dependencies d)
             | Some (JArray l) => each read_dependency 0 (ct_dependencies d) l
             | Some _ => complain (ct_dependencies d)
                           "route.composite_target.dependencies: expected an array"
             end);
    ret (mkComposite name deps total)
  end.

Definition read_upstream_target (item : json) (legacy_timeout_ms : Z) : collect UpstreamTarget :=
  match jfind "upstream_target" item with
  | Some target =>
    let ctx := "route.upstream_target." : bytes in
    let d := default_UpstreamTarget in
    name <~ read_str target "name" (ut_name d) ctx;
    timeout <~ int_field target "timeout_ms" 1 600000 (ut_timeout_ms d) ctx;
    retries <~ int_field target "max_retries" 0 100 (ut_max_retries d) ctx;
    threshold <~ int_field target "circuit_failure_threshold" 1 1000000
                   (ut_circuit_failure_threshold d) ctx;
    recovery <~ int_field target "circuit_recovery_timeout_ms" 1 86400000
                  (ut_circuit_recovery_timeout_ms d) ctx;
    ret (mkTarget name timeout retries threshold recovery)
  | None => ret (mkTarget [] legacy_timeout_ms 1 5 10000)
  end.

Definition read_route (_ : nat) (routes : list GatewayRoute) (item : json)
    : collect (list GatewayRoute) :=
  let ctx := "route." : bytes in
  let r := default_GatewayRoute in
  name <~ read_str item "name" (rt_name r) ctx;
  method <~ read_str item "method" (rt_method r) ctx;
  path <~ read_str item "path" (rt_path r) ctx;
  host <~ read_str item "host" (rt_host r) ctx;
  tenant <~ read_str item "tenant" (rt_tenant r) ctx;
  target_type <~ read_str item "target_type" (rt_target_type r) ctx;
  handler <~ read_str item "handler" (rt_handler_name r) ctx;
  static_root <~ read_str item "static_root" (rt_static_root r) ctx;
  composite <~ read_composite_target item;
  enabled <~ read_bool item "enabled" (rt_enabled r) ctx;
  auth_required <~ read_bool item "auth_required" (rt_auth_required r) ctx;
  allow_anonymous <~ read_bool item "allow_anonymous" (rt_allow_anonymous r) ctx;
  policy <~ read_str item "rate_limit_policy" (rt_rate_limit_policy r) ctx;
  legacy <~ read_int item "timeout_ms" 1 600000 5000 ctx;
  upstream <~ read_upstream_target item legacy.2;
  allowed <~ string_array item "allowed_api_keys" [] [] "route.allowed_api_keys";
  denied <~ string_array item "denied_api_keys" [] [] "route.denied_api_keys";
  ret (routes ++ [mkRoute name method path host tenant target_type handler upstream composite
                    static_root enabled auth_required allow_anonymous policy allowed denied]).

Definition read_routes (j : json) (routes : list GatewayRoute) : collect (list GatewayRoute) :=
  match jfind "routes" j with
  | None => ret routes
  | Some (JArray l) => each read_route 0 routes l
  | Some _ => complain routes "routes: expected an array"
  end.

Definition read_tls (j : json) (t : TlsConfig) : collect TlsConfig :=
  match jfind "tls" j with
  | None => ret t
  | Some (JObject _ as o) =>
    cert <~ read_str o "cert_path" (tls_cert_path t) "tls.";
    key <~ read_str o "key_path" (tls_key_path t) "tls.";
    ret (mkTls cert key)
  | Some _ => complain t "tls: expected an object"
  end.

Definition read_admin (j : json) (a : AdminConfig) : collect AdminConfig :=
  match jfind "admin" j with
  | None => ret a
  | Some (JObject _ as o) =>
    enabled <~ read_bool o "enabled" (adm_enabled a) "admin.";
    p <~ int_field o "port" 1 65535 (adm_port a) "admin.";
    bind_ <~ read_str o "bind" (adm_bind a) "admin.";
    keys <~ string_array o "api_keys" [] (adm_api_keys a) "admin.api_keys";
    ret (mkAdmin enabled p bind_ keys)
  | Some _ => complain a "admin: expected an object"
  end.

(** * Config::from_file *)
Section from_file.
  (** A file's contents, [None] when it cannot be opened. *)
  Variable open_file : bytes → option bytes.
  (** [ifs >> j]: the value left in [j] and the exception's [what()], if any. *)
  Variable stream_json : bytes → json * option bytes.
  (** [nlohmann::json::parse], [None] when it throws. *)
  Variable parse_json : bytes → option json.
  (** [getenv("GW_API_KEYS")] *)
  Variable env_keys : option bytes.

Definition is_valid_file (path : bytes) : bool :=
  match open_file path with
  | None => false
  | Some contents =>
    match stream_json contents with
    | (j, None) => is_object j
    | (_, Some _) => false
    end
  end.

Definition apply_env_keys (cfg : Config) : collect Config :=
  match env_keys with
  | None | Some [] => ret cfg
  | Some text =>
    ej <~ (match parse_json text with
           | Some j => ret j
           | None => complain JNull "GW_API_KEYS: invalid JSON"
           end);
    if negb (is_null ej) then
      keys <~ parse_api_keys_array ej "GW_API_KEYS" [];
      ret (cfg{{api_keys := keys; api_keys_file := lit "<env:GW_API_KEYS>"}})
    else ret cfg
  end.

(** The file named by [api_keys_file]. *)
Definition apply_key_file (cfg : Config) : collect Config :=
  if is_empty (api_keys_file cfg) then ret cfg
  else
    match open_file (api_keys_file cfg) with
    | None => complain cfg ("api_keys_file: cannot open '" ++ api_keys_file cfg ++ "'")
    | Some contents =>
      kj <~ (match stream_json contents with
             | (j, None) => ret j
             | (j, Some what) =>
               complain j ("api_keys_file: invalid JSON in '" ++ api_keys_file cfg ++ "': " ++ what)
             end);
      if negb (is_null kj) then
        keys <~ parse_api_keys_array kj "api_keys_file" [];
        ret (cfg{{api_keys := keys}})
      else ret cfg
    end.

(** The fields of the top-level object, in the order they are read. *)
Definition read_object (j : json) (c : Config) : collect Config :=
  p <~ int_field j "port" 1 65535 (port c) "";
  bl <~ int_field j "backlog" 1 65535 (backlog c) "";
  nw <~ int_field j "num_workers" 0 1024 (num_workers c) "";
  www <~ read_str j "www_root" (www_root c) "";
  tp <~ read_thread_pool j (thread_pool c);
  ce <~ int_field j "cache_max_entries" 1 1000000000 (cache_max_entries c) "";
  cs <~ int_field j "cache_max_file_size_mb" 1 1000000 (cache_max_file_size_mb c) "";
  mc <~ int_field j "max_connections" 1 1000000000 (max_connections c) "";
  mr <~ int_field j "max_response_bytes" 1 (4 * 1024 * 1024 * 1024) (max_response_bytes c) "";
  ka <~ int_field j "keepalive_timeout" 1 86400 (keepalive_timeout c) "";
  sd <~ int_field j "shutdown_drain_timeout" 1 86400 (shutdown_drain_timeout c) "";
  lg <~ read_logging j (logging c);
  ups <~ read_upstreams j (uc_upstreams (upstream_config c));
  hc <~ int_field j "upstream_health_check_timeout_ms" 1 600000
          (uc_health_check_timeout_ms (upstream_config c)) "";
  routes <~ read_routes j (uc_routes (upstream_config c));
  t <~ read_tls j (tls c);
  adm <~ read_admin j (admin c);
  rl <~ (match jfind "rate_limit" j with
         | Some o => read_rate_limit o (rate_limit_config c) "rate_limit."
         | None => ret (rate_limit_config c)
         end);
  kf <~ read_str j "api_keys_file" (api_keys_file c) "";
  keys <~ (match jfind "api_keys" j with
           | Some a => parse_api_keys_array a "api_keys" (api_keys c)
           | None => ret (api_keys c)
           end);
  ret (mkConfig p bl mc mr nw www ce cs ka sd tp (mkUpstreamConfig ups routes hc) t lg adm rl keys kf).

Definition from_file (path : bytes) : collect Config :=
  let config := default_Config in
  match open_file path with
  | None => apply_env_keys config
  | Some contents =>
    match stream_json contents with
    | (_, Some what) => complain config ("invalid JSON: " ++ what)
    | (j, None) =>
      if negb (is_object j) then complain config "top-level value must be a JSON object"
      else
        config <~ read_object j config;
        config <~ apply_key_file config;
        apply_env_keys config
    end
  end.
End from_file.

(** * Ranges *)

Definition between (lo hi z : Z) : Prop := lo <= z <= hi.

Definition rate_in_range (r : RateLimitConfig) : Prop :=
  between 1 1000000000 (rl_capacity r) ∧ between 1 1000000000 (rl_refill_per_second r).

Definition thread_pool_in_range (t : ThreadPoolConfig) : Prop :=
  between 1 1000000 (tp_min_threads t) ∧ between 1 1000000 (tp_max_threads t) ∧
  between 1 1000000 (tp_scale_up_threshold t) ∧ between 1 1000000 (tp_scale_down_threshold t).

Definition target_in_range (t : UpstreamTarget) : Prop :=
  between 1 600000 (ut_timeout_ms t) ∧ between 0 100 (ut_max_retries t) ∧
  between 1 1000000 (ut_circuit_failure_threshold t) ∧
  between 1 86400000 (ut_circuit_recovery_timeout_ms t).

Definition composite_in_range (t : CompositeTarget) : Prop :=
  between 0 600000 (ct_total_timeout_ms t) ∧
  Forall (λ d, between 1 600000 (cd_timeout_ms d)) (ct_dependencies t).

Definition route_in_range (r : GatewayRoute) : Prop :=
  target_in_range (rt_upstream_target r) ∧ composite_in_range (rt_composite_target r).

Definition upstream_in_range (u : Upstream) : Prop :=
  Forall (λ s, between 1 65535 (us_port s)) (up_servers u).

Record in_ranges (c : Config) : Prop := {
  rg_port : between 1 65535 (port c);
  rg_backlog : between 1 65535 (backlog c);
  rg_workers : between 0 1024 (num_workers c);
  rg_connections : between 1 1000000000 (max_connections c);
  rg_response : between 1 (2 ^ 32) (max_response_bytes c);
  rg_cache : between 1 1000000000 (cache_max_entries c);
  rg_file_size : between 1 1000000 (cache_max_file_size_mb c);
  rg_keepalive : between 1 86400 (keepalive_timeout c);
  rg_drain : between 1 86400 (shutdown_drain_timeout c);
  rg_pool : thread_pool_in_range (thread_pool c);
  rg_health : between 1 600000 (uc_health_check_timeout_ms (upstream_config c));
  rg_admin : between 1 65535 (adm_port (admin c));
  rg_rate : rate_in_range (rate_limit_config c);
  rg_keys : Forall (rate_in_range ∘ ak_rate_limit) (api_keys c);
  rg_upstreams : map_Forall (λ _ u, upstream_in_range u) (uc_upstreams (upstream_config c));
  rg_routes : Forall route_in_range (uc_routes (upstream_config c));
}.

(** A computation whose value has a property, whatever it complains about. *)
Definition yields {A} (P : A → Prop) (m : collect A) : Prop := P m.1.

Create HintDb yields.

Lemma yields_ret {A} (P : A → Prop) x : P x → yields P (ret x).
Proof. done. Qed.

Lemma yields_complain {A} (P : A → Prop) x msg : P x → yields P (complain x msg).
Proof. done. Qed.

Lemma yields_bind {A B} (Q : A → Prop) (P : B → Prop) m f :
  yields Q m → (∀ x, Q x → yields P (f x)) → yields P (bind m f).
Proof.
  unfold yields, bind. destruct m as [x e]. simpl. intros Hx Hf.
  specialize (Hf x Hx). by destruct (f x).
Qed.

Lemma yields_any {A B} (P : B → Prop) (m : collect A) f :
  (∀ x, yields P (f x)) → yields P (bind m f).
Proof. intros Hf. apply (yields_bind (λ _, True)); [done|]. auto. Qed.

Lemma yields_each {A B} (P : A → Prop) (f : nat → A → B → collect A) i acc l :
  P acc → (∀ i acc x, P acc → yields P (f i acc x)) → yields P (each f i acc l).
Proof.
  intros Hacc Hf. revert i acc Hacc. induction l as [|x l IH]; intros i acc Hacc; [done|].
  simpl. eapply yields_bind; [by apply Hf|]. intros acc'. apply IH.
Qed.

Lemma yields_read_int obj key lo hi out ctx :
  between lo hi out → yields (λ r, between lo hi r.2) (read_int obj key lo hi out ctx).
Proof.
  intros Hout. unfold read_int, yields. repeat case_match; try done. simpl.
  rewrite orb_false_iff, !Z.ltb_ge in *. unfold between. tauto.
Qed.

Lemma yields_int_field obj key lo hi old ctx :
  between lo hi old → yields (between lo hi) (int_field obj key lo hi old ctx).
Proof.
  intros Hold. unfold int_field. eapply yields_bind; [by apply yields_read_int|].
  intros [[] v] Hv; by apply yields_ret.
Qed.

#[export] Hint Resolve yields_ret yields_complain yields_read_int yields_int_field : yields.
#[export] Hint Extern 1 (between _ _ _) => (unfold between; simpl; lia) : yields.

(** One reader after another: a reader with a registered range keeps it, the
    others yield anything. *)
Ltac readers :=
  repeat match goal with
  | |- yields _ (bind (match _ with _ => _ end) _) => fail 1
  | |- yields _ (bind _ _) =>
    first [eapply yields_bind; [solve [eauto 3 with yields]|intros ??]
          |apply yields_any; intros ?]
  end.

Lemma yields_read_rate_limit rl old ctx :
  rate_in_range old → yields rate_in_range (read_rate_limit rl old ctx).
Proof. intros [??]. unfold read_rate_limit. readers. by apply yields_ret. Qed.
#[export] Hint Resolve yields_read_rate_limit : yields.

Lemma yields_parse_api_keys arr source out :
  Forall (rate_in_range ∘ ak_rate_limit) out →
  yields (Forall (rate_in_range ∘ ak_rate_limit)) (parse_api_keys_array arr source out).
Proof.
  intros Hout. destruct arr; auto with yields. apply yields_each; [done|].
  intros i acc x Hacc. unfold parse_api_key. readers.
  eapply (yields_bind rate_in_range).
  - case_match; [apply yields_read_rate_limit|apply yields_ret]; done.
  - intros rl Hrl. readers. apply yields_ret. by rewrite Forall_app, Forall_singleton.
Qed.

Lemma yields_read_thread_pool j tp :
  thread_pool_in_range tp → yields thread_pool_in_range (read_thread_pool j tp).
Proof.
  intros (? & ? & ? & ?). unfold read_thread_pool. case_match; [|by apply yields_ret].
  readers. by apply yields_ret.
Qed.

Lemma yields_read_upstreams j ups :
  map_Forall (λ _ u, upstream_in_range u) ups →
  yields (map_Forall (λ _ u, upstream_in_range u)) (read_upstreams j ups).
Proof.
  intros Hups. unfold read_upstreams. repeat case_match; auto with yields.
  apply yields_each; [done|]. intros i acc [name val] Hacc. unfold read_upstream.
  apply (yields_bind (Forall (λ s, between 1 65535 (us_port s)))).
  - repeat case_match; auto with yields. apply yields_each; [done|].
    intros k acc' x Hacc'. unfold read_server. apply yields_any. intros host.
    destruct (strip_scheme host _) as [host' tls]. readers.
    apply yields_ret. rewrite Forall_app, Forall_singleton.
    split; [done|]. simpl. by case_match.
  - intros servers Hs. readers. apply yields_ret. by apply map_Forall_insert_2.
Qed.

Lemma yields_read_composite_target item : yields composite_in_range (read_composite_target item).
Proof.
  unfold read_composite_target. case_match; [|by apply yields_ret]. readers.
  apply (yields_bind (Forall (λ d, between 1 600000 (cd_timeout_ms d)))).
  - repeat case_match; auto with yields. apply yields_each; [done|].
    intros k acc y Hacc. unfold read_dependency. case_match; [by apply yields_complain|].
    readers. apply yields_ret. by rewrite Forall_app, Forall_singleton.
  - intros deps Hd. by apply yields_ret.
Qed.

Lemma yields_read_upstream_target item legacy :
  between 1 600000 legacy → yields target_in_range (read_upstream_target item legacy).
Proof.
  intros Hl. unfold read_upstream_target. case_match; [readers|]; by apply yields_ret.
Qed.
#[export] Hint Resolve yields_read_composite_target yields_read_upstream_target : yields.

Lemma yields_read_routes j routes :
  Forall route_in_range routes → yields (Forall route_in_range) (read_routes j routes).
Proof.
  intros Hr. unfold read_routes. repeat case_match; auto with yields.
  apply yields_each; [done|]. intros i acc x Hacc. unfold read_route. readers.
  apply yields_ret. by rewrite Forall_app, Forall_singleton.
Qed.

Lemma yields_read_admin j a :
  between 1 65535 (adm_port a) → yields (λ a, between 1 65535 (adm_port a)) (read_admin j a).
Proof.
  intros Ha. unfold read_admin. repeat case_match; auto with yields. readers. by apply yields_ret.
Qed.
#[export] Hint Resolve yields_parse_api_keys yields_read_thread_pool yields_read_upstreams
  yields_read_routes yields_read_admin : yields.

Lemma default_in_ranges : in_ranges default_Config.
Proof. split; try done; apply map_Forall_empty. Qed.

Lemma yields_read_object j c : in_ranges c → yields in_ranges (read_object j c).
Proof.
  intros []. unfold read_object. readers.
  apply (yields_bind rate_in_range); [case_match; auto with yields|]. intros ??. readers.
  apply (yields_bind (Forall (rate_in_range ∘ ak_rate_limit))); [case_match; auto with yields|].
  intros ??. apply yields_ret. by split.
Qed.

Lemma from_file_ranges open_file stream_json parse_json env_keys path :
  in_ranges (from_file open_file stream_json parse_json env_keys path).1.
Proof.
  assert (Henv : ∀ c, in_ranges c → yields in_ranges (apply_env_keys parse_json env_keys c)).
  { intros c Hc. unfold apply_env_keys. repeat case_match; auto with yields.
    apply yields_any. intros ej. case_match; [|by apply yields_ret].
    readers. destruct Hc. apply yields_ret. by split. }
  unfold from_file. change (yields in_ranges ?m) with (in_ranges m.1) in *.
  pose proof default_in_ranges as Hd. repeat case_match; try (by apply Henv); try done.
  eapply yields_bind; [by apply yields_read_object|]. intros c Hc.
  apply (yields_bind in_ranges); [|by apply Henv].
  unfold apply_key_file. repeat case_match; auto with yields.
  all: apply yields_any; intros kj; case_match; [|by apply yields_ret].
  all: readers; destruct Hc; apply yields_ret; by split.
Qed.

(** Whatever the configuration file, the key file and the environment hold,
    every number of the loaded configuration is within its documented range: a
    field that is missing or refused keeps a default that is in range too. *)
Theorem from_file_in_ranges open_file stream_json parse_json env_keys path :
  in_ranges (from_file open_file stream_json parse_json env_keys path).1.
Proof. apply from_file_ranges. Qed.

(** * What a caller depends on *)

(** The files, the environment and [inet_pton], as the loader sees them. *)
Record ConfigEnv := mkConfigEnv {
  ce_open : bytes → option bytes;
  ce_stream : bytes → json * option bytes;
  ce_parse : bytes → option json;
  ce_keys : option bytes;
  ce_inet_pton : bytes → bool;
}.

Definition file_ok (env : ConfigEnv) (path : bytes) : bool := is_valid_file (ce_open env) (ce_stream env) path.

Definition file_config (env : ConfigEnv) (path : bytes) : Config * list bytes :=
  from_file (ce_open env) (ce_stream env) (ce_parse env) (ce_keys env) path.
