(* ===== verification/Double.v ===== *)
(** [double]: IEEE binary64 with round to nearest even, through the executable
    [SpecFloat] of the Standard Library. *)

From Stdlib Require Import Floats.SpecFloat.
From S2P Require Import Prelude.

#[local] Open Scope Z_scope.

Definition prec : Z := 53.
Definition emax : Z := 1024.

Abbreviation double := spec_float.

(** Conversion of an integer. *)
Definition of_Z (z : Z) : double := binary_normalize prec emax z 0 false.

Definition dadd : double → double → double := SFadd prec emax.
Definition dsub : double → double → double := SFsub prec emax.
Definition dmul : double → double → double := SFmul prec emax.
Definition ddiv : double → double → double := SFdiv prec emax.
Definition dzero : double := S754_zero false.

Arguments of_Z _ : simpl never.
Arguments dadd _ _ : simpl never.
Arguments dsub _ _ : simpl never.
Arguments dmul _ _ : simpl never.
Arguments ddiv _ _ : simpl never.

(** A decimal literal [n/d], with both terms exact: the division is the
    correctly rounded value. *)
Definition of_ratio (n d : Z) : double := ddiv (of_Z n) (of_Z d).

Definition dle (x y : double) : bool :=
  match SFcompare x y with Some Lt | Some Eq => true | _ => false end.

Definition dlt (x y : double) : bool :=
  match SFcompare x y with Some Lt => true | _ => false end.

(** [std::chrono::duration<double>(ns).count()] *)
Definition seconds (ns : Z) : double := ddiv (of_Z ns) (of_Z 1000000000).

(** The magnitude of a finite number, truncated. *)
Definition trunc_mag (m : positive) (e : Z) : Z :=
  if e <? 0 then Z.pos m / 2 ^ (- e) else Z.pos m * 2 ^ e.

(** [static_cast<size_t>(x)]: truncation toward zero, undefined ([None]) when
    the truncated value is not a [size_t]. *)
Definition to_size_t (x : double) : option Z :=
  match x with
  | S754_zero _ => Some 0
  | S754_finite s m e =>
    let n := trunc_mag m e in
    if n =? 0 then Some 0
    else if s then None
    else if n <=? SIZE_MAX then Some n else None
  | S754_infinity _ | S754_nan => None
  end.

Lemma trunc_mag_nonneg m e : 0 <= trunc_mag m e.
Proof.
  unfold trunc_mag. destruct (Z.ltb_spec e 0).
  - apply Z.div_pos; [lia|]. apply Z.pow_pos_nonneg; lia.
  - apply Z.mul_nonneg_nonneg; [lia|]. by apply Z.pow_nonneg.
Qed.

Lemma to_size_t_range x n : to_size_t x = Some n → 0 <= n <= SIZE_MAX.
Proof.
  assert (0 <= SIZE_MAX) by (unfold SIZE_MAX; lia).
  unfold to_size_t. destruct x as [s|s| |s m e]; [intros [= <-]; lia|discriminate..|].
  pose proof (trunc_mag_nonneg m e). intros Hn.
  destruct (Z.eqb_spec (trunc_mag m e) 0); [simplify_eq; lia|].
  destruct s; [discriminate|]. destruct (Z.leb_spec (trunc_mag m e) SIZE_MAX); [|discriminate].
  simplify_eq. lia.
Qed.

(** Nothing elapsed: the product with any finite rate is zero, and adding it
    changes nothing. *)
Lemma seconds_zero : seconds 0 = dzero.
Proof. done. Qed.

Definition is_finite (x : double) : bool :=
  match x with S754_zero _ | S754_finite _ _ _ => true | _ => false end.

Lemma dmul_zero_l x : is_finite x = true → ∃ s, dmul dzero x = S754_zero s.
Proof. destruct x as [s| | |s m e]; try done; intros _; by exists s. Qed.

Lemma to_size_t_add_zero s x : to_size_t (dadd (S754_zero s) x) = to_size_t x.
Proof. destruct x as [s'| | |]; try done. by destruct s, s'. Qed.
