(* ===== verification/RateLimiter.v ===== *)
(** Token buckets: [src/server/rate_limiter.cpp] and
    [include/server/rate_limiter_manager.h]. Clock readings (nanoseconds of
    [steady_clock]) are inputs. *)

From S2P Require Import Prelude Double Config.

#[local] Open Scope Z_scope.
#[local] Open Scope gateway_scope.

(** * RateLimiter *)

Record RateLimiter := mkLimiter {
  capacity_ : Z;
  refill_per_second_ : Z;
  tokens_ : Z;
  last_refill_ : Z;
  tokens_fraction_ : double;
}.

Definition limiter_new (capacity refill_per_second now : Z) : RateLimiter :=
  mkLimiter capacity refill_per_second capacity now dzero.

(** The refill of [try_acquire]: the whole tokens earned since the last call;
    [None] where [static_cast<size_t>] is undefined. *)
Definition refill (now : Z) (l : RateLimiter) : option (Z * RateLimiter) :=
  let elapsed := seconds (now - last_refill_ l) in
  let new_tokens := dadd (dmul elapsed (of_Z (refill_per_second_ l))) (tokens_fraction_ l) in
  match to_size_t new_tokens with
  | None => None
  | Some whole =>
    let l := l{{last_refill_ := now; tokens_fraction_ := dsub new_tokens (of_Z whole)}} in
    Some (whole,
          if 0 <? whole then l{{tokens_ ::= fun t => Z.min (capacity_ l) (wrap64 (t + whole))}}
          else l)
  end.

Definition try_acquire (now : Z) (l : RateLimiter) : option (bool * RateLimiter) :=
  match refill now l with
  | None => None
  | Some (_, l) =>
    Some (if 0 <? tokens_ l then (true, l{{tokens_ ::= fun t => t - 1}}) else (false, l))
  end.

(** A sequence of calls: the decisions, the tokens refilled and the final bucket. *)
Fixpoint acquire_all (times : list Z) (l : RateLimiter) : option (list bool * Z * RateLimiter) :=
  match times with
  | [] => Some ([], 0, l)
  | now :: times' =>
    match refill now l, try_acquire now l with
    | Some (whole, _), Some (ok, l') =>
      match acquire_all times' l' with
      | Some (oks, total, l'') => Some (ok :: oks, whole + total, l'')
      | None => None
      end
    | _, _ => None
    end
  end.

Definition admitted (oks : list bool) : Z := foldr (λ (ok : bool) n, (if ok then 1 else 0) + n) 0 oks.

(** * Properties of one bucket *)

Definition limiter_inv (l : RateLimiter) : Prop := 0 <= tokens_ l <= capacity_ l.

Lemma refill_inv now l whole l' :
  limiter_inv l → refill now l = Some (whole, l') →
  limiter_inv l' ∧ capacity_ l' = capacity_ l ∧ refill_per_second_ l' = refill_per_second_ l ∧
  0 <= whole ∧ tokens_ l' <= tokens_ l + whole.
Proof.
  unfold limiter_inv, refill. intros Hl H. case_match eqn:Ht; simplify_eq.
  apply to_size_t_range in Ht as [? _]. destruct l; simpl in *.
  assert (0 <= wrap64 (tokens_0 + whole) <= tokens_0 + whole).
  { unfold wrap64. split; [by apply Z.mod_pos_bound|]. apply Z.mod_le; lia. }
  case_match; simpl; split_and!; try done; bool_props; lia.
Qed.

Lemma try_acquire_inv now l ok l' whole l1 :
  limiter_inv l → refill now l = Some (whole, l1) → try_acquire now l = Some (ok, l') →
  limiter_inv l' ∧ capacity_ l' = capacity_ l ∧ refill_per_second_ l' = refill_per_second_ l ∧
  tokens_ l' + (if ok then 1 else 0) <= tokens_ l + whole.
Proof.
  unfold try_acquire. intros Hl Hr H. apply refill_inv in Hr as Hr'; [|done].
  rewrite Hr in H. destruct Hr' as (Hi & ? & ? & ? & ?). unfold limiter_inv in *.
  destruct l1; simpl in *. case_match; simplify_eq/=; bool_props; split_and!; try done; lia.
Qed.

Lemma admitted_cons ok oks : admitted (ok :: oks) = (if ok then 1 else 0) + admitted oks.
Proof. done. Qed.

(** Over any sequence of calls a bucket stays within its capacity, and the
    requests admitted never exceed the tokens it started with plus the whole
    tokens refilled. *)
Theorem acquire_all_conservation times l oks total l' :
  limiter_inv l → acquire_all times l = Some (oks, total, l') →
  limiter_inv l' ∧ admitted oks + tokens_ l' <= tokens_ l + total ∧
  admitted oks <= capacity_ l + total.
Proof.
  intros Hl H. enough (limiter_inv l' ∧ admitted oks + tokens_ l' <= tokens_ l + total)
    by (unfold limiter_inv in *; split_and!; lia || naive_solver).
  revert l oks total Hl H. induction times as [|now times IH]; intros l oks total Hl H; simplify_eq/=.
  { split; [done|]. simpl. lia. }
  repeat case_match; simplify_eq. eapply try_acquire_inv in Hl as (Hl' & _ & _ & ?); [|done..].
  edestruct IH as [??]; [done..|]. split; [done|]. rewrite admitted_cons. lia.
Qed.

(** Nothing is refilled while the clock stands still. *)
Definition settled (l : RateLimiter) : Prop :=
  is_finite (of_Z (refill_per_second_ l)) = true ∧ to_size_t (tokens_fraction_ l) = Some 0.

Lemma dsub_zero x : to_size_t x = Some 0 → to_size_t (dsub x (of_Z 0)) = Some 0.
Proof. by destruct x as [[]| | |]. Qed.

Lemma refill_still l :
  settled l → ∃ l', refill (last_refill_ l) l = Some (0, l') ∧ settled l' ∧
    tokens_ l' = tokens_ l ∧ last_refill_ l' = last_refill_ l.
Proof.
  intros [Hf Ht]. unfold refill. rewrite Z.sub_diag, seconds_zero.
  destruct (dmul_zero_l _ Hf) as [s ->]. rewrite to_size_t_add_zero, Ht.
  eexists. split; [done|]. destruct l; simpl in *. split_and!; try done.
  split; [done|]. simpl. apply dsub_zero. by rewrite to_size_t_add_zero.
Qed.

Lemma acquire_all_still n l :
  settled l → 0 <= tokens_ l →
  ∃ l', acquire_all (replicate n (last_refill_ l)) l =
    Some (replicate (n `min` Z.to_nat (tokens_ l)) true ++
          replicate (n - Z.to_nat (tokens_ l)) false, 0, l').
Proof.
  revert l. induction n as [|n IH]; intros l Hs Ht; simpl; [eauto|].
  destruct (refill_still l Hs) as (l1 & Hr & Hs1 & Ht1 & Hl1).
  unfold try_acquire. rewrite Hr, Ht1. rewrite <- Hl1. destruct (Z.ltb_spec 0 (tokens_ l)).
  - edestruct (IH (l1{{tokens_ ::= fun t => t - 1}})) as [l' E]; [by destruct l1|destruct l1; simpl in *; lia|].
    exists l'. destruct l1; simpl in *. subst. rewrite E.
    replace (Z.to_nat (tokens_ l)) with (S (Z.to_nat (tokens_ l - 1))) by lia. done.
  - edestruct (IH l1) as [l' E]; [done|lia|]. exists l'. rewrite E, Ht1.
    replace (Z.to_nat (tokens_ l)) with 0%nat by lia. by rewrite Nat.min_0_r, Nat.sub_0_r.
Qed.

(** A new bucket admits exactly its capacity in a burst: of [n] calls at one
    instant the first [capacity] are let through and the others refused. *)
Theorem burst_exact capacity rate now n :
  0 <= capacity → is_finite (of_Z rate) = true →
  ∃ l', acquire_all (replicate n now) (limiter_new capacity rate now) =
    Some (replicate (n `min` Z.to_nat capacity) true ++
          replicate (n - Z.to_nat capacity) false, 0, l').
Proof. intros Hc Hr. by apply (acquire_all_still n (limiter_new capacity rate now)). Qed.

(** * RateLimiterManager *)

Record RateLimiterManager := mkManager {
  limiters_ : gmap bytes RateLimiter;
  last_used_ : gmap bytes Z;
  default_config_ : RateLimitConfig;
}.

Definition manager_new (default_config : RateLimitConfig) : RateLimiterManager :=
  mkManager ∅ ∅ default_config.

Definition update_default_config (config : RateLimitConfig) (m : RateLimiterManager)
    : RateLimiterManager := m{{default_config_ := config}}.

(** [now] is read three times: at the construction of a missing limiter, for
    [last_used_] and inside [RateLimiter::try_acquire]. *)
Record clock := mkClock { at_create : Z; at_use : Z; at_acquire : Z }.

Definition try_acquire_locked (key : bytes) (config : RateLimitConfig) (t : clock)
    (m : RateLimiterManager) : option (bool * RateLimiterManager) :=
  let l := default (limiter_new (rl_capacity config) (rl_refill_per_second config) (at_create t))
             (limiters_ m !! key) in
  match try_acquire (at_acquire t) l with
  | None => None
  | Some (ok, l) =>
    Some (ok, m{{limiters_ ::= <[key := l]>; last_used_ ::= <[key := at_use t]> }})
  end.

(** [try_acquire(key)], with the default configuration. *)
Definition try_acquire_default (key : bytes) (t : clock) (m : RateLimiterManager)
    : option (bool * RateLimiterManager) :=
  try_acquire_locked key (default_config_ m) t m.

(** [cleanup(idle)], in nanoseconds: one pass over the limiters. *)
Definition expired (idle now : Z) (m : RateLimiterManager) (key : bytes) : bool :=
  match last_used_ m !! key with
  | Some last => idle <? now - last
  | None => false
  end.

Definition cleanup (idle now : Z) (m : RateLimiterManager) : RateLimiterManager :=
  m{{limiters_ := filter (λ kl, expired idle now m kl.1 = false) (limiters_ m);
     last_used_ := filter (λ ku, expired idle now m ku.1 = false ∨
                                 limiters_ m !! ku.1 = None) (last_used_ m)}}.

Definition DEFAULT_IDLE : Z := 600 * 10 ^ 9.

(** The calls made on the manager. *)
Inductive manager_op :=
| Acquire (key : bytes) (config : RateLimitConfig) (t : clock)
| AcquireDefault (key : bytes) (t : clock)
| Cleanup (idle now : Z)
| UpdateDefault (config : RateLimitConfig).

(** What an operation answers, if it is a question. *)
Definition manager_step (op : manager_op) (m : RateLimiterManager)
    : option (option bool * RateLimiterManager) :=
  match op with
  | Acquire key config t =>
    match try_acquire_locked key config t m with Some (ok, m) => Some (Some ok, m) | None => None end
  | AcquireDefault key t =>
    match try_acquire_default key t m with Some (ok, m) => Some (Some ok, m) | None => None end
  | Cleanup idle now => Some (None, cleanup idle now m)
  | UpdateDefault config => Some (None, update_default_config config m)
  end.

(** A trace of the manager: each operation with its answer. *)
Inductive manager_run : RateLimiterManager → list (manager_op * option bool) → RateLimiterManager → Prop :=
| run_nil m : manager_run m [] m
| run_cons m op ans m' tr m'' :
    manager_step op m = Some (ans, m') → manager_run m' tr m'' →
    manager_run m ((op, ans) :: tr) m''.

(** ** What one key sees *)

(** The specification for one key: its bucket if it has one, with the time of
    the last use, and the default configuration. *)
Record view := mkView { v_limiter : option (RateLimiter * Z); v_default : RateLimitConfig }.

Definition view_acquire (config : RateLimitConfig) (t : clock) (v : view) : option (bool * view) :=
  let l := match v_limiter v with
           | Some (l, _) => l
           | None => limiter_new (rl_capacity config) (rl_refill_per_second config) (at_create t)
           end in
  match try_acquire (at_acquire t) l with
  | Some (ok, l) => Some (ok, mkView (Some (l, at_use t)) (v_default v))
  | None => None
  end.

(** A step as seen by [key]: the operations on other keys leave it alone. *)
Definition view_step (key : bytes) (op : manager_op) (ans : option bool) (v v' : view) : Prop :=
  match op with
  | Acquire k config t =>
    if k == key then ∃ ok, ans = Some ok ∧ view_acquire config t v = Some (ok, v') else v' = v
  | AcquireDefault k t =>
    if k == key then ∃ ok, ans = Some ok ∧ view_acquire (v_default v) t v = Some (ok, v') else v' = v
  | Cleanup idle now =>
    v' = match v_limiter v with
         | Some (_, last) => if idle <? now - last then mkView None (v_default v) else v
         | None => v
         end
  | UpdateDefault config => v' = mkView (v_limiter v) config
  end.

Inductive view_run (key : bytes) : view → list (manager_op * option bool) → view → Prop :=
| view_nil v : view_run key v [] v
| view_cons v op ans v' tr v'' :
    view_step key op ans v v' → view_run key v' tr v'' → view_run key v ((op, ans) :: tr) v''.

(** Every limiter has a time of last use and no other key has one. *)
Definition manager_inv (m : RateLimiterManager) : Prop :=
  ∀ key, is_Some (limiters_ m !! key) ↔ is_Some (last_used_ m !! key).

Definition view_of (key : bytes) (m : RateLimiterManager) : view :=
  mkView (match limiters_ m !! key, last_used_ m !! key with
          | Some l, Some u => Some (l, u)
          | _, _ => None
          end) (default_config_ m).

Lemma manager_inv_lookup m key :
  manager_inv m →
  (∃ l u, limiters_ m !! key = Some l ∧ last_used_ m !! key = Some u) ∨
  (limiters_ m !! key = None ∧ last_used_ m !! key = None).
Proof.
  intros Hm. specialize (Hm key). destruct (limiters_ m !! key) as [l|] eqn:E1.
  - destruct Hm as [[u Hu] _]; [done|]. left. eauto.
  - right. split; [done|]. destruct (last_used_ m !! key); [|done]. by destruct Hm as [_ []].
Qed.

Lemma cleanup_lookup idle now m key :
  manager_inv m →
  limiters_ (cleanup idle now m) !! key =
    (if expired idle now m key then None else limiters_ m !! key) ∧
  last_used_ (cleanup idle now m) !! key =
    (if expired idle now m key then None else last_used_ m !! key).
Proof.
  intros Hm. assert (Hl : expired idle now m key = true → is_Some (limiters_ m !! key)).
  { unfold expired. intros H. case_match eqn:E; [|done]. by apply Hm; rewrite E. }
  split; apply option_eq; intros x; destruct m as [ls us dc]; simpl in *;
    rewrite map_lookup_filter_Some; simpl; destruct (expired _ _ _ key); try naive_solver.
  split; [|done]. intros [_ [|E]]; [done|]. rewrite E in Hl. by destruct Hl.
Qed.

Lemma manager_inv_new c : manager_inv (manager_new c).
Proof. intros key. simpl. by rewrite !lookup_empty. Qed.

Lemma try_acquire_locked_spec k config t m ok m' :
  try_acquire_locked k config t m = Some (ok, m') →
  ∃ l, try_acquire (at_acquire t)
         (default (limiter_new (rl_capacity config) (rl_refill_per_second config) (at_create t))
            (limiters_ m !! k)) = Some (ok, l) ∧
       m' = m{{limiters_ ::= <[k := l]>; last_used_ ::= <[k := at_use t]> }}.
Proof. unfold try_acquire_locked. intros. repeat case_match; simplify_eq. eauto. Qed.

Lemma manager_inv_step op m ans m' :
  manager_inv m → manager_step op m = Some (ans, m') → manager_inv m'.
Proof.
  intros Hm H key. destruct op; simpl in H; [| |simplify_eq..].
  1,2: case_match eqn:E; [|done]; case_match; simplify_eq;
    apply try_acquire_locked_spec in E as (? & _ & ->); specialize (Hm key);
    destruct m; simpl in *; rewrite !lookup_insert; by case_decide.
  - destruct (cleanup_lookup idle now m key Hm) as [-> ->]. by case_match.
  - destruct m. apply Hm.
Qed.

Lemma view_of_acquire k config t m ok m' :
  manager_inv m → try_acquire_locked k config t m = Some (ok, m') →
  view_acquire config t (view_of k m) = Some (ok, view_of k m').
Proof.
  intros Hm (l & E & ->)%try_acquire_locked_spec. unfold view_acquire, view_of.
  destruct m as [ls us dc]; simpl in *. rewrite !lookup_insert_eq.
  destruct (manager_inv_lookup _ k Hm) as [(l' & u & El & Eu)|[El Eu]]; simpl in *;
    rewrite El, ?Eu in *; simpl in *; by rewrite E.
Qed.

Lemma view_of_other k key config t m ok m' :
  k ≠ key → try_acquire_locked k config t m = Some (ok, m') → view_of key m' = view_of key m.
Proof.
  intros Hk (l & _ & ->)%try_acquire_locked_spec. unfold view_of. destruct m; simpl.
  by rewrite !lookup_insert_ne by done.
Qed.

Lemma view_of_step key op m ans m' :
  manager_inv m → manager_step op m = Some (ans, m') →
  view_step key op ans (view_of key m) (view_of key m').
Proof.
  intros Hm H. destruct op as [k config t|k t|idle now|config]; simpl in *.
  1,2: case_match eqn:E; [|done]; case_match; simplify_eq; case_bool_decide; subst;
    [eexists; split; [done|]; by apply view_of_acquire|by eapply view_of_other].
  - simplify_eq. unfold view_of. destruct (cleanup_lookup idle now m key Hm) as [-> ->].
    destruct (manager_inv_lookup m key Hm) as [(l & u & El & Eu)|[El Eu]]; rewrite El, Eu; simpl.
    + unfold expired. rewrite Eu. by destruct (idle <? now - u).
    + unfold expired. by rewrite Eu.
  - simplify_eq. by destruct m.
Qed.

(** C34: The manager refines one independent token bucket per key: along any trace
    the answers a key gets are those of its own bucket, fed with that key's
    calls alone; a bucket is dropped only by a cleanup that finds it idle. *)
Theorem manager_refines_buckets key config tr m :
  manager_run (manager_new config) tr m →
  view_run key (mkView None config) tr (view_of key m).
Proof.
  change (mkView None config) with (view_of key (manager_new config)).
  generalize (manager_inv_new config). generalize (manager_new config).
  intros m0 Hinv Hrun. induction Hrun as [|m0 op ans m1 tr m2 Hstep Hrun IH]; [constructor|].
  econstructor; [by apply view_of_step|]. apply IH. by eapply manager_inv_step.
Qed.

(** * The theorems at a concrete bucket *)

Definition sample_bucket : RateLimiter := limiter_new 3 50 0.

Lemma acquire_all_conservation_witness :
  ∃ oks total l', acquire_all [0; 10 ^ 7; 10 ^ 9] sample_bucket = Some (oks, total, l') ∧
    limiter_inv l'.
Proof.
  eexists _, _, _. split; [vm_compute; reflexivity|].
  eapply (acquire_all_conservation [0; 10 ^ 7; 10 ^ 9] sample_bucket);
    [split; vm_compute; discriminate|vm_compute; reflexivity].
Defined.

Lemma burst_exact_witness :
  ∃ l', acquire_all (replicate 5 7) (limiter_new 3 50 7) =
    Some ([true; true; true; false; false], 0, l').
Proof. apply (burst_exact 3 50 7 5); done. Defined.

Definition sample_clock (t : Z) : clock := mkClock t t t.

Lemma manager_refines_buckets_witness :
  ∃ m, view_run (lit "ip:a") (mkView None default_RateLimitConfig)
    [(AcquireDefault (lit "ip:a") (sample_clock 0), Some true); (Cleanup DEFAULT_IDLE (10 ^ 12), None)]
    (view_of (lit "ip:a") m).
Proof.
  eexists. apply (manager_refines_buckets (lit "ip:a") default_RateLimitConfig).
  econstructor; [by vm_compute|]. econstructor; [done|]. constructor.
Defined.
