(* ===== verification/UpstreamManager.v ===== *)
(** Backend selection, health and circuit breakers:
    [include/server/upstream_manager.h] and [src/server/upstream_manager.cpp].
    Each public operation runs under the manager's mutex and is one step. *)

From S2P Require Import Prelude Config.

#[local] Open Scope Z_scope.
#[local] Open Scope gateway_scope.

Record CircuitState := mkCircuit {
  consecutive_failures : Z;
  opened_at : Z;
  open : bool;
  half_open_probe : bool;
}.

Definition circuit_init : CircuitState := mkCircuit 0 0 false false.

Record UpstreamManager := mkManager {
  config_ : UpstreamConfig;
  round_robin_indices_ : gmap bytes Z;
  health_check_timeout_ms_ : Z;
  circuit_states_ : gmap bytes CircuitState;
}.

(** [UpstreamManager::UpstreamManager] *)
Definition manager_init (config : UpstreamConfig) : UpstreamManager :=
  mkManager config ∅ (uc_health_check_timeout_ms config) ∅.

Definition circuit_key (upstream_name : bytes) (server : UpstreamServer) : bytes :=
  upstream_name ++ "|" ++ us_host server ++ ":" ++ to_string (us_port server).

Definition reload (config : UpstreamConfig) (m : UpstreamManager) : UpstreamManager :=
  m{{config_ := config; health_check_timeout_ms_ := uc_health_check_timeout_ms config;
     round_robin_indices_ := ∅; circuit_states_ := ∅}}.

(** * Circuit breaker *)

(** [circuit_states_[key]], which inserts a default state. *)
Definition circuit (key : bytes) (m : UpstreamManager) : CircuitState :=
  default circuit_init (circuit_states_ m !! key).

Definition set_circuit (key : bytes) (c : CircuitState) (m : UpstreamManager) : UpstreamManager :=
  m{{circuit_states_ ::= <[key := c]> }}.

(** [duration_cast<milliseconds>] of nanoseconds *)
Definition to_ms (ns : Z) : Z := Z.quot ns 1000000.

Definition circuit_allow (recovery_timeout_ms now : Z) (c : CircuitState) : bool * CircuitState :=
  if negb (open c) then (true, c)
  else
    let elapsed := to_ms (now - opened_at c) in
    if (elapsed <? recovery_timeout_ms) || half_open_probe c then (false, c)
    else (true, c{{half_open_probe := true}}).

Definition allow_request (upstream_name : bytes) (server : UpstreamServer)
    (recovery_timeout_ms now : Z) (m : UpstreamManager) : bool * UpstreamManager :=
  let key := circuit_key upstream_name server in
  let '(ok, c) := circuit_allow recovery_timeout_ms now (circuit key m) in
  (ok, set_circuit key c m).

Definition circuit_success (c : CircuitState) : CircuitState :=
  c{{consecutive_failures := 0; open := false; half_open_probe := false}}.

Definition record_success (upstream_name : bytes) (server : UpstreamServer) (m : UpstreamManager)
    : UpstreamManager :=
  let key := circuit_key upstream_name server in
  set_circuit key (circuit_success (circuit key m)) m.

Definition circuit_failure (failure_threshold now : Z) (c : CircuitState) : CircuitState :=
  let c := c{{half_open_probe := false; consecutive_failures ::= Z.add 1}} in
  if Z.max 1 failure_threshold <=? consecutive_failures c then c{{open := true; opened_at := now}}
  else c.

Definition record_failure (upstream_name : bytes) (server : UpstreamServer)
    (failure_threshold now : Z) (m : UpstreamManager) : UpstreamManager :=
  let key := circuit_key upstream_name server in
  set_circuit key (circuit_failure failure_threshold now (circuit key m)) m.

(** * Round robin *)

(** The first healthy server at or after position [idx], going round once. *)
Fixpoint first_healthy (servers : list UpstreamServer) (idx : nat) (fuel i : nat) : option nat :=
  match fuel with
  | O => None
  | S fuel' =>
    let candidate := ((idx + i) mod length servers)%nat in
    match servers !! candidate with
    | Some s => if us_healthy s then Some candidate else first_healthy servers idx fuel' (S i)
    | None => None
    end
  end.

(** [pick_server]: the index of the chosen server; [None] is the exception. *)
Definition pick_server (upstream_name : bytes) (m : UpstreamManager) : option nat * UpstreamManager :=
  match uc_upstreams (config_ m) !! upstream_name with
  | None => (None, m)
  | Some up =>
    let servers := up_servers up in
    if is_empty servers then (None, m)
    else
      let index := default 0 (round_robin_indices_ m !! upstream_name) in
      let m := m{{round_robin_indices_ ::= <[upstream_name := wrap64 (index + 1)]> }} in
      let idx := Z.to_nat (index mod Z.of_nat (length servers)) in
      (Some (default idx (first_healthy servers idx (length servers) 0)), m)
  end.

(** * Health checks *)

Record ProbeTarget := mkTarget {
  pt_upstream_name : bytes;
  pt_server_index : nat;
  pt_host : bytes;
  pt_port : Z;
}.

(** The verdict of one probe on one server. *)
Definition update_health (ok : bool) (s : UpstreamServer) : UpstreamServer :=
  if negb ok && us_healthy s then
    s{{us_healthy := false; us_consecutive_failures ::= Z.add 1}}
  else if ok && negb (us_healthy s) then
    s{{us_healthy := true; us_consecutive_failures := 0}}
  else if negb ok then s{{us_consecutive_failures ::= Z.add 1}}
  else s{{us_consecutive_failures := 0}}.

Section health.
  Context `{HashOrder}.
  (** The outcome of [health_probe], a TCP connection attempt, for each target. *)
  Variable health_probe : ProbeTarget → bool.

(** The targets, collected under the mutex. *)
Definition probe_targets (m : UpstreamManager) : list ProbeTarget :=
  concat ((λ nu, imap (λ i s, mkTarget nu.1 i (us_host s) (us_port s)) (up_servers nu.2)) <$>
          iter (uc_upstreams (config_ m))).

Definition probe_all (targets : list ProbeTarget) : list (bytes * nat * bool) :=
  (λ t, (pt_upstream_name t, pt_server_index t, health_probe t)) <$> targets.

(** One result, applied under the mutex to whatever the configuration is by then. *)
Definition apply_result (r : bytes * nat * bool) (m : UpstreamManager) : UpstreamManager :=
  let '(name, index, ok) := r in
  match uc_upstreams (config_ m) !! name with
  | None => m
  | Some up =>
    if (length (up_servers up) <=? index)%nat then m
    else
      m{{config_ ::= fun cfg => cfg{{uc_upstreams ::=
           <[name := up{{up_servers ::= alter (update_health ok) index}}]> }} }}
  end.

Definition apply_results (rs : list (bytes * nat * bool)) (m : UpstreamManager) : UpstreamManager :=
  foldl (λ m r, apply_result r m) m rs.

(** [check_health] with no other operation between its two critical sections. *)
Definition check_health (m : UpstreamManager) : UpstreamManager :=
  apply_results (probe_all (probe_targets m)) m.

(** [health_snapshot]: a [std::map] from name to (healthy, total). *)
Definition count_healthy (servers : list UpstreamServer) : nat :=
  length (filter (λ s, us_healthy s = true) servers).

Definition health_snapshot (m : UpstreamManager) : gmap bytes (nat * nat) :=
  (λ up, (count_healthy (up_servers up), length (up_servers up))) <$> uc_upstreams (config_ m).

Record BackendStatus := mkBackend {
  bs_host : bytes;
  bs_port : Z;
  bs_healthy : bool;
  bs_consecutive_failures : Z;
  bs_circuit_open : bool;
}.

Record UpstreamStatus := mkStatus {
  st_name : bytes;
  st_backends : list BackendStatus;
}.

Definition backend_status (name : bytes) (m : UpstreamManager) (s : UpstreamServer) : BackendStatus :=
  mkBackend (us_host s) (us_port s) (us_healthy s) (us_consecutive_failures s)
    (match circuit_states_ m !! circuit_key name s with Some c => open c | None => false end).

Definition status_snapshot (m : UpstreamManager) : list UpstreamStatus :=
  (λ nu, mkStatus nu.1 (backend_status nu.1 m <$> up_servers nu.2)) <$>
    iter (uc_upstreams (config_ m)).
End health.

(** * The breaker refines an abstract one *)

(** Closed with the failures counted so far, open since a time, or open with
    the one probe under way. *)
Inductive breaker := Closed (n : Z) | Open (since : Z) | HalfOpen (since : Z).

Inductive breaker_op :=
| Allow (recovery_timeout_ms now : Z)
| Success
| Failure (now : Z).

Definition breaker_step (threshold : Z) (op : breaker_op) (b : breaker) : option bool * breaker :=
  match op, b with
  | Allow _ _, Closed _ => (Some true, b)
  | Allow rec now, Open t =>
    if to_ms (now - t) <? rec then (Some false, b) else (Some true, HalfOpen t)
  | Allow _ _, HalfOpen _ => (Some false, b)
  | Success, _ => (None, Closed 0)
  | Failure now, Closed n => (None, if threshold <=? 1 + n then Open now else Closed (1 + n))
  | Failure now, (Open _ | HalfOpen _) => (None, Open now)
  end.

Definition circuit_step (threshold : Z) (op : breaker_op) (c : CircuitState)
    : option bool * CircuitState :=
  match op with
  | Allow rec now => let '(ok, c) := circuit_allow rec now c in (Some ok, c)
  | Success => (None, circuit_success c)
  | Failure now => (None, circuit_failure threshold now c)
  end.

(** The states of the code that implement an abstract state. *)
Definition implements (threshold : Z) (b : breaker) (c : CircuitState) : Prop :=
  match b with
  | Closed n => open c = false ∧ half_open_probe c = false ∧ consecutive_failures c = n ∧
                0 <= n < Z.max 1 threshold
  | Open t => open c = true ∧ half_open_probe c = false ∧ opened_at c = t ∧
              Z.max 1 threshold <= consecutive_failures c
  | HalfOpen t => open c = true ∧ half_open_probe c = true ∧ opened_at c = t ∧
                  Z.max 1 threshold <= consecutive_failures c
  end.

Fixpoint run {S} (step : breaker_op → S → option bool * S) (ops : list breaker_op) (s : S)
    : list (option bool) * S :=
  match ops with
  | [] => ([], s)
  | op :: ops' =>
    let '(a, s) := step op s in
    let '(as_, s) := run step ops' s in (a :: as_, s)
  end.

Lemma circuit_step_refines threshold op b c :
  implements threshold b c →
  let '(a, b') := breaker_step (Z.max 1 threshold) op b in
  let '(a', c') := circuit_step threshold op c in
  a = a' ∧ implements threshold b' c'.
Proof.
  intros Hi. destruct op as [rec now| |now], b as [n|t|t], c as [f o op h];
    simpl in Hi; destruct_and!; subst; cbn [breaker_step circuit_step];
    unfold circuit_allow, circuit_success, circuit_failure; simpl; rewrite ?orb_true_r, ?orb_false_r.
  all: repeat (case_match; simplify_eq/=); bool_props; split_and?; try done; lia.
Qed.


(** * Tripping and probing *)

Lemma circuit_set_eq key c m : circuit key (set_circuit key c m) = c.
Proof. unfold circuit. destruct m; simpl. by rewrite lookup_insert_eq. Qed.

Lemma circuit_set_ne key key' c m : key ≠ key' → circuit key' (set_circuit key c m) = circuit key' m.
Proof. intros. unfold circuit. destruct m; simpl. by rewrite lookup_insert_ne. Qed.

Definition record_failures (name : bytes) (server : UpstreamServer) (threshold : Z)
    (times : list Z) (m : UpstreamManager) : UpstreamManager :=
  foldl (λ m now, record_failure name server threshold now m) m times.

Lemma record_failures_circuit name server threshold times m :
  let key := circuit_key name server in
  let c := circuit key m in
  let c' := circuit key (record_failures name server threshold times m) in
  let n := consecutive_failures c + Z.of_nat (length times) in
  open c = false → consecutive_failures c < Z.max 1 threshold →
  consecutive_failures c' = n ∧ open c' = (Z.max 1 threshold <=? n) ∧
  (times ≠ [] → half_open_probe c' = false ∧ (open c' = true → last times = Some (opened_at c'))).
Proof.
  intros key. induction times as [|now times IH] using rev_ind; intros c c' n Ho Hn.
  { subst c' n. simpl. rewrite Z.add_0_r. split_and!; [done| |done].
    etrans; [exact Ho|]. symmetry. by apply Z.leb_gt. }
  destruct (IH Ho Hn) as (IHn & IHo & _). subst c' n.
  unfold record_failures. rewrite foldl_app. simpl.
  fold (record_failures name server threshold times m).
  unfold record_failure. fold key. rewrite circuit_set_eq. fold key in IHn, IHo. fold c in IHn, IHo, Hn. clearbody c.
  destruct (circuit key (record_failures _ _ _ _ _)) as [f t o h]. simpl in *.
  unfold circuit_failure; simpl. rewrite length_app, last_snoc. simpl.
  destruct (Z.leb_spec (Z.max 1 threshold) (1 + f)); simpl; split_and!; try done; try lia.
  - symmetry. apply Z.leb_le. lia.
  - by rewrite IHo, !(proj2 (Z.leb_gt _ _)) by lia.
  - intros _. split; [done|]. rewrite IHo. intros ?%Z.leb_le. lia.
Qed.

(** A closed circuit trips on the failure that reaches the threshold and
    not before: below it every request is let through, at it every request is
    refused until the recovery time has passed since the last failure, and then
    one is admitted. *)
Theorem circuit_trips name server threshold recovery times m :
  let key := circuit_key name server in
  open (circuit key m) = false → consecutive_failures (circuit key m) = 0 →
  let m' := record_failures name server threshold times m in
  if Z.of_nat (length times) <? Z.max 1 threshold then
    ∀ now, (allow_request name server recovery now m').1 = true
  else
    ∃ opened, last times = Some opened ∧
      ∀ now, (allow_request name server recovery now m').1 = negb (to_ms (now - opened) <? recovery).
Proof.
  intros key Ho Hn m'.
  destruct (record_failures_circuit name server threshold times m) as (Hn' & Ho' & Hl);
    [done|fold key; rewrite Hn; lia|].
  fold key in Hn', Ho', Hl. fold m' in Hn', Ho', Hl. rewrite Hn, Z.add_0_l in *.
  unfold allow_request. fold key. destruct (circuit key m') as [f t o h]; simpl in *. subst o.
  destruct (Z.ltb_spec (Z.of_nat (length times)) (Z.max 1 threshold)).
  - intros now. unfold circuit_allow; simpl. by rewrite (proj2 (Z.leb_gt _ _)).
  - destruct Hl as [-> Hl]; [destruct times; [simpl in *; lia|done]|].
    rewrite (proj2 (Z.leb_le _ _)) in * by done. exists t. split; [auto|]. intros now.
    unfold circuit_allow; simpl. rewrite orb_false_r. by destruct (_ <? _).
Qed.

(** A sequence of requests for one backend, each with its recovery time and
    clock reading. *)
Fixpoint allow_all (name : bytes) (server : UpstreamServer) (calls : list (Z * Z))
    (m : UpstreamManager) : list bool * UpstreamManager :=
  match calls with
  | [] => ([], m)
  | (recovery, now) :: calls' =>
    let '(ok, m) := allow_request name server recovery now m in
    let '(oks, m) := allow_all name server calls' m in (ok :: oks, m)
  end.

(** The half-open slot is exclusive, and held until an outcome is recorded:
    once an open circuit has let its probe through, every further request is
    refused, however late it comes. *)
Theorem half_open_exclusive name server recovery now m m' later :
  open (circuit (circuit_key name server) m) = true →
  allow_request name server recovery now m = (true, m') →
  allow_all name server later m' = (replicate (length later) false, m').
Proof.
  intros Ho Ha. set (key := circuit_key name server) in *.
  assert (Hc : ∃ c, circuit_states_ m' !! key = Some c ∧ open c = true ∧ half_open_probe c = true).
  { unfold allow_request in Ha. fold key in Ha. destruct (circuit key m) as [f t o h] eqn:E; simpl in *.
    subst o. unfold circuit_allow in Ha. simpl in Ha. destruct (_ || _); simplify_eq.
    destruct m; simpl. rewrite lookup_insert_eq. eauto. }
  destruct Hc as (c & Hc & Ho' & Hh). clear Ha Ho.
  assert (Hstep : ∀ rec t, allow_request name server rec t m' = (false, m')).
  { intros rec t. unfold allow_request, circuit. fold key. rewrite Hc. simpl.
    unfold circuit_allow. rewrite Ho', Hh, orb_true_r. simpl. f_equal.
    unfold set_circuit. destruct m'; simpl in *. by rewrite insert_id. }
  induction later as [|[rec t] later IH]; simpl; [done|]. by rewrite Hstep, IH.
Qed.

(** * Round robin *)

Lemma first_healthy_Some servers idx fuel i c :
  first_healthy servers idx fuel i = Some c →
  ∃ s, servers !! c = Some s ∧ us_healthy s = true.
Proof.
  revert i. induction fuel as [|fuel IH]; intros i H; simplify_eq/=.
  repeat case_match; simplify_eq; eauto.
Qed.

Lemma first_healthy_None servers idx fuel i :
  servers ≠ [] → first_healthy servers idx fuel i = None →
  ∀ j, (i ≤ j < i + fuel)%nat →
  ∃ s, servers !! ((idx + j) mod length servers)%nat = Some s ∧ us_healthy s = false.
Proof.
  intros Hs. revert i. induction fuel as [|fuel IH]; intros i H j Hj; [lia|]. simpl in H.
  destruct (lookup_lt_is_Some_2 servers ((idx + i) mod length servers)) as [s E].
  { apply Nat.mod_upper_bound. by destruct servers. }
  rewrite E in H. destruct (us_healthy s) eqn:Hh; [done|].
  destruct (decide (i = j)) as [->|]; [eauto|]. apply (IH (S i)); [done|lia].
Qed.

Lemma rotation_hits (len idx k : nat) :
  (k < len)%nat → ∃ j, (j < len)%nat ∧ ((idx + j) mod len = k)%nat.
Proof.
  intros Hk. exists ((k + (len - idx mod len)) mod len)%nat.
  split; [apply Nat.mod_upper_bound; lia|].
  rewrite Nat.Div0.add_mod_idemp_r, <- Nat.Div0.add_mod_idemp_l.
  pose proof (Nat.mod_upper_bound idx len ltac:(lia)).
  replace (idx mod len + (k + (len - idx mod len)))%nat with (k + 1 * len)%nat by lia.
  rewrite Nat.Div0.mod_add. by apply Nat.mod_small.
Qed.

(** [pick_server] fails exactly for an unknown or empty upstream; otherwise
    it returns a server of the upstream, and a healthy one whenever there is
    one. *)
Theorem pick_server_healthy name m :
  match (pick_server name m).1 with
  | None => up_servers <$> uc_upstreams (config_ m) !! name = None ∨
            up_servers <$> uc_upstreams (config_ m) !! name = Some []
  | Some i =>
    ∃ up s, uc_upstreams (config_ m) !! name = Some up ∧ up_servers up !! i = Some s ∧
      (Exists (λ s, us_healthy s = true) (up_servers up) → us_healthy s = true)
  end.
Proof.
  unfold pick_server. destruct (uc_upstreams (config_ m) !! name) as [up|] eqn:E; simpl; [|by left].
  destruct (is_empty (up_servers up)) eqn:He; simpl; checks; [right; by rewrite He|].
  set (idx := Z.to_nat _). assert (Hidx : (idx < length (up_servers up))%nat).
  { subst idx. assert (0 < Z.of_nat (length (up_servers up))) by (destruct (up_servers up); simpl; done || lia).
    pose proof (Z.mod_pos_bound (default 0 (round_robin_indices_ m !! name)) _ H). lia. }
  destruct (first_healthy _ _ _ _) as [c|] eqn:Hf; simpl.
  - apply first_healthy_Some in Hf as (s & ? & ?). eauto.
  - destruct (lookup_lt_is_Some_2 _ _ Hidx) as [s Hs]. exists up, s. split_and!; [done..|].
    intros (s' & [k Hk]%list_elem_of_lookup & Hh)%Exists_exists.
    destruct (rotation_hits (length (up_servers up)) idx k) as (j & Hj & Ej);
      [by eapply lookup_lt_Some|].
    destruct (first_healthy_None _ _ _ _ He Hf j) as (s'' & Hs'' & ?); [lia|].
    rewrite Ej in Hs''. congruence.
Qed.

Fixpoint pick_all (name : bytes) (n : nat) (m : UpstreamManager) : list (option nat) * UpstreamManager :=
  match n with
  | O => ([], m)
  | S n' =>
    let '(i, m) := pick_server name m in
    let '(is_, m) := pick_all name n' m in (i :: is_, m)
  end.

(** The next position of the rotation. *)
Definition cursor (name : bytes) (m : UpstreamManager) : Z := default 0 (round_robin_indices_ m !! name).

Lemma first_healthy_all servers idx fuel :
  Forall (λ s, us_healthy s = true) servers → (idx < length servers)%nat → fuel ≠ 0%nat →
  first_healthy servers idx fuel 0 = Some idx.
Proof.
  intros Hall Hidx Hf. destruct fuel; [done|]. simpl. rewrite Nat.add_0_r, Nat.mod_small by done.
  destruct (lookup_lt_is_Some_2 _ _ Hidx) as [s Hs]. rewrite Hs.
  by rewrite (proj1 (Forall_lookup _ _) Hall _ _ Hs).
Qed.

Lemma pick_server_rotates name m up :
  uc_upstreams (config_ m) !! name = Some up → up_servers up ≠ [] →
  Forall (λ s, us_healthy s = true) (up_servers up) → 0 <= cursor name m < SIZE_MAX →
  let '(i, m') := pick_server name m in
  i = Some (Z.to_nat (cursor name m) mod length (up_servers up))%nat ∧
  config_ m' = config_ m ∧ cursor name m' = cursor name m + 1.
Proof.
  intros E Hne Hall Hc. unfold pick_server. rewrite E.
  destruct (is_empty _) eqn:He; checks; [done|].
  assert (Hlen : length (up_servers up) ≠ 0%nat) by (by destruct (up_servers up)).
  fold (cursor name m). rewrite first_healthy_all; [|done| |done].
  - split_and!; [|done|].
    + simpl. rewrite Z2Nat.inj_mod by lia. by rewrite Nat2Z.id.
    + unfold cursor at 1. destruct m; simpl. rewrite lookup_insert_eq. simpl.
      unfold wrap64, SIZE_MAX in *. rewrite Z.mod_small; [done|lia].
  - apply Nat2Z.inj_lt. rewrite Z2Nat.id by (apply Z.mod_pos_bound; lia).
    apply Z.mod_pos_bound. lia.
Qed.

Lemma pick_all_rotates name n m up :
  uc_upstreams (config_ m) !! name = Some up → up_servers up ≠ [] →
  Forall (λ s, us_healthy s = true) (up_servers up) →
  0 <= cursor name m → cursor name m + Z.of_nat n <= SIZE_MAX →
  (pick_all name n m).1 =
  (λ j, Some (j mod length (up_servers up))%nat) <$> seq (Z.to_nat (cursor name m)) n.
Proof.
  intros E Hne Hall. revert m E. induction n as [|n IH]; intros m E Hc Hb; [done|]. simpl.
  pose proof (pick_server_rotates name m up E Hne Hall ltac:(lia)) as H.
  destruct (pick_server name m) as [i m']. destruct H as (-> & Hcfg & Hcur).
  specialize (IH m'). rewrite Hcfg, Hcur in IH.
  destruct (pick_all name n m') as [is_ m'']. simpl in *. f_equal.
  rewrite IH by (done || lia). by rewrite Z2Nat.inj_add, Nat.add_1_r by lia.
Qed.

(** A window of [len] consecutive numbers covers every residue once. *)
Lemma residues_perm (len start : nat) :
  len ≠ 0%nat → (λ j, j mod len)%nat <$> seq start len ≡ₚ seq 0 len.
Proof.
  intros Hlen. apply NoDup_Permutation_bis.
  - apply NoDup_ListNoDup, NoDup_fmap_2_strong; [|apply NoDup_seq].
    intros x y Hx%elem_of_seq Hy%elem_of_seq Hxy.
    pose proof (Nat.div_mod_eq x len). pose proof (Nat.div_mod_eq y len).
    assert (x / len = y / len)%nat by nia. congruence.
  - by rewrite length_fmap, !length_seq.
  - intros k. rewrite <- !list_elem_of_In. intros (j & -> & Hj)%list_elem_of_fmap. apply elem_of_seq.
    pose proof (Nat.mod_upper_bound j len Hlen). lia.
Qed.

(** Round robin is fair: with every server healthy, any [size] consecutive
    picks return each server of the upstream exactly once. *)
Theorem round_robin_fair name m up :
  uc_upstreams (config_ m) !! name = Some up → up_servers up ≠ [] →
  Forall (λ s, us_healthy s = true) (up_servers up) →
  0 <= cursor name m → cursor name m + Z.of_nat (length (up_servers up)) <= SIZE_MAX →
  (pick_all name (length (up_servers up)) m).1 ≡ₚ Some <$> seq 0 (length (up_servers up)).
Proof.
  intros E Hne Hall Hc Hb. rewrite (pick_all_rotates _ _ _ _ E) by done.
  rewrite <- (residues_perm (length (up_servers up)) (Z.to_nat (cursor name m)))
    by (by destruct (up_servers up)).
  by rewrite <- list_fmap_compose.
Qed.

(** * Health checks *)
Section check_health.
  Context `{HashOrder} (health_probe : ProbeTarget → bool).

(** The verdict on the server at an index, and on every server of an upstream. *)
Definition probe_verdict (name : bytes) (i : nat) (s : UpstreamServer) : bool := health_probe (mkTarget name i (us_host s) (us_port s)).

Definition probed (name : bytes) (i : nat) (s : UpstreamServer) : UpstreamServer := update_health (probe_verdict name i s) s.

Definition probed_upstream (name : bytes) (up : Upstream) : Upstream := up{{up_servers ::= imap (probed name)}}.

Definition set_upstreams (f : gmap bytes Upstream → gmap bytes Upstream) (m : UpstreamManager)
    : UpstreamManager := m{{config_ ::= fun cfg => cfg{{uc_upstreams ::= f}} }}.

Definition upstream_results (name : bytes) (k : nat) (servers : list UpstreamServer)
    : list (bytes * nat * bool) :=
  imap (λ i s, (name, (k + i)%nat, probe_verdict name (k + i) s)) servers.

Lemma upstream_results_cons name k s servers :
  upstream_results name k (s :: servers) = (name, k, probe_verdict name k s) :: upstream_results name (S k) servers.
Proof.
  unfold upstream_results. rewrite imap_cons, Nat.add_0_r. f_equal. apply imap_ext.
  intros i x _. simpl. by rewrite Nat.add_succ_r.
Qed.

Lemma apply_result_probe name done_ s servers alg m :
  uc_upstreams (config_ m) !! name = Some (mkUpstream (done_ ++ s :: servers) alg) →
  apply_result (name, length done_, probe_verdict name (length done_) s) m =
  set_upstreams (<[name := mkUpstream (done_ ++ probed name (length done_) s :: servers) alg]>) m.
Proof.
  intros E. unfold apply_result. rewrite E. simpl.
  rewrite (proj2 (Nat.leb_gt _ _)) by (rewrite length_app; simpl; lia).
  unfold set_upstreams. by rewrite alter_app_r_alt, Nat.sub_diag by lia.
Qed.

Lemma lookup_set_upstreams name up m :
  uc_upstreams (config_ (set_upstreams (<[name := up]>) m)) !! name = Some up.
Proof. destruct m as [[ups rs t] rr h cs]. apply lookup_insert_eq. Qed.

Lemma set_upstreams_twice f g m : set_upstreams f (set_upstreams g m) = set_upstreams (f ∘ g) m.
Proof. by destruct m as [[ups rs t] rr h cs]. Qed.

Lemma set_upstreams_ext f g m :
  f (uc_upstreams (config_ m)) = g (uc_upstreams (config_ m)) → set_upstreams f m = set_upstreams g m.
Proof. destruct m as [[ups rs t] rr h cs]. unfold set_upstreams; simpl. by intros ->. Qed.

Lemma set_upstreams_id f m :
  f (uc_upstreams (config_ m)) = uc_upstreams (config_ m) → set_upstreams f m = m.
Proof. destruct m as [[ups rs t] rr h cs]. unfold set_upstreams; simpl. by intros ->. Qed.

Lemma apply_upstream_results name servers done_ alg m :
  uc_upstreams (config_ m) !! name = Some (mkUpstream (done_ ++ servers) alg) →
  apply_results (upstream_results name (length done_) servers) m =
  set_upstreams (<[name := mkUpstream (done_ ++ imap (λ i, probed name (length done_ + i)) servers) alg]>) m.
Proof.
  revert done_ m. induction servers as [|s servers IH]; intros done_ m E.
  { simpl. symmetry. by apply set_upstreams_id, insert_id. }
  rewrite upstream_results_cons. unfold apply_results. cbn [foldl].
  rewrite (apply_result_probe _ _ _ _ alg) by done.
  specialize (IH (done_ ++ [probed name (length done_) s])). rewrite length_app, Nat.add_1_r in IH.
  unfold apply_results in IH.
  rewrite IH by (by rewrite lookup_set_upstreams, <- app_assoc).
  rewrite set_upstreams_twice. apply set_upstreams_ext. simpl.
  rewrite insert_insert_eq, <- app_assoc, Nat.add_0_r. do 2 f_equal. simpl. do 2 f_equal. apply imap_ext.
  intros i x _. simpl. by rewrite Nat.add_succ_r.
Qed.

Lemma apply_results_app rs rs' m : apply_results (rs ++ rs') m = apply_results rs' (apply_results rs m).
Proof. apply foldl_app. Qed.

Definition all_results (l : list (bytes * Upstream)) : list (bytes * nat * bool) :=
  concat ((λ nu, upstream_results nu.1 0 (up_servers nu.2)) <$> l).

Lemma probe_all_targets m :
  probe_all health_probe (probe_targets m) = all_results (iter (uc_upstreams (config_ m))).
Proof.
  unfold probe_all, probe_targets, all_results.
  induction (iter _) as [|nu l IH]; [done|].
  rewrite !fmap_cons. cbn [concat]. rewrite fmap_app, IH. f_equal.
  unfold upstream_results. rewrite fmap_imap. by apply imap_ext.
Qed.

Definition probed_entry (nu : bytes * Upstream) : bytes * Upstream := (nu.1, probed_upstream nu.1 nu.2).

Lemma apply_all_results l m :
  NoDup l.*1 → (∀ name up, (name, up) ∈ l → uc_upstreams (config_ m) !! name = Some up) →
  apply_results (all_results l) m = set_upstreams (λ ups, list_to_map (probed_entry <$> l) ∪ ups) m.
Proof.
  revert m. induction l as [|[name up] l IH]; intros m Hnd Hl; simpl in *.
  { symmetry. apply set_upstreams_id. apply (left_id_L ∅ (∪)). }
  apply NoDup_cons in Hnd as [Hn Hnd]. unfold all_results. rewrite fmap_cons. cbn [concat]. rewrite apply_results_app.
  fold (all_results l).
  destruct up as [servers alg]. simpl. rewrite (apply_upstream_results _ _ [] alg) by (by apply Hl; left).
  simpl. rewrite IH; [|done|].
  - rewrite set_upstreams_twice. apply set_upstreams_ext. simpl.
    rewrite <- insert_union_r.
    + by rewrite insert_union_l.
    + apply not_elem_of_list_to_map_1. rewrite <- list_fmap_compose.
      intros (? & -> & ?)%list_elem_of_fmap. by apply Hn, list_elem_of_fmap_2.
  - intros name' up' Hin. rewrite <- (Hl name' up') by (by right).
    destruct m as [[ups rs t] rr h cs]; simpl. rewrite lookup_insert_ne; [done|].
    intros ->. apply Hn, list_elem_of_fmap. by exists (name', up').
Qed.

(** ** Other threads between the two critical sections *)

Definition addresses (up : Upstream) : list (bytes * Z) := (λ s, (us_host s, us_port s)) <$> up_servers up.

(** The results depend on the addresses only. *)
Lemma upstream_results_addresses name k servers servers' :
  (λ s, (us_host s, us_port s)) <$> servers = (λ s, (us_host s, us_port s)) <$> servers' →
  upstream_results name k servers = upstream_results name k servers'.
Proof.
  intros E. set (f := λ (i : nat) (a : bytes * Z), (name, (k + i)%nat, health_probe (mkTarget name (k + i) a.1 a.2))).
  assert (∀ l, upstream_results name k l = imap f ((λ s, (us_host s, us_port s)) <$> l)) as Hf.
  { intros l. unfold upstream_results. rewrite imap_fmap. by apply imap_ext. }
  by rewrite !Hf, E.
Qed.

Lemma apply_probe_results m m' :
  addresses <$> uc_upstreams (config_ m) = addresses <$> uc_upstreams (config_ m') →
  apply_results (probe_all health_probe (probe_targets m)) m' =
  set_upstreams (map_imap (λ name up, Some (probed_upstream name up))) m'.
Proof.
  intros Ha. assert (∀ name, addresses <$> uc_upstreams (config_ m) !! name = addresses <$> uc_upstreams (config_ m') !! name) as Hat
    by (intros name; by rewrite <-!lookup_fmap, Ha).
  set (now := λ nu : bytes * Upstream, (nu.1, default nu.2 (uc_upstreams (config_ m') !! nu.1))).
  assert (∀ name up, (name, up) ∈ iter (uc_upstreams (config_ m)) → ∃ up', uc_upstreams (config_ m') !! name = Some up' ∧ addresses up = addresses up') as Hin.
  { intros name up E%elem_of_iter. specialize (Hat name). rewrite E in Hat. destruct (_ !! name) as [up'|]; [|done].
    exists up'. split; [done|]. by injection Hat. }
  assert (all_results (iter (uc_upstreams (config_ m))) = all_results (now <$> iter (uc_upstreams (config_ m)))) as El.
  { unfold all_results. f_equal. rewrite <-list_fmap_compose. apply list_fmap_ext. intros i [name up] E%list_elem_of_lookup_2. cbn.
    destruct (Hin _ _ E) as (up' & -> & Ea). by apply upstream_results_addresses. }
  rewrite probe_all_targets, El, apply_all_results.
  - apply set_upstreams_ext. apply map_eq. intros name. rewrite map_lookup_imap, lookup_union. specialize (Hat name).
    destruct (uc_upstreams (config_ m') !! name) as [up'|] eqn:E'.
    + destruct (uc_upstreams (config_ m) !! name) as [up|] eqn:E; [|done]. cbn.
      rewrite (elem_of_list_to_map_1 _ name (probed_upstream name up')); [done| |].
      * rewrite <-!list_fmap_compose. apply (NoDup_iter (uc_upstreams (config_ m))).
      * rewrite <-list_fmap_compose. apply list_elem_of_fmap. exists (name, up). split; [|by apply elem_of_iter]. unfold probed_entry, now. cbn. by rewrite E'.
    + rewrite not_elem_of_list_to_map_1; [done|]. rewrite <-!list_fmap_compose. intros ([n up] & -> & E)%list_elem_of_fmap. cbn in *.
      destruct (Hin _ _ E) as (up' & Eu & _). congruence.
  - rewrite <-list_fmap_compose. apply (NoDup_iter (uc_upstreams (config_ m))).
  - intros name up ([n up0] & [= -> ->] & E)%list_elem_of_fmap. destruct (Hin _ _ E) as (up' & Eu & _). cbn. by rewrite Eu.
Qed.

(** A health check gives every server of every upstream the verdict of its own
    probe, and changes nothing else, whatever the other threads did to the states
    of the servers between the two critical sections, as long as none of them
    changed the addresses. *)
Theorem check_health_interleaved m m' :
  addresses <$> uc_upstreams (config_ m) = addresses <$> uc_upstreams (config_ m') →
  apply_results (probe_all health_probe (probe_targets m)) m' =
  set_upstreams (map_imap (λ name up, Some (probed_upstream name up))) m'.
Proof. apply apply_probe_results. Qed.

Lemma check_health_pointwise m :
  check_health health_probe m = set_upstreams (map_imap (λ name up, Some (probed_upstream name up))) m.
Proof. by apply apply_probe_results. Qed.
End check_health.

(** * The theorems at a concrete upstream *)

Definition sample_server : UpstreamServer := default_UpstreamServer{{us_host := lit "10.0.0.1"}}.

Definition sample_manager : UpstreamManager :=
  manager_init (default_UpstreamConfig{{uc_upstreams :=
    {[ lit "svc" := mkUpstream [sample_server; sample_server{{us_port := 81}}] "round_robin" ]} }}).

Lemma circuit_trips_witness :
  (allow_request "svc" sample_server 10000 (5 * 10 ^ 9)
     (record_failures "svc" sample_server 3 [10; 20; 30] sample_manager)).1 = false.
Proof.
  destruct (circuit_trips "svc" sample_server 3 10000 [10; 20; 30] sample_manager)
    as (opened & [= <-] & H); [done..|]. by rewrite H.
Defined.

Definition tripped_manager : UpstreamManager :=
  record_failures "svc" sample_server 1 [10] sample_manager.

Lemma half_open_exclusive_witness :
  (allow_all "svc" sample_server [(1, 10 ^ 12); (1, 10 ^ 15)]
    (allow_request "svc" sample_server 1 (10 ^ 9) tripped_manager).2).1 = [false; false].
Proof.
  erewrite (half_open_exclusive "svc" sample_server 1 (10 ^ 9) tripped_manager _
    [(1, 10 ^ 12); (1, 10 ^ 15)]); [done|by vm_compute|].
  by vm_compute.
Defined.

Lemma round_robin_fair_witness : (pick_all "svc" 2 sample_manager).1 ≡ₚ [Some 0%nat; Some 1%nat].
Proof.
  apply (round_robin_fair "svc" sample_manager
           (mkUpstream [sample_server; sample_server{{us_port := 81}}] "round_robin")).
  - by vm_compute.
  - done.
  - by repeat constructor.
  - by vm_compute.
  - by vm_compute.
Defined.
