(* ===== verification/RouteUtils.v ===== *)
(** Route matching: [include/server/route_utils.h]. *)

From S2P Require Import Prelude Config.

#[local] Open Scope gateway_scope.

(** [normalize_header_value]: lower case, without the port of a host. *)
Definition normalize_header_value (value : bytes) : bytes :=
  let normalized := lowercase value in
  match find_char ":" normalized with
  | Some port_pos => take port_pos normalized
  | None => normalized
  end.

(** [while (pos < s.size() && s[pos] == '/') ++pos;] on the rest of the string. *)
Fixpoint skip_slashes (rest : bytes) (pos : nat) : nat :=
  match rest with
  | c :: rest' => if c == "/"%char then skip_slashes rest' (S pos) else pos
  | [] => pos
  end.

(** [next_path_segment]: the segment and the new [pos]. *)
Definition next_path_segment (s : bytes) (pos : nat) : option (bytes * nat) :=
  let pos := skip_slashes (drop pos s) pos in
  if bool_decide (length s ≤ pos) then None
  else
    let stop := default (length s) (find_char_from "/" pos s) in
    Some (substr pos (stop - pos) s, stop).

(** [{name}] in a pattern. *)
Definition param_name (pseg : bytes) : option bytes :=
  if bool_decide (2 ≤ length pseg) && (head pseg == Some "{"%char) && (last pseg == Some "}"%char)
  then Some (substr 1 (length pseg - 2) pseg)
  else None.

Abbreviation params_t := (gmap bytes bytes).

(** The loop of [matchRoute]: its result and [params]. *)
Fixpoint match_loop (fuel : nat) (pattern path : bytes) (pattern_pos path_pos : nat)
    (params : params_t) : option (bool * params_t) :=
  match fuel with
  | O => None
  | S fuel' =>
    match next_path_segment pattern pattern_pos, next_path_segment path path_pos with
    | None, None => Some (true, params)
    | Some _, None | None, Some _ => Some (false, params)
    | Some (pseg, pattern_pos), Some (sseg, path_pos) =>
      match param_name pseg with
      | Some name => match_loop fuel' pattern path pattern_pos path_pos (<[name := sseg]> params)
      | None =>
        if pseg == sseg then match_loop fuel' pattern path pattern_pos path_pos params
        else Some (false, params)
      end
    end
  end.

(** [matchRoute]; every round of the loop consumes a byte of the pattern. *)
Definition matchRoute (pattern path : bytes) (params : params_t) : option (bool * params_t) :=
  if last pattern == Some "*"%char then
    Some (starts_with (take (length pattern - 1) pattern) path, params)
  else match_loop (S (length pattern)) pattern path 0 0 params.

Definition routeMatchesPath (route : GatewayRoute) (host tenant path : bytes) (params : params_t)
    : option (bool * params_t) :=
  if negb (rt_enabled route) then Some (false, params)
  else if (rt_host route != "*") &&
          (let expected_host := normalize_header_value (rt_host route) in
           (expected_host != "*") && (normalize_header_value host != expected_host))
  then Some (false, params)
  else if (rt_tenant route != "*") && (rt_tenant route != tenant) then Some (false, params)
  else matchRoute (rt_path route) path params.

Definition routeMatchesRequest (route : GatewayRoute) (method host tenant path : bytes)
    (params : params_t) : option (bool * params_t) :=
  match routeMatchesPath route host tenant path params with
  | Some (true, params) =>
    Some (is_empty (rt_method route) || (rt_method route == "*") || (rt_method route == method), params)
  | r => r
  end.

(** * Reference matcher *)

(** The non-empty segments of a path, by splitting it. *)
Fixpoint split_path (s cur : bytes) : list bytes :=
  match s with
  | [] => if is_empty cur then [] else [cur]
  | c :: s' =>
    if c == "/"%char then if is_empty cur then split_path s' [] else cur :: split_path s' []
    else split_path s' (cur ++ [c])
  end.

Definition segments (s : bytes) : list bytes := split_path s [].

Fixpoint match_segments (ps ss : list bytes) (params : params_t) : bool * params_t :=
  match ps, ss with
  | [], [] => (true, params)
  | p :: ps', s :: ss' =>
    match param_name p with
    | Some name => match_segments ps' ss' (<[name := s]> params)
    | None => if p == s then match_segments ps' ss' params else (false, params)
    end
  | _, _ => (false, params)
  end.

(** * The in-place matcher agrees with the reference *)

Lemma split_path_word w rest cur :
  "/"%char ∉ w → split_path (w ++ rest) cur = split_path rest (cur ++ w).
Proof.
  revert cur. induction w as [|c w IH]; intros cur Hw; simpl; [by rewrite app_nil_r|].
  apply not_elem_of_cons in Hw as [? ?].
  rewrite bool_decide_eq_false_2 by congruence. rewrite IH by done. by rewrite <- app_assoc.
Qed.

Lemma split_path_flush rest w :
  w ≠ [] → (rest = [] ∨ head rest = Some "/"%char) → split_path rest w = w :: segments rest.
Proof.
  intros Hw Hr. destruct rest as [|c rest]; simpl.
  - by destruct w.
  - destruct Hr as [|[= ->]]; [done|]. unfold segments. simpl. by destruct w.
Qed.

Lemma skip_slashes_spec rest pos :
  ∃ k, skip_slashes rest pos = pos + k ∧ k ≤ length rest ∧
       segments rest = segments (drop k rest) ∧ head (drop k rest) ≠ Some "/"%char.
Proof.
  revert pos. induction rest as [|c rest IH]; intros pos; simpl.
  { exists 0. split_and!; simpl; try done; lia. }
  case_bool_decide as E.
  - subst. destruct (IH (S pos)) as (k & -> & ? & ? & ?). exists (S k). split_and!; try done; lia.
  - exists 0. simpl. split_and!; try done; [lia..|congruence].
Qed.

(** One call of [next_path_segment] removes one segment of what is left. *)
Lemma next_path_segment_spec s pos :
  pos ≤ length s →
  match next_path_segment s pos with
  | None => segments (drop pos s) = []
  | Some (seg, pos') =>
    segments (drop pos s) = seg :: segments (drop pos' s) ∧ pos < pos' ≤ length s
  end.
Proof.
  intros Hpos. unfold next_path_segment.
  destruct (skip_slashes_spec (drop pos s) pos) as (k & -> & Hk & Hseg & Hhd).
  rewrite length_drop in Hk. rewrite drop_drop in Hseg, Hhd. case_bool_decide as Hend.
  { rewrite Hseg, drop_ge by done. done. }
  set (q := pos + k) in *. rewrite Hseg. unfold find_char_from, substr.
  destruct (find_char "/" (drop q s)) as [i|] eqn:Ef; simpl.
  - apply find_char_split in Ef as (Hw & Hh & Hi). rewrite length_drop in Hi.
    replace (q + i - q) with i by lia.
    assert (i ≠ 0) by (intros ->; done).
    split; [|lia]. rewrite <- drop_drop.
    rewrite <- (take_drop i (drop q s)) at 1. unfold segments at 1. rewrite split_path_word by done.
    rewrite split_path_flush; [done| |by right].
    rewrite app_nil_l. intros E%(f_equal length). rewrite length_take, length_drop in E. simpl in E. lia.
  - apply find_char_None in Ef. rewrite drop_all. rewrite take_ge by (rewrite length_drop; lia).
    split; [|lia]. rewrite <- (app_nil_r (drop q s)) at 1. unfold segments at 1.
    rewrite split_path_word by done. rewrite split_path_flush; [done| |by left].
    rewrite app_nil_l. intros E%(f_equal length). rewrite length_drop in E. simpl in E. lia.
Qed.

Lemma match_loop_spec fuel pattern path i j params :
  i ≤ length pattern → j ≤ length path → length pattern < i + fuel →
  match_loop fuel pattern path i j params =
  Some (match_segments (segments (drop i pattern)) (segments (drop j path)) params).
Proof.
  revert i j params. induction fuel as [|fuel IH]; intros i j params Hi Hj Hf; [lia|]. simpl.
  pose proof (next_path_segment_spec pattern i Hi) as Hp.
  pose proof (next_path_segment_spec path j Hj) as Hs.
  destruct (next_path_segment pattern i) as [[p i']|], (next_path_segment path j) as [[s j']|];
    repeat match goal with H : _ ∧ _ |- _ => destruct H as [-> ?] | H : segments _ = _ |- _ => rewrite H; clear H end;
    simpl; try done.
  destruct (param_name p); [apply IH; lia|]. case_bool_decide; [apply IH; lia|done].
Qed.

(** C27: [matchRoute] terminates and, walking both strings in place, gives the
    answer and the parameters of the matcher that splits them into segments; a
    pattern ending in a star matches by prefix. *)
Theorem matchRoute_correct pattern path params :
  matchRoute pattern path params =
  Some (if last pattern == Some "*"%char
        then (starts_with (take (length pattern - 1) pattern) path, params)
        else match_segments (segments pattern) (segments path) params).
Proof.
  unfold matchRoute. case_bool_decide; [done|]. rewrite match_loop_spec by lia. by rewrite !drop_0.
Qed.

(** * Parameters *)

(** A path built from a pattern: each parameter replaced by a value. *)
Fixpoint fill (ps : list bytes) (vals : list bytes) : list bytes :=
  match ps with
  | [] => []
  | p :: ps' =>
    match param_name p, vals with
    | Some _, v :: vals' => v :: fill ps' vals'
    | _, _ => p :: fill ps' vals
    end
  end.

Definition param_names (ps : list bytes) : list bytes := omap param_name ps.

Definition print_path (segs : list bytes) : bytes := concat ((λ s, "/"%char :: s) <$> segs).

Definition plain_segment (s : bytes) : Prop := s ≠ [] ∧ "/"%char ∉ s.

Lemma segments_print segs : Forall plain_segment segs → segments (print_path segs) = segs.
Proof.
  intros Hs. induction Hs as [|s segs [Hne Hsl] _ IH]; [done|].
  change (print_path (s :: segs)) with ("/"%char :: s ++ print_path segs).
  unfold segments. simpl. rewrite split_path_word by done. simpl.
  rewrite split_path_flush; [by rewrite IH|done|].
  destruct segs; [by left|by right].
Qed.

Lemma match_segments_fill ps vals params :
  length vals = length (param_names ps) →
  match_segments ps (fill ps vals) params =
  (true, list_to_map (reverse (zip (param_names ps) vals)) ∪ params).
Proof.
  revert vals params. induction ps as [|p ps IH]; intros vals params Hl; simpl in *.
  { destruct vals; [|done]. simpl. by rewrite (left_id_L ∅ (∪)). }
  destruct (param_name p) as [n|] eqn:E; simpl in *.
  - destruct vals as [|v vals]; [done|]. simpl in *. rewrite IH by lia. f_equal.
    rewrite reverse_cons, list_to_map_app. simpl. rewrite <- (assoc_L (∪)). f_equal.
    by rewrite insert_empty, <- insert_union_singleton_l.
  - rewrite bool_decide_eq_true_2 by done. by apply IH.
Qed.

Lemma split_path_plain s cur :
  "/"%char ∉ cur → Forall plain_segment (split_path s cur).
Proof.
  revert cur. induction s as [|c s IH]; intros cur Hc; simpl.
  - destruct (is_empty cur) eqn:E; checks; [done|]. by repeat constructor.
  - case_bool_decide; [|apply IH; set_solver]. specialize (IH [] ltac:(set_solver)).
    destruct (is_empty cur) eqn:E; checks; [done|]. by constructor.
Qed.

Lemma fill_plain ps vals :
  Forall plain_segment ps → Forall plain_segment vals → Forall plain_segment (fill ps vals).
Proof.
  intros Hps. revert vals. induction Hps as [|p ps Hp _ IH]; intros vals Hv; simpl; [done|].
  destruct (param_name p), Hv; constructor; auto.
Qed.

(** A path made from a pattern by giving each parameter a non-empty value
    without slashes is matched, and the values are read back under the names of
    the pattern. *)
Theorem matchRoute_fill pattern vals :
  last pattern ≠ Some "*"%char →
  Forall plain_segment vals → length vals = length (param_names (segments pattern)) →
  NoDup (param_names (segments pattern)) →
  matchRoute pattern (print_path (fill (segments pattern) vals)) ∅ =
  Some (true, list_to_map (zip (param_names (segments pattern)) vals)).
Proof.
  intros Hw Hv Hl Hnd. unfold matchRoute. rewrite bool_decide_eq_false_2 by done.
  rewrite match_loop_spec by lia. rewrite !drop_0, segments_print
    by (apply fill_plain; [apply split_path_plain; set_solver|done]).
  rewrite match_segments_fill by done. do 2 f_equal. rewrite (right_id_L ∅ (∪)).
  apply list_to_map_proper; [|apply reverse_Permutation].
  rewrite fmap_reverse, fst_zip by lia. by rewrite reverse_Permutation.
Qed.

(** * Static files *)
Section static_path.
  (** [std::filesystem::weakly_canonical], [None] when it reports an error. *)
  Variable weakly_canonical : bytes → option bytes.

(** [path::lexically_normal] of a relative path without [..]. *)
Definition lexically_normal (p : bytes) : bytes :=
  if is_empty p then []
  else
    let comps := filter (λ s, s ≠ lit ".") (segments p) in
    let trailing := (last p == Some "/"%char) || (last (segments p) == Some (lit ".")) in
    match comps with
    | [] => "."
    | c :: comps' => c ++ print_path comps' ++ (if trailing then "/" else [])
    end.

(** [root / p] *)
Definition path_join (root p : bytes) : bytes :=
  if head p == Some "/"%char then p
  else if is_empty root || (last root == Some "/"%char) then root ++ p
  else root ++ "/" ++ p.

(** What is asked for below the root. *)
Definition static_suffix (mount_path request_path : bytes) : bytes :=
  let suffix :=
    if negb (is_empty mount_path) && starts_with mount_path request_path
    then drop (length mount_path) request_path else request_path in
  let suffix := if is_empty suffix then lit "/" else suffix in
  let suffix := if suffix == "/" then lit "/index.html" else suffix in
  drop (skip_slashes suffix 0) suffix.

(** [is_safe_static_path]: the resolved path, [None] when it returns false. *)
Definition is_safe_static_path (mount_path request_path root_dir : bytes) : option bytes :=
  match weakly_canonical root_dir with
  | None => None
  | Some root =>
    let suffix := static_suffix mount_path request_path in
    if bool_decide (is_Some (find_sub ".." suffix)) then None
    else
      let candidate := path_join root (lexically_normal suffix) in
      match weakly_canonical root, weakly_canonical candidate with
      | Some canonical_root, Some canonical_candidate =>
        if negb (starts_with canonical_root canonical_candidate) then None
        else Some canonical_candidate
      | _, _ => None
      end
  end.
End static_path.

Lemma find_sub_None p s a b : find_sub p s = None → s ≠ a ++ p ++ b.
Proof.
  intros H ->. induction a as [|c a IH]; simpl in H.
  - assert (starts_with p (p ++ b) = true) as E.
    { clear. induction p as [|c p IH]; [done|]. simpl. by rewrite bool_decide_eq_true_2. }
    destruct (p ++ b); simpl in H; by rewrite E in H.
  - destruct (starts_with p (c :: a ++ p ++ b)); [done|]. apply fmap_None in H. auto.
Qed.

Lemma starts_with_prefix p s : starts_with p s = true → ∃ t, s = p ++ t.
Proof.
  revert s. induction p as [|c p IH]; intros s; simpl; [eauto|].
  destruct s as [|c' s]; [done|]. intros [->%bool_decide_eq_true H]%andb_true_iff.
  destruct (IH _ H) as [t ->]. eauto.
Qed.

(** A file served from a mount is the canonical form of a path below the
    root that contains no two consecutive dots, and that canonical form
    starts with the characters of the canonical root. *)
Theorem static_path_confined weakly_canonical mount request root_dir resolved :
  is_safe_static_path weakly_canonical mount request root_dir = Some resolved →
  ∃ root canonical_root rest,
    weakly_canonical root_dir = Some root ∧ weakly_canonical root = Some canonical_root ∧
    weakly_canonical (path_join root (lexically_normal (static_suffix mount request))) = Some resolved ∧
    resolved = canonical_root ++ rest ∧
    ∀ a b, static_suffix mount request ≠ a ++ ".." ++ b.
Proof.
  unfold is_safe_static_path. intros H. repeat case_match; simplify_eq. bool_props.
  match goal with H : starts_with _ _ = true |- _ => apply starts_with_prefix in H as [t ->] end.
  eexists _, _, _. split_and!; eauto. intros a b. apply find_sub_None.
  by destruct (find_sub _ _); [exfalso; eauto|].
Qed.

(** The characters of the root are not followed by a separator, so a sibling
    directory that extends its name passes: here [/var/www-old], reached by a
    link below the root [/var/www]. *)
Theorem static_prefix_without_separator :
  let weakly_canonical (p : bytes) : option bytes :=
    if p == "/var/www/link" then Some (lit "/var/www-old/f") else Some p in
  is_safe_static_path weakly_canonical "/static" "/static/link" "/var/www" = Some (lit "/var/www-old/f").
Proof. by vm_compute. Qed.

#[local] Instance plain_segment_dec s : Decision (plain_segment s).
Proof. unfold plain_segment. apply _. Defined.

Lemma matchRoute_fill_witness :
  matchRoute "/users/{id}/orders/{n}" (print_path [lit "users"; lit "7"; lit "orders"; lit "42"]) ∅ =
  Some (true, {[ lit "id" := lit "7"; lit "n" := lit "42" ]}).
Proof.
  apply (matchRoute_fill "/users/{id}/orders/{n}" [lit "7"; lit "42"]).
  - by vm_compute.
  - evaluate.
  - done.
  - evaluate.
Defined.
