(* ===== verification/ApiKeyManager.v ===== *)
(** API keys: [include/server/api_key_manager.h]; the same comparison guards the
    admin listener in [src/server/admin_server.cpp]. *)

From S2P Require Import Prelude Config RouteUtils.

#[local] Open Scope Z_scope.
#[local] Open Scope gateway_scope.

Abbreviation keys_t := (gmap bytes ApiKeyConfig).

(** The constructor and [reload]: a later entry replaces an earlier one. *)
Definition load_keys (keys : list ApiKeyConfig) : keys_t :=
  foldl (λ t k, <[ak_key k := k]> t) ∅ keys.

(** [static_cast<unsigned char>(s[i])], or 0 past the end. *)
Definition byte_at (s : bytes) (i : nat) : Z :=
  match s !! i with Some c => Z.of_N (code c) | None => 0 end.

(** The loop of [constant_time_equals] from index [i]. *)
Fixpoint diff_loop (a b : bytes) (i fuel : nat) (diff : Z) : Z :=
  match fuel with
  | O => diff
  | S fuel' =>
    diff_loop a b (S i) fuel' (Z.lor diff (Z.land (Z.lxor (byte_at a i) (byte_at b i)) 255))
  end.

Definition constant_time_equals (a b : bytes) : bool :=
  let diff := Z.land (Z.lxor (size a) (size b)) 255 in
  let len := (length a `max` length b)%nat in
  diff_loop a b 0 len diff =? 0.

Definition contains (values : list bytes) (value : bytes) : bool := bool_decide (value ∈ values).

Definition matches_scope (allowed : list bytes) (actual : bytes) (host_scope : bool) : bool :=
  if is_empty allowed then true
  else
    let normalized_actual := if host_scope then normalize_header_value actual else actual in
    existsb (λ value : bytes, (value == "*") || (host_scope && (normalize_header_value value == normalized_actual)) ||
                      (negb host_scope && (value == normalized_actual))) allowed.

Section manager.
  Context `{HashOrder}.

(** A full scan: the last matching entry is returned. *)
Definition find_constant_time (key : bytes) (keys : keys_t) : option ApiKeyConfig :=
  foldl (λ found kv, if constant_time_equals kv.1 key then Some kv.2 else found) None (iter keys).

(** [ApiKeyManager::validate] *)
Definition validate_key (key : bytes) (keys : keys_t) : bool :=
  bool_decide (is_Some (find_constant_time key keys)).

Definition authorize (key : bytes) (route : GatewayRoute) (host tenant : bytes) (keys : keys_t) : bool :=
  match find_constant_time key keys with
  | None => false
  | Some config =>
    if contains (rt_denied_api_keys route) key then false
    else if negb (is_empty (rt_allowed_api_keys route)) && negb (contains (rt_allowed_api_keys route) key)
    then false
    else if negb (matches_scope (ak_allowed_hosts config) host true) ||
            negb (matches_scope (ak_allowed_tenants config) tenant false) then false
    else true
  end.
End manager.

(** * The comparison *)

Lemma diff_loop_zero a b i fuel diff :
  diff_loop a b i fuel diff = 0 ↔
  diff = 0 ∧ ∀ j, (i ≤ j < i + fuel)%nat → Z.land (Z.lxor (byte_at a j) (byte_at b j)) 255 = 0.
Proof.
  revert i diff. induction fuel as [|fuel IH]; intros i diff; simpl.
  { split; [intros ->; split; [done|lia]|by intros [? _]]. }
  rewrite IH, Z.lor_eq_0_iff. split.
  - intros [[-> Hi] Hj]. split; [done|]. intros j Hj'.
    destruct (decide (i = j)) as [->|]; [done|]. apply Hj. lia.
  - intros [-> Hj]. split_and!; [done|apply Hj; lia|]. intros j Hj'. apply Hj. lia.
Qed.

Lemma byte_at_range s i : 0 <= byte_at s i < 2 ^ 8.
Proof.
  unfold byte_at. case_match; [|lia]. unfold code. pose proof (N_ascii_bounded a). lia.
Qed.

Lemma land_lxor_zero x y : Z.land (Z.lxor x y) 255 = 0 ↔ x mod 2 ^ 8 = y mod 2 ^ 8.
Proof.
  change 255 with (Z.ones 8). rewrite Z.land_ones by lia. rewrite <- !Z.land_ones by lia.
  split; intros E.
  - apply Z.lxor_eq. apply Z.bits_inj'. intros n Hn. apply (f_equal (λ z, Z.testbit z n)) in E.
    rewrite Z.lxor_spec, !Z.land_spec in *. rewrite Z.lxor_spec, Z.bits_0 in *.
    destruct (Z.testbit x n), (Z.testbit y n), (Z.testbit (Z.ones 8) n); done.
  - apply Z.bits_inj'. intros n Hn. apply (f_equal (λ z, Z.testbit z n)) in E.
    rewrite !Z.land_spec in *. rewrite Z.lxor_spec, Z.bits_0.
    destruct (Z.testbit x n), (Z.testbit y n), (Z.testbit (Z.ones 8) n); done.
Qed.

(** The comparison sees the lengths modulo 256 and the bytes padded by NULs. *)
Lemma constant_time_equals_spec a b :
  constant_time_equals a b = true ↔
  size a mod 256 = size b mod 256 ∧ ∀ i, byte_at a i = byte_at b i.
Proof.
  unfold constant_time_equals. rewrite Z.eqb_eq, diff_loop_zero, land_lxor_zero.
  change (2 ^ 8) with 256. f_equiv. split.
  - intros Hj i. destruct (decide (i < length a `max` length b)%nat) as [Hi|Hi].
    + specialize (Hj i ltac:(lia)). rewrite land_lxor_zero in Hj.
      pose proof (byte_at_range a i). pose proof (byte_at_range b i).
      by rewrite !Z.mod_small in Hj.
    + unfold byte_at. rewrite !lookup_ge_None_2 by lia. done.
  - intros Hi j _. by rewrite land_lxor_zero, Hi.
Qed.

Definition NUL : ascii := Ascii.zero.

Lemma byte_at_inj a b :
  NUL ∉ a → NUL ∉ b → (∀ i, byte_at a i = byte_at b i) → a = b.
Proof.
  intros Ha Hb H. apply list_eq. intros i. specialize (H i). unfold byte_at in H.
  assert (Hnz : ∀ (s : bytes) c, NUL ∉ s → s !! i = Some c → Z.of_N (code c) ≠ 0).
  { intros s c Hs Hc E. apply Hs. apply list_elem_of_lookup. exists i. rewrite Hc. f_equal.
    assert (code c = 0%N) as Ec by lia. unfold code in Ec.
    by rewrite <- (ascii_N_embedding c), Ec. }
  destruct (a !! i) as [c|] eqn:E1, (b !! i) as [c'|] eqn:E2; try done.
  - f_equal. assert (code c = code c') as E by lia. unfold code in E.
    by rewrite <- (ascii_N_embedding c), E, ascii_N_embedding.
  - by apply Hnz in E1.
  - symmetry in H. by apply Hnz in E2.
Qed.

Lemma constant_time_equals_plain a b :
  NUL ∉ a → NUL ∉ b → constant_time_equals a b = bool_decide (a = b).
Proof.
  intros Ha Hb. apply eq_true_iff_eq. rewrite constant_time_equals_spec, bool_decide_eq_true.
  split; [intros [_ H]; by apply byte_at_inj|by intros ->].
Qed.

(** Outside that domain the comparison accepts strings that differ: the length
    difference is cut to eight bits before it is compared. *)
Theorem constant_time_equals_padding (a : bytes) :
  let b := a ++ replicate 256 NUL in constant_time_equals a b = true ∧ a ≠ b.
Proof.
  intros b. split.
  - apply constant_time_equals_spec. split.
    + subst b. rewrite size_app. change (size (replicate 256 NUL)) with (1 * 256). by rewrite Z_mod_plus_full.
    + intros i. subst b. unfold byte_at. destruct (decide (i < length a)%nat).
      * by rewrite lookup_app_l.
      * rewrite lookup_app_r, (lookup_ge_None_2 a) by lia.
        destruct (replicate 256 NUL !! (i - length a)%nat) eqn:E; [|done].
        by apply lookup_replicate in E as [-> _].
  - intros E%(f_equal length). subst b. rewrite length_app in E. simpl in E. lia.
Qed.

(** * Lookup and authorization *)

Lemma load_keys_lookup ks k ak :
  NoDup (ak_key <$> ks) → load_keys ks !! k = Some ak ↔ ak ∈ ks ∧ ak_key ak = k.
Proof.
  unfold load_keys. induction ks as [|a ks IH] using rev_ind; intros Hnd.
  { simpl. rewrite lookup_empty. set_solver. }
  rewrite fmap_app, NoDup_app in Hnd. destruct Hnd as (Hnd & Hdis & _).
  rewrite foldl_app. simpl. rewrite lookup_insert. case_decide as E.
  - subst k. rewrite elem_of_app, list_elem_of_singleton. split; [intros [= <-]; auto|].
    intros [[Hin| ->] Hk]; [|done]. exfalso.
    apply (Hdis (ak_key a)); [rewrite <- Hk; by apply list_elem_of_fmap_2|simpl; set_solver].
  - rewrite IH by done. rewrite elem_of_app, list_elem_of_singleton. naive_solver.
Qed.

Section lookup.
  Context `{HashOrder}.

Lemma scan_lookup key (l : list (bytes * ApiKeyConfig)) acc :
  NoDup l.*1 →
  foldl (λ found kv, if bool_decide (kv.1 = key) then Some kv.2 else found) acc l =
  match list_to_map (M:=gmap bytes ApiKeyConfig) l !! key with Some v => Some v | None => acc end.
Proof.
  revert acc. induction l as [|[k v] l IH]; intros acc Hnd; simpl; [by rewrite lookup_empty|].
  simpl in Hnd. apply NoDup_cons in Hnd as [Hk Hnd]. rewrite IH by done. simpl.
  case_bool_decide as E.
  - subst. rewrite lookup_insert_eq. by rewrite not_elem_of_list_to_map_1.
  - by rewrite lookup_insert_ne.
Qed.

Lemma find_constant_time_lookup key keys :
  NUL ∉ key → map_Forall (λ k _, NUL ∉ k) keys → find_constant_time key keys = keys !! key.
Proof.
  intros Hkey Hkeys. unfold find_constant_time.
  rewrite <- (list_to_map_iter keys) at 2.
  transitivity (foldl (λ found kv, if bool_decide (kv.1 = key) then Some kv.2 else found) None (iter keys)).
  - assert (Hall : Forall (λ kv, NUL ∉ kv.1) (iter keys)).
    { apply Forall_forall. intros [k v] Hin%elem_of_iter. by apply (Hkeys k v). }
    generalize (@None ApiKeyConfig).
    induction Hall as [|kv l Hkv _ IH]; intros acc; simpl; [done|].
    by rewrite constant_time_equals_plain, IH.
  - rewrite scan_lookup by apply NoDup_iter. by destruct (_ !! key).
Qed.

(** A request in the scope of a list of hosts or tenants. *)
Definition in_scope (normalize : bytes → bytes) (allowed : list bytes) (actual : bytes) : Prop :=
  allowed = [] ∨ lit "*" ∈ allowed ∨ ∃ v, v ∈ allowed ∧ normalize v = normalize actual.

Lemma matches_scope_spec allowed actual (host_scope : bool) :
  matches_scope allowed actual host_scope = true ↔
  in_scope (if host_scope then normalize_header_value else id) allowed actual.
Proof.
  unfold matches_scope, in_scope. destruct (is_empty allowed) eqn:E; checks; [naive_solver|].
  rewrite existsb_exists. split.
  - intros (v & Hin%list_elem_of_In & Hv). right.
    rewrite !orb_true_iff, !andb_true_iff, !bool_decide_eq_true, negb_true_iff in Hv.
    destruct host_scope; naive_solver.
  - intros [|[Hin|(v & Hin & Hv)]]; [done|exists (lit "*")|exists v];
      rewrite <- list_elem_of_In, !orb_true_iff, !andb_true_iff, !bool_decide_eq_true, negb_true_iff;
      destruct host_scope; naive_solver.
Qed.

End lookup.

