(* ===== verification/ConnectionBudget.v ===== *)
(** The process-wide connection ceiling: [include/server/connection_budget.h].
    The atomic accesses of the workers are the steps of a transition system, so
    every interleaving of their [try_acquire] loops is covered. *)

From S2P Require Import Prelude.

#[local] Open Scope Z_scope.
#[local] Open Scope gateway_scope.

(** Where a worker is inside [try_acquire]. *)
Inductive pc :=
| Loaded (current : Z)       (* at the top of the loop *)
| Below (current : Z).       (* [current < max_] was seen; next is the exchange *)

(** [tickets]: the [Ticket] objects alive, with whether [owner_] is non-null. *)
Record budget := mkBudget {
  in_use_ : Z;
  max_ : Z;
  workers : gmap nat pc;
  tickets : gmap nat bool;
}.

Definition budget_init (max_connections : Z) : budget := mkBudget 0 max_connections ∅ ∅.

(** [release], by a ticket that owns its slot. *)
Definition release (b : budget) : budget := b{{in_use_ ::= fun n => wrap64 (n - 1)}}.

(** [Ticket::reset] of the object [t]. *)
Definition ticket_reset (t : nat) (b : budget) : budget :=
  match tickets b !! t with
  | Some true => (release b){{tickets ::= <[t := false]> }}
  | _ => b
  end.

(** Where [other.owner_] is taken over by [t]. *)
Definition ticket_take (other t : nat) (b : budget) : budget :=
  let owner := default false (tickets b !! other) in
  b{{tickets ::= fun ts => <[other := false]> (<[t := owner]> ts)}}.

(** The atomic steps. *)
Inductive budget_step : budget → budget → Prop :=
| step_load w b :
    workers b !! w = None →
    budget_step b (b{{workers ::= <[w := Loaded (in_use_ b)]> }})
| step_refuse w current b :
    workers b !! w = Some (Loaded current) → max_ b <= current →
    budget_step b (b{{workers ::= delete w}})
| step_below w current b :
    workers b !! w = Some (Loaded current) → current < max_ b →
    budget_step b (b{{workers ::= <[w := Below current]> }})
| step_exchange w current t b :
    workers b !! w = Some (Below current) → in_use_ b = current → tickets b !! t = None →
    budget_step b (b{{workers ::= delete w; in_use_ := wrap64 (current + 1);
                      tickets ::= <[t := true]> }})
| step_exchange_fails w current b :
    workers b !! w = Some (Below current) →
    budget_step b (b{{workers ::= <[w := Loaded (in_use_ b)]> }})
| step_move_construct other t b :
    is_Some (tickets b !! other) → tickets b !! t = None →
    budget_step b (ticket_take other t b)
| step_move_assign other t b :
    is_Some (tickets b !! other) → is_Some (tickets b !! t) →
    budget_step b (if t == other then b else ticket_take other t (ticket_reset t b))
| step_destroy t b :
    is_Some (tickets b !! t) →
    budget_step b ((ticket_reset t b){{tickets ::= delete t}})
| step_set_limit n b :
    0 <= n <= SIZE_MAX →
    budget_step b (b{{max_ := n}}).

(** A run, with the highest limit that was in force. *)
Inductive reachable (max_connections : Z) : Z → budget → Prop :=
| reach_init : reachable max_connections max_connections (budget_init max_connections)
| reach_step h b b' :
    reachable max_connections h b → budget_step b b' →
    reachable max_connections (Z.max h (max_ b')) b'.

(** The slots held: tickets that own one. *)
Definition owned (ts : gmap nat bool) : Z := Z.of_nat (base.size (filter (λ kv, kv.2 = true) ts)).

Definition held (b : budget) : Z := owned (tickets b).

Definition slot (o : option bool) : Z := match o with Some true => 1 | _ => 0 end.

Lemma owned_delete t ts : owned ts = owned (delete t ts) + slot (ts !! t).
Proof.
  unfold owned. rewrite map_filter_delete. destruct (ts !! t) as [[]|] eqn:E; simpl.
  - assert (filter (λ kv, kv.2 = true) ts !! t = Some true) as Ef by (by apply map_lookup_filter_Some_2).
    rewrite map_size_delete, Ef.
    assert (base.size (filter (λ kv, kv.2 = true) ts) ≠ 0%nat).
    { intros H0%map_size_empty_inv. by rewrite H0, lookup_empty in Ef. }
    simpl. lia.
  - rewrite delete_id; [lia|]. apply map_lookup_filter_None. right. naive_solver.
  - rewrite delete_id; [lia|]. apply map_lookup_filter_None. by left.
Qed.

Lemma owned_insert t v ts : owned (<[t := v]> ts) = owned (delete t ts) + slot (Some v).
Proof. by rewrite (owned_delete t), delete_insert_eq, lookup_insert_eq. Qed.

Lemma owned_nonneg ts : 0 <= owned ts.
Proof. unfold owned. lia. Qed.

Lemma ticket_reset_held t b :
  in_use_ b = held b → 0 <= in_use_ b <= SIZE_MAX →
  in_use_ (ticket_reset t b) = held (ticket_reset t b) ∧
  0 <= in_use_ (ticket_reset t b) <= in_use_ b ∧ slot (tickets (ticket_reset t b) !! t) = 0.
Proof.
  unfold held, ticket_reset. destruct b as [n mx ws ts]; simpl. intros Hin Hr.
  destruct (ts !! t) as [[]|] eqn:E; simpl.
  - rewrite lookup_insert_eq, owned_insert. simpl.
    pose proof (owned_delete t ts) as Hd. rewrite E in Hd. simpl in Hd.
    pose proof (owned_nonneg (delete t ts)).
    unfold wrap64, SIZE_MAX in *. rewrite Z.mod_small by lia. lia.
  - rewrite E. simpl. lia.
  - rewrite E. simpl. lia.
Qed.

Lemma ticket_take_held other t b :
  t ≠ other → slot (tickets b !! t) = 0 → held (ticket_take other t b) = held b.
Proof.
  destruct b as [n mx ws ts]. unfold held, ticket_take; simpl. intros Hne Ht.
  rewrite owned_insert, delete_insert_ne, owned_insert by done. simpl.
  rewrite (owned_delete other ts), (owned_delete t (delete other ts)).
  rewrite lookup_delete_ne by done. rewrite Ht. rewrite (delete_delete _ t other).
  destruct (ts !! other) as [[]|]; simpl; lia.
Qed.

(** The invariant of the transition system; [h] bounds the limits so far. *)
Record budget_inv (h : Z) (b : budget) : Prop := {
  inv_counts : in_use_ b = held b;
  inv_bound : 0 <= in_use_ b <= h;
  inv_limit : max_ b <= h <= SIZE_MAX;
  inv_below : map_Forall (λ _ p, match p with Below c => c < h | Loaded _ => True end) (workers b);
}.

Lemma budget_inv_mono h h' b : h <= h' <= SIZE_MAX → budget_inv h b → budget_inv h' b.
Proof.
  intros Hh [???Hb]. split; try done; try lia.
  eapply map_Forall_impl; [done|]. intros _ [|c]; simpl; [done|lia].
Qed.

Lemma ticket_reset_fields t b : max_ (ticket_reset t b) = max_ b ∧ workers (ticket_reset t b) = workers b.
Proof. destruct b as [n mx ws ts]. unfold ticket_reset; simpl. by destruct (ts !! t) as [[]|]. Qed.

(** Every step but a new limit keeps the invariant for the same bound. *)
Lemma budget_inv_step h b b' :
  budget_inv h b → budget_step b b' →
  budget_inv h b' ∨ (∃ n, 0 <= n <= SIZE_MAX ∧ b' = b{{max_ := n}}).
Proof.
  intros [Hc Hb Hl Hw] Hstep.
  destruct Hstep as [w b E|w cur b E Hm|w cur b E Hm|w cur t b E Hcur Ht|w cur b E|o t b Ho Ht
    |o t b Ho Ht|t b Ht|n b Hn]; [left..|right; eauto].
  1-3,5: destruct b as [n mx ws ts]; simpl in *; split; simpl; try done.
  - by apply map_Forall_insert_2.
  - by apply map_Forall_delete.
  - apply map_Forall_insert_2; [lia|done].
  - by apply map_Forall_insert_2.
  - pose proof (Hw _ _ E) as Hlt. simpl in Hlt. destruct b as [n mx ws ts]; unfold held in *; simpl in *. subst cur.
    unfold wrap64. rewrite Z.mod_small by (unfold SIZE_MAX in *; lia).
    split; unfold held; simpl; try done; try lia; [|by apply map_Forall_delete].
    rewrite owned_insert, delete_id by done. simpl. lia.
  - assert (t ≠ o) by (intros ->; rewrite Ht in Ho; by destruct Ho).
    split; rewrite ?ticket_take_held by (rewrite ?Ht; done); by destruct b.
  - case_bool_decide as Eto; [by split|]. destruct (ticket_reset_held t b) as (? & ? & ?); [done|lia|].
    destruct (ticket_reset_fields t b) as [Hm' Hw'].
    split; rewrite ?ticket_take_held by done; destruct (ticket_reset t b); simpl in *; subst; try done; lia.
  - destruct (ticket_reset_held t b) as (Hc' & ? & Hs); [done|lia|].
    destruct (ticket_reset_fields t b) as [Hm' Hw'].
    destruct (ticket_reset t b) as [n mx ws ts]; unfold held in *; simpl in *; subst mx ws.
    pose proof (owned_delete t ts). split; unfold held; simpl; try done; lia.
Qed.

Lemma reachable_inv max_connections h b :
  0 <= max_connections <= SIZE_MAX → reachable max_connections h b → budget_inv h b.
Proof.
  intros Hmax. induction 1 as [|h b b' _ IH Hstep].
  { split; simpl; try done; lia. }
  destruct (budget_inv_step _ _ _ IH Hstep) as [Hinv|(n & Hn & ->)].
  - destruct Hinv as [? ? [? ?] ?]. rewrite Z.max_l by done. by split.
  - apply (budget_inv_mono _ (Z.max h n)) in IH as [? ? ? ?]; [|by destruct IH; lia].
    destruct b; simpl in *. split; simpl; try done; lia.
Qed.

(** C29: In every interleaving of the workers' acquisitions, moves and releases the
    counter is the number of slots actually held, and it never passes the
    highest limit that was in force. *)
Theorem budget_never_exceeded max_connections h b :
  0 <= max_connections <= SIZE_MAX → reachable max_connections h b →
  in_use_ b = held b ∧ 0 <= in_use_ b <= h.
Proof. intros Hmax Hr. by destruct (reachable_inv _ _ _ Hmax Hr). Qed.

(** One worker takes the only slot of a budget of one. *)
Lemma budget_sample_run : ∃ b, reachable 1 1 b ∧ in_use_ b = 1.
Proof.
  pose proof (reach_step 1 1 _ _ (reach_init 1) (step_load 0 (budget_init 1) eq_refl)) as H1.
  match type of H1 with reachable _ _ ?b =>
    pose proof (reach_step 1 1 _ _ H1 (step_below 0 0 b eq_refl eq_refl)) as H2 end.
  match type of H2 with reachable _ _ ?b =>
    pose proof (reach_step 1 1 _ _ H2 (step_exchange 0 0 7 b eq_refl eq_refl eq_refl)) as H3 end.
  eexists. split; [exact H3|done].
Defined.

Lemma budget_never_exceeded_witness : ∃ b, in_use_ b = 1 ∧ held b = 1.
Proof.
  destruct budget_sample_run as (b & Hr & Hb). exists b. split; [done|].
  destruct (budget_never_exceeded 1 1 b) as [<- _]; [by vm_compute|done|done].
Defined.
