(* ===== verification/FileCache.v ===== *)
(** The LRU cache of file contents: [include/common/file_cache.h] and
    [src/common/file_cache.cpp]. A [std::list] is a list of nodes with stable
    identities, an iterator is the identity of its node. *)

From S2P Require Import Prelude.

#[local] Open Scope Z_scope.
#[local] Open Scope gateway_scope.

Record CacheEntry := mkEntry {
  content : bytes;
  ce_size : Z;
  mtime : Z;
}.

Record FileCache := mkCache {
  max_entries_ : Z;
  max_file_size_ : Z;
  list_ : list (nat * (bytes * CacheEntry));
  map_ : gmap bytes nat;
  next_node : nat;
}.

Definition cache_new (max_entries max_file_size_mb : Z) : FileCache :=
  mkCache max_entries (wrap64 (wrap64 (max_file_size_mb * 1024) * 1024)) [] ∅ 0.

(** [get]: the content, if cached and still valid. *)
Definition get (path : bytes) (file_mtime : Z) (c : FileCache) : option bytes * FileCache :=
  match map_ c !! path with
  | None => (None, c)
  | Some it =>
    match alookup it (list_ c) with
    | None => (None, c)
    | Some (_, entry) =>
      if (file_mtime =? 0) || (mtime entry =? file_mtime) then
        (Some (content entry), c{{list_ ::= splice_front it}})
      else (None, c{{list_ ::= assoc_remove it; map_ ::= delete path}})
    end
  end.

(** [put]; [None] is [back()] of an empty list. *)
Definition put (path content : bytes) (size mtime : Z) (c : FileCache) : option FileCache :=
  if max_file_size_ c <? size then Some c
  else
    match map_ c !! path with
    | Some it =>
      Some (c{{list_ ::= fun l =>
        splice_front it ((λ n, if bool_decide (n.1 = it) then (it, (n.2.1, mkEntry content size mtime)) else n) <$> l)}})
    | None =>
      let evicted :=
        if max_entries_ c <=? Z.of_nat (length (list_ c)) then
          match last (list_ c) with
          | None => None
          | Some (_, (p, _)) => Some (c{{map_ ::= delete p; list_ ::= fun l => take (length l - 1) l}})
          end
        else Some c in
      match evicted with
      | None => None
      | Some c =>
        Some (c{{list_ ::= cons (next_node c, (path, mkEntry content size mtime));
                 map_ ::= <[path := next_node c]>; next_node ::= S}})
      end
    end.

Definition clear (c : FileCache) : FileCache := c{{list_ := []; map_ := ∅}}.

Definition cache_size (c : FileCache) : nat := length (list_ c).

(** * The abstract cache *)

(** Entries by path, most recently used first. *)
Definition lru : Type := list (bytes * CacheEntry).

Definition lru_get (path : bytes) (file_mtime : Z) (l : lru) : option bytes * lru :=
  match alookup path l with
  | Some e =>
    if (file_mtime =? 0) || (mtime e =? file_mtime)
    then (Some (content e), (path, e) :: assoc_remove path l)
    else (None, assoc_remove path l)
  | None => (None, l)
  end.

Definition lru_put (max_entries max_size : Z) (path : bytes) (e : CacheEntry) (l : lru) : lru :=
  if max_size <? ce_size e then l
  else
    match alookup path l with
    | Some _ => (path, e) :: assoc_remove path l
    | None => (path, e) :: (if max_entries <=? Z.of_nat (length l) then take (length l - 1) l else l)
    end.

Inductive cache_op :=
| Get (path : bytes) (file_mtime : Z)
| Put (path : bytes) (e : CacheEntry)
| Clear.

Definition cache_step (op : cache_op) (c : FileCache) : option (option bytes * FileCache) :=
  match op with
  | Get path t => Some (get path t c)
  | Put path e => pair None <$> put path (content e) (ce_size e) (mtime e) c
  | Clear => Some (None, clear c)
  end.

Definition lru_step (max_entries max_size : Z) (op : cache_op) (l : lru) : option bytes * lru :=
  match op with
  | Get path t => lru_get path t l
  | Put path e => (None, lru_put max_entries max_size path e l)
  | Clear => (None, [])
  end.

(** The answers to a sequence of operations. *)
Fixpoint run_cache (ops : list cache_op) (c : FileCache) : option (list (option bytes) * FileCache) :=
  match ops with
  | [] => Some ([], c)
  | op :: ops' =>
    match cache_step op c with
    | None => None
    | Some (a, c) =>
      match run_cache ops' c with Some (as_, c) => Some (a :: as_, c) | None => None end
    end
  end.

Fixpoint run_lru (max_entries max_size : Z) (ops : list cache_op) (l : lru) : list (option bytes) * lru :=
  match ops with
  | [] => ([], l)
  | op :: ops' =>
    let '(a, l) := lru_step max_entries max_size op l in
    let '(as_, l) := run_lru max_entries max_size ops' l in (a :: as_, l)
  end.

(** * Refinement *)

(** The two structures agree: node identities and paths are distinct, and the
    map holds exactly the node of each path. *)
Record cache_inv (c : FileCache) : Prop := {
  inv_nodes : NoDup (list_ c).*1;
  inv_paths : NoDup (list_ c).*2.*1;
  inv_map : ∀ path it, map_ c !! path = Some it ↔ ∃ e, (it, (path, e)) ∈ list_ c;
  inv_next : Forall (λ it, (it < next_node c)%nat) (list_ c).*1;
  inv_bounded : Z.of_nat (length (list_ c)) <= max_entries_ c;
  inv_max : 1 <= max_entries_ c;
}.

Lemma removed_by_path it path (l : list (nat * (bytes * CacheEntry))) e :
  NoDup l.*1 → NoDup l.*2.*1 → (it, (path, e)) ∈ l →
  (assoc_remove it l).*2 = assoc_remove path l.*2.
Proof.
  induction l as [|[it' [p' e']] l IH]; intros Hn Hp Hin; [set_solver|].
  simpl in Hn, Hp. apply NoDup_cons in Hn as [Hn1 Hn2]. apply NoDup_cons in Hp as [Hp1 Hp2].
  rewrite fmap_cons. cbn [snd]. rewrite !assoc_remove_cons.
  apply elem_of_cons in Hin as [[= <- <- <-]|Hin].
  - rewrite !decide_True by done.
    rewrite (assoc_remove_id it) by done. by rewrite (assoc_remove_id path).
  - assert (it' ≠ it). { intros ->. apply Hn1, list_elem_of_fmap. by exists (it, (path, e)). }
    assert (p' ≠ path).
    { intros ->. apply Hp1, list_elem_of_fmap. exists (path, e). split; [done|].
      apply list_elem_of_fmap. by exists (it, (path, e)). }
    rewrite !decide_False by done. by rewrite fmap_cons, IH.
Qed.

Lemma cache_inv_path c path :
  cache_inv c →
  match map_ c !! path with
  | None => alookup path (list_ c).*2 = None
  | Some it => ∃ e, (it, (path, e)) ∈ list_ c ∧ alookup it (list_ c) = Some (path, e) ∧
                    alookup path (list_ c).*2 = Some e
  end.
Proof.
  intros [Hn Hp Hm _ _ _]. destruct (map_ c !! path) as [it|] eqn:E.
  - apply Hm in E as [e Hin]. exists e. split_and!; [done|by apply alookup_Some|].
    apply alookup_Some; [done|]. apply list_elem_of_fmap. by exists (it, (path, e)).
  - apply alookup_None. intros (pe & -> & ([it pe'] & -> & Hin)%list_elem_of_fmap)%list_elem_of_fmap.
    destruct pe' as [p e]. simpl in *. assert (map_ c !! p = Some it) by (apply Hm; eauto). congruence.
Qed.

(** Reduce the record operations only. *)
Ltac flat := cbn [max_entries_ max_file_size_ list_ map_ next_node apply_update constant] in *.

(** Moving the node of a path to the front, with a possibly new entry. *)
Lemma cache_inv_front c it path e e' :
  cache_inv c → (it, (path, e)) ∈ list_ c →
  let l' := (it, (path, e')) :: assoc_remove it (list_ c) in
  cache_inv (c{{list_ := l'}}) ∧ l'.*2 = (path, e') :: assoc_remove path (list_ c).*2.
Proof.
  intros [Hn Hp Hm Hx Hb Hmax] Hin. destruct c as [me ms l m nx]; flat.
  pose proof (removed_by_path it path l e Hn Hp Hin) as Hrem.
  split; [|by rewrite fmap_cons, Hrem]. split; flat; try done.
  - rewrite fmap_cons. apply NoDup_cons. split; [apply assoc_remove_notin|by apply assoc_remove_NoDup].
  - rewrite !fmap_cons, Hrem. apply NoDup_cons. split; [apply assoc_remove_notin|by apply assoc_remove_NoDup].
  - intros p j. rewrite Hm. setoid_rewrite elem_of_cons.
    unfold assoc_remove. setoid_rewrite list_elem_of_filter. simpl. split.
    + intros [e0 H0]. destruct (decide (j = it)) as [->|]; [|naive_solver].
      assert ((p, e0) = (path, e)) as [= -> ->]; [|naive_solver].
      apply alookup_Some in H0, Hin; try done. congruence.
    + naive_solver.
  - rewrite fmap_cons. apply Forall_cons. split.
    + rewrite Forall_forall in Hx. apply Hx, list_elem_of_fmap. by exists (it, (path, e)).
    + rewrite Forall_forall in *. intros x Hx'%assoc_remove_subseteq. auto.
  - apply assoc_remove_shorter in Hin. cbn [length]. lia.
Qed.

(** Removing the node of a path. *)
Lemma cache_inv_remove c it path e :
  cache_inv c → (it, (path, e)) ∈ list_ c →
  cache_inv (c{{list_ ::= assoc_remove it; map_ ::= delete path}}).
Proof.
  intros [Hn Hp Hm Hx Hb Hmax] Hin. destruct c as [me ms l m nx]; flat.
  split; flat; try done.
  - by apply assoc_remove_NoDup.
  - rewrite (removed_by_path it path l e) by done. by apply assoc_remove_NoDup.
  - intros p j. unfold assoc_remove. setoid_rewrite list_elem_of_filter. simpl.
    rewrite lookup_delete_Some, Hm. split.
    + intros [Hne [e0 H0]]. exists e0. split; [|done]. intros ->.
      apply alookup_Some in H0, Hin; try done. congruence.
    + intros (e0 & Hj & H0). split; [|eauto]. intros ->. apply Hj.
      assert (m !! p = Some it) by (apply Hm; eauto). assert (m !! p = Some j) by (apply Hm; eauto).
      congruence.
  - rewrite Forall_forall in *. intros x Hx'%assoc_remove_subseteq. auto.
  - pose proof (assoc_remove_length it l). lia.
Qed.

Lemma get_refines path t c a c' :
  cache_inv c → get path t c = (a, c') →
  cache_inv c' ∧ max_entries_ c' = max_entries_ c ∧ max_file_size_ c' = max_file_size_ c ∧
  lru_get path t (list_ c).*2 = (a, (list_ c').*2).
Proof.
  intros Hc. pose proof (cache_inv_path c path Hc) as Hpath. unfold get, lru_get.
  destruct (map_ c !! path) as [it|] eqn:E; [|rewrite Hpath; intros [= <- <-]; done].
  destruct Hpath as (e & Hin & -> & ->). case_match; intros [= <- <-].
  - destruct (cache_inv_front c it path e e Hc Hin) as [Hc' Hl'].
    destruct Hc as [Hn _ _ _ _ _]. destruct c; flat. by rewrite (splice_front_in it (path, e)), Hl'.
  - split; [by eapply cache_inv_remove|]. destruct Hc as [Hn Hp _ _ _ _]. destruct c; flat.
    by rewrite (removed_by_path it path _ e).
Qed.

Lemma cache_inv_insert c path e :
  cache_inv c → map_ c !! path = None → Z.of_nat (length (list_ c)) < max_entries_ c →
  cache_inv (c{{list_ ::= cons (next_node c, (path, e)); map_ ::= <[path := next_node c]>;
                next_node ::= S}}).
Proof.
  intros Hc Hpath Hlt. pose proof (cache_inv_path c path Hc) as Hp'. rewrite Hpath, alookup_None in Hp'.
  destruct Hc as [Hn Hp Hm Hx Hb Hmax]. destruct c as [me ms l m nx]; flat.
  assert (Hnew : nx ∉ l.*1). { intros Hin. rewrite Forall_forall in Hx. apply Hx in Hin. lia. }
  split; flat; try done.
  - rewrite fmap_cons. by apply NoDup_cons.
  - rewrite !fmap_cons. by apply NoDup_cons.
  - intros p j. setoid_rewrite elem_of_cons. rewrite lookup_insert_Some, Hm. split.
    + naive_solver.
    + intros [e0 [[= <- <- <-]|Hin]]; [by left|]. right. split; [|eauto].
      intros <-. apply Hp', list_elem_of_fmap. exists (path, e0). split; [done|].
      apply list_elem_of_fmap. by exists (j, (path, e0)).
  - rewrite fmap_cons. apply Forall_cons. split; [simpl; lia|].
    eapply Forall_impl; [done|]. simpl. lia.
  - simpl length. lia.
Qed.

(** Assigning the fields of a node, then moving it to the front. *)
Lemma splice_updated it path e e' (l : list (nat * (bytes * CacheEntry))) :
  NoDup l.*1 → (it, (path, e)) ∈ l →
  splice_front it ((λ n, if bool_decide (n.1 = it) then (it, (n.2.1, e')) else n) <$> l) =
  (it, (path, e')) :: assoc_remove it l.
Proof.
  intros Hn Hin. unfold splice_front.
  assert (Hl : alookup it ((λ n, if bool_decide (n.1 = it) then (it, (n.2.1, e')) else n) <$> l)
               = Some (path, e')).
  { induction l as [|[j [p x]] l IH]; [set_solver|]. rewrite fmap_cons in *. apply NoDup_cons in Hn as [Hj Hn].
    cbn [fst snd] in *. case_bool_decide as Ej; cbn [alookup].
    - subst j. rewrite bool_decide_eq_true_2 by done. apply elem_of_cons in Hin as [[= <- <-]|Hin]; [done|].
      exfalso. apply Hj, list_elem_of_fmap. by exists (it, (path, e)).
    - rewrite bool_decide_eq_false_2 by done. apply IH; [done|]. set_solver. }
  rewrite Hl. f_equal. clear Hl Hin Hn. induction l as [|[j [p x]] l IH]; [done|].
  rewrite fmap_cons. cbn [fst snd]. rewrite assoc_remove_cons.
  case_bool_decide; rewrite assoc_remove_cons; [by rewrite !decide_True|by rewrite !decide_False, IH].
Qed.

Lemma put_refines path e c :
  cache_inv c →
  ∃ c', put path (content e) (ce_size e) (mtime e) c = Some c' ∧ cache_inv c' ∧
    max_entries_ c' = max_entries_ c ∧ max_file_size_ c' = max_file_size_ c ∧
    (list_ c').*2 = lru_put (max_entries_ c) (max_file_size_ c) path e (list_ c).*2.
Proof.
  intros Hc. pose proof (cache_inv_path c path Hc) as Hpath. unfold put, lru_put.
  destruct (max_file_size_ c <? ce_size e); [eauto 10|].
  replace (mkEntry _ _ _) with e by (by destruct e).
  destruct (map_ c !! path) as [it|] eqn:E.
  { destruct Hpath as (e0 & Hin & _ & ->). eexists. split; [done|].
    destruct (cache_inv_front c it path e0 e Hc Hin) as [Hc' Hl'].
    destruct Hc as [Hn _ _ _ _ _]. destruct c; flat. by rewrite (splice_updated it path e0), Hl'. }
  rewrite Hpath, length_fmap.
  destruct (Z.leb_spec (max_entries_ c) (Z.of_nat (length (list_ c)))) as [Hfull|Hroom].
  - destruct (last (list_ c)) as [[it [p x]]|] eqn:Hlast.
    2: { apply last_None in Hlast. rewrite Hlast in Hfull. destruct Hc. simpl in *. lia. }
    assert (Hin : (it, (p, x)) ∈ list_ c) by (apply last_Some in Hlast as [l' ->]; set_solver).
    pose proof (cache_inv_remove c it p x Hc Hin) as Hc1.
    pose proof (assoc_remove_shorter _ _ _ Hin). destruct Hc as [Hn _ _ _ Hb _].
    destruct c as [me ms l m nx]; flat.
    eapply (cache_inv_insert _ path e) in Hc1; flat; [|by rewrite lookup_delete_None; right|lia].
    rewrite (removed_last it (p, x)) by done. eexists. split; [done|]. split; [exact Hc1|].
    split_and!; [done..|]. flat. rewrite fmap_cons, <- fmap_take. by rewrite (removed_last it (p, x)).
  - eexists. split; [done|]. split; [by apply cache_inv_insert|].
    destruct c; flat. by rewrite fmap_cons.
Qed.

Lemma empty_inv me ms nx : 1 <= me → cache_inv (mkCache me ms [] ∅ nx).
Proof.
  intros Hme. split; simpl; try done; try lia; try by apply NoDup_nil.
  intros path it. rewrite lookup_empty. set_solver.
Qed.

Lemma cache_new_inv max_entries mb : 1 <= max_entries → cache_inv (cache_new max_entries mb).
Proof. apply empty_inv. Qed.

Lemma clear_inv c : cache_inv c → cache_inv (clear c).
Proof. intros [_ _ _ _ _ ?]. destruct c. by apply empty_inv. Qed.

Lemma cache_step_refines op c :
  cache_inv c →
  ∃ a c', cache_step op c = Some (a, c') ∧ cache_inv c' ∧
    max_entries_ c' = max_entries_ c ∧ max_file_size_ c' = max_file_size_ c ∧
    lru_step (max_entries_ c) (max_file_size_ c) op (list_ c).*2 = (a, (list_ c').*2).
Proof.
  intros Hc. destruct op as [path t|path e|]; cbn [cache_step lru_step].
  - destruct (get path t c) as [a c'] eqn:E. apply get_refines in E; [eauto 10|done].
  - destruct (put_refines path e c Hc) as (c' & -> & ? & ? & ? & <-). eexists _, _. split; [done|]. done.
  - eexists _, _. split; [done|]. split; [by apply clear_inv|]. by destruct c.
Qed.

(** C30: The cache is an LRU cache: with room for at least one entry, every
    sequence of operations gets the answers of a list of entries kept in order
    of use, from which a full cache drops the last one. In particular [put]
    never reads the back of an empty list, and the cache never holds more than
    [max_entries] files. *)
Theorem file_cache_refines_lru max_entries max_file_size_mb ops :
  1 <= max_entries →
  let c := cache_new max_entries max_file_size_mb in
  ∃ c', run_cache ops c = Some ((run_lru max_entries (max_file_size_ c) ops []).1, c') ∧
    (list_ c').*2 = (run_lru max_entries (max_file_size_ c) ops []).2 ∧
    Z.of_nat (cache_size c') <= max_entries.
Proof.
  intros Hmax c. assert (Hc : cache_inv c) by (by apply cache_new_inv).
  change max_entries with (max_entries_ c). change [] with (list_ c).*2. clearbody c. clear Hmax.
  revert c Hc. induction ops as [|op ops IH]; intros c Hc.
  { simpl. destruct Hc. eauto. }
  destruct (cache_step_refines op c Hc) as (a & c1 & Hs & Hc1 & He & Hf & Hl). simpl.
  rewrite Hs, Hl. destruct (IH c1 Hc1) as (c' & Hr & Hl' & Hb). rewrite He, Hf in *.
  destruct (run_lru _ _ ops (list_ c1).*2) as [as_ l]. simpl in *. rewrite Hr. eauto.
Qed.

(** One entry, two files: the second insertion evicts the first. *)
Lemma file_cache_refines_lru_witness :
  ∃ c', run_cache [Put (lit "/a") (mkEntry "A" 1 5); Put (lit "/b") (mkEntry "B" 1 6);
                   Get (lit "/a") 5; Get (lit "/b") 6] (cache_new 1 1) =
    Some ([None; None; None; Some (lit "B")], c').
Proof.
  destruct (file_cache_refines_lru 1 1
    [Put (lit "/a") (mkEntry "A" 1 5); Put (lit "/b") (mkEntry "B" 1 6);
     Get (lit "/a") 5; Get (lit "/b") 6]) as (c' & -> & _); [lia|]. by exists c'.
Defined.
