(* ===== verification/FdCache.v ===== *)
(** The cache of open descriptors: [include/common/fd_cache.h] and
    [src/common/fd_cache.cpp]. The descriptors passed to [::close] are recorded
    in order; [time(nullptr)] is an input. *)

From S2P Require Import Prelude.

#[local] Open Scope Z_scope.
#[local] Open Scope gateway_scope.

(** [lru_it] is the node of the list that holds the path. *)
Record CachedFd := mkCachedFd {
  fd : Z;
  file_size : Z;
  mtime : Z;
  validated_at : Z;
  lru_it : nat;
}.

Record FdCache := mkFdCache {
  max_entries_ : Z;
  ttl_sec_ : Z;
  list_ : list (nat * bytes);
  map_ : gmap bytes CachedFd;
  next_node : nat;
  closed : list Z;
}.

Definition fd_cache_new (max_entries ttl_sec : Z) : FdCache := mkFdCache max_entries ttl_sec [] ∅ 0 [].

(** [try_get]: descriptor, size and modification time; [None] is -1. *)
Definition try_get (path : bytes) (now : Z) (c : FdCache) : option (Z * Z * Z) * FdCache :=
  match map_ c !! path with
  | None => (None, c)
  | Some e =>
    if now - validated_at e <? ttl_sec_ c then
      (Some (fd e, file_size e, mtime e), c{{list_ ::= splice_front (lru_it e)}})
    else (None, c)
  end.

(** Close, unlink and forget an entry. *)
Definition drop_entry (path : bytes) (e : CachedFd) (c : FdCache) : FdCache :=
  c{{closed ::= fun l => l ++ [fd e]; list_ ::= assoc_remove (lru_it e); map_ ::= delete path}}.

Definition validate (path : bytes) (file_mtime now : Z) (c : FdCache) : option Z * FdCache :=
  match map_ c !! path with
  | None => (None, c)
  | Some e =>
    if negb (mtime e =? file_mtime) then (None, drop_entry path e c)
    else
      (Some (fd e), c{{map_ ::= <[path := e{{validated_at := now}}]>;
                       list_ ::= splice_front (lru_it e)}})
  end.

(** [while (list_.size() >= max_entries_) ...]; [None] is [back()] of an empty
    list. *)
Fixpoint evict (fuel : nat) (c : FdCache) : option FdCache :=
  if Z.of_nat (length (list_ c)) <? max_entries_ c then Some c
  else
    match fuel, last (list_ c) with
    | S fuel', Some (_, last_path) =>
      let c := match map_ c !! last_path with
               | Some e => c{{closed ::= fun l => l ++ [fd e]; map_ ::= delete last_path}}
               | None => c
               end in
      evict fuel' (c{{list_ ::= fun l => take (length l - 1) l}})
    | _, _ => None
    end.

Definition put (path : bytes) (new_fd file_mtime new_size now : Z) (c : FdCache) : option FdCache :=
  let c := match map_ c !! path with Some e => drop_entry path e c | None => c end in
  match evict (length (list_ c)) c with
  | None => None
  | Some c =>
    Some (c{{list_ ::= cons (next_node c, path);
             map_ ::= <[path := mkCachedFd new_fd new_size file_mtime now (next_node c)]>;
             next_node ::= S}})
  end.

(** [clear], also the destructor. *)
Definition clear `{HashOrder} (c : FdCache) : FdCache :=
  c{{closed ::= fun l => l ++ ((λ kv, fd kv.2) <$> iter (map_ c)); map_ := ∅; list_ := [] }}.

(** * Ownership of descriptors *)

Inductive fd_op :=
| TryGet (path : bytes) (now : Z)
| Validate (path : bytes) (file_mtime now : Z)
| Put (path : bytes) (new_fd file_mtime new_size now : Z)
| ClearAll.

(** The descriptor an operation answers with, and the state after. *)
Definition fd_step `{HashOrder} (op : fd_op) (c : FdCache) : option (option Z * FdCache) :=
  match op with
  | TryGet path now => let '(r, c) := try_get path now c in Some ((λ x, x.1.1) <$> r, c)
  | Validate path t now => Some (validate path t now c)
  | Put path f t sz now => pair None <$> put path f t sz now c
  | ClearAll => Some (None, clear c)
  end.

(** The descriptor handed to the cache by an operation. *)
Definition given (op : fd_op) : list Z := match op with Put _ f _ _ _ => [f] | _ => [] end.

Definition live (c : FdCache) : list Z := (λ kv, fd kv.2) <$> map_to_list (map_ c).

Record fd_inv (c : FdCache) : Prop := {
  fi_nodes : NoDup (list_ c).*1;
  fi_paths : NoDup (list_ c).*2;
  fi_map : ∀ path e, map_ c !! path = Some e → (lru_it e, path) ∈ list_ c;
  fi_list : ∀ path, path ∈ (list_ c).*2 → is_Some (map_ c !! path);
  fi_next : Forall (λ it, (it < next_node c)%nat) (list_ c).*1;
  fi_bounded : Z.of_nat (length (list_ c)) <= max_entries_ c;
  fi_max : 1 <= max_entries_ c;
}.

Ltac flat := cbn [max_entries_ ttl_sec_ list_ map_ next_node closed apply_update constant
  fd file_size mtime validated_at lru_it] in *.

Lemma live_delete path e c :
  map_ c !! path = Some e → live c ≡ₚ fd e :: live (c{{map_ ::= delete path}}).
Proof.
  intros E. destruct c; unfold live; flat. by rewrite <- (map_to_list_delete _ _ _ E).
Qed.

Lemma live_insert path e c :
  map_ c !! path = None → live (c{{map_ ::= <[path := e]> }}) ≡ₚ fd e :: live c.
Proof. intros E. destruct c; unfold live; flat. by rewrite map_to_list_insert. Qed.

(** Reordering the list, and refreshing the entry of a path, keep the invariant. *)
Lemma fd_inv_perm c l' : fd_inv c → l' ≡ₚ list_ c → fd_inv (c{{list_ := l'}}).
Proof.
  intros [Hn Hp Hm Hl Hx Hb Hmax] Hperm. destruct c; flat. split; flat; try done.
  - by rewrite Hperm.
  - by rewrite Hperm.
  - intros path e. rewrite Hperm. apply Hm.
  - intros path. rewrite Hperm. apply Hl.
  - by rewrite Hperm.
  - by rewrite Hperm.
Qed.

Lemma fd_inv_refresh c path e e' :
  fd_inv c → map_ c !! path = Some e → lru_it e' = lru_it e → fd_inv (c{{map_ ::= <[path := e']> }}).
Proof.
  intros [Hn Hp Hm Hl Hx Hb Hmax] E Hit. destruct c; flat. split; flat; try done.
  - intros p x. rewrite lookup_insert_Some. intros [[<- <-]|[_ H]]; [|by apply Hm].
    rewrite Hit. by apply Hm.
  - intros p Hin. rewrite lookup_insert. case_decide; [done|by apply Hl].
Qed.

(** Forgetting the node and the entry of a path. *)
Lemma fd_inv_forget c path e cl :
  fd_inv c → map_ c !! path = Some e →
  fd_inv (c{{closed := cl; list_ ::= assoc_remove (lru_it e); map_ ::= delete path}}).
Proof.
  intros [Hn Hp Hm Hl Hx Hb Hmax] E. destruct c as [me ttl l m nx cl0]; flat.
  pose proof (Hm _ _ E) as Hin. split; flat; try done.
  - by apply assoc_remove_NoDup.
  - apply (sublist_NoDup _ l.*2); [done|]. apply fmap_sublist, sublist_filter.
  - intros p x [Hne H]%lookup_delete_Some. apply list_elem_of_filter. split; [|by apply Hm].
    simpl. intros Heq. apply Hne. pose proof (Hm _ _ H) as Hin'. rewrite Heq in Hin'.
    apply alookup_Some in Hin, Hin'; try done. congruence.
  - intros p ([it q] & -> & [Hit Hq]%list_elem_of_filter)%list_elem_of_fmap. simpl in *.
    rewrite lookup_delete_ne; [apply Hl, list_elem_of_fmap; by exists (it, q)|].
    intros <-. apply Hit. by eapply NoDup_snd_inj.
  - rewrite Forall_forall in *. intros x Hx'%assoc_remove_subseteq. auto.
  - pose proof (assoc_remove_length (lru_it e) l). lia.
Qed.

(** What an operation must preserve: the invariant, and that every descriptor
    received so far is closed or live. *)
Definition accounts (c : FdCache) (fds : list Z) : Prop := closed c ++ live c ≡ₚ fds.

Lemma drop_entry_ok path e c fds :
  fd_inv c → accounts c fds → map_ c !! path = Some e →
  fd_inv (drop_entry path e c) ∧ accounts (drop_entry path e c) fds ∧
  map_ (drop_entry path e c) !! path = None ∧
  (length (list_ (drop_entry path e c)) < length (list_ c))%nat.
Proof.
  intros Hc Ha E. split_and!.
  - pose proof (fd_inv_forget c path e (closed c ++ [fd e]) Hc E) as H. by destruct c.
  - unfold accounts in *. rewrite <- Ha, (live_delete path e c E). unfold drop_entry. destruct c; unfold live; flat.
    by rewrite <- app_assoc.
  - unfold drop_entry. destruct c; flat. apply lookup_delete_eq.
  - destruct Hc as [_ _ Hm _ _ _ _]. unfold drop_entry. destruct c; flat. eapply assoc_remove_shorter. by apply Hm.
Qed.

Lemma evict_ok fuel c fds :
  fd_inv c → accounts c fds → (length (list_ c) ≤ fuel)%nat →
  ∃ c', evict fuel c = Some c' ∧ fd_inv c' ∧ accounts c' fds ∧
    Z.of_nat (length (list_ c')) < max_entries_ c' ∧ map_ c' ⊆ map_ c ∧
    max_entries_ c' = max_entries_ c.
Proof.
  revert c. induction fuel as [|fuel IH]; intros c Hc Ha Hf; simpl.
  all: destruct (Z.ltb_spec (Z.of_nat (length (list_ c))) (max_entries_ c)) as [Hlt|Hge]; [by eauto 10|].
  { destruct Hc. destruct (list_ c); simpl in *; lia. }
  destruct (last (list_ c)) as [[it path]|] eqn:Hlast.
  2: { apply last_None in Hlast. rewrite Hlast in Hge. destruct Hc. simpl in *. lia. }
  assert (Hin : (it, path) ∈ list_ c) by (apply last_Some in Hlast as [l' ->]; set_solver).
  destruct (fi_list c Hc path) as [e He]; [apply list_elem_of_fmap; by exists (it, path)|]. rewrite He.
  assert (it = lru_it e) as ->.
  { eapply NoDup_snd_inj; [apply Hc|done|by eapply fi_map]. }
  destruct (drop_entry_ok path e c fds Hc Ha He) as (Hc1 & Ha1 & _ & Hlen).
  destruct (IH (drop_entry path e c)) as (c' & Hev & ? & ? & ? & Hsub & Hmax); [done..|lia|].
  exists c'. split_and!; try done.
  - rewrite <- Hev. f_equal. destruct Hc as [Hn _ _ _ _ _ _]. unfold drop_entry. destruct c; flat.
    by rewrite (removed_last (lru_it e) path).
  - etrans; [done|]. unfold drop_entry. destruct c; flat. apply delete_subseteq.
Qed.

Lemma fd_inv_insert c path e :
  fd_inv c → map_ c !! path = None → Z.of_nat (length (list_ c)) < max_entries_ c →
  lru_it e = next_node c →
  fd_inv (c{{list_ ::= cons (next_node c, path); map_ ::= <[path := e]>; next_node ::= S}}).
Proof.
  intros [Hn Hp Hm Hl Hx Hb Hmax] E Hlt Hit. destruct c as [me ttl l m nx cl]; flat.
  assert (Hnew : nx ∉ l.*1). { intros Hin. rewrite Forall_forall in Hx. apply Hx in Hin. lia. }
  split; flat; try done.
  - rewrite fmap_cons. by apply NoDup_cons.
  - rewrite fmap_cons. apply NoDup_cons. split; [|done]. intros [x Hin]%Hl. cbn [snd] in Hin. congruence.
  - intros p x. rewrite lookup_insert_Some. intros [[<- <-]|[_ H]]; [rewrite Hit; by left|].
    right. by apply Hm.
  - intros p. rewrite fmap_cons, elem_of_cons, lookup_insert. intros [->|Hin]; case_decide; try done.
    by apply Hl.
  - rewrite fmap_cons. apply Forall_cons. split; [simpl; lia|]. eapply Forall_impl; [done|]. simpl. lia.
  - simpl length. lia.
Qed.

Lemma live_in path e c : map_ c !! path = Some e → fd e ∈ live c.
Proof.
  intros E. apply list_elem_of_fmap. exists (path, e). split; [done|]. by apply elem_of_map_to_list.
Qed.

Lemma live_refresh path e e' c :
  map_ c !! path = Some e → fd e' = fd e → live (c{{map_ ::= <[path := e']> }}) ≡ₚ live c.
Proof.
  intros E Hf. rewrite (live_delete path e c E), <- Hf, <- (live_insert path e').
  - destruct c; unfold live; flat. by rewrite insert_delete_eq.
  - destruct c; flat. apply lookup_delete_eq.
Qed.

Lemma fd_inv_empty me ttl nx cl : 1 <= me → fd_inv (mkFdCache me ttl [] ∅ nx cl).
Proof.
  intros Hme. split; flat; try done; try by apply NoDup_nil.
  - intros path. rewrite fmap_nil. set_solver.
  - simpl. lia.
Qed.

Section ownership.
  Context `{HashOrder}.

Lemma put_ok path f t sz now c fds :
  fd_inv c → accounts c fds →
  ∃ c', put path f t sz now c = Some c' ∧ fd_inv c' ∧ accounts c' (fds ++ [f]) ∧
    max_entries_ c' = max_entries_ c.
Proof.
  intros Hc Ha. unfold put.
  assert (Hpre : ∃ c1, (match map_ c !! path with Some e => drop_entry path e c | None => c end) = c1 ∧
      fd_inv c1 ∧ accounts c1 fds ∧ map_ c1 !! path = None ∧ max_entries_ c1 = max_entries_ c).
  { destruct (map_ c !! path) as [e|] eqn:E; [|eauto 10].
    destruct (drop_entry_ok path e c fds Hc Ha E) as (? & ? & ? & _). eexists. split_and!; done. }
  destruct Hpre as (c1 & -> & Hc1 & Ha1 & E1 & Hm1).
  destruct (evict_ok (length (list_ c1)) c1 fds) as (c2 & -> & Hc2 & Ha2 & Hlt & Hsub & Hm2); [done..|].
  assert (E2 : map_ c2 !! path = None).
  { destruct (map_ c2 !! path) eqn:E; [|done]. rewrite map_subseteq_spec in Hsub. apply Hsub in E. congruence. }
  eexists. split; [done|]. split; [by apply fd_inv_insert|]. rewrite Hm1 in Hm2.
  split; [|by destruct c2]. unfold accounts in *. rewrite <- Ha2.
  pose proof (live_insert path (mkCachedFd f sz t now (next_node c2)) c2 E2) as Hlive.
  destruct c2; unfold live in *; flat. rewrite Hlive, <- app_assoc.
  f_equiv. by rewrite (Permutation_app_comm _ [f]).
Qed.

Lemma fd_step_ok op c fds :
  fd_inv c → accounts c fds →
  ∃ a c', fd_step op c = Some (a, c') ∧ fd_inv c' ∧ accounts c' (fds ++ given op) ∧
    max_entries_ c' = max_entries_ c ∧ (∀ f, a = Some f → f ∈ live c').
Proof.
  intros Hc Ha. destruct op as [path now|path t now|path f t sz now|]; cbn [fd_step given].
  - rewrite app_nil_r. unfold try_get. destruct (map_ c !! path) as [e|] eqn:E; [|by exists None, c].
    destruct (_ <? _); [|by exists None, c]. eexists _, _. split; [done|]. split_and!.
    + pose proof (fi_nodes c Hc) as Hn. pose proof (fi_map c Hc _ _ E) as Hin.
      pose proof (fd_inv_perm c _ Hc (splice_front_perm (lru_it e) path (list_ c) Hn Hin)) as H'.
      by destruct c.
    + by destruct c.
    + by destruct c.
    + intros f [= <-]. destruct c; flat. by eapply live_in.
  - rewrite app_nil_r. unfold validate. destruct (map_ c !! path) as [e|] eqn:E; [|by exists None, c].
    destruct (mtime e =? t) eqn:Et; simpl negb; cbn match.
    + eexists _, _. split; [done|].
      pose proof (fd_inv_refresh c path e (e{{validated_at := now}}) Hc E ltac:(by destruct e)) as Hc1.
      pose proof (live_refresh path e (e{{validated_at := now}}) c E ltac:(by destruct e)) as Hl1.
      pose proof (fi_nodes c Hc) as Hn. pose proof (fi_map c Hc _ _ E) as Hin.
      split_and!.
      * apply (fd_inv_perm _ (splice_front (lru_it e) (list_ c))) in Hc1; [by destruct c|].
        destruct c; flat. by apply (splice_front_perm _ path).
      * unfold accounts in *. rewrite <- Ha, <- Hl1. by destruct c.
      * by destruct c.
      * intros f [= <-]. pose proof (live_in path e c E) as Hlive. rewrite <- Hl1 in Hlive. by destruct c.
    + destruct (drop_entry_ok path e c fds Hc Ha E) as (? & ? & _). by exists None, (drop_entry path e c).
  - destruct (put_ok path f t sz now c fds Hc Ha) as (c' & -> & ? & ? & ?). by exists None, c'.
  - exists None, (clear c). rewrite app_nil_r. split; [done|]. destruct Hc as [_ _ _ _ _ _ Hmax].
    unfold accounts, live, clear in *. destruct c; flat.
    split_and!; [by apply fd_inv_empty|by rewrite <- Ha, iter_perm, app_nil_r|done..].
Qed.

(** A sequence of operations, with the descriptors it answered. *)
Fixpoint run_fd (ops : list fd_op) (c : FdCache) : option (list (option Z) * FdCache) :=
  match ops with
  | [] => Some ([], c)
  | op :: ops' =>
    match fd_step op c with
    | None => None
    | Some (a, c) => match run_fd ops' c with Some (as_, c) => Some (a :: as_, c) | None => None end
    end
  end.

Lemma run_fd_ok ops c fds :
  fd_inv c → accounts c fds →
  ∃ as_ c', run_fd ops c = Some (as_, c') ∧ accounts c' (fds ++ concat (given <$> ops)) ∧
    Z.of_nat (length (list_ c')) <= max_entries_ c.
Proof.
  revert c fds. induction ops as [|op ops IH]; intros c fds Hc Ha.
  { exists [], c. rewrite app_nil_r. by destruct Hc. }
  destruct (fd_step_ok op c fds Hc Ha) as (a & c1 & Hs & Hc1 & Ha1 & Hm & _).
  destruct (IH c1 (fds ++ given op) Hc1 Ha1) as (as_ & c' & Hr & Hp & Hl).
  exists (a :: as_), c'. cbn [run_fd]. rewrite Hs, Hr, fmap_cons, <- Hm. cbn [concat].
  by rewrite app_assoc.
Qed.

(** C31: The cache owns its descriptors: with room for at least one, any sequence
    of operations runs, holds at most [max_entries] descriptors, and leaves each
    descriptor it was given either live in the table or closed, each once: none
    is leaked and none is closed twice. *)
Theorem fd_cache_owns max_entries ttl ops :
  1 <= max_entries →
  ∃ as_ c', run_fd ops (fd_cache_new max_entries ttl) = Some (as_, c') ∧
    closed c' ++ live c' ≡ₚ concat (given <$> ops) ∧
    Z.of_nat (length (list_ c')) <= max_entries.
Proof.
  intros Hmax.
  assert (Hc : fd_inv (fd_cache_new max_entries ttl)) by (by apply fd_inv_empty).
  assert (Ha : accounts (fd_cache_new max_entries ttl) []).
  { unfold accounts, live, fd_cache_new. flat. by rewrite map_to_list_empty. }
  by apply (run_fd_ok ops (fd_cache_new max_entries ttl) []).
Qed.
End ownership.

(** Room for one descriptor: the second insertion closes the first. *)
Lemma fd_cache_owns_witness :
  ∃ as_ c', run_fd [Put (lit "/a") 7 1 10 0; Put (lit "/b") 8 1 10 0; TryGet (lit "/b") 5]
      (fd_cache_new 1 10) = Some (as_, c') ∧ closed c' ++ live c' ≡ₚ [7; 8].
Proof.
  destruct (fd_cache_owns 1 10 [Put (lit "/a") 7 1 10 0; Put (lit "/b") 8 1 10 0; TryGet (lit "/b") 5])
    as (as_ & c' & Hr & Hp & _); [lia|]. by exists as_, c'.
Defined.
