(* ===== verification/ConnectionPool.v ===== *)
(** Idle keep-alive connections: [include/server/connection_pool.h] and
    [src/server/connection_pool.cpp]. Each operation runs under the pool's
    mutex; times are nanoseconds of [steady_clock]. *)

From S2P Require Import Prelude.

#[local] Open Scope Z_scope.
#[local] Open Scope gateway_scope.

(** A socket is named by a number. *)
Record PooledConnection := mkPooled {
  socket : nat;
  leftover : bytes;
  last_used : Z;
}.

Record ConnectionPool := mkPool {
  idle_ : gmap bytes (list PooledConnection);
  test_idle_timeout_ : option Z;
}.

Definition pool_init : ConnectionPool := mkPool ∅ None.

Definition max_idle_per_upstream : nat := 16.

Definition idle_timeout : Z := 60 * 10 ^ 9.

Definition set_idle_timeout_for_testing (t : Z) (p : ConnectionPool) : ConnectionPool :=
  p{{test_idle_timeout_ := Some t}}.

Definition effective_idle_timeout (p : ConnectionPool) : Z := default idle_timeout (test_idle_timeout_ p).

Definition pool_key (host : bytes) (port : Z) (scheme : bytes) : bytes :=
  scheme ++ host ++ ":" ++ to_string port.

(** The loop of [checkout]: the first connection that has not expired, and the
    connections behind it. *)
Fixpoint take_live (expiry : Z) (dq : list PooledConnection)
    : option PooledConnection * list PooledConnection :=
  match dq with
  | [] => (None, [])
  | conn :: dq' => if last_used conn <? expiry then take_live expiry dq' else (Some conn, dq')
  end.

Definition checkout (host : bytes) (port : Z) (scheme : bytes) (now : Z) (p : ConnectionPool)
    : option PooledConnection * ConnectionPool :=
  let key := pool_key host port scheme in
  match idle_ p !! key with
  | None => (None, p)
  | Some dq =>
    let expiry := now - effective_idle_timeout p in
    let '(conn, dq') := take_live expiry dq in
    (conn, if is_empty dq' then p{{idle_ ::= delete key}} else p{{idle_ ::= <[key := dq']> }})
  end.

Definition checkin (host : bytes) (port : Z) (scheme : bytes) (conn : PooledConnection) (now : Z)
    (p : ConnectionPool) : ConnectionPool :=
  let key := pool_key host port scheme in
  let dq := default [] (idle_ p !! key) in
  if (max_idle_per_upstream <=? length dq)%nat then p{{idle_ ::= <[key := dq]> }}
  else p{{idle_ ::= <[key := dq ++ [conn{{last_used := now}}] ]> }}.

Definition invalidate (host : bytes) (port : Z) (scheme : bytes) (p : ConnectionPool) : ConnectionPool :=
  p{{idle_ ::= delete (pool_key host port scheme)}}.

(** * Ownership of sockets *)

Inductive pool_op :=
| Checkout (host : bytes) (port : Z) (scheme : bytes) (now : Z)
| Checkin (host : bytes) (port : Z) (scheme : bytes) (conn : PooledConnection) (now : Z)
| Invalidate (host : bytes) (port : Z) (scheme : bytes).

Definition pool_step (op : pool_op) (p : ConnectionPool) : option PooledConnection * ConnectionPool :=
  match op with
  | Checkout h n s now => checkout h n s now p
  | Checkin h n s conn now => (None, checkin h n s conn now p)
  | Invalidate h n s => (None, invalidate h n s p)
  end.

(** The sockets idle in the pool, with the keys they are stored under. *)
Definition idle_at (key : bytes) (p : ConnectionPool) : list PooledConnection :=
  default [] (idle_ p !! key).

(** A run of the pool with its holders: a socket checked in must be held by
    the caller, with the key it was opened for; a socket checked out is held
    again. [owner] maps each socket in use to that key. *)
Record world := mkWorld { pool : ConnectionPool; owner : gmap nat bytes; opened : gmap nat bytes }.

Inductive world_step : world → world → Prop :=
| open_socket s h n sch w :
    opened w !! s = None →
    world_step w (mkWorld (pool w) (<[s := pool_key h n sch]> (owner w))
                    (<[s := pool_key h n sch]> (opened w)))
| close_socket s w :
    world_step w (mkWorld (pool w) (delete s (owner w)) (opened w))
| do_checkin h n sch conn now w :
    owner w !! socket conn = Some (pool_key h n sch) →
    world_step w (mkWorld (checkin h n sch conn now (pool w)) (delete (socket conn) (owner w)) (opened w))
| do_checkout h n sch now conn p w :
    checkout h n sch now (pool w) = (conn, p) →
    world_step w (mkWorld p
      (match conn with Some c => <[socket c := pool_key h n sch]> (owner w) | None => owner w end)
      (opened w))
| do_invalidate h n sch w :
    world_step w (mkWorld (invalidate h n sch (pool w)) (owner w) (opened w)).

Definition world_init : world := mkWorld pool_init ∅ ∅.

(** The invariant: at most sixteen idle connections per key, every idle socket
    sits once in the pool, under the key it was opened for, and is held by no
    one. *)
Record world_inv (w : world) : Prop := {
  wi_bounded : ∀ key, (length (idle_at key (pool w)) ≤ max_idle_per_upstream)%nat;
  wi_nodup : ∀ key, NoDup (socket <$> idle_at key (pool w));
  wi_keyed : ∀ key c, c ∈ idle_at key (pool w) →
    opened w !! socket c = Some key ∧ owner w !! socket c = None;
  wi_owned : ∀ s key, owner w !! s = Some key → opened w !! s = Some key;
}.

Lemma take_live_spec expiry dq :
  ∃ dropped, let '(conn, dq') := take_live expiry dq in
    dq = dropped ++ option_list conn ++ dq' ∧
    Forall (λ c, last_used c < expiry) dropped ∧
    (∀ c, conn = Some c → expiry <= last_used c) ∧ (conn = None → dq' = []).
Proof.
  induction dq as [|c dq IH]; simpl; [by exists []|].
  destruct (Z.ltb_spec (last_used c) expiry).
  - destruct IH as [d IH]. exists (c :: d). destruct (take_live expiry dq) as [conn dq'].
    destruct IH as (-> & ? & ? & ?). split_and!; [done|by constructor|done..].
  - exists []. split_and!; naive_solver.
Qed.

Lemma idle_at_insert key key' dq p :
  idle_at key' (p{{idle_ ::= <[key := dq]> }}) = if decide (key = key') then dq else idle_at key' p.
Proof. unfold idle_at. destruct p; simpl. rewrite lookup_insert. by case_decide. Qed.

Lemma idle_at_delete key key' p :
  idle_at key' (p{{idle_ ::= delete key}}) = if decide (key = key') then [] else idle_at key' p.
Proof. unfold idle_at. destruct p; simpl. rewrite lookup_delete. by case_decide. Qed.

(** [checkout] leaves the other keys alone and cuts the queue of its own. *)
Lemma checkout_spec h n sch now p conn p' :
  checkout h n sch now p = (conn, p') →
  let key := pool_key h n sch in
  ∃ dropped rest, idle_at key p = dropped ++ option_list conn ++ rest ∧
    (∀ key', idle_at key' p' = if decide (key = key') then rest else idle_at key' p) ∧
    (∀ c, conn = Some c → now - effective_idle_timeout p <= last_used c).
Proof.
  intros H key. unfold checkout in H. fold key in H.
  destruct (idle_ p !! key) as [dq|] eqn:E; simplify_eq.
  - destruct (take_live_spec (now - effective_idle_timeout p) dq) as [d Hd].
    destruct (take_live _ dq) as [conn' dq']. simplify_eq. destruct Hd as (Hdq & _ & Hlive & _).
    exists d, dq'. split_and!; [by unfold idle_at; rewrite E|..|done].
    intros key'. destruct (is_empty dq') eqn:He; checks.
    + rewrite idle_at_delete. subst. done.
    + by rewrite idle_at_insert.
  - exists [], []. split_and!; [by unfold idle_at; rewrite E| |done].
    intros key'. case_decide; [|done]. subst. unfold idle_at. by rewrite E.
Qed.

Lemma checkin_spec h n sch conn now p :
  let key := pool_key h n sch in
  ∃ rest, (rest = idle_at key p ∧ length rest ≥ max_idle_per_upstream ∨
           rest = idle_at key p ++ [conn{{last_used := now}}] ∧
           length (idle_at key p) < max_idle_per_upstream)%nat ∧
    ∀ key', idle_at key' (checkin h n sch conn now p) = if decide (key = key') then rest else idle_at key' p.
Proof.
  intros key. unfold checkin. fold key. fold (idle_at key p).
  destruct (Nat.leb_spec max_idle_per_upstream (length (idle_at key p))).
  - exists (idle_at key p). split; [auto|]. intros key'. apply idle_at_insert.
  - eexists. split; [right; by split|]. intros key'. apply idle_at_insert.
Qed.

Inductive reachable : world → Prop :=
| reach_init : reachable world_init
| reach_step w w' : reachable w → world_step w w' → reachable w'.

Lemma world_inv_init : world_inv world_init.
Proof.
  split; simpl; intros key; unfold idle_at; simpl; rewrite ?lookup_empty; simpl; try done.
  - lia.
  - by apply NoDup_nil.
  - set_solver.
Qed.

Lemma world_inv_checkin h n sch conn now w :
  world_inv w → owner w !! socket conn = Some (pool_key h n sch) →
  world_inv (mkWorld (checkin h n sch conn now (pool w)) (delete (socket conn) (owner w)) (opened w)).
Proof.
  intros [Hb Hn Hk Ho] Hown. pose proof (Ho _ _ Hown) as Hop.
  destruct (checkin_spec h n sch conn now (pool w)) as (rest & Hrest & Hidle).
  assert (Hold : ∀ key c, c ∈ idle_at key (pool w) →
    socket c ≠ socket conn ∧ opened w !! socket c = Some key ∧ delete (socket conn) (owner w) !! socket c = None).
  { intros key c Hc. destruct (Hk key c Hc) as [? Hno]. split_and!; [congruence|done|].
    apply lookup_delete_None. by right. }
  split; simpl.
  - intros key. rewrite Hidle. case_decide; [|done]. subst key.
    destruct Hrest as [[-> _]|[-> ?]]; [apply Hb|]. rewrite length_app. simpl. lia.
  - intros key. rewrite Hidle. case_decide; [|done]. subst key.
    destruct Hrest as [[-> _]|[-> _]]; [apply Hn|]. rewrite fmap_app.
    apply NoDup_app. split_and!; [done| |apply NoDup_singleton].
    intros s (c & -> & [Hc _]%Hold)%list_elem_of_fmap. destruct conn; simpl in *. set_solver.
  - intros key c. rewrite Hidle. case_decide as Ek; [|by intros [_ ?]%Hold]. subst key.
    destruct Hrest as [[-> _]|[-> _]]; [by intros [_ ?]%Hold|].
    rewrite elem_of_app, list_elem_of_singleton. intros [[_ ?]%Hold| ->]; [done|].
    destruct conn; simpl in *. split; [done|]. apply lookup_delete_eq.
  - intros s key [_ H]%lookup_delete_Some. by apply Ho.
Qed.

Lemma world_inv_checkout h n sch now conn p w :
  world_inv w → checkout h n sch now (pool w) = (conn, p) →
  world_inv (mkWorld p
    (match conn with Some c => <[socket c := pool_key h n sch]> (owner w) | None => owner w end) (opened w)).
Proof.
  intros [Hb Hn Hk Ho] Hco. destruct (checkout_spec _ _ _ _ _ _ _ Hco) as (d & rest & Hd & Hidle & _).
  set (key0 := pool_key h n sch) in *.
  assert (Hsub : ∀ key c, c ∈ idle_at key p → c ∈ idle_at key (pool w)).
  { intros key c. rewrite Hidle. case_decide; [|done]. subst key. rewrite Hd. set_solver. }
  pose proof (Hn key0) as Hn0. rewrite Hd, !fmap_app in Hn0.
  apply NoDup_app in Hn0 as (_ & _ & Hn0). apply NoDup_app in Hn0 as (_ & Hdis & Hn0).
  split; simpl.
  - intros key. rewrite Hidle. case_decide; [|done]. subst key. specialize (Hb key0).
    rewrite Hd, !length_app in Hb. lia.
  - intros key. rewrite Hidle. case_decide; [by subst key|done].
  - intros key c Hc. destruct (Hk key c (Hsub _ _ Hc)) as [Hop Hno]. split; [done|].
    destruct conn as [c'|]; [|done]. rewrite lookup_insert_ne; [done|]. intros E.
    assert (opened w !! socket c' = Some key0) as Hop' by (apply (Hk key0); rewrite Hd; set_solver).
    rewrite E, Hop in Hop'. injection Hop' as ->. rewrite Hidle, decide_True in Hc by done.
    apply (Hdis (socket c)); [rewrite <- E; simpl; set_solver|by apply list_elem_of_fmap_2].
  - intros s key. destruct conn as [c|]; [|apply Ho]. rewrite lookup_insert. case_decide as E; [|apply Ho].
    intros [= <-]. subst s. apply (Hk key0). rewrite Hd. set_solver.
Qed.

Lemma world_inv_step w w' : world_inv w → world_step w w' → world_inv w'.
Proof.
  intros Hw Hstep.
  destruct Hstep as [s h n sch w Hs|s w|h n sch conn now w Hown|h n sch now conn p w Hco|h n sch w];
    [|..|by apply world_inv_checkin|by eapply world_inv_checkout|]; destruct Hw as [Hb Hn Hk Ho].
  - split; simpl; try done.
    + intros key c Hc. destruct (Hk key c Hc) as [Hop Hno]. rewrite !lookup_insert_ne; [done|congruence..].
    + intros s' key. rewrite !lookup_insert. case_decide; [done|]. apply Ho.
  - split; simpl; try done.
    + intros key c Hc. destruct (Hk key c Hc) as [Hop Hno]. split; [done|].
      apply lookup_delete_None. by right.
    + intros s' key [_ H]%lookup_delete_Some. by apply Ho.
  - split; simpl; try done; intros key; unfold invalidate; rewrite idle_at_delete.
    + case_decide; [simpl; lia|done].
    + case_decide; [by apply NoDup_nil|done].
    + case_decide; [set_solver|apply Hk].
Qed.

(** C33: A connection handed out by the pool was opened for the same pool key, has
    not been idle longer than the timeout and is held by no other request; and
    no key ever has more than sixteen idle connections. *)
Theorem checkout_safe w h n sch now c p :
  reachable w → checkout h n sch now (pool w) = (Some c, p) →
  opened w !! socket c = Some (pool_key h n sch) ∧ owner w !! socket c = None ∧
  now - effective_idle_timeout (pool w) <= last_used c ∧
  ∀ key, (length (idle_at key p) < max_idle_per_upstream ∨
          length (idle_at key p) ≤ max_idle_per_upstream ∧ key ≠ pool_key h n sch)%nat.
Proof.
  intros Hr Hco. assert (Hw : world_inv w).
  { clear Hco. induction Hr; [apply world_inv_init|by eapply world_inv_step]. }
  destruct (checkout_spec _ _ _ _ _ _ _ Hco) as (d & rest & Hd & Hidle & Hlive).
  destruct Hw as [Hb Hn Hk Ho]. destruct (Hk (pool_key h n sch) c) as [? ?]; [rewrite Hd; set_solver|].
  split_and!; [done..|by apply Hlive|]. intros key. rewrite Hidle. case_decide; [|right; auto].
  left. specialize (Hb (pool_key h n sch)). rewrite Hd, !length_app in Hb. simpl in Hb. lia.
Qed.

(** * Verification policies *)

(** [pool_scheme] of [forward_request] and of [UpstreamExchange], from the TLS
    parameters of the upstream. *)
Definition pool_scheme (enable skip_verify : bool) (ca_file server_name : bytes) : bytes :=
  if negb enable then []
  else if skip_verify then "tls/insecure|"
  else "tls/" ++ ca_file ++ "|" ++ server_name ++ "|".

(** What a connection was verified against. *)
Inductive policy := Plaintext | Unverified | Verified (ca_file server_name : bytes).

Definition policy_of (enable skip_verify : bool) (ca_file server_name : bytes) : policy :=
  if negb enable then Plaintext
  else if skip_verify then Unverified
  else Verified ca_file server_name.

Definition plain (s : bytes) : Prop := "|"%char ∉ s.

Lemma endpoint_inj host port host' port' :
  0 <= port → 0 <= port' →
  host ++ ":" ++ to_string port = host' ++ ":" ++ to_string port' → host = host' ∧ port = port'.
Proof.
  intros Hp Hp' E. apply split_last in E as [-> E]; [|by apply to_string_plain..].
  split; [done|]. by apply to_string_inj.
Qed.

Lemma endpoint_plain host port : plain host → 0 <= port → plain (host ++ ":" ++ to_string port).
Proof.
  intros Hh Hp. unfold plain. rewrite !elem_of_app. intros [?|[?|Hin]]; [done| |].
  - set_solver.
  - by apply to_string_plain in Hin.
Qed.

#[global] Instance policy_eq_dec : EqDecision policy.
Proof. solve_decision. Defined.

Definition scheme_of (p : policy) : bytes :=
  match p with
  | Plaintext => []
  | Unverified => "tls/" ++ "insecure" ++ ["|"%char]
  | Verified ca name => "tls/" ++ ca ++ "|"%char :: name ++ ["|"%char]
  end.

Lemma pool_scheme_policy e s ca name : pool_scheme e s ca name = scheme_of (policy_of e s ca name).
Proof. by destruct e, s. Qed.

Definition plain_policy (p : policy) : Prop :=
  match p with Verified ca name => plain ca ∧ plain name | _ => True end.

Lemma scheme_of_bar p : p ≠ Plaintext → "|"%char ∈ scheme_of p.
Proof. destruct p; simpl; [done|set_solver..]. Qed.

Lemma scheme_of_inj p p' ep ep' :
  plain_policy p → plain_policy p' → plain ep → plain ep' →
  scheme_of p ++ ep = scheme_of p' ++ ep' → p = p' ∧ ep = ep'.
Proof.
  assert (Hun : ∀ ca name x y, plain ca → plain x →
    "insecure" ++ ["|"%char] ++ x ≠ ca ++ "|"%char :: name ++ "|"%char :: y).
  { intros ca name x y Hca Hx E. apply split_first in E as [_ ->]; [|by apply (bool_decide_unpack _)|done].
    apply Hx. set_solver. }
  intros Hp Hp' He He' E.
  destruct (decide (p = Plaintext)) as [->|Hpl], (decide (p' = Plaintext)) as [->|Hpl']; [done| | |].
  - exfalso. apply He. simpl in E. rewrite E. apply elem_of_app. left. by apply scheme_of_bar.
  - exfalso. apply He'. simpl in E. rewrite <- E. apply elem_of_app. left. by apply scheme_of_bar.
  - destruct p as [| |ca name], p' as [| |ca' name']; try done; cbn [scheme_of plain_policy] in *;
      rewrite <- ?app_assoc, <- ?app_comm_cons, <- ?app_assoc in E; apply app_inv_head in E.
    + split; [done|]. apply app_inv_head in E. by simplify_eq/=.
    + destruct Hp'. by apply Hun in E.
    + destruct Hp. symmetry in E. by apply Hun in E.
    + destruct Hp, Hp'. apply split_first in E as [-> E]; [|done..].
      apply split_first in E as [-> ->]; done.
Qed.

(** With file names, server names and hosts free of the bar character, two
    upstreams share a pool key exactly when they have the same address and the
    same verification policy: a session verified for one name is never reused
    under another, nor a plaintext connection for a TLS upstream. *)
Theorem pool_identity e s ca name host port e' s' ca' name' host' port' :
  plain ca → plain name → plain host → plain ca' → plain name' → plain host' →
  0 <= port → 0 <= port' →
  pool_key host port (pool_scheme e s ca name) = pool_key host' port' (pool_scheme e' s' ca' name') ↔
  policy_of e s ca name = policy_of e' s' ca' name' ∧ host = host' ∧ port = port'.
Proof.
  intros Hca Hnm Hh Hca' Hnm' Hh' Hp Hp'. unfold pool_key. rewrite !pool_scheme_policy. split.
  - intros E. apply scheme_of_inj in E as [-> E]; [|by destruct e, s|by destruct e', s'|by apply endpoint_plain..].
    split; [done|]. by apply endpoint_inj.
  - by intros (-> & -> & ->).
Qed.

Lemma pool_identity_witness :
  pool_key "10.0.0.1" 443 (pool_scheme true false "ca.pem" "a") ≠
  pool_key "10.0.0.1" 443 (pool_scheme true false "ca.pem" "b").
Proof.
  intros E. apply (pool_identity true false "ca.pem" "a" "10.0.0.1" 443 true false "ca.pem" "b" "10.0.0.1" 443)
    in E as [E _]; [discriminate E|evaluate..|lia|lia].
Defined.

Lemma sample_world : ∃ w c p, reachable w ∧ checkout "h" 80 [] 5 (pool w) = (Some c, p).
Proof.
  pose proof (reach_step _ _ reach_init (open_socket 3 "h" 80 [] world_init eq_refl)) as H1.
  match type of H1 with reachable ?w =>
    pose proof (reach_step _ _ H1 (do_checkin "h" 80 [] (mkPooled 3 [] 0) 2 w eq_refl)) as H2 end.
  eexists _, _, _. split; [exact H2|by vm_compute].
Defined.

Lemma checkout_safe_witness :
  ∃ w c, reachable w ∧ opened w !! socket c = Some (pool_key "h" 80 []) ∧ owner w !! socket c = None.
Proof.
  destruct sample_world as (w & c & p & Hr & Hc). exists w, c.
  destruct (checkout_safe w "h" 80 [] 5 c p Hr Hc) as (? & ? & _). done.
Defined.
