(* ===== verification/ThreadPool.v ===== *)
(** The elastic thread pool: [include/server/pool.h] and [src/server/pool.cpp].
    The critical sections of the producers and workers are the steps of a
    transition system; a task is named by a number. *)

From S2P Require Import Prelude.

#[local] Open Scope gateway_scope.

(** [workers]: the threads inside [workerLoop], with the task each one runs
    outside the mutex. The last three fields record history: the tasks
    accepted, handed to a worker, and finished, each in order. *)
Record DynamicThreadPool := mkPool {
  min_threads_ : nat;
  max_threads_ : nat;
  scale_up_threshold_ : nat;
  scale_down_threshold_ : nat;    (* not read *)
  tasks_ : list nat;
  stop_ : bool;
  current_threads_ : nat;
  workers : gmap nat (option nat);
  submitted : list nat;
  started : list nat;
  finished : list nat;
}.

(** [addWorker], for a new thread [w]. *)
Definition addWorker (w : nat) (p : DynamicThreadPool) : DynamicThreadPool :=
  p{{workers ::= <[w := None]>; current_threads_ ::= S}}.

Definition shouldScaleUp (p : DynamicThreadPool) : bool :=
  (current_threads_ p * scale_up_threshold_ p <? length (tasks_ p)) &&
  (current_threads_ p <? max_threads_ p).

Definition shouldScaleDown (p : DynamicThreadPool) : bool :=
  negb (stop_ p) && is_empty (tasks_ p) && (min_threads_ p <? current_threads_ p).

(** The constructor starts the minimum of threads. *)
Fixpoint start_workers (k : nat) (p : DynamicThreadPool) : DynamicThreadPool :=
  match k with
  | O => p
  | S k' => addWorker k' (start_workers k' p)
  end.

Definition pool_init (min_threads max_threads scale_up scale_down : nat) : DynamicThreadPool :=
  start_workers min_threads
    (mkPool min_threads max_threads scale_up scale_down [] false 0 ∅ [] [] []).

(** [enqueue] of task [t]; a thread it starts is [w]. [None] is the exception. *)
Definition enqueue (t w : nat) (p : DynamicThreadPool) : option DynamicThreadPool :=
  if stop_ p then None
  else
    let p := p{{tasks_ ::= fun q => q ++ [t]; submitted ::= fun q => q ++ [t] }} in
    Some (if shouldScaleUp p then addWorker w p else p).

(** The thread [w] leaves its loop. *)
Definition worker_exit (w : nat) (p : DynamicThreadPool) : DynamicThreadPool :=
  p{{workers ::= delete w; current_threads_ ::= pred}}.

(** One pass through the critical section of [workerLoop]. [woken] is the value
    of [wait_for]: the predicate, or a timeout that found it false. *)
Definition worker_section (w : nat) (p : DynamicThreadPool) : DynamicThreadPool :=
  let woken := stop_ p || negb (is_empty (tasks_ p)) in
  if woken then
    if stop_ p && is_empty (tasks_ p) then worker_exit w p
    else
      match tasks_ p with
      | t :: q => p{{tasks_ := q; workers ::= <[w := Some t]>; started ::= fun l => l ++ [t] }}
      | [] => p
      end
  else if shouldScaleDown p then worker_exit w p
  else p.

Inductive pool_step : DynamicThreadPool → DynamicThreadPool → Prop :=
| step_enqueue t w p p' : workers p !! w = None → enqueue t w p = Some p' → pool_step p p'
| step_section w p : workers p !! w = Some None → pool_step p (worker_section w p)
| step_task_done w t p :
    workers p !! w = Some (Some t) →
    pool_step p (p{{workers ::= <[w := None]>; finished ::= fun l => l ++ [t] }})
| step_stop p : pool_step p (p{{stop_ := true}}).

Inductive reachable (min_threads max_threads up down : nat) : DynamicThreadPool → Prop :=
| reach_init : reachable min_threads max_threads up down (pool_init min_threads max_threads up down)
| reach_step p p' :
    reachable min_threads max_threads up down p → pool_step p p' →
    reachable min_threads max_threads up down p'.

(** The tasks being run. *)
Definition running (p : DynamicThreadPool) : list nat := omap snd (map_to_list (workers p)).

Record pool_inv (mn mx : nat) (p : DynamicThreadPool) : Prop := {
  pi_min : min_threads_ p = mn;
  pi_max : max_threads_ p = mx;
  pi_count : current_threads_ p = base.size (workers p);
  pi_low : stop_ p = false → mn ≤ current_threads_ p;
  pi_high : current_threads_ p ≤ mn `max` mx;
  pi_fifo : submitted p = started p ++ tasks_ p;
  pi_started : started p ≡ₚ finished p ++ running p;
  pi_drained : 0 < mn → current_threads_ p = 0 → tasks_ p = [];
}.

Ltac flat := cbn [min_threads_ max_threads_ scale_up_threshold_ scale_down_threshold_ tasks_ stop_ current_threads_ workers
  submitted started finished apply_update constant] in *.

Lemma omap_snd_insert (m : gmap nat (option nat)) w v :
  m !! w = None → omap snd (map_to_list (<[w := v]> m)) ≡ₚ option_list v ++ omap snd (map_to_list m).
Proof. intros E. rewrite map_to_list_insert by done. by destruct v. Qed.

Lemma omap_snd_delete (m : gmap nat (option nat)) w v :
  m !! w = Some v → omap snd (map_to_list m) ≡ₚ option_list v ++ omap snd (map_to_list (delete w m)).
Proof. intros E. rewrite <- (map_to_list_delete _ _ _ E). by destruct v. Qed.

Lemma omap_snd_set (m : gmap nat (option nat)) w v v' :
  m !! w = Some v →
  omap snd (map_to_list (<[w := v']> m)) ≡ₚ option_list v' ++ omap snd (map_to_list (delete w m)).
Proof.
  intros E. rewrite <- insert_delete_eq. apply omap_snd_insert. apply lookup_delete_eq.
Qed.

Lemma size_set (m : gmap nat (option nat)) w v v' :
  m !! w = Some v → base.size (<[w := v']> m) = base.size m.
Proof. intros E. by rewrite map_size_insert, E. Qed.

Lemma addWorker_inv mn mx w p :
  pool_inv mn mx p → workers p !! w = None → current_threads_ p < mn `max` mx →
  pool_inv mn mx (addWorker w p).
Proof.
  intros [] E Hlt. unfold addWorker. destruct p as [mn' mx' up dn ts st cur ws sub sta fin]; flat.
  split; unfold running in *; flat; try done; try lia.
  - rewrite map_size_insert_None by done. lia.
  - intros Hs. specialize (pi_low0 Hs). lia.
  - by rewrite omap_snd_insert.
Qed.

Lemma start_workers_spec k mn mx up dn :
  ∃ ws, start_workers k (mkPool mn mx up dn [] false 0 ∅ [] [] []) =
        mkPool mn mx up dn [] false k ws [] [] [] ∧
    base.size ws = k ∧ omap snd (map_to_list ws) = [] ∧ ∀ i, k ≤ i → ws !! i = None.
Proof.
  induction k as [|k (ws & E & Hs & Hr & Hf)]; simpl.
  { exists ∅. by split_and!. }
  rewrite E. unfold addWorker; flat. exists (<[k := None]> ws). split_and!; try done.
  - rewrite map_size_insert_None; [lia|]. by apply Hf.
  - apply Permutation_nil_r. by rewrite omap_snd_insert, Hr by (by apply Hf).
  - intros i Hi. rewrite lookup_insert_ne by lia. apply Hf. lia.
Qed.

Lemma pool_init_inv mn mx up dn : pool_inv mn mx (pool_init mn mx up dn).
Proof.
  unfold pool_init. destruct (start_workers_spec mn mn mx up dn) as (ws & -> & Hs & Hr & _).
  split; unfold running; flat; try done; try lia. by rewrite Hr.
Qed.

Lemma worker_exit_inv mn mx w p :
  pool_inv mn mx p → workers p !! w = Some None → tasks_ p = [] →
  (stop_ p = false → mn < current_threads_ p) → pool_inv mn mx (worker_exit w p).
Proof.
  intros [] E Ht Hlow. unfold worker_exit.
  destruct p as [mn' mx' up dn ts st cur ws sub sta fin]; flat.
  assert (cur ≠ 0). { rewrite pi_count0. intros H0%map_size_empty_inv. subst ws. by rewrite lookup_empty in E. }
  split; unfold running in *; flat; try done; try lia.
  - rewrite map_size_delete, E. simpl. lia.
  - intros Hs. specialize (Hlow Hs). lia.
  - by rewrite pi_started0, (omap_snd_delete ws w None).
Qed.

Lemma pool_inv_step mn mx p p' : pool_inv mn mx p → pool_step p p' → pool_inv mn mx p'.
Proof.
  intros Hp Hstep. destruct Hstep as [t w p p' E He|w p E|w t p E|p].
  - unfold enqueue in He. destruct (stop_ p) eqn:Hs; [done|]. simplify_eq.
    assert (Hq : pool_inv mn mx (p{{tasks_ ::= fun q => q ++ [t]; submitted ::= fun q => q ++ [t] }})).
    { destruct Hp. destruct p as [mn' mx' up dn ts st cur ws sub sta fin]; flat.
      split; unfold running in *; flat; try done.
      - by rewrite pi_fifo0, app_assoc.
      - intros H0 H1. specialize (pi_low0 Hs). lia. }
    destruct (shouldScaleUp _) eqn:Hup; [|done].
    apply addWorker_inv; [done|by destruct p|].
    unfold shouldScaleUp in Hup. apply andb_true_iff in Hup as [_ Hup%Nat.ltb_lt].
    destruct Hq. lia.
  - unfold worker_section. destruct (stop_ p || negb (is_empty (tasks_ p))) eqn:Hw.
    + destruct (stop_ p && is_empty (tasks_ p)) eqn:Hx.
      { apply andb_true_iff in Hx as [Hs Ht]. checks. apply worker_exit_inv; [done..|congruence]. }
      destruct (tasks_ p) as [|t q] eqn:Ht; [done|]. destruct Hp.
      destruct p as [mn' mx' up dn ts st cur ws sub sta fin]; flat; subst ts.
      split; unfold running in *; flat; try done.
      * by rewrite (size_set _ _ None).
      * by rewrite pi_fifo0, <- app_assoc.
      * rewrite (omap_snd_set _ _ None), pi_started0, (omap_snd_delete ws w None) by done. simpl.
        rewrite <- app_assoc. f_equiv. by rewrite Permutation_app_comm.
      * intros H0 H1. specialize (pi_drained0 H0 H1). done.
    + unfold shouldScaleDown. checks. destruct Hw as [Hs Ht]. rewrite Hs. checks.
      destruct (negb false && is_empty (tasks_ p) && (min_threads_ p <? current_threads_ p)) eqn:Hd; [|done].
      rewrite !andb_true_iff, Nat.ltb_lt in Hd. destruct Hd as [_ Hd].
      apply worker_exit_inv; [done..|]. intros _. by rewrite <- (pi_min _ _ _ Hp).
  - destruct Hp. destruct p as [mn' mx' up dn ts st cur ws sub sta fin]; flat.
    split; unfold running in *; flat; try done.
    + by rewrite (size_set _ _ (Some t)).
    + rewrite (omap_snd_set _ _ (Some t)), pi_started0, (omap_snd_delete ws w (Some t)) by done. simpl.
      by rewrite <- app_assoc.
  - destruct Hp. destruct p; flat. by split.
Qed.

Lemma pool_reachable_inv mn mx up dn p : reachable mn mx up dn p → pool_inv mn mx p.
Proof. induction 1; [apply pool_init_inv|by eapply pool_inv_step]. Qed.

(** In every interleaving, the pool keeps its threads between the minimum and
    the larger of the two bounds until it is stopped, hands the tasks out in
    the order they were accepted, runs each one at most once, and, once
    stopped with its threads gone, has run all of them. *)
Theorem thread_pool_sound mn mx up dn p :
  reachable mn mx up dn p →
  (stop_ p = false → mn ≤ current_threads_ p) ∧ current_threads_ p ≤ mn `max` mx ∧
  started p `prefix_of` submitted p ∧ started p ≡ₚ finished p ++ running p ∧
  (0 < mn → workers p = ∅ → finished p ≡ₚ submitted p).
Proof.
  intros [ ]%pool_reachable_inv.
  split_and!; [done..| |done|].
  - rewrite pi_fifo0. by apply prefix_app_r.
  - intros Hmn Hw. assert (tasks_ p = []) as Ht.
    { apply pi_drained0; [done|]. by rewrite pi_count0, Hw, map_size_empty. }
    rewrite pi_fifo0, Ht, app_nil_r, pi_started0. unfold running. rewrite Hw, map_to_list_empty. simpl.
    by rewrite app_nil_r.
Qed.

(** ** The destructor *)

(** What the threads still do once [stop_] is set, while the destructor waits to
    join each of them. *)
Inductive join_step : DynamicThreadPool → DynamicThreadPool → Prop :=
| join_section w p : stop_ p = true → workers p !! w = Some None → join_step p (worker_section w p)
| join_task_done w t p :
    stop_ p = true → workers p !! w = Some (Some t) →
    join_step p (p{{workers ::= <[w := None]>; finished ::= fun l => l ++ [t] }}).

Lemma join_step_pool p p' : join_step p p' → pool_step p p' ∧ stop_ p' = true ∧ submitted p' = submitted p.
Proof.
  intros [w q Hs E|w t q Hs E].
  - split; [by apply step_section|]. unfold worker_section. rewrite Hs. cbn. destruct (is_empty (tasks_ q)); [by destruct q|]. destruct (tasks_ q); by destruct q.
  - split; [by apply (step_task_done w t)|by destruct q].
Qed.

(** The work that is left: a task waits, is run, and its thread comes back. *)
Definition work_left (p : DynamicThreadPool) : nat := 2 * length (tasks_ p) + length (running p) + base.size (workers p).

Lemma join_step_work p p' : join_step p p' → work_left p' < work_left p.
Proof.
  unfold work_left, running. intros [w q Hs E|w t q Hs E].
  - unfold worker_section. rewrite Hs. cbn [orb]. destruct (tasks_ q) as [|t ts] eqn:Et; cbn [is_empty andb].
    + unfold worker_exit. destruct q as [mn' mx' up dn ts st cur ws sub sta fin]; flat. subst ts. rewrite (omap_snd_delete ws w None) by done.
      assert (base.size ws ≠ 0) by (intros H0%map_size_empty_inv; subst ws; by rewrite lookup_empty in E).
      rewrite map_size_delete, E. cbn. lia.
    + destruct q as [mn' mx' up dn ts' st cur ws sub sta fin]; flat. subst ts'. rewrite (omap_snd_set ws w None), (omap_snd_delete ws w None), (size_set ws w None) by done.
      cbn. lia.
  - destruct q as [mn' mx' up dn ts st cur ws sub sta fin]; flat.
    rewrite (omap_snd_set ws w (Some t)), (omap_snd_delete ws w (Some t)), (size_set ws w (Some t)) by done. cbn. lia.
Qed.

Lemma join_runs n p p' : nsteps join_step n p p' → rtc pool_step p p' ∧ submitted p' = submitted p ∧ n + work_left p' ≤ work_left p.
Proof.
  induction 1 as [p|n p p1 p' Hs _ (Hr & Es & Hw)]; [split_and!; [apply rtc_refl|done|lia]|].
  apply join_step_work in Hs as Hl. apply join_step_pool in Hs as (Hp & _ & E). split_and!; [by eapply rtc_l|congruence|lia].
Qed.

(** The destructor returns: once the pool is stopped, its threads make at most
    twice as many steps as there are tasks plus one per task running and per thread;
    as long as a thread is left one of them can step, given that tasks return; and
    when none is left, every task that was accepted has been run, and none twice. *)
Theorem pool_destructor_returns mn mx up dn p n p' :
  0 < mn → reachable mn mx up dn p → stop_ p = true → nsteps join_step n p p' →
  n ≤ work_left p ∧ (workers p' ≠ ∅ → ∃ p'', join_step p' p'') ∧
  (workers p' = ∅ → finished p' ≡ₚ submitted p).
Proof.
  intros Hmn Hr Hs Hn. destruct (join_runs _ _ _ Hn) as (Hrun & Es & Hw).
  assert (stop_ p' = true) as Hs'. { clear -Hs Hn. induction Hn; [done|]. apply IHHn. by apply join_step_pool in H as (_ & ? & _). }
  split_and!; [lia| |].
  - intros (w & [t|] & E)%map_choose; eexists; [by eapply join_task_done|by eapply join_section].
  - intros Ew. assert (pool_inv mn mx p') as [].
    { pose proof (pool_reachable_inv _ _ _ _ _ Hr) as Hp.
      clear -Hp Hrun. induction Hrun; [done|]. by eapply IHHrun, pool_inv_step. }
    rewrite <-Es, pi_fifo0, pi_drained0, app_nil_r, pi_started0 by (done || by rewrite pi_count0, Ew).
    unfold running. rewrite Ew, map_to_list_empty. cbn. by rewrite app_nil_r.
Qed.

(** One thread accepts, runs and finishes task 7, then leaves a stopped pool. *)
Lemma pool_sample_run : ∃ p, reachable 1 1 2 1 p ∧ workers p = ∅ ∧ submitted p = [7].
Proof.
  pose proof (reach_step 1 1 2 1 _ _ (reach_init 1 1 2 1)
    (step_enqueue 7 9 (pool_init 1 1 2 1) _ eq_refl eq_refl)) as H1.
  match type of H1 with reachable _ _ _ _ ?p => pose proof (reach_step _ _ _ _ _ _ H1 (step_section 0 p eq_refl)) as H2 end.
  match type of H2 with reachable _ _ _ _ ?p => pose proof (reach_step _ _ _ _ _ _ H2 (step_task_done 0 7 p eq_refl)) as H3 end.
  match type of H3 with reachable _ _ _ _ ?p => pose proof (reach_step _ _ _ _ _ _ H3 (step_stop p)) as H4 end.
  match type of H4 with reachable _ _ _ _ ?p => pose proof (reach_step _ _ _ _ _ _ H4 (step_section 0 p eq_refl)) as H5 end.
  eexists. split; [exact H5|]. split; by vm_compute.
Defined.

Lemma thread_pool_sound_witness : ∃ p, reachable 1 1 2 1 p ∧ finished p ≡ₚ [7].
Proof.
  destruct pool_sample_run as (p & Hr & Hw & Hs). exists p. split; [done|].
  destruct (thread_pool_sound 1 1 2 1 p Hr) as (_ & _ & _ & _ & H). rewrite <- Hs. apply H; [lia|done].
Defined.

(** The same run up to the stop, then the one thread leaves. *)
Lemma pool_destructor_returns_witness :
  ∃ p p', reachable 1 1 2 1 p ∧ nsteps join_step 3 p p' ∧ workers p' = ∅ ∧ finished p' ≡ₚ [7].
Proof.
  pose proof (reach_step 1 1 2 1 _ _ (reach_init 1 1 2 1) (step_enqueue 7 9 (pool_init 1 1 2 1) _ eq_refl eq_refl)) as H1.
  match type of H1 with reachable _ _ _ _ ?p => pose proof (reach_step _ _ _ _ _ _ H1 (step_stop p)) as H2 end.
  match type of H2 with reachable _ _ _ _ ?p =>
    assert (∃ p', nsteps join_step 3 p p' ∧ workers p' = ∅ ∧ submitted p = [7]) as (p' & Hn & Hw & Hs) end.
  { eexists. split; [|split; [|reflexivity]].
    - eapply nsteps_l; [by apply (join_section 0)|]. eapply nsteps_l; [by apply (join_task_done 0 7)|]. eapply nsteps_l; [by apply (join_section 0)|]. apply nsteps_O.
    - by vm_compute. }
  eexists _, p'. split_and!; [exact H2|exact Hn|exact Hw|]. rewrite <-Hs.
  exact (proj2 (proj2 (pool_destructor_returns 1 1 2 1 _ 3 p' ltac:(lia) H2 eq_refl Hn)) Hw).
Defined.
