(* ===== verification/LoggingUtils.v ===== *)
(** Redaction of secrets in the access log: [include/server/logging_utils.h]. *)

From S2P Require Import Prelude Search Config.

#[local] Open Scope gateway_scope.

(** [hex_value]; [None] is -1. *)
Definition hex_value (ch : ascii) : option N :=
  if in_range "0" "9" ch then Some (code ch - 48)%N
  else if in_range "a" "f" ch then Some (code ch - 87)%N
  else if in_range "A" "F" ch then Some (code ch - 55)%N
  else None.

(** The decoding loop of [decode_query_name]. *)
Fixpoint decode_loop (name : bytes) : bytes :=
  match name with
  | [] => []
  | c :: rest =>
    if c == "+"%char then " "%char :: decode_loop rest
    else
      match rest with
      | h :: l :: rest' =>
        match (if c == "%"%char then hex_value h else None), hex_value l with
        | Some high, Some low => ascii_of_N (N.lor (N.shiftl high 4) low) :: decode_loop rest'
        | _, _ => c :: decode_loop rest
        end
      | _ => c :: decode_loop rest
      end
  end.

Definition decode_query_name (name : bytes) : bytes := lowercase (decode_loop name).

Definition contains_name (names : list bytes) (name : bytes) : bool :=
  existsb (λ candidate, lowercase candidate == lowercase name) names.

Definition REDACTED : bytes := "[redacted]".

Definition redact_header_value (name value : bytes) (config : LoggingConfig) : bytes :=
  if lg_redact_sensitive_headers config && negb (is_empty value) &&
     contains_name (lg_sensitive_headers config) name
  then REDACTED else value.

Definition redact_api_key (key : bytes) : bytes := if is_empty key then "anonymous" else REDACTED.

(** One parameter of the query. *)
Definition redact_part (config : LoggingConfig) (part : bytes) : bytes :=
  match find_char "=" part with
  | Some equals =>
    if contains_name (lg_sensitive_query_params config) (decode_query_name (take equals part))
    then take (S equals) part ++ REDACTED
    else part
  | None => part
  end.

(** The loop over the parameters; [None] when the fuel runs out. *)
Fixpoint redact_loop (fuel : nat) (target : bytes) (config : LoggingConfig) (position : nat)
    (redacted : bytes) : option bytes :=
  match fuel with
  | O => None
  | S fuel' =>
    if bool_decide (length target ≤ position) then Some redacted
    else
      let separator := find_char_from "&" position target in
      let end_ := default (length target) separator in
      let part := substr position (end_ - position) target in
      let redacted := redacted ++ redact_part config part in
      match separator with
      | None => Some redacted
      | Some sep => redact_loop fuel' target config (S sep) (redacted ++ "&")
      end
  end.

(** [redact_request_target]; the loop advances past a separator every round. *)
Definition redact_request_target (target : bytes) (config : LoggingConfig) : option bytes :=
  if negb (lg_redact_sensitive_query_params config) then Some target
  else
    match find_char "?" target with
    | None => Some target
    | Some query_start =>
      redact_loop (S (length target)) target config (S query_start) (take (S query_start) target)
    end.

Definition redact_path_query (path query : bytes) (config : LoggingConfig) : option bytes :=
  redact_request_target (path ++ (if is_empty query then [] else "?" ++ query)) config.

(** * Reference: split, redact, join *)

Definition redact_query (config : LoggingConfig) (query : bytes) : bytes :=
  join "&" (redact_part config <$> split_on "&" query []).

Lemma redact_part_nil config : redact_part config [] = [].
Proof. done. Qed.

Lemma redact_loop_spec fuel target config position redacted :
  position ≤ length target → length target < position + fuel →
  redact_loop fuel target config position redacted =
  Some (redacted ++ redact_query config (drop position target)).
Proof.
  revert position redacted. induction fuel as [|fuel IH]; intros position redacted Hpos Hf; [lia|]. simpl.
  case_bool_decide as Hend.
  { rewrite drop_ge by done. unfold redact_query. simpl. by rewrite app_nil_r. }
  unfold redact_query. rewrite split_on_from.
  destruct (find_char_from "&" position target) as [i|] eqn:Ef.
  - unfold find_char_from in Ef.
    destruct (find_char "&" (drop position target)) as [j|] eqn:Ej; simpl in Ef; simplify_eq.
    apply find_char_split in Ej as (_ & _ & Hi). rewrite length_drop in Hi.
    rewrite IH by lia. f_equal. unfold redact_query.
    rewrite fmap_cons, join_cons by (intros ?%fmap_nil_inv; by eapply split_on_nonempty).
    by rewrite <- !app_assoc.
  - unfold substr. rewrite take_ge by (rewrite length_drop; simpl; lia). done.
Qed.

(** Redaction terminates and is, on the part after the first question mark,
    the replacement of the value of every parameter whose decoded name is
    sensitive; everything else is kept byte for byte. *)
Theorem redact_request_target_correct target config :
  redact_request_target target config = Some
    (if lg_redact_sensitive_query_params config then
       match find_char "?" target with
       | Some q => take (S q) target ++ redact_query config (drop (S q) target)
       | None => target
       end
     else target).
Proof.
  unfold redact_request_target. destruct (lg_redact_sensitive_query_params config); cbn [negb]; [|done].
  destruct (find_char "?" target) as [q|] eqn:E; [|done].
  apply find_char_split in E as (_ & _ & ?). by rewrite redact_loop_spec by lia.
Qed.

(** * Secrecy *)

Definition print_param (nv : bytes * bytes) : bytes := nv.1 ++ "=" ++ nv.2.

Definition is_secret (config : LoggingConfig) (name : bytes) : bool :=
  contains_name (lg_sensitive_query_params config) (decode_query_name name).

Definition wf_param (nv : bytes * bytes) : Prop :=
  ("="%char ∉ nv.1) ∧ ("&"%char ∉ nv.1) ∧ ("&"%char ∉ nv.2).

Lemma redact_print config nv :
  wf_param nv →
  redact_part config (print_param nv) =
  nv.1 ++ "=" ++ (if is_secret config nv.1 then REDACTED else nv.2).
Proof.
  intros (Heq & _ & _). unfold redact_part, print_param. change (lit "=") with ["="%char].
  simpl app. rewrite find_char_app, take_app_length by done. fold (is_secret config nv.1).
  destruct (is_secret config nv.1); [|done].
  rewrite (cons_middle "="%char), app_assoc, take_app_length' by (rewrite length_app; simpl; lia).
  by rewrite <- app_assoc.
Qed.

(** Two requests that differ only in the values of sensitive parameters. *)
Definition differ_in_secrets (config : LoggingConfig) : list (bytes * bytes) → list (bytes * bytes) → Prop :=
  Forall2 (λ nv nv', nv.1 = nv'.1 ∧ (is_secret config nv.1 = false → nv.2 = nv'.2)).

(** With redaction on, the logged target does not depend on the secrets: two
    requests for the same path whose queries differ only in the values of
    sensitive parameters, however their names are encoded, are logged alike. *)
Theorem redaction_hides_secrets config path params params' :
  lg_redact_sensitive_query_params config = true → "?"%char ∉ path → params ≠ [] →
  Forall wf_param params → Forall wf_param params' → differ_in_secrets config params params' →
  redact_request_target (path ++ "?" ++ join "&" (print_param <$> params)) config =
  redact_request_target (path ++ "?" ++ join "&" (print_param <$> params')) config.
Proof.
  intros Hon Hpath Hne Hwf Hwf' Hd.
  assert (Hred : ∀ ps, ps ≠ [] → Forall wf_param ps →
    redact_request_target (path ++ "?" ++ join "&" (print_param <$> ps)) config =
    Some (path ++ "?" ++ join "&" ((λ nv, nv.1 ++ "=" ++ (if is_secret config nv.1 then REDACTED else nv.2)) <$> ps))).
  { intros ps Hps Hw. unfold redact_request_target. rewrite Hon. cbn [negb].
    change (lit "?") with ["?"%char]. simpl app.
    rewrite find_char_app, redact_loop_spec by (done || rewrite length_app; simpl; lia).
    rewrite (cons_middle "?"%char), app_assoc, take_app_length' by (rewrite length_app; simpl; lia).
    rewrite drop_app_length' by (rewrite length_app; simpl; lia). rewrite <- app_assoc.
    unfold redact_query. rewrite split_on_join, <- list_fmap_compose.
    - do 3 f_equal. simpl. f_equal. apply list_fmap_ext. intros i nv Hnv.
      apply redact_print. by eapply Forall_lookup_1.
    - by destruct ps.
    - apply Forall_fmap. eapply Forall_impl; [done|]. intros nv (? & ? & ?). unfold print_param. simpl. set_solver. }
  rewrite !Hred by (done || (intros ->; inversion Hd; by subst)).
  do 4 f_equal. clear -Hd. induction Hd as [|nv nv' ps ps' [Hn Hv] _ IH]; [done|]. rewrite !fmap_cons, IH.
  f_equal. rewrite Hn in *. destruct (is_secret config nv'.1); [done|]. by rewrite Hv.
Qed.

Lemma redaction_hides_secrets_witness :
  redact_request_target "/login?to%6ben=abc&x=1" default_LoggingConfig =
  redact_request_target "/login?to%6ben=xyz&x=1" default_LoggingConfig.
Proof.
  apply (redaction_hides_secrets default_LoggingConfig "/login"
    [(lit "to%6ben", lit "abc"); (lit "x", lit "1")] [(lit "to%6ben", lit "xyz"); (lit "x", lit "1")]).
  - done.
  - evaluate.
  - done.
  - repeat apply Forall_cons_2; [unfold wf_param; evaluate..|done].
  - repeat apply Forall_cons_2; [unfold wf_param; evaluate..|done].
  - repeat apply Forall2_cons_2; [by split; [|vm_compute]..|done].
Defined.
