(* ===== verification/HttpParser.v ===== *)
(** The HTTP/1.1 request parser: [include/common/http_parser.h] and
    [src/common/http_parser.cpp]. *)

From S2P Require Import Prelude.

#[local] Open Scope Z_scope.
#[local] Open Scope gateway_scope.

(** [struct HttpRequest]; the header table is an [unordered_map]. *)
Record HttpRequest := mkRequest {
  method : bytes;
  path : bytes;
  version : bytes;
  query : bytes;
  trace_id : bytes;
  host : bytes;
  tenant : bytes;
  headers : gmap bytes bytes;
  body : bytes;
}.

(** [HttpRequest::clear], also the value-initialised request. *)
Definition request_clear : HttpRequest :=
  mkRequest [] [] [] [] [] [] [] ∅ [].

Inductive State := METHOD | PATH | VERSION | QUERY | HEADER | CHUNKED_BODY | BODY | DONE.

Inductive ChunkState := SIZE | DATA | TRAILER | CHUNK_DONE.

Inductive ParseError :=
| NONE
| BODY_TOO_LARGE
| DUPLICATE_CONTENT_LENGTH
| CL_TE_CONFLICT
| INVALID_TRANSFER_ENCODING
| INVALID_CONTENT_LENGTH
| INVALID_HEADER
| INVALID_CHUNK_SIZE
| REQUEST_LINE_TOO_LONG
| HEADER_TOO_LONG
| HEADERS_TOO_LARGE.

#[global] Instance State_eq_dec : EqDecision State.
Proof. solve_decision. Defined.
#[global] Instance ChunkState_eq_dec : EqDecision ChunkState.
Proof. solve_decision. Defined.
#[global] Instance ParseError_eq_dec : EqDecision ParseError.
Proof. solve_decision. Defined.

Definition MAX_BODY_SIZE : Z := 1024 * 1024.
Definition MAX_REQUEST_LINE_SIZE : Z := 8 * 1024.
Definition MAX_HEADER_LINE_SIZE : Z := 8 * 1024.
Definition MAX_HEADERS_SIZE : Z := 64 * 1024.

(** The private state of [class HttpParser]. *)
Record HttpParser := mkParser {
  state_ : State;
  buffer_ : bytes;
  content_length_ : Z;
  body_read_ : Z;
  headers_read_ : Z;
  parse_error_ : ParseError;
  chunk_size_hex_buffer_ : bytes;
  chunk_data_remaining_ : Z;
  chunk_state_ : ChunkState;
  cr_seen_ : bool;
}.

(** [HttpParser::HttpParser] *)
Definition parser_init : HttpParser := mkParser METHOD [] 0 0 0 NONE [] 0 SIZE false.

(** [HttpParser::reset]: every member is assigned. *)
Definition reset (p : HttpParser) : HttpParser :=
  p{{ state_ := METHOD; buffer_ := []; parse_error_ := NONE; content_length_ := 0;
      body_read_ := 0; headers_read_ := 0; chunk_size_hex_buffer_ := [];
      chunk_data_remaining_ := 0; chunk_state_ := SIZE; cr_seen_ := false }}.

(** ** Character classes *)
Definition is_tchar (c : ascii) : bool :=
  is_digit c || is_lower c || is_upper c ||
  bool_decide (c ∈ ("!#$%&'*+-.^_`|~" : bytes)).

Definition is_valid_field_value_char (c : ascii) : bool :=
  if c == HT then true else (0x20 <=? code c)%N && negb (code c =? 0x7F)%N.

Definition is_valid_request_line_char (c : ascii) : bool :=
  (0x20 <? code c)%N && negb (code c =? 0x7F)%N.

(** ** One iteration of the loop of [parse] *)

(** Outcome of one [case]: leave the [switch], or [return b]. *)
Inductive flow := Break | Return (b : bool).

Definition outcome : Type := HttpParser * HttpRequest * flow.

(** [fail(e); return false;] *)
Definition fail (e : ParseError) (p : HttpParser) (r : HttpRequest) : outcome :=
  (p{{parse_error_ := e}}, r, Return false).

(** [buffer_ += c; if (buffer_.size() > limit) { fail(e); return false; }] *)
Definition push_buffer (c : ascii) (limit : Z) (e : ParseError)
    (p : HttpParser) (r : HttpRequest) : outcome :=
  let p := p{{buffer_ ::= fun b => b ++ [c] }} in
  if limit <? size (buffer_ p) then fail e p r else (p, r, Break).

Definition step_METHOD (c : ascii) (p : HttpParser) (r : HttpRequest) : outcome :=
  if c == " "%char then
    (p{{buffer_ := []; state_ := PATH}},
     r{{method := buffer_ p}}, Break)
  else if negb (is_valid_request_line_char c) then fail INVALID_HEADER p r
  else push_buffer c MAX_REQUEST_LINE_SIZE REQUEST_LINE_TOO_LONG p r.

Definition step_PATH (c : ascii) (p : HttpParser) (r : HttpRequest) : outcome :=
  if c == " "%char then
    (p{{buffer_ := []; state_ := VERSION}}, r{{path := buffer_ p}}, Break)
  else if c == "?"%char then
    (p{{buffer_ := []; state_ := QUERY}}, r{{path := buffer_ p}}, Break)
  else if negb (is_valid_request_line_char c) then fail INVALID_HEADER p r
  else push_buffer c MAX_REQUEST_LINE_SIZE REQUEST_LINE_TOO_LONG p r.

Definition step_VERSION (c : ascii) (p : HttpParser) (r : HttpRequest) : outcome :=
  if c == CR then (p{{cr_seen_ := true}}, r, Break)
  else if c == LF then
    if negb (cr_seen_ p) then fail INVALID_HEADER p r
    else (p{{cr_seen_ := false; buffer_ := []; state_ := HEADER}},
          r{{version := buffer_ p}}, Break)
  else if negb (is_valid_request_line_char c) then fail INVALID_HEADER p r
  else push_buffer c MAX_REQUEST_LINE_SIZE REQUEST_LINE_TOO_LONG (p{{cr_seen_ := false}}) r.

Definition step_QUERY (c : ascii) (p : HttpParser) (r : HttpRequest) : outcome :=
  if c == " "%char then
    (p{{buffer_ := []; state_ := VERSION}}, r{{query := buffer_ p}}, Break)
  else if negb (is_valid_request_line_char c) then fail INVALID_HEADER p r
  else push_buffer c MAX_REQUEST_LINE_SIZE REQUEST_LINE_TOO_LONG p r.

(** The digit loop over a [Content-Length] value: [None] when a character is
    not a digit, else the value, clamped to [MAX_BODY_SIZE + 1] as soon as it
    has passed the cap with characters left to read. *)
Fixpoint content_length_loop (cl : bytes) (cl_value : Z) : option Z :=
  match cl with
  | [] => Some cl_value
  | ch :: cl' =>
    if negb (is_digit ch) then None
    else if MAX_BODY_SIZE <? cl_value then Some (MAX_BODY_SIZE + 1)
    else content_length_loop cl' (cl_value * 10 + (Z.of_N (code ch) - 48))
  end.

Definition parse_content_length (cl : bytes) : option Z :=
  match cl with [] => None | _ => content_length_loop cl 0 end.

(** The empty line: the header table decides how the body is framed. *)
Definition end_of_headers (p : HttpParser) (r : HttpRequest) : outcome :=
  match headers r !! ("transfer-encoding" : bytes) with
  | Some te =>
    if lowercase te != "chunked" then fail INVALID_TRANSFER_ENCODING p r
    else (p{{chunk_size_hex_buffer_ := []; chunk_data_remaining_ := 0;
             chunk_state_ := SIZE; state_ := CHUNKED_BODY}}, r, Break)
  | None =>
    match headers r !! ("content-length" : bytes) with
    | Some cl =>
      match parse_content_length cl with
      | None => fail INVALID_CONTENT_LENGTH p r
      | Some cl_value =>
        let p := p{{content_length_ := cl_value}} in
        if MAX_BODY_SIZE <? content_length_ p then fail BODY_TOO_LARGE p r
        else if 0 <? content_length_ p then
          (p{{body_read_ := 0; state_ := BODY}}, r, Break)
        else (p{{state_ := DONE}}, r, Return true)
      end
    | None => (p{{state_ := DONE}}, r, Return true)
    end
  end.

(** A complete, non-empty header line held in [buffer_]. *)
Definition header_line (p : HttpParser) (r : HttpRequest) : outcome :=
  match find_char ":" (buffer_ p) with
  | None => fail INVALID_HEADER p r
  | Some colon =>
    let key := lowercase (take colon (buffer_ p)) in
    let value := trim (drop (S colon) (buffer_ p)) in
    if key == [] then fail INVALID_HEADER p r
    else if negb (forallb is_tchar key) then fail INVALID_HEADER p r
    else if negb (forallb is_valid_field_value_char value) then fail INVALID_HEADER p r
    else
      let has_cl := bool_decide (is_Some (headers r !! ("content-length" : bytes))) in
      let has_te := bool_decide (is_Some (headers r !! ("transfer-encoding" : bytes))) in
      let accept := (p{{buffer_ := [] }}, r{{headers ::= <[key := value]> }}, Break) in
      if key == "content-length" then
        if has_cl then fail DUPLICATE_CONTENT_LENGTH p r
        else if has_te then fail CL_TE_CONFLICT p r
        else accept
      else if key == "transfer-encoding" then
        if has_cl then fail CL_TE_CONFLICT p r
        else if has_te then fail INVALID_TRANSFER_ENCODING p r
        else accept
      else accept
  end.

Definition step_HEADER (c : ascii) (p : HttpParser) (r : HttpRequest) : outcome :=
  let p := p{{headers_read_ ::= Z.add 1}} in
  if MAX_HEADERS_SIZE <? headers_read_ p then fail HEADERS_TOO_LARGE p r
  else if c == CR then (p{{cr_seen_ := true}}, r, Break)
  else if c == LF then
    if negb (cr_seen_ p) then fail INVALID_HEADER p r
    else
      let p := p{{cr_seen_ := false}} in
      if buffer_ p == [] then end_of_headers p r else header_line p r
  else push_buffer c MAX_HEADER_LINE_SIZE HEADER_TOO_LONG (p{{cr_seen_ := false}}) r.

(** A hexadecimal digit. *)
Definition hex_digit (ch : ascii) : option Z :=
  if is_digit ch then Some (Z.of_N (code ch) - 48)
  else if in_range "a" "f" ch then Some (Z.of_N (code ch) - 87)
  else if in_range "A" "F" ch then Some (Z.of_N (code ch) - 55)
  else None.

(** The hex loop: it stops early once the size has passed the body cap. *)
Fixpoint hex_loop (hex : bytes) (sz : Z) : option Z :=
  match hex with
  | [] => Some sz
  | ch :: hex' =>
    match hex_digit ch with
    | None => None
    | Some d =>
      let sz := wrap64 (sz * 16 + d) in
      if MAX_BODY_SIZE <? sz then Some sz else hex_loop hex' sz
    end
  end.

(** The chunk size of a size line, its extension after [';'] erased. *)
Definition parse_chunk_size (line : bytes) : option Z :=
  let hex := match find_char ";" line with Some semi => take semi line | None => line end in
  match hex with [] => None | _ => hex_loop hex 0 end.

Definition chunk_SIZE (c : ascii) (p : HttpParser) (r : HttpRequest) : outcome :=
  if c == CR then (p, r, Break)
  else if c == LF then
    if chunk_size_hex_buffer_ p == [] then (p, r, Break)
    else
      match parse_chunk_size (chunk_size_hex_buffer_ p) with
      | None => fail INVALID_CHUNK_SIZE p r
      | Some sz =>
        let p := p{{chunk_size_hex_buffer_ := [] }} in
        if sz =? 0 then (p{{chunk_state_ := TRAILER; buffer_ := [] }}, r, Break)
        else (p{{chunk_data_remaining_ := sz; chunk_state_ := DATA}}, r, Break)
      end
  else
    let p := p{{chunk_size_hex_buffer_ ::= fun b => b ++ [c] }} in
    if 16 <? size (chunk_size_hex_buffer_ p) then fail INVALID_CHUNK_SIZE p r
    else (p, r, Break).

Definition chunk_DATA (c : ascii) (p : HttpParser) (r : HttpRequest) : outcome :=
  let r := r{{body ::= fun b => b ++ [c] }} in
  let p := p{{chunk_data_remaining_ ::= fun n => wrap64 (n - 1)}} in
  if MAX_BODY_SIZE <? size (body r) then fail BODY_TOO_LARGE p r
  else if chunk_data_remaining_ p =? 0 then (p{{chunk_state_ := SIZE}}, r, Break)
  else (p, r, Break).

Definition chunk_TRAILER (c : ascii) (p : HttpParser) (r : HttpRequest) : outcome :=
  if c == CR then (p, r, Break)
  else if c == LF then
    if buffer_ p == [] then (p{{state_ := DONE}}, r, Return true)
    else (p{{buffer_ := [] }}, r, Break)
  else push_buffer c MAX_HEADER_LINE_SIZE HEADER_TOO_LONG p r.

Definition step_CHUNKED_BODY (c : ascii) (p : HttpParser) (r : HttpRequest) : outcome :=
  match chunk_state_ p with
  | SIZE => chunk_SIZE c p r
  | DATA => chunk_DATA c p r
  | TRAILER => chunk_TRAILER c p r
  | CHUNK_DONE => (p, r, Break)
  end.

Definition step_BODY (c : ascii) (p : HttpParser) (r : HttpRequest) : outcome :=
  if MAX_BODY_SIZE <=? body_read_ p then fail BODY_TOO_LARGE p r
  else
    let r := r{{body ::= fun b => b ++ [c] }} in
    let p := p{{body_read_ ::= Z.add 1}} in
    if content_length_ p <=? body_read_ p then (p{{state_ := DONE}}, r, Return true)
    else (p, r, Break).

Definition parse_byte (c : ascii) (p : HttpParser) (r : HttpRequest) : outcome :=
  match state_ p with
  | METHOD => step_METHOD c p r
  | PATH => step_PATH c p r
  | VERSION => step_VERSION c p r
  | QUERY => step_QUERY c p r
  | HEADER => step_HEADER c p r
  | CHUNKED_BODY => step_CHUNKED_BODY c p r
  | BODY => step_BODY c p r
  | DONE => (p, r, Break)
  end.

(** [HttpParser::parse]: the new parser and request, [consumed] and the result. *)
Record parse_result := mkResult {
  res_parser : HttpParser;
  res_request : HttpRequest;
  res_consumed : nat;
  res_done : bool;
}.

Fixpoint parse_loop (data : bytes) (p : HttpParser) (r : HttpRequest) (consumed : nat)
    : parse_result :=
  match data with
  | [] => mkResult p r consumed false
  | c :: data' =>
    let consumed := S consumed in
    match parse_byte c p r with
    | (p, r, Return b) => mkResult p r consumed b
    | (p, r, Break) =>
      if state_ p == DONE then mkResult p r consumed false
      else parse_loop data' p r consumed
    end
  end.

Definition parse (data : bytes) (p : HttpParser) (r : HttpRequest) : parse_result :=
  parse_loop data p r 0.

(** * Control flow of the loop *)

Create HintDb parser_steps.
#[export] Hint Unfold parse_byte step_METHOD step_PATH step_VERSION step_QUERY step_HEADER
  end_of_headers header_line step_CHUNKED_BODY chunk_SIZE chunk_DATA chunk_TRAILER
  step_BODY push_buffer fail : parser_steps.

(** Symbolic execution of one [parse_byte]. *)
Ltac parse_cases H :=
  autounfold with parser_steps in H; simpl in H;
  repeat (case_match; simplify_eq/=; try done).

Lemma parse_byte_Break c p r p' r' :
  state_ p ≠ DONE → parse_byte c p r = (p', r', Break) →
  state_ p' ≠ DONE ∧ parse_error_ p' = parse_error_ p.
Proof. intros Hst H. destruct p, r. simpl in *. parse_cases H. Qed.

Lemma parse_byte_Return_true c p r p' r' :
  parse_byte c p r = (p', r', Return true) →
  state_ p' = DONE ∧ parse_error_ p' = parse_error_ p.
Proof. intros H. destruct p, r. parse_cases H. Qed.

Lemma parse_byte_Return_false c p r p' r' :
  parse_byte c p r = (p', r', Return false) → parse_error_ p' ≠ NONE.
Proof. intros H. destruct p, r. parse_cases H. Qed.

(** A parser that can still be fed. *)
Definition receptive (p : HttpParser) : Prop := state_ p ≠ DONE ∧ parse_error_ p = NONE.

Definition finished (x : parse_result) : bool :=
  res_done x || (parse_error_ (res_parser x) != NONE).

Lemma parse_loop_app a b p r n :
  receptive p →
  let x := parse_loop a p r n in
  parse_loop (a ++ b) p r n =
    if finished x then x
    else parse_loop b (res_parser x) (res_request x) (res_consumed x).
Proof.
  revert p r n. induction a as [|c a IH]; intros p r n [Hst Herr]; simpl.
  { unfold finished. simpl. by rewrite Herr. }
  destruct (parse_byte c p r) as [[p' r'] [|[]]] eqn:E.
  - apply parse_byte_Break in E as [? Herr']; [|done].
    rewrite bool_decide_eq_false_2 by done. apply IH. split; congruence.
  - done.
  - apply parse_byte_Return_false in E. unfold finished; simpl.
    by rewrite bool_decide_eq_false_2.
Qed.

Lemma parse_loop_receptive data p r n :
  receptive p → finished (parse_loop data p r n) = false →
  receptive (res_parser (parse_loop data p r n)).
Proof.
  revert p r n. induction data as [|c data IH]; intros p r n [Hst Herr]; simpl; [done|].
  destruct (parse_byte c p r) as [[p' r'] [|[]]] eqn:E; unfold finished; simpl; try done.
  - apply parse_byte_Break in E as [? ?]; [|done].
    rewrite bool_decide_eq_false_2 by done. apply IH. split; congruence.
  - apply parse_byte_Return_false in E. by rewrite bool_decide_eq_false_2.
Qed.

Lemma parse_loop_consumed data p r n :
  parse_loop data p r n =
    let x := parse_loop data p r 0 in
    mkResult (res_parser x) (res_request x) (n + res_consumed x) (res_done x).
Proof.
  revert p r n. induction data as [|c data IH]; intros p r n; simpl.
  { f_equal. lia. }
  destruct (parse_byte c p r) as [[p' r'] []]; [|f_equal/=; lia].
  case_match; [f_equal/=; lia|].
  rewrite IH, (IH _ _ 1%nat). simpl. f_equal. lia.
Qed.

(** How the connection feeds the parser: one [parse] per buffer received, until
    a request is complete or refused. *)
Fixpoint feed (frags : list bytes) (p : HttpParser) (r : HttpRequest) : parse_result :=
  match frags with
  | [] => mkResult p r 0 false
  | f :: frags' =>
    let x := parse f p r in
    if finished x then x
    else
      let y := feed frags' (res_parser x) (res_request x) in
      mkResult (res_parser y) (res_request y) (res_consumed x + res_consumed y) (res_done y)
  end.

(** C18: Reading a request in fragments gives the same parser, request, consumed
    count and verdict as reading the bytes at once. *)
Theorem parse_fragmentation (frags : list bytes) (p : HttpParser) (r : HttpRequest) :
  receptive p → feed frags p r = parse (concat frags) p r.
Proof.
  unfold parse. revert p r.
  induction frags as [|f frags IH]; intros p r Hp; simpl; [done|]. unfold parse.
  rewrite parse_loop_app by done. destruct (finished _) eqn:E; [done|].
  rewrite IH by (by apply parse_loop_receptive).
  by rewrite (parse_loop_consumed _ _ _ (res_consumed _)).
Qed.

(** * Invariants *)

Definition te (r : HttpRequest) : option bytes := headers r !! ("transfer-encoding" : bytes).
Definition cl (r : HttpRequest) : option bytes := headers r !! ("content-length" : bytes).

(** What a table of accepted header lines looks like. *)
Definition header_ok (k v : bytes) : Prop :=
  k ≠ [] ∧ lowercase k = k ∧ Forall (λ c, is_tchar c = true) k ∧
  Forall (λ c, is_valid_field_value_char c = true) v ∧ trim v = v.

(** The body is framed by exactly one rule. *)
Definition framed (r : HttpRequest) : Prop :=
  match te r, cl r with
  | None, None => body r = []
  | None, Some v => Forall (λ c, is_digit c = true) v ∧ v ≠ [] ∧
                    decimal v = size (body r) ∧ size (body r) <= MAX_BODY_SIZE
  | Some v, None => lowercase v = "chunked" ∧ size (body r) <= MAX_BODY_SIZE
  | Some _, Some _ => False
  end.

Definition one_framing_header (r : HttpRequest) : Prop := te r = None ∨ cl r = None.

Definition body_inv (p : HttpParser) (r : HttpRequest) : Prop :=
  match state_ p with
  | METHOD | PATH | VERSION | QUERY | HEADER => body r = []
  | BODY =>
    te r = None ∧
    (∃ v, cl r = Some v ∧ parse_content_length v = Some (content_length_ p)) ∧
    body_read_ p = size (body r) ∧ size (body r) < content_length_ p <= MAX_BODY_SIZE
  | CHUNKED_BODY =>
    (∃ v, te r = Some v ∧ lowercase v = "chunked") ∧ cl r = None ∧
    size (body r) <= MAX_BODY_SIZE
  | DONE => framed r
  end.

Record limits (p : HttpParser) (r : HttpRequest) : Prop := {
  lim_buffer : size (buffer_ p) <= MAX_REQUEST_LINE_SIZE;
  lim_headers : headers_read_ p <= MAX_HEADERS_SIZE;
  lim_chunk_size : size (chunk_size_hex_buffer_ p) <= 16;
  lim_method : size (method r) <= MAX_REQUEST_LINE_SIZE;
  lim_path : size (path r) <= MAX_REQUEST_LINE_SIZE;
  lim_query : size (query r) <= MAX_REQUEST_LINE_SIZE;
  lim_version : size (version r) <= MAX_REQUEST_LINE_SIZE;
  lim_body : size (body r) <= MAX_BODY_SIZE;
}.

Lemma content_length_loop_spec v acc n :
  0 <= acc -> content_length_loop v acc = Some n → n <= MAX_BODY_SIZE →
  Forall (λ c, is_digit c = true) v ∧
  n = foldl (λ a c, a * 10 + digit_value c) acc v.
Proof.
  revert acc. induction v as [|c v IH]; intros acc Hacc; simpl.
  { intros [= ->]. done. }
  destruct (is_digit c) eqn:Hc; simpl; [|done].
  destruct (_ <? _) eqn:E; [intros [= <-]; lia|].
  intros H Hn. pose proof (is_digit_value _ Hc).
  apply IH in H as [? ->]; [|unfold digit_value in *; lia|done]. by split; [constructor|].
Qed.

Lemma parse_content_length_spec v n :
  parse_content_length v = Some n → n <= MAX_BODY_SIZE →
  Forall (λ c, is_digit c = true) v ∧ v ≠ [] ∧ decimal v = n.
Proof.
  intros H Hn. destruct v as [|c v]; [done|]. unfold parse_content_length in H.
  apply content_length_loop_spec in H as [? ->]; done.
Qed.

Lemma content_length_loop_complete v acc :
  0 <= acc → Forall (λ c, is_digit c = true) v →
  foldl (λ a c, a * 10 + digit_value c) acc v <= MAX_BODY_SIZE →
  content_length_loop v acc = Some (foldl (λ a c, a * 10 + digit_value c) acc v).
Proof.
  intros Hacc Hv. revert acc Hacc. induction Hv as [|c v Hc Hv IH]; intros acc Hacc; simpl; [done|].
  intros Hle. apply is_digit_value in Hc as Hd.
  assert (acc * 10 + digit_value c <= MAX_BODY_SIZE).
  { etrans; [|exact Hle]. apply decimal_nonneg_go; [lia|done]. }
  rewrite Hc, (proj2 (Z.ltb_ge _ _)) by lia. simpl. apply IH; [lia|done].
Qed.

(** A printed length is read back. *)
Lemma parse_content_length_to_string n :
  0 <= n <= MAX_BODY_SIZE → parse_content_length (to_string n) = Some n.
Proof.
  intros Hn. pose proof (to_string_cons n). pose proof (to_string_digits n).
  pose proof (decimal_to_string n ltac:(lia)) as Hd. unfold decimal in Hd.
  unfold parse_content_length. destruct (to_string n) as [|c s]; [naive_solver lia|].
  rewrite content_length_loop_complete; [by rewrite Hd|done|auto with lia|rewrite Hd; lia].
Qed.

Ltac size_lia :=
  unfold MAX_REQUEST_LINE_SIZE, MAX_HEADER_LINE_SIZE, MAX_HEADERS_SIZE, MAX_BODY_SIZE in *;
  autorewrite with size in *; lia.

Lemma limits_step c p r p' r' fl :
  limits p r → body_inv p r → parse_byte c p r = (p', r', fl) → fl ≠ Return false →
  limits p' r'.
Proof.
  intros [] Hb H Hfl. destruct p, r. unfold body_inv in Hb. simpl in *.
  parse_cases H; bool_props; destruct_and?; split; simpl; size_lia.
Qed.

Lemma body_inv_step c p r p' r' fl :
  one_framing_header r → body_inv p r → parse_byte c p r = (p', r', fl) → fl ≠ Return false →
  body_inv p' r'.
Proof.
  intros Hone Hb H Hfl. destruct p, r. unfold one_framing_header, body_inv, framed, te, cl in *. simpl in *.
  parse_cases H; bool_props; open_hyps; simplify_eq/=; try done.
  all: try match goal with H : parse_content_length _ = Some ?n |- _ =>
    apply parse_content_length_spec in H as Hcl; [|lia]; destruct_and? end.
  all: autorewrite with size in *.
  all: unfold MAX_BODY_SIZE in *.
  all: try match goal with H : Forall _ ?l |- _ => pose proof (decimal_nonneg l H) end.
  all: split_and?; simplify_eq; eauto; try lia.
  by destruct Hone; simplify_eq.
Qed.


(** The only change a byte makes to the header table. *)
Lemma parse_byte_headers c p r p' r' fl :
  parse_byte c p r = (p', r', fl) →
  headers r' = headers r ∨
  ∃ k v, headers r' = <[k := v]> (headers r) ∧ header_ok k v ∧
         (k = "content-length" ∨ k = "transfer-encoding" → cl r = None ∧ te r = None).
Proof.
  intros H. destruct p, r. unfold te, cl. simpl in *.
  parse_cases H; try (by left); right; bool_props; simplify_eq.
  all: eexists _, _; split; [done|]; unfold header_ok; rewrite !eq_None_not_Some.
  all: rewrite <- !forallb_Forall, lowercase_idemp, trim_idemp; naive_solver.
Qed.

Lemma one_framing_header_step c p r p' r' fl :
  one_framing_header r → parse_byte c p r = (p', r', fl) → one_framing_header r'.
Proof.
  unfold one_framing_header, te, cl.
  intros Hone [->|(k & v & -> & _ & Hk)]%parse_byte_headers; [done|].
  rewrite !lookup_insert. unfold te, cl in Hk.
  do 2 case_decide; naive_solver.
Qed.

Lemma headers_ok_step c p r p' r' fl :
  map_Forall header_ok (headers r) → parse_byte c p r = (p', r', fl) →
  map_Forall header_ok (headers r').
Proof.
  intros Hok [->|(k & v & -> & Hkv & _)]%parse_byte_headers; [done|].
  by apply map_Forall_insert_2.
Qed.

(** The invariant of a request being read. *)
Record parser_inv (p : HttpParser) (r : HttpRequest) : Prop := {
  inv_limits : limits p r;
  inv_body : body_inv p r;
  inv_one : one_framing_header r;
  inv_headers : map_Forall header_ok (headers r);
}.

Lemma parser_inv_init : parser_inv parser_init request_clear.
Proof. split; [by split|done|by left|apply map_Forall_empty]. Qed.

Lemma parser_inv_step c p r p' r' fl :
  parser_inv p r → parse_byte c p r = (p', r', fl) → fl ≠ Return false → parser_inv p' r'.
Proof.
  intros [] H Hfl. split; eauto using limits_step, body_inv_step, one_framing_header_step, headers_ok_step.
Qed.

Lemma parse_loop_inv data p r n :
  receptive p → parser_inv p r →
  let x := parse_loop data p r n in
  parse_error_ (res_parser x) = NONE →
  parser_inv (res_parser x) (res_request x) ∧ (res_done x = true → state_ (res_parser x) = DONE).
Proof.
  revert p r n. induction data as [|c data IH]; intros p r n Hp Hinv; simpl; [done|].
  destruct (parse_byte c p r) as [[p' r'] [|[]]] eqn:E; simpl.
  - pose proof E as [??]%parse_byte_Break; [|apply Hp].
    rewrite bool_decide_eq_false_2 by done. apply IH.
    + split; [done|]. destruct Hp. congruence.
    + by eapply parser_inv_step.
  - intros _. split; [by eapply parser_inv_step|]. by apply parse_byte_Return_true in E as [? _].
  - by apply parse_byte_Return_false in E.
Qed.

Lemma parse_inv data :
  let x := parse data parser_init request_clear in
  parse_error_ (res_parser x) = NONE →
  parser_inv (res_parser x) (res_request x) ∧ (res_done x = true → state_ (res_parser x) = DONE).
Proof. apply parse_loop_inv; [done|apply parser_inv_init]. Qed.


Lemma parse_loop_done data p r n :
  receptive p → res_done (parse_loop data p r n) = true →
  parse_error_ (res_parser (parse_loop data p r n)) = NONE.
Proof.
  revert p r n. induction data as [|c data IH]; intros p r n Hp; simpl; [done|].
  destruct (parse_byte c p r) as [[p' r'] [|[]]] eqn:E; simpl; [| |done].
  - pose proof E as [??]%parse_byte_Break; [|apply Hp].
    rewrite bool_decide_eq_false_2 by done. apply IH. split; [done|]. destruct Hp. congruence.
  - intros _. apply parse_byte_Return_true in E as [_ ->]. apply Hp.
Qed.

(** No byte sequence drives an accepted request past a configured cap. *)
Theorem parse_within_limits (data : bytes) :
  let x := parse data parser_init request_clear in
  parse_error_ (res_parser x) = NONE → limits (res_parser x) (res_request x).
Proof. intros x Hx. by destruct (parse_inv data Hx) as [[] _]. Qed.


Lemma valid_field_value_char_plain c :
  is_valid_field_value_char c = true → c ≠ CR ∧ c ≠ LF ∧ c ≠ Ascii.zero.
Proof. intros H. split_and!; intros ->; vm_compute in H; done. Qed.

(** C40: The header table of a request that is not refused: lower-case token names,
    trimmed values, and no CR, LF or NUL to forward. *)
Theorem parse_header_table (data k v : bytes) :
  let x := parse data parser_init request_clear in
  parse_error_ (res_parser x) = NONE → headers (res_request x) !! k = Some v →
  header_ok k v ∧ (CR ∉ v) ∧ (LF ∉ v) ∧ (Ascii.zero ∉ v).
Proof.
  intros x Hx Hk. destruct (parse_inv data Hx) as [[_ _ _ Hh] _].
  specialize (Hh _ _ Hk). split; [done|]. destruct Hh as (_ & _ & _ & Hv & _).
  rewrite Forall_forall in Hv.
  split_and!; by intros (? & ? & ?)%Hv%valid_field_value_char_plain.
Qed.

(** * The theorems at a concrete request *)

Definition sample_request : bytes :=
  "POST /items?id=7 HTTP/1.1" ++ CRLF ++ "Host: shop" ++ CRLF ++
  "Content-Length: 3" ++ CRLF ++ CRLF ++ "abc".

Lemma parse_fragmentation_witness :
  feed [take 9 sample_request; drop 9 sample_request] parser_init request_clear =
  parse sample_request parser_init request_clear.
Proof. apply (parse_fragmentation [take 9 sample_request; drop 9 sample_request]). done. Defined.

Lemma parse_within_limits_witness :
  let x := parse sample_request parser_init request_clear in limits (res_parser x) (res_request x).
Proof. apply (parse_within_limits sample_request). by vm_compute. Defined.


Lemma parse_header_table_witness : header_ok "host" "shop" ∧ CR ∉ ("shop" : bytes).
Proof.
  destruct (parse_header_table sample_request "host" "shop") as (? & ? & _);
    [by vm_compute|by vm_compute|done].
Defined.
