(* ===== verification/HttpResponse.v ===== *)
(** Responses to clients: [struct HttpResponse] of [include/common/http_parser.h],
    the content type of a file ([src/server/content_type.cpp]) and compression
    ([src/server/gzip_utils.cpp], with zlib as a parameter). *)

From S2P Require Import Prelude Search HttpParser.

#[local] Open Scope Z_scope.
#[local] Open Scope gateway_scope.

Record HttpResponse := mkResponse {
  r_status_code : Z;
  r_status_message : bytes;
  r_headers : gmap bytes bytes;
  r_body : bytes;
  r_chunked : bool;
}.

Definition default_HttpResponse : HttpResponse := mkResponse 200 "OK" ∅ [] false.

Definition field_text (kv : bytes * bytes) : bytes := kv.1 ++ ": " ++ kv.2 ++ CRLF.

(** [HttpResponse::to_string] *)
Definition response_to_string `{HashOrder} (r : HttpResponse) : bytes :=
  "HTTP/1.1 " ++ to_string (r_status_code r) ++ " " ++ r_status_message r ++ CRLF ++
  concat (field_text <$> iter (r_headers r)) ++ CRLF ++ r_body r.

#[global] Arguments response_to_string {_} _ : simpl never.

(** * Content types *)

Definition mime_map : list (bytes * bytes) :=
  [(lit ".html", lit "text/html"); (lit ".htm", lit "text/html"); (lit ".css", lit "text/css");
   (lit ".js", lit "application/javascript"); (lit ".json", lit "application/json");
   (lit ".png", lit "image/png"); (lit ".jpg", lit "image/jpeg"); (lit ".jpeg", lit "image/jpeg");
   (lit ".gif", lit "image/gif"); (lit ".svg", lit "image/svg+xml"); (lit ".ico", lit "image/x-icon");
   (lit ".txt", lit "text/plain"); (lit ".xml", lit "application/xml"); (lit ".pdf", lit "application/pdf");
   (lit ".zip", lit "application/zip"); (lit ".mp3", lit "audio/mpeg"); (lit ".mp4", lit "video/mp4")].

Definition get_content_type (path : bytes) : bytes :=
  match rfind_char "." path with
  | Some ext_pos =>
    match alookup (drop ext_pos path) mime_map with
    | Some t => t
    | None => "application/octet-stream"
    end
  | None => "application/octet-stream"
  end.

(** * Compression *)

Definition has_content_encoding (resp : HttpResponse) : bool :=
  existsb (λ kv, (lowercase kv.1 == "content-encoding") && negb (is_empty kv.2)) (map_to_list (r_headers resp)).

Definition should_compress (req : HttpRequest) (resp : HttpResponse) : bool :=
  if has_content_encoding resp then false else
  match headers req !! ("accept-encoding" : bytes) with
  | None => false
  | Some accept =>
    if bool_decide (find_sub "gzip" accept = None) then false else
    match r_headers resp !! ("Content-Type" : bytes) with
    | None => false
    | Some type =>
      if starts_with "text/" type || starts_with "application/json" type
         || starts_with "application/javascript" type || starts_with "application/xml" type
         || starts_with "image/svg+xml" type
      then negb (is_empty (r_body resp)) else false
    end
  end.

(** The deflate stream: [None] of [deflateInit2] is a failure; a call of [deflate]
    with [Z_FINISH] and room for [CHUNK] bytes fails or writes some. *)
Definition CHUNK : nat := Z.to_nat 16384.

Section gzip.
  Context {zstream : Type} (deflateInit2 : bytes → option zstream)
    (deflate : nat → zstream → option (bytes * zstream)).

(** The loop, [output] being what the caller's string holds; [None]: out of fuel. *)
Fixpoint deflate_loop (fuel : nat) (stream : zstream) (output : bytes) : option (bool * bytes) :=
  match fuel with
  | O => None
  | S fuel' =>
    match deflate CHUNK stream with
    | None => Some (false, output)
    | Some (out, stream') =>
      let avail_out := (CHUNK - length out)%nat in
      let output := output ++ out in
      if (avail_out =? 0)%nat then deflate_loop fuel' stream' output else Some (true, output)
    end
  end.

Definition gzip_compress (fuel : nat) (input output : bytes) : option (bool * bytes) :=
  if is_empty input then Some (false, output) else
  match deflateInit2 input with
  | None => Some (false, output)
  | Some stream => deflate_loop fuel stream output
  end.

(** zlib's contract: the calls write the compressed form piece by piece, as much
    as there is room for. *)
Context (pending : zstream → bytes).
Hypothesis deflate_writes : ∀ n s,
  ∃ s', deflate n s = Some (take n (pending s), s') ∧ pending s' = drop n (pending s).

Lemma deflate_loop_complete fuel stream output :
  (length (pending stream) < fuel * CHUNK)%nat →
  deflate_loop fuel stream output = Some (true, output ++ pending stream).
Proof.
  assert (0 < CHUNK)%nat by (unfold CHUNK; lia).
  revert stream output. induction fuel as [|fuel IH]; intros stream output Hf; [lia|].
  cbn [deflate_loop]. destruct (deflate_writes CHUNK stream) as (s' & -> & Hs').
  rewrite length_take. destruct (Nat.eqb_spec (CHUNK - CHUNK `min` length (pending stream)) 0).
  - rewrite IH; [|rewrite Hs', length_drop; cbn [Nat.mul] in Hf; lia]. rewrite Hs'. by rewrite <- app_assoc, take_drop.
  - by rewrite take_ge by lia.
Qed.
End gzip.

(** Compression of a non-empty body appends the whole compressed form to the
    output, whatever its length, a multiple of the buffer size included. *)
Theorem gzip_compress_complete {zstream} deflateInit2 deflate (pending : zstream → bytes) input stream output fuel :
  (∀ n s, ∃ s', deflate n s = Some (take n (pending s), s') ∧ pending s' = drop n (pending s)) →
  input ≠ [] → deflateInit2 input = Some stream → (length (pending stream) < fuel * CHUNK)%nat →
  gzip_compress deflateInit2 deflate fuel input output = Some (true, output ++ pending stream).
Proof.
  intros Hd Hi Hs Hf. unfold gzip_compress. apply is_empty_false in Hi as ->. rewrite Hs.
  by apply deflate_loop_complete.
Qed.

(** A stand-in stream that stores its input. *)
Lemma gzip_compress_complete_witness :
  gzip_compress (λ i, Some i) (λ n s, Some (take n s, drop n s)) 1 "abc" "x" = Some (true, lit "xabc").
Proof.
  apply (gzip_compress_complete (λ i, Some i) (λ n s, Some (take n s, drop n s)) id "abc" "abc" "x" 1).
  - intros n s. by exists (drop n s).
  - done.
  - done.
  - apply Nat.ltb_lt. by vm_compute.
Defined.
