(* ===== verification/Routes.v ===== *)
(** The route table of [src/server/http_handler.cpp]: registration of the built-in
    and the configured routes, the built-in handlers, resolution of a request to a
    route, dispatch to a local or a static target. nlohmann's [dump] and [parse],
    the metrics text, the version string and the file system are parameters. *)

From S2P Require Import Prelude Search Config ConfigFile UpstreamManager RouteUtils HttpParser HttpResponse.

#[local] Open Scope Z_scope.
#[local] Open Scope gateway_scope.

(** * The table *)

(** The built-in handlers, named after their paths. *)
Inductive LocalHandler :=
| Healthz | Readyz | Version | MetricsText | Hello | EchoPost | EchoPut | DeleteResource | User | Chunked.

Record RegisteredRoute := mkRegistered {
  rr_route : GatewayRoute;
  rr_handler : option LocalHandler;
}.

(** [addRoute(method, pattern, handler)] *)
Definition local_route (method pattern : bytes) (h : LocalHandler) : RegisteredRoute :=
  mkRegistered (default_GatewayRoute{{rt_method := method; rt_path := pattern; rt_target_type := lit "local";
    rt_enabled := true; rt_auth_required := false; rt_allow_anonymous := true;
    rt_rate_limit_policy := lit "route"; rt_host := lit "*"; rt_tenant := lit "*"}}) (Some h).

(** [addRoute(route, {})] on a configured route, with the defaults of
    [register_configured_routes]. *)
Definition configured_route (route : GatewayRoute) : RegisteredRoute :=
  let or_default (s d : bytes) := if is_empty s then d else s in
  let route := route{{rt_target_type ::= fun t => or_default t "upstream"}} in
  mkRegistered (route{{rt_target_type ::= fun t => or_default t "local";
    rt_host ::= fun h => or_default h "*"; rt_tenant ::= fun t => or_default t "*"}}) None.

Definition register_default_routes : list RegisteredRoute :=
  [local_route "GET" "/healthz" Healthz; local_route "GET" "/readyz" Readyz;
   local_route "GET" "/version" Version; local_route "GET" "/metrics" MetricsText;
   local_route "GET" "/api/hello" Hello; local_route "POST" "/api/echo" EchoPost;
   local_route "PUT" "/api/echo" EchoPut; local_route "DELETE" "/api/resource" DeleteResource;
   local_route "GET" "/users/{id}" User; local_route "GET" "/chunked" Chunked].

Definition register_configured_routes (config : UpstreamConfig) : list RegisteredRoute :=
  configured_route <$> uc_routes config.

(** [routes_] after the constructor or [reload_config]. *)
Definition routes_of (config : UpstreamConfig) : list RegisteredRoute :=
  register_default_routes ++ register_configured_routes config.

(** * Resolution *)

Record ResolvedRoute := mkResolved {
  rs_route : option RegisteredRoute;
  rs_params : params_t;
  rs_path_matched : bool;
  rs_allow_methods : bytes;
}.

Definition header_or_empty (name : bytes) (req : HttpRequest) : bytes := default [] (headers req !! name).

Definition method_accepts (method : bytes) (req : HttpRequest) : bool :=
  is_empty method || (method == "*") || (method == HttpParser.method req).

Definition shown_method (rr : RegisteredRoute) : bytes :=
  if is_empty (rt_method (rr_route rr)) then lit "*" else rt_method (rr_route rr).

(** The loop over [routes_]; [None] only if a match ran out of fuel. *)
Fixpoint resolve_loop (routes : list RegisteredRoute) (host tenant : bytes) (req : HttpRequest)
    (matched : ResolvedRoute) : option ResolvedRoute :=
  match routes with
  | [] => Some matched
  | registered :: routes' =>
    match routeMatchesPath (rr_route registered) host tenant (HttpParser.path req) ∅ with
    | None => None
    | Some (false, _) => resolve_loop routes' host tenant req matched
    | Some (true, params) =>
      let method := rt_method (rr_route registered) in
      let allow := rs_allow_methods matched in
      let allow := (if is_empty allow then allow else allow ++ ", ") ++ shown_method registered in
      if method_accepts method req then Some (mkResolved (Some registered) params true allow)
      else resolve_loop routes' host tenant req (mkResolved (rs_route matched) (rs_params matched) true allow)
    end
  end.

Definition resolve_route (routes : list RegisteredRoute) (req : HttpRequest) : option ResolvedRoute :=
  resolve_loop routes (header_or_empty "host" req) (header_or_empty "x-tenant-id" req) req
    (mkResolved None ∅ false []).

(** * Built-in handlers and dispatch *)

Definition make_error_response (code : Z) (status message : bytes) : HttpResponse :=
  let text := "<h1>" ++ to_string code ++ " " ++ message ++ "</h1>" in
  mkResponse code status
    {[ lit "Content-Type" := lit "text/html"; lit "Content-Length" := to_string (size text);
       lit "Connection" := lit "close" ]} text false.

(** The assignments the handlers end with. *)
Definition with_body (code : Z) (msg type text : bytes) (resp : HttpResponse) : HttpResponse :=
  resp{{r_status_code := code; r_status_message := msg; r_body := text;
        r_headers ::= fun h => <[lit "Content-Length" := to_string (size text)]> (<[lit "Content-Type" := type]> h)}}.

Definition quoted (s : bytes) : bytes := [ascii_of_N 34] ++ s ++ [ascii_of_N 34].

Definition readyz_ready (snapshot : gmap bytes (nat * nat)) : bool :=
  forallb (λ kv, negb (kv.2.1 =? 0)%nat) (map_to_list snapshot).

Definition readyz_upstreams (snapshot : gmap bytes (nat * nat)) : json :=
  JObject ((λ kv, (kv.1, JObject [(lit "healthy", JInt (Z.of_nat kv.2.1)); (lit "total", JInt (Z.of_nat kv.2.2))]))
             <$> in_order snapshot).

Section handlers.
  (** [dump] throws on a string that is not UTF-8, [parse_json] on a malformed
      text: [None]. [dump] sorts the members of an object by name. *)
  Context (dump : json → option bytes) (parse_json : bytes → option json) (GATEWAY_VERSION metrics_text : bytes).
  Context (weakly_canonical : bytes → option bytes) (read_file : bytes → option bytes).

Definition dumped (code : Z) (msg : bytes) (j : json) (tail : bytes) (resp : HttpResponse) : option HttpResponse :=
  match dump j with
  | Some text => Some (with_body code msg "application/json" (text ++ tail) resp)
  | None => None
  end.

(** [None]: the handler threw. *)
Definition run_handler (h : LocalHandler) (snapshot : gmap bytes (nat * nat)) (req : HttpRequest)
    (params : params_t) (resp : HttpResponse) : option HttpResponse :=
  match h with
  | Healthz => Some (with_body 200 "OK" "text/plain" ("ok" ++ [LF]) resp)
  | Readyz =>
    let ready := readyz_ready snapshot in
    dumped (if ready then 200 else 503) (if ready then "OK" else "Service Unavailable")
      (JObject [(lit "status", JString (if ready then "ready" else "unavailable"));
                (lit "upstreams", readyz_upstreams snapshot)]) [LF] resp
  | Version => dumped 200 "OK" (JObject [(lit "version", JString GATEWAY_VERSION)]) [LF] resp
  | MetricsText => Some (with_body 200 "OK" "text/plain; version=0.0.4" metrics_text resp)
  | Hello => dumped 200 "OK" (JObject [(lit "message", JString "Hello, World!")]) [] resp
  | EchoPost =>
    match parse_json (body req) ≫= λ j, dumped 200 "OK" (JObject [(lit "echo", j)]) [] resp with
    | Some resp => Some resp
    | None => Some (with_body 400 "Bad Request" "application/json"
                      ("{" ++ quoted "error" ++ ":" ++ quoted "Invalid JSON" ++ "}") resp)
    end
  | EchoPut => Some (with_body 200 "OK" "text/plain" ("PUT received: " ++ body req) resp)
  | DeleteResource =>
    dumped 200 "OK" (JObject [(lit "message", JString "Resource deleted successfully"); (lit "status", JString "deleted")])
      [] resp
  | User =>
    match params !! lit "id" with
    | Some id => dumped 200 "OK" (JObject [(lit "id", JString id); (lit "name", JString ("User_" ++ id))]) [] resp
    | None => None
    end
  | Chunked =>
    Some (resp{{r_status_code := 200; r_status_message := lit "OK"; r_chunked := true;
      r_headers ::= <[lit "Content-Type" := lit "text/plain"]>;
      r_body := "This is a chunked response." ++ [LF] ++ "Each line could be generated separately." ++ [LF] }})
  end.

Definition not_found (resp : HttpResponse) : HttpResponse :=
  with_body 404 "Not Found" "text/html" "<h1>404 Not Found</h1>" resp.

Definition dispatch_static (www_root : bytes) (route : GatewayRoute) (req : HttpRequest) (resp : HttpResponse)
    : HttpResponse :=
  let static_root := if is_empty (rt_static_root route) then www_root else rt_static_root route in
  let request_path := if is_empty (HttpParser.path req) then lit "/" else HttpParser.path req in
  match is_safe_static_path weakly_canonical "/" request_path static_root with
  | None => with_body 403 "Forbidden" "text/html" "<h1>403 Forbidden</h1>" resp
  | Some resolved =>
    match read_file resolved with
    | None => not_found resp
    | Some text => with_body 200 "OK" (get_content_type resolved) text resp
    end
  end.

(** The branches after the built-in handlers. *)
Definition dispatch_target (www_root : bytes) (route : GatewayRoute) (req : HttpRequest) (resp : HttpResponse)
    : HttpResponse :=
  if rt_target_type route == "composite" then
    make_error_response 500 "Internal Server Error" "composite route dispatched synchronously"
  else if rt_target_type route == "upstream" then
    make_error_response 500 "Internal Server Error" "upstream route dispatched synchronously"
  else if rt_target_type route == "static" then dispatch_static www_root route req resp
  else not_found resp.

Definition dispatch_route (www_root : bytes) (snapshot : gmap bytes (nat * nat)) (req : HttpRequest)
    (matched : ResolvedRoute) (resp : HttpResponse) : option HttpResponse :=
  match rs_route matched with
  | None => Some (not_found resp)
  | Some registered =>
    let route := rr_route registered in
    match rr_handler registered with
    | Some h =>
      if rt_target_type route == "local" then run_handler h snapshot req (rs_params matched) resp
      else Some (dispatch_target www_root route req resp)
    | None => Some (dispatch_target www_root route req resp)
    end
  end.
End handlers.

(** * What resolution promises *)

Definition path_matches (req : HttpRequest) (rr : RegisteredRoute) : bool :=
  match routeMatchesPath (rr_route rr) (header_or_empty "host" req) (header_or_empty "x-tenant-id" req)
    (HttpParser.path req) ∅ with Some (true, _) => true | _ => false end.

Definition accepts (req : HttpRequest) (rr : RegisteredRoute) : bool :=
  path_matches req rr && method_accepts (rt_method (rr_route rr)) req.

(** The methods of an [Allow] header. *)
Fixpoint comma_list (l : list bytes) : bytes :=
  match l with
  | [] => []
  | [x] => x
  | x :: l' => x ++ ", " ++ comma_list l'
  end.

Definition allowed_methods (req : HttpRequest) (routes : list RegisteredRoute) : list bytes :=
  shown_method <$> List.filter (path_matches req) routes.

(** What the caller of [resolve_route] relies on. *)
Definition resolution (routes : list RegisteredRoute) (req : HttpRequest) (res : ResolvedRoute) : Prop :=
  match rs_route res with
  | Some rr =>
    ∃ before after, routes = before ++ rr :: after ∧ accepts req rr = true ∧
      Forall (λ r', accepts req r' = false) before ∧
      routeMatchesPath (rr_route rr) (header_or_empty "host" req) (header_or_empty "x-tenant-id" req)
        (HttpParser.path req) ∅ = Some (true, rs_params res)
  | None =>
    Forall (λ r', accepts req r' = false) routes ∧
    rs_path_matched res = existsb (path_matches req) routes ∧
    rs_allow_methods res = comma_list (allowed_methods req routes)
  end.

Lemma routeMatchesPath_total route host tenant path params :
  is_Some (routeMatchesPath route host tenant path params).
Proof.
  unfold routeMatchesPath, matchRoute. repeat (case_match; eauto).
  rewrite match_loop_spec by lia. eauto.
Qed.

Lemma shown_method_nonempty rr : is_empty (shown_method rr) = false.
Proof. unfold shown_method. by destruct (rt_method (rr_route rr)). Qed.

Lemma comma_list_snoc l x :
  Forall (λ y, is_empty y = false) l →
  comma_list (l ++ [x]) = (if is_empty (comma_list l) then comma_list l else comma_list l ++ ", ") ++ x.
Proof.
  induction 1 as [|y l Hy Hl IH]; [done|]. destruct l as [|z l]; [simpl; by rewrite Hy, <-(assoc_L (++))|].
  change (comma_list ((y :: z :: l) ++ [x])) with (y ++ ", " ++ comma_list ((z :: l) ++ [x])).
  change (comma_list (y :: z :: l)) with (y ++ ", " ++ comma_list (z :: l)).
  rewrite IH. inversion Hl as [|? ? Hz _]. destruct y; [done|].
  destruct (comma_list (z :: l)) eqn:E; [by destruct l, z|]. simpl is_empty. cbv iota.
  by rewrite <-!(assoc_L (++)).
Qed.

Lemma allowed_methods_nonempty req routes : Forall (λ y, is_empty y = false) (allowed_methods req routes).
Proof. apply Forall_fmap, Forall_true. intros. apply shown_method_nonempty. Qed.

(** The loop, having passed over the routes [done]. *)
Lemma resolve_loop_spec req routes passed :
  Forall (λ r', accepts req r' = false) passed →
  ∃ res, resolve_loop routes (header_or_empty "host" req) (header_or_empty "x-tenant-id" req) req
      (mkResolved None ∅ (existsb (path_matches req) passed) (comma_list (allowed_methods req passed))) = Some res ∧
    resolution (passed ++ routes) req res.
Proof.
  revert passed. induction routes as [|rr routes IH]; intros passed Hpassed; simpl.
  { eexists. split; [done|]. unfold resolution. simpl. by rewrite (right_id_L [] (++)). }
  destruct (routeMatchesPath_total (rr_route rr) (header_or_empty "host" req) (header_or_empty "x-tenant-id" req)
    (HttpParser.path req) ∅) as [[ok params] E]; rewrite E.
  assert (path_matches req rr = ok) as Epm by (unfold path_matches; rewrite E; by destruct ok).
  assert (∀ res, resolution ((passed ++ [rr]) ++ routes) req res → resolution (passed ++ rr :: routes) req res)
    as Hshift by (intros res; by rewrite <-(assoc_L (++))).
  assert (allowed_methods req (passed ++ [rr]) = allowed_methods req passed ++ (if ok then [shown_method rr] else []))
    as Eall.
  { unfold allowed_methods. rewrite List.filter_app, fmap_app. simpl. rewrite Epm. by destruct ok. }
  destruct ok; [destruct (method_accepts (rt_method (rr_route rr)) req) eqn:Em|].
  - eexists. split; [done|]. exists passed, routes. unfold accepts at 1. rewrite Epm, Em. by split_and!.
  - destruct (IH (passed ++ [rr])) as (res & Eres & Hres).
    { apply Forall_app. split; [done|]. constructor; [|done]. unfold accepts. by rewrite Epm, Em. }
    exists res. split; [|by apply Hshift]. rewrite <-Eres. rewrite existsb_app, Eall. simpl.
    rewrite Epm, orb_true_r, comma_list_snoc; [done|apply allowed_methods_nonempty].
  - destruct (IH (passed ++ [rr])) as (res & Eres & Hres).
    { apply Forall_app. split; [done|]. constructor; [|done]. unfold accepts. by rewrite Epm. }
    exists res. split; [|by apply Hshift]. rewrite <-Eres. rewrite existsb_app, Eall. simpl.
    by rewrite Epm, orb_false_r, (right_id_L [] (++)).
Qed.

(** C23: Resolution always answers. It gives the first route, in registration
    order, whose host, tenant and path match and whose method accepts the
    request, with the parameters of that match; without one, [path_matched] tells
    whether any route matched the path (405 instead of the static fallback) and
    [allow_methods] lists the methods of all those routes. *)
Theorem resolve_route_correct routes req :
  ∃ res, resolve_route routes req = Some res ∧ resolution routes req res.
Proof. apply (resolve_loop_spec req routes []). constructor. Qed.
