(* ===== verification/HttpClient.v ===== *)
(** The pure part of the upstream client, [include/server/http_client.h] and
    [src/server/http_client.cpp]: which errors are retried, which headers are
    forwarded, how a header is found in a raw response and how a chunked body is
    scanned. Positions are [size_t]: the sums of [scan_chunked_body] wrap. *)

From S2P Require Import Prelude Search HttpParser.

#[local] Open Scope Z_scope.
#[local] Open Scope gateway_scope.

(** * Results and policies *)

Inductive BackendError :=
| ErrorNone | ConnectFailed | ConnectTimeout | WriteFailed | WriteTimeout | ReadFailed | ReadTimeout
| InvalidResponse.

#[global] Instance BackendError_eq_dec : EqDecision BackendError.
Proof. solve_decision. Defined.

Record BackendResponse := mkBackend {
  status_code : Z;
  resp_headers : gmap bytes bytes;
  resp_body : bytes;
  error : BackendError;
}.

Record UpstreamTlsOptions := mkTls {
  enable : bool;
  ca_file : bytes;
  server_name : bytes;
  skip_verify : bool;
}.

Definition make_error_response (status : Z) (e : BackendError) (text : bytes) : BackendResponse :=
  mkBackend status ∅ text e.

Definition is_transient_backend_error (e : BackendError) : bool :=
  match e with
  | ConnectFailed | ConnectTimeout | WriteFailed | WriteTimeout | ReadFailed | ReadTimeout => true
  | _ => false
  end.

Definition is_idempotent (method : bytes) : bool :=
  (method == "GET") || (method == "HEAD") || (method == "OPTIONS").

Definition should_retry_backend_request (method : bytes) (e : BackendError) (attempt_count : Z) : bool :=
  if 2 <=? attempt_count then false
  else is_idempotent method && is_transient_backend_error e.

(** * Forwarded headers *)

Definition kHopByHop : list bytes :=
  [lit "connection"; lit "keep-alive"; lit "proxy-authenticate"; lit "proxy-authorization";
   lit "proxy-connection"; lit "te"; lit "trailer"; lit "transfer-encoding"; lit "upgrade";
   lit "host"; lit "content-length"].

Definition is_hop_by_hop_header (lower_name : bytes) : bool := bool_decide (lower_name ∈ kHopByHop).

(** The loop of [connection_tokens]; its two inner loops strip blanks from both
    ends of the piece. *)
Fixpoint token_loop (fuel : nat) (value : bytes) (pos : nat) (tokens : gset bytes) : gset bytes :=
  match fuel with
  | O => tokens
  | S fuel' =>
    if (length value <? pos)%nat then tokens else
    let comma := default (length value) (find_char_from "," pos value) in
    let token := lowercase (trim (substr pos (comma - pos) value)) in
    token_loop fuel' value (comma + 1) (if is_empty token then tokens else {[token]} ∪ tokens)
  end.

Definition connection_tokens (hs : gmap bytes bytes) : gset bytes :=
  match hs !! ("connection" : bytes) with
  | None => ∅
  | Some value => token_loop (length value + 2) value 0 ∅
  end.

(** * Headers of a raw response *)

(** [headers_part.find("\r\n") + 2], where [npos + 2] is [1]. *)
Definition after_status_line (headers_part : bytes) : nat :=
  match find_sub CRLF headers_part with Some i => i + 2 | None => 1 end.

Fixpoint find_header_loop (fuel : nat) (headers_part name : bytes) (line_start : nat) : bytes :=
  match fuel with
  | O => []
  | S fuel' =>
    if negb (line_start <? length headers_part)%nat then [] else
    let line_end := find_sub_from CRLF line_start headers_part in
    let field_end := default (length headers_part) line_end in
    let next :=
      match line_end with None => [] | Some e => find_header_loop fuel' headers_part name (e + 2) end in
    match find_char_from ":" line_start headers_part with
    | Some colon =>
      if (colon <? field_end)%nat && (colon - line_start =? length name)%nat
         && (lowercase (substr line_start (length name) headers_part) == name)
      then lowercase (trim (substr (colon + 1) (field_end - colon - 1) headers_part))
      else next
    | None => next
    end
  end.

Definition find_header_value (headers_part name : bytes) : bytes :=
  find_header_loop (S (length headers_part)) headers_part name (after_status_line headers_part).

(** * Chunked bodies *)

Inductive ChunkScan := Incomplete | Complete (body_end : nat) | ChunkError | Thrown.

#[global] Instance ChunkScan_eq_dec : EqDecision ChunkScan.
Proof. solve_decision. Defined.

(** [size = size * 16 + d], refused when it would not fit. *)
Fixpoint scan_size (hex : bytes) (n : Z) : option Z :=
  match hex with
  | [] => Some n
  | c :: hex' =>
    match hex_digit c with
    | None => None
    | Some d => if SIZE_MAX / 16 <? n then None else scan_size hex' (n * 16 + d)
    end
  end.

(** The size a line announces, up to the extensions. *)
Definition chunk_line_size (line : bytes) : option Z :=
  let hex := match find_char ";" line with Some semi => take semi line | None => line end in
  if is_empty hex then None else scan_size hex 0.

(** Lines up to the empty one. *)
Fixpoint scan_trailer (fuel : nat) (buf : bytes) (t : nat) : ChunkScan :=
  match fuel with
  | O => Incomplete
  | S fuel' =>
    match find_sub_from CRLF t buf with
    | None => Incomplete
    | Some e => if (e =? t)%nat then Complete (e + 2) else scan_trailer fuel' buf (e + 2)
    end
  end.

Inductive chunk_turn := Stop (r : ChunkScan) | Chunk (data : bytes) (pos : nat).

(** One turn of the loop. [std::string::compare] throws when its position is
    past the end; [append] takes what there is. *)
Definition scan_turn (buf : bytes) (pos : nat) : chunk_turn :=
  match find_sub_from CRLF pos buf with
  | None => Stop Incomplete
  | Some line_end =>
    match chunk_line_size (substr pos (line_end - pos) buf) with
    | None => Stop ChunkError
    | Some n =>
      let pos := (line_end + 2)%nat in
      if n =? 0 then Stop (scan_trailer (S (length buf)) buf pos) else
      let stop := wrap64 (Z.of_nat pos + n) in
      let next := wrap64 (stop + 2) in
      if size buf <? next then Stop Incomplete else
      if size buf <? stop then Stop Thrown else
      if substr (Z.to_nat stop) 2 buf != CRLF then Stop ChunkError else
      Chunk (take (Z.to_nat (Z.min n (size buf))) (drop pos buf)) (Z.to_nat next)
    end
  end.

(** [None]: the loop is still running when the fuel is spent. *)
Fixpoint scan_loop (fuel : nat) (buf : bytes) (pos : nat) (decoded : bytes) : option (ChunkScan * bytes) :=
  match fuel with
  | O => None
  | S fuel' =>
    match scan_turn buf pos with
    | Stop r => Some (r, decoded)
    | Chunk data pos' => scan_loop fuel' buf pos' (decoded ++ data)
    end
  end.

(** More turns than there are positions: see [scan_fuel_enough]. *)
Definition scan_chunked_body (buf : bytes) (body_start : nat) : option (ChunkScan * bytes) :=
  scan_loop (S (S (length buf))) buf body_start [].

#[local] Open Scope nat_scope.
#[local] Open Scope gateway_scope.

(** * Tokens of the Connection header *)

Lemma token_loop_spec fuel value pos tokens t :
  pos ≤ length value + 1 → length value + 2 ≤ pos + fuel →
  t ∈ token_loop fuel value pos tokens ↔
  t ∈ tokens ∨ (pos ≤ length value ∧ t ≠ [] ∧
    ∃ part, part ∈ split_on "," (drop pos value) [] ∧ t = lowercase (trim part)).
Proof.
  revert pos tokens. induction fuel as [|fuel IH]; intros pos tokens Hp Hf; [lia|]. simpl.
  destruct (Nat.ltb_spec (length value) pos); [naive_solver lia|].
  rewrite split_on_from. set (comma := default (length value) (find_char_from "," pos value)).
  assert (pos ≤ comma ≤ length value) as Hc.
  { subst comma. unfold find_char_from. destruct (find_char "," (drop pos value)) as [i|] eqn:E; simpl; [|lia].
    apply find_char_split in E as (_ & _ & E). rewrite length_drop in E. lia. }
  rewrite IH by lia. clear IH.
  assert (t ∈ (if is_empty (lowercase (trim (substr pos (comma - pos) value))) then tokens
      else {[lowercase (trim (substr pos (comma - pos) value))]} ∪ tokens) ↔
    t ∈ tokens ∨ (t ≠ [] ∧ t = lowercase (trim (substr pos (comma - pos) value)))) as ->.
  { destruct (is_empty _) eqn:E; [apply is_empty_true in E|apply is_empty_false in E]; set_solver. }
  subst comma. destruct (find_char_from "," pos value) as [i|]; simpl in *.
  - replace (i + 1)%nat with (S i) by lia. setoid_rewrite elem_of_cons.
    assert (S i ≤ length value ∨ S i = S (length value)) as [?|?] by lia; [naive_solver|].
    rewrite (drop_ge _ (S i)) by lia. simpl. setoid_rewrite list_elem_of_singleton.
    split; [naive_solver lia|]. intros [?|(_ & Ht & part & [->| ->] & ->)]; [naive_solver..|done].
  - unfold substr. rewrite take_ge by (rewrite length_drop; lia).
    setoid_rewrite list_elem_of_singleton. naive_solver lia.
Qed.

(** The tokens are the pieces between commas, without the blanks around them,
    in lower case; empty pieces are dropped. *)
Lemma connection_tokens_spec hs t :
  t ∈ connection_tokens hs ↔ t ≠ [] ∧
  ∃ value part, hs !! ("connection" : bytes) = Some value ∧
    part ∈ split_on "," value [] ∧ t = lowercase (trim part).
Proof.
  unfold connection_tokens. destruct (hs !! _) as [value|]; [|set_solver].
  rewrite token_loop_spec by lia. rewrite drop_0. set_solver by lia.
Qed.

(** * Header lookup *)

(** The lines after the status line, and the first field with a name. *)
Definition field_of (line : bytes) : option (bytes * bytes) :=
  match find_char ":" line with
  | Some colon => Some (take colon line, drop (S colon) line)
  | None => None
  end.

Fixpoint first_field (lines : list bytes) (name : bytes) : bytes :=
  match lines with
  | [] => []
  | line :: lines' =>
    match field_of line with
    | Some (k, v) => if lowercase k == name then lowercase (trim v) else first_field lines' name
    | None => first_field lines' name
    end
  end.

Definition header_lines (headers_part : bytes) : list bytes :=
  split_crlf (drop (after_status_line headers_part) headers_part) [].

Lemma find_char_take c k s :
  find_char c (take k s) =
  match find_char c s with Some i => if i <? k then Some i else None | None => None end.
Proof.
  revert k. induction s as [|x s IH]; intros k; [by rewrite take_nil|]. destruct k as [|k]; simpl.
  { case_bool_decide; [done|]. by destruct (find_char c s). }
  case_bool_decide; [done|]. rewrite IH. destruct (find_char c s) as [i|]; simpl; [|done].
  change (S i <? S k) with (i <? k). by destruct (i <? k).
Qed.

(** The test the loop makes on the line in [line_start, field_end). *)
Lemma field_test h name line_start field_end (next : bytes) :
  line_start ≤ field_end ≤ length h →
  match find_char_from ":" line_start h with
  | Some colon =>
    if (colon <? field_end) && (colon - line_start =? length name)
       && (lowercase (substr line_start (length name) h) == name)
    then lowercase (trim (substr (colon + 1) (field_end - colon - 1) h)) else next
  | None => next
  end =
  match field_of (substr line_start (field_end - line_start) h) with
  | Some (k, v) => if lowercase k == name then lowercase (trim v) else next
  | None => next
  end.
Proof.
  intros He. unfold field_of, find_char_from, substr. rewrite find_char_take.
  destruct (find_char ":" (drop line_start h)) as [i|] eqn:Ei; simpl; [|done].
  apply find_char_split in Ei as (_ & _ & Hi). rewrite length_drop in Hi.
  destruct (Nat.ltb_spec i (field_end - line_start)), (Nat.ltb_spec (line_start + i) field_end);
    simpl; try lia; [|done].
  rewrite take_take, Nat.min_l by lia. replace (line_start + i - line_start) with i by lia.
  destruct (Nat.eqb_spec i (length name)) as [->|Hne]; simpl.
  - rewrite skipn_firstn_comm, drop_drop.
    replace (line_start + length name + 1) with (line_start + S (length name)) by lia.
    replace (field_end - (line_start + length name) - 1) with (field_end - line_start - S (length name)) by lia.
    done.
  - rewrite bool_decide_eq_false_2; [done|]. intros <-. apply Hne.
    rewrite length_lowercase, length_take, length_drop. lia.
Qed.

Lemma find_header_loop_spec fuel h name line_start :
  length h < line_start + fuel →
  find_header_loop fuel h name line_start = first_field (split_crlf (drop line_start h) []) name.
Proof.
  revert line_start. induction fuel as [|fuel IH]; intros line_start Hf; cbn [find_header_loop].
  { by rewrite drop_ge by lia. }
  destruct (Nat.ltb_spec line_start (length h)); cbn [negb]; [|by rewrite drop_ge].
  rewrite split_crlf_from. destruct (find_sub_from CRLF line_start h) as [e|] eqn:Ee.
  - apply find_sub_from_le in Ee as [? Hle]; [|done]. simpl in Hle. cbn [default app].
    rewrite (field_test h name line_start e) by lia. cbn [first_field].
    by rewrite (IH (e + 2)) by lia.
  - cbn [default app]. rewrite (field_test h name line_start (length h)) by lia.
    unfold substr. by rewrite take_ge by (rewrite length_drop; lia).
Qed.

(** The in-place header lookup returns what splitting the block into
    lines would: the value of the first field whose name, in lower case, is the
    one asked for, without the blanks around it and in lower case, and the empty
    string when there is none. *)
Theorem find_header_value_correct headers_part name :
  find_header_value headers_part name = first_field (header_lines headers_part) name.
Proof. apply find_header_loop_spec. lia. Qed.

(** * The chunk scanner stops, or runs forever *)

Definition next_pos (buf : bytes) (pos : nat) : option nat :=
  match scan_turn buf pos with Stop _ => None | Chunk _ pos' => Some pos' end.

Lemma scan_turn_chunk buf pos data pos' : scan_turn buf pos = Chunk data pos' → pos' ≤ length buf.
Proof.
  unfold scan_turn, size. repeat (case_match; try discriminate); intros [= <- <-];
    bool_props; lia.
Qed.

Lemma next_pos_le buf pos pos' : next_pos buf pos = Some pos' → pos' ≤ length buf.
Proof.
  unfold next_pos. destruct (scan_turn buf pos) eqn:E; [done|]. intros [= <-].
  by eapply scan_turn_chunk.
Qed.

Lemma scan_loop_None fuel buf pos d :
  scan_loop fuel buf pos d = None ↔ is_Some (orbit (next_pos buf) fuel pos).
Proof.
  revert pos d. induction fuel as [|fuel IH]; intros pos d; simpl; [split; [eauto|done]|].
  unfold next_pos at 1. destruct (scan_turn buf pos); [|apply IH].
  split; [done|by intros [? ?]].
Qed.

(** The fuel of [scan_chunked_body] decides: a scan that has not stopped by then
    never stops. *)
Lemma scan_fuel_enough buf pos fuel d :
  pos ≤ length buf → scan_chunked_body buf pos = None → scan_loop fuel buf pos d = None.
Proof.
  unfold scan_chunked_body. rewrite !scan_loop_None. intros Hp H.
  apply (orbit_forever _ (length buf)); [apply next_pos_le|done|].
  eapply orbit_defined; [|done]. lia.
Qed.

Lemma scan_loop_more fuel k buf pos d x :
  scan_loop fuel buf pos d = Some x → scan_loop (fuel + k) buf pos d = Some x.
Proof.
  revert pos d. induction fuel as [|fuel IH]; intros pos d; simpl; [done|].
  destruct (scan_turn buf pos); [done|apply IH].
Qed.

Lemma scan_chunked_body_fuel fuel buf pos x :
  pos ≤ length buf → scan_loop fuel buf pos [] = Some x → scan_chunked_body buf pos = Some x.
Proof.
  intros Hp H. destruct (scan_chunked_body buf pos) as [y|] eqn:E.
  - apply (scan_loop_more _ fuel) in E. apply (scan_loop_more _ (S (S (length buf)))) in H.
    rewrite Nat.add_comm in H. congruence.
  - by rewrite (scan_fuel_enough _ _ fuel [] Hp E) in H.
Qed.

Lemma wrap64_small z : (0 <= z < 2 ^ 64)%Z → wrap64 z = z.
Proof. apply Z.mod_small. Qed.

Lemma wrap64_over z : (2 ^ 64 <= z < 2 * 2 ^ 64)%Z → wrap64 z = (z - 2 ^ 64)%Z.
Proof. intros. unfold wrap64. rewrite <- (Z.mod_small (z - 2 ^ 64) (2 ^ 64)) by lia.
  rewrite Zminus_mod, Z_mod_same_full, Z.sub_0_r, Zmod_mod. done. Qed.

(** A chunk-size line that makes the position wrap around to its own start. *)
Definition looping_line : bytes := "FFFFFFFFFFFFFFEC".

Lemma looping_turn pre rest :
  let buf := (pre ++ CRLF) ++ looping_line ++ CRLF ++ rest in
  (size buf < 2 ^ 63)%Z →
  next_pos buf (length (pre ++ CRLF)) = Some (length (pre ++ CRLF)).
Proof.
  intros buf Hb. unfold next_pos, scan_turn. subst buf.
  rewrite find_line_at by by apply (bool_decide_unpack _).
  rewrite substr_at by lia.
  change (chunk_line_size looping_line) with (Some (2 ^ 64 - 20)%Z). cbv iota beta zeta.
  change (2 ^ 64 - 20 =? 0)%Z with false. cbv iota.
  rewrite !size_app in *. change (size CRLF) with 2%Z in *. change (size looping_line) with 16%Z in *.
  change (length looping_line) with 16. rewrite !length_app. change (length CRLF) with 2. 
  assert (length pre = Z.to_nat (size pre) ∧ 0 <= size pre ∧ 0 <= size rest)%Z as (Hl & ? & ?).
  { unfold size. lia. }
  rewrite (wrap64_over (_ + (2 ^ 64 - 20))) by lia.
  rewrite (wrap64_small (_ + 2)) by lia.
  destruct (Z.ltb_spec (size pre + 2 + (16 + (2 + size rest))) (Z.of_nat (length pre + 2 + 16 + 2) + (2 ^ 64 - 20) - 2 ^ 64 + 2)); [lia|].
  destruct (Z.ltb_spec (size pre + 2 + (16 + (2 + size rest))) (Z.of_nat (length pre + 2 + 16 + 2) + (2 ^ 64 - 20) - 2 ^ 64)); [lia|].
  replace (Z.to_nat (Z.of_nat (length pre + 2 + 16 + 2) + (2 ^ 64 - 20) - 2 ^ 64)) with (length pre) by lia.
  rewrite <- app_assoc, substr_at by done.
  rewrite bool_decide_eq_true_2 by done. cbn [negb]. f_equal. lia.
Qed.

(** The scan of a chunked body does not always return: a chunk size just
    below 2^64, written right after the end of the headers, moves the position
    back to the same line, whatever follows, and the loop never ends. *)
Theorem scan_chunked_hangs pre rest fuel d :
  let buf := (pre ++ CRLF) ++ looping_line ++ CRLF ++ rest in
  (size buf < 2 ^ 63)%Z → scan_loop fuel buf (length (pre ++ CRLF)) d = None.
Proof.
  intros buf Hb. apply scan_loop_None. apply (orbit_cycle _ 0 1 _ (length (pre ++ CRLF))); [lia|done|].
  simpl. subst buf. by rewrite looping_turn.
Qed.

(** * Later bytes do not change a verdict *)

Lemma scan_trailer_app fuel k buf more t :
  t ≤ length buf → scan_trailer fuel buf t ≠ Incomplete →
  scan_trailer (fuel + k) (buf ++ more) t = scan_trailer fuel buf t.
Proof.
  revert t. induction fuel as [|fuel IH]; intros t Ht Hs; [done|]. simpl in *.
  destruct (find_sub_from CRLF t buf) as [e|] eqn:E; [|done].
  rewrite (find_sub_from_app _ _ _ _ e) by done.
  destruct (e =? t); [done|]. apply IH; [|done]. apply find_sub_from_le in E as [_ E]; [|done].
  done.
Qed.

Lemma scan_trailer_le fuel buf t e : scan_trailer fuel buf t = Complete e → e ≤ length buf.
Proof.
  revert t. induction fuel as [|fuel IH]; intros t; simpl; [done|].
  destruct (find_sub_from CRLF t buf) as [i|] eqn:E; [|done].
  apply find_sub_from_le in E as [_ E]; [|done]. simpl in E.
  destruct (i =? t); [|apply IH]. intros [= <-]. done.
Qed.

Lemma substr_app pos n (s t : bytes) : pos + n ≤ length s → substr pos n (s ++ t) = substr pos n s.
Proof.
  intros H. unfold substr. rewrite drop_app_le by lia. apply take_app_le. rewrite length_drop. lia.
Qed.

(** What a turn decides, without the data it copies. *)
Definition turn_verdict (x : chunk_turn) : ChunkScan + nat :=
  match x with Stop r => inl r | Chunk _ pos => inr pos end.

Lemma wrap64_range z : (0 <= wrap64 z < 2 ^ 64)%Z.
Proof. by apply Z.mod_pos_bound. Qed.

Lemma scan_turn_app buf more pos :
  pos ≤ length buf → (size (buf ++ more) < 2 ^ 63)%Z →
  turn_verdict (scan_turn buf pos) ≠ inl Incomplete →
  turn_verdict (scan_turn (buf ++ more) pos) = turn_verdict (scan_turn buf pos).
Proof.
  intros Hp Hsz. unfold scan_turn. destruct (find_sub_from CRLF pos buf) as [e|] eqn:Ee; [|done].
  rewrite (find_sub_from_app _ _ _ _ e) by done.
  apply find_sub_from_le in Ee as [? Ee]; [|done]. simpl in Ee. rewrite substr_app by lia.
  destruct (chunk_line_size _) as [n|]; [|done]. destruct (n =? 0)%Z.
  { cbn [turn_verdict]. intros Hs. replace (S (length (buf ++ more))) with (S (length buf) + length more)
      by (rewrite length_app; lia).
    rewrite scan_trailer_app; [done|lia|congruence]. }
  pose proof (wrap64_range (Z.of_nat (e + 2) + n)) as Hr.
  set (stop := wrap64 (Z.of_nat (e + 2) + n)) in *.
  rewrite size_app in *. pose proof (size_nonneg more). cbv zeta.
  destruct (Z.ltb_spec (size buf) (wrap64 (stop + 2))) as [|Hn]; [done|].
  destruct (Z.ltb_spec (size buf + size more) (wrap64 (stop + 2))); [lia|].
  destruct (decide (stop + 2 < 2 ^ 64)%Z) as [Hw|Hw].
  - rewrite wrap64_small in * by lia. destruct (Z.ltb_spec (size buf) stop); [lia|].
    destruct (Z.ltb_spec (size buf + size more) stop); [lia|].
    rewrite substr_app by (unfold size in *; lia). by destruct (substr _ 2 buf != CRLF).
  - destruct (Z.ltb_spec (size buf + size more) stop); [|lia].
    destruct (Z.ltb_spec (size buf) stop); [done|lia].
Qed.

Lemma scan_loop_app fuel buf more pos d d' :
  pos ≤ length buf → (size (buf ++ more) < 2 ^ 63)%Z →
  fst <$> scan_loop fuel buf pos d ≠ Some Incomplete →
  fst <$> scan_loop fuel (buf ++ more) pos d' = fst <$> scan_loop fuel buf pos d.
Proof.
  intros Hp Hsz. revert pos d d' Hp. induction fuel as [|fuel IH]; intros pos d d' Hp Hv; [done|].
  pose proof (scan_turn_app buf more pos Hp Hsz) as Hturn.
  cbn [scan_loop] in Hv |- *. destruct (scan_turn buf pos) as [r|data pos'] eqn:E; simpl in *.
  - destruct (scan_turn (buf ++ more) pos); simpl in *; naive_solver.
  - destruct (scan_turn (buf ++ more) pos) as [|data' pos'']; simpl in *; [naive_solver|].
    specialize (Hturn ltac:(done)). simplify_eq. apply IH; [by eapply scan_turn_chunk|done].
Qed.

(** Once the scan has reached a verdict other than "incomplete" (complete at a
    position, malformed, thrown, or running forever), more bytes do not change it. *)
Lemma scan_verdict_app buf more pos :
  pos ≤ length buf → (size (buf ++ more) < 2 ^ 63)%Z →
  fst <$> scan_chunked_body buf pos ≠ Some Incomplete →
  fst <$> scan_chunked_body (buf ++ more) pos = fst <$> scan_chunked_body buf pos.
Proof.
  intros Hp Hsz Hv. assert (pos ≤ length (buf ++ more)) as Hp' by (rewrite length_app; lia).
  destruct (scan_chunked_body buf pos) as [[r d]|] eqn:E.
  - pose proof (scan_loop_app _ buf more pos [] [] Hp Hsz ltac:(by unfold scan_chunked_body in E; rewrite E)) as H.
    unfold scan_chunked_body in E. rewrite E in H.
    destruct (scan_loop _ (buf ++ more) pos []) as [[r' d']|] eqn:E'; [|done].
    apply scan_chunked_body_fuel in E' as ->; [|done]. done.
  - unfold scan_chunked_body at 1. set (fuel := S (S (length (buf ++ more)))).
    pose proof (scan_fuel_enough _ _ fuel [] Hp E) as E'.
    rewrite (scan_loop_app fuel buf more pos [] []); rewrite ?E'; done.
Qed.

(** * Well-formed bodies are decoded *)

Definition wf_chunk (c : bytes * bytes) : Prop :=
  is_line c.1 ∧ chunk_line_size c.1 = Some (size c.2) ∧ c.2 ≠ [].

Definition wf_trailer (t : bytes) : Prop := is_line t ∧ t ≠ [].

Definition chunk_wire (c : bytes * bytes) : bytes := c.1 ++ CRLF ++ c.2 ++ CRLF.

(** Size lines with their data, the last-chunk line, trailer fields. *)
Definition chunked_wire (chunks : list (bytes * bytes)) (last : bytes) (trailers : list bytes) : bytes :=
  concat (chunk_wire <$> chunks) ++ last ++ CRLF ++ concat ((λ t, t ++ CRLF) <$> trailers) ++ CRLF.

Lemma size_pos s : s ≠ [] → (0 < size s)%Z.
Proof. destruct s; [done|]. rewrite size_cons. pose proof (size_nonneg s). lia. Qed.

Lemma scan_turn_wire pre c rest :
  wf_chunk c → (size (pre ++ chunk_wire c ++ rest) < 2 ^ 63)%Z →
  scan_turn (pre ++ chunk_wire c ++ rest) (length pre) = Chunk c.2 (length (pre ++ chunk_wire c)).
Proof.
  destruct c as [l d]. intros (Hl & Hs & Hd) Hsz. unfold chunk_wire in *. cbn [fst snd] in *.
  rewrite <- !app_assoc in *. unfold scan_turn. rewrite find_line_at by done.
  rewrite substr_at by lia. rewrite Hs. apply size_pos in Hd.
  destruct (Z.eqb_spec (size d) 0); [lia|].
  rewrite !size_app in *. change (size CRLF) with 2%Z in *. pose proof (size_nonneg rest).
  unfold size in *. rewrite (wrap64_small (_ + Z.of_nat (length d))) by lia.
  rewrite wrap64_small by lia.
  do 2 (match goal with |- context [(?a <? ?b)%Z] => destruct (Z.ltb_spec a b); [lia|] end).
  assert (Z.to_nat (Z.of_nat (length pre + length l + 2) + Z.of_nat (length d)) =
          length (pre ++ l ++ CRLF ++ d)) as -> by (rewrite !length_app; simpl; lia).
  replace (pre ++ l ++ CRLF ++ d ++ CRLF ++ rest) with ((pre ++ l ++ CRLF ++ d) ++ CRLF ++ rest)
    by by rewrite <- !app_assoc.
  rewrite substr_at, bool_decide_eq_true_2 by done. cbn [negb].
  replace ((pre ++ l ++ CRLF ++ d) ++ CRLF ++ rest) with ((pre ++ l ++ CRLF) ++ d ++ CRLF ++ rest)
    by by rewrite <- !app_assoc.
  replace (length pre + length l + 2) with (length (pre ++ l ++ CRLF)) by (rewrite !length_app; simpl; lia).
  rewrite drop_app_length. f_equal.
  - rewrite take_app_le by lia. apply take_ge. lia.
  - rewrite !length_app. simpl. lia.
Qed.

Lemma scan_trailer_wire trailers fuel pre rest :
  Forall wf_trailer trailers → length trailers < fuel →
  let wire := concat ((λ t, t ++ CRLF) <$> trailers) ++ CRLF in
  scan_trailer fuel (pre ++ wire ++ rest) (length pre) = Complete (length (pre ++ wire)).
Proof.
  intros Hall. revert fuel pre. induction Hall as [|t trailers [Ht Hne] _ IH]; intros fuel pre Hf;
    (destruct fuel as [|fuel]; [simpl in Hf; lia|]); cbn [scan_trailer].
  - simpl concat. rewrite app_nil_l. rewrite <- (app_nil_l (CRLF ++ rest)), find_line_at by done.
    simpl length. rewrite Nat.add_0_r, Nat.eqb_refl, length_app. done.
  - rewrite fmap_cons. cbn [concat]. rewrite <- !app_assoc, find_line_at by done.
    destruct (Nat.eqb_spec (length pre + length t) (length pre)) as [E|_].
    { destruct t; [done|simpl in E; lia]. }
    replace (length pre + length t + 2) with (length (pre ++ t ++ CRLF)) by (rewrite !length_app; simpl; lia).
    specialize (IH fuel (pre ++ t ++ CRLF)). cbv zeta in IH. rewrite <- !app_assoc in IH. apply IH. simpl in Hf. lia.
Qed.

Lemma scan_loop_wire chunks last trailers fuel pre rest d :
  let wire := chunked_wire chunks last trailers in
  Forall wf_chunk chunks → is_line last → chunk_line_size last = Some 0%Z → Forall wf_trailer trailers →
  (size (pre ++ wire ++ rest) < 2 ^ 63)%Z → length chunks < fuel →
  scan_loop fuel (pre ++ wire ++ rest) (length pre) d =
    Some (Complete (length (pre ++ wire)), d ++ concat chunks.*2).
Proof.
  intros wire Hc Hl Hl0 Ht. subst wire. unfold chunked_wire. revert fuel pre d.
  induction Hc as [|c chunks Hc _ IH]; intros fuel pre d Hsz Hf;
    (destruct fuel as [|fuel]; [simpl in Hf; lia|]); cbn [scan_loop].
  - cbn [fmap list_fmap concat] in *. rewrite app_nil_l, app_nil_r in *. rewrite <- !app_assoc in *.
    unfold scan_turn. rewrite find_line_at by done. rewrite substr_at, Hl0 by lia. cbn [Z.eqb].
    replace (length pre + length last + 2) with (length (pre ++ last ++ CRLF))
      by (rewrite !length_app; simpl; lia).
    do 2 f_equal. set (n := S (length _)).
    assert (length trailers < n) as Hn.
    { subst n. rewrite !length_app. clear -Ht. induction Ht as [|t ts [_ Ht] _ IHt]; [simpl; lia|].
      rewrite fmap_cons. cbn [concat length]. rewrite !length_app. destruct t; [done|]. simpl. simpl in IHt. lia. }
    clearbody n. pose proof (scan_trailer_wire trailers n (pre ++ last ++ CRLF) rest Ht Hn) as E.
    cbv zeta in E. by rewrite <- !app_assoc in E.
  - rewrite fmap_cons in *. cbn [concat] in *. rewrite <- !app_assoc in *. rewrite scan_turn_wire by done.
    specialize (IH fuel (pre ++ chunk_wire c) (d ++ c.2)). rewrite <- !app_assoc in IH.
    rewrite IH; [|done|simpl in Hf; lia]. rewrite fmap_cons. cbn [concat]. done.
Qed.

Lemma scan_turn_complete buf pos e : scan_turn buf pos = Stop (Complete e) → e ≤ length buf.
Proof.
  unfold scan_turn. repeat (case_match; try discriminate); intros [= Ht];
    by apply (scan_trailer_le (S (length buf)) buf _ e) in Ht.
Qed.

Lemma scan_loop_complete fuel buf pos d e d' :
  scan_loop fuel buf pos d = Some (Complete e, d') → e ≤ length buf.
Proof.
  revert pos d. induction fuel as [|fuel IH]; intros pos d; simpl; [done|].
  destruct (scan_turn buf pos) as [r|] eqn:E; [|apply IH]. intros [= -> <-].
  by eapply scan_turn_complete.
Qed.

(** A well-formed chunked body (any sizes, extensions and trailer fields)
    is decoded to its data, the end found is the end of the body, whatever
    follows it, and on every proper part of it the scan asks for more bytes. *)
Theorem scan_chunked_decodes pre chunks last trailers rest :
  let wire := chunked_wire chunks last trailers in
  Forall wf_chunk chunks → is_line last → chunk_line_size last = Some 0%Z → Forall wf_trailer trailers →
  (size (pre ++ wire ++ rest) < 2 ^ 63)%Z →
  scan_chunked_body (pre ++ wire ++ rest) (length pre) =
    Some (Complete (length (pre ++ wire)), concat chunks.*2) ∧
  ∀ part more, wire = part ++ more → more ≠ [] →
    fst <$> scan_chunked_body (pre ++ part) (length pre) = Some Incomplete.
Proof.
  intros wire Hc Hl Hl0 Ht Hsz.
  assert (∀ rest', (size (pre ++ wire ++ rest') < 2 ^ 63)%Z →
    scan_chunked_body (pre ++ wire ++ rest') (length pre) =
    Some (Complete (length (pre ++ wire)), concat chunks.*2)) as H.
  { intros rest' Hsz'. apply (scan_chunked_body_fuel (S (length chunks))); [rewrite length_app; lia|].
    rewrite (scan_loop_wire chunks last trailers) by (done || lia). done. }
  split; [by apply H|]. intros part more Hw Hm.
  assert (size (pre ++ wire ++ []) < 2 ^ 63)%Z as Hsz0.
  { rewrite app_nil_r. rewrite !size_app in *. pose proof (size_nonneg rest). lia. }
  pose proof (H [] Hsz0) as Hfull. rewrite app_nil_r, Hw, app_assoc in Hfull, Hsz0.
  destruct (decide (fst <$> scan_chunked_body (pre ++ part) (length pre) = Some Incomplete)) as [|Hno]; [done|].
  apply (scan_verdict_app _ more) in Hno; [|rewrite length_app; lia|done].
  rewrite Hfull in Hno. destruct (scan_chunked_body (pre ++ part) _) as [[r d]|] eqn:E; [|done].
  simpl in Hno. simplify_eq. apply scan_loop_complete in E. destruct more; [done|].
  rewrite !length_app in E. simpl in E. lia.
Qed.

Lemma scan_chunked_hangs_witness :
  let pre := lit "HTTP/1.1 200 OK" ++ CRLF ++ "Transfer-Encoding: chunked" ++ CRLF in
  scan_loop 1000 ((pre ++ CRLF) ++ looping_line ++ CRLF ++ []) (length (pre ++ CRLF)) [] = None.
Proof.
  exact (scan_chunked_hangs (lit "HTTP/1.1 200 OK" ++ CRLF ++ "Transfer-Encoding: chunked" ++ CRLF)
           [] 1000 [] eq_refl).
Defined.

Lemma scan_chunked_decodes_witness :
  let wire := chunked_wire [(lit "3;q=1", lit "abc"); (lit "A", lit "0123456789")] "000" [lit "X: y"] in
  scan_chunked_body (CRLF ++ wire ++ "HTTP") 2 =
    Some (Complete (length (CRLF ++ wire)), lit "abc0123456789").
Proof.
  apply (scan_chunked_decodes CRLF [(lit "3;q=1", lit "abc"); (lit "A", lit "0123456789")]
           "000" [lit "X: y"] "HTTP"); evaluate.
Defined.
