(* ===== verification/TlsContexts.v ===== *)
(** TLS contexts: [src/common/tls_utils.cpp], [src/server/tls_context.cpp],
    [src/common/client_tls.cpp] and the cache [get_upstream_ssl_ctx] of
    [src/server/http_client.cpp]. OpenSSL's setters are recorded in the context;
    whether a call succeeds is an answer. *)

From S2P Require Import Prelude HttpClient.

#[local] Open Scope Z_scope.
#[local] Open Scope gateway_scope.

(** * Contexts *)

Inductive verify_mode := VERIFY_NONE | VERIFY_PEER.

(** [None] in a field: left as the library creates it. *)
Record SslCtx := mkCtx {
  cx_min_proto : option bytes;
  cx_no_compression : bool;
  cx_ciphers : option bytes;
  cx_session_cache : bool;
  cx_tickets : option Z;
  cx_certificate : option bytes;
  cx_private_key : option bytes;
  cx_verify : verify_mode;
  cx_ca_file : option bytes;
  cx_default_paths : bool;
}.

Definition ctx_new : SslCtx := mkCtx None false None false None None None VERIFY_NONE None false.

(** The calls that can fail. *)
Inductive ssl_call :=
| CallNew
| CallMinProto
| CallCiphers
| CallCertificate (path : bytes)
| CallPrivateKey (path : bytes)
| CallCheckKey
| CallLoadVerify (path : bytes)
| CallDefaultPaths.

Definition kCipherWhitelist : bytes :=
  lit "ECDHE-ECDSA-AES256-GCM-SHA384:ECDHE-RSA-AES256-GCM-SHA384:ECDHE-ECDSA-CHACHA20-POLY1305:" ++
  "ECDHE-RSA-CHACHA20-POLY1305:ECDHE-ECDSA-AES128-GCM-SHA256:ECDHE-RSA-AES128-GCM-SHA256".

Section build.
  (** The outcome of each call, and the reason OpenSSL gives for a failure. *)
  Context (ok : ssl_call → bool) (reason : ssl_call → bytes).

(** The context, or the error. *)
Definition apply_tls_hardening (ctx : option SslCtx) : SslCtx + bytes :=
  match ctx with
  | None => inr (lit "null SSL_CTX")
  | Some ctx =>
  if negb (ok CallMinProto) then inr (lit "cannot set minimum TLS version")
  else
    let ctx := ctx{{cx_min_proto := Some (lit "TLS1.2"); cx_no_compression := true}} in
    if negb (ok CallCiphers) then inr (lit "cipher whitelist rejected by OpenSSL")
    else inl (ctx{{cx_ciphers := Some kCipherWhitelist}})
  end.

(** [SSL_CTX_free], on the number of contexts that are alive. *)
Definition ctx_free (alive : Z) : Z := alive - 1.

(** The number of contexts that are alive afterwards comes with the result. *)
Definition build_hardened_ssl_ctx (cert_path key_path : bytes) : (SslCtx + bytes) * Z :=
  if negb (ok CallNew) then (inr (lit "SSL_CTX_new failed"), 0)
  else
    match apply_tls_hardening (Some ctx_new) with
    | inr e => (inr e, ctx_free 1)
    | inl ctx =>
      let ctx := ctx{{cx_session_cache := true; cx_tickets := Some 2}} in
      if negb (ok (CallCertificate cert_path)) then
        (inr ("cannot load certificate '" ++ cert_path ++ "': " ++ reason (CallCertificate cert_path)), ctx_free 1)
      else
        let ctx := ctx{{cx_certificate := Some cert_path}} in
        if negb (ok (CallPrivateKey key_path)) then
          (inr ("cannot load private key '" ++ key_path ++ "': " ++ reason (CallPrivateKey key_path)), ctx_free 1)
        else
          let ctx := ctx{{cx_private_key := Some key_path}} in
          if negb (ok CallCheckKey) then (inr (lit "private key does not match the certificate"), ctx_free 1)
          else (inl ctx, 1)
    end.

Record ClientTlsConfig := mkClientTls {
  ct_enable_tls : bool;
  ct_insecure : bool;
  ct_ca_path : bytes;
  ct_verify_host : bytes;
}.

Definition build_client_ssl_ctx (cfg : ClientTlsConfig) : (SslCtx + bytes) * Z :=
  if negb (ok CallNew) then (inr (lit "SSL_CTX_new failed"), 0)
  else
    match apply_tls_hardening (Some ctx_new) with
    | inr e => (inr e, ctx_free 1)
    | inl ctx =>
      let ctx := ctx{{cx_verify := if ct_insecure cfg then VERIFY_NONE else VERIFY_PEER}} in
      if ct_insecure cfg then (inl ctx, 1)
      else if negb (is_empty (ct_ca_path cfg)) then
        if negb (ok (CallLoadVerify (ct_ca_path cfg))) then
          (inr ("cannot load CA file '" ++ ct_ca_path cfg ++ "': " ++ reason (CallLoadVerify (ct_ca_path cfg))), ctx_free 1)
        else (inl (ctx{{cx_ca_file := Some (ct_ca_path cfg)}}), 1)
      else if negb (ok CallDefaultPaths) then
        (inr ("cannot load the system default CA store: " ++ reason CallDefaultPaths), ctx_free 1)
      else (inl (ctx{{cx_default_paths := true}}), 1)
    end.
End build.

(** * The cache of upstream contexts *)

Definition ctx_key (tls : UpstreamTlsOptions) : bytes :=
  (if skip_verify tls then lit "1|" else lit "0|") ++ ca_file tls ++ "|" ++ server_name tls.

(** Under the lock. *)
Definition get_upstream_ssl_ctx (ok : ssl_call → bool) (tls : UpstreamTlsOptions) (cache : gmap bytes SslCtx)
    : option SslCtx * gmap bytes SslCtx :=
  match cache !! ctx_key tls with
  | Some ctx => (Some ctx, cache)
  | None =>
    match (build_client_ssl_ctx ok (λ _, []) (mkClientTls true (skip_verify tls) (ca_file tls) (server_name tls))).1 with
    | inl ctx => (Some ctx, <[ctx_key tls := ctx]> cache)
    | inr _ => (None, cache)
    end
  end.

(** * Properties *)

Definition hardened (ctx : SslCtx) : Prop :=
  cx_min_proto ctx = Some (lit "TLS1.2") ∧ cx_no_compression ctx = true ∧ cx_ciphers ctx = Some kCipherWhitelist.

(** What a client may rely on: without the peer's certificate being checked only if
    that was asked for, and against the trust anchors that were asked for. *)
Definition verifies (insecure : bool) (ca : bytes) (ctx : SslCtx) : Prop :=
  if insecure then cx_verify ctx = VERIFY_NONE
  else cx_verify ctx = VERIFY_PEER ∧ if is_empty ca then cx_default_paths ctx = true ∧ cx_ca_file ctx = None else cx_ca_file ctx = Some ca.

Lemma hardening_spec ok ctx ctx' :
  apply_tls_hardening ok (Some ctx) = inl ctx' →
  hardened ctx' ∧ cx_verify ctx' = cx_verify ctx ∧ cx_ca_file ctx' = cx_ca_file ctx.
Proof. unfold apply_tls_hardening. destruct (ok CallMinProto), (ok CallCiphers); try done. intros [= <-]. by destruct ctx. Qed.

Lemma client_ctx_spec ok reason cfg :
  match build_client_ssl_ctx ok reason cfg with
  | (inl ctx, n) => n = 1 ∧ hardened ctx ∧ verifies (ct_insecure cfg) (ct_ca_path cfg) ctx
  | (inr _, n) => n = 0
  end.
Proof.
  unfold build_client_ssl_ctx. destruct (ok CallNew); cbn [negb]; [|done].
  destruct (apply_tls_hardening ok (Some ctx_new)) as [ctx|] eqn:E; [|done]. apply hardening_spec in E as ([E1 [E2 E3] ] & Ev & Ec).
  unfold verifies. destruct ctx. cbn in *. subst. destruct (ct_insecure cfg); [by split_and!|].
  destruct (is_empty (ct_ca_path cfg)); cbn [negb].
  - destruct (ok CallDefaultPaths); cbn [negb]; [by split_and!|done].
  - destruct (ok (CallLoadVerify (ct_ca_path cfg))); cbn [negb]; [by split_and!|done].
Qed.

Lemma server_ctx_spec ok reason cert key :
  match build_hardened_ssl_ctx ok reason cert key with
  | (inl ctx, n) => n = 1 ∧ hardened ctx ∧ cx_certificate ctx = Some cert ∧ cx_private_key ctx = Some key ∧ ok CallCheckKey = true
  | (inr _, n) => n = 0
  end.
Proof.
  unfold build_hardened_ssl_ctx. destruct (ok CallNew); cbn [negb]; [|done].
  destruct (apply_tls_hardening ok (Some ctx_new)) as [ctx|] eqn:E; [|done]. apply hardening_spec in E as ([E1 [E2 E3] ] & _).
  destruct ctx. cbn in *. subst. destruct (ok (CallCertificate cert)); cbn [negb]; [|done].
  destruct (ok (CallPrivateKey key)); cbn [negb]; [|done]. destruct (ok CallCheckKey); cbn [negb]; [by split_and!|done].
Qed.

(** Every call gets its context: the one in the cache, or a new one. *)
Fixpoint requests_ctx (ok : nat → ssl_call → bool) (n : nat) (calls : list UpstreamTlsOptions) (cache : gmap bytes SslCtx)
    : list (option SslCtx) * gmap bytes SslCtx :=
  match calls with
  | [] => ([], cache)
  | tls :: calls' =>
    let '(ctx, cache) := get_upstream_ssl_ctx (ok n) tls cache in
    let '(rest, cache) := requests_ctx ok (S n) calls' cache in (ctx :: rest, cache)
  end.

(** The name of a file without the separator. *)
Definition plain_ca (tls : UpstreamTlsOptions) : Prop := "|"%char ∉ ca_file tls.

Lemma ctx_key_inj tls tls' :
  plain_ca tls → plain_ca tls' → ctx_key tls = ctx_key tls' →
  skip_verify tls = skip_verify tls' ∧ ca_file tls = ca_file tls' ∧ server_name tls = server_name tls'.
Proof.
  unfold plain_ca, ctx_key. intros H1 H2 E. destruct (skip_verify tls), (skip_verify tls'); try done;
    injection E as E; apply split_first in E as [-> ->]; done.
Qed.

(** A cache whose contexts have the policy of their keys. *)
Definition cache_sound (cache : gmap bytes SslCtx) : Prop :=
  ∀ tls ctx, plain_ca tls → cache !! ctx_key tls = Some ctx → hardened ctx ∧ verifies (skip_verify tls) (ca_file tls) ctx.

Lemma get_ctx_sound ok tls cache ctx cache' :
  cache_sound cache → plain_ca tls → get_upstream_ssl_ctx ok tls cache = (ctx, cache') →
  cache_sound cache' ∧ match ctx with Some ctx => hardened ctx ∧ verifies (skip_verify tls) (ca_file tls) ctx | None => True end.
Proof.
  intros Hs Hp. unfold get_upstream_ssl_ctx. destruct (cache !! ctx_key tls) as [c|] eqn:E.
  - intros [= <- <-]. split; [done|]. by apply Hs.
  - pose proof (client_ctx_spec ok (λ _, []) (mkClientTls true (skip_verify tls) (ca_file tls) (server_name tls))) as Hc.
    destruct (build_client_ssl_ctx _ _ _) as [ [c|e] n]; cbn [fst]; intros [= <- <-]; [|done]. destruct Hc as (_ & Hh & Hv).
    split; [|done]. intros tls' ctx' Hp' [ [Ek <-]|[_ E'] ]%lookup_insert_Some; [|by apply Hs].
    apply ctx_key_inj in Ek as (<- & <- & _); [done|done|done].
Qed.


