(* ===== verification/Metrics.v ===== *)
(** [src/server/metrics.cpp]: the counters and histograms, updated by atomic
    operations, and the text they are exposed in. *)

From Stdlib Require Import Floats.SpecFloat.
From S2P Require Import Prelude Double HttpClient.

#[local] Open Scope Z_scope.
#[local] Open Scope gateway_scope.

(** * Counters *)

Inductive counter :=
| total_requests_ | requests_2xx_ | requests_3xx_ | requests_4xx_ | requests_5xx_
| timeout_errors | auth_failures | rate_limit_hits
| duration_count_ | duration_buckets_ (i : nat)
| cache_hits_ | cache_misses_ | fd_cache_hits_ | fd_cache_misses_ | gzip_cache_hits_ | gzip_cache_misses_
| connections_active_ | connections_rejected_ | upstream_error_counts_ (i : nat).

#[global] Instance counter_eq_dec : EqDecision counter.
Proof. solve_decision. Defined.

(** The atomics of the object, or of one [RouteMetricSample]. *)
Record Bank := mkBank { load : counter → Z; duration_sum_ : double }.

Definition bank_init : Bank := mkBank (λ _, 0) dzero.

(** [fetch_add(1)]; the exchange that succeeds in a loop of
    [compare_exchange_weak]; [store]. *)
Inductive atomic := FetchAdd (c : counter) | AddSum (d : double) | Store (c : counter) (v : Z).

Definition update (c : counter) (v : Z) (load : counter → Z) : counter → Z := λ c', if c' == c then v else load c'.

Definition exec (b : Bank) (a : atomic) : Bank :=
  match a with
  | FetchAdd c => mkBank (update c (wrap64 (load b c + 1)) (load b)) (duration_sum_ b)
  | AddSum d => mkBank (load b) (dadd (duration_sum_ b) d)
  | Store c v => mkBank (update c v (load b)) (duration_sum_ b)
  end.

Definition run_atomics (ops : list atomic) (b : Bank) : Bank := foldl exec b ops.

(** * Recording *)

(** [bucket_boundaries_]: a thousandth each. *)
Definition boundary_ms : list Z := [5; 10; 25; 50; 100; 250; 500; 1000; 2500; 5000; 10000].
Definition bucket_boundaries_ : list double := (λ ms, of_ratio ms 1000) <$> boundary_ms.

Definition record_total_request : list atomic := [FetchAdd total_requests_].

Definition class_of (status_code : Z) : list atomic :=
  if (200 <=? status_code) && (status_code <? 300) then [FetchAdd requests_2xx_]
  else if (300 <=? status_code) && (status_code <? 400) then [FetchAdd requests_3xx_]
  else if (400 <=? status_code) && (status_code <? 500) then [FetchAdd requests_4xx_]
  else if 500 <=? status_code then [FetchAdd requests_5xx_]
  else [].

Fixpoint bucket_atomics (i : nat) (boundaries : list double) (duration_seconds : double) : list atomic :=
  match boundaries with
  | [] => []
  | b :: boundaries' =>
    (if dle duration_seconds b then [FetchAdd (duration_buckets_ i)] else []) ++
    bucket_atomics (S i) boundaries' duration_seconds
  end.

(** The sum, the count, the buckets, and the last one. *)
Definition duration_atomics (duration_seconds : double) : list atomic :=
  [AddSum duration_seconds; FetchAdd duration_count_] ++
  bucket_atomics 0 bucket_boundaries_ duration_seconds ++
  [FetchAdd (duration_buckets_ (length bucket_boundaries_))].

Definition record_request (status_code : Z) (duration_seconds : double) : list atomic :=
  class_of status_code ++ duration_atomics duration_seconds.

Definition route_atomics (status_code : Z) (duration_seconds : double) : list atomic :=
  [FetchAdd total_requests_] ++ class_of status_code ++
  (if (status_code =? 504) || (status_code =? 503) || (status_code =? 502) then [FetchAdd timeout_errors] else []) ++
  (if status_code =? 401 then [FetchAdd auth_failures] else []) ++
  (if status_code =? 429 then [FetchAdd rate_limit_hits] else []) ++
  duration_atomics duration_seconds.

Definition route_tag (route_name host tenant : bytes) : bytes := route_name ++ "|" ++ host ++ "|" ++ tenant.

(** Under [route_metrics_mutex_]. *)
Definition record_route_request (route_name host tenant : bytes) (status_code : Z) (duration_seconds : double)
    (route_metrics : gmap bytes Bank) : gmap bytes Bank :=
  let tag := route_tag route_name host tenant in
  <[tag := run_atomics (route_atomics status_code duration_seconds) (default bank_init (route_metrics !! tag))]> route_metrics.

Definition record_cache_hit : list atomic := [FetchAdd cache_hits_].
Definition record_cache_miss : list atomic := [FetchAdd cache_misses_].
Definition record_fd_cache_hit : list atomic := [FetchAdd fd_cache_hits_].
Definition record_fd_cache_miss : list atomic := [FetchAdd fd_cache_misses_].
Definition record_gzip_cache_hit : list atomic := [FetchAdd gzip_cache_hits_].
Definition record_gzip_cache_miss : list atomic := [FetchAdd gzip_cache_misses_].

(** The enumerators, in their order. *)
Definition error_index (e : BackendError) : nat :=
  match e with
  | ErrorNone => 0 | ConnectFailed => 1 | ConnectTimeout => 2 | WriteFailed => 3
  | WriteTimeout => 4 | ReadFailed => 5 | ReadTimeout => 6 | InvalidResponse => 7
  end.

Definition record_upstream_error (e : BackendError) : list atomic :=
  if e == ErrorNone then []
  else if Nat.ltb (error_index e) 8 then [FetchAdd (upstream_error_counts_ (error_index e))] else [].

Definition set_active_connections (count : Z) : list atomic := [Store connections_active_ count].
Definition record_connection_rejected : list atomic := [FetchAdd connections_rejected_].

Record Snapshot := mkSnapshot {
  sn_total_requests : Z;
  sn_requests_2xx : Z;
  sn_requests_3xx : Z;
  sn_requests_4xx : Z;
  sn_requests_5xx : Z;
  sn_duration_sum : double;
  sn_duration_count : Z;
}.

Definition snapshot (b : Bank) : Snapshot :=
  mkSnapshot (load b total_requests_) (load b requests_2xx_) (load b requests_3xx_) (load b requests_4xx_)
    (load b requests_5xx_) (duration_sum_ b) (load b duration_count_).

(** * Printing a [double] *)

(** [operator<<] with six significant digits, as the C format [%g]. The value is
    the fraction [n / d]. *)

Fixpoint shift_up (fuel : nat) (k n d : Z) : Z :=
  match fuel with
  | O => k
  | S fuel' => if d <=? n * 10 ^ k then k else shift_up fuel' (k + 1) n d
  end.

(** The exponent of the first digit; a [double] is above [10 ^ -324]. *)
Definition decimal_exponent (n d : Z) : Z :=
  if d <=? n then size (to_string (n / d)) - 1 else - shift_up 324 1 n d.

Definition round_div (n d : Z) : Z :=
  let q := n / d in
  let r := n mod d in
  if 2 * r <? d then q else if d <? 2 * r then q + 1 else if Z.even q then q else q + 1.

(** Six digits and the exponent of the first. *)
Definition six_digits (n d : Z) : Z * Z :=
  let x := decimal_exponent n d in
  let q := if 5 <=? x then round_div n (d * 10 ^ (x - 5)) else round_div (n * 10 ^ (5 - x)) d in
  if q =? 10 ^ 6 then (10 ^ 5, x + 1) else (q, x).

Fixpoint drop_zeros (s : bytes) : bytes :=
  match s with c :: s' => if c == "0"%char then drop_zeros s' else s | [] => [] end.

Definition strip_zeros (s : bytes) : bytes := reverse (drop_zeros (reverse s)).

Definition with_point (int frac : bytes) : bytes := if is_empty frac then int else int ++ "." ++ frac.

Definition format_fraction (n d : Z) : bytes :=
  let '(q, x) := six_digits n d in
  let digits := to_string q in
  if (x <? -4) || (6 <=? x) then
    with_point (take 1 digits) (strip_zeros (drop 1 digits)) ++ "e" ++ (if x <? 0 then lit "-" else lit "+") ++
    (if Z.abs x <? 10 then lit "0" else []) ++ to_string (Z.abs x)
  else if 0 <=? x then
    with_point (take (Z.to_nat (x + 1)) digits) (strip_zeros (drop (Z.to_nat (x + 1)) digits))
  else with_point "0" (replicate (Z.to_nat (- x - 1)) "0"%char ++ strip_zeros digits).

Definition format_double (x : double) : bytes :=
  match x with
  | S754_zero s => (if s then lit "-" else []) ++ "0"
  | S754_infinity s => (if s then lit "-" else []) ++ "inf"
  | S754_nan => "nan"
  | S754_finite s m e =>
    (if s then lit "-" else []) ++
    (if e <? 0 then format_fraction (Z.pos m) (2 ^ (- e)) else format_fraction (Z.pos m * 2 ^ e) 1)
  end.

(** * Exposition *)

Definition DQ : ascii := "034"%char.
Definition quoted (s : bytes) : bytes := DQ :: s ++ [DQ].
Definition text_line (parts : list bytes) : bytes := concat parts ++ [LF].

Definition help (name doc kind : bytes) : bytes :=
  text_line [lit "# HELP "; name; lit " "; doc] ++ text_line [lit "# TYPE "; name; lit " "; kind].

Definition le_label (i : nat) : bytes :=
  match bucket_boundaries_ !! i with Some b => format_double b | None => "+Inf" end.

(** One family with a single sample. *)
Definition plain (name doc kind : bytes) (v : Z) : bytes := help name doc kind ++ text_line [name; lit " "; to_string v].

Definition code_line (name labels code : bytes) (v : Z) : bytes :=
  text_line [name; lit "{"; labels; lit "code="; quoted code; lit "} "; to_string v].

Definition code_lines (name labels : bytes) (b : Bank) : bytes :=
  code_line name labels "2xx" (load b requests_2xx_) ++ code_line name labels "3xx" (load b requests_3xx_) ++
  code_line name labels "4xx" (load b requests_4xx_) ++ code_line name labels "5xx" (load b requests_5xx_).

Definition bucket_line (name labels : bytes) (b : Bank) (i : nat) : bytes :=
  text_line [name; lit "_bucket{"; labels; lit "le="; quoted (le_label i); lit "} "; to_string (load b (duration_buckets_ i))].

(** Every bucket, [+Inf] last. *)
Definition bucket_lines (name labels : bytes) (b : Bank) : bytes := concat (bucket_line name labels b <$> seq 0 12).

Definition error_names : list bytes :=
  [lit "none"; lit "connect_failed"; lit "connect_timeout"; lit "write_failed"; lit "write_timeout"; lit "read_failed";
   lit "read_timeout"; lit "invalid_response"].

Definition error_line (b : Bank) (i : nat) : bytes :=
  text_line [lit "epoll_upstream_errors_total{type="; quoted (default [] (error_names !! i)); lit "} ";
             to_string (load b (upstream_error_counts_ i))].

(** The three parts of a tag: up to the first separator, between the first and
    the last, after the last. With one separator the count wraps around and the
    second part is all that follows it. *)
Definition parse_tag (key : bytes) : bytes * bytes * bytes :=
  match find_char "|" key, rfind_char "|" key with
  | Some sep1, Some sep2 => (take sep1 key, if Nat.eqb sep1 sep2 then drop (S sep1) key else substr (S sep1) (sep2 - sep1 - 1) key, drop (S sep2) key)
  | _, _ => (key, lit "-", lit "-")
  end.

Definition route_labels (key : bytes) : bytes :=
  let '(route_name, host, tenant) := parse_tag key in
  lit "route=" ++ quoted route_name ++ ",host=" ++ quoted host ++ ",tenant=" ++ quoted tenant.

Definition labelled (name labels : bytes) (v : bytes) : bytes := text_line [name; lit "{"; labels; lit "} "; v].

Definition route_lines (key : bytes) (b : Bank) : bytes :=
  let labels := route_labels key in
  let more := labels ++ "," in
  code_lines "epoll_route_requests_total" more b ++
  labelled "epoll_route_upstream_errors_total" labels (to_string (load b timeout_errors)) ++
  labelled "epoll_route_auth_failures_total" labels (to_string (load b auth_failures)) ++
  labelled "epoll_route_rate_limit_hits_total" labels (to_string (load b rate_limit_hits)) ++
  bucket_lines "epoll_route_request_duration_seconds" more b ++
  labelled "epoll_route_request_duration_seconds_sum" labels (format_double (duration_sum_ b)) ++
  labelled "epoll_route_request_duration_seconds_count" labels (to_string (load b duration_count_)).

Definition metrics_to_string `{HashOrder} (b : Bank) (route_metrics : gmap bytes Bank) : bytes :=
  help "epoll_http_requests_total" "Total number of HTTP requests" "counter" ++
  code_lines "epoll_http_requests_total" [] b ++
  text_line [lit "epoll_http_requests_total_total "; to_string (load b total_requests_)] ++
  help "epoll_http_request_duration_seconds" "Request duration in seconds" "histogram" ++
  bucket_lines "epoll_http_request_duration_seconds" [] b ++
  text_line [lit "epoll_http_request_duration_seconds_sum "; format_double (duration_sum_ b)] ++
  text_line [lit "epoll_http_request_duration_seconds_count "; to_string (load b duration_count_)] ++
  plain "epoll_cache_hits_total" "Total cache hits" "counter" (load b cache_hits_) ++
  plain "epoll_cache_misses_total" "Total cache misses" "counter" (load b cache_misses_) ++
  plain "epoll_fd_cache_hits_total" "Total fd cache hits" "counter" (load b fd_cache_hits_) ++
  plain "epoll_fd_cache_misses_total" "Total fd cache misses" "counter" (load b fd_cache_misses_) ++
  plain "epoll_gzip_cache_hits_total" "Total gzip cache hits" "counter" (load b gzip_cache_hits_) ++
  plain "epoll_gzip_cache_misses_total" "Total gzip cache misses" "counter" (load b gzip_cache_misses_) ++
  plain "epoll_connections_active" "Currently open client connections" "gauge" (load b connections_active_) ++
  plain "epoll_connections_rejected_total" "Connections shed because max_connections was reached" "counter"
    (load b connections_rejected_) ++
  help "epoll_upstream_errors_total" "Upstream proxy errors by type" "counter" ++
  concat (error_line b <$> seq 1 7) ++
  help "epoll_route_requests_total" "Route-level request totals by route, host, tenant" "counter" ++
  help "epoll_route_upstream_errors_total" "Route-level upstream (502/503/504) errors" "counter" ++
  help "epoll_route_auth_failures_total" "Route-level authentication failures" "counter" ++
  help "epoll_route_rate_limit_hits_total" "Route-level rate-limit rejections" "counter" ++
  help "epoll_route_request_duration_seconds" "Route-level request duration in seconds" "histogram" ++
  concat ((λ '(key, sample), route_lines key sample) <$> iter route_metrics) ++
  text_line [lit "# EOF"].
