(* ===== verification/MetricsProperties.v ===== *)
(** The counters are exact whatever the interleaving, the histograms cumulative,
    and a route's samples are those of its requests. *)

From Stdlib Require Import Floats.SpecFloat.
From S2P Require Import Prelude Double HttpClient Metrics.

#[local] Open Scope Z_scope.
#[local] Open Scope gateway_scope.

(** * Counting *)

Definition how_many {A} (p : A → bool) (l : list A) : Z := Z.of_nat (length (List.filter p l)).

Section counting.
  Context {A : Type}.
  Implicit Types (p q : A → bool) (l : list A).

Lemma how_many_cons p x l : how_many p (x :: l) = (if p x then 1 else 0) + how_many p l.
Proof. unfold how_many. cbn. destruct (p x); cbn; lia. Qed.

Lemma how_many_app p l1 l2 : how_many p (l1 ++ l2) = how_many p l1 + how_many p l2.
Proof. induction l1 as [|x l1 IH]; [done|]. cbn [app]. rewrite !how_many_cons, IH. lia. Qed.

Lemma how_many_nonneg p l : 0 <= how_many p l.
Proof. unfold how_many. lia. Qed.

Lemma how_many_mono p q l : (∀ x, p x = true → q x = true) → how_many p l <= how_many q l.
Proof.
  intros Hpq. induction l as [|x l IH]; [done|]. rewrite !how_many_cons. specialize (Hpq x).
  destruct (p x); [rewrite Hpq by done|destruct (q x)]; lia.
Qed.

Lemma how_many_le p l : how_many p l <= Z.of_nat (length l).
Proof. induction l as [|x l IH]; [done|]. rewrite how_many_cons. cbn [length]. destruct (p x); lia. Qed.

Lemma how_many_all l : how_many (λ _, true) l = Z.of_nat (length l).
Proof. induction l as [|x l IH]; [done|]. rewrite how_many_cons, IH. cbn [length]. lia. Qed.

#[global] Instance how_many_proper p : Proper ((≡ₚ) ==> eq) (how_many p).
Proof. induction 1 as [| | |? ? ? ? IH1 ? IH2]; rewrite ?how_many_cons; [done|lia|lia|by rewrite IH1]. Qed.

Lemma how_many_ext p q l : (∀ x, p x = q x) → how_many p l = how_many q l.
Proof. intros E. induction l as [|x l IH]; [done|]. by rewrite !how_many_cons, IH, E. Qed.
End counting.

(** * Atomic operations *)

Definition adds (c : counter) (ops : list atomic) : Z :=
  how_many (λ a, match a with FetchAdd c' => c' == c | _ => false end) ops.

Definition add_only (ops : list atomic) : Prop := Forall (λ a, match a with Store _ _ => False | _ => True end) ops.

Lemma add_only_perm ops ops' : ops ≡ₚ ops' → add_only ops' → add_only ops.
Proof. unfold add_only. by intros ->. Qed.

(** A counter grows by the number of its increments, modulo [2 ^ 64]. *)
Lemma run_atomics_load ops b c :
  add_only ops → 0 <= load b c <= SIZE_MAX → load (run_atomics ops b) c = wrap64 (load b c + adds c ops).
Proof.
  unfold run_atomics. revert b. induction ops as [|a ops IH]; intros b Ha Hb.
  { cbn. unfold adds, how_many, wrap64, SIZE_MAX in *. cbn. rewrite Z.add_0_r, Z.mod_small; lia. }
  inv Ha as [|? ? Ha1 Ha2]. cbn [foldl]. unfold adds in *. rewrite how_many_cons. destruct a as [c'|d|]; [|rewrite IH by done; f_equal; cbn; lia|done].
  cbn [exec]. rewrite IH; [|done|]; cbn [load]; unfold update.
  - destruct (decide (c' = c)) as [->|Hne].
    + rewrite !bool_decide_eq_true_2 by done. unfold wrap64. rewrite Zplus_mod_idemp_l. f_equal; lia.
    + rewrite !bool_decide_eq_false_2 by done. f_equal; lia.
  - case_bool_decide; [|done]. pose proof (Z.mod_pos_bound (load b c' + 1) (2 ^ 64)). unfold wrap64, SIZE_MAX. lia.
Qed.

(** A batch of calls, each with its own operations. *)
Lemma adds_concat {A} (f : A → list atomic) c (p : A → bool) (calls : list A) :
  (∀ x, adds c (f x) = if p x then 1 else 0) → adds c (concat (f <$> calls)) = how_many p calls.
Proof.
  intros Hf. induction calls as [|x calls IH]; [done|]. rewrite fmap_cons. cbn [concat]. unfold adds in *.
  by rewrite how_many_app, Hf, IH, how_many_cons.
Qed.

Lemma adds_app c ops ops' : adds c (ops ++ ops') = adds c ops + adds c ops'.
Proof. apply how_many_app. Qed.

Lemma adds_one c c' : adds c [FetchAdd c'] = if c' == c then 1 else 0.
Proof. unfold adds. rewrite how_many_cons. unfold how_many. cbn [List.filter length]. lia. Qed.

Lemma adds_same c : adds c [FetchAdd c] = 1.
Proof. by rewrite adds_one, bool_decide_eq_true_2. Qed.

Lemma adds_ne c c' : c' ≠ c → adds c [FetchAdd c'] = 0.
Proof. intros Hne. by rewrite adds_one, bool_decide_eq_false_2. Qed.

Lemma bucket_adds i boundaries d j :
  adds (duration_buckets_ j) (bucket_atomics i boundaries d) =
    if Nat.leb i j then match boundaries !! (j - i)%nat with Some b => if dle d b then 1 else 0 | None => 0 end else 0.
Proof.
  revert i. induction boundaries as [|b boundaries IH]; intros i; cbn [bucket_atomics].
  { destruct (Nat.leb i j); [|done]. by rewrite lookup_nil. }
  rewrite adds_app, IH. destruct (decide (i = j)) as [->|Hne].
  - rewrite Nat.leb_refl, Nat.sub_diag. assert (Nat.leb (S j) j = false) as -> by (apply Nat.leb_gt; lia). cbn [lookup list_lookup].
    destruct (dle d b); [by rewrite adds_same|done].
  - assert (adds (duration_buckets_ j) (if dle d b then [FetchAdd (duration_buckets_ i)] else []) = 0) as ->.
    { destruct (dle d b); [|done]. apply adds_ne. congruence. }
    destruct (Nat.leb_spec (S i) j), (Nat.leb_spec i j); try lia.
    by replace (j - i)%nat with (S (j - S i)) by lia.
Qed.

Lemma bucket_adds_other i boundaries d c : (∀ j, duration_buckets_ j ≠ c) → adds c (bucket_atomics i boundaries d) = 0.
Proof.
  intros Hc. revert i. induction boundaries as [|b boundaries IH]; intros i; [done|]. cbn [bucket_atomics].
  rewrite adds_app, IH. destruct (dle d b); [|done]. by rewrite adds_ne.
Qed.

Lemma bucket_add_only i boundaries d : add_only (bucket_atomics i boundaries d).
Proof.
  revert i. induction boundaries as [|b boundaries IH]; intros i; [by apply Forall_nil|]. cbn. apply Forall_app. split; [|apply IH].
  destruct (dle d b); by repeat constructor.
Qed.

(** The bucket a boundary belongs to; the last one takes everything. *)
Definition fits (i : nat) (d : double) : bool :=
  match bucket_boundaries_ !! i with Some b => dle d b | None => true end.

(** The operations of one duration, apart from the sum. *)
Lemma duration_adds c d :
  adds c (duration_atomics d) =
    adds c [FetchAdd duration_count_] + adds c (bucket_atomics 0 bucket_boundaries_ d) + adds c [FetchAdd (duration_buckets_ 11)].
Proof.
  unfold duration_atomics. change (length bucket_boundaries_) with 11%nat. rewrite !adds_app.
  change [AddSum d; FetchAdd duration_count_] with ([AddSum d] ++ [FetchAdd duration_count_]). rewrite adds_app.
  change (adds c [AddSum d]) with 0. lia.
Qed.

Lemma duration_adds_bucket d j : (j <= 11)%nat → adds (duration_buckets_ j) (duration_atomics d) = if fits j d then 1 else 0.
Proof.
  intros Hj. rewrite duration_adds, bucket_adds. unfold fits. cbn [Nat.leb]. rewrite Nat.sub_0_r, (adds_ne _ duration_count_) by done.
  destruct (decide (j = 11%nat)) as [->|Hne]; [done|]. rewrite adds_ne by congruence.
  destruct (bucket_boundaries_ !! j) eqn:E; [lia|].
  apply lookup_ge_None in E. change (length bucket_boundaries_) with 11%nat in E. lia.
Qed.

Lemma duration_adds_count d : adds duration_count_ (duration_atomics d) = 1.
Proof. by rewrite duration_adds, bucket_adds_other, adds_same, adds_ne. Qed.

Lemma duration_adds_other d c : duration_count_ ≠ c → (∀ j, duration_buckets_ j ≠ c) → adds c (duration_atomics d) = 0.
Proof. intros Hc Hj. by rewrite duration_adds, bucket_adds_other, !adds_ne. Qed.

Lemma duration_add_only d : add_only (duration_atomics d).
Proof. apply Forall_app. split; [by repeat constructor|]. apply Forall_app. split; [apply bucket_add_only|by repeat constructor]. Qed.

(** * Classes of status codes *)

Definition in_class (lo hi : Z) (status : Z) : bool := (lo <=? status) && (status <? hi).

Lemma class_adds c status :
  adds c (class_of status) =
    match c with
    | requests_2xx_ => if in_class 200 300 status then 1 else 0
    | requests_3xx_ => if in_class 300 400 status then 1 else 0
    | requests_4xx_ => if in_class 400 500 status then 1 else 0
    | requests_5xx_ => if 500 <=? status then 1 else 0
    | _ => 0
    end.
Proof.
  unfold class_of, in_class.
  destruct (Z.leb_spec 200 status), (Z.ltb_spec status 300), (Z.leb_spec 300 status), (Z.ltb_spec status 400),
    (Z.leb_spec 400 status), (Z.ltb_spec status 500), (Z.leb_spec 500 status); try lia; cbn [andb]; by destruct c.
Qed.

Lemma class_add_only status : add_only (class_of status).
Proof. unfold class_of. repeat case_match; by repeat constructor. Qed.

(** * Cumulative buckets *)

Definition is_positive (x : double) : bool := match x with S754_finite false _ _ => true | _ => false end.

Lemma dle_positive_trans d b1 b2 :
  is_positive b1 = true → is_positive b2 = true → dle b1 b2 = true → dle d b1 = true → dle d b2 = true.
Proof.
  destruct b1 as [| | |[] m1 e1], b2 as [| | |[] m2 e2]; try done. intros _ _. unfold dle.
  destruct d as [|[]| |[] m e]; cbn [SFcompare]; try done. change (Pos.compare_cont Eq) with Pos.compare.
  destruct (Z.compare_spec e e1), (Z.compare_spec e e2), (Z.compare_spec e1 e2); try done; try lia.
  destruct (Pos.compare_spec m m1), (Pos.compare_spec m m2), (Pos.compare_spec m1 m2); try done; lia.
Qed.

Lemma boundaries_increase :
  forallb (λ i, match bucket_boundaries_ !! i, bucket_boundaries_ !! S i with
    | Some b1, Some b2 => is_positive b1 && is_positive b2 && dle b1 b2 | _, _ => false end) (seq 0 10) = true.
Proof. by vm_compute. Qed.

Lemma fits_mono i d : (i < 11)%nat → fits i d = true → fits (S i) d = true.
Proof.
  intros Hi. unfold fits. destruct (decide (i = 10)%nat) as [->|Hne]; [done|].
  pose proof boundaries_increase as Hb. rewrite forallb_Forall, Forall_forall in Hb. specialize (Hb i). rewrite elem_of_seq in Hb.
  specialize (Hb ltac:(lia)). destruct (bucket_boundaries_ !! i), (bucket_boundaries_ !! S i); try done. apply andb_true_iff in Hb as [ [Hb1 Hb2]%andb_true_iff Hb3].
  by apply dle_positive_trans.
Qed.

(** * The properties *)

(** The counters of a batch of calls, whatever the order of their operations. *)
Lemma batch_load {A} (f : A → list atomic) (calls : list A) ops c (p : A → bool) :
  ops ≡ₚ concat (f <$> calls) → (∀ x, add_only (f x)) → Z.of_nat (length calls) <= SIZE_MAX →
  (∀ x, adds c (f x) = if p x then 1 else 0) → load (run_atomics ops bank_init) c = how_many p calls.
Proof.
  intros Hops Ha Hn Hp. rewrite run_atomics_load.
  - unfold adds at 1. rewrite Hops. fold (adds c (concat (f <$> calls))). rewrite (adds_concat f c p) by done. cbn [load bank_init].
    pose proof (how_many_le p calls). pose proof (how_many_nonneg p calls). unfold wrap64, SIZE_MAX in *. rewrite Z.mod_small; lia.
  - eapply add_only_perm; [exact Hops|]. apply Forall_concat, Forall_fmap, Forall_true. intros x. apply Ha.
  - cbn. unfold SIZE_MAX. lia.
Qed.

Lemma record_request_adds c status d : adds c (record_request status d) = adds c (class_of status) + adds c (duration_atomics d).
Proof. apply adds_app. Qed.

Lemma record_request_add_only status d : add_only (record_request status d).
Proof. apply Forall_app. split; [apply class_add_only|apply duration_add_only]. Qed.

(** C38: Several threads record requests, and their atomic operations interleave in
    any way, every order of them included. The counters end up exact: the count is
    the number of requests, each class counts the requests with a status in it,
    the bucket of a boundary counts the durations up to it, buckets never decrease
    from one boundary to the next, and the last one equals the count. *)
Theorem metrics_exact (requests : list (Z * double)) ops :
  ops ≡ₚ concat ((λ r, record_request r.1 r.2) <$> requests) → Z.of_nat (length requests) <= SIZE_MAX →
  let b := run_atomics ops bank_init in
  load b duration_count_ = Z.of_nat (length requests) ∧
  load b requests_2xx_ = how_many (λ r : Z * double, in_class 200 300 r.1) requests ∧
  load b requests_3xx_ = how_many (λ r : Z * double, in_class 300 400 r.1) requests ∧
  load b requests_4xx_ = how_many (λ r : Z * double, in_class 400 500 r.1) requests ∧
  load b requests_5xx_ = how_many (λ r : Z * double, 500 <=? r.1) requests ∧
  (∀ i, (i <= 11)%nat → load b (duration_buckets_ i) = how_many (λ r : Z * double, fits i r.2) requests) ∧
  (∀ i, (i < 11)%nat → load b (duration_buckets_ i) <= load b (duration_buckets_ (S i))) ∧
  load b (duration_buckets_ 11) = load b duration_count_.
Proof.
  intros Hops Hn b.
  assert (∀ c (p : Z * double → bool), (∀ r : Z * double, adds c (class_of r.1) + adds c (duration_atomics r.2) = if p r then 1 else 0) →
    load b c = how_many p requests) as Hl.
  { intros c p Hp. eapply batch_load; [exact Hops|intros; apply record_request_add_only|done|].
    intros r. cbv beta. rewrite record_request_adds. apply Hp. }
  assert (load b duration_count_ = Z.of_nat (length requests)) as Hc.
  { rewrite (Hl _ (λ _, true)); [apply how_many_all|]. intros r. by rewrite class_adds, duration_adds_count. }
  assert (∀ i, (i <= 11)%nat → load b (duration_buckets_ i) = how_many (λ r : Z * double, fits i r.2) requests) as Hb.
  { intros i Hi. apply Hl. intros r. by rewrite class_adds, duration_adds_bucket. }
  split_and!; [exact Hc|..|exact Hb| |].
  1-4: apply Hl; intros r; rewrite class_adds, duration_adds_other by done; apply Z.add_0_r.
  - intros i Hi. rewrite !Hb by lia. apply how_many_mono. intros r. by apply fits_mono.
  - rewrite Hb, Hc by lia. apply how_many_all.
Qed.

Lemma metrics_exact_witness :
  let ops := reverse (record_request 200 (of_ratio 3 100) ++ record_request 503 (of_Z 20)) in
  load (run_atomics ops bank_init) requests_5xx_ = 1 ∧ load (run_atomics ops bank_init) (duration_buckets_ 3) = 1.
Proof.
  destruct (metrics_exact [(200, of_ratio 3 100); (503, of_Z 20)]
    (reverse (record_request 200 (of_ratio 3 100) ++ record_request 503 (of_Z 20)))) as (_ & _ & _ & _ & E5 & Eb & _).
  - rewrite reverse_Permutation. cbn [fmap list_fmap concat fst snd]. by rewrite app_nil_r.
  - unfold SIZE_MAX. cbn. lia.
  - cbv zeta. rewrite E5, (Eb 3%nat) by lia. clear. split; evaluate.
Defined.

(** ** Routes *)

Lemma parse_route_tag route host tenant :
  "|"%char ∉ route → "|"%char ∉ tenant → parse_tag (route_tag route host tenant) = (route, host, tenant).
Proof.
  intros Hr Ht. unfold parse_tag. change (route_tag route host tenant) with (route ++ "|"%char :: host ++ "|"%char :: tenant).
  rewrite find_char_app by done. replace (route ++ "|"%char :: host ++ "|"%char :: tenant) with ((route ++ "|"%char :: host) ++ "|"%char :: tenant) by by rewrite <-app_assoc.
  rewrite rfind_char_app by done.
  f_equal; [f_equal|].
  - rewrite <-app_assoc. apply take_app_length.
  - rewrite length_app. cbn [length]. rewrite (proj2 (Nat.eqb_neq _ _)) by lia. unfold substr. rewrite <-!app_assoc. cbn [app].
    replace (S (length route)) with (length route + 1)%nat by lia. rewrite drop_app_add. cbn [drop].
    replace (length route + S (length host) - length route - 1)%nat with (length host) by lia. apply take_app_length.
  - replace (S (length (route ++ "|"%char :: host))) with (length (route ++ "|"%char :: host) + 1)%nat by lia. by rewrite drop_app_add.
Qed.

(** A request as it is recorded for its route. *)
Record RouteRequest := mkRouteRequest {
  rr_route : bytes;
  rr_host : bytes;
  rr_tenant : bytes;
  rr_status : Z;
  rr_duration : double;
}.

Definition rr_tag (r : RouteRequest) : bytes := route_tag (rr_route r) (rr_host r) (rr_tenant r).

Definition record_routes (requests : list RouteRequest) : gmap bytes Bank :=
  foldl (λ t r, record_route_request (rr_route r) (rr_host r) (rr_tenant r) (rr_status r) (rr_duration r) t) ∅ requests.

(** The sample of a tag is what the requests with that tag make of an empty one. *)
Lemma record_routes_sample requests tag :
  default bank_init (record_routes requests !! tag) =
    run_atomics (concat ((λ r, route_atomics (rr_status r) (rr_duration r)) <$> List.filter (λ r, rr_tag r == tag) requests)) bank_init.
Proof.
  unfold record_routes. induction requests as [|r requests IH] using rev_ind; [done|].
  rewrite foldl_app, List.filter_app. cbn [foldl]. set (t := foldl _ _ requests) in *. unfold record_route_request.
  fold (rr_tag r). cbn [List.filter]. destruct (decide (rr_tag r = tag)) as [<-|Hne].
  - rewrite lookup_insert_eq, bool_decide_eq_true_2 by done. cbn [default]. rewrite IH, fmap_app, concat_app. unfold run_atomics.
    rewrite foldl_app. cbn [fmap list_fmap concat]. by rewrite app_nil_r.
  - rewrite lookup_insert_ne, bool_decide_eq_false_2, app_nil_r by done. exact IH.
Qed.

Lemma route_adds c status d :
  adds c (route_atomics status d) =
    adds c [FetchAdd total_requests_] + adds c (class_of status) +
    (match c with
     | timeout_errors => if in_class 502 505 status then 1 else 0
     | auth_failures => if status =? 401 then 1 else 0
     | rate_limit_hits => if status =? 429 then 1 else 0
     | _ => 0
     end) + adds c (duration_atomics d).
Proof.
  unfold route_atomics, in_class. rewrite !adds_app.
  generalize (adds c [FetchAdd total_requests_]) (adds c (class_of status)) (adds c (duration_atomics d)). intros T C D.
  destruct (Z.eqb_spec status 504), (Z.eqb_spec status 503), (Z.eqb_spec status 502), (Z.eqb_spec status 401), (Z.eqb_spec status 429),
    (Z.leb_spec 502 status), (Z.ltb_spec status 505); try lia; cbn [orb andb]; change (adds c []) with 0; destruct c;
    rewrite ?adds_same; rewrite ?adds_ne by done; lia.
Qed.

Lemma route_add_only status d : add_only (route_atomics status d).
Proof.
  unfold route_atomics, add_only. rewrite !Forall_app. split_and!; [by repeat constructor|apply class_add_only|..|apply duration_add_only].
  all: case_match; by repeat constructor.
Qed.

Lemma how_many_filter {A} (p q : A → bool) l : how_many p (List.filter q l) = how_many (λ x, q x && p x) l.
Proof.
  induction l as [|x l IH]; [done|]. cbn [List.filter]. rewrite how_many_cons. destruct (q x); [by rewrite how_many_cons, IH|by rewrite IH].
Qed.

(** Names without the separator. *)
Definition plain_labels (r : RouteRequest) : Prop := ("|"%char ∉ rr_route r) ∧ ("|"%char ∉ rr_tenant r).

Definition same_labels (route host tenant : bytes) (r : RouteRequest) : bool :=
  (rr_route r == route) && (rr_host r == host) && (rr_tenant r == tenant).

Lemma same_labels_tag route host tenant r :
  "|"%char ∉ route → "|"%char ∉ tenant → plain_labels r → (rr_tag r == route_tag route host tenant) = same_labels route host tenant r.
Proof.
  intros Hr Ht [Gr Gt]. unfold same_labels. case_bool_decide as E.
  - apply (f_equal parse_tag) in E. unfold rr_tag in E. rewrite !parse_route_tag in E by done. injection E as -> -> ->.
    by rewrite !bool_decide_eq_true_2.
  - symmetry. apply not_true_iff_false. intros [ [E1%bool_decide_eq_true_1 E2%bool_decide_eq_true_1]%andb_true_iff E3%bool_decide_eq_true_1]%andb_true_iff.
    apply E. unfold rr_tag. by rewrite E1, E2, E3.
Qed.

(** When no route and no tenant has the separator in its name, the labels
    printed for a sample are the ones it was recorded under, and the sample counts
    the requests with exactly these labels: all of them, those that failed for lack
    of authentication, those that exceeded their rate, those whose backend failed,
    and per bucket those that were fast enough. *)
Theorem route_metrics_exact requests route host tenant :
  Forall plain_labels requests → "|"%char ∉ route → "|"%char ∉ tenant → Z.of_nat (length requests) <= SIZE_MAX →
  let b := default bank_init (record_routes requests !! route_tag route host tenant) in
  let counted p := how_many (λ r, same_labels route host tenant r && p r) requests in
  parse_tag (route_tag route host tenant) = (route, host, tenant) ∧
  load b total_requests_ = counted (λ _, true) ∧
  load b auth_failures = counted (λ r, rr_status r =? 401) ∧
  load b rate_limit_hits = counted (λ r, rr_status r =? 429) ∧
  load b timeout_errors = counted (λ r, in_class 502 505 (rr_status r)) ∧
  load b requests_5xx_ = counted (λ r, 500 <=? rr_status r) ∧
  ∀ i, (i <= 11)%nat → load b (duration_buckets_ i) = counted (λ r, fits i (rr_duration r)).
Proof.
  intros Hp Hr Ht Hn b counted. split; [by apply parse_route_tag|].
  assert (∀ c (p : RouteRequest → bool), (∀ r : RouteRequest, adds c (route_atomics (rr_status r) (rr_duration r)) = if p r then 1 else 0) →
    load b c = counted p) as Hl.
  { intros c p Hc. unfold b, counted. rewrite record_routes_sample.
    rewrite (batch_load (λ r, route_atomics (rr_status r) (rr_duration r)) _ _ c p (reflexivity _)); [|intros; apply route_add_only| |exact Hc].
    - rewrite how_many_filter. clear -Hp Hr Ht. induction Hp as [|r requests Hpr Hp IH]; [done|].
      by rewrite !how_many_cons, IH, same_labels_tag.
    - pose proof (how_many_le (λ r, rr_tag r == route_tag route host tenant) requests). unfold how_many in *. lia. }
  split_and!.
  1-5: apply Hl; intros r; rewrite route_adds, class_adds, duration_adds_other by done; rewrite ?adds_same; rewrite ?adds_ne by done;
    by rewrite ?Z.add_0_l, ?Z.add_0_r.
  intros i Hi. apply Hl. intros r. by rewrite route_adds, class_adds, duration_adds_bucket, adds_ne.
Qed.

Lemma route_metrics_exact_witness :
  let sample := record_routes [mkRouteRequest "api" "h" "t" 401 (of_Z 1); mkRouteRequest "api" "h" "u" 200 (of_Z 1)] in
  load (default bank_init (sample !! route_tag "api" "h" "t")) auth_failures = 1.
Proof.
  edestruct (route_metrics_exact [mkRouteRequest "api" "h" "t" 401 (of_Z 1); mkRouteRequest "api" "h" "u" 200 (of_Z 1)] "api" "h" "t")
    as (_ & _ & Ea & _); [| | | |cbv zeta; rewrite Ea; by vm_compute]; evaluate.
Defined.

(** With the separator in a name, two requests with different labels share one
    sample. *)
Lemma tag_shared : route_tag "a" "b|c" "d" = route_tag "a|b" "c" "d".
Proof. done. Qed.
