(* ===== verification/UpstreamResponse.v ===== *)
(** The response of a backend on its way to the client, the success branch of
    [finish_child] in [src/server/http_handler.cpp]: which headers are passed on
    ([is_response_hop_by_hop], [response_connection_tokens]) and the response
    that is framed. *)

From S2P Require Import Prelude Search HttpParser HttpResponse HttpClient.

#[local] Open Scope Z_scope.
#[local] Open Scope gateway_scope.

(** * Headers that stay on the backend's side *)

Definition response_hop_by_hop : list bytes :=
  [lit "content-length"; lit "transfer-encoding"; lit "connection"; lit "keep-alive";
   lit "proxy-authenticate"; lit "proxy-authorization"; lit "proxy-connection";
   lit "te"; lit "trailer"; lit "upgrade"].

Definition is_response_hop_by_hop (lower_name : bytes) : bool := bool_decide (lower_name ∈ response_hop_by_hop).

(** The loop with its index over a name and a C string. *)
Fixpoint iequals_ascii_lower (name lower_literal : bytes) : bool :=
  match name, lower_literal with
  | c :: name', l :: lower' => (tolower c == l) && iequals_ascii_lower name' lower'
  | [], [] => true
  | _, _ => false
  end.

Definition connection_value (hs : gmap bytes bytes) : option bytes :=
  snd <$> List.find (λ kv, iequals_ascii_lower kv.1 "connection") (in_order hs).

Definition response_connection_tokens (hs : gmap bytes bytes) : gset bytes :=
  match connection_value hs with
  | None => ∅
  | Some value => token_loop (length value + 2) value 0 ∅
  end.

Definition has_line_break (s : bytes) : bool := bool_decide (CR ∈ s) || bool_decide (LF ∈ s).

Definition passes_to_client (tokens : gset bytes) (kv : bytes * bytes) : bool :=
  negb (has_line_break kv.1 || has_line_break kv.2) &&
  negb (is_response_hop_by_hop (lowercase kv.1) || bool_decide (lowercase kv.1 ∈ tokens)).

(** [resp.headers[k] = v] in the order of the backend's headers. *)
Definition client_headers (hs : gmap bytes bytes) : gmap bytes bytes :=
  foldl (λ h kv, if passes_to_client (response_connection_tokens hs) kv then <[kv.1 := kv.2]> h else h) ∅ (in_order hs).

Definition upstream_response (be : BackendResponse) : HttpResponse :=
  mkResponse (status_code be)
    (if (200 <=? status_code be) && (status_code be <? 300) then lit "OK" else lit "Upstream Response")
    (<[lit "Content-Length" := to_string (size (resp_body be))]> (client_headers (resp_headers be)))
    (resp_body be) false.

(** * Lemmas *)

Lemma iequals_spec name l : iequals_ascii_lower name l = true ↔ lowercase name = l.
Proof.
  revert l. induction name as [|c name IH]; intros [|x l]; simpl; try done.
  rewrite andb_true_iff, bool_decide_eq_true, IH. unfold lowercase. naive_solver.
Qed.

(** Inserting the pairs that pass. *)
Lemma foldl_insert_filter (P : bytes * bytes → bool) (l : list (bytes * bytes)) (h : gmap bytes bytes) k v :
  NoDup l.*1 →
  foldl (λ h kv, if P kv then <[kv.1 := kv.2]> h else h) h l !! k = Some v ↔
  ((k, v) ∈ l ∧ P (k, v) = true) ∨
  (h !! k = Some v ∧ ∀ v', (k, v') ∈ l → P (k, v') = false).
Proof.
  revert h. induction l as [|[k' v'] l IH]; intros h Hnd; simpl; [set_solver|].
  apply NoDup_cons in Hnd as [Hk' Hnd]. rewrite IH by done.
  assert (∀ w, (k', w) ∈ l → False) as Hno.
  { intros w Hw. apply Hk', list_elem_of_fmap. by exists (k', w). }
  destruct (P (k', v')) eqn:E; [rewrite lookup_insert_Some|].
  - split.
    + intros [[Hin HP]|[[[-> ->]|[Hne Hh]] Hall]]; [left; set_solver|left; set_solver|].
      right. split; [done|]. intros w [[= -> ->]|Hw]%elem_of_cons; [done|by apply Hall].
    + intros [[[[= -> ->]|Hin]%elem_of_cons HP]|[Hh Hall]].
      * right. split; [by left|]. intros w Hw. by destruct (Hno w).
      * left. done.
      * right. split; [|intros w Hw; apply Hall; set_solver]. right. split; [|done].
        intros <-. specialize (Hall v' (list_elem_of_here _ _)). congruence.
  - split.
    + intros [[Hin HP]|[Hh Hall]]; [left; set_solver|]. right. split; [done|].
      intros w [[= -> ->]|Hw]%elem_of_cons; [done|by apply Hall].
    + intros [[[[= -> ->]|Hin]%elem_of_cons HP]|[Hh Hall]]; [congruence|by left|].
      right. split; [done|]. intros w Hw. apply Hall. set_solver.
Qed.

Lemma client_headers_spec hs k v :
  client_headers hs !! k = Some v ↔
  hs !! k = Some v ∧ passes_to_client (response_connection_tokens hs) (k, v) = true.
Proof.
  unfold client_headers. rewrite foldl_insert_filter by apply NoDup_in_order.
  rewrite elem_of_in_order, lookup_empty. naive_solver.
Qed.

(** The tokens are those of a header named [connection] in some spelling. *)
Lemma response_tokens_spec hs t :
  t ∈ response_connection_tokens hs ↔ t ≠ [] ∧
  ∃ value part, connection_value hs = Some value ∧ part ∈ split_on "," value [] ∧ t = lowercase (trim part).
Proof.
  unfold response_connection_tokens. destruct (connection_value hs) as [value|]; [|set_solver].
  rewrite token_loop_spec by lia. rewrite drop_0. set_solver by lia.
Qed.

Lemma has_line_break_false s : has_line_break s = false ↔ (CR ∉ s) ∧ (LF ∉ s).
Proof. unfold has_line_break. by rewrite orb_false_iff, !bool_decide_eq_false. Qed.

(** C24: What a backend's response becomes for the client. The status and the body
    are kept, the length is the body's, and of the backend's headers exactly those
    are passed on that have no line break in name or value, are not hop-by-hop
    in any spelling and are not named by the backend's own Connection header. *)
Theorem upstream_response_headers be k v :
  let resp := upstream_response be in
  r_status_code resp = status_code be ∧ r_body resp = resp_body be ∧ r_chunked resp = false ∧
  r_headers resp !! lit "Content-Length" = Some (to_string (size (resp_body be))) ∧
  (k ≠ lit "Content-Length" → k ≠ [] →
   r_headers resp !! k = Some v ↔
     resp_headers be !! k = Some v ∧ ((CR ∉ k) ∧ (LF ∉ k) ∧ (CR ∉ v) ∧ (LF ∉ v)) ∧
     (lowercase k ∉ response_hop_by_hop) ∧
     ∀ value part, connection_value (resp_headers be) = Some value → part ∈ split_on "," value [] →
       lowercase k ≠ lowercase (trim part)).
Proof.
  intros resp. unfold resp, upstream_response. cbn [r_status_code r_body r_chunked r_headers].
  split_and!; [done|done|done|apply lookup_insert_eq|]. intros Hk Hne.
  rewrite lookup_insert_ne, client_headers_spec by done. unfold passes_to_client, is_response_hop_by_hop. cbn [fst snd].
  rewrite andb_true_iff, !negb_true_iff, !orb_false_iff, !has_line_break_false, !bool_decide_eq_false, response_tokens_spec.
  assert (lowercase k ≠ []) by by destruct k. naive_solver.
Qed.

(** A backend that tries to split the response and to keep a header for itself. *)
Definition hostile_backend : BackendResponse :=
  mkBackend 200 {[ lit "X-Ok" := lit "1"; lit "X-Split" := lit "a" ++ [LF] ++ "Set-Cookie: b"; lit "X-Hop" := lit "2";
                   lit "Connection" := lit "close, x-hop"; lit "Content-Length" := lit "99" ]} "hi" ErrorNone.

Lemma upstream_response_headers_witness :
  let h := r_headers (upstream_response hostile_backend) in
  h !! lit "X-Ok" = Some (lit "1") ∧ h !! lit "X-Hop" ≠ Some (lit "2") ∧ h !! lit "Content-Length" = Some (lit "2").
Proof.
  split_and!; [by vm_compute| |by vm_compute].
  destruct (upstream_response_headers hostile_backend "X-Hop" "2") as (_ & _ & _ & _ & Hiff).
  rewrite Hiff by done. intros (_ & _ & _ & Hall).
  apply (Hall (lit "close, x-hop") (lit " x-hop")); [by vm_compute| |by vm_compute].
  apply (bool_decide_unpack _). by vm_compute.
Defined.
