(* ===== verification/UpstreamExchange.v ===== *)
(** The epoll-driven exchange with one backend: class [UpstreamExchange] of
    [include/server/http_client.h] and [src/server/http_client.cpp]. The state is
    the object's members and the process-wide connection pool; each turn of the
    loop in [run] consumes one [Turn], what the clock, the kernel and OpenSSL
    answer in it. Times are nanoseconds of [steady_clock]. *)

From S2P Require Import Prelude Search HttpParser HttpClient ConnectionPool.

#[local] Open Scope Z_scope.
#[local] Open Scope gateway_scope.

(** * What the environment answers *)

Inductive WaitResult := Ready | WaitTimeout | WaitError.

Inductive SSLHandshakeStatus := HS_COMPLETE | HS_WANT_READ | HS_WANT_WRITE | HS_FAILED.

Inductive SSLWant := SSL_NONE | SSL_READ | SSL_WRITE.

Inductive Errno := EINTR | EAGAIN | EOTHER.

(** [send]/[sslWrite] and [recv]/[sslRead]: a count or the bytes read, a failure
    with [errno], or an exception of the [Socket] wrapper. *)
Inductive io_write := Wrote (n : nat) (e : Errno) | WriteThrows.
Inductive io_read := Got (data : bytes) | ReadErr (e : Errno) | ReadThrows.

Record Turn := mkTurn {
  t_now : Z;                    (* the clock when the turn starts *)
  t_refresh : Z;                (* the clock at [refresh_deadline] *)
  t_wait : WaitResult;          (* the 0-timeout poll of a pooled socket *)
  t_peek : option Z;            (* [recv] with [MSG_PEEK]; [None]: it throws *)
  t_ssl_alive : bool;
  t_socket : option nat;        (* a new socket; [None]: it throws *)
  t_inet : bool;                (* [inet_pton] accepts the host *)
  t_connect : option bool;      (* connected, in progress, or throws *)
  t_ctx : bool;                 (* a context, and [initSSLClient] succeeds *)
  t_sockerr : Z;
  t_handshake : SSLHandshakeStatus;
  t_send : io_write;
  t_recv : io_read;
  t_want : SSLWant;
}.

(** * State *)

Record Params := mkParams {
  p_host : bytes;
  p_port : Z;
  p_method : bytes;
  p_path : bytes;
  p_headers : gmap bytes bytes;
  p_body : bytes;
  p_timeout_ms : Z;
  p_max_response_bytes : Z;
  p_tls : UpstreamTlsOptions;
}.

Inductive Want := WantRead | WantWrite | WantDone.

Inductive Phase := PhConnect | PhConnecting | PhTlsHandshake | PhSend | PhRead | PhDone.

#[global] Instance Phase_eq_dec : EqDecision Phase.
Proof. solve_decision. Defined.

Inductive FrameResult := FrameIncomplete | FrameComplete | FrameError.

Record UpstreamExchange := mkExchange {
  params_ : Params;
  idempotent_ : bool;
  phase_ : Phase;
  pool_scheme_ : bytes;
  sock_ : option nat;
  used_pooled_ : bool;
  retried_ : bool;
  force_fresh_ : bool;
  request_bytes_ : bytes;
  send_off_ : nat;
  response_bytes_ : bytes;
  body_end_ : option nat;
  response_keepalive_ : bool;
  response_is_chunked_ : bool;
  peer_closed_ : bool;
  decoded_body_ : bytes;
  succeeded_ : bool;
  result_ : BackendResponse;
  deadline_ : Z;
}.

(** One connection the request was given to: its socket, whether it came from
    the pool, and the bytes written to it. A record of the writes, not a member. *)
Record attempt := mkAttempt { at_socket : nat; at_pooled : bool; at_sent : bytes }.

(** The exchange, the pool it shares, and its writes, latest connection first. *)
Record machine := mkMachine { ex : UpstreamExchange; global_pool : ConnectionPool; attempts : list attempt }.

Definition scheme_of_params (p : Params) : bytes :=
  pool_scheme (enable (p_tls p)) (skip_verify (p_tls p)) (ca_file (p_tls p)) (server_name (p_tls p)).

(** [now + milliseconds(timeout_ms)] *)
Definition deadline_from (p : Params) (now : Z) : Z := now + p_timeout_ms p * 10 ^ 6.

Definition refresh_deadline (now : Z) (x : UpstreamExchange) : UpstreamExchange :=
  x{{deadline_ := deadline_from (params_ x) now}}.

Definition expired (now : Z) (x : UpstreamExchange) : bool := deadline_ x <=? now.

(** The constructor. *)
Definition exchange_init (p : Params) (idempotent : bool) (now : Z) : UpstreamExchange :=
  let timed_out := p_timeout_ms p <=? 0 in
  {| params_ := p;
     idempotent_ := idempotent;
     phase_ := if timed_out then PhDone else PhConnect;
     pool_scheme_ := scheme_of_params p;
     sock_ := None;
     used_pooled_ := false;
     retried_ := false;
     force_fresh_ := false;
     request_bytes_ := [];
     send_off_ := 0;
     response_bytes_ := [];
     body_end_ := None;
     response_keepalive_ := false;
     response_is_chunked_ := false;
     peer_closed_ := false;
     decoded_body_ := [];
     succeeded_ := false;
     result_ := if timed_out then make_error_response 504 ConnectTimeout "Gateway Timeout"
                else make_error_response 502 ConnectFailed "Bad Gateway";
     deadline_ := deadline_from p now |}.

(** * Opening a connection *)

(** The result of a call that may throw. *)
Inductive call (A : Type) := Ok (x : A) | Throw.
Arguments Ok {A} _.
Arguments Throw {A}.

(** [open_fresh]: the state and whether it succeeded. *)
Definition open_fresh (t : Turn) (x : UpstreamExchange) : bool * UpstreamExchange :=
  match t_socket t with
  | None => (false, x{{sock_ := None}})
  | Some s =>
    if negb (t_inet t) then (false, x{{sock_ := None}}) else
    match t_connect t with
    | None => (false, x{{sock_ := None}})
    | Some connected =>
      let x := x{{sock_ := Some s}} in
      if negb connected then (true, refresh_deadline (t_refresh t) (x{{phase_ := PhConnecting}})) else
      if negb (enable (p_tls (params_ x))) then (true, refresh_deadline (t_refresh t) (x{{phase_ := PhSend}})) else
      if negb (t_ctx t) then (false, x{{sock_ := None}})
      else (true, refresh_deadline (t_refresh t) (x{{phase_ := PhTlsHandshake}}))
    end
  end.

(** The liveness probe of a pooled connection. *)
Definition probe_alive (t : Turn) (is_ssl : bool) : call bool :=
  match t_wait t with
  | Ready =>
    if is_ssl then Ok (t_ssl_alive t)
    else match t_peek t with Some n => Ok (0 <? n) | None => Throw end
  | _ => Ok true
  end.

(** [get_is_ssl_] of the socket in use: sockets are pooled under the scheme of
    their TLS policy. *)
Definition is_ssl (x : UpstreamExchange) : bool := enable (p_tls (params_ x)).

Definition push_attempt (s : option nat) (pooled : bool) (l : list attempt) : list attempt :=
  match s with Some s => mkAttempt s pooled [] :: l | None => l end.

Definition open_fresh_m (t : Turn) (m : machine) : call bool * machine :=
  let '(ok, x) := open_fresh t (ex m) in
  (Ok ok, mkMachine x (global_pool m) (push_attempt (sock_ x) false (attempts m))).

Definition open_connection (t : Turn) (m : machine) : call bool * machine :=
  let m := m{{ex ::= fun x => x{{used_pooled_ := false}} }} in
  let x := ex m in
  if force_fresh_ x then open_fresh_m t m else
  let '(pooled, pool) := checkout (p_host (params_ x)) (p_port (params_ x)) (pool_scheme_ x) (t_now t) (global_pool m) in
  let m := m{{global_pool := pool}} in
  match pooled with
  | None => open_fresh_m t m
  | Some conn =>
    match probe_alive t (is_ssl x) with
    | Throw => (Throw, m)
    | Ok false => open_fresh_m t m
    | Ok true =>
      let x := x{{sock_ := Some (socket conn); used_pooled_ := true;
                  response_bytes_ := leftover conn; phase_ := PhSend}} in
      (Ok true, mkMachine (refresh_deadline (t_refresh t) x) (global_pool m)
                  (push_attempt (Some (socket conn)) true (attempts m)))
    end
  end.

(** * The request *)

(** The headers that go to the backend. *)
Definition forwarded (hs : gmap bytes bytes) (k : bytes) : bool :=
  negb (is_hop_by_hop_header (lowercase k) || bool_decide (lowercase k ∈ connection_tokens hs)).

Definition header_text (kv : bytes * bytes) : bytes := kv.1 ++ ": " ++ kv.2 ++ CRLF.

Definition needs_content_length (p : Params) : bool :=
  negb (is_empty (p_body p)) || bool_decide (is_Some (p_headers p !! ("content-length" : bytes)))
  || bool_decide (is_Some (p_headers p !! ("transfer-encoding" : bytes))).

Definition build_request `{HashOrder} (p : Params) : bytes :=
  p_method p ++ " " ++ p_path p ++ " HTTP/1.1" ++ CRLF ++
  "Host: " ++ p_host p ++ ":" ++ to_string (p_port p) ++ CRLF ++
  concat (header_text <$> filter (λ kv, forwarded (p_headers p) kv.1 = true) (iter (p_headers p))) ++
  (if needs_content_length p then "Content-Length: " ++ to_string (size (p_body p)) ++ CRLF else []) ++
  CRLF ++ p_body p.

(** * Framing the response *)

Definition kExchangeMaxHeaderSize : Z := 256 * 1024.
Definition kExchangeReadChunk : Z := 65536.

Definition CRLF2 : bytes := CRLF ++ CRLF.

(** [std::stoull] of a string of digits; [None]: it throws. *)
Definition stoull (cl : bytes) : option Z := if decimal cl <=? SIZE_MAX then Some (decimal cl) else None.

Inductive frame_outcome := Framed (r : FrameResult) | FrameThrows | FrameHangs.

(** The members [response_keepalive_] is computed from. *)
Definition keepalive_of (headers_part : bytes) : bool :=
  let conn := find_header_value headers_part "connection" in
  let status_line := match find_sub CRLF headers_part with Some i => take i headers_part | None => headers_part end in
  if starts_with "HTTP/1.1" status_line then conn != "close" else conn == "keep-alive".

Definition try_frame (x : UpstreamExchange) : frame_outcome * UpstreamExchange :=
  let resp := response_bytes_ x in
  match find_sub CRLF2 resp with
  | None => (Framed (if kExchangeMaxHeaderSize <? size resp then FrameError else FrameIncomplete), x)
  | Some header_end =>
    let headers_part := take header_end resp in
    let x := x{{response_keepalive_ := keepalive_of headers_part}} in
    let te := find_header_value headers_part "transfer-encoding" in
    if bool_decide (is_Some (find_sub "chunked" te)) then
      let x := x{{response_is_chunked_ := true}} in
      match scan_chunked_body resp (header_end + 4) with
      | None => (FrameHangs, x)
      | Some (r, decoded) =>
        let x := x{{decoded_body_ := decoded}} in
        match r with
        | Complete e => (Framed FrameComplete, x{{body_end_ := Some e}})
        | ChunkError => (Framed FrameError, x)
        | Incomplete => (Framed FrameIncomplete, x)
        | Thrown => (FrameThrows, x)
        end
      end
    else if negb (is_empty te) then (Framed FrameError, x) else
    let cl := find_header_value headers_part "content-length" in
    if negb (is_empty cl) && forallb is_digit cl then
      match stoull cl with
      | None => (Framed FrameError, x)
      | Some content_length =>
        if p_max_response_bytes (params_ x) <? content_length then (Framed FrameError, x) else
        let stop := wrap64 (Z.of_nat header_end + 4 + content_length) in
        if stop <=? size resp then (Framed FrameComplete, x{{body_end_ := Some (Z.to_nat stop)}})
        else (Framed FrameIncomplete, x)
      end
    else if negb (response_keepalive_ x) then
      if peer_closed_ x then (Framed FrameComplete, x{{body_end_ := Some (length resp)}})
      else (Framed FrameIncomplete, x)
    else (Framed FrameError, x)
  end.

(** ** [std::stoi] *)

Definition is_space (c : ascii) : bool := (c == " "%char) || in_range "009" "013" c.

Fixpoint skip_space (s : bytes) : bytes :=
  match s with
  | [] => []
  | c :: s' => if is_space c then skip_space s' else s
  end.

Fixpoint leading_digits (s : bytes) : bytes :=
  match s with
  | [] => []
  | c :: s' => if is_digit c then c :: leading_digits s' else []
  end.

Definition in_int (z : Z) : bool := (- 2 ^ 31 <=? z) && (z <? 2 ^ 31).

(** The integer a text starts with, after blanks. *)
Definition leading_integer (s : bytes) : option Z :=
  let s := skip_space s in
  let '(sign, s) :=
    match s with
    | c :: s' => if c == "-"%char then (-1, s') else if c == "+"%char then (1, s') else (1, s)
    | [] => (1, s)
    end in
  let ds := leading_digits s in
  if is_empty ds then None else Some (sign * decimal ds).

(** [None]: it throws. *)
Definition stoi (s : bytes) : option Z :=
  match leading_integer s with
  | Some z => if in_int z then Some z else None
  | None => None
  end.

(** ** The parsed response *)

(** The text between the first two spaces of the response. *)
Definition status_text (resp : bytes) : option bytes :=
  match find_char " " resp with
  | None => None
  | Some pos =>
    match find_char_from " " (pos + 1) resp with
    | None => None
    | Some pos2 => Some (substr (pos + 1) (pos2 - pos - 1) resp)
    end
  end.

Definition parse_status (resp : bytes) : option Z :=
  match status_text resp with Some s => stoi s | None => None end.

Fixpoint header_loop (fuel : nat) (headers_part : bytes) (line_start : nat) (hs : gmap bytes bytes)
    : gmap bytes bytes :=
  match fuel with
  | O => hs
  | S fuel' =>
    if negb (line_start <? length headers_part)%nat then hs else
    let line_end := find_sub_from CRLF line_start headers_part in
    let line := substr line_start (default (length headers_part) line_end - line_start) headers_part in
    let hs :=
      match find_char ":" line with
      | Some colon => <[take colon line := trim (drop (colon + 1) line)]> hs
      | None => hs
      end in
    match line_end with
    | None => hs
    | Some e => header_loop fuel' headers_part (e + 2) hs
    end
  end.

Definition parse_response_headers (headers_part : bytes) (hs : gmap bytes bytes) : gmap bytes bytes :=
  header_loop (S (length headers_part)) headers_part (after_status_line headers_part) hs.

Definition invalid_response : BackendResponse := make_error_response 502 InvalidResponse "Bad Gateway".

Definition finish_ok (x : UpstreamExchange) : UpstreamExchange :=
  let resp := response_bytes_ x in
  match parse_status resp with
  | None => x{{phase_ := PhDone; result_ := invalid_response}}
  | Some code =>
    let header_end := find_sub CRLF2 resp in
    let headers_part := match header_end with Some i => take i resp | None => resp end in
    let body_start := match header_end with Some i => (i + 4)%nat | None => 3%nat end in
    let content :=
      if response_is_chunked_ x then decoded_body_ x
      else match body_end_ x with
           | Some e => substr body_start (e - body_start) resp
           | None => drop body_start resp
           end in
    x{{result_ := mkBackend code (parse_response_headers headers_part (resp_headers (result_ x))) content ErrorNone;
       decoded_body_ ::= fun d => if response_is_chunked_ x then [] else d;
       succeeded_ := true; phase_ := PhDone}}
  end.

(** * Failure and replay *)

Definition fail (e : BackendError) (status : Z) (text : bytes) (now : Z) (m : machine) : bool * machine :=
  let x := ex m in
  let abandon (m : machine) : bool * machine :=
    (false, m{{ex ::= fun x => x{{result_ := make_error_response status e text; succeeded_ := false; phase_ := PhDone}} }}) in
  if used_pooled_ x then
    let m := m{{global_pool ::= invalidate (p_host (params_ x)) (p_port (params_ x)) (pool_scheme_ x)}} in
    if idempotent_ x && negb (retried_ x) then
      (true, m{{ex := refresh_deadline now
        (x{{retried_ := true; force_fresh_ := true; used_pooled_ := false; sock_ := None;
            response_bytes_ := []; decoded_body_ := []; request_bytes_ := []; send_off_ := 0%nat;
            body_end_ := None; response_keepalive_ := false; response_is_chunked_ := false;
            peer_closed_ := false; phase_ := PhConnect}})}})
    else abandon m
  else abandon m.

(** * The loop *)

(** One turn: go round again with an event mask, return, throw, or never come back. *)
Inductive flow := Again (ev : Z) | Return (w : Want) | Raise | Hang.

(** [if (fail(...)) continue; return Want::Done;] *)
Definition fail_or_done (e : BackendError) (status : Z) (text : bytes) (ev : Z) (t : Turn) (m : machine)
    : flow * machine :=
  let '(replay, m) := fail e status text (t_refresh t) m in
  (if replay then Again ev else Return WantDone, m).

Definition log_write (data : bytes) (l : list attempt) : list attempt :=
  match l with
  | a :: l' => a{{at_sent ::= fun s => s ++ data}} :: l'
  | [] => []
  end.

Definition step_Connect (t : Turn) (m : machine) : flow * machine :=
  match open_connection t m with
  | (Throw, m) => (Raise, m)
  | (Ok false, m) => fail_or_done ConnectFailed 502 "Bad Gateway" 0 t m
  | (Ok true, m) => (Again 0, m)
  end.

Definition step_Connecting (ev : Z) (t : Turn) (m : machine) : flow * machine :=
  if ev =? 0 then (Return WantWrite, m) else
  if negb (t_sockerr t =? 0) then fail_or_done ConnectFailed 502 "Bad Gateway" 0 t m else
  if negb (enable (p_tls (params_ (ex m)))) then
    (Again 0, m{{ex ::= fun x => refresh_deadline (t_refresh t) (x{{phase_ := PhSend}})}})
  else if negb (t_ctx t) then fail_or_done ConnectFailed 502 "Bad Gateway" 0 t m
  else (Again 0, m{{ex ::= fun x => refresh_deadline (t_refresh t) (x{{phase_ := PhTlsHandshake}})}}).

Definition step_TlsHandshake (t : Turn) (m : machine) : flow * machine :=
  match t_handshake t with
  | HS_COMPLETE => (Again 0, m{{ex ::= fun x => refresh_deadline (t_refresh t) (x{{phase_ := PhSend}})}})
  | HS_FAILED => fail_or_done ConnectFailed 502 "Bad Gateway" 0 t m
  | HS_WANT_READ => (Return WantRead, m{{ex ::= refresh_deadline (t_refresh t)}})
  | HS_WANT_WRITE => (Return WantWrite, m{{ex ::= refresh_deadline (t_refresh t)}})
  end.

Definition step_Send `{HashOrder} (t : Turn) (m : machine) : flow * machine :=
  let m := if is_empty (request_bytes_ (ex m))
           then m{{ex ::= fun x => x{{request_bytes_ := build_request (params_ x)}} }} else m in
  let x := ex m in
  if (send_off_ x <? length (request_bytes_ x))%nat then
    match t_send t with
    | WriteThrows => (Raise, m)
    | Wrote n e =>
      if (0 <? n)%nat then
        (Again 0, mkMachine (refresh_deadline (t_refresh t) (x{{send_off_ ::= fun off => (off + n)%nat}})) (global_pool m)
                    (log_write (substr (send_off_ x) n (request_bytes_ x)) (attempts m)))
      else match e with
      | EINTR => (Again 0, m)
      | EAGAIN =>
        (Return (match is_ssl x, t_want t with true, SSL_READ => WantRead | _, _ => WantWrite end),
         m{{ex ::= refresh_deadline (t_refresh t)}})
      | EOTHER => fail_or_done WriteFailed 502 "Bad Gateway" 0 t m
      end
    end
  else (Again 0, m{{ex ::= fun x => refresh_deadline (t_refresh t) (x{{phase_ := PhRead}})}}).

(** The end of file in the Read phase. *)
Definition step_eof (t : Turn) (m : machine) : flow * machine :=
  let m := m{{ex ::= fun x => x{{peer_closed_ := true}} }} in
  let x := ex m in
  if bool_decide (is_Some (find_sub CRLF2 (response_bytes_ x))) && negb (response_keepalive_ x) then
    match try_frame x with
    | (Framed FrameComplete, x) => (Return WantDone, m{{ex := finish_ok x}})
    | (Framed _, x) => fail_or_done ReadFailed 502 "Bad Gateway" 0 t (m{{ex := x}})
    | (FrameThrows, x) => (Raise, m{{ex := x}})
    | (FrameHangs, x) => (Hang, m{{ex := x}})
    end
  else fail_or_done ReadFailed 502 "Bad Gateway" 0 t m.

Definition step_recv (t : Turn) (m : machine) : flow * machine :=
  match t_recv t with
  | ReadThrows => (Raise, m)
  | Got [] => step_eof t m
  | Got data => (Again 0, m{{ex ::= fun x => refresh_deadline (t_refresh t) (x{{response_bytes_ ::= fun r => r ++ data}})}})
  | ReadErr EINTR => (Again 0, m)
  | ReadErr EAGAIN =>
    (Return (match is_ssl (ex m), t_want t with true, SSL_WRITE => WantWrite | _, _ => WantRead end),
     m{{ex ::= refresh_deadline (t_refresh t)}})
  | ReadErr EOTHER => fail_or_done ReadFailed 502 "Bad Gateway" 0 t m
  end.

Definition step_Read (t : Turn) (m : machine) : flow * machine :=
  match try_frame (ex m) with
  | (FrameHangs, x) => (Hang, m{{ex := x}})
  | (FrameThrows, x) => (Raise, m{{ex := x}})
  | (Framed FrameComplete, x) => (Return WantDone, m{{ex := finish_ok x}})
  | (Framed FrameError, x) => fail_or_done InvalidResponse 502 "Bad Gateway" 0 t (m{{ex := x}})
  | (Framed FrameIncomplete, x) =>
    let m := m{{ex := x}} in
    if p_max_response_bytes (params_ x) <? size (response_bytes_ x)
    then fail_or_done ReadFailed 502 "Bad Gateway" 0 t m
    else step_recv t m
  end.

Definition step_expired (ev : Z) (t : Turn) (m : machine) : flow * machine :=
  match phase_ (ex m) with
  | PhConnect | PhConnecting | PhTlsHandshake => fail_or_done ConnectTimeout 504 "Gateway Timeout" ev t m
  | PhSend => fail_or_done WriteTimeout 504 "Gateway Timeout" ev t m
  | PhRead => fail_or_done ReadTimeout 504 "Gateway Timeout" ev t m
  | PhDone => (Return WantDone, m)
  end.

Definition run_turn `{HashOrder} (ev : Z) (t : Turn) (m : machine) : flow * machine :=
  if phase_ (ex m) == PhDone then (Return WantDone, m) else
  if expired (t_now t) (ex m) then step_expired ev t m else
  match phase_ (ex m) with
  | PhConnect => step_Connect t m
  | PhConnecting => step_Connecting ev t m
  | PhTlsHandshake => step_TlsHandshake t m
  | PhSend => step_Send t m
  | PhRead => step_Read t m
  | PhDone => (Return WantDone, m)
  end.

(** [run]: [Again] when the answers given have been used up. *)
Fixpoint run `{HashOrder} (ev : Z) (turns : list Turn) (m : machine) : flow * machine * list Turn :=
  match turns with
  | [] => (Again ev, m, [])
  | t :: turns' =>
    match run_turn ev t m with
    | (Again ev', m') => run ev' turns' m'
    | (f, m') => (f, m', turns')
    end
  end.

(** [advance]: an exception is turned into a failure, which may start a replay;
    [now] is the clock in the handler. [Raise] is an exception that leaves
    [advance]: the handler's own call of [run] is not guarded. *)
Definition advance `{HashOrder} (ev now : Z) (turns : list Turn) (m : machine) : flow * machine * list Turn :=
  match run ev turns m with
  | (Raise, m, turns) =>
    let e := match phase_ (ex m) with PhSend => WriteFailed | PhRead => ReadFailed | _ => ConnectFailed end in
    match fail e 502 "Bad Gateway" now m with
    | (true, m) => run 0 turns m
    | (false, m) => (Return WantDone, m, turns)
    end
  | r => r
  end.

Definition reuse_to_pool (now : Z) (m : machine) : machine :=
  let x := ex m in
  if negb (succeeded_ x) || bool_decide (sock_ x = None) || negb (response_keepalive_ x) || peer_closed_ x
  then m else
  let left := match body_end_ x with
              | None => []
              | Some e => if (length (response_bytes_ x) <=? e)%nat then [] else drop e (response_bytes_ x)
              end in
  let conn := mkPooled (default 0%nat (sock_ x)) left now in
  m{{global_pool ::= checkin (p_host (params_ x)) (p_port (params_ x)) (pool_scheme_ x) conn now;
     ex ::= fun x => x{{sock_ := None}} }}.

(** Projections of updated states. *)
Ltac flat := cbn [params_ idempotent_ phase_ pool_scheme_ sock_ used_pooled_ retried_ force_fresh_
  request_bytes_ send_off_ response_bytes_ body_end_ response_keepalive_ response_is_chunked_
  peer_closed_ decoded_body_ succeeded_ result_ deadline_ ex global_pool attempts apply_update constant] in *.

(** * The request reaches at most one connection, or two when it may be replayed *)

(** The status and the body that go with a failure. *)
Definition failure_response (e : BackendError) : BackendResponse :=
  match e with
  | ConnectTimeout | WriteTimeout | ReadTimeout => make_error_response 504 e "Gateway Timeout"
  | _ => make_error_response 502 e "Bad Gateway"
  end.

Definition result_ok (x : UpstreamExchange) : Prop :=
  if succeeded_ x then error (result_ x) = ErrorNone
  else ∃ e, e ≠ ErrorNone ∧ result_ x = failure_response e.

Section replay.
  Context `{HashOrder} (p : Params) (idem : bool).

(** The connection of an earlier attempt: it came from the pool. *)
Definition replayed (x : UpstreamExchange) (old : list attempt) : Prop :=
  if retried_ x then
    idem = true ∧ ∃ a, old = [a] ∧ at_pooled a = true ∧ at_sent a `prefix_of` build_request p
  else old = [].

(** The connection in use, by phase. *)
Definition in_use (x : UpstreamExchange) (cur : list attempt) : Prop :=
  match phase_ x with
  | PhConnect => cur = [] ∧ used_pooled_ x = false ∧ send_off_ x = 0%nat ∧ request_bytes_ x = []
  | PhDone => (cur = [] ∨ ∃ a, cur = [a] ∧ at_sent a `prefix_of` build_request p) ∧ result_ok x
  | _ => ∃ a, cur = [a] ∧ at_pooled a = used_pooled_ x ∧ at_sent a = take (send_off_ x) (request_bytes_ x)
  end.

Record exch_inv (m : machine) : Prop := {
  xi_params : params_ (ex m) = p;
  xi_idem : idempotent_ (ex m) = idem;
  xi_request : request_bytes_ (ex m) = [] ∨ request_bytes_ (ex m) = build_request p;
  xi_off : request_bytes_ (ex m) = [] → send_off_ (ex m) = 0%nat;
  xi_succeeded : phase_ (ex m) ≠ PhDone → succeeded_ (ex m) = false;
  xi_attempts : ∃ cur old, attempts m = cur ++ old ∧ replayed (ex m) old ∧ in_use (ex m) cur;
}.

(** Members the invariant does not look at. *)
Record same_core (x y : UpstreamExchange) : Prop := {
  sc_params : params_ y = params_ x;
  sc_idem : idempotent_ y = idempotent_ x;
  sc_phase : phase_ y = phase_ x;
  sc_used : used_pooled_ y = used_pooled_ x;
  sc_retried : retried_ y = retried_ x;
  sc_request : request_bytes_ y = request_bytes_ x;
  sc_off : send_off_ y = send_off_ x;
  sc_succeeded : succeeded_ y = succeeded_ x;
  sc_result : result_ y = result_ x;
}.

Lemma inv_same_core m y pool :
  exch_inv m → same_core (ex m) y → exch_inv (mkMachine y pool (attempts m)).
Proof.
  intros [H1 H2 H3 H5 H4 (cur & old & Ha & Hr & Hi)] [E1 E2 E3 E4 E5 E6 E7 E8 E9]. split; flat.
  - congruence.
  - congruence.
  - by rewrite E6.
  - by rewrite E6, E7.
  - rewrite E3, E8. done.
  - exists cur, old. split; [done|]. unfold replayed, in_use, result_ok in *.
    rewrite E3, E4, E5, E6, E7, E8, E9. done.
Qed.

Lemma try_frame_core x o y : try_frame x = (o, y) → same_core x y.
Proof.
  destruct x. unfold try_frame. flat. intros E.
  repeat (case_match; simplify_eq; flat); done.
Qed.

Lemma sent_prefix req n : req = [] ∨ req = build_request p → take n req `prefix_of` build_request p.
Proof. intros [-> | ->]; [rewrite take_nil; apply prefix_nil|apply prefix_take]. Qed.

(** Whatever the phase, what was written is a prefix of the request. *)
Lemma in_use_prefix x cur :
  in_use x cur → request_bytes_ x = [] ∨ request_bytes_ x = build_request p →
  cur = [] ∨ ∃ a, cur = [a] ∧ at_sent a `prefix_of` build_request p.
Proof.
  unfold in_use. intros Hi Hr. destruct (phase_ x); try naive_solver;
    destruct Hi as (a & -> & _ & Ha); right; exists a; rewrite Ha; auto using sent_prefix.
Qed.

Lemma in_use_pooled x cur :
  in_use x cur → phase_ x ≠ PhDone → used_pooled_ x = true → ∃ a, cur = [a] ∧ at_pooled a = true.
Proof. unfold in_use. intros. destruct (phase_ x); naive_solver congruence. Qed.

Lemma fail_inv e status text now m b m' :
  make_error_response status e text = failure_response e → e ≠ ErrorNone →
  exch_inv m → phase_ (ex m) ≠ PhDone → fail e status text now m = (b, m') → exch_inv m'.
Proof.
  intros He Hne [H1 H2 H3 H5 H4 (cur & old & Ha & Hr & Hi)] Hph. unfold fail.
  pose proof (in_use_prefix _ _ Hi H3) as Hpre. pose proof (in_use_pooled _ _ Hi Hph) as Hpool.
  specialize (H4 Hph).
  assert (∀ pool, exch_inv (mkMachine ((ex m){{result_ := make_error_response status e text;
    succeeded_ := false; phase_ := PhDone}}) pool (attempts m))) as Hdone.
  { intros pool. destruct m as [[] ? ?]; flat. split; flat; try done.
    exists cur, old. split_and!; [done|done|]. split; [done|]. unfold result_ok; flat. eauto. }
  destruct (used_pooled_ (ex m)) eqn:Eu; [|intros [= <- <-]; destruct m; apply Hdone].
  destruct (idempotent_ (ex m) && negb (retried_ (ex m))) eqn:Er; [|intros [= <- <-]; destruct m; apply Hdone].
  apply andb_true_iff in Er as [Ei Er%negb_true_iff]. intros [= <- <-].
  destruct Hpool as (a & -> & Hpa); [done|]. unfold replayed in Hr. rewrite Er in Hr. subst old.
  destruct m as [[] ? ?]. unfold refresh_deadline. flat. split; flat; auto.
  exists [], [a]. rewrite app_nil_r in Ha. split_and!; [done| |done]. split; [congruence|].
  destruct Hpre as [?|(a' & ? & ?)]; naive_solver.
Qed.

Lemma fail_or_done_inv e status text ev t m f m' :
  make_error_response status e text = failure_response e → e ≠ ErrorNone →
  exch_inv m → phase_ (ex m) ≠ PhDone → fail_or_done e status text ev t m = (f, m') →
  exch_inv m' ∧ f ≠ Raise.
Proof.
  intros He Hne Hm Hph. unfold fail_or_done. destruct (fail _ _ _ _ m) as [b m1] eqn:E.
  intros [= <- <-]. split; [by eapply fail_inv|by destruct b].
Qed.

(** The two ways to a connection. *)
Lemma open_fresh_spec t x ok y :
  open_fresh t x = (ok, y) →
  (ok = false ∧ y = x{{sock_ := None}}) ∨
  (ok = true ∧ ∃ s ph d, y = x{{phase_ := ph; sock_ := Some s; deadline_ := d}} ∧
     (ph = PhConnecting ∨ ph = PhSend ∨ ph = PhTlsHandshake)).
Proof.
  destruct x. unfold open_fresh, refresh_deadline. flat.
  repeat (case_match; flat); intros [= <- <-]; first [by left|right; split; [done|do 3 eexists; eauto] ].
Qed.

Lemma open_fresh_inv t m r m' :
  exch_inv m → phase_ (ex m) = PhConnect → open_fresh_m t m = (r, m') →
  exch_inv m' ∧ (r ≠ Ok true → phase_ (ex m') = PhConnect).
Proof.
  intros [H1 H2 H3 H5 H4 (cur & old & Ha & Hr & Hi)] Hph. unfold in_use in Hi. rewrite Hph in Hi, H4.
  specialize (H4 ltac:(done)). destruct Hi as (-> & Hu & Hoff & Hreq). unfold open_fresh_m.
  destruct (open_fresh t (ex m)) as [ok y] eqn:E. intros [= <- <-].
  destruct m as [[] pool att]. flat. simpl in Ha. subst.
  apply open_fresh_spec in E as [[-> ->]|(-> & s & ph & d & -> & Hs)]; flat; simpl push_attempt;
    (split; [split; flat; auto|naive_solver]).
  - by exists [], old.
  - eexists [_], old. split_and!; [done|done|]. unfold in_use; flat. destruct Hs as [-> |[-> | ->] ]; by eexists.
Qed.

Lemma open_connection_inv t m r m' :
  exch_inv m → phase_ (ex m) = PhConnect → open_connection t m = (r, m') →
  exch_inv m' ∧ (r ≠ Ok true → phase_ (ex m') = PhConnect).
Proof.
  intros Hm Hph. unfold open_connection.
  assert (∀ pool, exch_inv (mkMachine ((ex m){{used_pooled_ := false}}) pool (attempts m)) ∧
    phase_ ((ex m){{used_pooled_ := false}}) = PhConnect) as Hm1.
  { intros pool. pose proof Hm as [_ _ _ _ _ (cur & old & Ha & Hr & Hi)]. unfold in_use in Hi.
    rewrite Hph in Hi. destruct Hi as (_ & Hu & _ & _). destruct m as [[] ? ?]; flat.
    split; [|done]. by apply (inv_same_core _ _ _ Hm). }
  destruct m as [x pool att]. flat.
  match goal with |- context [if ?b then open_fresh_m _ _ else _] => destruct b end;
    [intros E; refine (open_fresh_inv _ _ _ _ _ _ E); [apply Hm1|exact (proj2 (Hm1 pool))]|].
  destruct (checkout _ _ _ _ pool) as [pooled pool'] eqn:Ec. flat.
  destruct pooled as [conn|]; [|intros E; refine (open_fresh_inv _ _ _ _ _ _ E); [apply Hm1|exact (proj2 (Hm1 pool))]].
  destruct (probe_alive t _) as [[]|]; [|intros E; refine (open_fresh_inv _ _ _ _ _ _ E); [apply Hm1|exact (proj2 (Hm1 pool))]|].
  - intros [= <- <-]. split; [|naive_solver]. destruct (Hm1 pool') as [[H1 H2 H3 H5 H4 (cur & old & Ha & Hr & Hi)] Hp1].
    unfold in_use in Hi. flat. rewrite Hp1 in Hi, H4. specialize (H4 ltac:(done)). destruct Hi as (-> & _ & Hoff & Hreq).
    destruct x; unfold refresh_deadline; flat. subst. split; flat; auto.
    eexists [_], old. split_and!; [done|done|by eexists].
  - intros [= <- <-]. split; [apply Hm1|intros _; exact (proj2 (Hm1 pool))].
Qed.

Lemma step_Send_inv t m f m' :
  exch_inv m → phase_ (ex m) = PhSend → step_Send t m = (f, m') →
  exch_inv m' ∧ (f = Raise → phase_ (ex m') ≠ PhDone).
Proof.
  intros Hm Hph.
  set (m1 := if is_empty (request_bytes_ (ex m))
    then m{{ex ::= fun x => x{{request_bytes_ := build_request (params_ x)}} }} else m).
  assert (exch_inv m1 ∧ phase_ (ex m1) = PhSend) as [Hm1 Hph1].
  { subst m1. destruct (is_empty _) eqn:E; [|done]. apply is_empty_true in E.
    destruct Hm as [H1 H2 H3 H5 H4 (cur & old & Ha & Hr & Hi)]. specialize (H5 E).
    unfold in_use in Hi. rewrite Hph in Hi, H4. specialize (H4 ltac:(done)). destruct Hi as (a & -> & Hu & Hs).
    destruct m as [[] ? ?]; flat. subst. split; [|done]. split; flat; auto.
    eexists [_], old. split_and!; [done|done|]. eexists; split_and!; done. }
  unfold step_Send. fold m1. clearbody m1. clear m Hm Hph. cbv zeta.
  destruct (send_off_ (ex m1) <? length (request_bytes_ (ex m1)))%nat eqn:Elt; last first.
  { intros [= <- <-]. split; [|done].
    destruct Hm1 as [H1 H2 H3 H5 H4 (cur & old & Ha & Hr & Hi)]. unfold in_use in Hi. rewrite Hph1 in Hi, H4.
    destruct m1 as [[] ? ?]; unfold refresh_deadline; flat. split; flat; auto. by exists cur, old. }
  destruct (t_send t) as [n e|]; [|by intros [= <- <-]; rewrite Hph1].
  destruct (0 <? n)%nat eqn:En.
  - intros [= <- <-]. split; [|done].
    destruct Hm1 as [H1 H2 H3 H5 H4 (cur & old & Ha & Hr & Hi)]. unfold in_use in Hi. rewrite Hph1 in Hi, H4.
    specialize (H4 ltac:(done)). destruct Hi as (a & -> & Hu & Hs).
    destruct m1 as [[] ? ?]; unfold refresh_deadline; flat. subst. split; flat; auto.
    + intros ->. simpl in Elt. by rewrite (proj2 (Nat.ltb_ge _ _)) in Elt by lia.
    + destruct a as [as_ ap sent]. eexists [_], old. split_and!; [done|done|].
      eexists. split_and!; [done|done|]. simpl in *. rewrite Hs. unfold substr. apply take_take_drop.
  - destruct e.
    + intros [= <- <-]. split; [done|]. done.
    + intros [= <- <-]. split; [|done]. destruct m1 as [[] ? ?]. by apply (inv_same_core _ _ _ Hm1).
    + intros E. apply fail_or_done_inv in E as [? ?]; [done|done|done|done|by rewrite Hph1].
Qed.

(** Completing the response. *)
Lemma finish_ok_inv m x :
  exch_inv m → phase_ (ex m) = PhRead → same_core (ex m) x → exch_inv (m{{ex := finish_ok x}}).
Proof.
  intros Hm Hph Hc. assert (phase_ x = PhRead) as Hx by by rewrite (sc_phase _ _ Hc).
  pose proof (inv_same_core m x (global_pool m) Hm Hc) as [H1 H2 H3 H5 H4 (cur & old & Ha & Hr & Hi)].
  flat. pose proof (in_use_prefix _ _ Hi H3) as Hpre. rewrite Hx in H4. specialize (H4 ltac:(done)).
  destruct m as [y pool att]. flat. clear Hm Hph Hc Hi y.
  assert (∀ z, params_ z = params_ x → idempotent_ z = idempotent_ x → retried_ z = retried_ x →
    request_bytes_ z = request_bytes_ x → send_off_ z = send_off_ x → phase_ z = PhDone → result_ok z →
    exch_inv (mkMachine z pool att)) as Hz.
  { intros z E1 E2 E3 E4 E5 E6 Hok. split; flat; rewrite ?E1, ?E2, ?E4, ?E5; try done.
    exists cur, old. unfold replayed, in_use in *. rewrite E3, E6. done. }
  unfold finish_ok. destruct (parse_status _); destruct x; flat; subst; apply Hz; try done.
  unfold result_ok; flat. by exists InvalidResponse.
Qed.

Lemma same_core_trans x y z : same_core x y → same_core y z → same_core x z.
Proof. intros [] []. split; congruence. Qed.

(** What holds after a turn of the Read phase. *)
Definition turn_ok (f : flow) (m : machine) : Prop := exch_inv m ∧ (f = Raise → phase_ (ex m) ≠ PhDone).

Section read_turn.
  Context (m : machine) (Hm : exch_inv m) (Hph : phase_ (ex m) = PhRead).

Lemma stay_ok f x : same_core (ex m) x → turn_ok f (m{{ex := x}}).
Proof.
  intros Hx. split; [destruct m; by apply inv_same_core|]. intros _.
  pose proof (sc_phase _ _ Hx). destruct m; flat. congruence.
Qed.

Lemma fail_ok x e s text t f m' :
  same_core (ex m) x → make_error_response s e text = failure_response e → e ≠ ErrorNone →
  fail_or_done e s text 0 t (m{{ex := x}}) = (f, m') → turn_ok f m'.
Proof.
  intros Hx He Hne E. destruct (stay_ok Raise x Hx) as [Hi Hp].
  apply fail_or_done_inv in E as [? ?]; auto. by split.
Qed.

Lemma finish_turn x : same_core (ex m) x → turn_ok (Return WantDone) (m{{ex := finish_ok x}}).
Proof. intros Hx. split; [by apply finish_ok_inv|done]. Qed.

Lemma step_eof_ok t x f m' :
  same_core (ex m) x → step_eof t (m{{ex := x}}) = (f, m') → turn_ok f m'.
Proof.
  intros Hx. set (y := x{{peer_closed_ := true}}).
  assert (same_core (ex m) y) as Hy by (eapply same_core_trans; [done|by destruct x]).
  replace (step_eof t (m{{ex := x}})) with
    (if bool_decide (is_Some (find_sub CRLF2 (response_bytes_ y))) && negb (response_keepalive_ y) then
      match try_frame y with
      | (Framed FrameComplete, x) => (Return WantDone, m{{ex := finish_ok x}})
      | (Framed _, x) => fail_or_done ReadFailed 502 "Bad Gateway" 0 t (m{{ex := x}})
      | (FrameThrows, x) => (Raise, m{{ex := x}})
      | (FrameHangs, x) => (Hang, m{{ex := x}})
      end
    else fail_or_done ReadFailed 502 "Bad Gateway" 0 t (m{{ex := y}})) by by destruct m.
  destruct (_ && _); [|by apply fail_ok].
  destruct (try_frame y) as [o z] eqn:Ef. apply try_frame_core in Ef.
  pose proof (same_core_trans _ _ _ Hy Ef) as Hz.
  destruct o as [[]| |]; try (by apply fail_ok); intros [= <- <-];
    first [by apply finish_turn|by apply stay_ok].
Qed.

Lemma step_Read_ok t f m' : step_Read t m = (f, m') → turn_ok f m'.
Proof.
  unfold step_Read. destruct (try_frame (ex m)) as [o x] eqn:Ef. apply try_frame_core in Ef as Hx.
  destruct o as [[]| |]; [|by intros [= <- <-]; apply finish_turn|by apply fail_ok|
    by intros [= <- <-]; apply stay_ok|by intros [= <- <-]; apply stay_ok].
  cbv zeta. destruct (Z.ltb _ _); [by apply fail_ok|].
  unfold step_recv. destruct (t_recv t) as [[|c data]|[]|].
  - by apply step_eof_ok.
  - intros [= <- <-].
    assert (same_core (ex m) (refresh_deadline (t_refresh t) (x{{response_bytes_ ::= fun r => r ++ (c :: data)}})))
      as Hy by (eapply same_core_trans; [done|by destruct x]).
    apply (stay_ok (Again 0)) in Hy. clear -Hy. by destruct m.
  - intros [= <- <-]. by apply stay_ok.
  - intros [= <- <-]. assert (same_core (ex m) (refresh_deadline (t_refresh t) x))
      as Hy by (eapply same_core_trans; [done|by destruct x]).
    apply (stay_ok (Return WantRead)) in Hy. destruct Hy as [Hy _]. clear -Hy. destruct m. by split.
  - by apply fail_ok.
  - intros [= <- <-]. by apply stay_ok.
Qed.
End read_turn.

Lemma enter_phase_ok f m ph now :
  exch_inv m → (phase_ (ex m) = PhConnecting ∨ phase_ (ex m) = PhTlsHandshake) →
  ph = PhSend ∨ ph = PhTlsHandshake →
  turn_ok f (m{{ex ::= fun x => refresh_deadline now (x{{phase_ := ph}})}}).
Proof.
  intros [H1 H2 H3 H5 H4 (cur & old & Ha & Hr & Hi)] Hph Hnew.
  assert (phase_ (ex m) ≠ PhDone) as Hd by (destruct Hph; congruence). specialize (H4 Hd).
  unfold in_use in Hi. destruct m as [[] ? ?]; unfold refresh_deadline; flat. split; flat.
  - split; flat; auto. exists cur, old. split_and!; [done|done|]. unfold in_use; flat.
    destruct Hnew as [-> | ->], Hph as [-> | ->]; done.
  - destruct Hnew as [-> | ->]; done.
Qed.

Lemma run_turn_ok ev t m f m' : exch_inv m → run_turn ev t m = (f, m') → turn_ok f m'.
Proof.
  intros Hm. unfold run_turn. case_bool_decide as Hd; [intros [= <- <-]; by split|].
  assert (∀ e s text ev0, make_error_response s e text = failure_response e → e ≠ ErrorNone →
    fail_or_done e s text ev0 t m = (f, m') → turn_ok f m') as Hfail.
  { intros e s text ev0 He Hne E. apply fail_or_done_inv in E as [? ?]; auto. by split. }
  destruct (expired _ _).
  { unfold step_expired. destruct (phase_ (ex m)); first [by apply Hfail|done]. }
  destruct (phase_ (ex m)) eqn:Hph.
  - unfold step_Connect. destruct (open_connection t m) as [r m1] eqn:E.
    apply open_connection_inv in E as [Hm1 Hp1]; [|done|done].
    destruct r as [[]|]; [by intros [= <- <-]| |intros [= <- <-]; split; [done|by rewrite Hp1] ].
    intros E. apply fail_or_done_inv in E as [? ?]; [by split|done..|by rewrite Hp1].
  - unfold step_Connecting. destruct (_ =? _); [by intros [= <- <-]|].
    destruct (negb _); [by apply Hfail|]. destruct (negb _); [intros [= <- <-]; apply enter_phase_ok; auto|].
    destruct (negb _); [by apply Hfail|intros [= <- <-]; apply enter_phase_ok; auto].
  - unfold step_TlsHandshake. destruct (t_handshake t); [intros [= <- <-]; apply enter_phase_ok; auto|..].
    3: by apply Hfail.
    all: intros [= <- <-]; (split; [|done]); destruct m as [[] ? ?]; by apply (inv_same_core _ _ _ Hm).
  - intros E. by apply step_Send_inv in E.
  - by apply step_Read_ok.
  - done.
Qed.

Lemma run_ok turns ev m f m' rest : exch_inv m → run ev turns m = (f, m', rest) → turn_ok f m'.
Proof.
  revert ev m. induction turns as [|t turns IH]; intros ev m Hm; simpl; [by intros [= <- <- <-]|].
  destruct (run_turn ev t m) as [f1 m1] eqn:E. apply run_turn_ok in E as [Hm1 Hf1]; [|done].
  destruct f1; [by apply IH|by intros [= <- <- <-]..].
Qed.

Lemma advance_inv ev now turns m f m' rest : exch_inv m → advance ev now turns m = (f, m', rest) → exch_inv m'.
Proof.
  intros Hm. unfold advance. destruct (run ev turns m) as [[f1 m1] rest1] eqn:E.
  apply run_ok in E as [Hm1 Hf1]; [|done]. destruct f1; try by intros [= <- <- <-].
  destruct (fail _ _ _ _ m1) as [b m2] eqn:Ef.
  assert (exch_inv m2) as Hm2.
  { eapply fail_inv; [| |exact Hm1|by apply Hf1|exact Ef]; by destruct (phase_ (ex m1)). }
  destruct b; [|by intros [= <- <- <-]]. intros E. by apply run_ok in E as [? _].
Qed.
End replay.

(** ** The exchange under the event loop *)

(** One call of [advance]: the events, the clock of the handler, the answers it
    meets, and the pool as other exchanges left it. *)
Record drive_call := mkCall { d_events : Z; d_now : Z; d_turns : list Turn; d_pool : ConnectionPool }.

Definition drive `{HashOrder} (calls : list drive_call) (m : machine) : machine :=
  foldl (λ m c, (advance (d_events c) (d_now c) (d_turns c) (m{{global_pool := d_pool c}})).1.2) m calls.

Definition machine_init (p : Params) (idem : bool) (now : Z) : machine :=
  mkMachine (exchange_init p idem now) pool_init [].

Lemma machine_init_inv `{HashOrder} p idem now : exch_inv p idem (machine_init p idem now).
Proof.
  unfold machine_init, exchange_init. split; simpl; auto. exists [], []. split_and!; [done|done|].
  unfold in_use; simpl. destruct (p_timeout_ms p <=? 0); [|done]. split; [by left|].
  by exists ConnectTimeout.
Qed.

Lemma drive_inv `{HashOrder} p idem calls m : exch_inv p idem m → exch_inv p idem (drive calls m).
Proof.
  revert m. induction calls as [|c calls IH]; intros m Hm; simpl; [done|]. apply IH.
  destruct (advance _ _ _ _) as [[f m'] rest] eqn:E. simpl. eapply advance_inv; [|exact E].
  destruct m as [x pool att]. by apply (inv_same_core _ _ (mkMachine x pool att) x).
Qed.

(** C12: Whatever the kernel, the TLS layer, the clock and the other users of the
    pool do, a request that is not idempotent is written to one connection at
    most, so a backend cannot see it twice; an idempotent one is written to two
    at most, the first of them from the pool; and what any connection has received
    is a prefix of the built request. *)
Theorem exchange_replay_safe `{HashOrder} p idem now calls :
  let m := drive calls (machine_init p idem now) in
  Forall (λ a, at_sent a `prefix_of` build_request p) (attempts m) ∧
  (length (attempts m) ≤ if idem then 2 else 1)%nat ∧
  (∀ a b, attempts m = [a; b] → at_pooled b = true).
Proof.
  cbv zeta. pose proof (drive_inv p idem calls _ (machine_init_inv p idem now)) as
    [_ _ H3 _ _ (cur & old & -> & Hr & Hi)].
  apply in_use_prefix in Hi; [|done]. unfold replayed in Hr.
  destruct (retried_ _); [destruct Hr as (-> & b & -> & Hb & Hpb)|subst old];
    destruct Hi as [-> |(a & -> & Ha)]; simpl; split_and!; try (by repeat constructor); try naive_solver;
    destruct idem; lia.
Qed.

(** A finished exchange reports either a response with no error or one of
    the seven failures, with status 504 for the three timeouts and 502 for the
    others; an unfinished one never claims success. *)
Theorem exchange_results `{HashOrder} p idem now calls :
  let x := ex (drive calls (machine_init p idem now)) in
  if phase_ x == PhDone then
    if succeeded_ x then error (result_ x) = ErrorNone
    else ∃ e, e ≠ ErrorNone ∧ result_ x = failure_response e
  else succeeded_ x = false.
Proof.
  cbv zeta. pose proof (drive_inv p idem calls _ (machine_init_inv p idem now)) as
    [_ _ _ _ H4 (cur & old & _ & _ & Hi)].
  case_bool_decide as Hd; [|by apply H4]. unfold in_use in Hi. rewrite Hd in Hi. by destruct Hi as [_ Hi].
Qed.
