(* ===== verification/Sockets.v ===== *)
(** The wrappers of the kernel and of OpenSSL: [Socket] ([src/common/mysocket.cpp]),
    [Poller] ([src/common/poller.cpp]) and [Epoll] ([src/common/myepoll.cpp]). The
    raw calls' results are answers; the wrappers turn them into what the rest of
    the program sees, and [Socket] owns a descriptor and an SSL object. *)

From S2P Require Import Prelude UpstreamExchange.

#[local] Open Scope Z_scope.
#[local] Open Scope gateway_scope.

(** * System calls *)

Inductive sys_error := SE_AGAIN | SE_PIPE | SE_INPROGRESS | SE_INTR | SE_NOENT | SE_BADF | SE_OTHER (errno : Z).

Inductive sys_result := SysOk (n : Z) | SysErr (e : sys_error).

(** The value, or the [system_error] that [throw_system_error] raises. *)
Inductive wrapped (A : Type) := Returned (a : A) | SystemError (what : bytes) (e : sys_error).
Arguments Returned {A} _.
Arguments SystemError {A} _ _.

Definition accept (r : sys_result) : wrapped (option Z) :=
  match r with
  | SysOk fd => Returned (Some fd)
  | SysErr SE_AGAIN => Returned None
  | SysErr e => SystemError (lit "accept() failed") e
  end.

(** What callers of [recv] see: the bytes, [-1] with [errno], or an exception. *)
Definition recv (r : bytes + sys_error) : io_read :=
  match r with
  | inl data => Got data
  | inr SE_AGAIN => ReadErr EAGAIN
  | inr _ => ReadThrows
  end.

(** [send] returns [-1] also on a broken pipe. *)
Definition send (r : sys_result) : wrapped Z :=
  match r with
  | SysOk n => Returned n
  | SysErr SE_AGAIN | SysErr SE_PIPE => Returned (-1)
  | SysErr e => SystemError (lit "send() failed") e
  end.

Definition connect (r : sys_result) : wrapped bool :=
  match r with
  | SysOk _ => Returned true
  | SysErr SE_INPROGRESS => Returned false
  | SysErr e => SystemError (lit "connect() failed") e
  end.

(** [getsockopt]'s own failure, as the number of its [errno], or the pending error. *)
Definition socketError (r : Z + Z) : Z :=
  match r with inl error => error | inr errno => errno end.

(** * The descriptor and the SSL object *)

Record Socket := mkSocket {
  fd_ : Z;
  ssl_ : option nat;
  is_ssl_ : bool;
  last_want_ : SSLWant;
}.

Definition socket_of_fd (fd : Z) : Socket := mkSocket fd None false SSL_NONE.

(** The objects alive, and what has been closed and freed. *)
Record Objects := mkObjects {
  objects : gmap nat Socket;
  closed_fds : list Z;
  freed_ssl : list nat;
}.

Definition close_fd (fd : Z) (o : Objects) : Objects := o{{closed_fds ::= fun l => fd :: l}}.

(** [closeSSL] on one object: the object, and what the library did. *)
Definition closeSSL (s : Socket) (o : Objects) : Socket * Objects :=
  match ssl_ s with
  | Some p => (s{{ssl_ := None; is_ssl_ := false}}, o{{freed_ssl ::= fun l => p :: l}})
  | None => (s, o)
  end.

Definition close_if_open (s : Socket) (o : Objects) : Socket * Objects :=
  if fd_ s != -1 then (s{{fd_ := -1}}, close_fd (fd_ s) o) else (s, o).

Definition destroy (s : Socket) (o : Objects) : Objects :=
  let '(s, o) := closeSSL s o in (close_if_open s o).2.

Definition closefd (s : Socket) (o : Objects) : Socket * Objects :=
  if fd_ s != -1 then let '(s, o) := closeSSL s o in (s{{fd_ := -1}}, close_fd (fd_ s) o) else (s, o).

(** The new object, and what is left of the other. *)
Definition move_construct (other : Socket) : Socket * Socket :=
  (mkSocket (fd_ other) (ssl_ other) (is_ssl_ other) SSL_NONE, other{{fd_ := -1; ssl_ := None; is_ssl_ := false}}).

(** Assignment from another object; [last_want_] keeps its value. *)
Definition move_assign (s other : Socket) (o : Objects) : Socket * Socket * Objects :=
  let '(s, o) := closeSSL s o in
  let o := if fd_ s != -1 then close_fd (fd_ s) o else o in
  (s{{fd_ := fd_ other; ssl_ := ssl_ other; is_ssl_ := is_ssl_ other}},
   other{{fd_ := -1; ssl_ := None; is_ssl_ := false}}, o).

(** [p]: what [SSL_new] returns. *)
Definition initSSL (p : option nat) (s : Socket) : bool * Socket :=
  match p with
  | None => (false, s{{ssl_ := None}})
  | Some p => (true, s{{ssl_ := Some p; is_ssl_ := true}})
  end.

(** The name sent in the handshake and the name the certificate is checked for;
    [is_ipv4]: [inet_pton] accepts the name. *)
Definition initSSLClient (p : option nat) (is_ipv4 : bytes → bool) (hostname : bytes) (s : Socket)
    : bool * Socket * option bytes * option bytes :=
  let '(ok, s) := initSSL p s in
  if negb ok then (false, s, None, None)
  else if is_empty hostname then (true, s, None, None)
  else (true, s, if is_ipv4 hostname then None else Some hostname, Some hostname).

(** * OpenSSL's results *)

Inductive ssl_error := SSL_ERROR_WANT_READ | SSL_ERROR_WANT_WRITE | SSL_ERROR_ZERO_RETURN | SSL_ERROR_SYSCALL | SSL_ERROR_SSL | SSL_ERROR_OTHER.

(** The head of the thread's error queue: empty, the reason of an end of stream
    without [close_notify], or another reason. *)
Inductive err_queue := NoError | UnexpectedEof | OtherReason.

Record ssl_result := mkSslResult {
  sr_ret : Z;            (* what the call returns *)
  sr_error : ssl_error;  (* [SSL_get_error] *)
  sr_queue : err_queue;
}.

Inductive io_errno := IO_NONE | IO_EAGAIN | IO_EIO.

Definition sslAccept (r : ssl_result) : SSLHandshakeStatus :=
  if sr_ret r == 1 then HS_COMPLETE
  else match sr_error r with
    | SSL_ERROR_WANT_READ => HS_WANT_READ
    | SSL_ERROR_WANT_WRITE => HS_WANT_WRITE
    | _ => HS_FAILED
    end.

Definition sslConnect (r : ssl_result) (s : Socket) : SSLHandshakeStatus * Socket :=
  if sr_ret r == 1 then (HS_COMPLETE, s{{last_want_ := SSL_NONE}})
  else match sr_error r with
    | SSL_ERROR_WANT_READ => (HS_WANT_READ, s{{last_want_ := SSL_READ}})
    | SSL_ERROR_WANT_WRITE => (HS_WANT_WRITE, s{{last_want_ := SSL_WRITE}})
    | _ => (HS_FAILED, s{{last_want_ := SSL_NONE}})
    end.

(** The result, [errno] and the object. *)
Definition sslRead (r : ssl_result) (s : Socket) : Z * io_errno * Socket :=
  if 0 <? sr_ret r then (sr_ret r, IO_NONE, s{{last_want_ := SSL_NONE}})
  else match sr_error r with
    | SSL_ERROR_WANT_READ => (-1, IO_EAGAIN, s{{last_want_ := SSL_READ}})
    | SSL_ERROR_WANT_WRITE => (-1, IO_EAGAIN, s{{last_want_ := SSL_WRITE}})
    | SSL_ERROR_ZERO_RETURN => (0, IO_NONE, s{{last_want_ := SSL_NONE}})
    | e =>
      let s := s{{last_want_ := SSL_NONE}} in
      match e, sr_queue r with
      | SSL_ERROR_SYSCALL, NoError => if sr_ret r == 0 then (0, IO_NONE, s) else (-1, IO_EIO, s)
      | SSL_ERROR_SSL, UnexpectedEof => (0, IO_NONE, s)
      | _, _ => (-1, IO_EIO, s)
      end
    end.

Definition sslWrite (r : ssl_result) (s : Socket) : Z * io_errno * Socket :=
  if 0 <? sr_ret r then (sr_ret r, IO_NONE, s{{last_want_ := SSL_NONE}})
  else match sr_error r with
    | SSL_ERROR_WANT_READ => (-1, IO_EAGAIN, s{{last_want_ := SSL_READ}})
    | SSL_ERROR_WANT_WRITE => (-1, IO_EAGAIN, s{{last_want_ := SSL_WRITE}})
    | _ => (-1, IO_EIO, s{{last_want_ := SSL_NONE}})
    end.

Definition sslAlive (r : ssl_result) : bool :=
  (0 <? sr_ret r) || match sr_error r with SSL_ERROR_WANT_READ | SSL_ERROR_WANT_WRITE => true | _ => false end.

(** * [Poller] *)

Inductive poll_event := PollRead | PollWrite.

Definition POLLIN : Z := 1.
Definition POLLOUT : Z := 4.
Definition POLLERR : Z := 8.
Definition POLLHUP : Z := 16.
Definition POLLNVAL : Z := 32.

Inductive poll_result := PollReady (revents : Z) | PollZero | PollErr (e : sys_error).

Definition ns_per_ms : Z := 1000000.

(** One round: the clock (nanoseconds), and what [poll] answers in it. The result
    comes with the calls made, the clock before each and the timeout it was given;
    no answer left is a round that does not end. *)
Fixpoint wait_loop (events deadline timeout_ms : Z) (rounds : list (Z * poll_result)) : option WaitResult * list (Z * Z) :=
  match rounds with
  | [] => (None, [])
  | (now, r) :: rounds' =>
    let remaining := (deadline - now) ÷ ns_per_ms in
    if (remaining <=? 0) && (timeout_ms != 0) then (Some WaitTimeout, [])
    else
      let call := (now, if 0 <? remaining then remaining else 0) in
      match r with
      | PollReady revents =>
        (Some (if Z.land revents (Z.lor POLLNVAL POLLERR) != 0 then WaitError
               else if Z.land revents (Z.lor events POLLHUP) != 0 then Ready
               else WaitError), [call])
      | PollZero => (Some WaitTimeout, [call])
      | PollErr SE_INTR =>
        if timeout_ms == 0 then (Some WaitTimeout, [call])
        else let '(res, calls) := wait_loop events deadline timeout_ms rounds' in (res, call :: calls)
      | PollErr _ => (Some WaitError, [call])
      end
  end.

Definition poller_wait (fd : Z) (event : poll_event) (timeout_ms start : Z) (rounds : list (Z * poll_result))
    : option WaitResult * list (Z * Z) :=
  if (fd <? 0) || (timeout_ms <? 0) then (Some WaitError, [])
  else
    let events := match event with PollRead => POLLIN | PollWrite => POLLOUT end in
    wait_loop events (start + timeout_ms * ns_per_ms) timeout_ms rounds.

(** * [Epoll] *)

(** The result of [epoll_ctl]; the set is the kernel's. *)
Definition epoll_add (r : sys_result) : wrapped unit :=
  match r with SysOk _ => Returned tt | SysErr e => SystemError (lit "epoll_ctl() ADD failed") e end.

Definition epoll_modify (r : sys_result) : wrapped unit :=
  match r with SysOk _ => Returned tt | SysErr e => SystemError (lit "epoll_ctl() MOD failed") e end.

Definition epoll_del (r : sys_result) : wrapped unit :=
  match r with
  | SysOk _ | SysErr SE_NOENT | SysErr SE_BADF => Returned tt
  | SysErr e => SystemError (lit "epoll_ctl() DEL failed") e
  end.

Record EpollWaitResult := mkWaitResult {
  event_count : Z;
  timeout : bool;
  interrupted : bool;
}.

Definition epoll_wait (r : sys_result) : wrapped EpollWaitResult :=
  match r with
  | SysOk n => Returned (if 0 <? n then mkWaitResult n false false else mkWaitResult 0 true false)
  | SysErr SE_INTR => Returned (mkWaitResult 0 false true)
  | SysErr e => SystemError (lit "epoll_wait() failed") e
  end.

(** * Ownership *)

Inductive socket_op :=
| OpConstruct (i : nat) (fd : Z)
| OpMoveConstruct (i from : nat)
| OpMoveAssign (i from : nat)
| OpCloseFd (i : nat)
| OpCloseSSL (i : nat)
| OpInitSSL (i : nat) (p : option nat)
| OpDestroy (i : nat).

(** [None]: the object does not exist, or the name is in use. *)
Definition socket_step (op : socket_op) (o : Objects) : option Objects :=
  match op with
  | OpConstruct i fd => if decide (objects o !! i = None) then Some (o{{objects ::= <[i := socket_of_fd fd]>}}) else None
  | OpMoveConstruct i from =>
    other ← objects o !! from;
    if decide (objects o !! i = None) then
      let '(s, other) := move_construct other in Some (o{{objects ::= fun m => <[i := s]> (<[from := other]> m)}})
    else None
  | OpMoveAssign i from =>
    s ← objects o !! i; other ← objects o !! from;
    if decide (i = from) then Some o
    else let '(s, other, o) := move_assign s other o in Some (o{{objects ::= fun m => <[i := s]> (<[from := other]> m)}})
  | OpCloseFd i => s ← objects o !! i; let '(s, o) := closefd s o in Some (o{{objects ::= <[i := s]>}})
  | OpCloseSSL i => s ← objects o !! i; let '(s, o) := closeSSL s o in Some (o{{objects ::= <[i := s]>}})
  | OpInitSSL i p => s ← objects o !! i; Some (o{{objects ::= <[i := (initSSL p s).2]>}})
  | OpDestroy i => s ← objects o !! i; Some ((destroy s o){{objects ::= delete i}})
  end.

Fixpoint run_sockets (ops : list socket_op) (o : Objects) : option Objects :=
  match ops with
  | [] => Some o
  | op :: ops' => o' ← socket_step op o; run_sockets ops' o'
  end.

Definition no_objects : Objects := mkObjects ∅ [] [].

(** What an object holds. *)
Definition held_fd (s : Socket) : list Z := if decide (fd_ s = -1) then [] else [fd_ s].
Definition held_ssl (s : Socket) : list nat := match ssl_ s with Some p => [p] | None => [] end.

Definition gather {A} (f : Socket → list A) (m : gmap nat Socket) : list A := concat (f <$> (map_to_list m).*2).

(** What is handed to the objects. *)
Definition given_fd (op : socket_op) : list Z := match op with OpConstruct _ fd => if decide (fd = -1) then [] else [fd] | _ => [] end.
Definition given_ssl (op : socket_op) : list nat := match op with OpInitSSL _ (Some p) => [p] | _ => [] end.

(** [initSSL] is called on objects that have no SSL object yet. *)
Definition init_once (op : socket_op) (o : Objects) : Prop :=
  match op with OpInitSSL i _ => ∀ s, objects o !! i = Some s → ssl_ s = None | _ => True end.

Fixpoint inits_once (ops : list socket_op) (o : Objects) : Prop :=
  match ops with
  | [] => True
  | op :: ops' => init_once op o ∧ match socket_step op o with Some o' => inits_once ops' o' | None => True end
  end.

(** Everything that was given is held or released. *)
Definition owned (o : Objects) (fds : list Z) (ssls : list nat) : Prop :=
  closed_fds o ++ gather held_fd (objects o) ≡ₚ fds ∧ freed_ssl o ++ gather held_ssl (objects o) ≡ₚ ssls.

(** ** Gathering *)

Section gather.
  Context {A : Type} (f : Socket → list A).

Lemma gather_fresh i s m : m !! i = None → gather f (<[i := s]> m) ≡ₚ f s ++ gather f m.
Proof. intros Hi. unfold gather. by rewrite (map_to_list_insert m i s Hi). Qed.

Lemma gather_take i s m : m !! i = Some s → gather f m ≡ₚ f s ++ gather f (delete i m).
Proof. intros Hi. rewrite <- gather_fresh by (by rewrite lookup_delete_eq). by rewrite insert_delete_id. Qed.

Lemma gather_replace i s m : gather f (<[i := s]> m) ≡ₚ f s ++ gather f (delete i m).
Proof. rewrite <- insert_delete_eq. by rewrite gather_fresh by (by rewrite lookup_delete_eq). Qed.

(** An object that is emptied into another. *)
Lemma gather_moved i j s s' t m :
  i ≠ j → m !! j = Some s → f s' = [] → gather f (<[i := t]> (<[j := s']> m)) ≡ₚ f t ++ gather f (delete i (delete j m)).
Proof.
  intros Hij Hj Hs. rewrite gather_replace, delete_insert_ne by congruence.
  by rewrite gather_replace, Hs, delete_delete.
Qed.
End gather.

(** ** Every operation keeps the accounts *)

Lemma closeSSL_spec s o s' o' :
  closeSSL s o = (s', o') →
  objects o' = objects o ∧ closed_fds o' = closed_fds o ∧ freed_ssl o' = held_ssl s ++ freed_ssl o ∧ fd_ s' = fd_ s ∧ ssl_ s' = None.
Proof. unfold closeSSL, held_ssl. destruct s as [fd [p|] b w], o; intros [= <- <-]; done. Qed.

Lemma destroy_spec s o :
  objects (destroy s o) = objects o ∧ closed_fds (destroy s o) = held_fd s ++ closed_fds o ∧ freed_ssl (destroy s o) = held_ssl s ++ freed_ssl o.
Proof.
  unfold destroy. destruct (closeSSL s o) as [s' o'] eqn:E. apply closeSSL_spec in E as (E1 & E2 & E3 & E4 & _).
  unfold close_if_open, held_fd. rewrite E4. destruct (decide (fd_ s = -1)) as [->|Hn].
  - by rewrite bool_decide_true by done.
  - rewrite bool_decide_false by done. destruct o'. cbn in *. by subst.
Qed.

Lemma closefd_spec s o s' o' :
  closefd s o = (s', o') →
  objects o' = objects o ∧ closed_fds o' = held_fd s ++ closed_fds o ∧ fd_ s' = -1 ∧
  freed_ssl o' ++ held_ssl s' ≡ₚ held_ssl s ++ freed_ssl o.
Proof.
  unfold closefd, held_fd. destruct (decide (fd_ s = -1)) as [Hf|Hn].
  - rewrite bool_decide_true by done. intros [= <- <-]. split_and!; [done..|]. apply Permutation_app_comm.
  - rewrite bool_decide_false by done. destruct (closeSSL s o) as [s1 o1] eqn:E. apply closeSSL_spec in E as (E1 & E2 & E3 & E4 & E5).
    intros [= <- <-]. destruct s1, o1. cbn in *. subst. unfold held_ssl at 1. cbn. by rewrite app_nil_r.
Qed.

Lemma move_assign_spec s other o s' other' o' :
  move_assign s other o = (s', other', o') →
  objects o' = objects o ∧ closed_fds o' = held_fd s ++ closed_fds o ∧ freed_ssl o' = held_ssl s ++ freed_ssl o ∧
  held_fd s' = held_fd other ∧ held_ssl s' = held_ssl other ∧ held_fd other' = [] ∧ held_ssl other' = [].
Proof.
  unfold move_assign, held_fd at 1. destruct (closeSSL s o) as [s1 o1] eqn:E. apply closeSSL_spec in E as (E1 & E2 & E3 & E4 & E5).
  rewrite E4. intros [= <- <- <-]. destruct s1, other. cbn in *. destruct (decide (fd_ s = -1)) as [Hf|Hn].
  - rewrite bool_decide_true by done. done.
  - rewrite bool_decide_false by done. destruct o1. cbn in *. by subst.
Qed.

Lemma gather_two {A} (f : Socket → list A) i j s t m :
  i ≠ j → m !! i = Some s → m !! j = Some t → gather f m ≡ₚ f s ++ f t ++ gather f (delete i (delete j m)).
Proof.
  intros Hij Hi Hj. rewrite (gather_take f i s m Hi), (gather_take f j t (delete i m)) by (by rewrite lookup_delete_ne).
  by rewrite delete_delete.
Qed.

Lemma move_step_owned i j o o' fds ssls :
  owned o fds ssls → socket_step (OpMoveConstruct i j) o = Some o' ∨ socket_step (OpMoveAssign i j) o = Some o' → owned o' fds ssls.
Proof.
  unfold owned. intros [Hf Hs]. rewrite <- Hf, <- Hs. clear Hf Hs. cbn [socket_step].
  destruct (objects o !! j) as [other|] eqn:Ej; [|destruct (objects o !! i); naive_solver].
  intros [E|E].
  - cbn [mbind option_bind] in E. destruct (decide (objects o !! i = None)) as [Ei|]; [|done].
    cbn [move_construct] in E. injection E as <-. assert (i ≠ j) by congruence. destruct o as [m cl fr], other. cbn in *.
    rewrite !(gather_moved _ i j _ _ _ m) by done. rewrite !(gather_take _ j _ m Ej).
    by rewrite delete_id by (by rewrite lookup_delete_ne).
  - destruct (objects o !! i) as [s|] eqn:Ei; cbn [mbind option_bind] in E; [|done].
    destruct (decide (i = j)) as [->|Hij]; [by injection E as <-|].
    destruct (move_assign s other o) as [ [s' other'] o1] eqn:Em. injection E as <-.
    apply move_assign_spec in Em as (E1 & E2 & E3 & E4 & E5 & E6 & E7). destruct o1 as [m cl fr]. cbn in *. subst m cl fr.
    rewrite !(gather_moved _ i j other), !(gather_two _ i j s other (objects o)) by done. rewrite E4, E5. split; solve_Permutation.
Qed.

Lemma socket_step_owned op o o' fds ssls :
  owned o fds ssls → init_once op o → socket_step op o = Some o' → owned o' (fds ++ given_fd op) (ssls ++ given_ssl op).
Proof.
  intros Ho Hi E. destruct op as [i fd|i j|i j|i|i|i p|i]; cbn [given_fd given_ssl]; rewrite ?app_nil_r;
    [|by eapply move_step_owned; eauto..| | | |]; cbn [socket_step] in E; destruct Ho as [Hf Hs]; unfold owned; rewrite <- Hf, <- Hs; clear Hf Hs.
  all: destruct (objects o !! i) as [s|] eqn:Ei; cbn [mbind option_bind] in E; try done.
  - injection E as <-. destruct o as [m cl fr]. cbn in *. rewrite !gather_fresh by done. unfold held_fd, held_ssl. cbn. split; solve_Permutation.
  - destruct (closefd s o) as [s' o1] eqn:Ec. injection E as <-. apply closefd_spec in Ec as (E1 & E2 & E3 & E4).
    destruct o1 as [m cl fr]. cbn in *. subst m cl. rewrite !gather_replace, !(gather_take _ i s _ Ei). unfold held_fd at 2. rewrite E3. cbn.
    split; [solve_Permutation|]. rewrite app_assoc, E4. solve_Permutation.
  - destruct (closeSSL s o) as [s' o1] eqn:Ec. injection E as <-. apply closeSSL_spec in Ec as (E1 & E2 & E3 & E4 & E5).
    destruct o1 as [m cl fr]. cbn in *. subst m cl fr. rewrite !gather_replace, !(gather_take _ i s _ Ei). unfold held_fd at 1, held_ssl at 2. rewrite E4, E5.
    split; [done|solve_Permutation].
  - injection E as <-. specialize (Hi s Ei). destruct o as [m cl fr], s as [fd sl b w]. cbn in *. subst sl.
    rewrite !gather_replace, !(gather_take _ i _ _ Ei). destruct p; cbn; split; try done; solve_Permutation.
  - injection E as <-. destruct (destroy_spec s o) as (E1 & E2 & E3). destruct (destroy s o) as [m cl fr]. cbn in *. subst.
    rewrite !(gather_take _ i s _ Ei). split; solve_Permutation.
Qed.

Lemma run_sockets_owned ops o o' fds ssls :
  owned o fds ssls → inits_once ops o → run_sockets ops o = Some o' →
  owned o' (fds ++ concat (given_fd <$> ops)) (ssls ++ concat (given_ssl <$> ops)).
Proof.
  revert o fds ssls. induction ops as [|op ops IH]; intros o fds ssls Ho Hi; cbn [run_sockets fmap list_fmap concat].
  - intros [= <-]. by rewrite !app_nil_r.
  - destruct Hi as [Hi His]. destruct (socket_step op o) as [o1|] eqn:E; cbn [mbind option_bind]; [|done].
    intros Hr. eapply IH in Hr; [|by eapply socket_step_owned|done]. by rewrite <- !app_assoc in Hr.
Qed.

(** C32: Through any sequence of constructions, moves, assignments, explicit closes
    and destructions of [Socket] objects, each descriptor and each SSL object that
    was handed to one is held by exactly one living object or was released
    exactly once; when no object lives all are released. [initSSL] must not be
    called twice on an object, which would lose its first SSL object. *)
Theorem sockets_own ops o' :
  inits_once ops no_objects → run_sockets ops no_objects = Some o' →
  closed_fds o' ++ gather held_fd (objects o') ≡ₚ concat (given_fd <$> ops) ∧
  freed_ssl o' ++ gather held_ssl (objects o') ≡ₚ concat (given_ssl <$> ops) ∧
  (objects o' = ∅ → closed_fds o' ≡ₚ concat (given_fd <$> ops) ∧ freed_ssl o' ≡ₚ concat (given_ssl <$> ops)).
Proof.
  intros Hi Hr. apply (run_sockets_owned ops no_objects o' [] []) in Hr as [H1 H2]; [|done|done].
  split_and!; [done..|]. intros E. rewrite E in H1, H2. unfold gather in H1, H2. rewrite map_to_list_empty in H1, H2.
  cbn in H1, H2. by rewrite !app_nil_r in H1, H2.
Qed.

(** A connection of the pool: opened, handshaken, moved into the pool's object,
    closed there, and both destroyed. *)
Lemma sockets_own_witness :
  ∃ o', run_sockets [OpConstruct 0 7; OpInitSSL 0 (Some 1%nat); OpMoveConstruct 1 0; OpDestroy 0; OpCloseFd 1; OpDestroy 1] no_objects = Some o' ∧
    closed_fds o' ≡ₚ [7] ∧ freed_ssl o' ≡ₚ [1%nat].
Proof.
  set (ops := [_; _; _; _; _; _]). eexists. split; [vm_compute; reflexivity|].
  refine (proj2 (proj2 (sockets_own ops _ _ _)) _); [|vm_compute; reflexivity|reflexivity].
  vm_compute. split_and!; try done. by intros s [= <-].
Defined.

(** [recv] and [sslRead] never report an interruption: it is an exception of the
    wrapper, before the callers' test of [EINTR]. *)
Lemma recv_never_interrupted r : recv r ≠ ReadErr EINTR.
Proof. by destruct r as [|[] ]. Qed.

(** ** [Poller] *)

Lemma wait_loop_calls events deadline timeout_ms rounds :
  Forall (λ c : Z * Z, 0 <= c.2 ∧ c.1 + c.2 * ns_per_ms <= Z.max c.1 deadline) (wait_loop events deadline timeout_ms rounds).2.
Proof.
  induction rounds as [|[now r] rounds IH]; cbn [wait_loop]; [done|].
  set (q := (deadline - now) ÷ ns_per_ms). assert (0 < q → q * ns_per_ms <= deadline - now) as Hq.
  { intros Hp. destruct (Z.le_gt_cases 0 (deadline - now)) as [Hd|Hd].
    - pose proof (Z.mul_quot_le (deadline - now) ns_per_ms Hd ltac:(done)). unfold q. lia.
    - enough (q <= 0) by lia. unfold q. rewrite <- (Z.opp_involutive (deadline - now)), Z.quot_opp_l by done.
      pose proof (Z.quot_pos (- (deadline - now)) ns_per_ms ltac:(lia) ltac:(done)). lia. }
  clearbody q. destruct (_ && _); [done|].
  assert (0 <= (if 0 <? q then q else 0) ∧ now + (if 0 <? q then q else 0) * ns_per_ms <= Z.max now deadline) as Hc.
  { destruct (Z.ltb_spec 0 q); lia. }
  destruct r as [revents| |[] ]; try by constructor.
  destruct (timeout_ms == 0); [by constructor|]. destruct (wait_loop _ _ _ rounds). by constructor.
Qed.

Lemma wait_loop_returns events deadline timeout_ms rounds :
  Exists (λ r, r.2 ≠ PollErr SE_INTR ∨ timeout_ms = 0 ∨ deadline <= r.1) rounds →
  is_Some (wait_loop events deadline timeout_ms rounds).1.
Proof.
  induction rounds as [|[now r] rounds IH]; intros He; [by inversion He|]. cbn [wait_loop].
  destruct (_ && _) eqn:Ec; [by eexists|]. destruct r as [revents| |[] ]; try by eexists.
  destruct (decide (timeout_ms = 0)) as [->|Hn]; [by eexists|]. rewrite (bool_decide_false _ Hn).
  rewrite (bool_decide_false _ Hn), andb_true_r in Ec. apply Exists_cons in He as [ [?|[?|Hd] ]|He]; [done|done| |].
  - cbn in Hd. exfalso. apply Z.leb_gt in Ec. revert Ec. rewrite <- (Z.opp_involutive (deadline - now)), Z.quot_opp_l by done.
    pose proof (Z.quot_pos (- (deadline - now)) ns_per_ms ltac:(lia) ltac:(done)). lia.
  - destruct (IH He) as [x Hx]. destruct (wait_loop _ _ _ rounds). by exists x.
Qed.

(** A wait for a descriptor asks [poll] to sleep only within its budget, also
    after interruptions, never past the deadline and never without limit, and it
    returns: at the latest in the first round whose clock reads the deadline,
    in the first round without a budget, and whenever [poll] is not interrupted. *)
Theorem poller_wait_bounded fd event timeout_ms start rounds :
  Forall (λ c : Z * Z, 0 <= c.2 ∧ c.1 + c.2 * ns_per_ms <= Z.max c.1 (start + timeout_ms * ns_per_ms))
    (poller_wait fd event timeout_ms start rounds).2 ∧
  (Exists (λ r, r.2 ≠ PollErr SE_INTR ∨ timeout_ms = 0 ∨ start + timeout_ms * ns_per_ms <= r.1) rounds →
   is_Some (poller_wait fd event timeout_ms start rounds).1).
Proof.
  unfold poller_wait. destruct (_ || _); [split; [done|by eexists]|]. split; [apply wait_loop_calls|apply wait_loop_returns].
Qed.

(** Interrupted after 4 ms of 10, again after 9.5 ms, when nothing is left. *)
Lemma poller_wait_bounded_witness :
  let rounds := [(0, PollErr SE_INTR); (4000000, PollErr SE_INTR); (9500000, PollErr SE_INTR); (10000000, PollZero)] in
  poller_wait 3 PollRead 10 0 rounds = (Some WaitTimeout, [(0, 10); (4000000, 6)]) ∧
  is_Some (poller_wait 3 PollRead 10 0 rounds).1.
Proof.
  cbv zeta. split; [reflexivity|]. apply (poller_wait_bounded 3 PollRead 10 0). do 3 right. left. right. right. by vm_compute.
Defined.
