(* ===== verification/Descriptors.v ===== *)
(** Opening descriptors and setting their options: the constructors and setters of
    [Socket] ([src/common/mysocket.cpp], [include/common/mysocket.h]), the
    exception of [src/common/error_utils.cpp], and the ownership of an epoll
    descriptor ([src/common/myepoll.cpp]). *)

From S2P Require Import Prelude UpstreamExchange Sockets.

#[local] Open Scope Z_scope.
#[local] Open Scope gateway_scope.

(** * Exceptions *)

Definition errno_of (e : sys_error) : Z :=
  match e with
  | SE_AGAIN => 11
  | SE_PIPE => 32
  | SE_INPROGRESS => 115
  | SE_INTR => 4
  | SE_NOENT => 2
  | SE_BADF => 9
  | SE_OTHER n => n
  end.

(** [what()] of the exception: the argument of [system_error]'s constructor, to
    which the constructor appends the message of the category once more. *)
Definition throw_system_error (strerror : Z → bytes) (context : bytes) (err : Z) : bytes :=
  (context ++ ": " ++ strerror err ++ " (errno=" ++ to_string err ++ ")") ++ ": " ++ strerror err.

#[export] Instance wrapped_ret : MRet wrapped := λ A a, Returned a.
#[export] Instance wrapped_bind : MBind wrapped :=
  λ A B f x, match x with Returned a => f a | SystemError what e => SystemError what e end.

(** A call that throws whenever it fails. *)
Definition checked (context : bytes) (r : sys_result) : wrapped Z :=
  match r with SysOk n => Returned n | SysErr e => SystemError context e end.

Definition socket_new (r : sys_result) : wrapped Z := checked (lit "socket() failed") r.
Definition sock_bind (r : sys_result) : wrapped Z := checked (lit "bind() failed") r.
Definition sock_listen (r : sys_result) : wrapped Z := checked (lit "listen() failed") r.

(** * The options of a descriptor *)

(** What the kernel keeps for one descriptor: the status flags ([F_GETFL]), the
    descriptor flags ([F_GETFD]), and the options of the socket. *)
Record Description := mkDescription {
  status_flags : Z;
  fd_flags : Z;
  sock_options : gmap (Z * Z) Z;
}.

Definition SOL_SOCKET : Z := 1.
Definition SO_REUSEADDR : Z := 2.
Definition SO_KEEPALIVE : Z := 9.
Definition SO_REUSEPORT : Z := 15.
Definition IPPROTO_TCP : Z := 6.
Definition TCP_NODELAY : Z := 1.
Definition O_NONBLOCK : Z := 2048.
Definition FD_CLOEXEC : Z := 1.

(** Each call succeeds, or fails with the error given. *)
Definition kernel_call {A} (context : bytes) (failure : option sys_error) (a : A) : wrapped A :=
  match failure with Some e => SystemError context e | None => Returned a end.

Definition setsockopt (context : bytes) (level name value : Z) (failure : option sys_error) (d : Description) : wrapped Description :=
  kernel_call context failure (d{{sock_options ::= <[(level, name) := value]>}}).

Definition setOption : Z → Z → Z → option sys_error → Description → wrapped Description := setsockopt (lit "setsockopt() failed").

Definition as_int (enable : bool) : Z := if enable then 1 else 0.

Definition setReuseAddr (enable : bool) := setOption SOL_SOCKET SO_REUSEADDR (as_int enable).
Definition setReusePort (enable : bool) := setOption SOL_SOCKET SO_REUSEPORT (as_int enable).
Definition setKeepAlive (enable : bool) := setOption SOL_SOCKET SO_KEEPALIVE (as_int enable).
Definition setnodelay := setsockopt (lit "setsockopt() TCP_NODELAY failed,setnodelay()") IPPROTO_TCP TCP_NODELAY 1.

(** The two calls of [fcntl], and their failures. *)
Definition change_status (who : bytes) (f : Z → Z) (get set : option sys_error) (d : Description) : wrapped Description :=
  flags ← kernel_call ("fcntl() F_GETFL failed," ++ who) get (status_flags d);
  kernel_call ("fcntl() F_SETFL failed," ++ who) set (d{{status_flags := f flags}}).

Definition setnonblocking := change_status (lit "setnonblocking()") (λ flags, Z.lor flags O_NONBLOCK).
Definition setblocking := change_status (lit "setblocking()") (λ flags, Z.land flags (Z.lnot O_NONBLOCK)).

Definition setcloexec (failure : option sys_error) (d : Description) : wrapped Description :=
  kernel_call (lit "fcntl() F_SETFD failed,setcloexec()") failure (d{{fd_flags := FD_CLOEXEC}}).

(** The options of a client's socket, in the order of [TcpWorker::handle_accept]. *)
Record SockSetup := mkSockSetup { su_get : option sys_error; su_set : option sys_error; su_cloexec : option sys_error; su_nodelay : option sys_error }.

Definition prepare_client (a : SockSetup) (d : Description) : wrapped Description :=
  d ← setnonblocking (su_get a) (su_set a) d;
  d ← setcloexec (su_cloexec a) d;
  setnodelay (su_nodelay a) d.

(** * The epoll descriptor *)

Definition epoll_new (r : sys_result) : wrapped Z := checked (lit "epoll_create() failed") r.

(** The objects alive, by their descriptor, and the descriptors closed. *)
Record Epolls := mkEpolls { epolls : gmap nat Z; epolls_closed : list Z }.

Definition close_epoll (fd : Z) (o : Epolls) : Epolls := if fd != -1 then o{{epolls_closed ::= fun l => fd :: l}} else o.

Inductive epoll_op :=
| EpConstruct (i : nat) (fd : Z)
| EpMoveConstruct (i from : nat)
| EpMoveAssign (i from : nat)
| EpClose (i : nat)
| EpDestroy (i : nat).

(** [None]: the object does not exist, or the name is in use. *)
Definition epoll_step (op : epoll_op) (o : Epolls) : option Epolls :=
  match op with
  | EpConstruct i fd => if decide (epolls o !! i = None) then Some (o{{epolls ::= <[i := fd]>}}) else None
  | EpMoveConstruct i from =>
    fd ← epolls o !! from;
    if decide (epolls o !! i = None) then Some (o{{epolls ::= fun m => <[i := fd]> (<[from := -1]> m)}}) else None
  | EpMoveAssign i from =>
    mine ← epolls o !! i; fd ← epolls o !! from;
    if decide (i = from) then Some o
    else Some ((close_epoll mine o){{epolls ::= fun m => <[i := fd]> (<[from := -1]> m)}})
  | EpClose i => fd ← epolls o !! i; Some ((close_epoll fd o){{epolls ::= <[i := -1]>}})
  | EpDestroy i => fd ← epolls o !! i; Some ((close_epoll fd o){{epolls ::= delete i}})
  end.

Fixpoint run_epolls (ops : list epoll_op) (o : Epolls) : option Epolls :=
  match ops with
  | [] => Some o
  | op :: ops' => o' ← epoll_step op o; run_epolls ops' o'
  end.

Definition no_epolls : Epolls := mkEpolls ∅ [].

(** * Properties *)

(** ** Options *)

Lemma nonblocking_bit flags i : Z.testbit (Z.lor flags O_NONBLOCK) i = if decide (i = 11) then true else Z.testbit flags i.
Proof.
  rewrite Z.lor_spec. change O_NONBLOCK with (2 ^ 11). rewrite Z.pow2_bits_eqb by done.
  destruct (Z.eqb_spec 11 i), (decide (i = 11)); try lia; by rewrite ?orb_true_r, ?orb_false_r.
Qed.

Lemma blocking_bit flags i : 0 <= i → Z.testbit (Z.land flags (Z.lnot O_NONBLOCK)) i = if decide (i = 11) then false else Z.testbit flags i.
Proof.
  intros Hi. rewrite Z.land_spec, Z.lnot_spec by done. change O_NONBLOCK with (2 ^ 11). rewrite Z.pow2_bits_eqb by done.
  destruct (Z.eqb_spec 11 i), (decide (i = 11)); try lia; cbn; by rewrite ?andb_true_r, ?andb_false_r.
Qed.

(** A client's socket is set up completely or the exception says which call
    failed: afterwards it does not block, is closed by [exec] and sends at once,
    and every other flag and option is as it was. *)
Lemma prepare_client_spec a d :
  match prepare_client a d with
  | Returned d' =>
    (∀ i, Z.testbit (status_flags d') i = if decide (i = 11) then true else Z.testbit (status_flags d) i) ∧
    fd_flags d' = FD_CLOEXEC ∧ sock_options d' = <[(IPPROTO_TCP, TCP_NODELAY) := 1]> (sock_options d)
  | SystemError what e =>
    (what, Some e) ∈ [(lit "fcntl() F_GETFL failed,setnonblocking()", su_get a); (lit "fcntl() F_SETFL failed,setnonblocking()", su_set a);
      (lit "fcntl() F_SETFD failed,setcloexec()", su_cloexec a); (lit "setsockopt() TCP_NODELAY failed,setnodelay()", su_nodelay a)]
  end.
Proof.
  destruct a as [ [e|] [e1|] [e2|] [e3|] ], d; cbn; try set_solver. split_and!; [|done..]. intros i. apply nonblocking_bit.
Qed.

(** The two setters undo each other, up to the flag they are about. *)
Lemma blocking_roundtrip d d1 d2 i :
  setnonblocking None None d = Returned d1 → setblocking None None d1 = Returned d2 → 0 <= i →
  Z.testbit (status_flags d2) i = if decide (i = 11) then false else Z.testbit (status_flags d) i.
Proof.
  destruct d. cbn. intros [= <-]. cbn. intros [= <-] Hi. cbn. rewrite blocking_bit, nonblocking_bit by done. by destruct (decide (i = 11)).
Qed.

(** ** Ownership *)

(** An epoll object is a socket object without SSL. *)
Definition as_objects (o : Epolls) : Objects := mkObjects (socket_of_fd <$> epolls o) (epolls_closed o) [].

Definition as_op (op : epoll_op) : socket_op :=
  match op with
  | EpConstruct i fd => OpConstruct i fd
  | EpMoveConstruct i from => OpMoveConstruct i from
  | EpMoveAssign i from => OpMoveAssign i from
  | EpClose i => OpCloseFd i
  | EpDestroy i => OpDestroy i
  end.

Definition epoll_given (op : epoll_op) : list Z := match op with EpConstruct _ fd => if decide (fd = -1) then [] else [fd] | _ => [] end.

Lemma close_epoll_objects fd o : as_objects (close_epoll fd o) = if fd != -1 then close_fd fd (as_objects o) else as_objects o.
Proof. unfold close_epoll. by destruct (negb _), o. Qed.

Lemma epoll_step_simulated op o o' : epoll_step op o = Some o' → socket_step (as_op op) (as_objects o) = Some (as_objects o').
Proof.
  destruct o as [m cl]. unfold as_objects.
  destruct op as [i fd|i j|i j|i|i]; cbn [epoll_step as_op socket_step epolls objects epolls_closed]; rewrite ?lookup_fmap.
  - destruct (m !! i); [done|]. cbn. intros [= <-]. cbn. by rewrite fmap_insert.
  - destruct (m !! j) as [fd|]; [|done]. destruct (m !! i); [done|]. cbn. intros [= <-]. cbn. by rewrite !fmap_insert.
  - destruct (m !! i) as [mine|]; [|done]. destruct (m !! j) as [fd|]; [|done]. cbn [mbind option_bind fmap option_fmap option_map].
    destruct (decide (i = j)); [by intros [= <-]|]. unfold move_assign, close_epoll. cbn [closeSSL ssl_ fd_ socket_of_fd].
    destruct (mine != -1); intros [= <-]; cbn; by rewrite !fmap_insert.
  - destruct (m !! i) as [fd|]; [|done]. cbn [mbind option_bind fmap option_fmap option_map]. unfold closefd, close_epoll. cbn [closeSSL ssl_ fd_ socket_of_fd].
    destruct (bool_decide_reflect (fd = -1)) as [->|]; intros [= <-]; cbn; by rewrite !fmap_insert.
  - destruct (m !! i) as [fd|]; [|done]. cbn [mbind option_bind fmap option_fmap option_map]. unfold destroy, close_epoll. cbn [closeSSL ssl_ fd_ socket_of_fd close_if_open].
    unfold close_if_open. cbn [fd_ socket_of_fd]. destruct (fd != -1); intros [= <-]; cbn; by rewrite !fmap_delete.
Qed.

Lemma run_epolls_simulated ops o o' : run_epolls ops o = Some o' → run_sockets (as_op <$> ops) (as_objects o) = Some (as_objects o').
Proof.
  revert o. induction ops as [|op ops IH]; intros o; [by intros [= <-]|]. cbn. intros (o1 & E1 & E2)%bind_Some.
  rewrite (epoll_step_simulated _ _ _ E1). cbn. by apply IH.
Qed.

Lemma as_op_inits ops o : inits_once (as_op <$> ops) o.
Proof. revert o. induction ops as [|op ops IH]; intros o; [done|]. cbn. split; [by destruct op|]. by destruct (socket_step _ _). Qed.

Lemma as_op_given ops : concat (given_fd <$> (as_op <$> ops)) = concat (epoll_given <$> ops).
Proof. induction ops as [|op ops IH]; [done|]. cbn. rewrite IH. by destruct op. Qed.

(** Through any sequence of constructions, moves, assignments, closes and
    destructions of [Epoll] objects, each descriptor is held by exactly one object
    or was closed exactly once; with no object left all are closed. *)
Theorem epolls_own ops o' :
  run_epolls ops no_epolls = Some o' →
  epolls_closed o' ++ gather held_fd (socket_of_fd <$> epolls o') ≡ₚ concat (epoll_given <$> ops) ∧
  (epolls o' = ∅ → epolls_closed o' ≡ₚ concat (epoll_given <$> ops)).
Proof.
  intros Hr%run_epolls_simulated. change (as_objects no_epolls) with no_objects in Hr.
  apply (run_sockets_owned _ no_objects _ [] []) in Hr as [Hf _]; [|done|apply as_op_inits]. rewrite as_op_given in Hf.
  split; [exact Hf|]. intros E. destruct o' as [m cl]. cbn in E, Hf. subst m. unfold gather in Hf.
  rewrite fmap_empty, map_to_list_empty in Hf. cbn in Hf. by rewrite app_nil_r in Hf.
Qed.

(** A worker's descriptor, moved into another object and closed there. *)
Lemma epolls_own_witness :
  ∃ o', run_epolls [EpConstruct 0 6; EpMoveConstruct 1 0; EpDestroy 0; EpClose 1; EpDestroy 1] no_epolls = Some o' ∧ epolls_closed o' ≡ₚ [6].
Proof.
  set (ops := [_; _; _; _; _]). eexists. split; [vm_compute; reflexivity|].
  refine (proj2 (epolls_own ops _ _) _); [vm_compute; reflexivity|reflexivity].
Defined.
