(* ===== verification/HealthProbe.v ===== *)
(** The active health check of a backend: [UpstreamManager::health_probe] of
    [src/server/upstream_manager.cpp] on the wrappers of [Sockets] and
    [Descriptors], the round of probes a worker makes, and the time it takes. *)

From S2P Require Import Prelude Config UpstreamManager UpstreamExchange Sockets Descriptors.

#[local] Open Scope Z_scope.
#[local] Open Scope gateway_scope.

#[export] Instance WaitResult_eq_dec : EqDecision WaitResult.
Proof. solve_decision. Defined.

(** The answers a probe gets: [socket], the two calls of [fcntl], [connect], the
    clock and the rounds of the wait, and [getsockopt]. *)
Record ProbeAnswers := mkProbe {
  pb_socket : sys_result;
  pb_get : option sys_error;
  pb_set : option sys_error;
  pb_connect : sys_result;
  pb_start : Z;
  pb_rounds : list (Z * poll_result);
  pb_error : Z + Z;
}.

Section probe.
  (** [inet_pton] accepts the text; [health_check_timeout_ms_]. *)
  Context (inet_pton : bytes → bool) (timeout_ms : Z).

(** A new socket's description, which the setters change. *)
Definition fresh_socket : Description := mkDescription 2 0 ∅.

Definition probe_body (host : bytes) (a : ProbeAnswers) : wrapped (option bool * list (Z * Z)) :=
  fd ← socket_new (pb_socket a);
  _ ← setnonblocking (pb_get a) (pb_set a) fresh_socket;
  if negb (inet_pton host) then Returned (Some false, [])
  else
    connected ← connect (pb_connect a);
    if connected : bool then Returned (Some true, [])
    else
      let '(result, calls) := poller_wait fd PollWrite timeout_ms (pb_start a) (pb_rounds a) in
      Returned ((λ r, bool_decide (r = Ready) && bool_decide (socketError (pb_error a) = 0)) <$> result, calls).

(** The verdict, or [None] when the wait does not end; and the calls of [poll]
    that were made, the clock before each and the time it may sleep. The address
    is built from the port as well, which only the kernel looks at. *)
Definition health_probe (host : bytes) (a : ProbeAnswers) : option bool * list (Z * Z) :=
  match probe_body host a with
  | Returned r => r
  | SystemError _ _ => (Some false, [])
  end.

(** The loop over the targets of a check, each with its answers. *)
Definition probe_round (targets : list ProbeTarget) (answers : ProbeTarget → ProbeAnswers) : list (option bool * list (Z * Z)) :=
  (λ t, health_probe (pt_host t) (answers t)) <$> targets.

(** The milliseconds the loop asks the kernel to sleep. *)
Definition asked_sleep (round : list (option bool * list (Z * Z))) : Z :=
  foldr (λ p n, foldr (λ c : Z * Z, Z.add c.2) n p.2) 0 round.

(** * Properties *)

(** The connection is there: at once, or after a wait that ended in time. *)
Definition reachable (host : bytes) (a : ProbeAnswers) : Prop :=
  ∃ fd, pb_socket a = SysOk fd ∧ pb_get a = None ∧ pb_set a = None ∧ inet_pton host = true ∧
    ((∃ n, pb_connect a = SysOk n) ∨
     pb_connect a = SysErr SE_INPROGRESS ∧ (poller_wait fd PollWrite timeout_ms (pb_start a) (pb_rounds a)).1 = Some Ready ∧ socketError (pb_error a) = 0).

Lemma health_probe_true host a : (health_probe host a).1 = Some true ↔ reachable host a.
Proof.
  unfold health_probe, probe_body, reachable, socket_new, checked. destruct (pb_socket a) as [fd|e]; cbn [mbind wrapped_bind];
    [|split; [done|by intros (? & ? & _)]].
  destruct (pb_get a), (pb_set a); cbn; try (split; [done|by intros (? & _ & ? & ? & _)]).
  destruct (inet_pton host) eqn:Ei; cbn; [|split; [done|by intros (? & _ & _ & _ & ? & _)]].
  destruct (pb_connect a) as [n|e]; cbn; [split; [|done]; intros _; exists fd; by eauto 10|].
  destruct e; cbn; try (split; [done|by intros (? & _ & _ & _ & _ & [ [? ?]|[? _] ])]).
  destruct (poller_wait _ _ _ _ _) as [r calls] eqn:Ep. cbn. split.
  - destruct r as [r|]; [|done]. intros [= [Hr He]%andb_true_iff]. apply bool_decide_eq_true_1 in Hr as ->, He.
    exists fd. rewrite Ep. by eauto 10.
  - intros (fd' & [= <-] & _ & _ & _ & [ [? ?]|(_ & Hr & He)]); [done|]. rewrite Ep in Hr. cbn in Hr. subst r. cbn.
    by rewrite !bool_decide_true.
Qed.

Lemma health_probe_calls host a :
  Forall (λ c : Z * Z, 0 <= c.2 ∧ c.1 + c.2 * ns_per_ms <= Z.max c.1 (pb_start a + timeout_ms * ns_per_ms)) (health_probe host a).2 ∧
  (Exists (λ r, r.2 ≠ PollErr SE_INTR ∨ timeout_ms = 0 ∨ pb_start a + timeout_ms * ns_per_ms <= r.1) (pb_rounds a) →
   is_Some (health_probe host a).1).
Proof.
  unfold health_probe, probe_body, socket_new, checked. destruct (pb_socket a) as [fd|e]; cbn [mbind wrapped_bind]; [|by split].
  destruct (pb_get a), (pb_set a); cbn; try by split. destruct (inet_pton host); cbn; [|by split].
  destruct (pb_connect a) as [n|e]; [by split|]. destruct e; cbn; try by split.
  unfold poller_wait. destruct (_ || _); [by split|].
  pose proof (wait_loop_calls POLLOUT (pb_start a + timeout_ms * ns_per_ms) timeout_ms (pb_rounds a)) as Hc.
  pose proof (wait_loop_returns POLLOUT (pb_start a + timeout_ms * ns_per_ms) timeout_ms (pb_rounds a)) as Hr.
  destruct (wait_loop _ _ _ _) as [r calls]. cbn in *. split; [done|]. intros He. destruct (Hr He) as [x ->]. by eexists.
Qed.

(** A probe finds a backend up exactly if its address is valid, the socket could be
    set up, and the connection was made, at once or within the timeout and without
    an error; it sleeps only until the timeout, also when it is interrupted, and
    it returns, at the latest in the first round whose clock reads the deadline. *)
Theorem health_probe_correct host a :
  ((health_probe host a).1 = Some true ↔ reachable host a) ∧
  Forall (λ c : Z * Z, c.1 + c.2 * ns_per_ms <= Z.max c.1 (pb_start a + timeout_ms * ns_per_ms)) (health_probe host a).2 ∧
  (Exists (λ r, r.2 ≠ PollErr SE_INTR ∨ timeout_ms = 0 ∨ pb_start a + timeout_ms * ns_per_ms <= r.1) (pb_rounds a) →
   is_Some (health_probe host a).1).
Proof.
  destruct (health_probe_calls host a) as [Hc Hr]. split_and!; [apply health_probe_true| |done].
  eapply Forall_impl; [exact Hc|]. by intros c [_ ?].
Qed.

(** * Backends that do not answer *)

(** The connection is in progress, and nothing comes within the timeout. *)
Definition silent (a : ProbeAnswers) : Prop :=
  (∃ fd, pb_socket a = SysOk fd ∧ 0 <= fd) ∧ pb_get a = None ∧ pb_set a = None ∧ pb_connect a = SysErr SE_INPROGRESS ∧
  pb_rounds a = [(pb_start a, PollZero)].

Lemma silent_probe host a : 0 < timeout_ms → inet_pton host = true → silent a → health_probe host a = (Some false, [(pb_start a, timeout_ms)]).
Proof.
  intros Ht Hi ((fd & Es & Hfd) & Eg & Ese & Ec & Er). unfold health_probe, probe_body. rewrite Es, Eg, Ese, Ec, Er, Hi. cbn [checked socket_new mbind wrapped_bind].
  cbn. unfold poller_wait. rewrite (proj2 (Z.ltb_ge fd 0)), (proj2 (Z.ltb_ge timeout_ms 0)) by lia. cbn [orb wait_loop].
  replace ((pb_start a + timeout_ms * ns_per_ms - pb_start a) ÷ ns_per_ms) with timeout_ms.
  2:{ replace (_ - _) with (timeout_ms * ns_per_ms) by lia. by rewrite Z.quot_mul. }
  rewrite (proj2 (Z.leb_gt timeout_ms 0)), (proj2 (Z.ltb_lt 0 timeout_ms)) by lia. done.
Qed.

(** The probes of a check are made one after the other, by the thread that runs the
    event loop: backends that do not answer make it sleep for the timeout each. *)
Theorem silent_backends_stall targets answers :
  0 < timeout_ms → Forall (λ t, inet_pton (pt_host t) = true ∧ silent (answers t)) targets →
  asked_sleep (probe_round targets answers) = Z.of_nat (length targets) * timeout_ms.
Proof.
  intros Ht. induction 1 as [|t targets [Hi Hs] _ IH]; [done|]. unfold probe_round in *. cbn [fmap list_fmap asked_sleep foldr length].
  rewrite (silent_probe _ _ Ht Hi Hs). cbn [snd foldr fst]. fold (asked_sleep ((λ t, health_probe (pt_host t) (answers t)) <$> targets)). lia.
Qed.
End probe.

(** * A concrete check *)

Definition slow_backend : ProbeAnswers := mkProbe (SysOk 7) None None (SysErr SE_INPROGRESS) 0 [(0, PollZero)] (inl 0).

(** The two backends of [sample_manager] are silent: a check sleeps for a second. *)
Lemma silent_backends_stall_witness :
  let targets := probe_targets sample_manager in
  length targets = 2%nat ∧ asked_sleep (probe_round (λ _, true) 500 targets (λ _, slow_backend)) = 1000.
Proof.
  cbv zeta. split; [by vm_compute|]. rewrite (silent_backends_stall (λ _, true) 500 (probe_targets sample_manager) (λ _, slow_backend)); [by vm_compute|done|].
  apply Forall_true. intros t. split; [done|]. split_and!; [by exists 7|done..].
Defined.

Lemma health_probe_correct_witness : (health_probe (λ _, true) 500 "10.0.0.1" slow_backend).1 = Some false ∧ is_Some (health_probe (λ _, true) 500 "10.0.0.1" slow_backend).1.
Proof.
  split; [by vm_compute|]. apply (health_probe_correct (λ _, true) 500 "10.0.0.1" slow_backend). left. by left.
Defined.

(** ** A reload in between *)

(** The results of a check are applied by position. When the configuration is
    replaced between the two critical sections, the verdict on a backend that is
    gone marks the backend that now has its place. *)
Definition other_backend : UpstreamConfig :=
  default_UpstreamConfig{{uc_upstreams := {[ lit "svc" := mkUpstream [sample_server{{us_host := lit "10.9.9.9"}}] "round_robin" ]} }}.

Lemma stale_verdict :
  let verdict t := bool_decide (pt_host t = lit "10.9.9.9") in
  let results := probe_all verdict (probe_targets sample_manager) in
  let servers m := up_servers <$> uc_upstreams (config_ m) !! lit "svc" in
  let m := UpstreamManager.reload other_backend sample_manager in
  (fmap us_healthy <$> servers (apply_results results m) = Some [false]) ∧ (fmap us_healthy <$> servers (check_health verdict m) = Some [true]).
Proof. by vm_compute. Qed.

(** Another worker finds the first backend down at the same time. *)
Lemma check_health_interleaved_witness :
  let down t := bool_decide (pt_server_index t ≠ 0%nat) in
  let m' := check_health down sample_manager in
  apply_results (probe_all down (probe_targets sample_manager)) m' =
  UpstreamManager.set_upstreams (map_imap (λ name up, Some (probed_upstream down name up))) m'.
Proof. cbv zeta. apply check_health_interleaved. by vm_compute. Defined.
