(* ===== verification/EchoHandler.v ===== *)
(** [src/server/echohandler.cpp]: the echo handler, one connection of it. *)

From S2P Require Import Prelude UpstreamExchange ConnectionPool.

#[local] Open Scope Z_scope.
#[local] Open Scope gateway_scope.

(** What epoll watches for: input, input and output, or nothing any more. *)
Inductive echo_interest := EchoIn | EchoInOut.

#[global] Instance echo_interest_eq_dec : EqDecision echo_interest.
Proof. solve_decision. Defined.

(** [send_queue[sock]], [fd_events_[fd]] and the mask given to epoll last;
    [echo_closed] after [cleanup]. *)
Record Echo := mkEcho {
  send_queue : option (list bytes);
  fd_events : option echo_interest;
  echo_armed : option echo_interest;
  echo_closed : bool;
}.

Definition echo_connect : Echo := mkEcho (Some []) (Some EchoIn) (Some EchoIn) false.

Definition echo_cleanup (e : Echo) : Echo := e{{send_queue := None; fd_events := None; echo_closed := true}}.

(** [None]: the call of epoll throws, the descriptor being closed. *)
Definition echo_mod (i : echo_interest) (e : Echo) : option Echo :=
  if echo_closed e then None else Some (e{{echo_armed := Some i}}).

Definition update_event (i : echo_interest) (e : Echo) : option Echo :=
  if fd_events e == Some i then Some e
  else match echo_mod i e with Some e => Some (e{{fd_events := Some i}}) | None => None end.

(** [recv] answers; a list that ends stands for [EAGAIN]. [ReadErr] is thrown. *)
Fixpoint echo_receive (reads : list bytes) (e : Echo) : option Echo :=
  match reads with
  | [] => Some e
  | data :: reads' =>
    let e := e{{send_queue ::= fun q => Some (default [] q ++ [data])}} in
    match update_event EchoInOut e with
    | Some e => echo_receive reads' e
    | None => None
    end
  end.

(** How the reads end. *)
Inductive echo_end := WouldBlock | PeerClosed | RecvFails.

(** The events after a handler: writability is watched if something is queued. *)
Definition echo_rearm (e : Echo) : option Echo :=
  echo_mod (match send_queue e with Some (_ :: _) => EchoInOut | _ => EchoIn end) e.

(** [None]: an exception leaves the handler. *)
Definition echo_read (reads : list bytes) (last : echo_end) (e : Echo) : option Echo :=
  match echo_receive reads e with
  | None => echo_rearm (echo_cleanup e)
  | Some e =>
    match last with
    | WouldBlock => echo_rearm e
    | PeerClosed => Some (echo_cleanup e)
    | RecvFails => echo_rearm (echo_cleanup e)
    end
  end.

(** [send] takes some bytes of the first block, would block, or fails: the blocks
    left, the bytes sent, and whether it failed. *)
Fixpoint echo_send (writes : list io_write) (queue : list bytes) {struct queue} : list bytes * bytes * bool :=
  match queue with
  | [] => ([], [], true)
  | front :: queue' =>
    match writes with
    | [] => (queue, [], true)
    | Wrote n err :: writes' =>
      if (0 <? n)%nat then
        if (n =? length front)%nat then
          let '(rest, sent, ok) := echo_send writes' queue' in (rest, front ++ sent, ok)
        else (drop n front :: queue', take n front, true)
      else match err with
           | EAGAIN => (queue, [], true)
           | _ => (queue, [], false)
           end
    | WriteThrows :: _ => (queue, [], false)
    end
  end.

Definition echo_write (writes : list io_write) (e : Echo) : option Echo * bytes :=
  match send_queue e with
  | None => (update_event EchoIn e, [])
  | Some queue =>
    let '(rest, sent, ok) := echo_send writes queue in
    let e := e{{send_queue := Some rest}} in
    let e := if negb ok then Some (echo_cleanup e)
             else if is_empty rest then update_event EchoIn e
             else Some e in
    (match e with Some e => echo_rearm e | None => None end, sent)
  end.

(** * What is sent is what was received *)

Inductive echo_event := EchoRead (reads : list bytes) (last : echo_end) | EchoWrite (writes : list io_write).

(** The kernel takes no more than it is given. *)
Fixpoint writes_fit (writes : list io_write) (queue : list bytes) : Prop :=
  match writes, queue with
  | Wrote n _ :: writes', front :: queue' => (n ≤ length front)%nat ∧ (n = length front → writes_fit writes' queue')
  | _, _ => True
  end.

Definition event_fits (ev : echo_event) (e : Echo) : Prop :=
  match ev with
  | EchoWrite writes => writes_fit writes (default [] (send_queue e))
  | EchoRead _ _ => True
  end.

(** The state, the bytes received and the bytes sent so far. *)
Inductive echo_run : Echo → bytes → bytes → Prop :=
| E_connect : echo_run echo_connect [] []
| E_read reads last e e' got sent :
    echo_run e got sent → echo_closed e = false → echo_read reads last e = Some e' → echo_run e' (got ++ concat reads) sent
| E_write writes e e' data got sent :
    echo_run e got sent → echo_closed e = false → event_fits (EchoWrite writes) e → echo_write writes e = (Some e', data) →
    echo_run e' got (sent ++ data).

Lemma update_event_queue i e e' : update_event i e = Some e' → send_queue e' = send_queue e ∧ echo_closed e' = echo_closed e.
Proof.
  unfold update_event, echo_mod. destruct (_ == _); [by intros [= <-]|]. destruct (echo_closed e) eqn:E; [done|]. intros [= <-]. by destruct e.
Qed.

Lemma echo_mod_queue i e e' : echo_mod i e = Some e' → send_queue e' = send_queue e ∧ echo_closed e' = false ∧ echo_armed e' = Some i.
Proof. unfold echo_mod. destruct (echo_closed e) eqn:E; [done|]. intros [= <-]. by destruct e. Qed.

Lemma echo_receive_queue reads e e' q :
  echo_receive reads e = Some e' → send_queue e = Some q →
  send_queue e' = Some (q ++ reads) ∧ echo_closed e' = echo_closed e.
Proof.
  revert e q. induction reads as [|data reads IH]; intros e q; cbn [echo_receive].
  { intros [= <-] ->. by rewrite app_nil_r. }
  set (e1 := e{{send_queue ::= fun q => Some (default [] q ++ [data])}}). destruct (update_event EchoInOut e1) as [e2|] eqn:E; [|done].
  intros Hr Hq. apply update_event_queue in E as [E1 E2]. assert (send_queue e2 = Some (q ++ [data])) as Hq2.
  { rewrite E1. unfold e1. destruct e. cbn in *. by subst. }
  destruct (IH _ _ Hr Hq2) as [F1 F2]. rewrite F1, F2, <-app_assoc, E2. unfold e1. by destruct e.
Qed.

Lemma echo_send_split writes queue rest sent ok :
  echo_send writes queue = (rest, sent, ok) → writes_fit writes queue → sent ++ concat rest = concat queue.
Proof.
  revert writes rest sent ok. induction queue as [|front queue IH]; intros writes rest sent ok; cbn [echo_send]; [by intros [= <- <- <-]|].
  destruct writes as [|[n err|] writes]; [by intros [= <- <- <-]| |by intros [= <- <- <-]]. cbn [writes_fit].
  destruct (0 <? n)%nat; [|by destruct err; intros [= <- <- <-]]. destruct (Nat.eqb_spec n (length front)) as [->|Hne].
  - destruct (echo_send writes queue) as [ [rest' sent'] ok'] eqn:E. intros [= <- <- <-] [_ Hf]. cbn [concat]. rewrite <-app_assoc.
    f_equal. eapply IH; [exact E|by apply Hf].
  - intros [= <- <- <-] _. cbn [concat]. by rewrite app_assoc, take_drop.
Qed.

(** While the connection is open, what was received is what was sent followed by
    what is still queued, in order and without loss; and if something is queued,
    epoll watches for the room to send it. *)
Theorem echo_exact e got sent :
  echo_run e got sent → echo_closed e = false →
  ∃ queue, send_queue e = Some queue ∧ sent ++ concat queue = got ∧ (queue ≠ [] → echo_armed e = Some EchoInOut).
Proof.
  assert (∀ e e', echo_rearm e = Some e' → send_queue e' = send_queue e ∧ echo_closed e' = false ∧
    (∀ q, send_queue e = Some q → q ≠ [] → echo_armed e' = Some EchoInOut)) as Hrearm.
  { intros e1 e2 E. unfold echo_rearm in E. apply echo_mod_queue in E as (E1 & E2 & E3). split_and!; [done|done|].
    intros q Hq Hne. rewrite E3, Hq. by destruct q. }
  induction 1 as [|reads last e e' got sent Hrun IH Hc Hr|writes e e' data got sent Hrun IH Hc Hf Hw]; intros Hopen.
  - exists []. by split_and!.
  - destruct (IH Hc) as (q & Hq & Hsq & _). unfold echo_read in Hr. destruct (echo_receive reads e) as [e1|] eqn:E.
    + destruct (echo_receive_queue _ _ _ _ E Hq) as [Hq1 Hc1]. destruct last.
      * apply Hrearm in Hr as (F1 & _ & F3). exists (q ++ reads). rewrite F1. split_and!; [done| |by apply F3].
        by rewrite concat_app, app_assoc, Hsq.
      * injection Hr as <-. by destruct e1.
      * unfold echo_rearm, echo_mod in Hr. by destruct e1.
    + unfold echo_rearm, echo_mod in Hr. by destruct e.
  - destruct (IH Hc) as (q & Hq & Hsq & _). unfold echo_write in Hw. cbn [event_fits] in Hf. rewrite Hq in Hw, Hf. cbn [default] in Hf.
    destruct (echo_send writes q) as [ [rest sent'] ok] eqn:E. apply echo_send_split in E; [|done].
    set (e1 := e{{send_queue := Some rest}}) in *. assert (send_queue e1 = Some rest) as Hq1 by by destruct e.
    injection Hw as Hw <-. destruct ok; cbn [negb] in Hw; [|by unfold echo_rearm, echo_mod in Hw; destruct e1].
    assert (∃ e2, echo_rearm e2 = Some e' ∧ send_queue e2 = Some rest) as (e2 & Hr & Hq2).
    { destruct (is_empty rest); [|by exists e1]. destruct (update_event EchoIn e1) as [e2|] eqn:Eu; [|done]. exists e2.
      split; [done|]. apply update_event_queue in Eu as [-> _]. done. }
    apply Hrearm in Hr as (F1 & _ & F3). exists rest. rewrite F1. split_and!; [done| |by apply F3].
    by rewrite <-app_assoc, E.
Qed.

Lemma echo_exact_witness :
  ∃ e queue, echo_run e "hello" "he" ∧ send_queue e = Some queue ∧ lit "he" ++ concat queue = lit "hello".
Proof.
  destruct (echo_read [lit "hel"; lit "lo"] WouldBlock echo_connect) as [e1|] eqn:E1; [|by vm_compute in E1].
  destruct (echo_write [Wrote 2 EOTHER] e1) as [ [e2|] data] eqn:E2; [|by injection E1 as <-; vm_compute in E2].
  assert (data = lit "he" ∧ echo_closed e1 = false ∧ echo_closed e2 = false ∧ send_queue e1 = Some [lit "hel"; lit "lo"]) as (-> & H1 & H2 & Hq1).
  { injection E1 as <-. vm_compute in E2. injection E2 as <- <-. by split_and!. }
  assert (echo_run e2 "hello" "he") as Hr.
  { apply (E_write [Wrote 2 EOTHER] e1 e2 "he" "hello" []); [|done| |done].
    - apply (E_read [lit "hel"; lit "lo"] WouldBlock echo_connect e1 [] []); [apply E_connect|done|done].
    - cbn [event_fits]. rewrite Hq1. split; [apply Nat.leb_le; by vm_compute|]. intros E. by vm_compute in E. }
  destruct (echo_exact e2 "hello" "he" Hr H2) as (queue & Hq & Hs & _). by exists e2, queue.
Defined.

(** When [recv] fails, the handler closes the descriptor and then gives it to
    epoll: the exception leaves the handler. *)
Lemma echo_failure_escapes reads e : echo_read reads RecvFails e = None.
Proof. unfold echo_read. destruct (echo_receive reads e) as [e1|]; [by destruct e1|by destruct e]. Qed.
