(* ===== verification/AdminServer.v ===== *)
(** [src/server/admin_server.cpp]: the operations listener. It reads one request
    head per connection, checks a key, answers, and adopts new keys when the
    configuration is reloaded. nlohmann's [dump] is a parameter. *)

From S2P Require Import Prelude Search Config ConfigFile Double UpstreamManager ApiKeyManager HttpClient Metrics UpstreamExchange.

#[local] Open Scope Z_scope.
#[local] Open Scope gateway_scope.
#[local] Set Warnings "-register-all".

(** * Requests *)

Record ParsedAdminRequest := mkAdminRequest {
  ar_method : bytes;
  ar_path : bytes;
  ar_headers : gmap bytes bytes;
  ar_body_consumed : Z;
  ar_content_length : Z;
  ar_chunked : bool;
}.

Definition MAX_REQUEST_BYTES : Z := 8192.
Definition MAX_DRAIN_BYTES : Z := 65536.

(** A request before anything is read. *)
Definition blank_request : ParsedAdminRequest := mkAdminRequest [] [] ∅ 0 (-1) false.


(** What [recv] answers, one element per call that returns bytes; then the end, an
    error or the timeout. The head, and the answers left. *)
Fixpoint receive_head (chunks : list bytes) (head : bytes) : option (bytes * list bytes) :=
  match find_sub CRLF2 head with
  | Some _ => Some (head, chunks)
  | None =>
    match chunks with
    | [] => None
    | c :: chunks' => if MAX_REQUEST_BYTES <? size (head ++ c) then None else receive_head chunks' (head ++ c)
    end
  end.

(** The three parts of the request line are separated by its first and its last
    blank. *)
Definition parse_request_line (line : bytes) : option (bytes * bytes) :=
  match find_char " " line, rfind_char " " line with
  | Some sp1, Some sp2 =>
    if Nat.leb sp2 sp1 then None
    else
      let path := substr (sp1 + 1) (sp2 - sp1 - 1) line in
      if head path == Some "/"%char then Some (take sp1 line, path) else None
  | _, _ => None
  end.

(** One line of the head. *)
Definition add_header (line : bytes) (headers : gmap bytes bytes) : gmap bytes bytes :=
  match find_char ":" line with
  | None => headers
  | Some colon => <[lowercase (take colon line) := trim (drop (colon + 1) line)]> headers
  end.

Fixpoint header_loop (fuel : nat) (head : bytes) (pos : nat) (headers : gmap bytes bytes) : option (gmap bytes bytes) :=
  match fuel with
  | O => None
  | S fuel' =>
    if Nat.ltb pos (length head) then
      match find_sub_from CRLF pos head with
      | None => Some headers
      | Some eol =>
        if Nat.eqb eol pos then Some headers
        else header_loop fuel' head (eol + 2) (add_header (substr pos (eol - pos) head) headers)
      end
    else Some headers
  end.

(** [std::stoll] *)
Definition stoll (s : bytes) : option Z :=
  match leading_integer s with
  | Some z => if (- 2 ^ 63 <=? z) && (z <? 2 ^ 63) then Some z else None
  | None => None
  end.

Definition admin_content_length (headers : gmap bytes bytes) : Z :=
  match headers !! lit "content-length" with
  | Some v => match stoll v with Some n => if 0 <=? n then n else -1 | None => -1 end
  | None => -1
  end.

Definition admin_chunked (headers : gmap bytes bytes) : bool :=
  match headers !! lit "transfer-encoding" with
  | Some v => bool_decide (is_Some (find_sub "chunked" v))
  | None => false
  end.

(** The request in a head that ends somewhere. *)
Definition parse_head (head : bytes) : option ParsedAdminRequest :=
  match find_sub CRLF head, find_sub CRLF2 head with
  | Some line_end, Some i =>
    match parse_request_line (take line_end head) with
    | None => None
    | Some (method, path) =>
      match header_loop (S (length head)) head (line_end + 2) ∅ with
      | None => None
      | Some headers =>
        Some (mkAdminRequest method path headers (size head - (Z.of_nat i + 4)) (admin_content_length headers) (admin_chunked headers))
      end
    end
  | _, _ => None
  end.

Definition read_request_head (chunks : list bytes) : option (ParsedAdminRequest * list bytes) :=
  match receive_head chunks [] with
  | Some (head, rest) => match parse_head head with Some req => Some (req, rest) | None => None end
  | None => None
  end.

(** * Responses *)

(** [send] answers with the number of bytes it took, or fails; the bytes that
    were sent. *)
Fixpoint send_all (answers : list Z) (data : bytes) : bytes * bool :=
  match data, answers with
  | [], _ => ([], true)
  | _ :: _, [] => ([], false)
  | _ :: _, n :: answers' =>
    if n <=? 0 then ([], false)
    else
      let '(sent, ok) := send_all answers' (drop (Z.to_nat n) data) in
      (take (Z.to_nat n) data ++ sent, ok)
  end.

Definition response_text (status : Z) (status_text body content_type : bytes) : bytes :=
  lit "HTTP/1.1 " ++ to_string status ++ " " ++ status_text ++ CRLF ++
  "Content-Type: " ++ content_type ++ CRLF ++
  "Content-Length: " ++ to_string (size body) ++ CRLF ++
  "Connection: close" ++ CRLF ++ CRLF ++ body.

(** The bytes of the body that are still to be read. *)
Definition drain_target (req : ParsedAdminRequest) : Z :=
  let remaining :=
    if 0 <? ar_content_length req then
      if ar_body_consumed req <? ar_content_length req then ar_content_length req - ar_body_consumed req else 0
    else if ar_chunked req then MAX_DRAIN_BYTES else 0 in
  if MAX_DRAIN_BYTES <? remaining then MAX_DRAIN_BYTES else remaining.

(** [recv] answers with the number of bytes; it never gives more than was asked
    for. The bytes that were read. *)
Fixpoint drain_body (answers : list Z) (remaining drained : Z) : Z :=
  if drained <? remaining then
    match answers with
    | [] => drained
    | n :: answers' => if n <=? 0 then drained else drain_body answers' remaining (drained + Z.min n (Z.min 1024 (remaining - drained)))
    end
  else drained.

Definition drain_request_body (answers : list Z) (req : ParsedAdminRequest) : Z := drain_body answers (drain_target req) 0.

(** * The server *)

Record AdminServer := mkAdminServer {
  ad_keys : list bytes;
  pending_admin_keys_ : option (bool * list bytes);
  applied_generation_ : Z;
  config_reload_generation : Z;
}.

(** What [dump] is given. *)
Inductive report :=
| RString (s : bytes)
| RInt (n : Z)
| RDouble (d : double)
| RBool (b : bool)
| RArray (l : list report)
| RObject (m : list (bytes * report)).

(** The key of a request: [X-API-Key], or else the bearer token. *)
Definition admin_key (req : ParsedAdminRequest) : bytes :=
  match ar_headers req !! lit "x-api-key" with
  | Some key => key
  | None =>
    match ar_headers req !! lit "authorization" with
    | Some auth => if starts_with "Bearer " auth then drop 7 auth else []
    | None => []
    end
  end.

(** [None]: authorized; otherwise the reason. *)
Definition admin_authorize (keys : list bytes) (req : ParsedAdminRequest) : option bytes :=
  let key := admin_key req in
  if is_empty key then Some (lit "missing api key")
  else if existsb (constant_time_equals key) keys then None
  else Some (lit "invalid api key").

(** ** The listener *)

(** What [socket], [bind] and [listen] answer; [SO_REUSEADDR] may fail unnoticed. *)
Record AdminStart := mkAdminStart { as_socket : Z; as_bind : bool; as_listen : bool }.

(** The exception of [start], if there is one; without it the thread runs. *)
Definition admin_start (inet_pton : bytes → bool) (a : AdminStart) (c : AdminConfig) : option bytes :=
  if as_socket a <? 0 then Some (lit "admin: socket() failed")
  else if negb (inet_pton (adm_bind c)) then Some ("admin: invalid bind address '" ++ adm_bind c ++ "'")
  else if negb (as_bind a) then Some ("admin: bind failed on " ++ adm_bind c ++ ":" ++ to_string (adm_port c))
  else if negb (as_listen a) then Some (lit "admin: listen failed")
  else None.

(** The two bytes of a port as [sin_port] has them. *)
Definition ntohs (n : Z) : Z := Z.lor (Z.shiftl (Z.land n 255) 8) (Z.land (Z.shiftr n 8) 255).

(** [ip]: what [inet_ntop] writes. *)
Definition peer_to_string (ip : bytes) (sin_port : Z) : bytes := ip ++ ":" ++ to_string (ntohs sin_port).

Section endpoints.
  Context `{HashOrder} (dump : report → option bytes) (GATEWAY_VERSION : bytes).

Definition dump_line (j : report) : option bytes := match dump j with Some s => Some (s ++ [LF]) | None => None end.

(** [uptime] in seconds. *)
Definition handle_stats (snap : Snapshot) (uptime : Z) : option bytes :=
  dump_line (RObject
    [(lit "latency", RObject [(lit "count", RInt (sn_duration_count snap)); (lit "sum_seconds", RDouble (sn_duration_sum snap))]);
     (lit "requests", RObject
       [(lit "2xx", RInt (sn_requests_2xx snap)); (lit "3xx", RInt (sn_requests_3xx snap)); (lit "4xx", RInt (sn_requests_4xx snap));
        (lit "5xx", RInt (sn_requests_5xx snap)); (lit "total", RInt (sn_total_requests snap))]);
     (lit "uptime_seconds", RInt uptime); (lit "version", RString GATEWAY_VERSION)]).

Definition backend_report (b : BackendStatus) : report :=
  RObject [(lit "circuit_open", RBool (bs_circuit_open b)); (lit "consecutive_failures", RInt (bs_consecutive_failures b));
           (lit "healthy", RBool (bs_healthy b)); (lit "host", RString (bs_host b)); (lit "port", RInt (bs_port b))].

Definition handle_upstreams (m : UpstreamManager) : option bytes :=
  dump_line (RObject [(lit "upstreams", RArray
    ((λ up, RObject [(lit "backends", RArray (backend_report <$> st_backends up)); (lit "name", RString (st_name up))])
      <$> status_snapshot m))]).

(** The configuration and every complaint about it. *)
Definition read_admin_config (env : ConfigEnv) (path : bytes) : Config * list bytes :=
  if file_ok env path then
    let '(reloaded, errors) := file_config env path in
    (reloaded, errors ++ Config.validate (ce_inet_pton env) reloaded)
  else (default_Config, [lit "config file missing or not valid JSON"]).

(** The status and the body; [None]: [dump] threw. A reload that was triggered
    stays triggered. *)
Definition handle_reload (env : ConfigEnv) (path : bytes) (st : AdminServer) : option (Z * bytes) * AdminServer :=
  match read_admin_config env path with
  | (_, (_ :: _) as errors) =>
    let body := dump_line (RObject [(lit "errors", RArray (RString <$> errors)); (lit "status", RString "rejected")]) in
    ((λ b, (400, b)) <$> body, st)
  | (reloaded, []) =>
    let st := st{{pending_admin_keys_ := Some (adm_enabled (admin reloaded), adm_api_keys (admin reloaded));
                  config_reload_generation ::= fun g => wrap64 (g + 1)}} in
    ((λ b, (200, b)) <$> dump_line (RObject [(lit "status", RString "reload_triggered")]), st)
  end.

(** What a connection reads besides its bytes. *)
Record AdminAnswers := mkAdminAnswers {
  aa_snapshot : Snapshot;
  aa_uptime : Z;
  aa_manager : UpstreamManager;
  aa_env : ConfigEnv;
}.

Definition error_body (msg : bytes) : bytes := lit "{" ++ quoted "error" ++ ":" ++ quoted msg ++ "}".

(** The response to a request, [None] if an exception leaves the handler, and the
    reason of an [admin_auth_failed] line. *)
Definition respond (path : bytes) (a : AdminAnswers) (req : option ParsedAdminRequest) (st : AdminServer)
    : option (Z * bytes * bytes) * option bytes * AdminServer :=
  match req with
  | None => (Some (400, lit "Bad Request", error_body "malformed request"), None, st)
  | Some req =>
    match admin_authorize (ad_keys st) req with
    | Some reason => (Some (401, lit "Unauthorized", error_body "unauthorized"), Some reason, st)
    | None =>
      if (ar_path req == "/admin/stats") && (ar_method req == "GET") then
        ((λ b, (200, lit "OK", b)) <$> handle_stats (aa_snapshot a) (aa_uptime a), None, st)
      else if (ar_path req == "/admin/upstreams") && (ar_method req == "GET") then
        ((λ b, (200, lit "OK", b)) <$> handle_upstreams (aa_manager a), None, st)
      else if (ar_path req == "/admin/reload") && (ar_method req == "POST") then
        let '(r, st) := handle_reload (aa_env a) path st in
        ((λ '(status, b), (status, if status =? 200 then lit "OK" else lit "Bad Request", b)) <$> r, None, st)
      else (Some (404, lit "Not Found", error_body "unknown admin endpoint"), None, st)
    end
  end.

(** The bytes that are sent, the body bytes that are read afterwards, the audit
    reason, and the state. *)
Definition handle_connection (path : bytes) (a : AdminAnswers) (chunks : list bytes) (sends drains : list Z) (st : AdminServer)
    : bytes * Z * option bytes * AdminServer :=
  let req := fst <$> read_request_head chunks in
  let '(r, reason, st) := respond path a req st in
  match r with
  | None => ([], 0, reason, st)
  | Some (status, status_text, body) =>
    ((send_all sends (response_text status status_text body "application/json")).1,
     drain_request_body drains (default blank_request req), reason, st)
  end.

(** * Keys *)

Definition apply_admin_keys (keys : list bytes) (enabled : bool) (st : AdminServer) : AdminServer :=
  if negb enabled then st
  else if is_empty keys then st
  else st{{ad_keys := keys}}.

Definition maybe_refresh_keys (env : ConfigEnv) (path : bytes) (st : AdminServer) : AdminServer :=
  let gen := config_reload_generation st in
  if gen =? applied_generation_ st then st
  else
    let st := st{{applied_generation_ := gen}} in
    match pending_admin_keys_ st with
    | Some (enabled, keys) => apply_admin_keys keys enabled (st{{pending_admin_keys_ := None}})
    | None =>
      match read_admin_config env path with
      | (reloaded, []) => apply_admin_keys (adm_api_keys (admin reloaded)) (adm_enabled (admin reloaded)) st
      | (_, _ :: _) => st
      end
    end.

(** * The loop *)

(** A connection that is accepted: the answers of the calls made for it. *)
Record AdminConnection := mkAdminConnection {
  ac_answers : AdminAnswers;
  ac_chunks : list bytes;
  ac_sends : list Z;
  ac_drains : list Z;
}.

(** One turn: the refresh reads the file as it is then; a connection may follow. *)
Definition admin_turn (path : bytes) (env : ConfigEnv) (c : option AdminConnection) (st : AdminServer) : AdminServer :=
  let st := maybe_refresh_keys env path st in
  match c with
  | Some c => (handle_connection path (ac_answers c) (ac_chunks c) (ac_sends c) (ac_drains c) st).2
  | None => st
  end.

(** The signal handler of [SIGHUP] runs at any time. *)
Definition sighup (st : AdminServer) : AdminServer := st{{config_reload_generation ::= fun g => wrap64 (g + 1)}}.

Inductive admin_step (path : bytes) : AdminServer → AdminServer → Prop :=
| A_turn env c st : admin_step path st (admin_turn path env c st)
| A_sighup st : admin_step path st (sighup st).

(** The constructor: the generation may have moved before the thread starts. *)
Definition admin_init (config : Config) (generation : Z) : AdminServer :=
  mkAdminServer (adm_api_keys (admin config)) None 0 generation.
End endpoints.
