(* ===== verification/Tracing.v ===== *)
(** Trace identifiers and client-identity headers: the anonymous namespace of
    [src/server/http_handler.cpp] (lines 102-189) and the trace handling at the
    head of a parsed request (lines 449-468). The clock, the counters and
    [std::hash] answer as parameters. *)

From S2P Require Import Prelude Search HttpParser HttpClient UpstreamExchange.

#[local] Open Scope Z_scope.
#[local] Open Scope gateway_scope.

(** * Identifiers *)

Definition isxdigit (c : ascii) : bool := is_digit c || in_range "a" "f" c || in_range "A" "F" c.

(** [%0<w>llx] *)
Definition hex_padded (w : nat) (n : Z) : bytes :=
  let h := to_hex n in replicate (w - length h) "0"%char ++ h.

(** [generate_trace_id] at the clock [now_ns] with the incremented counter [seq]. *)
Definition generate_trace_id (now_ns seq : Z) : bytes :=
  hex_padded 8 (Z.land now_ns (2 ^ 32 - 1)) ++ hex_padded 8 (Z.land seq (2 ^ 32 - 1)).

(** [while (normalized.size() < 32) normalized = "0" + normalized] *)
Definition pad_left (w : nat) (s : bytes) : bytes := replicate (w - length s) "0"%char ++ s.

(** [generated]: what [generate_trace_id] answers if it is called. *)
Definition normalize_trace_id_for_traceparent (generated trace_id : bytes) : bytes :=
  let normalized := if is_empty trace_id then generated else trace_id in
  let normalized := List.filter isxdigit normalized in
  let normalized := if 32 <? size normalized then take 32 normalized else normalized in
  pad_left 32 normalized.

Definition parent_seed (dep_name : bytes) (now : Z) : bytes :=
  if is_empty dep_name then lit "dependency" else dep_name ++ ":" ++ to_string now.

Definition generate_traceparent (hash : bytes → Z) (generated trace_id dep_name : bytes) (now : Z) : bytes :=
  let id := normalize_trace_id_for_traceparent generated (if is_empty trace_id then generated else trace_id) in
  let parent_id := Z.land (hash (parent_seed dep_name now)) (2 ^ 64 - 1) in
  "00-" ++ id ++ "-" ++ hex_padded 16 parent_id ++ "-01".

Definition is_hex_string (value : bytes) : bool := negb (is_empty value) && forallb isxdigit value.

Definition parse_trace_id_from_traceparent (traceparent : bytes) : bytes :=
  if size traceparent <? 35 then []
  else
    match find_char "-" traceparent with
    | None => []
    | Some first_dash =>
      match find_char_from "-" (first_dash + 1) traceparent with
      | None => []
      | Some second_dash =>
        let trace_id := substr (first_dash + 1) (second_dash - first_dash - 1) traceparent in
        if (size trace_id =? 32) && is_hex_string trace_id then trace_id else []
      end
    end.

(** * The head of a parsed request *)

Section annotate.
  Context (hash : bytes → Z).

(** What the two generators see when a request needs them. *)
Record TraceSource := mkSource {
  fresh_id : bytes;         (** [generate_trace_id()] for the request *)
  fresh_parent_id : bytes;  (** [generate_trace_id()] inside [generate_traceparent()] *)
  fresh_now : Z;
}.

Definition trace_id_of (src : TraceSource) (req : HttpRequest) : bytes :=
  if negb (is_empty (trace_id req)) then trace_id req
  else
    match headers req !! lit "x-trace-id" with
    | Some id => id
    | None =>
      match headers req !! lit "traceparent" with
      | Some tp =>
        let id := parse_trace_id_from_traceparent tp in
        if is_empty id then fresh_id src else id
      | None => fresh_id src
      end
    end.

Definition annotate_request (src : TraceSource) (req : HttpRequest) : HttpRequest :=
  let id := trace_id_of src req in
  let new_host := default (host req) (headers req !! lit "host") in
  let new_tenant := default (tenant req) (headers req !! lit "x-tenant-id") in
  let h := headers req in
  let h := match h !! lit "traceparent" with
           | Some _ => h
           | None => <[lit "traceparent" := generate_traceparent hash (fresh_parent_id src) [] [] (fresh_now src)]> h
           end in
  req{{host := new_host; tenant := new_tenant; trace_id := id;
       headers := <[lit "x-trace-id" := id]> h}}.
End annotate.

(** * Client identity *)

Definition inject_forwarded_headers (client_ip : bytes) (h : gmap bytes bytes) : gmap bytes bytes :=
  let h :=
    if negb (is_empty client_ip) then
      let xff := match h !! lit "x-forwarded-for" with
                 | Some v => v ++ ", " ++ client_ip
                 | None => client_ip
                 end in
      <[lit "x-real-ip" := client_ip]> (<[lit "x-forwarded-for" := xff]> h)
    else h in
  let h := <[lit "x-forwarded-proto" := lit "https"]> h in
  match h !! lit "host" with
  | Some v => if negb (is_empty v) then <[lit "x-forwarded-host" := v]> h else h
  | None => h
  end.

(** * Lemmas *)

Lemma isxdigit_not_dash c : isxdigit c = true → c ≠ "-"%char.
Proof. by intros H ->. Qed.

Lemma digit_char_isxdigit d : 0 <= d < 16 → isxdigit (digit_char d) = true.
Proof. apply (digits_Forall (λ d, isxdigit (digit_char d)) 16). by vm_compute. Qed.

Lemma to_hex_isxdigit n : Forall (λ c, isxdigit c = true) (to_hex n).
Proof. apply render_Forall; [done|apply digit_char_isxdigit|done]. Qed.

Lemma to_hex_length k n : 0 <= n < 16 ^ Z.of_nat (S k) → (length (to_hex n) ≤ S k)%nat.
Proof.
  intros Hn. pose proof (render_length 16 k (render_fuel n) n [] ltac:(lia) Hn) as H.
  change (length []) with 0%nat in H. unfold to_hex. lia.
Qed.

Lemma hex_padded_isxdigit w n : Forall (λ c, isxdigit c = true) (hex_padded w n).
Proof. apply Forall_app. split; [by apply Forall_replicate|apply to_hex_isxdigit]. Qed.

Lemma hex_padded_length k n : 0 <= n < 16 ^ Z.of_nat (S k) → length (hex_padded (S k) n) = S k.
Proof. intros Hn%to_hex_length. unfold hex_padded. rewrite length_app, length_replicate. lia. Qed.

Lemma land_mask n w : 0 <= w → 0 <= Z.land n (2 ^ w - 1) < 2 ^ w.
Proof.
  intros Hw. replace (2 ^ w - 1) with (Z.ones w) by (rewrite Z.ones_equiv; lia).
  rewrite Z.land_ones by done. apply Z.mod_pos_bound. lia.
Qed.

Lemma filter_isxdigit s : Forall (λ c, isxdigit c = true) (List.filter isxdigit s).
Proof. apply Forall_forall. intros c Hc. apply list_elem_of_In, filter_In in Hc. by destruct Hc. Qed.

Lemma normalize_isxdigit g t : Forall (λ c, isxdigit c = true) (normalize_trace_id_for_traceparent g t).
Proof.
  unfold normalize_trace_id_for_traceparent, pad_left. apply Forall_app. split; [by apply Forall_replicate|].
  case_match; [apply Forall_take|]; apply filter_isxdigit.
Qed.

Lemma normalize_length g t : length (normalize_trace_id_for_traceparent g t) = 32%nat.
Proof.
  unfold normalize_trace_id_for_traceparent, pad_left. rewrite length_app, length_replicate.
  case_match; bool_props; unfold size in *; [rewrite length_take|]; lia.
Qed.

Lemma is_hex_string_spec s : s ≠ [] → Forall (λ c, isxdigit c = true) s → is_hex_string s = true.
Proof.
  intros Hs H. unfold is_hex_string. apply andb_true_iff. split; [by destruct s|].
  apply forallb_forall. intros c Hc. rewrite Forall_forall in H. by apply H, list_elem_of_In.
Qed.

Lemma dash_free s : Forall (λ c, isxdigit c = true) s → "-"%char ∉ s.
Proof. intros H Hin. rewrite Forall_forall in H. by apply H in Hin. Qed.

(** A well-formed [traceparent] is read back. *)
Lemma parse_traceparent (id rest : bytes) :
  length id = 32%nat → Forall (λ c, isxdigit c = true) id →
  parse_trace_id_from_traceparent ("00-" ++ id ++ "-" ++ rest) = id.
Proof.
  intros Hl Hx. unfold parse_trace_id_from_traceparent.
  change ("00-" ++ id ++ "-" ++ rest) with (lit "00" ++ "-"%char :: (id ++ "-"%char :: rest)).
  rewrite (proj2 (Z.ltb_ge _ _)) by (unfold size; rewrite !length_app; simpl; rewrite length_app; simpl; lia).
  rewrite find_char_app by (apply dash_free; repeat constructor).
  unfold find_char_from, substr.
  change (drop (length (lit "00") + 1) (lit "00" ++ "-"%char :: (id ++ "-"%char :: rest))) with (id ++ "-"%char :: rest).
  rewrite find_char_app by by apply dash_free. cbv [fmap option_fmap option_map].
  change (length (lit "00")) with 2%nat.
  replace (2 + 1 + length id - 2 - 1)%nat with (length id) by lia.
  rewrite take_app_length. unfold size. rewrite Hl, is_hex_string_spec; [done| |done]. by destruct id.
Qed.

(** The [traceparent] the gateway makes up has the W3C shape (two, 32, 16 and
    two hexadecimal digits), and reading it back gives the trace id it was made
    from, in its normal form. *)
Theorem traceparent_roundtrip hash generated trace_id dep_name now :
  let id := normalize_trace_id_for_traceparent generated (if is_empty trace_id then generated else trace_id) in
  let tp := generate_traceparent hash generated trace_id dep_name now in
  parse_trace_id_from_traceparent tp = id ∧ length id = 32%nat ∧ Forall (λ c, isxdigit c = true) id ∧
  ∃ parent : bytes, tp = "00-" ++ id ++ "-" ++ parent ++ "-01" ∧ length parent = 16%nat ∧
    Forall (λ c, isxdigit c = true) parent.
Proof.
  intros id tp. unfold tp, generate_traceparent. fold id.
  assert (length id = 32%nat) by apply normalize_length.
  assert (Forall (λ c, isxdigit c = true) id) by apply normalize_isxdigit.
  split_and!; [by apply parse_traceparent|done|done|]. eexists. split; [done|].
  split; [|apply hex_padded_isxdigit]. apply (hex_padded_length 15). apply (land_mask _ 64). lia.
Qed.

(** * Client identity on the upstream hop *)

Definition lower_keys (h : gmap bytes bytes) : Prop := ∀ k v, h !! k = Some v → lowercase k = k.

Lemma inject_lookup_other ip h (k : bytes) :
  k ≠ "x-real-ip" → k ≠ "x-forwarded-for" → k ≠ "x-forwarded-proto" → k ≠ "x-forwarded-host" →
  inject_forwarded_headers ip h !! k = h !! k.
Proof.
  intros. unfold inject_forwarded_headers. repeat case_match; rewrite ?lookup_insert_ne by congruence; done.
Qed.

Lemma inject_lower_keys ip h : lower_keys h → lower_keys (inject_forwarded_headers ip h).
Proof.
  intros H k v. destruct (decide (k ∈ [lit "x-real-ip"; lit "x-forwarded-for"; lit "x-forwarded-proto"; lit "x-forwarded-host"]))
    as [Hin|Hout].
  - intros _. by repeat (apply elem_of_cons in Hin as [->|Hin]); [..|by apply elem_of_nil in Hin].
  - rewrite inject_lookup_other by set_solver. apply H.
Qed.

(** What the gateway says about its client. *)
Definition identity_value (ip : bytes) (h : gmap bytes bytes) (k v : bytes) : Prop :=
  (k = "x-real-ip" ∧ v = ip) ∨ (k = "x-forwarded-proto" ∧ v = "https") ∨
  (k = "x-forwarded-for" ∧ v = match h !! lit "x-forwarded-for" with Some old => old ++ ", " ++ ip | None => ip end).

Lemma inject_identity ip h k v : ip ≠ [] → identity_value ip h k v → inject_forwarded_headers ip h !! k = Some v.
Proof.
  intros Hip H. assert (is_empty ip = false) as E by by destruct ip.
  destruct H as [[-> ->]|[[-> ->]|[-> ->]]]; unfold inject_forwarded_headers; rewrite E; simpl negb; cbv iota zeta;
    repeat (match goal with |- context [match ?x with _ => _ end !! _] => destruct x end);
    repeat (rewrite lookup_insert_ne by done); by rewrite ?lookup_insert_eq.
Qed.

Lemma connection_tokens_inject ip h : connection_tokens (inject_forwarded_headers ip h) = connection_tokens h.
Proof. unfold connection_tokens. by rewrite inject_lookup_other by done. Qed.

Lemma identity_name ip h k v :
  identity_value ip h k v → lowercase k = k ∧ is_hop_by_hop_header k = false.
Proof. by intros [[-> _]|[[-> _]|[-> _]]]. Qed.

(** Of the headers that name the client ([x-real-ip], [x-forwarded-for],
    [x-forwarded-proto]) a backend sees the gateway's value and no other, whatever
    the client sent; but it sees the value only if the client's Connection header
    does not list the name, since the injected headers are filtered with the
    client's own. *)
Theorem forwarded_identity `{HashOrder} ip h (k v : bytes) :
  ip ≠ [] → lower_keys h → identity_value ip h k v →
  let h' := inject_forwarded_headers ip h in
  let sent := filter (λ kv, forwarded h' kv.1 = true) (iter h') in
  (∀ k' v', (k', v') ∈ sent → lowercase k' = k → v' = v) ∧
  ((k, v) ∈ sent ↔ k ∉ connection_tokens h).
Proof.
  intros Hip Hlow Hid h' sent. pose proof (inject_identity ip h k v Hip Hid) as Hk.
  destruct (identity_name _ _ _ _ Hid) as [Hl Hhop]. unfold sent. split.
  - intros k' v' [_ Hin]%list_elem_of_filter Hk'. apply elem_of_iter in Hin.
    rewrite (inject_lower_keys ip h Hlow k' v' Hin) in Hk'. subst k'. unfold h' in Hin. congruence.
  - rewrite list_elem_of_filter, elem_of_iter. cbn [fst]. unfold forwarded, h'.
    rewrite connection_tokens_inject, Hl, Hhop, orb_false_l, negb_true_iff, bool_decide_eq_false. naive_solver.
Qed.

(** A client that names [x-real-ip] in its Connection header. *)
Definition hiding_headers : gmap bytes bytes :=
  {[ lit "host" := lit "shop"; lit "connection" := lit "close, X-Real-IP"; lit "x-real-ip" := lit "10.0.0.1" ]}.

Lemma forwarded_identity_witness :
  let h' := inject_forwarded_headers "203.0.113.9" hiding_headers in
  let sent := filter (λ kv, forwarded h' kv.1 = true) (iter h') in
  ((lit "x-real-ip", lit "203.0.113.9") ∉ sent) ∧ (lit "x-forwarded-proto", lit "https") ∈ sent.
Proof.
  assert (lower_keys hiding_headers) as Hl.
  { intros k v. unfold hiding_headers. rewrite !lookup_insert_Some, lookup_singleton_Some. naive_solver. }
  assert (lit "203.0.113.9" ≠ []) as Hip by done. split.
  - rewrite (proj2 (forwarded_identity _ _ (lit "x-real-ip") (lit "203.0.113.9") Hip Hl (or_introl (conj eq_refl eq_refl)))).
    intros Hn. apply Hn. apply (bool_decide_unpack _). by vm_compute.
  - apply (proj2 (forwarded_identity _ _ (lit "x-forwarded-proto") (lit "https") Hip Hl
      (or_intror (or_introl (conj eq_refl eq_refl))))).
    apply (bool_decide_unpack _). by vm_compute.
Defined.
