(* ===== verification/ExchangeDelivery.v ===== *)
(** A response on its way back: what [HttpResponse::to_string] prints is framed
    and parsed by [UpstreamExchange] into the same status, headers and body,
    however the connection cuts it into pieces. *)

From S2P Require Import Prelude Search HttpParser HttpResponse HttpClient ConnectionPool UpstreamExchange.

#[local] Open Scope nat_scope.
#[local] Open Scope gateway_scope.

(** * Blocks of lines *)

Fixpoint crlf_join (lines : list bytes) : bytes :=
  match lines with
  | [] => []
  | [l] => l
  | l :: lines' => l ++ CRLF ++ crlf_join lines'
  end.

Definition plain_line (l : bytes) : Prop := (CR ∉ l) ∧ l ≠ [].

Lemma crlf_join_cons l lines : lines ≠ [] → crlf_join (l :: lines) = l ++ CRLF ++ crlf_join lines.
Proof. by destruct lines. Qed.

Lemma concat_lines lines :
  lines ≠ [] → concat ((λ l, l ++ CRLF) <$> lines) = crlf_join lines ++ CRLF.
Proof.
  induction lines as [|l lines IH]; [done|]. intros _. rewrite fmap_cons. cbn [concat].
  destruct lines as [|l' lines]; [by rewrite app_nil_r|].
  rewrite IH by done. rewrite (crlf_join_cons l) by done. by rewrite <- !app_assoc.
Qed.

Lemma split_crlf_line l rest cur :
  CR ∉ l → split_crlf (l ++ CRLF ++ rest) cur = (cur ++ l) :: split_crlf rest [].
Proof.
  intros Hl. pose proof (split_crlf_from (l ++ CRLF ++ rest) 0 cur) as H. rewrite drop_0 in H.
  rewrite H. pose proof (find_line_at [] l rest (is_line_plain _ Hl)) as E.
  change (find_sub_from CRLF 0 (l ++ CRLF ++ rest) = Some (length l)) in E. rewrite E. unfold substr. rewrite Nat.sub_0_r, drop_0, take_app_length.
  replace (length l + 2) with (length (l ++ CRLF)) by by rewrite length_app.
  by rewrite app_assoc, drop_app_length.
Qed.

Lemma find_crlf_none l : CR ∉ l → find_sub CRLF l = None.
Proof.
  induction l as [|x l IH]; intros Hl; [done|]. apply not_elem_of_cons in Hl as [? ?].
  cbn [find_sub starts_with CRLF]. rewrite bool_decide_eq_false_2 by done. simpl. by rewrite IH.
Qed.

Lemma split_crlf_last l cur : CR ∉ l → split_crlf l cur = [cur ++ l].
Proof.
  intros Hl. pose proof (split_crlf_from l 0 cur) as H. rewrite drop_0 in H. rewrite H.
  unfold find_sub_from. by rewrite drop_0, find_crlf_none.
Qed.

Lemma split_crlf_join lines :
  lines ≠ [] → Forall plain_line lines → split_crlf (crlf_join lines) [] = lines.
Proof.
  intros Hne Hall. induction Hall as [|l lines [Hl _] Hall IH]; [done|].
  destruct lines as [|l' lines]; [by rewrite split_crlf_last|].
  rewrite crlf_join_cons, split_crlf_line by done. by rewrite IH.
Qed.

(** A search that skips a byte other than CR, or a CRLF followed by one. *)
Lemma find_crlf2_skip x s : x ≠ CR → find_sub CRLF2 (x :: s) = S <$> find_sub CRLF2 s.
Proof. intros Hx. unfold CRLF2. simpl. by rewrite bool_decide_eq_false_2 by done. Qed.

Lemma find_crlf2_word w s : CR ∉ w → find_sub CRLF2 (w ++ s) = Nat.add (length w) <$> find_sub CRLF2 s.
Proof.
  induction w as [|x w IH]; intros Hw; simpl app; [by destruct (find_sub CRLF2 s)|].
  apply not_elem_of_cons in Hw as [? ?]. rewrite find_crlf2_skip, IH by done.
  by destruct (find_sub CRLF2 s).
Qed.

Lemma find_crlf2_crlf y s :
  y ≠ CR → find_sub CRLF2 (CRLF ++ y :: s) = Nat.add 2 <$> find_sub CRLF2 (y :: s).
Proof.
  intros Hy. change (find_sub CRLF2 (CRLF ++ y :: s)) with
    (if (CR == y) && starts_with [LF] s then Some 0 else S <$> find_sub CRLF2 (LF :: y :: s)).
  rewrite bool_decide_eq_false_2 by done. cbn [andb]. rewrite find_crlf2_skip by done.
  by destruct (find_sub CRLF2 (y :: s)).
Qed.

(** The end of the block is the first empty line. *)
Lemma find_head_end lines t :
  lines ≠ [] → Forall plain_line lines →
  find_sub CRLF2 (crlf_join lines ++ CRLF2 ++ t) = Some (length (crlf_join lines)).
Proof.
  intros Hne Hall. induction Hall as [|l lines [Hl Hln] Hall IH]; [done|].
  destruct lines as [|l' lines].
  - simpl crlf_join. rewrite find_crlf2_word by done. simpl. by rewrite Nat.add_0_r.
  - rewrite crlf_join_cons by done. rewrite <- !app_assoc, find_crlf2_word by done.
    specialize (IH ltac:(done)). inversion Hall as [|? ? [Hl' Hln'] _]; subst.
    destruct (crlf_join (l' :: lines) ++ CRLF2 ++ t) as [|y s] eqn:E.
    { destruct lines; simpl in E; by destruct l'. }
    assert (y ≠ CR) as Hy.
    { destruct l' as [|y' l']; [done|].
      assert (y = y') as -> by (destruct lines; simpl in E; congruence). set_solver. }
    rewrite find_crlf2_crlf, IH by done. simpl. rewrite !length_app. done.
Qed.

(** Lines after the status line. *)
Lemma header_lines_join sl lines :
  CR ∉ sl → lines ≠ [] → Forall plain_line lines →
  after_status_line (crlf_join (sl :: lines)) = length sl + 2 ∧
  header_lines (crlf_join (sl :: lines)) = lines.
Proof.
  intros Hsl Hne Hall. unfold header_lines, after_status_line.
  rewrite crlf_join_cons, find_line by (done || by apply is_line_plain). split; [done|].
  replace (length sl + 2) with (length (sl ++ CRLF)) by by rewrite length_app.
  rewrite app_assoc, drop_app_length. by apply split_crlf_join.
Qed.

(** * Fields *)

Definition field_line (kv : bytes * bytes) : bytes := kv.1 ++ ": " ++ kv.2.

Record wf_field (kv : bytes * bytes) : Prop := {
  wff_key : CR ∉ kv.1;
  wff_colon : ":"%char ∉ kv.1;
  wff_value : CR ∉ kv.2;
  wff_ends : blank_free_ends kv.2;
}.

Lemma field_line_plain kv : wf_field kv → plain_line (field_line kv).
Proof.
  intros [Hk _ Hv _]. unfold field_line. split; [|by destruct kv.1].
  rewrite !elem_of_app. intros [?|[?|?]]; [done| |done]. change (lit ": ") with [":"%char; " "%char] in *.
  set_solver.
Qed.

Lemma find_colon kv : wf_field kv → find_char ":" (field_line kv) = Some (length kv.1).
Proof. intros [_ Hc _ _]. unfold field_line. by apply find_char_app. Qed.

Lemma trim_space v : blank_free_ends v → trim (" "%char :: v) = v.
Proof. intros Hv. unfold trim. simpl trim_left. apply trim_id in Hv. unfold trim in Hv. done. Qed.

Lemma field_of_line kv : wf_field kv → field_of (field_line kv) = Some (kv.1, " "%char :: kv.2).
Proof.
  intros Hf. unfold field_of. rewrite find_colon by done. unfold field_line.
  rewrite take_app_length. f_equal. f_equal.
  change (lit ": " ++ kv.2) with ([":"%char] ++ " "%char :: kv.2).
  replace (S (length kv.1)) with (length (kv.1 ++ [":"%char])) by (rewrite length_app; simpl; lia).
  by rewrite app_assoc, drop_app_length.
Qed.

Lemma first_field_none fields name :
  Forall wf_field fields → Forall (λ kv, lowercase kv.1 ≠ name) fields →
  first_field (field_line <$> fields) name = [].
Proof.
  intros Hf Hn. induction fields as [|kv fields IH]; [done|].
  apply Forall_cons in Hf as [? ?], Hn as [? ?]. rewrite fmap_cons. cbn [first_field].
  rewrite field_of_line by done. by rewrite bool_decide_eq_false_2, IH.
Qed.

Lemma first_field_some fields name v :
  Forall wf_field fields → Exists (λ kv, lowercase kv.1 = name) fields →
  Forall (λ kv, lowercase kv.1 = name → kv.2 = v) fields →
  first_field (field_line <$> fields) name = lowercase v.
Proof.
  intros Hf He Hv. induction fields as [|kv fields IH]; [by apply Exists_nil in He|].
  apply Forall_cons in Hf as [Hkv ?], Hv as [Hv ?]. rewrite fmap_cons. cbn [first_field].
  rewrite field_of_line by done. case_bool_decide as E.
  - rewrite trim_space by apply Hkv. by rewrite Hv.
  - apply IH; [done| |done]. by apply Exists_cons in He as [?|?].
Qed.

(** The table built from a list of fields. *)
Definition add_line (hs : gmap bytes bytes) (line : bytes) : gmap bytes bytes :=
  match find_char ":" line with
  | Some colon => <[take colon line := trim (drop (colon + 1) line)]> hs
  | None => hs
  end.

Lemma header_loop_spec fuel h line_start hs :
  length h < line_start + fuel →
  header_loop fuel h line_start hs = foldl add_line hs (split_crlf (drop line_start h) []).
Proof.
  revert line_start hs. induction fuel as [|fuel IH]; intros line_start hs Hf; cbn [header_loop].
  { by rewrite drop_ge by lia. }
  destruct (Nat.ltb_spec line_start (length h)); cbn [negb]; [|by rewrite drop_ge].
  rewrite split_crlf_from. destruct (find_sub_from CRLF line_start h) as [e|] eqn:Ee.
  - apply find_sub_from_le in Ee as [? Hle]; [|done]. simpl in Hle. cbn [default app foldl].
    by rewrite IH by lia.
  - cbn [default app foldl]. unfold substr. by rewrite take_ge by (rewrite length_drop; lia).
Qed.

Lemma add_fields fields hs :
  Forall wf_field fields →
  foldl add_line hs (field_line <$> fields) = foldl (λ t kv, <[kv.1 := kv.2]> t) hs fields.
Proof.
  intros Hf. revert hs. induction Hf as [|kv fields Hkv _ IH]; intros hs; [done|].
  rewrite fmap_cons. cbn [foldl]. rewrite IH. f_equal. unfold add_line. rewrite find_colon by done.
  pose proof (field_of_line kv Hkv) as E. unfold field_of in E. rewrite find_colon in E by done.
  injection E as E1 E2. rewrite Nat.add_1_r, E1, E2, trim_space by apply Hkv. done.
Qed.

Lemma fold_insert_NoDup (fields : list (bytes * bytes)) hs :
  NoDup fields.*1 →
  foldl (λ t kv, <[kv.1 := kv.2]> t) hs fields = (list_to_map fields : gmap bytes bytes) ∪ hs.
Proof.
  revert hs. induction fields as [|[k v] fields IH]; intros hs Hn; simpl; [by rewrite (left_id_L ∅ _)|].
  apply NoDup_cons in Hn as [Hk Hn]. rewrite IH by done. simpl.
  apply not_elem_of_list_to_map_1 in Hk. by rewrite <- insert_union_r, insert_union_l by done.
Qed.

(** * The status line *)

Lemma leading_digits_all s : Forall (λ c, is_digit c = true) s → leading_digits s = s.
Proof. induction 1 as [|c s Hc _ IH]; simpl; [done|]. by rewrite Hc, IH. Qed.

Lemma is_digit_plain c :
  is_digit c = true → is_space c = false ∧ c ≠ "-"%char ∧ c ≠ "+"%char ∧ c ≠ " "%char.
Proof.
  destruct c as [[][][][][][][][]]; intros H; try discriminate H; by split_and!.
Qed.

Lemma stoi_to_string n : (0 <= n < 2 ^ 31)%Z → stoi (to_string n) = Some n.
Proof.
  intros Hn. pose proof (to_string_digits n ltac:(lia)) as Hd.
  pose proof (to_string_cons n ltac:(lia)) as Hne. pose proof (decimal_to_string n ltac:(lia)) as Hv.
  unfold stoi, leading_integer. destruct (to_string n) as [|c s]; [done|].
  pose proof Hd as Hd'. apply Forall_cons in Hd' as [Hc _]. apply is_digit_plain in Hc as (Hs & Hm & Hp & _).
  cbn [skip_space]. rewrite Hs, !bool_decide_eq_false_2 by done.
  rewrite leading_digits_all by done. cbn [is_empty]. rewrite Hv, Z.mul_1_l. unfold in_int.
  rewrite (proj2 (Z.leb_le _ _)), (proj2 (Z.ltb_lt _ _)) by lia. done.
Qed.

Lemma parse_status_line n rest :
  (0 <= n < 2 ^ 31)%Z → parse_status ("HTTP/1.1 " ++ to_string n ++ " " ++ rest) = Some n.
Proof.
  intros Hn. unfold parse_status, status_text.
  change (find_char " " ("HTTP/1.1 " ++ _)) with (Some 8). cbv iota beta.
  assert (find_char_from " " (8 + 1) ("HTTP/1.1 " ++ to_string n ++ " " ++ rest) =
    Some (9 + length (to_string n))) as ->.
  { unfold find_char_from. change (8 + 1) with (length (lit "HTTP/1.1 ")). rewrite drop_app_length.
    change (lit " " ++ rest) with (" "%char :: rest). rewrite find_char_app; [done|].
    apply to_string_plain; [lia|done]. }
  change (8 + 1) with (length (lit "HTTP/1.1 ")). rewrite substr_at by lia. by apply stoi_to_string.
Qed.

(** * A printed response *)

Section response.
  Context `{HashOrder} (rsp : HttpResponse) (max : Z).

Definition status_line : bytes := "HTTP/1.1 " ++ to_string (r_status_code rsp) ++ " " ++ r_status_message rsp.

Definition response_head : bytes := crlf_join (status_line :: (field_line <$> iter (r_headers rsp))).

(** A response framed by its Content-Length, in the limits of the exchange. *)
Record wf_response : Prop := {
  wr_status : (0 <= r_status_code rsp < 2 ^ 31)%Z;
  wr_message : CR ∉ r_status_message rsp;
  wr_fields : map_Forall (λ k v, wf_field (k, v)) (r_headers rsp);
  wr_length : ∃ k, is_Some (r_headers rsp !! k) ∧ lowercase k = "content-length";
  wr_length_value : map_Forall (λ k v, lowercase k = "content-length" → v = to_string (size (r_body rsp))) (r_headers rsp);
  wr_identity : map_Forall (λ k _, lowercase k ≠ "transfer-encoding") (r_headers rsp);
  wr_head : (size response_head + 3 <= kExchangeMaxHeaderSize)%Z;
  wr_size : (size (response_to_string rsp) <= max < 2 ^ 63)%Z;
}.

Hypothesis wf : wf_response.

Lemma iter_Forall (P : bytes → bytes → Prop) :
  map_Forall P (r_headers rsp) → Forall (λ kv, P kv.1 kv.2) (iter (r_headers rsp)).
Proof.
  intros HP. apply Forall_forall. intros [k v] Hin%elem_of_iter. by apply HP.
Qed.

Lemma fields_wf : Forall wf_field (iter (r_headers rsp)).
Proof.
  eapply Forall_impl; [apply iter_Forall, (wr_fields wf)|]. by intros [k v].
Qed.

Lemma fields_nonempty : iter (r_headers rsp) ≠ [].
Proof.
  destruct (wr_length wf) as (k & [v Hv] & _). apply elem_of_iter in Hv. by destruct (iter _); [inversion Hv|].
Qed.

Lemma fields_lines : field_line <$> iter (r_headers rsp) ≠ [] ∧ Forall plain_line (field_line <$> iter (r_headers rsp)).
Proof.
  split; [intros E%fmap_nil_inv; by apply fields_nonempty|].
  apply Forall_fmap. eapply Forall_impl; [apply fields_wf|apply field_line_plain].
Qed.

Lemma status_line_plain : plain_line status_line.
Proof.
  split; [|done]. unfold status_line. rewrite !elem_of_app. intros [E|[E|[E|E]]].
  - revert E. by apply (bool_decide_unpack _).
  - revert E. apply to_string_plain; [pose proof (wr_status wf); lia|done].
  - revert E. by apply (bool_decide_unpack _).
  - by apply (wr_message wf).
Qed.

Lemma wire_split : response_to_string rsp = response_head ++ CRLF2 ++ r_body rsp.
Proof.
  unfold response_to_string, response_head, status_line. destruct fields_lines as [Hne _].
  rewrite crlf_join_cons by done. unfold CRLF2.
  assert (concat (field_text <$> iter (r_headers rsp)) = crlf_join (field_line <$> iter (r_headers rsp)) ++ CRLF) as ->.
  { rewrite <- concat_lines by done. rewrite <- list_fmap_compose. f_equal. apply list_fmap_ext.
    intros ? kv ?. unfold field_text, field_line. simpl. by rewrite <- !app_assoc. }
  by rewrite <- !app_assoc.
Qed.

Lemma head_end t : find_sub CRLF2 (response_head ++ CRLF2 ++ t) = Some (length response_head).
Proof.
  destruct fields_lines. apply find_head_end; [done|]. constructor; [apply status_line_plain|done].
Qed.

Lemma head_lines :
  after_status_line response_head = length status_line + 2 ∧
  header_lines response_head = field_line <$> iter (r_headers rsp).
Proof. destruct fields_lines. apply header_lines_join; [apply status_line_plain|done..]. Qed.

Lemma head_value name : find_header_value response_head name = first_field (field_line <$> iter (r_headers rsp)) name.
Proof.
  unfold find_header_value. rewrite find_header_loop_spec by lia.
  change (split_crlf _ _) with (header_lines response_head). by rewrite (proj2 head_lines).
Qed.

Lemma tolower_digit c : is_digit c = true → tolower c = c.
Proof. by destruct c as [[][][][][][][][]]; intros H'; try discriminate H'. Qed.

Lemma lowercase_digits s : Forall (λ c, is_digit c = true) s → lowercase s = s.
Proof. unfold lowercase. induction 1 as [|c s Hc _ IH]; [done|]. rewrite fmap_cons, IH, tolower_digit; done. Qed.

Lemma head_content_length : find_header_value response_head "content-length" = to_string (size (r_body rsp)).
Proof.
  rewrite head_value, (first_field_some _ _ (to_string (size (r_body rsp)))).
  - apply lowercase_digits, to_string_digits, size_nonneg.
  - apply fields_wf.
  - destruct (wr_length wf) as (k & [v Hv] & Hk). apply Exists_exists. exists (k, v). split; [by apply elem_of_iter|done].
  - apply (iter_Forall _ (wr_length_value wf)).
Qed.

Lemma head_transfer_encoding : find_header_value response_head "transfer-encoding" = [].
Proof. rewrite head_value. apply first_field_none; [apply fields_wf|apply (iter_Forall _ (wr_identity wf))]. Qed.

Lemma stoull_to_string n : (0 <= n <= SIZE_MAX)%Z → stoull (to_string n) = Some n.
Proof.
  intros Hn. unfold stoull. rewrite decimal_to_string by lia. by rewrite (proj2 (Z.leb_le _ _)) by lia.
Qed.

(** Framing a buffer that holds the whole head. *)
Lemma try_frame_head (x : UpstreamExchange) (b : bytes) :
  response_bytes_ x = response_head ++ CRLF2 ++ b → p_max_response_bytes (params_ x) = max →
  (size (response_head ++ CRLF2 ++ b) < 2 ^ 63)%Z →
  try_frame x =
    if (size (r_body rsp) <=? size b)%Z
    then (Framed FrameComplete,
      x{{response_keepalive_ := keepalive_of response_head; body_end_ := Some (length (response_to_string rsp))}})
    else (Framed FrameIncomplete, x{{response_keepalive_ := keepalive_of response_head}}).
Proof.
  intros Hb Hmax Hsz. pose proof (wr_size wf) as Hws. rewrite wire_split, !size_app in Hws.
  rewrite !size_app in Hsz. change (size CRLF2) with 4%Z in *.
  pose proof (size_nonneg response_head). pose proof (size_nonneg (r_body rsp)). pose proof (size_nonneg b).
  unfold try_frame. rewrite Hb, head_end, take_app_length. rewrite head_transfer_encoding, head_content_length.
  rewrite bool_decide_eq_false_2 by (by intros [? ?]). cbn [is_empty negb].
  destruct (to_string (size (r_body rsp))) as [|c cl] eqn:Ecl; [by apply to_string_cons in Ecl|]. rewrite <- Ecl in *.
  assert (forallb is_digit (to_string (size (r_body rsp))) = true) as ->.
  { apply forallb_Forall, to_string_digits. lia. }
  assert (is_empty (to_string (size (r_body rsp))) = false) as -> by by rewrite Ecl.
  rewrite stoull_to_string by (unfold SIZE_MAX; lia). cbn [negb andb].
  replace (p_max_response_bytes (params_ (x{{response_keepalive_ := keepalive_of response_head}}))) with max
    by by destruct x.
  rewrite (proj2 (Z.ltb_ge _ _)) by lia.
  assert (Z.of_nat (length response_head) = size response_head) as -> by done.
  rewrite wrap64_small by lia. rewrite !size_app. change (size CRLF2) with 4%Z.
  destruct (Z.leb_spec (size (r_body rsp)) (size b)) as [Hle|Hle].
  - rewrite (proj2 (Z.leb_le _ _)) by lia.
    assert (Z.to_nat (size response_head + 4 + size (r_body rsp)) = length (response_to_string rsp)) as ->.
    { rewrite wire_split, !length_app. unfold size in *. change (length CRLF2) with 4. lia. }
    by destruct x.
  - rewrite (proj2 (Z.leb_gt _ _)) by lia. done.
Qed.

Lemma try_frame_complete (x : UpstreamExchange) (rest : bytes) :
  response_bytes_ x = response_to_string rsp ++ rest → p_max_response_bytes (params_ x) = max →
  (size (response_to_string rsp ++ rest) < 2 ^ 63)%Z →
  try_frame x = (Framed FrameComplete,
    x{{response_keepalive_ := keepalive_of response_head; body_end_ := Some (length (response_to_string rsp))}}).
Proof.
  intros Hb Hmax Hsz. rewrite wire_split, <- !app_assoc in Hb, Hsz. rewrite (try_frame_head x _ Hb Hmax Hsz).
  rewrite size_app, (proj2 (Z.leb_le _ _)) by (pose proof (size_nonneg rest); lia). by destruct x.
Qed.

(** A proper part of the response asks for more. *)
Lemma try_frame_part (x : UpstreamExchange) (part more : bytes) :
  response_to_string rsp = part ++ more → more ≠ [] →
  response_bytes_ x = part → p_max_response_bytes (params_ x) = max →
  ∃ ka, try_frame x = (Framed FrameIncomplete, x{{response_keepalive_ := ka}}).
Proof.
  intros Hw Hm Hb Hmax. pose proof (wr_size wf) as Hws. rewrite Hw in Hws.
  pose proof (wire_split) as Hws'. rewrite Hw in Hws'.
  destruct (decide (length part < length response_head + 4)) as [Hlt|Hge].
  - exists (response_keepalive_ x). unfold try_frame. rewrite Hb.
    destruct (find_sub CRLF2 part) as [i|] eqn:Ei.
    { exfalso. pose proof (find_sub_Some _ _ _ Ei) as [_ Hi]. change (length CRLF2) with 4 in Hi.
      apply (find_sub_app _ _ more) in Ei. rewrite Hws', head_end in Ei. simplify_eq. lia. }
    pose proof (wr_head wf). rewrite (proj2 (Z.ltb_ge _ _)) by (unfold size in *; lia). by destruct x.
  - assert (∃ b, part = response_head ++ CRLF2 ++ b ∧ r_body rsp = b ++ more) as (b & -> & Hbody).
    { exists (drop (length (response_head ++ CRLF2)) part).
      rewrite app_assoc in Hws'.
      assert (length (response_head ++ CRLF2) ≤ length part) as Hle.
      { rewrite length_app. change (length CRLF2) with 4. lia. }
      rewrite app_assoc. split.
      - rewrite <- (take_drop (length (response_head ++ CRLF2)) part) at 1. f_equal.
        apply (f_equal (take (length (response_head ++ CRLF2)))) in Hws'.
        rewrite take_app_le, take_app_length in Hws' by done. done.
      - apply (f_equal (drop (length (response_head ++ CRLF2)))) in Hws'.
        rewrite drop_app_le, drop_app_length in Hws' by done. done. }
    exists (keepalive_of response_head). rewrite (try_frame_head x b Hb Hmax).
    + rewrite Hbody, size_app, (proj2 (Z.leb_gt _ _)); [done|]. apply size_pos in Hm. lia.
    + rewrite !size_app in *. pose proof (size_nonneg more). lia.
Qed.

Lemma head_headers : parse_response_headers (response_head) ∅ = r_headers rsp.
Proof.
  unfold parse_response_headers. rewrite header_loop_spec by lia.
  change (split_crlf _ _) with (header_lines response_head). rewrite (proj2 head_lines).
  rewrite add_fields by apply fields_wf. rewrite fold_insert_NoDup by apply NoDup_iter.
  by rewrite list_to_map_iter, (right_id_L ∅ _).
Qed.

(** The response the exchange hands over. *)
Definition delivered : BackendResponse :=
  mkBackend (r_status_code rsp) (r_headers rsp) (r_body rsp) ErrorNone.

Lemma finish_ok_delivers (x : UpstreamExchange) (rest : bytes) :
  response_bytes_ x = response_to_string rsp ++ rest → body_end_ x = Some (length (response_to_string rsp)) →
  response_is_chunked_ x = false → resp_headers (result_ x) = ∅ →
  finish_ok x = x{{result_ := delivered; succeeded_ := true; phase_ := PhDone}}.
Proof.
  intros Hb He Hc Hh. unfold finish_ok. rewrite Hb, He, Hc, Hh.
  assert (parse_status (response_to_string rsp ++ rest) = Some (r_status_code rsp)) as ->.
  { unfold response_to_string. rewrite <- !app_assoc. apply parse_status_line, (wr_status wf). }
  rewrite wire_split, <- !app_assoc, head_end, take_app_length, head_headers.
  assert (length response_head + 4 = length (response_head ++ CRLF2)) as -> by (rewrite length_app; done).
  rewrite (app_assoc response_head CRLF2 (r_body rsp)).
  rewrite (app_assoc response_head CRLF2 (r_body rsp ++ rest)).
  rewrite substr_at by (rewrite !length_app; lia). destruct x; simpl in *. by subst.
Qed.
End response.

(** * The exchange under the event loop *)

(** [advance] is called again whenever the socket is ready in the direction it
    asked for (1 stands for the mask of the event). *)
Fixpoint event_loop `{HashOrder} (ev : Z) (turns : list Turn) (m : machine) : machine :=
  match turns with
  | [] => m
  | t :: turns' =>
    match run_turn ev t m with
    | (Again ev', m') => event_loop ev' turns' m'
    | (Return WantDone, m') => m'
    | (Return _, m') => event_loop 1 turns' m'
    | (Raise, m') | (Hang, m') => m'
    end
  end.

(** The kernel takes the request in pieces, blocking any number of times. *)
Fixpoint sends_ok (total off : nat) (turns : list Turn) : Prop :=
  match turns with
  | [] => off = total
  | t :: turns' =>
    off < total ∧
    match t_send t with
    | Wrote 0 e => e ≠ EOTHER ∧ sends_ok total off turns'
    | Wrote n _ => off + n ≤ total ∧ sends_ok total (off + n) turns'
    | WriteThrows => False
    end
  end.

(** The backend's bytes arrive in pieces, until there are enough. *)
Fixpoint reads_ok (enough : nat) (stream got : bytes) (turns : list Turn) : Prop :=
  match turns with
  | [] => False
  | t :: turns' =>
    if enough <=? length got then True else
    match t_recv t with
    | Got data => data ≠ [] ∧ got ++ data `prefix_of` stream ∧ reads_ok enough stream (got ++ data) turns'
    | ReadErr EINTR | ReadErr EAGAIN => reads_ok enough stream got turns'
    | _ => False
    end
  end.

(** Every turn comes before the deadline counted from [T]. *)
Definition in_time (p : Params) (T : Z) (t : Turn) : Prop :=
  (t_now t < deadline_from p T ∧ T <= t_refresh t)%Z.

Section delivery.
  Context `{HashOrder} (p : Params) (T : Z) (rsp : HttpResponse) (rest : bytes).
  Hypothesis wf : wf_response rsp (p_max_response_bytes p).
  Hypothesis stream_size : (size (response_to_string rsp ++ rest) < 2 ^ 63)%Z.

Record reading (m : machine) (got : bytes) : Prop := {
  rd_params : params_ (ex m) = p;
  rd_phase : phase_ (ex m) = PhRead;
  rd_bytes : response_bytes_ (ex m) = got;
  rd_chunked : response_is_chunked_ (ex m) = false;
  rd_headers : resp_headers (result_ (ex m)) = ∅;
  rd_deadline : (deadline_from p T <= deadline_ (ex m))%Z;
}.

(** Where the exchange ends. *)
Record finished (m : machine) (sent : list attempt) : Prop := {
  fin_phase : phase_ (ex m) = PhDone;
  fin_ok : succeeded_ (ex m) = true;
  fin_result : result_ (ex m) = delivered rsp;
  fin_end : body_end_ (ex m) = Some (length (response_to_string rsp));
  fin_sent : attempts m = sent;
}.

Lemma prefix_short (got wire : bytes) :
  got `prefix_of` wire ++ rest → length got < length wire → ∃ more, wire = got ++ more ∧ more ≠ [].
Proof.
  intros [k Hk] Hlt. exists (drop (length got) wire). split.
  - apply (f_equal (take (length got))) in Hk. rewrite take_app_le, take_app_length in Hk by lia.
    rewrite <- Hk at 1. by rewrite take_drop.
  - intros E%(f_equal length). rewrite length_drop in E. simpl in E. lia.
Qed.

Lemma prefix_long (got wire : bytes) :
  got `prefix_of` wire ++ rest → length wire ≤ length got → ∃ rest', got = wire ++ rest' ∧ rest' `prefix_of` rest.
Proof.
  intros [k Hk] Hle. exists (drop (length wire) got). pose proof Hk as Hk'.
  apply (f_equal (take (length wire))) in Hk. rewrite take_app_length, take_app_le in Hk by lia.
  apply (f_equal (drop (length wire))) in Hk'. rewrite drop_app_length, drop_app_le in Hk' by lia.
  split; [rewrite Hk at 1; by rewrite take_drop|by exists k].
Qed.

Lemma not_expired (m : machine) (t : Turn) :
  in_time p T t → (deadline_from p T <= deadline_ (ex m))%Z → expired (t_now t) (ex m) = false.
Proof. intros [? ?] ?. unfold expired. apply Z.leb_gt. lia. Qed.

Lemma deadline_later now : (T <= now)%Z → (deadline_from p T <= deadline_from p now)%Z.
Proof. unfold deadline_from. lia. Qed.

(** A turn after which the exchange is called again. *)
Definition goes_on (f : flow) : Prop := f = Again 0 ∨ f = Return WantRead ∨ f = Return WantWrite.

Lemma event_loop_goes_on f ev t turns m m' :
  run_turn ev t m = (f, m') → goes_on f → ∃ ev', event_loop ev (t :: turns) m = event_loop ev' turns m'.
Proof. intros E [->|[->| ->] ]; cbn [event_loop]; rewrite E; by eexists. Qed.

(** The socket and the pool stay as they are. *)
Definition same_link (m m' : machine) : Prop := sock_ (ex m') = sock_ (ex m) ∧ global_pool m' = global_pool m.

(** One turn of reading: the response is complete, or more of it is there. *)
Lemma read_turn t turns ev m got :
  reading m got → got `prefix_of` response_to_string rsp ++ rest → in_time p T t →
  reads_ok (length (response_to_string rsp)) (response_to_string rsp ++ rest) got (t :: turns) →
  ∃ f m', run_turn ev t m = (f, m') ∧ same_link m m' ∧ attempts m' = attempts m ∧
    (f = Return WantDone ∧ finished m' (attempts m) ∨
     goes_on f ∧ ∃ got', reading m' got' ∧ got' `prefix_of` response_to_string rsp ++ rest ∧
       reads_ok (length (response_to_string rsp)) (response_to_string rsp ++ rest) got' turns).
Proof.
  intros [H1 H2 H3 H4 H5 H6] Hpre Ht. cbn [reads_ok]. unfold run_turn.
  rewrite H2, not_expired, bool_decide_eq_false_2 by done. unfold step_Read.
  destruct (Nat.leb_spec (length (response_to_string rsp)) (length got)) as [Hle|Hlt].
  - intros _. destruct (prefix_long _ _ Hpre Hle) as (rest' & -> & Hr).
    rewrite (try_frame_complete rsp _ wf (ex m) rest'); [|done|by rewrite H1|].
    + destruct m as [[] pool att]. flat. subst.
      rewrite (finish_ok_delivers rsp _ wf _ rest') by done. eexists _, _. split_and!; [reflexivity|done|done|]. left. by split.
    + destruct Hr as [k ->]. rewrite !size_app in *. pose proof (size_nonneg k). lia.
  - destruct (prefix_short _ _ Hpre Hlt) as (more & Hw & Hm).
    destruct (try_frame_part rsp _ wf (ex m) got more Hw Hm H3 ltac:(by rewrite H1)) as [ka ->].
    set (m1 := m{{ex := (ex m){{response_keepalive_ := ka}} }}).
    assert (reading m1 got ∧ attempts m1 = attempts m ∧ same_link m m1) as ([G1 G2 G3 G4 G5 G6] & Ga & Gl) by by destruct m as [[] ? ?].
    replace (params_ _) with p by by destruct m as [[] ? ?].
    replace (response_bytes_ _) with got by by destruct m as [[] ? ?].
    cbv zeta. pose proof (wr_size _ _ wf) as Hmax. rewrite Hw, size_app in Hmax.
    rewrite (proj2 (Z.ltb_ge _ _)) by (pose proof (size_nonneg more); lia).
    fold m1. clearbody m1. rewrite <- Ga. unfold same_link in Gl |- *. destruct Gl as [<- <-]. clear Ga m H1 H2 H3 H4 H5 H6.
    unfold step_recv. destruct (t_recv t) as [data|[]|]; [| | |done|done].
    + intros (Hd & Hp & Hr). destruct data as [|c data]; [done|]. eexists _, _. split; [reflexivity|].
      destruct m1 as [[] pool att]. flat. subst. split_and!; [done..|]. right. split; [by left|].
      eexists. split; [|by split]. split; flat; try done. apply deadline_later, Ht.
    + intros Hr. eexists _, _. split_and!; [reflexivity|done..|]. right. split; [by left|]. by exists got.
    + intros Hr. eexists _, _. split; [reflexivity|]. destruct m1 as [[] pool att]. flat. subst. split_and!; [done..|].
      right. split; [unfold goes_on; destruct (is_ssl _), (t_want t); auto|]. eexists. split; [|by split].
      split; flat; try done. apply deadline_later, Ht.
Qed.

Lemma read_loop turns ev m got :
  reading m got → got `prefix_of` response_to_string rsp ++ rest → Forall (in_time p T) turns →
  reads_ok (length (response_to_string rsp)) (response_to_string rsp ++ rest) got turns →
  finished (event_loop ev turns m) (attempts m).
Proof.
  revert ev m got. induction turns as [|t turns IH]; intros ev m got Hm Hpre Ht Hr; [done|]. apply Forall_cons in Ht as [Ht Hts].
  destruct (read_turn t turns ev m got Hm Hpre Ht Hr) as (f & m' & E & _ & Ea & [ [-> Hf]|[Hg (got' & Hm' & Hp' & Hr')] ]).
  - cbn [event_loop]. by rewrite E.
  - destruct (event_loop_goes_on _ ev t turns m m' E Hg) as [ev' ->]. rewrite <-Ea. by apply (IH ev' m' got').
Qed.

(** Writing the request. *)
Record sending (m : machine) (got : bytes) : Prop := {
  sn_params : params_ (ex m) = p;
  sn_phase : phase_ (ex m) = PhSend;
  sn_request : (request_bytes_ (ex m) = [] ∧ send_off_ (ex m) = 0) ∨ request_bytes_ (ex m) = build_request p;
  sn_off : send_off_ (ex m) ≤ length (build_request p);
  sn_bytes : response_bytes_ (ex m) = got;
  sn_chunked : response_is_chunked_ (ex m) = false;
  sn_headers : resp_headers (result_ (ex m)) = ∅;
  sn_deadline : (deadline_from p T <= deadline_ (ex m))%Z;
}.

(** What has been written so far, to one connection. *)
Definition sent_part (m : machine) (s : nat) (pooled : bool) : Prop :=
  attempts m = [mkAttempt s pooled (take (send_off_ (ex m)) (build_request p))].

(** The text of the request is there from the first turn on. *)
Lemma step_Send_built t m got :
  sending m got →
  step_Send t m = step_Send t (m{{ex ::= fun x => x{{request_bytes_ := build_request p}} }}) ∧
  sending (m{{ex ::= fun x => x{{request_bytes_ := build_request p}} }}) got.
Proof.
  intros [H1 H2 H3 H4 H5 H6 H7 H8]. destruct m as [[] pool att]. flat. subst. split; [|split; flat; auto].
  unfold step_Send. flat. destruct H3 as [[-> _]| ->]; flat; destruct (is_empty (build_request p)); done.
Qed.

Lemma send_turn t turns ev m got :
  sending m got → in_time p T t → sends_ok (length (build_request p)) (send_off_ (ex m)) (t :: turns) →
  ∃ f m', run_turn ev t m = (f, m') ∧ goes_on f ∧ same_link m m' ∧ sending m' got ∧
    sends_ok (length (build_request p)) (send_off_ (ex m')) turns ∧ (∀ s pooled, sent_part m s pooled → sent_part m' s pooled).
Proof.
  intros Hm Ht. unfold run_turn. rewrite (sn_phase _ _ Hm), not_expired, bool_decide_eq_false_2 by (done || apply Hm).
  destruct (step_Send_built t m got Hm) as [-> [H1 H2 _ H4 H5 H6 H7 H8] ]. clear Hm. cbn [sends_ok]. intros [Hlt Hs].
  unfold step_Send, sent_part, same_link. destruct m as [[] pool att]. flat. subst.
  assert (is_empty (build_request p) = false) as -> by (destruct (build_request p); [cbn in Hlt; lia|done]).
  flat. rewrite (proj2 (Nat.ltb_lt _ _)) by done.
  destruct (t_send t) as [[|n] e|]; [| |done].
  - destruct Hs as [He Hs]. cbn [Nat.ltb Nat.leb]. destruct e; [| |done]; eexists _, _; (split; [reflexivity|]); flat.
    + split_and!; try done; [by left|split; flat; auto].
    + split_and!; try done; [unfold goes_on; destruct (is_ssl _), (t_want t); auto|]. split; flat; auto. apply deadline_later, Ht.
  - destruct Hs as [Hle Hs]. cbn [Nat.ltb Nat.leb]. eexists _, _. split; [reflexivity|]. flat.
    split_and!; try done; [by left|split; flat; auto; apply deadline_later, Ht|].
    intros s pooled ->. cbn [log_write]. do 2 f_equal. cbn. unfold substr. by rewrite take_take_drop.
Qed.

(** The turn after the last byte. *)
Lemma send_end t ev m got :
  sending m got → in_time p T t → send_off_ (ex m) = length (build_request p) →
  ∃ m', run_turn ev t m = (Again 0, m') ∧ same_link m m' ∧ reading m' got ∧ attempts m' = attempts m.
Proof.
  intros Hm Ht. unfold run_turn. rewrite (sn_phase _ _ Hm), not_expired, bool_decide_eq_false_2 by (done || apply Hm).
  destruct (step_Send_built t m got Hm) as [-> [H1 H2 _ H4 H5 H6 H7 H8] ]. clear Hm. intros Hoff.
  unfold step_Send, same_link. destruct m as [[] pool att]. flat. subst.
  destruct (is_empty (build_request p)); flat; rewrite Nat.ltb_irrefl; eexists; (split; [reflexivity|]); flat;
    (split_and!; try done; split; flat; try done; apply deadline_later, Ht).
Qed.

Lemma send_loop turns t0 reads ev m s pooled got :
  sending m got → sent_part m s pooled → got `prefix_of` response_to_string rsp ++ rest → Forall (in_time p T) (turns ++ t0 :: reads) →
  sends_ok (length (build_request p)) (send_off_ (ex m)) turns →
  reads_ok (length (response_to_string rsp)) (response_to_string rsp ++ rest) got reads →
  finished (event_loop ev (turns ++ t0 :: reads) m) [mkAttempt s pooled (build_request p)].
Proof.
  intros Hm Hp Hpre Ht Hs Hr. revert ev m Hm Hp Hs Ht. induction turns as [|t turns IH]; intros ev m Hm Hp Hs Ht;
    apply Forall_cons in Ht as [Ht Hts]; cbn [app].
  - destruct (send_end t0 ev m got Hm Ht Hs) as (m' & E & _ & Hm' & Ea). cbn [event_loop]. rewrite E.
    unfold sent_part in Hp. rewrite Hs, firstn_all in Hp. rewrite <-Hp, <-Ea. by apply (read_loop reads 0 m' got).
  - destruct (send_turn t turns ev m got Hm Ht Hs) as (f & m' & E & Hg & _ & Hm' & Hs' & Hp').
    destruct (event_loop_goes_on _ ev t (turns ++ t0 :: reads) m m' E Hg) as [ev' ->]. by apply IH; auto.
Qed.
End delivery.


(** Bytes a backend sent beyond the end of one response are taken for the
    answer to the next request on that connection: when they form a complete
    response, the exchange succeeds with it right after writing its request, and
    no read happens (the turns' read results are arbitrary). *)
Theorem leftover_answers_next_request `{HashOrder} p idem rsp rest now conn pool pool' t0 sends t1 t2 :
  wf_response rsp (p_max_response_bytes p) → (size (response_to_string rsp ++ rest) < 2 ^ 63)%Z →
  (0 < p_timeout_ms p)%Z →
  checkout (p_host p) (p_port p) (scheme_of_params p) (t_now t0) pool = (Some conn, pool') →
  leftover conn = response_to_string rsp ++ rest → t_wait t0 = WaitTimeout →
  Forall (in_time p now) (t0 :: sends ++ [t1; t2]) →
  sends_ok (length (build_request p)) 0 sends →
  let m := event_loop 0 (t0 :: sends ++ [t1; t2]) (mkMachine (exchange_init p idem now) pool []) in
  succeeded_ (ex m) = true ∧
  result_ (ex m) = mkBackend (r_status_code rsp) (r_headers rsp) (r_body rsp) ErrorNone ∧
  attempts m = [mkAttempt (socket conn) true (build_request p)].
Proof.
  intros Hwf Hsz Htm Hco Hlo Hw Ht Hsend. cbv zeta. apply Forall_cons in Ht as [Ht0 Ht].
  assert (∃ m, sending p now m (response_to_string rsp ++ rest) ∧ sent_part p m (socket conn) true ∧ send_off_ (ex m) = 0 ∧
    run_turn 0 t0 (mkMachine (exchange_init p idem now) pool []) = (Again 0, m)) as (m & Hm & Hp & Hoff & Hrun).
  { unfold exchange_init. rewrite (proj2 (Z.leb_gt _ _)) by done. eexists. split_and!; last first.
    - unfold run_turn. flat. rewrite bool_decide_eq_false_2 by done.
      unfold expired. flat. rewrite (proj2 (Z.leb_gt _ _)) by by destruct Ht0.
      unfold step_Connect, open_connection. flat. rewrite Hco. unfold probe_alive. rewrite Hw. flat. reflexivity.
    - done.
    - done.
    - unfold refresh_deadline. flat. split; flat; auto; [lia|]. apply deadline_later, Ht0. }
  cbn [event_loop]. rewrite Hrun.
  destruct (send_loop p now rsp rest Hwf Hsz sends t1 [t2] 0 m (socket conn) true _ Hm Hp
    ltac:(done) Ht ltac:(by rewrite Hoff)) as [? ? ? ? ?]; [|done].
  cbn [reads_ok]. by rewrite (proj2 (Nat.leb_le _ _)) by (rewrite length_app; lia).
Qed.

(** A small exchange: the request in two writes, the response in two reads. *)
Definition sample_params : Params :=
  mkParams "127.0.0.1" 8080 "GET" "/" ∅ [] 1000 1048576 (mkTls false [] [] false).

Definition sample_response : HttpResponse :=
  mkResponse 200 "OK" {[ lit "Content-Length" := lit "2" ]} "hi" false.

Definition sample_turn (w : io_write) (r : io_read) : Turn :=
  mkTurn 5 5 WaitTimeout None false (Some 7) true (Some true) true 0%Z HS_COMPLETE w r SSL_NONE.

Definition sample_turns : list Turn :=
  [sample_turn (Wrote 10 EOTHER) ReadThrows; sample_turn (Wrote 0 EAGAIN) ReadThrows;
   sample_turn (Wrote (length (build_request sample_params) - 10) EOTHER) ReadThrows].

Definition sample_reads : list Turn :=
  [sample_turn WriteThrows (Got (take 20 (response_to_string sample_response)));
   sample_turn WriteThrows (ReadErr EAGAIN);
   sample_turn WriteThrows (Got (drop 20 (response_to_string sample_response) ++ "next"));
   sample_turn WriteThrows ReadThrows].

Lemma sample_response_wf : wf_response sample_response 1048576.
Proof.
  split; try evaluate.
  - apply map_Forall_singleton. split; [evaluate..|]. split; by intros c [= <-].
  - exists (lit "Content-Length"). split; evaluate.
Qed.


Definition sample_pool : ConnectionPool :=
  checkin "127.0.0.1" 8080 [] (mkPooled 7 (response_to_string sample_response) 0) 0 pool_init.

Lemma leftover_answers_next_request_witness :
  let m := event_loop 0 (sample_turn WriteThrows ReadThrows :: sample_turns ++
             [sample_turn WriteThrows ReadThrows; sample_turn WriteThrows ReadThrows])
             (mkMachine (exchange_init sample_params true 0) sample_pool []) in
  resp_body (result_ (ex m)) = "hi".
Proof.
  destruct (leftover_answers_next_request sample_params true sample_response [] 0
    (mkPooled 7 (response_to_string sample_response) 0) sample_pool pool_init
    (sample_turn WriteThrows ReadThrows) sample_turns (sample_turn WriteThrows ReadThrows)
    (sample_turn WriteThrows ReadThrows)) as (_ & E & _).
  - exact sample_response_wf.
  - reflexivity.
  - done.
  - by vm_compute.
  - by rewrite app_nil_r.
  - done.
  - repeat constructor; done.
  - vm_compute. split_and!; first [lia|done].
  - cbv zeta. rewrite E. clear E. reflexivity.
Defined.
