(* ===== verification/ClientTool.v ===== *)
(** The command-line client: [src/client/clienthandler.cpp], [src/client/client.cpp]
    and the options of [src/client/main.cpp]. The kernel, OpenSSL and the resolver
    answer the calls. *)

From S2P Require Import Prelude Search UpstreamExchange ExchangeDelivery.

#[local] Open Scope Z_scope.
#[local] Open Scope gateway_scope.

(** * Where a response ends *)

Inductive BodyState := COMPLETE | INCOMPLETE | NEEDS_EOF.

#[global] Instance BodyState_eq_dec : EqDecision BodyState.
Proof. solve_decision. Defined.

Definition header_end_of (response : bytes) : option nat :=
  if starts_with "HTTP/" response then find_sub CRLF2 response else None.

(** The digits of the declared length; the loop stops growing the number after
    twelve of them. *)
Fixpoint declared_digits (s : bytes) (declared : Z) (digits : bool) : Z * bool :=
  match s with
  | c :: s' =>
    if is_digit c then
      if 100000000000 <? declared then (declared, digits)
      else declared_digits s' (declared * 10 + digit_value c) true
    else (declared, digits)
  | [] => (declared, digits)
  end.

Definition body_state (response : bytes) (header_end : nat) : BodyState :=
  let headers := lowercase (take header_end response) in
  match find_sub "transfer-encoding:" headers with
  | Some _ => NEEDS_EOF
  | None =>
    match find_sub "content-length:" headers with
    | None => NEEDS_EOF
    | Some pos =>
      let '(declared, digits) := declared_digits (trim_left (drop (pos + 15) headers)) 0 false in
      if negb digits then INCOMPLETE
      else if declared <=? size response - (Z.of_nat header_end + 4) then COMPLETE else INCOMPLETE
    end
  end.

(** * The handler *)

Inductive client_state := CONNECTING | TLS_HANDSHAKING | SENDING | RECEIVING | DONE | ERROR.

#[global] Instance client_state_eq_dec : EqDecision client_state.
Proof. solve_decision. Defined.

Record ClientHandler := mkClientHandler {
  state_ : client_state;
  send_buf_ : bytes;
  recv_buf_ : bytes;
  done_ : bool;
}.

Definition handler_init (request : bytes) : ClientHandler := mkClientHandler CONNECTING request [] false.

(** A write takes some bytes, would block, fails or throws; a list that ends
    stands for a call that would block. *)
Inductive client_write := CWrote (n : nat) | CWriteFails.
Inductive client_read := CGot (data : bytes) | CEof | CReadFails.

(** The answers to the calls of one event. *)
Record EventAnswers := mkEventAnswers {
  ea_sockerr : Z;
  ea_ssl : bool;
  ea_handshake : SSLHandshakeStatus;
  ea_writes : list client_write;
  ea_shutdown : bool;
  ea_reads : list client_read;
}.

Definition client_fail (h : ClientHandler) : ClientHandler := h{{state_ := ERROR; done_ := true}}.

(** The loop of [do_send]: what is left to send, and whether it failed. *)
Fixpoint send_some (writes : list client_write) (buf : bytes) : bytes * bool :=
  match buf, writes with
  | [], _ => ([], true)
  | _ :: _, CWrote n :: writes' => if (0 <? n)%nat then send_some writes' (drop n buf) else (buf, false)
  | _ :: _, CWriteFails :: _ => (buf, false)
  | _ :: _, [] => (buf, true)
  end.

(** [registered]: the socket was added to the epoll set; otherwise [epoll.mod]
    throws. *)
Definition do_send (registered : bool) (a : EventAnswers) (h : ClientHandler) : ClientHandler :=
  let '(rest, ok) := send_some (ea_writes a) (send_buf_ h) in
  let h := h{{send_buf_ := rest}} in
  if negb ok then client_fail h
  else if negb (is_empty rest) then if registered then h else client_fail h
  else if negb (ea_ssl a) && negb (ea_shutdown a) then client_fail h
  else if registered then h{{state_ := RECEIVING}} else client_fail h.

(** Here the exception is not caught. *)
Definition do_tls_handshake (registered : bool) (a : EventAnswers) (h : ClientHandler) : call ClientHandler :=
  match ea_handshake a with
  | HS_FAILED => Ok (client_fail h)
  | HS_COMPLETE => Ok (do_send registered a (h{{state_ := SENDING}}))
  | _ => if registered then Ok h else Throw
  end.

(** The declared body is there. *)
Definition response_complete (buf : bytes) : bool :=
  match header_end_of buf with Some e => body_state buf e == COMPLETE | None => false end.

(** At the end of the stream: nothing is known to be missing. *)
Definition response_ended (buf : bytes) : bool :=
  match header_end_of buf with Some e => body_state buf e != INCOMPLETE | None => false end.

(** This state is entered with a registered socket only, so [epoll.mod] succeeds. *)
Fixpoint do_receive (reads : list client_read) (h : ClientHandler) : ClientHandler :=
  match reads with
  | [] => h
  | CGot data :: reads' =>
    let h := h{{recv_buf_ ::= fun b => b ++ data}} in
    if response_complete (recv_buf_ h) then h{{state_ := DONE; done_ := true}} else do_receive reads' h
  | CEof :: _ => h{{state_ := if response_ended (recv_buf_ h) then DONE else ERROR; done_ := true}}
  | CReadFails :: _ => client_fail h
  end.

(** [err]: [EPOLLERR]; [out]: [EPOLLOUT]. *)
Definition handle_event (registered err out : bool) (a : EventAnswers) (h : ClientHandler) : call ClientHandler :=
  if err then Ok (client_fail h)
  else
    match state_ h with
    | CONNECTING =>
      if negb out then Ok h
      else if negb (ea_sockerr a =? 0) then Ok (client_fail h)
      else if ea_ssl a then do_tls_handshake registered a (h{{state_ := TLS_HANDSHAKING}})
      else Ok (do_send registered a (h{{state_ := SENDING}}))
    | SENDING => Ok (do_send registered a h)
    | TLS_HANDSHAKING => do_tls_handshake registered a h
    | RECEIVING => Ok (do_receive (ea_reads a) h)
    | DONE | ERROR => Ok h
    end.

Definition succeeded (h : ClientHandler) : bool := state_ h == DONE.

(** * The client *)

Definition build_http_request (host path : bytes) : bytes :=
  lit "GET " ++ path ++ " HTTP/1.1" ++ CRLF ++ "Host: " ++ host ++ CRLF ++ "Connection: close" ++ CRLF ++
  "User-Agent: epollthread-client" ++ CRLF ++ CRLF.

(** One turn: the loop's condition finds the stop flag set; or what [epoll_wait]
    answers, for a timeout with the stop flag as it is then. *)
Inductive client_wait :=
| CStopped
| CInterrupted
| CTimeout (stop : bool)
| CEvents (events : list (bool * bool * EventAnswers)).

(** The events of one wait. *)
Fixpoint client_events (registered : bool) (events : list (bool * bool * EventAnswers)) (h : ClientHandler) : call ClientHandler :=
  match events with
  | [] => Ok h
  | (err, out, a) :: events' =>
    match handle_event registered err out a h with
    | Ok h => client_events registered events' h
    | Throw => Throw
    end
  end.

Inductive run_result := StillWaiting | RunThrows | RunEnds (h : ClientHandler).

Fixpoint client_loop (registered : bool) (waits : list client_wait) (idle : Z) (h : ClientHandler) : run_result :=
  if done_ h then RunEnds h
  else
    match waits with
    | [] => StillWaiting
    | CStopped :: _ => RunEnds h
    | CInterrupted :: waits' => client_loop registered waits' idle h
    | CTimeout stop :: waits' =>
      if stop then RunEnds h
      else if 10 <? idle + 1 then RunEnds h
      else client_loop registered waits' (idle + 1) h
    | CEvents events :: waits' =>
      match client_events registered events h with
      | Ok h => client_loop registered waits' 0 h
      | Throw => RunThrows
      end
    end.

(** [connected]: the connection was there at once; only otherwise the constructor
    adds the socket to the epoll set. *)
Definition client_run (connected : bool) (first : EventAnswers) (waits : list client_wait) (h : ClientHandler) : run_result :=
  let registered := negb connected in
  match if connected then handle_event registered false true first h else Ok h with
  | Ok h => client_loop registered waits 0 h
  | Throw => RunThrows
  end.

Definition exit_code (h : ClientHandler) : Z := if succeeded h then 0 else 1.

(** * Options *)

Record ClientOptions := mkClientOptions {
  co_host : bytes;
  co_port : Z;
  co_path : bytes;
  co_ca : bytes;
  co_insecure : bool;
  co_tls : bool;
}.

Definition kDefaultPort : Z := 5005.

Definition default_options (ca : bytes) : ClientOptions := mkClientOptions "localhost" kDefaultPort "/" ca false true.

Inductive client_args := RunWith (o : ClientOptions) | ShowUsage | BadArgs (reason : bytes).

(** The port, or the text of the exception; [std::stoi] names itself. *)
Definition parse_port (value : bytes) : Z + bytes :=
  match stoi value with
  | Some parsed => if (parsed <=? 0) || (65535 <? parsed) then inr ("port out of range: " ++ value) else inl parsed
  | None => inr (lit "stoi")
  end.

(** The arguments after the program's name. *)
Fixpoint parse_args (args : list bytes) (o : ClientOptions) : client_args :=
  match args with
  | [] => RunWith o
  | arg :: args' =>
    if (arg == "--host") || (arg == "--port") || (arg == "--path") || (arg == "--ca") then
      match args' with
      | [] => BadArgs ("missing value for " ++ arg)
      | value :: args' =>
        if arg == "--host" then parse_args args' (o{{co_host := value}})
        else if arg == "--port" then
          match parse_port value with
          | inl port => parse_args args' (o{{co_port := port}})
          | inr e => BadArgs e
          end
        else if arg == "--path" then parse_args args' (o{{co_path := value}})
        else parse_args args' (o{{co_ca := value}})
      end
    else if arg == "--insecure" then parse_args args' (o{{co_insecure := true}})
    else if arg == "--no-tls" then parse_args args' (o{{co_tls := false}})
    else if (arg == "-h") || (arg == "--help") then ShowUsage
    else BadArgs ("unknown option: " ++ arg)
  end.

(** The exit status, given what the client itself returns; [None]: it threw. *)
Definition client_main (args : list bytes) (ca : bytes) (run : ClientOptions → option Z) : Z :=
  match parse_args args (default_options ca) with
  | ShowUsage => 0
  | BadArgs _ => 2
  | RunWith o => match run o with Some code => code | None => 1 end
  end.

(** * Properties *)

(** What a handler that is done has received. *)
Definition outcome_sound (h : ClientHandler) (eof : bool) : Prop :=
  match state_ h with
  | DONE => done_ h = true ∧ (response_complete (recv_buf_ h) = true ∨ eof = true ∧ response_ended (recv_buf_ h) = true)
  | ERROR => done_ h = true
  | _ => done_ h = false
  end.

(** Whether the end of the stream was among the answers. *)
Definition saw_eof (a : EventAnswers) : bool := existsb (λ r, match r with CEof => true | _ => false end) (ea_reads a).

Lemma do_send_sound registered a h eof : outcome_sound h eof → state_ h = SENDING → outcome_sound (do_send registered a h) eof.
Proof.
  intros Hs E. unfold outcome_sound in Hs. rewrite E in Hs. unfold do_send. destruct (send_some _ _) as [rest ok]. destruct h. cbn in *. subst.
  destruct ok; cbn; [|done]. destruct (is_empty rest), (ea_ssl a), (ea_shutdown a), registered; by cbn.
Qed.

Lemma do_receive_sound reads h eof :
  outcome_sound h eof → state_ h = RECEIVING →
  outcome_sound (do_receive reads h) (eof || existsb (λ r, match r with CEof => true | _ => false end) reads).
Proof.
  revert h. induction reads as [|r reads IH]; intros h Hs E; cbn [do_receive existsb]; [by rewrite orb_false_r|].
  pose proof Hs as Hd. unfold outcome_sound in Hd. rewrite E in Hd. destruct r as [data| |].
  - set (h1 := h{{recv_buf_ ::= fun b => b ++ data}}). assert (outcome_sound h1 eof ∧ state_ h1 = RECEIVING) as [Hs1 E1].
    { unfold outcome_sound. destruct h. cbn in *. by subst. }
    destruct (response_complete (recv_buf_ h1)) eqn:Ec; [|by apply IH]. clearbody h1. destruct h1. cbn in *. split; [done|by left].
  - rewrite orb_true_r. destruct h. cbn in *. unfold outcome_sound. cbn. destruct (response_ended recv_buf_0) eqn:Ee; cbn; [|done]. by auto.
  - by destruct h.
Qed.

Lemma do_tls_sound registered a h h' eof :
  outcome_sound h eof → state_ h = TLS_HANDSHAKING → do_tls_handshake registered a h = Ok h' → outcome_sound h' eof.
Proof.
  intros Hs E. pose proof Hs as Hd. unfold outcome_sound in Hd. rewrite E in Hd.
  assert (outcome_sound (h{{state_ := SENDING}}) eof) as Hs' by (destruct h; cbn in *; by subst).
  unfold do_tls_handshake. destruct (ea_handshake a), registered; intros [= <-]; try done; try (apply do_send_sound; [done|by destruct h]); by destruct h.
Qed.

Lemma outcome_sound_eof h eof eof' : outcome_sound h eof → outcome_sound h (eof || eof').
Proof. unfold outcome_sound. destruct (state_ h); try done. intros [? [?|[-> ?]]]; auto. Qed.

Lemma handle_event_sound registered err out a h h' eof :
  outcome_sound h eof → handle_event registered err out a h = Ok h' → outcome_sound h' (eof || saw_eof a).
Proof.
  intros Hs. unfold handle_event. destruct err; [intros [= <-]; by destruct h|]. pose proof Hs as Hd. unfold outcome_sound in Hd.
  destruct (state_ h) eqn:E.
  - destruct out; cbn [negb]; [|intros [= <-]; by apply outcome_sound_eof]. destruct (negb _); [intros [= <-]; by destruct h|].
    assert (∀ s, s = TLS_HANDSHAKING ∨ s = SENDING → outcome_sound (h{{state_ := s}}) eof ∧ state_ (h{{state_ := s}}) = s) as Hset.
    { intros s Hs'. unfold outcome_sound. destruct h. cbn in *. by destruct Hs' as [-> | ->]. }
    destruct (ea_ssl a).
    + intros Ht. apply outcome_sound_eof. destruct (Hset TLS_HANDSHAKING) as [Hs1 E1]; [by left|]. by eapply do_tls_sound.
    + intros [= <-]. apply outcome_sound_eof. destruct (Hset SENDING) as [Hs1 E1]; [by right|]. by apply do_send_sound.
  - intros Ht. apply outcome_sound_eof. by eapply do_tls_sound.
  - intros [= <-]. apply outcome_sound_eof. by apply do_send_sound.
  - intros [= <-]. by apply do_receive_sound.
  - intros [= <-]. by apply outcome_sound_eof.
  - intros [= <-]. by apply outcome_sound_eof.
Qed.

Definition events_eof (events : list (bool * bool * EventAnswers)) : bool := existsb (λ e, saw_eof e.2) events.

Lemma client_events_sound registered events h h' eof :
  outcome_sound h eof → client_events registered events h = Ok h' → outcome_sound h' (eof || events_eof events).
Proof.
  revert h eof. induction events as [|[ [err out] a] events IH]; intros h eof Hs; cbn [client_events events_eof existsb snd].
  { intros [= <-]. by rewrite orb_false_r. }
  destruct (handle_event _ _ _ _ _) as [h1|] eqn:E; [|done]. intros Hr. apply (handle_event_sound _ _ _ _ _ _ eof Hs) in E.
  rewrite orb_assoc. by eapply IH.
Qed.

Definition wait_eof (w : client_wait) : bool := match w with CEvents events => events_eof events | _ => false end.

Lemma client_loop_sound registered waits idle h h' eof :
  outcome_sound h eof → client_loop registered waits idle h = RunEnds h' → outcome_sound h' (eof || existsb wait_eof waits).
Proof.
  revert idle h eof. induction waits as [|w waits IH]; intros idle h eof Hs; cbn [client_loop existsb].
  { destruct (done_ h); intros [= <-]. by rewrite orb_false_r. }
  destruct (done_ h); [intros [= <-]; by apply outcome_sound_eof|]. destruct w as [| |stop|events]; cbn [wait_eof].
  - intros [= <-]. by apply outcome_sound_eof.
  - by apply IH.
  - destruct stop; [intros [= <-]; by apply outcome_sound_eof|]. destruct (_ <? _); [intros [= <-]; by apply outcome_sound_eof|by apply IH].
  - destruct (client_events _ _ _) as [h1|] eqn:E; [|done]. rewrite orb_assoc. apply IH. by eapply client_events_sound.
Qed.

Lemma client_outcome connected first waits request h :
  client_run connected first waits (handler_init request) = RunEnds h → exit_code h = 0 →
  response_complete (recv_buf_ h) = true ∨
  (saw_eof first || existsb wait_eof waits) = true ∧ response_ended (recv_buf_ h) = true.
Proof.
  unfold client_run, exit_code, succeeded. intros Hr Hx. case_bool_decide as Ed; [|done].
  assert (outcome_sound h (saw_eof first || existsb wait_eof waits)) as Hs.
  { destruct connected.
    - destruct (handle_event _ _ _ _ _) as [h1|] eqn:E; [|done]. apply (client_loop_sound _ _ _ _ _ (saw_eof first)) in Hr; [done|].
      by apply (handle_event_sound _ _ _ _ _ _ false) in E.
    - apply (client_loop_sound _ _ _ _ _ (saw_eof first)) in Hr; [done|]. done. }
  unfold outcome_sound in Hs. rewrite Ed in Hs. by destruct Hs.
Qed.

(** Exit status 0 means a complete response: its head has ended, and the declared
    number of bytes has arrived; or the length was not declared and the server has
    closed the connection. A truncated body is never reported as a success. *)
Theorem client_success_complete connected first waits request h :
  client_run connected first waits (handler_init request) = RunEnds h → exit_code h = 0 →
  response_complete (recv_buf_ h) = true ∨
  (saw_eof first || existsb wait_eof waits) = true ∧ response_ended (recv_buf_ h) = true.
Proof. apply client_outcome. Qed.

Definition quiet_event (ssl : bool) (writes : list client_write) (reads : list client_read) : EventAnswers :=
  mkEventAnswers 0 ssl HS_COMPLETE writes true reads.

Definition small_reply : bytes := lit "HTTP/1.1 200 OK" ++ CRLF ++ "Content-Length: 2" ++ CRLF ++ CRLF ++ "hi".

Lemma client_success_complete_witness :
  ∃ h, client_run false (quiet_event true [] []) [CEvents [(false, true, quiet_event true [CWrote 1000] [])];
      CTimeout false; CEvents [(false, false, quiet_event true [] [CGot (take 20 small_reply); CGot (drop 20 small_reply)])]]
      (handler_init (build_http_request "h" "/")) = RunEnds h ∧ recv_buf_ h = small_reply ∧ response_complete (recv_buf_ h) = true.
Proof.
  eexists. split_and!; [vm_compute; reflexivity|reflexivity|].
  destruct (client_success_complete false (quiet_event true [] []) [CEvents [(false, true, quiet_event true [CWrote 1000] [])];
      CTimeout false; CEvents [(false, false, quiet_event true [] [CGot (take 20 small_reply); CGot (drop 20 small_reply)])]]
      (build_http_request "h" "/") (mkClientHandler DONE [] small_reply true)) as [E|[E _]]; [vm_compute; reflexivity|reflexivity|exact E|].
  vm_compute in E. discriminate E.
Defined.

(** Eleven quiet seconds in a row end the loop. *)
Lemma client_idle_ends registered n idle h rest :
  idle <= 10 → 10 - idle < Z.of_nat n → ∃ h', client_loop registered (replicate n (CTimeout false) ++ rest) idle h = RunEnds h'.
Proof.
  revert idle. induction n as [|n IH]; intros idle Hi Hn; [lia|]. cbn [replicate app client_loop]. destruct (done_ h); [by eexists|].
  destruct (Z.ltb_spec 10 (idle + 1)); [by eexists|]. apply IH; lia.
Qed.

(** A connection that is there at once is never added to the epoll set: the request
    cannot be followed by a read, and the client always fails. *)
Theorem immediate_connect_fails first waits request h :
  client_run true first waits (handler_init request) = RunEnds h → exit_code h = 1.
Proof.
  unfold client_run. cbn [negb].
  assert (∀ a g, state_ (do_send false a g) = ERROR ∧ done_ (do_send false a g) = true) as Hsend.
  { intros a g. unfold do_send. destruct (send_some _ _) as [rest ok]. destruct g, ok; cbn; [|done].
    destruct (is_empty rest), (ea_ssl a), (ea_shutdown a); done. }
  assert (∀ h1, handle_event false false true first (handler_init request) = Ok h1 → state_ h1 = ERROR ∧ done_ h1 = true) as Hev.
  { intros h1. unfold handle_event, do_tls_handshake. cbn [state_ handler_init negb]. destruct (_ =? _); cbn [negb]; [|by intros [= <-]].
    destruct (ea_ssl first); [|intros [= <-]; apply Hsend]. destruct (ea_handshake first); intros [= <-]; [apply Hsend|done]. }
  destruct (handle_event _ _ _ _ _) as [h1|]; [|done]. destruct (Hev h1 eq_refl) as [E1 E2].
  destruct waits; cbn [client_loop]; rewrite E2; intros [= <-]; unfold exit_code, succeeded; by rewrite E1.
Qed.

(** * Options *)

Definition print_args (o : ClientOptions) : list bytes :=
  [lit "--host"; co_host o; lit "--port"; to_string (co_port o); lit "--path"; co_path o; lit "--ca"; co_ca o] ++
  (if co_insecure o then [lit "--insecure"] else []) ++ (if co_tls o then [] else [lit "--no-tls"]).

Lemma parse_host v args o : parse_args (lit "--host" :: v :: args) o = parse_args args (o{{co_host := v}}).
Proof. reflexivity. Qed.

Lemma parse_path v args o : parse_args (lit "--path" :: v :: args) o = parse_args args (o{{co_path := v}}).
Proof. reflexivity. Qed.

Lemma parse_ca v args o : parse_args (lit "--ca" :: v :: args) o = parse_args args (o{{co_ca := v}}).
Proof. reflexivity. Qed.

Lemma parse_port_option v port args o :
  parse_port v = inl port → parse_args (lit "--port" :: v :: args) o = parse_args args (o{{co_port := port}}).
Proof. intros E. transitivity (match parse_port v with inl port => parse_args args (o{{co_port := port}}) | inr e => BadArgs e end); [reflexivity|by rewrite E]. Qed.

(** Every choice of options can be given on the command line. *)
Theorem options_roundtrip o ca : 1 <= co_port o <= 65535 → parse_args (print_args o) (default_options ca) = RunWith o.
Proof.
  intros Hp. assert (parse_port (to_string (co_port o)) = inl (co_port o)) as Hport.
  { unfold parse_port. rewrite stoi_to_string by lia. by rewrite (proj2 (Z.leb_gt _ _)), (proj2 (Z.ltb_ge _ _)) by lia. }
  unfold print_args. cbn [app]. rewrite parse_host, (parse_port_option _ _ _ _ Hport), parse_path, parse_ca. clear.
  destruct o as [host port path ca' [] []]; reflexivity.
Qed.

Lemma options_roundtrip_witness :
  parse_args (print_args (mkClientOptions "h" 443 "/x" "ca" true false)) (default_options "c") = RunWith (mkClientOptions "h" 443 "/x" "ca" true false).
Proof. apply options_roundtrip. cbn. lia. Defined.
