(* ===== verification/ClientProcess.v ===== *)
(** The command-line client as a whole: the constructor of [Client] and
    [resolve_ipv4] ([src/client/client.cpp]), and [main] of [src/client/main.cpp]
    from the arguments to the exit status and what is printed. *)

From S2P Require Import Prelude Search UpstreamExchange ExchangeDelivery Sockets Descriptors TlsContexts ClientTool.

#[local] Open Scope Z_scope.
#[local] Open Scope gateway_scope.

(** The calls of the constructor: [socket], [epoll_create], OpenSSL, the resolver
    (an address, or its error number), [connect], [epoll_ctl] and [SSL_new]. *)
Record ClientStart := mkClientStart {
  cs_socket : sys_result;
  cs_epoll : sys_result;
  cs_ssl : ssl_call → bool;
  cs_resolve : bytes → bytes → bytes + Z;
  cs_connect : sys_result;
  cs_add : sys_result;
  cs_ssl_new : option nat;
}.

Record Client := mkClient {
  cl_ctx : option SslCtx;
  cl_address : bytes;
  cl_sock : Socket;
  cl_connected : bool;
  cl_sni : option bytes;       (* the name sent in the handshake *)
  cl_checked : option bytes;   (* the name the certificate is checked for *)
  cl_handler : ClientHandler;
}.

Section client.
  (** The texts of OpenSSL, of [strerror] and of [gai_strerror]; [inet_pton]. *)
  Context (reason : ssl_call → bytes) (strerror gai_strerror : Z → bytes) (is_ipv4 : bytes → bool).

Definition resolve_ipv4 (resolve : bytes → bytes → bytes + Z) (host : bytes) (port : Z) : bytes + bytes :=
  match resolve host (to_string port) with
  | inl addr => inl addr
  | inr rc => inr ("cannot resolve host " ++ host ++ ": " ++ gai_strerror rc)
  end.

Definition tls_of (o : ClientOptions) : ClientTlsConfig := mkClientTls (co_tls o) (co_insecure o) (co_ca o) (co_host o).

(** A wrapper's value goes to [k]; its exception ends the constructor. *)
Definition try {A B} (x : wrapped A) (k : A → B + bytes) : B + bytes :=
  match x with Returned a => k a | SystemError context e => inr (throw_system_error strerror context (errno_of e)) end.

Definition client_ctx (a : ClientStart) (tls : ClientTlsConfig) : option SslCtx + bytes :=
  if ct_enable_tls tls then
    match (build_client_ssl_ctx (cs_ssl a) reason tls).1 with
    | inl ctx => inl (Some ctx)
    | inr e => inr ("cannot create client TLS context: " ++ e)
    end
  else inl None.

Definition client_new (a : ClientStart) (o : ClientOptions) : Client + bytes :=
  try (socket_new (cs_socket a)) (λ fd,
  try (epoll_new (cs_epoll a)) (λ _,
    match client_ctx a (tls_of o) with
    | inr e => inr e
    | inl ctx =>
      match resolve_ipv4 (cs_resolve a) (co_host o) (co_port o) with
      | inr e => inr e
      | inl addr =>
        try (connect (cs_connect a)) (λ connected,
        try (if connected then Returned tt else epoll_add (cs_add a)) (λ _,
          let handler := handler_init (build_http_request (co_host o) (co_path o)) in
          if ct_enable_tls (tls_of o) then
            let '(attached, sock, sni, checked) := initSSLClient (cs_ssl_new a) is_ipv4 (ct_verify_host (tls_of o)) (socket_of_fd fd) in
            if attached : bool then inl (mkClient ctx addr sock connected sni checked handler)
            else inr (lit "cannot attach client TLS session")
          else inl (mkClient ctx addr (socket_of_fd fd) connected None None handler)))
      end
    end)).

(** What is printed of a response. *)
Definition printed (response : bytes) : bytes :=
  match last response with
  | Some c => if bool_decide (c = LF) then response else response ++ [LF]
  | None => []
  end.

(** Whether the socket speaks TLS is the constructor's doing. *)
Definition on_socket (c : Client) (a : EventAnswers) : EventAnswers := a{{ea_ssl := is_ssl_ (cl_sock c)}}.

Definition waits_on (c : Client) (waits : list client_wait) : list client_wait :=
  (λ w, match w with CEvents events => CEvents ((λ e, (e.1, on_socket c e.2)) <$> events) | w => w end) <$> waits.

(** The exit status and what goes to the standard output, the usage text left out;
    [None]: the client still waits. *)
Definition client_process (a : ClientStart) (first : EventAnswers) (waits : list client_wait) (ca : bytes) (args : list bytes) : option (Z * bytes) :=
  match parse_args args (default_options ca) with
  | ShowUsage => Some (0, [])
  | BadArgs _ => Some (2, [])
  | RunWith o =>
    match client_new a o with
    | inr _ => Some (1, [])
    | inl c =>
      match client_run (cl_connected c) (on_socket c first) (waits_on c waits) (cl_handler c) with
      | StillWaiting => None
      | RunThrows => Some (1, [])
      | RunEnds h => Some (exit_code h, printed (recv_buf_ h))
      end
    end
  end.

(** * Properties *)

(** How the session is protected. *)
Definition protected (o : ClientOptions) (c : Client) : Prop :=
  if co_tls o then
    is_ssl_ (cl_sock c) = true ∧ (∃ ctx, cl_ctx c = Some ctx ∧ hardened ctx ∧ verifies (co_insecure o) (co_ca o) ctx) ∧
    (co_host o ≠ [] → cl_checked c = Some (co_host o) ∧ cl_sni c = if is_ipv4 (co_host o) then None else Some (co_host o))
  else is_ssl_ (cl_sock c) = false.

Lemma client_new_spec a o c :
  client_new a o = inl c →
  protected o c ∧ cl_handler c = handler_init (build_http_request (co_host o) (co_path o)) ∧ cs_resolve a (co_host o) (to_string (co_port o)) = inl (cl_address c).
Proof.
  unfold client_new. destruct (socket_new _) as [fd|]; cbn [try]; [|done]. destruct (epoll_new _); cbn [try]; [|done].
  destruct (client_ctx a (tls_of o)) as [ctx|] eqn:Ec; [|done]. unfold resolve_ipv4. destruct (cs_resolve _ _ _) as [addr|]; [|done].
  destruct (connect _) as [connected|]; cbn [try]; [|done]. destruct (if connected then _ else _); cbn [try]; [|done].
  unfold client_ctx in Ec. unfold protected. cbn [tls_of ct_enable_tls ct_verify_host] in *. destruct (co_tls o); [|by intros [= <-]].
  pose proof (client_ctx_spec (cs_ssl a) reason (tls_of o)) as Hs. unfold tls_of in *. destruct (build_client_ssl_ctx _ _ _) as [ [ctx'|] n]; [|done].
  injection Ec as <-. destruct Hs as (_ & Hh & Hv). cbn [ct_insecure ct_ca_path] in Hv. unfold initSSLClient, initSSL.
  destruct (cs_ssl_new a) as [p|]; cbn [negb]; [|done]. destruct (is_empty (co_host o)) eqn:Ee; intros [= <-]; cbn.
  - split_and!; try done; [by eexists|]. intros Hne. by destruct (co_host o).
  - split_and!; try done. by eexists.
Qed.

Lemma run_outcome connected first waits request h :
  client_run connected first waits (handler_init request) = RunEnds h → exit_code h = 0 →
  response_complete (recv_buf_ h) = true ∨ response_ended (recv_buf_ h) = true.
Proof. intros Hr Hx. destruct (client_outcome _ _ _ _ _ Hr Hx) as [?|[_ ?] ]; auto. Qed.

End client.

Definition good_client : ClientStart :=
  mkClientStart (SysOk 3) (SysOk 4) (λ _, true) (λ _ _, inl (lit "127.0.0.1")) (SysErr SE_INPROGRESS) (SysOk 0) (Some 0%nat).

Definition quiet_answers (writes : list client_write) (reads : list client_read) : EventAnswers := mkEventAnswers 0 false HS_COMPLETE writes true reads.

