(* ===== verification/ForwardRequest.v ===== *)
(** [forward_request] of [src/server/http_client.cpp]: the blocking round trip that
    [UpstreamExchange] is meant to agree with. Each attempt consumes the answers of
    the kernel and of OpenSSL. *)

From S2P Require Import Prelude Search HttpParser HttpResponse HttpClient ConnectionPool UpstreamExchange ExchangeDelivery.

#[local] Open Scope Z_scope.
#[local] Open Scope gateway_scope.

(** * Answers *)

Record AttemptAnswers := mkForward {
  fw_now : Z;                                           (* the clock at [checkout] *)
  fw_probe : WaitResult;                                (* the 0-timeout poll of a pooled socket *)
  fw_peek : option Z;                                   (* [None]: it throws *)
  fw_ssl_alive : bool;
  fw_socket : option nat;                               (* [None]: it throws *)
  fw_inet : bool;
  fw_connect : option bool;                             (* connected, in progress, or throws *)
  fw_connect_wait : WaitResult;
  fw_sockerr : Z;
  fw_ctx : bool;                                        (* a context, and [initSSLClient] succeeds *)
  fw_handshake : list (SSLHandshakeStatus * WaitResult);
  fw_sends : list (WaitResult * io_write);
  fw_reads : list (WaitResult * io_read);
  fw_checkin : Z;                                       (* the clock at [checkin] *)
}.

(** How a part of the function ends: with a value, with an exception, never, or
    for lack of answers. *)
Inductive outcome (A : Type) := Done (x : A) | Throws | Loops | Starved.
Arguments Done {A} _.
Arguments Throws {A}.
Arguments Loops {A}.
Arguments Starved {A}.

(** * Sending *)

Inductive SendResult := SendOk | SendTimeout | SendFailed.

(** The result and the number of bytes that were taken. *)
Fixpoint send_request (answers : list (WaitResult * io_write)) (request : bytes) (sent : nat) : outcome SendResult * nat :=
  if (sent <? length request)%nat then
    match answers with
    | [] => (Starved, sent)
    | (WaitTimeout, _) :: _ => (Done SendTimeout, sent)
    | (WaitError, _) :: _ => (Done SendFailed, sent)
    | (Ready, WriteThrows) :: _ => (Throws, sent)
    | (Ready, Wrote n e) :: answers' =>
      if (0 <? n)%nat then send_request answers' request (sent + n)
      else match e with
      | EINTR | EAGAIN => send_request answers' request sent
      | EOTHER => (Done SendFailed, sent)
      end
    end
  else (Done SendOk, sent).

(** * Reading *)

(** The locals of the loop. *)
Record Reply := mkReply {
  rp_response : bytes;
  rp_keepalive : bool;
  rp_chunked : bool;
  rp_decoded : bytes;
}.

Inductive framing := FullAt (body_end : nat) | NeedsMore | BadFraming | FrameThrow | FrameLoop.

(** One look at the buffer. *)
Definition frame_reply (max : Z) (r : Reply) : framing * Reply :=
  let response := rp_response r in
  match find_sub CRLF2 response with
  | None => (if kExchangeMaxHeaderSize <? size response then BadFraming else NeedsMore, r)
  | Some header_end =>
    let headers_part := take header_end response in
    let r := r{{rp_keepalive := keepalive_of headers_part}} in
    let te := find_header_value headers_part "transfer-encoding" in
    if bool_decide (is_Some (find_sub "chunked" te)) then
      let r := r{{rp_chunked := true}} in
      match scan_chunked_body response (header_end + 4) with
      | None => (FrameLoop, r)
      | Some (Complete e, decoded) => (FullAt e, r{{rp_decoded := decoded}})
      | Some (ChunkError, decoded) => (BadFraming, r{{rp_decoded := decoded}})
      | Some (Incomplete, decoded) => (NeedsMore, r{{rp_decoded := decoded}})
      | Some (Thrown, decoded) => (FrameThrow, r{{rp_decoded := decoded}})
      end
    else if negb (is_empty te) then (BadFraming, r)
    else
      let cl := find_header_value headers_part "content-length" in
      if negb (is_empty cl) && forallb is_digit cl then
        match stoull cl with
        | None => (BadFraming, r)
        | Some content_length =>
          if max <? content_length then (BadFraming, r)
          else
            let stop := wrap64 (Z.of_nat header_end + 4 + content_length) in
            if stop <=? size response then (FullAt (Z.to_nat stop), r) else (NeedsMore, r)
        end
      else if negb (rp_keepalive r) then (NeedsMore, r) else (BadFraming, r)
  end.

(** The loop ends with the whole response, with a timeout, or without one. *)
Inductive read_result :=
| ReadWhole (body_end : nat) (peer_closed : bool)
| ReadTimedOut
| ReadBroken (framing_error : bool).

Fixpoint read_reply (max : Z) (answers : list (WaitResult * io_read)) (r : Reply) : outcome read_result * Reply :=
  if max <? size (rp_response r) then (Done (ReadBroken false), r)
  else
    match frame_reply max r with
    | (FullAt e, r) => (Done (ReadWhole e false), r)
    | (BadFraming, r) => (Done (ReadBroken true), r)
    | (FrameThrow, r) => (Throws, r)
    | (FrameLoop, r) => (Loops, r)
    | (NeedsMore, r) =>
      match answers with
      | [] => (Starved, r)
      | (WaitTimeout, _) :: _ => (Done ReadTimedOut, r)
      | (WaitError, _) :: _ => (Done (ReadBroken false), r)
      | (Ready, ReadThrows) :: _ => (Throws, r)
      | (Ready, ReadErr EOTHER) :: _ => (Done (ReadBroken false), r)
      | (Ready, ReadErr _) :: answers' => read_reply max answers' r
      | (Ready, Got []) :: _ =>
        if bool_decide (is_Some (find_sub CRLF2 (rp_response r))) && negb (rp_keepalive r)
        then (Done (ReadWhole (length (rp_response r)) true), r)
        else (Done (ReadBroken false), r)
      | (Ready, Got data) :: answers' => read_reply max answers' (r{{rp_response ::= fun s => s ++ data}})
      end
    end.

(** The status line, the headers and the body. *)
Definition parse_reply (r : Reply) (body_end : nat) : BackendResponse :=
  let response := rp_response r in
  match parse_status response with
  | None => invalid_response
  | Some code =>
    let header_end := find_sub CRLF2 response in
    let headers_part := match header_end with Some i => take i response | None => response end in
    let body_start := match header_end with Some i => (i + 4)%nat | None => 3%nat end in
    mkBackend code (parse_response_headers headers_part ∅)
      (if rp_chunked r then rp_decoded r else substr body_start (body_end - body_start) response) ErrorNone
  end.

(** * Connecting *)

Definition bad_gateway : BackendResponse := make_error_response 502 ConnectFailed "Bad Gateway".
Definition connect_timeout : BackendResponse := make_error_response 504 ConnectTimeout "Gateway Timeout".

Fixpoint handshake (steps : list (SSLHandshakeStatus * WaitResult)) : outcome (option BackendResponse) :=
  match steps with
  | [] => Starved
  | (HS_COMPLETE, _) :: _ => Done None
  | (HS_FAILED, _) :: _ => Done (Some bad_gateway)
  | (_, WaitTimeout) :: _ => Done (Some connect_timeout)
  | (_, WaitError) :: _ => Done (Some bad_gateway)
  | (_, Ready) :: steps' => handshake steps'
  end.

(** A socket, or the response the function returns at once. *)
Definition connect_fresh (p : Params) (a : AttemptAnswers) : outcome (nat + BackendResponse) :=
  match fw_socket a with
  | None => Done (inr bad_gateway)
  | Some s =>
    if negb (fw_inet a) then Done (inr bad_gateway)
    else
      let tls :=
        if enable (p_tls p) then
          if negb (fw_ctx a) then Done (inr bad_gateway)
          else match handshake (fw_handshake a) with
               | Done None => Done (inl s)
               | Done (Some r) => Done (inr r)
               | Throws => Throws
               | Loops => Loops
               | Starved => Starved
               end
        else Done (inl s) in
      match fw_connect a with
      | None => Throws
      | Some true => tls
      | Some false =>
        match fw_connect_wait a with
        | WaitTimeout => Done (inr connect_timeout)
        | WaitError => Done (inr bad_gateway)
        | Ready => if fw_sockerr a =? 0 then tls else Done (inr bad_gateway)
        end
      end
  end.

(** The connection an attempt uses: its socket, the bytes left on it, and whether
    it was pooled. *)
Record Link := mkLink { lk_socket : nat; lk_leftover : bytes; lk_pooled : bool }.

Definition open_link (p : Params) (first : bool) (a : AttemptAnswers) (pool : ConnectionPool)
    : outcome (Link + BackendResponse) * ConnectionPool :=
  let '(pooled, pool) :=
    if first then checkout (p_host p) (p_port p) (scheme_of_params p) (fw_now a) pool else (None, pool) in
  let fresh :=
    match connect_fresh p a with
    | Done (inl s) => Done (inl (mkLink s [] false))
    | Done (inr r) => Done (inr r)
    | Throws => Throws
    | Loops => Loops
    | Starved => Starved
    end in
  match pooled with
  | None => (fresh, pool)
  | Some conn =>
    let use : outcome (Link + BackendResponse) := Done (inl (mkLink (socket conn) (leftover conn) true)) in
    match fw_probe a with
    | Ready =>
      if enable (p_tls p) then (if fw_ssl_alive a then use else fresh, pool)
      else match fw_peek a with
           | None => (Throws, pool)
           | Some n => (if 0 <? n then use else fresh, pool)
           end
    | _ => (use, pool)
    end
  end.

(** * Attempts *)

Inductive attempt_end := Retry | Returns (r : BackendResponse).

Section forward.
  Context `{HashOrder} (p : Params).

Definition p_idempotent : bool :=
  (p_method p == "GET") || (p_method p == "HEAD") || (p_method p == "OPTIONS").

(** A failure on a pooled connection empties its queue and may be retried. *)
Definition give_way (l : Link) (r : BackendResponse) (pool : ConnectionPool) : attempt_end * ConnectionPool :=
  if lk_pooled l then
    (if p_idempotent then Retry else Returns r, invalidate (p_host p) (p_port p) (scheme_of_params p) pool)
  else (Returns r, pool).

(** After the response: the connection goes back to the pool if it may. *)
Definition keep_link (l : Link) (r : Reply) (body_end : nat) (peer_closed : bool) (now : Z) (pool : ConnectionPool) : ConnectionPool :=
  if rp_keepalive r && negb peer_closed then
    checkin (p_host p) (p_port p) (scheme_of_params p) (mkPooled (lk_socket l) (drop body_end (rp_response r)) now) now pool
  else pool.

Definition exchange_on (l : Link) (a : AttemptAnswers) (pool : ConnectionPool)
    : outcome attempt_end * ConnectionPool * nat :=
  let lift x := (Done x.1, x.2) in
  match send_request (fw_sends a) (build_request p) 0 with
  | (Throws, n) => (Throws, pool, n)
  | (Loops, n) => (Loops, pool, n)
  | (Starved, n) => (Starved, pool, n)
  | (Done SendTimeout, n) => (lift (give_way l (make_error_response 504 WriteTimeout "Gateway Timeout") pool), n)
  | (Done SendFailed, n) => (lift (give_way l bad_gateway pool), n)
  | (Done SendOk, n) =>
    match read_reply (p_max_response_bytes p) (fw_reads a) (mkReply (lk_leftover l) false false []) with
    | (Throws, _) => (Throws, pool, n)
    | (Loops, _) => (Loops, pool, n)
    | (Starved, _) => (Starved, pool, n)
    | (Done ReadTimedOut, _) => (lift (give_way l (make_error_response 504 ReadTimeout "Gateway Timeout") pool), n)
    | (Done (ReadBroken framing_error), _) =>
      let e := if framing_error then InvalidResponse else ReadFailed in
      (lift (give_way l (make_error_response 502 e "Bad Gateway") pool), n)
    | (Done (ReadWhole e closed), r) =>
      let resp := parse_reply r e in
      if error resp == ErrorNone then (Done (Returns resp), keep_link l r e closed (fw_checkin a) pool, n)
      else (Done (Returns resp), pool, n)
    end
  end.

(** One round; what was written to which connection is recorded. *)
Definition forward_attempt (first : bool) (a : AttemptAnswers) (pool : ConnectionPool)
    : outcome attempt_end * ConnectionPool * list attempt :=
  match open_link p first a pool with
  | (Throws, pool) => (Throws, pool, [])
  | (Loops, pool) => (Loops, pool, [])
  | (Starved, pool) => (Starved, pool, [])
  | (Done (inr r), pool) => (Done (Returns r), pool, [])
  | (Done (inl l), pool) =>
    let '(r, pool, n) := exchange_on l a pool in
    (r, pool, [mkAttempt (lk_socket l) (lk_pooled l) (take n (build_request p))])
  end.

Definition forward_request (a0 a1 : AttemptAnswers) (pool : ConnectionPool)
    : outcome BackendResponse * ConnectionPool * list attempt :=
  if p_timeout_ms p <=? 0 then (Done connect_timeout, pool, [])
  else
    match forward_attempt true a0 pool with
    | (Done (Returns r), pool, log) => (Done r, pool, log)
    | (Throws, pool, log) => (Throws, pool, log)
    | (Loops, pool, log) => (Loops, pool, log)
    | (Starved, pool, log) => (Starved, pool, log)
    | (Done Retry, pool, log) =>
      match forward_attempt false a1 pool with
      | (Done (Returns r), pool, log') => (Done r, pool, log' ++ log)
      | (Done Retry, pool, log') => (Done (make_error_response 502 ReadFailed "Bad Gateway"), pool, log' ++ log)
      | (Throws, pool, log') => (Throws, pool, log' ++ log)
      | (Loops, pool, log') => (Loops, pool, log' ++ log)
      | (Starved, pool, log') => (Starved, pool, log' ++ log)
      end
    end.
End forward.
