(* ===== verification/ForwardAgrees.v ===== *)
(** The blocking round trip against the epoll-driven one: the same framing, the
    same result for the same bytes, the same rule for replays; and the inputs on
    which they differ. *)

From S2P Require Import Prelude Search HttpParser HttpResponse HttpClient ConnectionPool UpstreamExchange ExchangeDelivery ForwardRequest.

#[local] Open Scope Z_scope.
#[local] Open Scope gateway_scope.

(** * Framing *)

(** The members of the exchange hold what the locals hold. *)
Record same_view (x : UpstreamExchange) (r : Reply) : Prop := {
  sv_bytes : response_bytes_ x = rp_response r;
  sv_keepalive : response_keepalive_ x = rp_keepalive r;
  sv_chunked : response_is_chunked_ x = rp_chunked r;
  sv_decoded : decoded_body_ x = rp_decoded r;
}.

Definition same_framing (f : framing) (o : frame_outcome) (body_end : option nat) : Prop :=
  match f, o with
  | FullAt e, Framed FrameComplete => body_end = Some e
  | NeedsMore, Framed FrameIncomplete | BadFraming, Framed FrameError | FrameThrow, FrameThrows | FrameLoop, FrameHangs => True
  | _, _ => False
  end.

(** What [try_frame] does not touch. *)
Definition unframed (x : UpstreamExchange) : Params * Phase * bool * bool * bytes * bool * BackendResponse * Z :=
  (params_ x, phase_ x, used_pooled_ x, retried_ x, response_bytes_ x, peer_closed_ x, result_ x, deadline_ x).

(** Projections of updated states. *)
Ltac views := flat; cbn [rp_response rp_keepalive rp_chunked rp_decoded same_framing apply_update constant] in *.

Lemma frames_alike x r :
  same_view x r → peer_closed_ x = false →
  let '(f, r') := frame_reply (p_max_response_bytes (params_ x)) r in
  let '(o, x') := try_frame x in
  same_framing f o (body_end_ x') ∧ same_view x' r' ∧ unframed x' = unframed x ∧ rp_response r' = rp_response r.
Proof.
  destruct x, r as [response keepalive chunked decoded]. intros [E1 E2 E3 E4] Hc. views. subst. unfold frame_reply, try_frame. views.
  destruct (find_sub CRLF2 response) as [header_end|]; [|destruct (_ <? _); views; split_and!; done].
  destruct (bool_decide (is_Some (find_sub "chunked" _))).
  { destruct (scan_chunked_body _ _) as [ [ [] decoded']|]; views; split_and!; done. }
  destruct (negb (is_empty (find_header_value _ "transfer-encoding"))); [views; split_and!; done|].
  destruct (_ && _); [|destruct (keepalive_of _); views; split_and!; done].
  destruct (stoull _) as [content_length|]; [|views; split_and!; done]. destruct (_ <? content_length); [views; split_and!; done|].
  destruct (_ <=? _); views; split_and!; done.
Qed.

(** * The read loops *)

(** What the blocking function returns when its loop has ended. *)
Definition blocking_result (o : outcome read_result * Reply) : option BackendResponse :=
  match o with
  | (Done (ReadWhole e _), r) => Some (parse_reply r e)
  | (Done ReadTimedOut, _) => Some (make_error_response 504 ReadTimeout "Gateway Timeout")
  | (Done (ReadBroken framing_error), _) =>
    Some (make_error_response 502 (if framing_error then InvalidResponse else ReadFailed) "Bad Gateway")
  | _ => None
  end.

(** The bytes a read brings. *)
Definition brought (t : Turn) : Z := match t_recv t with Got data => size data | _ => 0 end.

(** An exchange that reads on a connection it has opened itself. *)
Record reading_fresh (p : Params) (T : Z) (x : UpstreamExchange) : Prop := {
  rf_params : params_ x = p;
  rf_phase : phase_ x = PhRead;
  rf_fresh : used_pooled_ x = false;
  rf_open : peer_closed_ x = false;
  rf_headers : resp_headers (result_ x) = ∅;
  rf_deadline : deadline_from p T <= deadline_ x;
}.

Lemma reading_unframed p T x y : unframed y = unframed x → reading_fresh p T x → reading_fresh p T y.
Proof. unfold unframed. intros [= E1 E2 E3 E4 E5 E6 E7 E8] []. split; congruence. Qed.

Lemma finish_parses x r e :
  same_view x r → body_end_ x = Some e → resp_headers (result_ x) = ∅ →
  phase_ (finish_ok x) = PhDone ∧ result_ (finish_ok x) = parse_reply r e.
Proof.
  intros [E1 E2 E3 E4] He Hh. destruct x. flat. subst. unfold finish_ok, parse_reply. flat.
  destruct (parse_status _); flat; [|done]. split; [done|]. by rewrite Hh.
Qed.

Lemma fail_fresh e status text ev t (m : machine) :
  used_pooled_ (ex m) = false →
  ∃ m', fail_or_done e status text ev t m = (Return WantDone, m') ∧ phase_ (ex m') = PhDone ∧
    result_ (ex m') = make_error_response status e text.
Proof. intros Hu. unfold fail_or_done, fail. rewrite Hu. destruct m as [ [] ? ?]. by eexists. Qed.

Section loops.
  Context `{HashOrder} (p : Params) (T : Z).

Definition ends_with (m : machine) (b : BackendResponse) : Prop := phase_ (ex m) = PhDone ∧ result_ (ex m) = b.

(** One look at the buffer ends the exchange, or both go on to read. *)
Lemma frame_turn ev t (m : machine) r :
  reading_fresh p T (ex m) → same_view (ex m) r → in_time p T t → size (rp_response r) <= p_max_response_bytes p →
  match frame_reply (p_max_response_bytes p) r with
  | (FullAt e, r') => ∃ m', run_turn ev t m = (Return WantDone, m') ∧ ends_with m' (parse_reply r' e)
  | (BadFraming, _) => ∃ m', run_turn ev t m = (Return WantDone, m') ∧ ends_with m' (make_error_response 502 InvalidResponse "Bad Gateway")
  | (NeedsMore, r') => ∃ m', run_turn ev t m = step_recv t m' ∧ reading_fresh p T (ex m') ∧ same_view (ex m') r' ∧
      rp_response r' = rp_response r
  | _ => True
  end.
Proof.
  intros Hr Hv Ht Hs. pose proof Hr as [G1 G2 G3 G4 G5 G6]. unfold run_turn. rewrite G2, bool_decide_eq_false_2 by done.
  rewrite (not_expired p T m t Ht G6). unfold step_Read. pose proof (frames_alike _ _ Hv G4) as Hf. rewrite G1 in Hf.
  destruct (frame_reply _ r) as [f r']. destruct (try_frame (ex m)) as [o x']. destruct Hf as (Hsf & Hv' & Hu & Hrp).
  pose proof (reading_unframed _ _ _ _ Hu Hr) as Hr'. destruct f as [e| | | |], o as [ [] | |]; try done; cbn [same_framing] in Hsf.
  - destruct (finish_parses _ _ _ Hv' Hsf (rf_headers _ _ _ Hr')) as [F1 F2]. eexists. split; [done|]. by destruct m.
  - exists (m{{ex := x'}}). assert (ex (m{{ex := x'}}) = x') as E by by destruct m. rewrite E. split_and!; [|done..].
    rewrite (rf_params _ _ _ Hr'), (sv_bytes _ _ Hv'), Hrp, (proj2 (Z.ltb_ge _ _)) by done. done.
  - destruct (fail_fresh InvalidResponse 502 "Bad Gateway" 0 t (m{{ex := x'}})) as (m' & E & F); [destruct m; apply Hr'|].
    by exists m'.
Qed.

Lemma loops_agree turns last ev (m : machine) r b :
  reading_fresh p T (ex m) → same_view (ex m) r → Forall (in_time p T) (turns ++ [last]) →
  Forall (λ t, t_recv t ≠ Got []) turns →
  size (rp_response r) + foldr Z.add 0 (brought <$> turns) <= p_max_response_bytes p →
  blocking_result (read_reply (p_max_response_bytes p) ((λ t, (Ready, t_recv t)) <$> turns) r) = Some b →
  ends_with (event_loop ev (turns ++ [last]) m) b.
Proof.
  revert ev m r. induction turns as [|t turns IH]; intros ev m r Hr Hv Ht Hne Hs Hb.
  - cbn in Hs. cbn [app] in Ht. apply Forall_cons in Ht as [Ht _]. cbn [fmap list_fmap read_reply app event_loop] in *.
    rewrite (proj2 (Z.ltb_ge _ _)) in Hb by lia. pose proof (frame_turn ev last m r Hr Hv Ht ltac:(lia)) as Hf.
    destruct (frame_reply _ r) as [ [e| | | |] r']; try done; destruct Hf as (m' & -> & Hend); by simplify_eq/=.
  - apply Forall_cons in Ht as [Ht Hts]. apply Forall_cons in Hne as [Hne Hnes]. rewrite fmap_cons in Hs. rewrite fmap_cons in Hb. cbn [foldr] in Hs.
    assert (0 <= brought t ∧ 0 <= foldr Z.add 0 (brought <$> turns)) as [Hb0 Hf0].
    { split; [unfold brought; destruct (t_recv t); [apply size_nonneg|lia..]|]. clear. induction turns as [|t turns IH]; [done|]. cbn.
      unfold brought at 1. destruct (t_recv t); [pose proof (size_nonneg data)|..]; lia. }
    cbn [read_reply] in Hb. rewrite (proj2 (Z.ltb_ge _ _)) in Hb by lia.
    pose proof (frame_turn ev t m r Hr Hv Ht ltac:(lia)) as Hf. cbn [app event_loop].
    destruct (frame_reply _ r) as [ [e| | | |] r']; try done; destruct Hf as (m' & -> & Hend); try by simplify_eq/=.
    destruct Hend as (Hr' & Hv' & Hrp). unfold step_recv. destruct (t_recv t) as [ [|c data]|[]|] eqn:Et; try done.
    + destruct m' as [x pool att]. cbn [ex] in *. eapply (IH _ (mkMachine _ _ _) _); [| |exact Hts|exact Hnes| |exact Hb].
      * destruct Hr', x. flat. subst. unfold refresh_deadline. flat. split; flat; try done. apply deadline_later, Ht.
      * destruct Hv', x, r'. flat. cbn in *. subst. unfold refresh_deadline. by split.
      * replace (rp_response _) with (rp_response r ++ c :: data) by (rewrite <-Hrp; by destruct r').
        assert (brought t = size (c :: data)) by (unfold brought; by rewrite Et). rewrite size_app. lia.
    + eapply IH; [exact Hr'|exact Hv'|exact Hts|exact Hnes|rewrite Hrp; lia|exact Hb].
    + destruct m' as [x pool att]. cbn [ex] in *.
      destruct (is_ssl x), (t_want t); (eapply (IH _ (mkMachine _ _ _) _); [| |exact Hts|exact Hnes|rewrite Hrp; lia|exact Hb]);
        destruct Hr', Hv', x; flat; subst; unfold refresh_deadline; flat; split; flat; try done; apply deadline_later, Ht.
    + destruct (fail_fresh ReadFailed 502 "Bad Gateway" 0 t m') as (m2 & -> & F1 & F2); [apply Hr'|]. by simplify_eq/=.
Qed.
End loops.

(** C15: On a connection of its own, with the request sent, the epoll-driven exchange
    and the blocking round trip make the same response, or the same failure, of the
    same reads, in whatever pieces and with however many interruptions the bytes
    arrive, as long as the backend does not close and the total stays within the
    limit. *)
Theorem blocking_and_epoll_agree `{HashOrder} p T turns last ev (m : machine) b :
  reading_fresh p T (ex m) → same_view (ex m) (mkReply [] false false []) → Forall (in_time p T) (turns ++ [last]) →
  Forall (λ t, t_recv t ≠ Got []) turns → foldr Z.add 0 (brought <$> turns) <= p_max_response_bytes p →
  blocking_result (read_reply (p_max_response_bytes p) ((λ t, (Ready, t_recv t)) <$> turns) (mkReply [] false false [])) = Some b →
  phase_ (ex (event_loop ev (turns ++ [last]) m)) = PhDone ∧ result_ (ex (event_loop ev (turns ++ [last]) m)) = b.
Proof. intros Hr Hv Ht Hne Hs Hb. by eapply loops_agree. Qed.

(** * Replays *)

Section replays.
  Context `{HashOrder} (p : Params).

Lemma give_way_retry l r pool : (give_way p l r pool).1 = Retry → lk_pooled l = true ∧ p_idempotent p = true.
Proof. unfold give_way. destruct (lk_pooled l); [|done]. by destruct (p_idempotent p). Qed.

Lemma exchange_on_retry l a pool : (exchange_on p l a pool).1.1 = Done Retry → lk_pooled l = true ∧ p_idempotent p = true.
Proof.
  unfold exchange_on. destruct (send_request _ _ _) as [ [ []| | |] n]; cbn; try done.
  - destruct (read_reply _ _ _) as [ [ [e closed| |fe]| | |] r]; cbn; try done.
    + by destruct (_ == _).
    + intros [= E]. by apply give_way_retry in E.
    + intros [= E]. by apply give_way_retry in E.
  - intros [= E]. by apply give_way_retry in E.
  - intros [= E]. by apply give_way_retry in E.
Qed.

Lemma open_link_fresh a pool l pool' : open_link p false a pool = (Done (inl l), pool') → lk_pooled l = false.
Proof. unfold open_link. destruct (connect_fresh p a) as [ [s|r]| | |]; intros E; by simplify_eq. Qed.

Lemma forward_attempt_log first a pool r pool' log :
  forward_attempt p first a pool = (r, pool', log) →
  (log = [] ∧ r ≠ Done Retry) ∨
  ∃ at0, log = [at0] ∧ at_sent at0 `prefix_of` build_request p ∧ (first = false → at_pooled at0 = false) ∧
    (r = Done Retry → at_pooled at0 = true ∧ p_idempotent p = true).
Proof.
  unfold forward_attempt. destruct (open_link p first a pool) as [ [ [l|resp]| | |] pool1] eqn:E; try (intros [= <- <- <-]; by left).
  pose proof (exchange_on_retry l a pool1) as Hr. destruct (exchange_on p l a pool1) as [ [r0 pool2] n]. cbn [fst] in Hr.
  intros [= <- <- <-]. right. eexists. split_and!; [done|apply prefix_take| |exact Hr]. intros ->. by eapply open_link_fresh.
Qed.
End replays.

(** The request is written to at most two connections, each time a prefix of the
    same bytes; to a second one only if the method may be repeated and the first
    connection came from the pool, and the second one is new. *)
Theorem forward_replay_safe `{HashOrder} p a0 a1 pool r pool' log :
  forward_request p a0 a1 pool = (r, pool', log) →
  Forall (λ a, at_sent a `prefix_of` build_request p) log ∧
  (log = [] ∨ (∃ a, log = [a]) ∨
   ∃ new old, log = [new; old] ∧ p_idempotent p = true ∧ at_pooled old = true ∧ at_pooled new = false).
Proof.
  unfold forward_request. destruct (p_timeout_ms p <=? 0); [intros [= <- <- <-]; split; [done|by left]|].
  destruct (forward_attempt p true a0 pool) as [ [r0 pool0] log0] eqn:E0.
  pose proof (forward_attempt_log _ _ _ _ _ _ _ E0) as H0.
  assert (r0 ≠ Done Retry → log = log0 → Forall (λ a, at_sent a `prefix_of` build_request p) log ∧ (log = [] ∨ (∃ a, log = [a]) ∨
    ∃ new old, log = [new; old] ∧ p_idempotent p = true ∧ at_pooled old = true ∧ at_pooled new = false)) as Hone.
  { intros Hne ->. destruct H0 as [ [-> _]|(at0 & -> & Hp & _)]; [split; [done|by left]|].
    split; [by apply Forall_singleton|]. right. left. by exists at0. }
  destruct r0 as [ [|resp]| | |]; [|intros [= <- <- <-]; by apply Hone..]. clear Hone.
  destruct H0 as [ [_ ?]|(at0 & -> & Hp0 & _ & Hr0)]; [done|]. destruct (Hr0 eq_refl) as [Hpool Hid].
  destruct (forward_attempt p false a1 pool0) as [ [r1 pool1] log1] eqn:E1.
  pose proof (forward_attempt_log _ _ _ _ _ _ _ E1) as H1. intros Hres.
  assert (log = log1 ++ [at0]) as -> by (by destruct r1 as [ []| | |]; simplify_eq).
  destruct H1 as [ [-> _]|(at1 & -> & Hp1 & Hf1 & _)].
  - split; [by apply Forall_singleton|]. right. left. by exists at0.
  - split; [by repeat constructor|]. right. right. exists at1, at0. by rewrite Hf1.
Qed.

(** * Where they differ *)

#[local] Existing Instance some_order.

Definition far_turn (r : io_read) : Turn :=
  mkTurn 5 5 WaitTimeout None false (Some 7%nat) true (Some true) true 0 HS_COMPLETE WriteThrows r SSL_NONE.

(** An exchange whose request has been sent. *)
Definition awaiting (max : Z) : machine :=
  mkMachine ((exchange_init (sample_params{{p_max_response_bytes := max}}) true 0){{phase_ := PhRead; sock_ := Some 7%nat}}) pool_init [].

Definition epoll_result (max : Z) (reads : list io_read) : BackendResponse :=
  result_ (ex (event_loop 1 (far_turn <$> reads) (awaiting max))).

Definition blocking_reads (max : Z) (reads : list io_read) : option BackendResponse :=
  blocking_result (read_reply max (pair Ready <$> reads) (mkReply [] false false [])).

Definition reply_text (fields : list bytes) (content : bytes) : bytes :=
  lit "HTTP/1.1 200 OK" ++ CRLF ++ concat ((λ f, f ++ CRLF) <$> fields) ++ CRLF ++ content.

(** Three of ten announced bytes, and the end of the stream: the blocking function
    hands over what it has as a complete response, the exchange fails. *)
Theorem truncated_reply_accepted :
  let reads := [Got (reply_text [lit "Connection: close"; lit "Content-Length: 10"] "abc"); Got []] in
  (error <$> blocking_reads 1000 reads) = Some ErrorNone ∧ (resp_body <$> blocking_reads 1000 reads) = Some (lit "abc") ∧
  error (epoll_result 1000 reads) = ReadFailed.
Proof. split_and!; evaluate. Qed.

(** The blocking function counts the head against the limit of the body. *)
Theorem limit_counts_head :
  let reads := [Got (reply_text [lit "Content-Length: 10"] "0123456789"); ReadErr EAGAIN] in
  (error <$> blocking_reads 20 reads) = Some ReadFailed ∧ error (epoll_result 20 reads) = ErrorNone ∧
  resp_body (epoll_result 20 reads) = lit "0123456789".
Proof. split_and!; evaluate. Qed.

Lemma blocking_and_epoll_agree_witness :
  let reads := [Got (take 9 (reply_text [lit "Content-Length: 2"] "hi")); ReadErr EAGAIN; Got (drop 9 (reply_text [lit "Content-Length: 2"] "hi"))] in
  blocking_reads 1000 reads = Some (result_ (ex (event_loop 1 ((far_turn <$> reads) ++ [far_turn ReadThrows]) (awaiting 1000)))).
Proof.
  intros reads. destruct (blocking_reads 1000 reads) as [b|] eqn:E; [|by vm_compute in E].
  edestruct (blocking_and_epoll_agree (sample_params{{p_max_response_bytes := 1000}}) 0 (far_turn <$> reads) (far_turn ReadThrows) 1 (awaiting 1000) b)
    as [_ Hb]; [split; try reflexivity; evaluate|by split|repeat constructor; evaluate|repeat constructor; done|evaluate|exact E|by rewrite Hb].
Defined.

Lemma forward_replay_safe_witness :
  ∃ log, Forall (λ a, at_sent a `prefix_of` build_request sample_params) log ∧ length log = 1%nat.
Proof.
  set (a := mkForward 0 WaitTimeout None false (Some 7%nat) true (Some true) Ready 0 true [] [(Ready, Wrote 5 EOTHER); (WaitTimeout, WriteThrows)] [] 0).
  destruct (forward_request sample_params a a pool_init) as [ [r pool] log] eqn:E.
  destruct (forward_replay_safe _ _ _ _ _ _ _ E) as [Hp _]. exists log. split; [exact Hp|].
  change log with (r, pool, log).2. rewrite <-E. by vm_compute.
Defined.
