(* ===== verification/AdminProperties.v ===== *)
(** The operations listener: what it reads, whom it lets in, and the keys it
    adopts. *)

From S2P Require Import Prelude Search Config ConfigFile Double UpstreamManager ApiKeyManager HttpClient Metrics ConnectionPool UpstreamExchange ExchangeDelivery AdminServer.

#[local] Open Scope Z_scope.
#[local] Open Scope gateway_scope.

(** * Reading a head *)

(** The loop over the lines ends within the fuel it is given. *)
Lemma header_loop_total fuel head pos headers :
  (length head - pos < fuel)%nat → is_Some (header_loop fuel head pos headers).
Proof.
  revert pos headers. induction fuel as [|fuel IH]; intros pos headers Hf; [lia|]. cbn [header_loop].
  destruct (Nat.ltb_spec pos (length head)); [|by eexists].
  destruct (find_sub_from CRLF pos head) as [eol|] eqn:E; [|by eexists]. destruct (Nat.eqb_spec eol pos); [by eexists|].
  apply find_sub_from_le in E as [E1 E2]; [|done]. cbn in E2. apply IH. lia.
Qed.

Definition text_lines (lines : list bytes) : bytes := concat ((λ l, l ++ CRLF) <$> lines).

(** On a block of lines it sees each of them, up to the empty one. *)
Lemma header_loop_lines lines pre headers fuel :
  Forall plain_line lines → (length lines < fuel)%nat →
  header_loop fuel (pre ++ text_lines lines ++ CRLF) (length pre) headers = Some (foldl (flip add_header) headers lines).
Proof.
  intros Hl. revert pre headers fuel. induction Hl as [|l lines [Hcr Hne] Hl IH]; intros pre headers fuel Hf;
    (destruct fuel as [|fuel]; [lia|]); cbn [header_loop length] in *.
  - rewrite length_app. destruct (Nat.ltb_spec (length pre) (length pre + length (text_lines [] ++ CRLF))); [|cbn in *; lia].
    unfold find_sub_from. rewrite drop_app_length. change (find_sub CRLF _) with (Some 0%nat). cbn [fmap option_fmap option_map].
    by rewrite Nat.add_0_r, Nat.eqb_refl.
  - change (text_lines (l :: lines)) with ((l ++ CRLF) ++ text_lines lines). rewrite <-!app_assoc.
    destruct (Nat.ltb_spec (length pre) (length (pre ++ l ++ CRLF ++ text_lines lines ++ CRLF))) as [_|Hge].
    2:{ rewrite !length_app in Hge. cbn in Hge. lia. }
    rewrite find_line_at by by apply is_line_plain. destruct (Nat.eqb_spec (length pre + length l) (length pre)) as [E|_].
    { destruct l; [done|cbn in E; lia]. }
    replace (length pre + length l - length pre)%nat with (length l) by lia. rewrite substr_at by done.
    replace (length pre + length l + 2)%nat with (length (pre ++ l ++ CRLF)) by (rewrite !length_app; cbn; lia).
    rewrite (app_assoc l), (app_assoc pre). rewrite IH by lia. done.
Qed.

Lemma text_lines_length lines : (length lines ≤ length (text_lines lines))%nat.
Proof. unfold text_lines. induction lines as [|l lines IH]; [done|]. cbn. rewrite !length_app. cbn. lia. Qed.

(** A request in the form clients send it. *)
Definition field_line (f : bytes * bytes) : bytes := f.1 ++ ": " ++ f.2.

Definition admin_request_text (method path : bytes) (fields : list (bytes * bytes)) : bytes :=
  text_lines ((method ++ " " ++ path ++ " " ++ "HTTP/1.1") :: (field_line <$> fields)) ++ CRLF.

Definition plain_field (f : bytes * bytes) : Prop := (":"%char ∉ f.1) ∧ (CR ∉ f.1) ∧ (CR ∉ f.2) ∧ blank_free_ends f.2.

Lemma plain_field_line f : plain_field f → plain_line (field_line f).
Proof.
  intros (_ & Hn & Hv & _). unfold field_line. split; [|by destruct f.1]. rewrite !not_elem_of_app. split_and!; [done|evaluate|done].
Qed.

Lemma trim_left_blank s : trim_left (" "%char :: s) = trim_left s.
Proof. done. Qed.

Lemma trim_field v : blank_free_ends v → trim (" "%char :: v) = v.
Proof. intros Hv. unfold trim. rewrite trim_left_blank. by apply trim_id. Qed.

Lemma add_header_field f headers : plain_field f → add_header (field_line f) headers = <[lowercase f.1 := f.2]> headers.
Proof.
  intros (Hc & _ & _ & Hv). unfold add_header, field_line. change (f.1 ++ lit ": " ++ f.2) with (f.1 ++ ":"%char :: " "%char :: f.2).
  rewrite find_char_app, take_app_length, drop_app_add by done. cbn [drop]. by rewrite trim_field.
Qed.

Lemma parse_request_line_text method path :
  " "%char ∉ method → head path = Some "/"%char →
  parse_request_line (method ++ " " ++ path ++ " " ++ "HTTP/1.1") = Some (method, path).
Proof.
  intros Hm Hp. unfold parse_request_line. change (method ++ lit " " ++ path ++ lit " " ++ lit "HTTP/1.1") with
    (method ++ " "%char :: path ++ " "%char :: lit "HTTP/1.1").
  rewrite find_char_app by done.
  assert (rfind_char " " (method ++ " "%char :: path ++ " "%char :: lit "HTTP/1.1") = Some (length method + S (length path))%nat) as ->.
  { replace (method ++ " "%char :: path ++ " "%char :: lit "HTTP/1.1") with ((method ++ " "%char :: path) ++ " "%char :: lit "HTTP/1.1")
      by by rewrite <-app_assoc.
    rewrite rfind_char_app; [by rewrite length_app|]. evaluate. }
  destruct (Nat.leb_spec (length method + S (length path)) (length method)); [lia|].
  assert (substr (length method + 1) (length method + S (length path) - length method - 1)
    (method ++ " "%char :: path ++ " "%char :: lit "HTTP/1.1") = path) as ->.
  { unfold substr. rewrite drop_app_add. cbn [drop].
    replace (length method + S (length path) - length method - 1)%nat with (length path) by lia. apply take_app_length. }
  rewrite bool_decide_eq_true_2 by done. by rewrite take_app_length.
Qed.

Definition field_table (fields : list (bytes * bytes)) : gmap bytes bytes :=
  foldl (λ t f, <[lowercase f.1 := f.2]> t) ∅ fields.

Definition request_line (method path : bytes) : bytes := method ++ " " ++ path ++ " " ++ "HTTP/1.1".

(** The lines of a request. *)
Definition plain_request (method path : bytes) (fields : list (bytes * bytes)) : Prop :=
  (" "%char ∉ method) ∧ (CR ∉ method) ∧ (CR ∉ path) ∧ head path = Some "/"%char ∧ Forall plain_field fields.

Lemma request_lines_plain method path fields :
  plain_request method path fields → Forall plain_line (request_line method path :: (field_line <$> fields)).
Proof.
  intros (_ & Hmc & Hpc & _ & Hf). constructor.
  - unfold request_line. split; [|by destruct method]. rewrite !not_elem_of_app. split_and!; done || evaluate.
  - apply Forall_fmap. eapply Forall_impl; [exact Hf|]. intros f. apply plain_field_line.
Qed.

Lemma request_text_end method path fields :
  plain_request method path fields →
  find_sub CRLF2 (admin_request_text method path fields) = Some (length (admin_request_text method path fields) - 4)%nat.
Proof.
  intros Hp%request_lines_plain. unfold admin_request_text, text_lines. rewrite concat_lines by done.
  rewrite <-app_assoc. change (CRLF ++ CRLF) with (CRLF2 ++ []). rewrite find_head_end by done.
  rewrite length_app. f_equal. cbn. lia.
Qed.

Lemma parse_head_text method path fields :
  plain_request method path fields →
  parse_head (admin_request_text method path fields) =
    Some (mkAdminRequest method path (field_table fields) 0 (admin_content_length (field_table fields)) (admin_chunked (field_table fields))).
Proof.
  intros Hr. pose proof (request_text_end _ _ _ Hr) as E2. pose proof (find_sub_Some _ _ _ E2) as [_ Hlen]. change (length CRLF2) with 4%nat in Hlen.
  pose proof (request_lines_plain _ _ _ Hr) as Hl. apply Forall_cons in Hl as [Hrl Hl]. destruct Hr as (Hm & _ & _ & Hp & Hf).
  unfold parse_head. rewrite E2. replace (size _ - _) with 0 by (unfold size; lia). clear E2 Hlen.
  assert (admin_request_text method path fields = request_line method path ++ CRLF ++ text_lines (field_line <$> fields) ++ CRLF) as ->.
  { change (admin_request_text method path fields) with
      (((request_line method path ++ CRLF) ++ text_lines (field_line <$> fields)) ++ CRLF). by rewrite <-!app_assoc. }
  rewrite find_line by (by apply is_line_plain, Hrl). rewrite take_app_length. unfold request_line at 1.
  rewrite parse_request_line_text by done.
  replace (length (request_line method path) + 2)%nat with (length (request_line method path ++ CRLF)) by (rewrite length_app; done).
  rewrite (app_assoc (request_line method path)), header_loop_lines; [|done|].
  - assert (foldl (flip add_header) ∅ (field_line <$> fields) = field_table fields) as ->; [|done].
    unfold field_table. generalize (∅ : gmap bytes bytes). clear -Hf.
    induction Hf as [|f fields Hf1 Hf IH]; intros t; [done|]. cbn [fmap list_fmap foldl flip]. by rewrite add_header_field, IH.
  - rewrite !length_app. pose proof (text_lines_length (field_line <$> fields)). lia.
Qed.

(** The bytes arrive in any pieces. *)
Lemma receive_whole chunks acc msg :
  Forall (λ c, c ≠ []) chunks → acc ++ concat chunks = msg → size msg <= MAX_REQUEST_BYTES →
  find_sub CRLF2 msg = Some (length msg - 4)%nat → receive_head chunks acc = Some (msg, []).
Proof.
  intros Hc. revert acc. induction Hc as [|c chunks Hne Hc IH]; intros acc Hm Hs Hf; cbn [receive_head].
  - cbn in Hm. rewrite app_nil_r in Hm. subst acc. by rewrite Hf.
  - destruct (find_sub CRLF2 acc) as [i|] eqn:E.
    + pose proof (find_sub_Some _ _ _ E) as [_ Hlen]. apply (find_sub_app _ _ (concat (c :: chunks))) in E. rewrite Hm, Hf in E. simplify_eq.
      exfalso. rewrite !length_app in Hlen. cbn in Hlen. rewrite length_app in Hlen. destruct c; [done|]. cbn in Hlen. lia.
    + cbn [concat] in Hm. rewrite app_assoc in Hm. destruct (Z.ltb_spec MAX_REQUEST_BYTES (size (acc ++ c))) as [Hlt|_]; [|by apply IH].
      rewrite <-Hm, size_app in Hs. pose proof (size_nonneg (concat chunks)). lia.
Qed.


(** A well-formed request of at most 8192 bytes is read back as it was
    written, however its bytes are cut into pieces: the method, the path, and every
    header under its lowercased name, the last one of a name winning. *)
Theorem admin_request_roundtrip method path fields chunks :
  plain_request method path fields → Forall (λ c, c ≠ []) chunks → concat chunks = admin_request_text method path fields →
  size (admin_request_text method path fields) <= MAX_REQUEST_BYTES →
  read_request_head chunks =
    Some (mkAdminRequest method path (field_table fields) 0 (admin_content_length (field_table fields))
            (admin_chunked (field_table fields)), []).
Proof.
  intros Hr Hc Em Hs. unfold read_request_head.
  by rewrite (receive_whole chunks [] _ Hc Em Hs (request_text_end _ _ _ Hr)), parse_head_text.
Qed.

Lemma admin_request_roundtrip_witness :
  ∃ req, read_request_head [lit "GET /admin/stats HT"; lit "TP/1.1" ++ CRLF ++ "X-Api-Key: k"; CRLF; CRLF] = Some (req, []) ∧
    ar_path req = lit "/admin/stats" ∧ ar_headers req !! lit "x-api-key" = Some (lit "k").
Proof.
  eexists. split; [|split].
  - apply (admin_request_roundtrip "GET" "/admin/stats" [(lit "X-Api-Key", lit "k")]); try evaluate.
    split_and!; try evaluate. apply Forall_singleton. split_and!; try evaluate. split; intros c [= <-]; done.
  - done.
  - evaluate.
Defined.

(** * Access *)

(** Whom [authorize] lets in. *)
Definition allowed (keys : list bytes) (req : ParsedAdminRequest) : Prop :=
  admin_key req ≠ [] ∧ ∃ key, key ∈ keys ∧ constant_time_equals (admin_key req) key = true.

Lemma authorize_spec keys req : admin_authorize keys req = None ↔ allowed keys req.
Proof.
  unfold admin_authorize, allowed. destruct (is_empty (admin_key req)) eqn:Ee.
  - apply is_empty_true in Ee. split; [done|]. by intros [? _].
  - apply is_empty_false in Ee. destruct (existsb _ keys) eqn:Ex.
    + split; [|done]. intros _. split; [done|]. apply existsb_exists in Ex as (k & Hk%list_elem_of_In & Heq). by exists k.
    + split; [done|]. intros (_ & k & Hk & Heq). apply not_true_iff_false in Ex. exfalso. apply Ex, existsb_exists.
      exists k. by split; [apply list_elem_of_In|].
Qed.

Lemma drain_body_bound answers remaining drained : 0 <= drained <= remaining → drained <= drain_body answers remaining drained <= remaining.
Proof.
  revert drained. induction answers as [|n answers IH]; intros drained Hd; cbn [drain_body];
    destruct (Z.ltb_spec drained remaining); try lia. destruct (Z.leb_spec n 0); [lia|].
  specialize (IH (drained + Z.min n (Z.min 1024 (remaining - drained)))). lia.
Qed.

Lemma drain_bound answers req : 0 <= drain_request_body answers req <= MAX_DRAIN_BYTES.
Proof.
  assert (0 <= drain_target req <= MAX_DRAIN_BYTES) as Ht.
  { unfold drain_target, MAX_DRAIN_BYTES. repeat case_match; lia. }
  pose proof (drain_body_bound answers (drain_target req) 0). unfold drain_request_body. lia.
Qed.

Lemma send_all_prefix answers data : (send_all answers data).1 `prefix_of` data.
Proof.
  revert data. induction answers as [|n answers IH]; intros [|c data]; cbn [send_all]; try apply prefix_nil.
  destruct (n <=? 0); [apply prefix_nil|]. specialize (IH (drop (Z.to_nat n) (c :: data))).
  destruct (send_all answers _) as [sent ok]. destruct IH as [rest E]. exists rest. cbn [fst] in *. rewrite <-app_assoc, <-E. by rewrite take_drop.
Qed.

Section access.
  Context `{HashOrder} (dump : report → option bytes) (GATEWAY_VERSION path : bytes).

Lemma handle_reload_keys env st : ad_keys (handle_reload dump env path st).2 = ad_keys st.
Proof. unfold handle_reload. destruct (read_admin_config env path) as [c [|e errors] ]; [by destruct st|done]. Qed.

(** What a request without a valid key gets. *)
Definition refused : list bytes :=
  [response_text 400 "Bad Request" (error_body "malformed request") "application/json";
   response_text 401 "Unauthorized" (error_body "unauthorized") "application/json"].

Lemma respond_guarded a req st r reason st' :
  respond dump GATEWAY_VERSION path a req st = (r, reason, st') →
  ad_keys st' = ad_keys st ∧
  ((∃ q, req = Some q ∧ allowed (ad_keys st) q) ∨
   st' = st ∧ ∃ status text body, r = Some (status, text, body) ∧ response_text status text body "application/json" ∈ refused).
Proof.
  unfold respond. destruct req as [q|].
  2:{ intros [= <- <- <-]. split; [done|]. right. split; [done|]. eexists _, _, _. split; [done|]. by left. }
  destruct (admin_authorize (ad_keys st) q) as [e|] eqn:Ea.
  { intros [= <- <- <-]. split; [done|]. right. split; [done|]. eexists _, _, _. split; [done|]. right. by left. }
  apply authorize_spec in Ea. intros Hr. split; [|left; by exists q].
  destruct (_ && _); [by simplify_eq|]. destruct (_ && _); [by simplify_eq|]. destruct (_ && _); [|by simplify_eq].
  pose proof (handle_reload_keys (aa_env a) st) as Hk. destruct (handle_reload _ _ _ _) as [r0 st0]. by simplify_eq.
Qed.

End access.


(** * Keys *)

Section keys.
  Context `{HashOrder} (dump : report → option bytes) (GATEWAY_VERSION path : bytes).

(** The keys of an enabled configuration that was accepted, now or at the start. *)
Definition sound_keys (config : Config) (keys : list bytes) : Prop :=
  keys ≠ [] ∧ Forall (λ k, k ≠ []) keys ∧
  (keys = adm_api_keys (admin config) ∨
   ∃ env c, file_ok env path = true ∧ read_admin_config env path = (c, []) ∧ adm_enabled (admin c) = true ∧ keys = adm_api_keys (admin c)).

Record admin_inv (config : Config) (st : AdminServer) : Prop := {
  ai_keys : sound_keys config (ad_keys st);
  ai_pending : ∀ keys, pending_admin_keys_ st = Some (true, keys) → sound_keys config keys;
}.

Lemma accepted_keys config env c :
  read_admin_config env path = (c, []) → adm_enabled (admin c) = true → sound_keys config (adm_api_keys (admin c)).
Proof.
  intros E He. pose proof E as E'. unfold read_admin_config in E'. destruct (file_ok env path) eqn:Hf; [|done].
  destruct (file_config env path) as [c0 errors]. injection E' as -> [_ Ev]%app_eq_nil.
  apply validate_ok in Ev. destruct (ok_admin _ _ Ev He) as [_ Hk Hall]. split_and!; [done|done|].
  right. by exists env, c.
Qed.

Lemma handle_reload_inv config env st : admin_inv config st → admin_inv config (handle_reload dump env path st).2.
Proof.
  intros [Hk Hp]. unfold handle_reload. destruct (read_admin_config env path) as [c [|e errors] ] eqn:E; [|done].
  destruct st as [keys pending gen0 gen]. cbn in *. split; cbn; [done|]. intros ks [= He <-]. by eapply accepted_keys.
Qed.

Lemma respond_inv config a req st : admin_inv config st → admin_inv config (respond dump GATEWAY_VERSION path a req st).2.
Proof.
  intros Hi. unfold respond. destruct req as [q|]; [|done]. destruct (admin_authorize _ _); [done|].
  destruct (_ && _); [done|]. destruct (_ && _); [done|]. destruct (_ && _); [|done].
  pose proof (handle_reload_inv config (aa_env a) st Hi) as Hr. by destruct (handle_reload _ _ _ _).
Qed.

Lemma apply_keys_inv config keys enabled st :
  admin_inv config st → (enabled = true → sound_keys config keys ∨ keys = []) → admin_inv config (apply_admin_keys keys enabled st).
Proof.
  intros [Hk Hp] Hs. unfold apply_admin_keys. destruct enabled; cbn [negb]; [|done]. destruct keys as [|k keys]; cbn [is_empty]; [done|].
  destruct (Hs eq_refl) as [Hs'|]; [|done]. destruct st. by split.
Qed.

Lemma refresh_inv config env st : admin_inv config st → admin_inv config (maybe_refresh_keys env path st).
Proof.
  intros Hi. unfold maybe_refresh_keys. destruct (_ =? _); [done|].
  set (st1 := st{{applied_generation_ := config_reload_generation st}}).
  assert (admin_inv config st1) as Hi1 by (destruct Hi; by destruct st). clearbody st1. destruct (pending_admin_keys_ st1) as [ [enabled keys]|] eqn:Ep.
  - apply apply_keys_inv.
    + destruct Hi1, st1. by split.
    + intros ->. left. by apply (ai_pending _ _ Hi1).
  - destruct (read_admin_config env path) as [c [|e errors] ] eqn:E; [|done]. apply apply_keys_inv; [done|].
    intros He. left. by eapply accepted_keys.
Qed.

Lemma admin_step_inv config st st' : admin_step dump GATEWAY_VERSION path st st' → admin_inv config st → admin_inv config st'.
Proof.
  intros [env [c|] st0|st0] Hi; unfold admin_turn.
  - pose proof (refresh_inv config env st0 Hi) as Hr. unfold handle_connection.
    pose proof (respond_inv config (ac_answers c) (fst <$> read_request_head (ac_chunks c)) _ Hr) as Hr'.
    destruct (respond _ _ _ _ _ _) as [ [r reason] st1]. by destruct r as [ [ [status text] body]|].
  - by apply refresh_inv.
  - destruct Hi, st0. by split.
Qed.

Definition admin_run : AdminServer → AdminServer → Prop := rtc (admin_step dump GATEWAY_VERSION path).

Lemma admin_run_inv config st st' : admin_run st st' → admin_inv config st → admin_inv config st'.
Proof. induction 1; [done|]. eauto using admin_step_inv. Qed.

(** An accepted reload waits for the refresh: signals in between do not matter,
    and neither does the file. *)
Lemma refresh_pending env enabled keys st :
  pending_admin_keys_ st = Some (enabled, keys) → config_reload_generation st ≠ applied_generation_ st →
  ad_keys (maybe_refresh_keys env path st) = (if enabled && negb (is_empty keys) then keys else ad_keys st) ∧
  applied_generation_ (maybe_refresh_keys env path st) = config_reload_generation (maybe_refresh_keys env path st).
Proof.
  intros Ep Hg. unfold maybe_refresh_keys. rewrite (proj2 (Z.eqb_neq _ _) Hg). destruct st as [k p g0 g]. cbn in *. rewrite Ep.
  unfold apply_admin_keys. destruct enabled; cbn; [|done]. by destruct keys.
Qed.

Fixpoint sighups (n : nat) (st : AdminServer) : AdminServer := match n with O => st | S n' => sighups n' (sighup st) end.

Lemma sighups_fields n st :
  ad_keys (sighups n st) = ad_keys st ∧ pending_admin_keys_ (sighups n st) = pending_admin_keys_ st ∧
  applied_generation_ (sighups n st) = applied_generation_ st ∧
  (0 <= config_reload_generation st < 2 ^ 64 →
   config_reload_generation (sighups n st) = wrap64 (config_reload_generation st + Z.of_nat n)).
Proof.
  revert st. induction n as [|n IH]; intros st; cbn [sighups].
  - split_and!; try done. intros Hg. unfold wrap64. rewrite Z.mod_small; lia.
  - destruct (IH (sighup st)) as (E1 & E2 & E3 & E4). rewrite E1, E2, E3. destruct st as [k p g0 g]. cbn in *. split_and!; try done.
    intros Hg. rewrite E4; unfold wrap64 in *; [|apply Z.mod_pos_bound; lia]. rewrite Zplus_mod_idemp_l. f_equal. lia.
Qed.
End keys.

(** C35: Started with a validated configuration, the listener always has a key, and
    every key it has is non-empty and comes from a configuration that was accepted:
    it cannot lock itself out. A client that sends any one of them, its bytes cut
    in any way, is let in. *)
Theorem admin_never_locked_out `{HashOrder} dump version path inet_pton config generation st :
  admin_ok inet_pton (admin config) → admin_run dump version path (admin_init config generation) st →
  sound_keys path config (ad_keys st) ∧
  ∀ key a chunks, key ∈ ad_keys st → CR ∉ key → blank_free_ends key → size key <= 8000 →
    Forall (λ c, c ≠ []) chunks → concat chunks = admin_request_text "GET" "/admin/stats" [(lit "X-API-Key", key)] →
    respond dump version path a (fst <$> read_request_head chunks) st =
      ((λ b, (200, lit "OK", b)) <$> handle_stats dump version (aa_snapshot a) (aa_uptime a), None, st).
Proof.
  intros [_ Hk Hall] Hrun.
  assert (admin_inv path config st) as [Hs _].
  { eapply admin_run_inv; [exact Hrun|]. split; [|done]. split_and!; [done|done|by left]. }
  split; [exact Hs|]. intros key a chunks Hkey Hcr Hb Hsz Hc Em.
  assert (plain_request "GET" "/admin/stats" [(lit "X-API-Key", key)]) as Hp.
  { split_and!; try evaluate. apply Forall_singleton. split_and!; try evaluate; done. }
  assert (read_request_head chunks = Some (mkAdminRequest "GET" "/admin/stats" {[lit "x-api-key" := key]} 0 (-1) false, [])) as ->.
  { unfold read_request_head. rewrite (receive_whole chunks [] _ Hc Em); [by rewrite parse_head_text| |by apply request_text_end].
    assert (admin_request_text "GET" "/admin/stats" [(lit "X-API-Key", key)] =
      (request_line "GET" "/admin/stats" ++ CRLF ++ "X-API-Key: ") ++ key ++ CRLF2) as ->.
    { unfold admin_request_text, text_lines, field_line. cbn [fmap list_fmap concat fst snd]. by rewrite <-!app_assoc. }
    rewrite !size_app. change (size CRLF2) with 4. unfold MAX_REQUEST_BYTES.
    assert (size (request_line "GET" "/admin/stats") + (size CRLF + size "X-API-Key: ") <= 100) by evaluate. lia. }
  unfold respond. cbn [fmap option_fmap option_map fst].
  assert (allowed (ad_keys st) (mkAdminRequest "GET" "/admin/stats" {[lit "x-api-key" := key]} 0 (-1) false)) as Hallow.
  { unfold allowed, admin_key. cbn [ar_headers]. rewrite lookup_singleton_eq. destruct Hs as (_ & Hne & _). rewrite Forall_forall in Hne.
    split; [by apply Hne|]. exists key. split; [done|]. by apply constant_time_equals_spec. }
  apply authorize_spec in Hallow. by rewrite Hallow.
Qed.

(** A reload through the API takes effect for the keys at the next refresh with
    the configuration that was validated, even if the file has changed since and
    signals have arrived in between; the refresh then counts all of them as done,
    so a change of the keys that such a signal announced is not read. *)
Theorem reload_adopts_validated `{HashOrder} dump path env c st n env' :
  read_admin_config env path = (c, []) → adm_enabled (admin c) = true →
  0 <= config_reload_generation st < 2 ^ 64 → applied_generation_ st = config_reload_generation st → Z.of_nat n < 2 ^ 64 - 1 →
  let st' := maybe_refresh_keys env' path (sighups n (handle_reload dump env path st).2) in
  ad_keys st' = adm_api_keys (admin c) ∧ ∀ env'', maybe_refresh_keys env'' path st' = st'.
Proof.
  intros E He Hg Hap Hn st'. unfold st', handle_reload. rewrite E. set (st1 := st{{pending_admin_keys_ := _; config_reload_generation ::= _}}).
  destruct (accepted_keys path c env c E He) as (Hne & _).
  destruct (sighups_fields n st1) as (F1 & F2 & F3 & F4). set (st2 := sighups n st1) in *.
  assert (config_reload_generation st1 = wrap64 (config_reload_generation st + 1)) as G1 by by destruct st.
  assert (config_reload_generation st2 = wrap64 (config_reload_generation st + 1 + Z.of_nat n)) as G2.
  { rewrite F4, G1; [unfold wrap64; by rewrite Zplus_mod_idemp_l|]. rewrite G1. unfold wrap64. apply Z.mod_pos_bound. lia. }
  destruct (refresh_pending path env' true (adm_api_keys (admin c)) st2) as [K1 K2].
  - rewrite F2. destruct st. cbn. by rewrite He.
  - rewrite F3, G2. assert (applied_generation_ st1 = config_reload_generation st) as -> by by destruct st.
    unfold wrap64. destruct (Z.ltb_spec (config_reload_generation st + 1 + Z.of_nat n) (2 ^ 64)) as [Hlt|Hge].
    + rewrite Z.mod_small; lia.
    + rewrite <-(Z_mod_plus_full _ (-1)), Z.mod_small; lia.
  - cbn [snd]. fold st2. set (st3 := maybe_refresh_keys env' path st2) in *. split.
    + rewrite K1. destruct (adm_api_keys (admin c)); [done|]. done.
    + intros env''. unfold maybe_refresh_keys. rewrite K2, Z.eqb_refl. done.
Qed.

(** * Examples *)

#[local] Existing Instance some_order.

Definition admin_config (keys : list bytes) : Config :=
  default_Config{{admin := mkAdmin true 8105 "127.0.0.1" keys}}.

(** A file with two keys. *)
Definition rotated_file : ConfigEnv :=
  mkConfigEnv (λ _, Some (lit "{...}"))
    (λ _, (JObject [(lit "admin", JObject [(lit "api_keys", JArray [JString "new"; JString "spare"]); (lit "enabled", JBool true)])], None))
    (λ _, None) None (λ _, true).

Definition some_dump (r : report) : option bytes := Some (lit "{}").

Definition quiet_answers : AdminAnswers := mkAdminAnswers (snapshot bank_init) 0 (manager_init default_UpstreamConfig) rotated_file.

Definition running : AdminServer := admin_init (admin_config [lit "old"]) 0.


Lemma admin_never_locked_out_witness :
  ∃ st, admin_run some_dump "1.0" "config.json" running st ∧ ad_keys st = [lit "new"; lit "spare"] ∧
    sound_keys "config.json" (admin_config [lit "old"]) (ad_keys st).
Proof.
  set (st := admin_turn some_dump "1.0" "config.json" rotated_file None (sighup running)).
  assert (admin_run some_dump "1.0" "config.json" running st) as Hr.
  { eapply rtc_l; [apply A_sighup|]. apply rtc_once, A_turn. }
  exists st. split_and!; [exact Hr|evaluate|].
  apply (admin_never_locked_out some_dump "1.0" "config.json" (λ _, true) (admin_config [lit "old"]) 0 st); [|exact Hr].
  split; evaluate.
Defined.

Lemma reload_adopts_validated_witness :
  ad_keys (maybe_refresh_keys rotated_file "config.json" (sighups 3 (handle_reload some_dump rotated_file "config.json" running).2)) =
    [lit "new"; lit "spare"].
Proof.
  destruct (read_admin_config rotated_file "config.json") as [c errors] eqn:E.
  assert (errors = []) as -> by (change errors with (c, errors).2; rewrite <-E; evaluate).
  assert (adm_enabled (admin c) = true ∧ adm_api_keys (admin c) = [lit "new"; lit "spare"]) as [He Hk].
  { change c with (c, @nil bytes).1. rewrite <-E. evaluate. }
  rewrite <-Hk. apply (reload_adopts_validated some_dump "config.json" rotated_file c running 3 rotated_file); [exact E|exact He|..]; evaluate.
Defined.
