(* ===== verification/HttpRoundtrip.v ===== *)
(** Round trips through the request parser: a well-formed request, printed, is
    read back by [HttpParser::parse] byte for byte, with either body framing. *)

From S2P Require Import Prelude HttpParser.

#[local] Open Scope Z_scope.
#[local] Open Scope gateway_scope.

(** * Printing *)

Definition print_header (kv : bytes * bytes) : bytes := kv.1 ++ ": " ++ kv.2 ++ CRLF.

Definition print_headers (hs : list (bytes * bytes)) : bytes := concat (print_header <$> hs).

Definition print_target (path query : bytes) : bytes :=
  path ++ match query with [] => [] | _ => "?" ++ query end.

Definition print_head (m path query v : bytes) (hs : list (bytes * bytes)) : bytes :=
  m ++ " " ++ print_target path query ++ " " ++ v ++ CRLF ++
  print_headers hs ++ CRLF.

(** One chunk, and a whole chunked body. *)
Definition print_chunk (data : bytes) : bytes := to_hex (size data) ++ CRLF ++ data ++ CRLF.

Definition print_chunked (chunks : list bytes) : bytes :=
  concat (print_chunk <$> chunks) ++ "0" ++ CRLF ++ CRLF.

(** * Runs of plain bytes *)

Definition line_char (st : State) (c : ascii) : Prop :=
  is_valid_request_line_char c = true ∧ c ≠ " "%char ∧ c ≠ CR ∧ c ≠ LF ∧
  (st = PATH → c ≠ "?"%char).

Definition in_request_line (st : State) : Prop :=
  st = METHOD ∨ st = PATH ∨ st = QUERY ∨ st = VERSION.

Lemma parse_byte_line c p r :
  in_request_line (state_ p) → line_char (state_ p) c → cr_seen_ p = false →
  size (buffer_ p) + 1 <= MAX_REQUEST_LINE_SIZE →
  parse_byte c p r = (p{{buffer_ ::= fun b => b ++ [c] }}, r, Break).
Proof.
  intros Hst (Hv & Hsp & Hcr & Hlf & Hq) Hs Hsz. destruct p; simpl in *; subst.
  unfold parse_byte, step_METHOD, step_PATH, step_QUERY, step_VERSION, push_buffer; simpl.
  rewrite Hv, size_snoc, (proj2 (Z.ltb_ge _ _) Hsz). simpl.
  destruct Hst as [-> | [-> | [-> | ->] ] ]; repeat (rewrite bool_decide_eq_false_2 by auto); done.
Qed.

Lemma parse_run_line s data p r n :
  in_request_line (state_ p) → Forall (line_char (state_ p)) s → cr_seen_ p = false →
  size (buffer_ p) + size s <= MAX_REQUEST_LINE_SIZE →
  parse_loop (s ++ data) p r n = parse_loop data (p{{buffer_ ::= fun b => b ++ s}}) r (n + length s).
Proof.
  intros Hst Hs Hcr Hsz. revert p n Hst Hs Hcr Hsz.
  induction s as [|c s IH]; intros p n Hst Hs Hcr Hsz; simpl.
  { destruct p; simpl. by rewrite app_nil_r, Nat.add_0_r. }
  inversion_clear Hs. autorewrite with size in Hsz. pose proof (size_nonneg s).
  rewrite parse_byte_line by (done || lia).
  destruct p; simpl in *. rewrite bool_decide_eq_false_2 by (intros ->; by destruct Hst as [|[|[|] ] ]).
  rewrite IH; simpl; [|done..|by rewrite size_snoc; lia].
  rewrite <- app_assoc. f_equal. lia.
Qed.

Definition header_char (c : ascii) : Prop := c ≠ CR ∧ c ≠ LF.

Lemma parse_run_header s data p r n :
  state_ p = HEADER → Forall header_char s → cr_seen_ p = false →
  size (buffer_ p) + size s <= MAX_HEADER_LINE_SIZE →
  headers_read_ p + size s <= MAX_HEADERS_SIZE →
  parse_loop (s ++ data) p r n =
    parse_loop data (p{{buffer_ ::= fun b => b ++ s; headers_read_ ::= Z.add (size s)}}) r
      (n + length s).
Proof.
  intros Hst Hs. revert p n Hst.
  induction Hs as [|c s [Hcr Hlf] Hs IH]; intros p n Hst Hcs Hsz Hh; simpl.
  { destruct p; simpl. by rewrite app_nil_r, Nat.add_0_r. }
  autorewrite with size in *. pose proof (size_nonneg s). pose proof (size_nonneg (buffer_ p)).
  destruct p; simpl in *; subst. unfold parse_byte, step_HEADER, push_buffer; simpl.
  rewrite size_snoc, !(proj2 (Z.ltb_ge _ _)) by lia.
  rewrite !bool_decide_eq_false_2 by done. simpl.
  rewrite IH; simpl; rewrite ?size_snoc; try (done || lia).
  rewrite <- app_assoc. f_equal; [f_equal; lia|lia].
Qed.

(** A CRLF in the version or header state. *)
Lemma parse_crlf_version data p r n :
  state_ p = VERSION →
  parse_loop (CRLF ++ data) p r n =
    parse_loop data (p{{cr_seen_ := false; buffer_ := []; state_ := HEADER}})
      (r{{version := buffer_ p}}) (S (S n)).
Proof. intros Hst. destruct p; simpl in *; subst. done. Qed.

(** What [parse] does with the outcome of a byte. *)
Definition resume (o : outcome) (data : bytes) (n : nat) : parse_result :=
  match o with
  | (p, r, Return b) => mkResult p r n b
  | (p, r, Break) =>
    if state_ p == DONE then mkResult p r n false else parse_loop data p r n
  end.

Lemma parse_crlf_header data p r n :
  state_ p = HEADER → 0 <= headers_read_ p → headers_read_ p + 2 <= MAX_HEADERS_SIZE →
  let p' := p{{headers_read_ ::= Z.add 2; cr_seen_ := false}} in
  parse_loop (CRLF ++ data) p r n =
    resume (if buffer_ p == [] then end_of_headers p' r else header_line p' r) data (S (S n)).
Proof.
  intros Hst Hn Hsz. destruct p; simpl in *; subst.
  unfold parse_byte; simpl. unfold step_HEADER; simpl.
  rewrite (proj2 (Z.ltb_ge _ _)) by lia. simpl.
  rewrite (proj2 (Z.ltb_ge _ _)) by lia. simpl.
  by rewrite Z.add_assoc.
Qed.

Lemma parse_run_body s data p r n :
  state_ p = BODY → body_read_ p + size s = content_length_ p →
  content_length_ p <= MAX_BODY_SIZE → s ≠ [] →
  parse_loop (s ++ data) p r n =
    mkResult (p{{body_read_ := content_length_ p; state_ := DONE}})
      (r{{body ::= fun b => b ++ s}}) (n + length s) true.
Proof.
  revert p r n. induction s as [|c s IH]; intros p r n Hst Hrd Hcl Hs; [done|].
  destruct p, r; simpl in *; subst. autorewrite with size in *. pose proof (size_nonneg s).
  unfold parse_byte, step_BODY; simpl. rewrite (proj2 (Z.leb_gt _ _)) by lia.
  destruct s as [|c' s'].
  - rewrite (proj2 (Z.leb_le _ _)) by (autorewrite with size; lia). simpl.
    f_equal; [f_equal; autorewrite with size in *; lia|lia].
  - rewrite (proj2 (Z.leb_gt _ _)) by (autorewrite with size in *; pose proof (size_nonneg s'); lia).
    simpl bool_decide. cbn match.
    rewrite IH; simpl; try (done || lia). rewrite <- app_assoc. f_equal; lia.
Qed.

(** * Header lines *)

Record wf_header (kv : bytes * bytes) : Prop := {
  wf_name : kv.1 ≠ [];
  wf_name_chars : Forall (λ c, is_tchar c = true) kv.1;
  wf_value_chars : Forall (λ c, is_valid_field_value_char c = true) kv.2;
  wf_value_trim : trim kv.2 = kv.2;
  wf_line : size (kv.1 ++ ": " ++ kv.2) <= MAX_HEADER_LINE_SIZE;
}.

(** The table the parser builds; a later line replaces an earlier one. *)
Definition table (t : gmap bytes bytes) (hs : list (bytes * bytes)) : gmap bytes bytes :=
  foldl (λ t kv, <[lowercase kv.1 := kv.2]> t) t hs.

Definition is_framing (k : bytes) : bool := (k == "content-length") || (k == "transfer-encoding").

(** No framing header comes after another one. *)
Fixpoint framing_ok (t : gmap bytes bytes) (hs : list (bytes * bytes)) : Prop :=
  match hs with
  | [] => True
  | kv :: hs' =>
    (is_framing (lowercase kv.1) = true →
     t !! ("content-length" : bytes) = None ∧ t !! ("transfer-encoding" : bytes) = None) ∧
    framing_ok (<[lowercase kv.1 := kv.2]> t) hs'
  end.

Lemma is_tchar_tolower c : is_tchar (tolower c) = is_tchar c.
Proof. by destruct c as [[][][][][][][][]]. Qed.

Lemma is_tchar_plain c : is_tchar c = true → c ≠ CR ∧ c ≠ LF ∧ c ≠ ":"%char.
Proof. intros H. split_and!; intros ->; vm_compute in H; done. Qed.

Lemma tchar_lowercase k : Forall (λ c, is_tchar c = true) k → forallb is_tchar (lowercase k) = true.
Proof.
  intros H. apply forallb_Forall. apply Forall_fmap. eapply Forall_impl; [done|].
  intros c Hc. simpl. by rewrite is_tchar_tolower.
Qed.

Lemma header_line_ok kv p r :
  wf_header kv → buffer_ p = kv.1 ++ ": " ++ kv.2 →
  (is_framing (lowercase kv.1) = true →
   headers r !! ("content-length" : bytes) = None ∧
   headers r !! ("transfer-encoding" : bytes) = None) →
  header_line p r = (p{{buffer_ := [] }}, r{{headers ::= <[lowercase kv.1 := kv.2]> }}, Break).
Proof.
  intros [Hn Hnc Hvc Ht _] Hb Hf. destruct kv as [k v]. simpl in *.
  unfold header_line. rewrite Hb. change (lit ": ") with ([":"; " "]%char). simpl app.
  rewrite find_char_app by (intros H; rewrite Forall_forall in Hnc; by apply Hnc in H).
  rewrite take_app_length, drop_app_ge by lia. replace (S (length k) - length k)%nat with 1%nat by lia.
  change (trim (drop 1 (":" :: " " :: v)%char)) with (trim v). rewrite Ht.
  rewrite bool_decide_eq_false_2 by (by destruct k).
  rewrite tchar_lowercase by done. apply forallb_Forall in Hvc. rewrite Hvc. simpl.
  unfold is_framing in Hf. repeat case_bool_decide; simpl in *; try done.
  all: destruct Hf as [E1 E2]; [done|]; rewrite ?E1, ?E2 in *; by destruct_or?; inversion select (is_Some _).
Qed.

Definition header_state (n : Z) : HttpParser := parser_init{{state_ := HEADER; headers_read_ := n}}.

Lemma parse_header kv data r n k :
  wf_header kv →
  (is_framing (lowercase kv.1) = true →
   headers r !! ("content-length" : bytes) = None ∧
   headers r !! ("transfer-encoding" : bytes) = None) →
  0 <= n → n + size (print_header kv) <= MAX_HEADERS_SIZE →
  parse_loop (print_header kv ++ data) (header_state n) r k =
    parse_loop data (header_state (n + size (print_header kv)))
      (r{{headers ::= <[lowercase kv.1 := kv.2]> }}) (k + length (print_header kv)).
Proof.
  intros Hwf Hf Hn Hsz. unfold print_header in *.
  replace ((kv.1 ++ ": " ++ kv.2 ++ CRLF) ++ data) with ((kv.1 ++ ": " ++ kv.2) ++ CRLF ++ data)
    by (by rewrite <- !app_assoc).
  replace (kv.1 ++ ": " ++ kv.2 ++ CRLF) with ((kv.1 ++ ": " ++ kv.2) ++ CRLF) in *
    by (by rewrite <- !app_assoc).
  assert (Hline : ∃ l, l = kv.1 ++ ": " ++ kv.2) by eauto. destruct Hline as [l Hl].
  rewrite <- Hl in *. assert (Hlne : l ≠ []) by (rewrite Hl; by destruct kv.1).
  rewrite size_app in *. change (size CRLF) with 2 in *.
  pose proof (size_nonneg l).
  rewrite parse_run_header; [|done| |done| |by simpl; lia].
  - rewrite (parse_crlf_header data) by (simpl; lia || done). simpl.
    rewrite bool_decide_eq_false_2 by done. erewrite header_line_ok by done. simpl.
    rewrite length_app. simpl. unfold header_state. simpl. f_equal; [f_equal; lia|lia].
  - rewrite Hl. destruct Hwf as [_ H1 H2 _ _]. rewrite !Forall_app. split_and!.
    + eapply Forall_impl; [done|]. by intros c (? & ? & ?)%is_tchar_plain.
    + by repeat constructor.
    + eapply Forall_impl; [done|]. by intros c (? & ? & ?)%valid_field_value_char_plain.
  - rewrite Hl. apply Hwf.
Qed.

Lemma parse_headers hs data r n k :
  Forall wf_header hs → framing_ok (headers r) hs →
  0 <= n → n + size (print_headers hs) <= MAX_HEADERS_SIZE →
  parse_loop (print_headers hs ++ data) (header_state n) r k =
    parse_loop data (header_state (n + size (print_headers hs)))
      (r{{headers ::= fun t => table t hs}}) (k + length (print_headers hs)).
Proof.
  intros Hwf. revert r n k. induction Hwf as [|kv hs Hkv _ IH]; intros r n k Hf Hn Hsz.
  { destruct r. change (print_headers []) with ([] : bytes). simpl.
    by rewrite size_nil, Z.add_0_r, Nat.add_0_r. }
  change (print_headers (kv :: hs)) with (print_header kv ++ print_headers hs) in *.
  destruct Hf as [Hf1 Hf2]. rewrite size_app in *.
  pose proof (size_nonneg (print_headers hs)). pose proof (size_nonneg (print_header kv)).
  rewrite <- app_assoc, parse_header by (done || lia).
  rewrite IH; [|done|lia..]. destruct r; simpl.
  rewrite length_app, Z.add_assoc. f_equal. lia.
Qed.

(** * The head of a request *)

Record wf_head (m path query v : bytes) (hs : list (bytes * bytes)) : Prop := {
  wf_method : Forall (line_char METHOD) m;
  wf_path : Forall (line_char PATH) path;
  wf_query : Forall (line_char QUERY) query;
  wf_version : Forall (line_char VERSION) v;
  wf_sizes : size m <= MAX_REQUEST_LINE_SIZE ∧ size path <= MAX_REQUEST_LINE_SIZE ∧
             size query <= MAX_REQUEST_LINE_SIZE ∧ size v <= MAX_REQUEST_LINE_SIZE;
  wf_headers : Forall wf_header hs;
  wf_headers_size : size (print_headers hs) + 2 <= MAX_HEADERS_SIZE;
  wf_framing : framing_ok ∅ hs;
}.

Definition head_request (m path query v : bytes) (hs : list (bytes * bytes)) : HttpRequest :=
  mkRequest m path v query [] [] [] (table ∅ hs) [].

Lemma parse_step c data p r p' r' n :
  parse_byte c p r = (p', r', Break) → state_ p' ≠ DONE →
  parse_loop ([c] ++ data) p r n = parse_loop data p' r' (S n).
Proof. intros H Hst. simpl. by rewrite H, bool_decide_eq_false_2. Qed.

Lemma parse_request_line m path query v data :
  Forall (line_char METHOD) m → Forall (line_char PATH) path →
  Forall (line_char QUERY) query → Forall (line_char VERSION) v →
  size m <= MAX_REQUEST_LINE_SIZE → size path <= MAX_REQUEST_LINE_SIZE →
  size query <= MAX_REQUEST_LINE_SIZE → size v <= MAX_REQUEST_LINE_SIZE →
  let line := m ++ " " ++ print_target path query ++ " " ++ v ++ CRLF in
  parse_loop (line ++ data) parser_init request_clear 0 =
    parse_loop data (header_state 0) (mkRequest m path v query [] [] [] ∅ []) (length line).
Proof.
  intros Hm Hp Hq Hv ? ? ? ? line. subst line. unfold print_target.
  change (lit " ") with [" "%char]. change (lit "?") with ["?"%char].
  rewrite <- !app_assoc. rewrite parse_run_line by (by left || done).
  erewrite parse_step by done. destruct query as [|q query]; simpl print_target.
  - rewrite app_nil_l. rewrite parse_run_line by (by (right; left) || done).
    erewrite parse_step by done. rewrite parse_run_line by (by (right; right; right) || done).
    rewrite parse_crlf_version by done. simpl. repeat (rewrite length_app; simpl).
    f_equal. lia.
  - rewrite <- !app_assoc. rewrite parse_run_line by (by (right; left) || done).
    erewrite parse_step by done. rewrite parse_run_line by (by (right; right; left) || done).
    erewrite parse_step by done. rewrite parse_run_line by (by (right; right; right) || done).
    rewrite parse_crlf_version by done. simpl. repeat (rewrite length_app; simpl).
    f_equal; lia.
Qed.

Lemma parse_head m path query v hs data :
  wf_head m path query v hs →
  let head := print_head m path query v hs in
  parse (head ++ data) parser_init request_clear =
    resume (end_of_headers (header_state (size (print_headers hs) + 2))
              (head_request m path query v hs)) data (length head).
Proof.
  intros [Hm Hp Hq Hv (? & ? & ? & ?) Hh Hsz Hf] head.
  pose proof (size_nonneg (print_headers hs)).
  assert (head = (m ++ " " ++ print_target path query ++ " " ++ v ++ CRLF) ++
            print_headers hs ++ CRLF) as ->.
  { subst head. unfold print_head. by rewrite <- !app_assoc. }
  unfold parse. rewrite <- !(app_assoc (_ ++ _)), <- (app_assoc (print_headers hs)).
  rewrite parse_request_line by done. rewrite parse_headers by (done || lia).
  rewrite parse_crlf_header by (simpl; done || lia). simpl.
  rewrite !length_app. simpl. unfold header_state, head_request; simpl.
  rewrite (Z.add_comm 2). f_equal. lia.
Qed.

(** * Chunked bodies *)

Definition chunk_char (c : ascii) : Prop := is_Some (hex_digit c).

Lemma chunk_char_plain c : chunk_char c → c ≠ CR ∧ c ≠ LF ∧ c ≠ ";"%char.
Proof. intros [d H]. split_and!; intros ->; vm_compute in H; done. Qed.

Lemma parse_run_chunk_size s data p r n :
  state_ p = CHUNKED_BODY → chunk_state_ p = SIZE → Forall chunk_char s →
  size (chunk_size_hex_buffer_ p) + size s <= 16 →
  parse_loop (s ++ data) p r n =
    parse_loop data (p{{chunk_size_hex_buffer_ ::= fun b => b ++ s}}) r (n + length s).
Proof.
  intros Hst Hcs Hs. revert p n Hst Hcs.
  induction Hs as [|c s (Hcr & Hlf & _)%chunk_char_plain Hs IH]; intros p n Hst Hcs Hsz.
  { destruct p; simpl. by rewrite app_nil_r, Nat.add_0_r. }
  autorewrite with size in Hsz. pose proof (size_nonneg s).
  destruct p; simpl in *; subst.
  unfold parse_byte, step_CHUNKED_BODY, chunk_SIZE; simpl.
  rewrite !bool_decide_eq_false_2 by done. rewrite size_snoc, (proj2 (Z.ltb_ge _ _)) by lia. simpl.
  rewrite IH; simpl; rewrite ?size_snoc; try (done || lia).
  rewrite <- app_assoc. f_equal. lia.
Qed.

Lemma parse_run_chunk_data s data p r n :
  state_ p = CHUNKED_BODY → chunk_state_ p = DATA → s ≠ [] →
  chunk_data_remaining_ p = size s → size (body r) + size s <= MAX_BODY_SIZE →
  parse_loop (s ++ data) p r n =
    parse_loop data (p{{chunk_data_remaining_ := 0; chunk_state_ := SIZE}})
      (r{{body ::= fun b => b ++ s}}) (n + length s).
Proof.
  revert p r n. induction s as [|c s IH]; intros p r n Hst Hcs Hs Hrem Hsz; [done|].
  destruct p, r; simpl in *; subst. autorewrite with size in *.
  pose proof (size_nonneg s). pose proof (size_nonneg body).
  unfold parse_byte, step_CHUNKED_BODY, chunk_DATA; simpl.
  rewrite size_snoc, (proj2 (Z.ltb_ge _ _)) by lia.
  unfold wrap64. rewrite Z.mod_small by (unfold MAX_BODY_SIZE in *; lia).
  destruct s as [|c' s'].
  - simpl. f_equal. lia.
  - rewrite (proj2 (Z.eqb_neq _ _)) by (autorewrite with size in *; pose proof (size_nonneg s'); lia).
    simpl bool_decide. cbn match.
    rewrite IH; simpl; rewrite ?size_snoc; try (done || lia). rewrite <- app_assoc. f_equal; lia.
Qed.

Definition hex_value (c : ascii) : Z := default 0 (hex_digit c).

Lemma hex_digit_range c d : hex_digit c = Some d → 0 <= d < 16.
Proof. destruct c as [[][][][][][][][]]; vm_compute; intros; simplify_eq; done. Qed.

Lemma hex_loop_complete s acc :
  Forall chunk_char s → 0 <= acc →
  foldl (λ a c, a * 16 + hex_value c) acc s <= MAX_BODY_SIZE →
  acc <= foldl (λ a c, a * 16 + hex_value c) acc s ∧
  hex_loop s acc = Some (foldl (λ a c, a * 16 + hex_value c) acc s).
Proof.
  intros Hs. revert acc. induction Hs as [|c s [d Hd] _ IH]; intros acc Hacc; simpl; [done|].
  unfold hex_value at 2 4 6. rewrite Hd. simpl. intros Hle.
  apply hex_digit_range in Hd as Hr. destruct (IH (acc * 16 + d)) as [Hge E]; [lia|done|].
  unfold wrap64. rewrite Z.mod_small by (unfold MAX_BODY_SIZE in *; lia).
  rewrite (proj2 (Z.ltb_ge _ _)) by lia. split; [lia|done].
Qed.

Lemma to_hex_chars n : Forall chunk_char (to_hex n).
Proof.
  apply render_Forall; [done| |done]. intros d Hd. unfold chunk_char.
  pose proof (digits_Forall (λ d, if hex_digit (digit_char d) is Some _ then true else false) 16) as H.
  specialize (H eq_refl d Hd). simpl in H. by destruct (hex_digit _).
Qed.

Lemma hex_value_to_hex n : 0 <= n → foldl (λ a c, a * 16 + hex_value c) 0 (to_hex n) = n.
Proof.
  intros Hn. unfold to_hex. rewrite (render_value hex_value); [done|done| |by apply render_fuel_enough|done].
  intros d Hd. apply Z.eqb_eq. by apply (digits_Forall (λ d, hex_value (digit_char d) =? d)%Z 16).
Qed.

Lemma parse_chunk_size_to_hex n : 0 <= n <= MAX_BODY_SIZE → parse_chunk_size (to_hex n) = Some n.
Proof.
  intros Hn. unfold parse_chunk_size. pose proof (to_hex_chars n) as Hc.
  rewrite find_char_notin.
  2: { intros H. rewrite Forall_forall in Hc. by apply Hc, chunk_char_plain in H as (_ & _ & ?). }
  pose proof (render_cons 16 (render_fuel n) n [] ltac:(done)).
  destruct (to_hex n) eqn:E; [done|]. rewrite <- E in *.
  pose proof (hex_value_to_hex n ltac:(lia)) as Hv.
  destruct (hex_loop_complete (to_hex n) 0) as [_ ->]; rewrite ?Hv; done || lia.
Qed.

Lemma to_hex_size n : 0 <= n <= MAX_BODY_SIZE → size (to_hex n) <= 16.
Proof.
  intros Hn. unfold size, to_hex. pose proof (render_length 16 15 (render_fuel n) n []) as H.
  change (length []) with 0%nat in H. enough (0 <= n < 16 ^ Z.of_nat 16) by lia.
  change (16 ^ Z.of_nat 16) with (2 ^ 64). unfold MAX_BODY_SIZE in *. lia.
Qed.

(** The parser between chunks. *)
Definition chunk_start (n : Z) : HttpParser := (header_state n){{state_ := CHUNKED_BODY}}.

Lemma parse_chunk_line n p r :
  0 < n <= MAX_BODY_SIZE → state_ p = CHUNKED_BODY → chunk_state_ p = SIZE →
  chunk_size_hex_buffer_ p = to_hex n →
  parse_byte LF p r = (p{{chunk_size_hex_buffer_ := []; chunk_data_remaining_ := n;
                          chunk_state_ := DATA}}, r, Break).
Proof.
  intros Hn Hst Hcs Hb. destruct p; simpl in *; subst.
  unfold parse_byte, step_CHUNKED_BODY, chunk_SIZE; simpl.
  rewrite bool_decide_eq_false_2 by (by apply render_cons).
  rewrite parse_chunk_size_to_hex by lia. by rewrite (proj2 (Z.eqb_neq _ _)) by lia.
Qed.

Lemma parse_chunk data d r h n :
  d ≠ [] → size (body r) + size d <= MAX_BODY_SIZE →
  parse_loop (print_chunk d ++ data) (chunk_start h) r n =
    parse_loop data (chunk_start h) (r{{body ::= fun b => b ++ d}}) (n + length (print_chunk d)).
Proof.
  intros Hd Hsz. pose proof (size_nonneg (body r)). pose proof (size_nonneg d).
  assert (0 < size d) by (destruct d; [done|rewrite size_cons in *; pose proof (size_nonneg d); lia]).
  unfold print_chunk. rewrite <- !app_assoc. rewrite parse_run_chunk_size; try done.
  2: apply to_hex_chars. 2: { apply to_hex_size. lia. }
  change (CRLF ++ d ++ CRLF ++ data) with ([CR] ++ [LF] ++ d ++ CRLF ++ data).
  erewrite parse_step by done.
  erewrite (parse_step LF) by (done || (apply (parse_chunk_line (size d)); done || lia)).
  rewrite parse_run_chunk_data; [|done..].
  simpl. repeat (rewrite length_app; simpl). f_equal. lia.
Qed.

Lemma parse_chunks chunks data r h n :
  Forall (λ d, d ≠ []) chunks → size (body r) + size (concat chunks) <= MAX_BODY_SIZE →
  parse_loop (print_chunked chunks ++ data) (chunk_start h) r n =
    mkResult ((chunk_start h){{state_ := DONE; chunk_state_ := TRAILER}})
      (r{{body ::= fun b => b ++ concat chunks}}) (n + length (print_chunked chunks)) true.
Proof.
  intros Hc. revert r n. unfold print_chunked.
  induction Hc as [|d chunks Hd _ IH]; intros r n Hsz.
  { destruct r; simpl. by rewrite app_nil_r, Nat.add_comm. }
  change (concat (print_chunk <$> d :: chunks)) with (print_chunk d ++ concat (print_chunk <$> chunks)).
  simpl concat in Hsz. rewrite size_app in Hsz. pose proof (size_nonneg (concat chunks)).
  rewrite <- (app_assoc (print_chunk d)), <- (app_assoc (print_chunk d)).
  rewrite parse_chunk by (done || lia). rewrite IH by (destruct r; simpl in *; rewrite size_app; lia).
  destruct r; simpl. rewrite <- app_assoc, (length_app (print_chunk d)). f_equal. lia.
Qed.

(** * Round trips *)

(** The body is declared by Content-Length, or there is none. *)
Definition body_framed (r : HttpRequest) (b : bytes) : Prop :=
  te r = None ∧ (cl r = Some (to_string (size b)) ∨ (cl r = None ∧ b = [])).

Lemma parse_framed_request m path query v hs b rest :
  wf_head m path query v hs → body_framed (head_request m path query v hs) b → size b <= MAX_BODY_SIZE →
  let wire := print_head m path query v hs ++ b in
  let x := parse (wire ++ rest) parser_init request_clear in
  res_request x = (head_request m path query v hs){{body := b}} ∧
  res_consumed x = length wire ∧ res_done x = true.
Proof.
  intros Hwf [Hte Hcl] Hb wire x. unfold te, cl in *. subst x wire.
  rewrite <- app_assoc, parse_head by done. rewrite length_app.
  unfold end_of_headers. rewrite Hte. destruct Hcl as [Hcl | [Hcl ->] ]; rewrite Hcl.
  2:{ simpl. by rewrite Nat.add_0_r. }
  rewrite parse_content_length_to_string by (split; [apply size_nonneg|done]). simpl content_length_.
  rewrite (proj2 (Z.ltb_ge _ _)) by done. destruct b as [|c b].
  - simpl. by rewrite Nat.add_0_r.
  - rewrite (proj2 (Z.ltb_lt _ _)) by (rewrite size_cons; pose proof (size_nonneg b); lia).
    unfold resume. rewrite bool_decide_eq_false_2 by done.
    rewrite parse_run_body by done. done.
Qed.

(** A well-formed request with a declared length or without a body, printed,
    is read back exactly: every field, the header table and the body, and not a
    byte of what follows it on the connection is consumed. *)
Theorem parse_print_content_length m path query v hs b rest :
  wf_head m path query v hs →
  body_framed (head_request m path query v hs) b →
  size b <= MAX_BODY_SIZE →
  let wire := print_head m path query v hs ++ b in
  let x := parse (wire ++ rest) parser_init request_clear in
  res_request x = (head_request m path query v hs){{body := b}} ∧
  res_consumed x = length wire ∧ res_done x = true ∧
  drop (res_consumed x) (wire ++ rest) = rest.
Proof.
  intros Hwf Hf Hb wire x. destruct (parse_framed_request m path query v hs b rest) as (E1 & E2 & E3); [done..|].
  split_and!; [done..|]. subst x wire. rewrite E2. by rewrite drop_app_length.
Qed.

Lemma parse_chunked_request m path query v hs chunks rest t :
  wf_head m path query v hs →
  te (head_request m path query v hs) = Some t → lowercase t = "chunked" →
  Forall (λ d, d ≠ []) chunks → size (concat chunks) <= MAX_BODY_SIZE →
  let wire := print_head m path query v hs ++ print_chunked chunks in
  let x := parse (wire ++ rest) parser_init request_clear in
  res_request x = (head_request m path query v hs){{body := concat chunks}} ∧
  res_consumed x = length wire ∧ res_done x = true ∧
  drop (res_consumed x) (wire ++ rest) = rest.
Proof.
  intros Hwf Hte Ht Hc Hb wire x. unfold te in *. subst x wire.
  rewrite <- app_assoc, parse_head by done. rewrite length_app.
  unfold end_of_headers. rewrite Hte, Ht.
  pose proof (parse_chunks chunks rest (head_request m path query v hs)
    (size (print_headers hs) + 2) (length (print_head m path query v hs)) Hc Hb) as E.
  match goal with |- context [resume ?o ?d ?n] =>
    change (resume o d n) with (parse_loop d (chunk_start (size (print_headers hs) + 2))
      (head_request m path query v hs) n) end.
  rewrite E. simpl. split_and!; [done..|apply drop_app2].
Qed.

(** C16: The same for a chunked body: whatever the division into chunks, the body
    read is their concatenation. *)
Theorem parse_print_chunked m path query v hs chunks rest t :
  wf_head m path query v hs →
  te (head_request m path query v hs) = Some t → lowercase t = "chunked" →
  Forall (λ d, d ≠ []) chunks → size (concat chunks) <= MAX_BODY_SIZE →
  let wire := print_head m path query v hs ++ print_chunked chunks in
  let x := parse (wire ++ rest) parser_init request_clear in
  res_request x = (head_request m path query v hs){{body := concat chunks}} ∧
  res_consumed x = length wire ∧ res_done x = true ∧
  drop (res_consumed x) (wire ++ rest) = rest.
Proof. apply parse_chunked_request. Qed.

(** * The theorems at a concrete request *)

#[global] Instance line_char_dec st c : Decision (line_char st c).
Proof. unfold line_char. apply _. Defined.

#[global] Instance wf_header_dec kv : Decision (wf_header kv).
Proof.
  refine (cast_if (decide (kv.1 ≠ [] ∧ Forall (λ c, is_tchar c = true) kv.1 ∧
    Forall (λ c, is_valid_field_value_char c = true) kv.2 ∧ trim kv.2 = kv.2 ∧
    size (kv.1 ++ ": " ++ kv.2) <= MAX_HEADER_LINE_SIZE))).
  - destruct_and?; by split.
  - intros []; naive_solver.
Defined.

Definition sample_headers (framing : bytes * bytes) : list (bytes * bytes) :=
  [(lit "Host", lit "shop"); framing].

Lemma sample_head_wf framing :
  wf_header framing → is_framing (lowercase framing.1) = true →
  size (print_header framing) <= 100 →
  wf_head "POST" "/items" "id=7" "HTTP/1.1" (sample_headers framing).
Proof.
  intros Hwf Hfr Hsz. split; [evaluate..| | |].
  - constructor; [evaluate|by constructor].
  - unfold print_headers. change (concat _) with (print_header (lit "Host", lit "shop") ++ print_header framing ++ []).
    rewrite !size_app. change (size (print_header _)) with 12 at 1. unfold MAX_HEADERS_SIZE. rewrite size_nil. lia.
  - split; [done|]. simpl. split; [|done]. intros _. by vm_compute.
Qed.

Lemma parse_print_content_length_witness :
  let hs := sample_headers (lit "Content-Length", lit "3") in
  let wire := print_head "POST" "/items" "id=7" "HTTP/1.1" hs ++ "abc" in
  res_consumed (parse (wire ++ "GET /") parser_init request_clear) = length wire.
Proof.
  apply (parse_print_content_length "POST" "/items" "id=7" "HTTP/1.1"
           (sample_headers (lit "Content-Length", lit "3")) "abc" "GET /").
  - apply sample_head_wf; [evaluate|done|done].
  - split; [|left]; by vm_compute.
  - done.
Defined.

Lemma parse_print_chunked_witness :
  let hs := sample_headers (lit "Transfer-Encoding", lit "Chunked") in
  let wire := print_head "POST" "/items" "id=7" "HTTP/1.1" hs ++ print_chunked [lit "ab"; lit "c"] in
  body (res_request (parse (wire ++ "GET /") parser_init request_clear)) = "abc".
Proof.
  destruct (parse_print_chunked "POST" "/items" "id=7" "HTTP/1.1"
    (sample_headers (lit "Transfer-Encoding", lit "Chunked")) [lit "ab"; lit "c"] "GET /" "Chunked")
    as (E & _).
  - apply sample_head_wf; [evaluate|done|done].
  - by vm_compute.
  - done.
  - by repeat constructor.
  - done.
  - cbv zeta. by rewrite E.
Defined.
