(* ===== verification/Responder.v ===== *)
(** Framing of responses, [src/server/http_handler.cpp]: the state a connection
    has in the maps of [HttpHandler], [headers_to_string], [finalize_response]
    and [send_error_response]. zlib is an interface. *)

From S2P Require Import Prelude Search Config RouteUtils HttpParser HttpResponse Routes HttpClient UpstreamExchange Tracing HttpRoundtrip.

#[local] Open Scope Z_scope.
#[local] Open Scope gateway_scope.

(** * zlib *)

(** A deflate stream writes its compressed form piece by piece. *)
Class Zlib := {
  zstream : Type;
  deflateInit2 : bytes → option zstream;
  deflate : nat → zstream → option (bytes * zstream);
  pending : zstream → bytes;
  deflate_writes : ∀ n s, ∃ s', deflate n s = Some (take n (pending s), s') ∧ pending s' = drop n (pending s);
}.

(** [gzip_compress(input, out)] into an empty string; the loop turns at most once
    per pending byte. *)
Definition gzip `{Zlib} (input : bytes) : option bytes :=
  match deflateInit2 input with
  | None => None
  | Some stream =>
    match gzip_compress deflateInit2 deflate (S (length (pending stream))) input [] with
    | Some (true, out) => Some out
    | _ => None
    end
  end.

(** * The state of a connection *)

(** The interest last given to epoll; every registration is one-shot. *)
Inductive Interest := Disarmed | ArmIn | ArmOut | ArmInOut.

(** The entries of [file_fds_], [file_offsets_] and [file_sizes_]. *)
Record FileSend := mkFile { f_fd : Z; f_offset : Z; f_size : Z }.

Record Conn := mkConn {
  c_ssl : bool;
  read_buf : bytes;
  parser : HttpParser;
  request : HttpRequest;
  keep_alive : bool;
  send_queue : list bytes;
  file_send : option FileSend;
  ssl_file_buffer : bytes;
  pending_ssl_write : option SSLWant;
  resp_status : option Z;
  resp_size : option Z;
  last_request : option HttpRequest;
  armed : Interest;
}.

(** [on_connect] *)
Definition on_connect (ssl : bool) : Conn :=
  mkConn ssl [] parser_init request_clear true [] None [] None None None None Disarmed.

(** * Responses *)

(** The fields of a response, and lookups in its headers. *)
Ltac fields := cbn [r_status_code r_status_message r_headers r_body r_chunked
  apply_update constant] in *.
Ltac lookups :=
  repeat first [rewrite lookup_insert_eq | rewrite lookup_insert_ne by done
               |rewrite lookup_delete_eq | rewrite lookup_delete_ne by done]; try done.

Section responder.
  Context `{HashOrder, Zlib} (hash : bytes → Z) (GATEWAY_VERSION : bytes).

Definition headers_to_string (resp : HttpResponse) : bytes :=
  "HTTP/1.1 " ++ to_string (r_status_code resp) ++ " " ++ r_status_message resp ++ CRLF ++
  concat (field_text <$> iter (r_headers resp)) ++ CRLF.

Definition set_default (k v : bytes) (h : gmap bytes bytes) : gmap bytes bytes :=
  match h !! k with Some _ => h | None => <[k := v]> h end.

(** The value of [X-Trace-Id] and [Traceparent] for a request. *)
Definition response_trace_id (src : TraceSource) (req : HttpRequest) : bytes :=
  if is_empty (trace_id req) then fresh_id src else trace_id req.

Definition response_traceparent (src : TraceSource) (req : HttpRequest) : bytes :=
  match headers req !! lit "traceparent" with
  | Some tp => tp
  | None => generate_traceparent hash (fresh_parent_id src) [] [] (fresh_now src)
  end.

(** The headers every response gets. *)
Definition common_headers (src : TraceSource) (req : HttpRequest) (alive : bool) (resp : HttpResponse) : HttpResponse :=
  resp{{r_headers ::= fun h =>
    <[lit "Server" := "EpollHTTP/" ++ GATEWAY_VERSION]>
      (<[lit "Connection" := if alive then lit "keep-alive" else lit "close"]>
        (set_default "Traceparent" (response_traceparent src req)
          (set_default "X-Trace-Id" (response_trace_id src req) h)))}}.

Definition compress_response (req : HttpRequest) (already_compressed : bool) (resp : HttpResponse) : HttpResponse :=
  if (HttpParser.method req != "HEAD") && negb already_compressed && should_compress req resp then
    match gzip (r_body resp) with
    | Some compressed =>
      resp{{r_body := compressed; r_headers ::= fun h =>
        <[lit "Content-Length" := to_string (size compressed)]> (<[lit "Content-Encoding" := lit "gzip"]> h)}}
    | None => resp
    end
  else resp.

Definition chunk_encode (text : bytes) : bytes :=
  (if negb (is_empty text) then to_hex (size text) ++ CRLF ++ text ++ CRLF else []) ++ "0" ++ CRLF ++ CRLF.

Definition chunk_response (resp : HttpResponse) : HttpResponse :=
  if r_chunked resp then
    resp{{r_body ::= chunk_encode; r_headers ::= fun h =>
      <[lit "Transfer-Encoding" := lit "chunked"]> (delete (lit "Content-Length") h)}}
  else resp.

(** The response as it is framed. *)
Definition framed_response (src : TraceSource) (req : HttpRequest) (already_compressed alive : bool)
    (resp : HttpResponse) : HttpResponse :=
  chunk_response (compress_response req already_compressed (common_headers src req alive resp)).

Definition kMaxCoalesceBytes : Z := 64 * 1024.

(** [queue.emplace_back] of the header, and of the body or both in one chunk. *)
Definition queue_response (ssl has_body : bool) (header text : bytes) : list bytes :=
  if has_body && ssl && (size text <=? kMaxCoalesceBytes) then [header ++ text]
  else header :: (if has_body then [text] else []).

Definition finalize_response (src : TraceSource) (req : HttpRequest) (resp : HttpResponse)
    (already_compressed : bool) (c : Conn) : Conn :=
  let resp := framed_response src req already_compressed (keep_alive c) resp in
  let header := headers_to_string resp in
  let is_head := HttpParser.method req == "HEAD" in
  let file_bytes := match file_send c with Some f => f_size f | None => 0 end in
  let total_bytes := size header +
    (if is_head then 0
     else if negb (is_empty (r_body resp)) then size (r_body resp)
     else if r_status_code resp =? 200 then file_bytes else 0) in
  let c := if is_head then c{{file_send := None}} else c in
  let has_body := negb is_head && negb (is_empty (r_body resp)) in
  c{{resp_status := Some (r_status_code resp); resp_size := Some total_bytes;
     send_queue ::= fun q => q ++ queue_response (c_ssl c) has_body header (r_body resp);
     armed := ArmInOut}}.

(** [make_error_response] with the headers [send_error_response] adds. *)
Definition error_headers (last : option HttpRequest) (allow_methods : bytes) (h : gmap bytes bytes) : gmap bytes bytes :=
  let h := match last with
           | Some req => if negb (is_empty (trace_id req)) then <[lit "X-Trace-Id" := trace_id req]> h else h
           | None => h
           end in
  let h := match last ≫= (λ req, headers req !! lit "traceparent") with
           | Some tp => <[lit "Traceparent" := tp]> h
           | None => h
           end in
  let h := <[lit "Connection" := lit "close"]> h in
  if negb (is_empty allow_methods) then <[lit "Allow" := allow_methods]> h else h.

Definition error_response (code : Z) (message allow_methods : bytes) (last : option HttpRequest) : HttpResponse :=
  (Routes.make_error_response code message message){{r_headers ::= error_headers last allow_methods}}.

Definition send_error_response (code : Z) (message allow_methods : bytes) (c : Conn) : Conn :=
  let resp := error_response code message allow_methods (last_request c) in
  let header := headers_to_string resp ++ r_body resp in
  c{{keep_alive := false; send_queue ::= fun q => q ++ [header];
     resp_status := Some code; resp_size := Some (size header); armed := ArmOut}}.

(** * Lemmas *)

Lemma scan_size_complete s acc :
  Forall chunk_char s → 0 <= acc → foldl (λ a c, a * 16 + hex_value c) acc s <= SIZE_MAX →
  acc <= foldl (λ a c, a * 16 + hex_value c) acc s ∧
  scan_size s acc = Some (foldl (λ a c, a * 16 + hex_value c) acc s).
Proof.
  intros Hs. revert acc. induction Hs as [|c s [d Hd] _ IH]; intros acc Hacc; simpl; [done|].
  unfold hex_value at 2 4 6. rewrite Hd. simpl. intros Hle.
  apply hex_digit_range in Hd as Hr. destruct (IH (acc * 16 + d)) as [Hge E]; [lia|done|].
  assert (acc <= SIZE_MAX / 16) by (apply Z.div_le_lower_bound; lia).
  rewrite (proj2 (Z.ltb_ge _ _)) by lia. split; [lia|done].
Qed.

Lemma to_hex_no_char (c : ascii) n : hex_digit c = None → c ∉ to_hex n.
Proof.
  intros Hc Hin. pose proof (to_hex_chars n) as Hall. rewrite Forall_forall in Hall.
  destruct (Hall _ Hin). congruence.
Qed.

Lemma chunk_line_size_to_hex n : 0 <= n <= SIZE_MAX → chunk_line_size (to_hex n) = Some n.
Proof.
  intros Hn. unfold chunk_line_size. rewrite find_char_notin by by apply to_hex_no_char.
  pose proof (render_cons 16 (render_fuel n) n [] ltac:(done)) as Hne.
  apply is_empty_false in Hne. fold (to_hex n) in Hne. rewrite Hne.
  pose proof (hex_value_to_hex n ltac:(lia)) as Hv.
  destruct (scan_size_complete (to_hex n) 0) as [_ ->]; rewrite ?Hv; [apply to_hex_chars|lia|lia|done].
Qed.

(** A chunked body read the way the gateway reads those of its backends. *)
Lemma chunk_encode_decodes text :
  size (chunk_encode text) < 2 ^ 63 →
  scan_chunked_body (chunk_encode text) 0 = Some (Complete (length (chunk_encode text)), text).
Proof.
  set (chunks := if is_empty text then [] else [(to_hex (size text), text)]).
  assert (chunk_encode text = chunked_wire chunks (lit "0") []) as E.
  { unfold chunk_encode, chunks, chunked_wire. destruct (is_empty text); [done|]. cbn [negb fmap list_fmap concat].
    unfold chunk_wire. cbn [fst snd]. by rewrite !(right_id_L [] (++)), <-!(assoc_L (++)). }
  rewrite E. intros Hsz. pose proof (size_nonneg text).
  assert (size text <= size (chunked_wire chunks (lit "0") [])) as Hle.
  { rewrite <-E. unfold chunk_encode. destruct text as [|x text']; [by vm_compute|]. cbn [is_empty negb].
    rewrite !size_app. set (t := x :: text'). pose proof (size_nonneg (to_hex (size t))).
    change (size CRLF) with 2. change (size (lit "0")) with 1. lia. }
  assert (chunk_line_size (to_hex (size text)) = Some (size text)) as Hline
    by (apply chunk_line_size_to_hex; unfold SIZE_MAX; lia).
  apply (scan_chunked_body_fuel (S (length chunks))); [lia|].
  pose proof (scan_loop_wire chunks (lit "0") [] (S (length chunks)) [] [] []) as H'. cbv zeta in H'.
  rewrite !(right_id_L [] (++)), !(left_id_L [] (++)) in H'.
  change (length (A:=ascii) []) with 0%nat in H'. rewrite H'; try done.
  - unfold chunks. destruct text; simpl; by rewrite ?(right_id_L [] (++)).
  - unfold chunks. destruct text as [|x text']; [constructor|]. constructor; [|constructor].
    split_and!; [apply is_line_plain; by apply to_hex_no_char|done|done].
  - lia.
Qed.

Lemma gzip_total (input : bytes) stream :
  deflateInit2 input = Some stream → input ≠ [] → gzip input = Some (pending stream).
Proof.
  intros E Hi. unfold gzip. rewrite E. unfold gzip_compress. apply is_empty_false in Hi as ->. rewrite E.
  rewrite (deflate_loop_complete _ pending deflate_writes) by (unfold CHUNK; lia). done.
Qed.

Lemma concat_queue_response ssl has_body header text :
  concat (queue_response ssl has_body header text) = header ++ (if has_body then text else []).
Proof. unfold queue_response. by repeat case_match; simpl; rewrite ?(right_id_L [] (++)). Qed.

Lemma set_default_ne k v h (k' : bytes) : k' ≠ k → set_default k v h !! k' = h !! k'.
Proof. intros. unfold set_default. case_match; [done|]. by rewrite lookup_insert_ne. Qed.

(** How the client finds the end of [payload] and what it reads as the body. *)
Definition framing (h : gmap bytes bytes) (payload text : bytes) : Prop :=
  (h !! lit "Transfer-Encoding" = Some (lit "chunked") ∧ h !! lit "Content-Length" = None ∧
    scan_chunked_body payload 0 = Some (Complete (length payload), text)) ∨
  (h !! lit "Content-Length" = Some (to_string (size payload)) ∧ payload = text).

(** A response whose handler has announced the length of its body. *)
Definition announced (resp : HttpResponse) : Prop :=
  r_chunked resp = true ∨ r_headers resp !! lit "Content-Length" = Some (to_string (size (r_body resp))).

Lemma common_headers_spec src req alive resp :
  let resp' := common_headers src req alive resp in
  r_body resp' = r_body resp ∧ r_status_code resp' = r_status_code resp ∧ r_chunked resp' = r_chunked resp ∧
  r_headers resp' !! lit "Connection" = Some (if alive then lit "keep-alive" else lit "close") ∧
  r_headers resp' !! lit "Content-Length" = r_headers resp !! lit "Content-Length".
Proof.
  destruct resp. unfold common_headers. fields. split_and!; lookups. by rewrite !set_default_ne.
Qed.

Lemma compress_response_spec req already resp :
  let resp' := compress_response req already resp in
  announced resp →
  announced resp' ∧ r_status_code resp' = r_status_code resp ∧ r_chunked resp' = r_chunked resp ∧
  r_headers resp' !! lit "Connection" = r_headers resp !! lit "Connection" ∧
  (r_body resp' = r_body resp ∨
   gzip (r_body resp) = Some (r_body resp') ∧ r_headers resp' !! lit "Content-Encoding" = Some (lit "gzip")).
Proof.
  intros resp' Ha. unfold resp', compress_response. case_match; [|by eauto 10].
  destruct (gzip (r_body resp)) as [z|] eqn:E; [|by eauto 10].
  destruct resp. unfold announced in *. fields. split_and!; lookups.
  - destruct Ha as [->|_]; [by left|]. by right.
  - by right.
Qed.

Lemma chunk_response_spec resp :
  let resp' := chunk_response resp in
  announced resp →
  (size (r_body resp') < 2 ^ 63 → framing (r_headers resp') (r_body resp') (r_body resp)) ∧
  r_status_code resp' = r_status_code resp ∧
  r_headers resp' !! lit "Connection" = r_headers resp !! lit "Connection" ∧
  r_headers resp' !! lit "Content-Encoding" = r_headers resp !! lit "Content-Encoding".
Proof.
  intros resp' Ha. unfold resp', chunk_response in *. destruct (r_chunked resp) eqn:E.
  - destruct resp. fields. split_and!; lookups. intros Hsz. left. split_and!; lookups. by apply chunk_encode_decodes.
  - destruct Ha as [|Ha]; [congruence|]. split_and!; try done. by right.
Qed.
End responder.

(** A response whose handler announced its body's length is queued as one
    head and one payload that the client reads back: the payload ends where the
    head says (chunked or by length), it carries the handler's body or its
    gzip form, labelled so, and the head says whether the connection stays open.
    The response to HEAD is the head alone. *)
Lemma finalize_response_framing `{HashOrder, Zlib} hash version src req resp already c :
  let resp' := framed_response hash version src req already (keep_alive c) resp in
  let c' := finalize_response hash version src req resp already c in
  announced resp →
  concat (send_queue c') = concat (send_queue c) ++ headers_to_string resp' ++
    (if HttpParser.method req == "HEAD" then [] else r_body resp') ∧
  r_status_code resp' = r_status_code resp ∧
  r_headers resp' !! lit "Connection" = Some (if keep_alive c then lit "keep-alive" else lit "close") ∧
  file_send c' = (if HttpParser.method req == "HEAD" then None else file_send c) ∧
  (size (r_body resp') < 2 ^ 63 → ∃ text, framing (r_headers resp') (r_body resp') text ∧
    (text = r_body resp ∨
     gzip (r_body resp) = Some text ∧ r_headers resp' !! lit "Content-Encoding" = Some (lit "gzip"))).
Proof.
  intros resp' c' Ha.
  destruct (common_headers_spec hash version src req (keep_alive c) resp) as (Hb1 & Hs1 & Hc1 & Hk1 & Hl1).
  set (resp1 := common_headers hash version src req (keep_alive c) resp) in *.
  assert (announced resp1) as Ha1 by (unfold announced; by rewrite Hb1, Hc1, Hl1).
  destruct (compress_response_spec req already resp1 Ha1) as (Ha2 & Hs2 & _ & Hk2 & Hb2).
  set (resp2 := compress_response req already resp1) in *.
  destruct (chunk_response_spec resp2 Ha2) as (Hf & Hs3 & Hk3 & He3).
  change (chunk_response resp2) with resp' in *. split_and!.
  - unfold c', finalize_response. fold resp'. destruct c. cbn [send_queue apply_update constant].
    destruct (HttpParser.method req == "HEAD"); cbn [send_queue apply_update constant negb andb];
      rewrite concat_app, concat_queue_response; [done|]. by destruct (r_body resp').
  - congruence.
  - congruence.
  - unfold c', finalize_response. destruct c. by destruct (HttpParser.method req == "HEAD").
  - intros Hsz. exists (r_body resp2). split; [by apply Hf|]. rewrite <-Hb1, He3. naive_solver.
Qed.

Lemma should_compress_empty req resp : r_body resp = [] → should_compress req resp = false.
Proof.
  intros E. unfold should_compress. rewrite E. destruct (has_content_encoding resp); [done|].
  destruct (headers req !! _); [|done]. destruct (bool_decide _); [done|]. destruct (r_headers resp !! _); [|done].
  by match goal with |- (if ?b then _ else _) = _ => destruct b end.
Qed.

(** A response without a body whose head announces a file that is sent later. *)
Lemma finalize_response_file `{HashOrder, Zlib} hash version src req resp already c f :
  let resp' := framed_response hash version src req already (keep_alive c) resp in
  let c' := finalize_response hash version src req resp already c in
  HttpParser.method req ≠ "HEAD" → r_body resp = [] → r_chunked resp = false →
  r_headers resp !! lit "Content-Length" = Some (to_string (f_size f)) → file_send c = Some f →
  concat (send_queue c') = concat (send_queue c) ++ headers_to_string resp' ∧
  file_send c' = Some f ∧
  r_headers resp' !! lit "Connection" = Some (if keep_alive c then lit "keep-alive" else lit "close") ∧
  r_headers resp' !! lit "Content-Length" = Some (to_string (f_size f)) ∧ r_body resp' = [].
Proof.
  intros resp' c' Hm Hb Hc Hl Hf.
  destruct (common_headers_spec hash version src req (keep_alive c) resp) as (Hb1 & Hs1 & Hc1 & Hk1 & Hl1).
  set (resp1 := common_headers hash version src req (keep_alive c) resp) in *.
  assert (resp' = resp1) as E.
  { unfold resp', framed_response. fold resp1. unfold compress_response.
    rewrite should_compress_empty, andb_false_r by congruence. unfold chunk_response. by rewrite Hc1, Hc. }
  unfold c', finalize_response. fold resp'. rewrite E, Hb1, Hb. rewrite (bool_decide_eq_false_2 _ Hm).
  destruct c. cbn in Hf. cbn [send_queue file_send apply_update constant negb andb is_empty].
  rewrite concat_app, concat_queue_response, (right_id_L [] (++)). split_and!; congruence || done.
Qed.
