(* ===== verification/Admission.v ===== *)
(** Admission of a parsed request, [src/server/http_handler.cpp]: trace headers,
    route, API key, rate limit, method, in the order of [handle_read]
    (lines 446-551), with [extract_api_key] and [should_rate_limit]. *)

From S2P Require Import Prelude Search Config RateLimiter RouteUtils ApiKeyManager HttpParser HttpResponse Routes HttpClient UpstreamExchange Tracing.

#[local] Open Scope Z_scope.
#[local] Open Scope gateway_scope.

Definition requires_auth (req : HttpRequest) : bool := starts_with "/api/" (HttpParser.path req).

Definition extract_api_key (req : HttpRequest) : bytes :=
  match headers req !! lit "x-api-key" with
  | Some key => key
  | None =>
    match headers req !! lit "authorization" with
    | Some val => if starts_with "Bearer " val then drop 7 val else []
    | None => []
    end
  end.

Definition kExemptPaths : list bytes := [lit "/healthz"; lit "/readyz"; lit "/version"; lit "/metrics"].

(** The bucket a request is charged to. *)
Definition bucket_of (limits : RateLimitConfig) (req : HttpRequest) (route : GatewayRoute) (client_ip : bytes)
    (api_key : option ApiKeyConfig) : bytes * RateLimitConfig :=
  if rt_rate_limit_policy route == "route" then
    ("route:" ++ rt_path route ++ ":" ++ HttpParser.method req, limits)
  else
    match api_key with
    | Some cfg =>
      if rt_rate_limit_policy route == "api_key" then ("api_key:" ++ ak_key cfg, ak_rate_limit cfg)
      else ("ip:" ++ client_ip, limits)
    | None => ("ip:" ++ client_ip, limits)
    end.

(** [None]: the arithmetic of the bucket leaves its range. *)
Definition should_rate_limit (limits : RateLimitConfig) (req : HttpRequest) (route : GatewayRoute)
    (client_ip : bytes) (api_key : option ApiKeyConfig) (t : clock) (m : RateLimiterManager)
    : option (bool * RateLimiterManager) :=
  if bool_decide (HttpParser.path req ∈ kExemptPaths) then Some (false, m)
  else
    let '(key, config) := bucket_of limits req route client_ip api_key in
    match try_acquire_locked key config t m with
    | Some (ok, m) => Some (negb ok, m)
    | None => None
    end.

(** What is done with a parsed request. *)
Inductive verdict :=
| Refuse (code : Z) (message allow_methods : bytes)
| StaticFallback (resolved : ResolvedRoute)
| Admit (resolved : ResolvedRoute).

Definition known_methods : list bytes := [lit "GET"; lit "HEAD"; lit "POST"; lit "PUT"; lit "DELETE"].

(** The readings of clocks and generators for one request. *)
Record RequestEnv := mkEnv { e_trace : TraceSource; e_clock : clock }.

(** What a handler keeps from its configuration. *)
Record Policy := mkPolicy {
  pol_routes : list RegisteredRoute;
  pol_keys : keys_t;
  pol_limits : RateLimitConfig;
}.

Section admission.
  Context `{HashOrder} (hash : bytes → Z).

Definition policy_of (config : Config) : Policy :=
  mkPolicy (routes_of (upstream_config config)) (load_keys (api_keys config)) (rate_limit_config config).

Definition needs_key (route : GatewayRoute) : bool := rt_auth_required route && negb (rt_allow_anonymous route).

(** The key check: [None] refuses, otherwise the configuration of the key, if any. *)
Definition check_key (pol : Policy) (req : HttpRequest) (route : GatewayRoute) : option (option ApiKeyConfig) :=
  if needs_key route then
    let key := extract_api_key req in
    if is_empty key ||
       negb (authorize key route (header_or_empty "host" req) (header_or_empty "x-tenant-id" req) (pol_keys pol))
    then None
    else Some (find_constant_time key (pol_keys pol))
  else Some None.

Definition route_label (route : GatewayRoute) : bytes := if is_empty (rt_name route) then rt_path route else rt_name route.

Definition admit_request (env : RequestEnv) (pol : Policy) (client_ip : bytes) (req : HttpRequest) (m : RateLimiterManager)
    : option (verdict * HttpRequest * RateLimiterManager) :=
  let req := annotate_request hash (e_trace env) req in
  match resolve_route (pol_routes pol) req with
  | None => None
  | Some resolved =>
    match rs_route resolved with
    | None =>
      Some (if rs_path_matched resolved then Refuse 405 "Method Not Allowed" (rs_allow_methods resolved)
            else StaticFallback resolved, req, m)
    | Some registered =>
      let route := rr_route registered in
      let req := req{{headers ::= <[lit "x-route-name" := route_label route]>}} in
      match check_key pol req route with
      | None => Some (Refuse 401 "Unauthorized" [], req, m)
      | Some api_key =>
        match should_rate_limit (pol_limits pol) req route client_ip api_key (e_clock env) m with
        | None => None
        | Some (true, m) => Some (Refuse 429 "Too Many Requests" [], req, m)
        | Some (false, m) =>
          if bool_decide (HttpParser.method req ∈ known_methods) then Some (Admit resolved, req, m)
          else Some (Refuse 405 "Method Not Allowed" [], req, m)
        end
      end
    end
  end.

(** The keep-alive decision for an admitted request. *)
Definition wants_keep_alive (req : HttpRequest) : bool :=
  match headers req !! lit "connection" with
  | Some conn => lowercase conn != "close"
  | None => true
  end.

(** * Lemmas *)

Lemma annotate_same src req :
  HttpParser.method (annotate_request hash src req) = HttpParser.method req ∧
  HttpParser.path (annotate_request hash src req) = HttpParser.path req.
Proof. by destruct req. Qed.

(** A key that passed is configured, and not kept out by the route or its scopes. *)
Definition key_passes (pol : Policy) (req : HttpRequest) (route : GatewayRoute) : Prop :=
  extract_api_key req ≠ [] ∧
  authorize (extract_api_key req) route (header_or_empty "host" req) (header_or_empty "x-tenant-id" req)
    (pol_keys pol) = true.

Lemma check_key_spec pol req route :
  match check_key pol req route with
  | Some api_key =>
    if needs_key route then key_passes pol req route ∧ api_key = find_constant_time (extract_api_key req) (pol_keys pol)
    else api_key = None
  | None => needs_key route = true ∧ ¬ key_passes pol req route
  end.
Proof.
  unfold check_key, key_passes. destruct (needs_key route); [|done].
  destruct (is_empty (extract_api_key req)) eqn:E; simpl.
  - apply is_empty_true in E. naive_solver.
  - apply is_empty_false in E. destruct (authorize _ _ _ _ _); simpl; naive_solver.
Qed.
End admission.

Lemma resolve_total routes req : ∃ res, resolve_route routes req = Some res ∧ resolution routes req res.
Proof. apply (resolve_loop_spec req routes []). constructor. Qed.

Lemma should_rate_limit_spec limits req route ip api_key t m limited m' :
  should_rate_limit limits req route ip api_key t m = Some (limited, m') →
  (HttpParser.path req ∈ kExemptPaths ∧ limited = false ∧ m' = m) ∨
  ((HttpParser.path req ∉ kExemptPaths) ∧ ∃ key config, try_acquire_locked key config t m = Some (negb limited, m')).
Proof.
  unfold should_rate_limit. case_bool_decide; [naive_solver|]. destruct (bucket_of _ _ _ _ _) as [key config].
  destruct (try_acquire_locked key config t m) as [[ok m1]|] eqn:E; [|done]. intros [= <- <-].
  right. split; [done|]. exists key, config. by rewrite negb_involutive.
Qed.


(** * Probes *)

Lemma local_route_matches meth pattern h host tenant path params :
  routeMatchesPath (rr_route (local_route meth pattern h)) host tenant path params = matchRoute pattern path params.
Proof. done. Qed.

Lemma resolve_loop_skip meth pattern h routes host tenant req matched :
  matchRoute pattern (HttpParser.path req) ∅ = Some (false, ∅) →
  resolve_loop (local_route meth pattern h :: routes) host tenant req matched = resolve_loop routes host tenant req matched.
Proof. intros E. cbn [resolve_loop]. by rewrite local_route_matches, E. Qed.

Lemma resolve_loop_take meth pattern h routes host tenant req :
  matchRoute pattern (HttpParser.path req) ∅ = Some (true, ∅) → meth = HttpParser.method req →
  ∃ res, resolve_loop (local_route meth pattern h :: routes) host tenant req (mkResolved None ∅ false []) = Some res ∧
    rs_route res = Some (local_route meth pattern h).
Proof.
  intros E ->. cbn [resolve_loop]. rewrite local_route_matches, E.
  assert (method_accepts (rt_method (rr_route (local_route (HttpParser.method req) pattern h))) req = true) as ->.
  { unfold method_accepts. apply orb_true_iff. right. by apply bool_decide_eq_true. }
  by eexists.
Qed.

(** The handler of a probe. *)
Definition probe_handler (path : bytes) : option LocalHandler :=
  alookup path [(lit "/healthz", Healthz); (lit "/readyz", Readyz); (lit "/version", Version); (lit "/metrics", MetricsText)].

Lemma resolve_probe config req :
  HttpParser.method req = "GET" → HttpParser.path req ∈ kExemptPaths →
  ∃ res meth pattern h, resolve_route (routes_of config) req = Some res ∧
    rs_route res = Some (local_route meth pattern h) ∧ probe_handler (HttpParser.path req) = Some h.
Proof.
  intros Hm Hp. unfold resolve_route, routes_of, register_default_routes. cbn [app].
  unfold kExemptPaths in Hp. rewrite !elem_of_cons in Hp.
  destruct Hp as [Hp|[Hp|[Hp|[Hp|Hp%elem_of_nil]]]]; [..|done];
    repeat (rewrite resolve_loop_skip by (rewrite Hp; by vm_compute));
    match goal with |- context [resolve_loop (local_route ?a ?b ?h :: ?rs) ?host ?t req _] =>
      destruct (resolve_loop_take a b h rs host t req) as (res & -> & E); [rewrite Hp; by vm_compute|done|];
      exists res, a, b, h; split; [done|split; [done|by rewrite Hp]] end.
Qed.

Lemma probe_admitted `{HashOrder} hash env config client_ip req m :
  HttpParser.method req = "GET" → HttpParser.path req ∈ kExemptPaths →
  ∃ res req' meth pattern h, admit_request hash env (policy_of config) client_ip req m = Some (Admit res, req', m) ∧
    rs_route res = Some (local_route meth pattern h) ∧ probe_handler (HttpParser.path req) = Some h ∧ HttpParser.method req' = HttpParser.method req.
Proof.
  intros Hm Hp. unfold admit_request. set (annotated := annotate_request hash (e_trace env) req).
  destruct (annotate_same hash (e_trace env) req) as [Em Ep]. fold annotated in Em, Ep.
  destruct (resolve_probe (upstream_config config) annotated) as (res & meth & pattern & h & E & Err & Hh);
    [congruence|congruence|].
  cbn [pol_routes policy_of]. rewrite E, Err. set (req1 := annotated{{headers ::= _}}).
  assert (HttpParser.method req1 = HttpParser.method req ∧ HttpParser.path req1 = HttpParser.path req) as [Em1 Ep1]
    by (rewrite <-Em, <-Ep; unfold req1; by destruct annotated).
  change (check_key (policy_of config) req1 (rr_route (local_route meth pattern h))) with (Some (A:=option ApiKeyConfig) None).
  unfold should_rate_limit. rewrite Ep1, Em1, Hm, !bool_decide_eq_true_2 by (done || apply (bool_decide_unpack _); by vm_compute).
  exists res, req1, meth, pattern, h. by rewrite <-Ep.
Qed.

(** A probe ([GET] of [/healthz], [/readyz], [/version], [/metrics]) is
    admitted to its built-in handler under every configuration, for every client
    and whatever the state of the rate limiter, and takes no token. *)
Theorem probes_admitted `{HashOrder} hash env config client_ip req m :
  HttpParser.method req = "GET" → HttpParser.path req ∈ kExemptPaths →
  ∃ res req' rr, admit_request hash env (policy_of config) client_ip req m = Some (Admit res, req', m) ∧
    rs_route res = Some rr ∧ rr_handler rr = probe_handler (HttpParser.path req).
Proof.
  intros Hm Hp. destruct (probe_admitted hash env config client_ip req m Hm Hp) as (res & req' & meth & pattern & h & E & Er & Eh & _).
  exists res, req', (local_route meth pattern h). by rewrite Eh.
Qed.

(** A route that asks for a key, and a request without one. *)
Definition guarded_route : GatewayRoute :=
  default_GatewayRoute{{rt_path := lit "/orders"; rt_method := lit "GET"; rt_auth_required := true; rt_allow_anonymous := false}}.

Definition guarded_policy : Policy := mkPolicy [configured_route guarded_route] ∅ default_RateLimitConfig.

Definition sample_env : RequestEnv := mkEnv (mkSource "id" "id" 0) (mkClock 0 0 0).

Definition keyless_request : HttpRequest := request_clear{{method := lit "GET"; path := lit "/orders"}}.


Lemma probes_admitted_witness :
  ∃ res req' rr, admit_request (λ _, 0) sample_env (policy_of default_Config) "1.2.3.4"
      (keyless_request{{path := lit "/readyz"}}) (manager_new default_RateLimitConfig)
    = Some (Admit res, req', manager_new default_RateLimitConfig) ∧
    rs_route res = Some rr ∧ rr_handler rr = Some Readyz.
Proof.
  destruct (probes_admitted (λ _, 0) sample_env default_Config "1.2.3.4" (keyless_request{{path := lit "/readyz"}})
    (manager_new default_RateLimitConfig)) as (res & req' & rr & E & Err & Eh).
  - done.
  - apply (bool_decide_unpack _). by vm_compute.
  - exists res, req', rr. split; [exact E|]. split; [exact Err|]. rewrite Eh. by vm_compute.
Defined.
