(* ===== verification/StaticFiles.v ===== *)
(** [HttpHandler::send_response] of [src/server/http_handler.cpp]: dispatch of a
    matched route, or the static files below the document root with the
    descriptor cache and the content cache. The file system is an interface. *)

From S2P Require Import Prelude Search Config RateLimiter RouteUtils ApiKeyManager FileCache FdCache HttpParser HttpResponse ConfigFile UpstreamManager Routes HttpClient UpstreamExchange Tracing Responder Admission.

#[local] Open Scope Z_scope.
#[local] Open Scope gateway_scope.

(** * The file system *)

(** [stat] answers size and modification time, [open] a new descriptor, [read]
    the bytes from the descriptor's position on; [None] is -1. *)
Class FileSystem := {
  fs_t : Type;
  stat : bytes → fs_t → option (Z * Z);
  open_rdonly : bytes → fs_t → option (Z * fs_t);
  read_fd : Z → Z → fs_t → option bytes * fs_t;
}.

(** What the connections of a worker share. *)
Record Shared `{FileSystem} := mkShared {
  sh_limiter : RateLimiterManager;
  sh_upstreams : UpstreamManager;
  sh_fds : FdCache.FdCache;
  sh_files : FileCache.FileCache;
  sh_fs : fs_t;
}.

(** The libraries and constants the handlers use. *)
Record World := mkWorld {
  w_hash : bytes → Z;
  w_dump : json → option bytes;
  w_parse_json : bytes → option json;
  w_version : bytes;
  w_metrics : bytes;
  w_canonical : bytes → option bytes;
  w_read_file : bytes → option bytes;
  w_www_root : bytes;
}.

(** The readings of [time(nullptr)]: by [send_response], [validate], [put]. *)
Record FileClock := mkFileClock { t_get : Z; t_validate : Z; t_put : Z }.

Definition MAX_INLINE : Z := 1024 * 1024.

Section static.
  Context `{HashOrder, Zlib, FileSystem} (w : World).

Definition html (code : Z) (status : bytes) (resp : HttpResponse) : HttpResponse :=
  (with_body code status "text/html" ("<h1>" ++ to_string code ++ " " ++ status ++ "</h1>") resp){{r_chunked := false}}.

(** The descriptor of a file, its size and modification time. *)
Inductive opened := Opened (fd sz mt : Z) | Missing | Unopenable.

(** [None]: the eviction loop of the descriptor cache reads [back()] of an empty list. *)
Definition open_cached (path : bytes) (t : FileClock) (sh : Shared) : option (opened * Shared) :=
  match try_get path (t_get t) (sh_fds sh) with
  | (Some (fd, sz, mt), fds) => Some (Opened fd sz mt, sh{{sh_fds := fds}})
  | (None, fds) =>
    let sh := sh{{sh_fds := fds}} in
    let file_path := w_www_root w ++ path in
    match stat file_path (sh_fs sh) with
    | None => Some (Missing, sh)
    | Some (sz, mt) =>
      match validate path mt (t_validate t) (sh_fds sh) with
      | (Some fd, fds) => Some (Opened fd sz mt, sh{{sh_fds := fds}})
      | (None, fds) =>
        let sh := sh{{sh_fds := fds}} in
        match open_rdonly file_path (sh_fs sh) with
        | None => Some (Unopenable, sh)
        | Some (fd, fs) =>
          match FdCache.put path fd mt sz (t_put t) (sh_fds sh) with
          | None => None
          | Some fds => Some (Opened fd sz mt, sh{{sh_fds := fds; sh_fs := fs}})
          end
        end
      end
    end
  end.

(** The content of a small file, from the cache or the descriptor; a short read
    gives no content. *)
Definition load_raw (path : bytes) (fd sz mt : Z) (sh : Shared) : option (option bytes * Shared) :=
  match FileCache.get path mt (sh_files sh) with
  | (Some text, files) => Some (Some text, sh{{sh_files := files}})
  | (None, files) =>
    let sh := sh{{sh_files := files}} in
    let '(data, fs) := read_fd fd sz (sh_fs sh) in
    let sh := sh{{sh_fs := fs}} in
    match data with
    | Some text =>
      if size text =? sz then
        match FileCache.put path text sz mt (sh_files sh) with
        | Some files => Some (Some text, sh{{sh_files := files}})
        | None => None
        end
      else Some (None, sh)
    | None => Some (None, sh)
    end
  end.

Definition gzip_key (path : bytes) : bytes := path ++ "#gzip".

(** The body of a small file for a client that accepts gzip, and whether it is compressed. *)
Definition load_gzip (path : bytes) (fd sz mt : Z) (sh : Shared) : option (option (bytes * bool) * Shared) :=
  match FileCache.get (gzip_key path) mt (sh_files sh) with
  | (Some text, files) => Some (Some (text, true), sh{{sh_files := files}})
  | (None, files) =>
    match load_raw path fd sz mt (sh{{sh_files := files}}) with
    | None => None
    | Some (None, sh) => Some (None, sh)
    | Some (Some raw, sh) =>
      match gzip raw with
      | Some compressed =>
        match FileCache.put (gzip_key path) compressed (size compressed) mt (sh_files sh) with
        | Some files => Some (Some (compressed, true), sh{{sh_files := files}})
        | None => None
        end
      | None => Some (Some (raw, false), sh)
      end
    end
  end.

Definition wants_gzip (req : HttpRequest) : bool :=
  match headers req !! lit "accept-encoding" with
  | Some v => bool_decide (is_Some (find_sub "gzip" v))
  | None => false
  end.

(** The response to a static file: with it, whether its body is compressed and
    the file that is sent after the queue. *)
Definition serve_file (path : bytes) (fd sz mt : Z) (req : HttpRequest) (resp : HttpResponse) (sh : Shared)
    : option (HttpResponse * bool * option FileSend * Shared) :=
  let type := get_content_type path in
  if sz <=? MAX_INLINE then
    let loaded := if wants_gzip req then load_gzip path fd sz mt sh
                  else match load_raw path fd sz mt sh with
                       | Some (text, sh) => Some ((λ t, (t, false)) <$> text, sh)
                       | None => None
                       end in
    match loaded with
    | None => None
    | Some (None, sh) => Some (html 500 "Internal Server Error" resp, false, None, sh)
    | Some (Some (text, compressed), sh) =>
      let resp := if compressed : bool then resp{{r_headers ::= <[lit "Content-Encoding" := lit "gzip"]>}} else resp in
      Some (with_body 200 "OK" type text resp, compressed, None, sh)
    end
  else
    Some ((with_body 200 "OK" type [] resp){{r_headers ::= <[lit "Content-Length" := to_string sz]>}}, false,
          Some (mkFile fd 0 sz), sh).

Definition static_fallback (t : FileClock) (req : HttpRequest) (resp : HttpResponse) (sh : Shared)
    : option (HttpResponse * bool * option FileSend * Shared) :=
  let path := if is_empty (HttpParser.path req) || (HttpParser.path req == "/") then lit "/index.html"
              else HttpParser.path req in
  if (HttpParser.method req != "GET") && (HttpParser.method req != "HEAD") then
    Some (html 405 "Method Not Allowed" resp, false, None, sh)
  else
    match is_safe_static_path (w_canonical w) "/" path (w_www_root w) with
    | None => Some (html 403 "Forbidden" resp, false, None, sh)
    | Some _ =>
      match open_cached path t sh with
      | None => None
      | Some (Missing, sh) => Some (html 404 "Not Found" resp, false, None, sh)
      | Some (Unopenable, sh) => Some (html 500 "Internal Server Error" resp, false, None, sh)
      | Some (Opened fd sz mt, sh) => serve_file path fd sz mt req resp sh
      end
    end.

(** The outcome of [send_response]; [Threw]: an exception left it, or the
    behaviour is undefined. *)
Inductive sent := Sent (c : Conn) (sh : Shared) | Proxied (composite : bool) (c : Conn) | Threw.

Definition base_response (src : TraceSource) (req : HttpRequest) : HttpResponse :=
  default_HttpResponse{{r_headers :=
    {[ lit "X-Trace-Id" := response_trace_id src req; lit "Traceparent" := response_traceparent (w_hash w) src req ]} }}.

Definition send_response (src : TraceSource) (t : FileClock) (req : HttpRequest) (matched : ResolvedRoute)
    (c : Conn) (sh : Shared) : sent :=
  let c := c{{last_request := Some req}} in
  let resp := base_response src req in
  match rs_route matched with
  | Some registered =>
    if rt_target_type (rr_route registered) == "upstream" then Proxied false c
    else if rt_target_type (rr_route registered) == "composite" then Proxied true c
    else
      match dispatch_route (w_dump w) (w_parse_json w) (w_version w) (w_metrics w) (w_canonical w) (w_read_file w)
              (w_www_root w) (health_snapshot (sh_upstreams sh)) req matched resp with
      | None => Threw
      | Some resp =>
        let resp := resp{{r_headers ::= <[lit "X-Trace-Id" := response_trace_id src req]>}} in
        let resp := resp{{r_headers ::= set_default "Traceparent" (response_traceparent (w_hash w) src req)}} in
        Sent (finalize_response (w_hash w) (w_version w) src req resp false c) sh
      end
  | None =>
    match static_fallback t req resp sh with
    | None => Threw
    | Some (resp, already_compressed, file, sh) =>
      let c := match file with Some f => c{{file_send := Some f}} | None => c end in
      Sent (finalize_response (w_hash w) (w_version w) src req resp already_compressed c) sh
    end
  end.

(** * Every response announces its length *)

Lemma with_body_announced code msg type text resp : announced (with_body code msg type text resp).
Proof. destruct resp. right. unfold with_body. fields. by rewrite lookup_insert_eq. Qed.

Lemma html_announced code status resp : announced (html code status resp).
Proof. destruct resp. right. unfold html, with_body. fields. by rewrite lookup_insert_eq. Qed.

Lemma error_announced code status msg : announced (Routes.make_error_response code status msg).
Proof.
  right. unfold Routes.make_error_response. fields. by rewrite lookup_insert_ne, lookup_insert_eq.
Qed.

Lemma dumped_announced code msg j tail resp resp' :
  dumped (w_dump w) code msg j tail resp = Some resp' → announced resp'.
Proof. unfold dumped. case_match; [|done]. intros [= <-]. apply with_body_announced. Qed.

Lemma run_handler_announced h snapshot req params resp resp' :
  run_handler (w_dump w) (w_parse_json w) (w_version w) (w_metrics w) h snapshot req params resp = Some resp' →
  announced resp'.
Proof.
  destruct h; cbn [run_handler]; cbv zeta; try apply dumped_announced;
    try (intros [= <-]; apply with_body_announced).
  - destruct (_ ≫= _) eqn:E; intros [= <-]; [|apply with_body_announced].
    apply bind_Some in E as (j & _ & E). by eapply dumped_announced.
  - case_match; [apply dumped_announced|done].
  - intros [= <-]. left. by destruct resp.
Qed.

Lemma dispatch_target_announced route req resp :
  announced (dispatch_target (w_canonical w) (w_read_file w) (w_www_root w) route req resp).
Proof.
  unfold dispatch_target, dispatch_static, not_found.
  repeat case_match; apply error_announced || apply with_body_announced.
Qed.

Lemma dispatch_route_announced snapshot req matched resp resp' :
  dispatch_route (w_dump w) (w_parse_json w) (w_version w) (w_metrics w) (w_canonical w) (w_read_file w)
    (w_www_root w) snapshot req matched resp = Some resp' → announced resp'.
Proof.
  unfold dispatch_route, not_found. repeat case_match; try apply run_handler_announced;
    intros [= <-]; apply dispatch_target_announced || apply with_body_announced.
Qed.

Lemma announced_insert (k v : bytes) resp :
  k ≠ "Content-Length" → announced resp → announced (resp{{r_headers ::= <[k := v]>}}).
Proof. intros Hk [E|E]; destruct resp; unfold announced in *; fields; [by left|]. right. by rewrite lookup_insert_ne. Qed.

Lemma announced_set_default (k v : bytes) resp :
  k ≠ "Content-Length" → announced resp → announced (resp{{r_headers ::= set_default k v}}).
Proof. intros Hk [E|E]; destruct resp; unfold announced in *; fields; [by left|]. right. by rewrite set_default_ne. Qed.

(** Either the body is announced, or a file of the announced size follows. *)
Definition file_announced (resp : HttpResponse) (file : option FileSend) : Prop :=
  match file with
  | None => announced resp
  | Some f => r_body resp = [] ∧ r_chunked resp = false ∧ f_offset f = 0 ∧ MAX_INLINE < f_size f ∧
              r_headers resp !! lit "Content-Length" = Some (to_string (f_size f))
  end.

Lemma serve_file_announced path fd sz mt req resp sh resp' z file sh' :
  r_chunked resp = false →
  serve_file path fd sz mt req resp sh = Some (resp', z, file, sh') → file_announced resp' file.
Proof.
  intros Hc. unfold serve_file. destruct (Z.leb_spec sz MAX_INLINE) as [_|Hsz].
  - destruct (if wants_gzip req then _ else _) as [ [ [ [text compressed]|] sh1]|]; [| |done]; intros [= <- <- <- <-];
      [apply with_body_announced|apply html_announced].
  - intros [= <- <- <- <-]. destruct resp. unfold file_announced, with_body. fields. split_and!; try done.
    by rewrite lookup_insert_eq.
Qed.

Lemma static_fallback_announced t req resp sh resp' z file sh' :
  r_chunked resp = false →
  static_fallback t req resp sh = Some (resp', z, file, sh') → file_announced resp' file.
Proof.
  intros Hc. unfold static_fallback. repeat (case_match; try done);
    solve [intros [= <- <- <- <-]; apply html_announced|by apply serve_file_announced].
Qed.
End static.

Lemma Sent_inj `{FileSystem} c sh c' sh' : Sent c sh = Sent c' sh' → c = c' ∧ sh = sh'.
Proof. by intros [= <- <-]. Qed.


(** * Shared descriptors *)

(** zlib storing its input. *)
Definition stored_zlib : Zlib.
Proof.
  refine {| zstream := bytes; deflateInit2 := Some; deflate := λ n s, Some (take n s, drop n s); pending := id |}.
  intros n s. by exists (drop n s).
Defined.

(** A file: its size, modification time and data; the rest of its bytes are zero. *)
Record PosixFile := mkPosixFile { pf_size : Z; pf_mtime : Z; pf_data : bytes }.

(** A file system with a table of open files and their positions. *)
Record PosixFs := mkFs {
  fs_files : gmap bytes PosixFile;
  fs_open : gmap Z (PosixFile * Z);
  fs_next : Z;
}.

Definition posix : FileSystem := {|
  fs_t := PosixFs;
  stat p fs := (λ f, (pf_size f, pf_mtime f)) <$> fs_files fs !! p;
  open_rdonly p fs :=
    match fs_files fs !! p with
    | Some f => Some (fs_next fs, mkFs (fs_files fs) (<[fs_next fs := (f, 0)]> (fs_open fs)) (fs_next fs + 1))
    | None => None
    end;
  read_fd fd n fs :=
    match fs_open fs !! fd with
    | None => (None, fs)
    | Some (f, pos) =>
      let n := Z.to_nat (Z.min n (pf_size f - pos)) in
      let left := drop (Z.to_nat pos) (pf_data f) in
      (Some (take n left ++ replicate (n - length left) Ascii.zero),
       mkFs (fs_files fs) (<[fd := (f, pos + Z.of_nat n)]> (fs_open fs)) (fs_next fs))
    end;
|}.

#[local] Existing Instance stored_zlib.
#[local] Existing Instance posix.

Definition sample_world : World :=
  mkWorld (λ _, 0) (λ _, None) (λ _, None) "1.0" [] Some (λ _, None) "/srv".

(** A worker over some files; the descriptors of the cache are trusted for [ttl] seconds. *)
Definition fresh_worker (cache_entries ttl : Z) (files : gmap bytes PosixFile) : Shared :=
  mkShared _ (manager_new default_RateLimitConfig) (manager_init default_UpstreamConfig) (fd_cache_new 8 ttl)
    (cache_new cache_entries 1) (mkFs files ∅ 10).

Definition get_request (path : bytes) : HttpRequest :=
  request_clear{{HttpParser.method := lit "GET"; HttpParser.path := path; trace_id := lit "t";
    headers := {[ lit "traceparent" := lit "tp" ]} }}.

(** One request for a static file on a new connection, at a time. *)
Definition get_static (now : Z) (path : bytes) (sh : Shared) : sent :=
  send_response sample_world (mkSource [] [] 0) (mkFileClock now now now) (get_request path)
    (mkResolved None ∅ false []) (on_connect true) sh.

(** A descriptor handed to a connection for a large file is closed under it
    when the file has been replaced and another client asks for it: the cache owns
    the descriptor and does not know that it is being sent. *)
Theorem descriptor_closed_in_use :
  let file mt := {[ lit "/srv/big.bin" := mkPosixFile (2 ^ 20 + 1) mt [] ]} in
  match get_static 100 "/big.bin" (fresh_worker 8 5 (file 1)) with
  | Sent c sh =>
    match get_static 200 "/big.bin" (sh{{sh_fs ::= fun fs => fs{{fs_files := file 2}} }}) with
    | Sent _ sh' => ∃ f, file_send c = Some f ∧ f_size f = 2 ^ 20 + 1 ∧ f_fd f ∈ closed (sh_fds sh')
    | _ => False
    end
  | _ => False
  end.
Proof. vm_compute. eexists. split_and!; [reflexivity|reflexivity|]. apply list_elem_of_here. Qed.

(** A small file is read once per descriptor, from the descriptor's own
    position. When its content has left the content cache but its descriptor is
    still cached, the next read is at the end of the file and the answer is 500. *)
Theorem cached_descriptor_read_twice :
  let file text := mkPosixFile (size text) 1 text in
  let sh0 := fresh_worker 1 60 {[ lit "/srv/a.txt" := file (lit "aaa"); lit "/srv/b.txt" := file (lit "bb") ]} in
  match get_static 100 "/a.txt" sh0 with
  | Sent c1 sh1 =>
    match get_static 101 "/b.txt" sh1 with
    | Sent _ sh2 =>
      match get_static 102 "/a.txt" sh2 with
      | Sent c3 _ => resp_status c1 = Some 200 ∧ resp_status c3 = Some 500
      | _ => False
      end
    | _ => False
    end
  | _ => False
  end.
Proof. by vm_compute. Qed.

