(* ===== verification/Proxy.v ===== *)
(** Requests that go to backends, [src/server/http_handler.cpp]: the exchanges a
    connection has in flight ([ChildExchange], [ExchangeState]), how they are
    started, driven, finished, retried, aggregated and abandoned. The exchange
    itself is [UpstreamExchange]; the answers of the kernel and the clock are the
    arguments of a call. *)

From S2P Require Import Prelude Search Config RateLimiter RouteUtils ApiKeyManager FileCache FdCache ConnectionPool HttpParser HttpResponse ConfigFile UpstreamManager Routes HttpClient UpstreamResponse UpstreamExchange Tracing Responder Admission StaticFiles.

#[local] Open Scope Z_scope.
#[local] Open Scope gateway_scope.

(** * State *)

Record ChildExchange := mkChild {
  ch_ex : option UpstreamExchange;
  ch_fd : option nat;
  ch_server : UpstreamServer;
  ch_upstream_key : bytes;
  ch_max_retries : Z;
  ch_failure_threshold : Z;
  ch_recovery_timeout_ms : Z;
  ch_attempt_count : Z;
  ch_finished : bool;
  ch_required : bool;
  ch_name : bytes;
  ch_item : gmap bytes json;
}.

Record ExchangeState := mkState {
  st_req : HttpRequest;
  st_children : list ChildExchange;
  st_composite : bool;
  st_route_name : bytes;
  st_composite_name : bytes;
  st_total_timeout_ms : Z;
  st_has_total_deadline : bool;
  st_total_deadline : Z;
  st_started : Z;
}.

(** A worker: what its connections share, the pool, the connections with their
    clients' addresses and the times of their last reads, the exchanges in flight and the owners of backend
    descriptors. Connections and descriptors are numbers. *)
Record Worker `{FileSystem} := mkWorker {
  wk_shared : Shared;
  wk_pool : ConnectionPool;
  wk_conns : gmap nat Conn;
  wk_ips : gmap nat bytes;
  wk_started : gmap nat Z;
  client_upstream_ : gmap nat ExchangeState;
  upstream_fd_owner_ : gmap nat (nat * nat);
}.

(** The answers a call of [drive_child] gets: the clock in [advance]'s handler and
    its turns, the clocks of [record_failure], [reuse_to_pool],
    [composite_elapsed_ms] and of the constructor of a replay, and the generators. *)
Record Drive := mkDrive {
  dv_now : Z;
  dv_turns : list Turn;
  dv_failed_at : Z;
  dv_pooled_at : Z;
  dv_elapsed_at : Z;
  dv_replay_at : Z;
  dv_source : TraceSource;
}.

(** A call returns, or an exception leaves it. *)
Inductive result (A : Type) := Ok (x : A) | Escaped (x : A).
#[global] Arguments Ok {A} x.
#[global] Arguments Escaped {A} x.

Definition ns_per_ms : Z := 10 ^ 6.

Definition composite_elapsed_ms (started now : Z) : Z := Z.quot (now - started) ns_per_ms.

Definition is_timeout (e : BackendError) : bool :=
  match e with ConnectTimeout | WriteTimeout | ReadTimeout => true | _ => false end.

Section proxy.
  Context `{HashOrder, Zlib, FileSystem} (w : World).

(** ** Accessors *)

(** [operator[]] of the maps: a missing connection has the default values. *)
Definition conn_of (client : nat) (wk : Worker) : Conn :=
  default ((on_connect false){{keep_alive := false}}) (wk_conns wk !! client).

Definition set_conn (client : nat) (c : Conn) (wk : Worker) : Worker := wk{{wk_conns ::= <[client := c]>}}.

Definition set_upstreams (m : UpstreamManager) (wk : Worker) : Worker :=
  wk{{wk_shared ::= fun sh => sh{{sh_upstreams := m}} }}.

Definition set_state (client : nat) (st : ExchangeState) (wk : Worker) : Worker :=
  wk{{client_upstream_ ::= <[client := st]>}}.

Definition child_of (client idx : nat) (wk : Worker) : option (ExchangeState * ChildExchange) :=
  match client_upstream_ wk !! client with
  | None => None
  | Some st => match st_children st !! idx with Some ch => Some (st, ch) | None => None end
  end.

Definition set_child (client idx : nat) (ch : ChildExchange) (wk : Worker) : Worker :=
  match client_upstream_ wk !! client with
  | None => wk
  | Some st => set_state client (st{{st_children ::= <[idx := ch]>}}) wk
  end.

(** [finalize_response] on the client, then [client_upstream_.erase(client)]. *)
Definition answer (client : nat) (src : TraceSource) (req : HttpRequest) (resp : HttpResponse) (wk : Worker) : Worker :=
  let c := finalize_response (w_hash w) (w_version w) src req resp false (conn_of client wk) in
  (set_conn client c wk){{client_upstream_ ::= delete client}}.

(** ** Aggregation *)

Definition item_status (ch : ChildExchange) : bytes :=
  match ch_item ch !! lit "status" with Some (JString s) => s | _ => [] end.

Definition child_failed (ch : ChildExchange) : bool :=
  ch_required ch && ((item_status ch == "failed") || (item_status ch == "unavailable")).

(** [composite[ch->name] = ch->item] in the order of the children. *)
Definition aggregate (children : list ChildExchange) : gmap bytes json :=
  foldl (λ m ch, <[ch_name ch := JObject (in_order (ch_item ch))]> m) ∅ children.

Definition composite_payload (st : ExchangeState) : json :=
  let required_failed := existsb child_failed (st_children st) in
  JObject (in_order
    (<[lit "dependencies" := JObject (in_order (aggregate (st_children st)))]>
      (<[lit "status" := JString (if required_failed then "partial_failure" else "ok")]>
        (<[lit "aggregate" := JString (st_composite_name st)]>
          {[ lit "route" := JString (st_route_name st) ]})))).

(** The exception of [dump] leaves the function before the state is erased. *)
Definition finalize_composite (client : nat) (src : TraceSource) (st : ExchangeState) (wk : Worker) : result Worker :=
  let required_failed := existsb child_failed (st_children st) in
  match w_dump w (composite_payload st) with
  | None => Escaped wk
  | Some text =>
    let resp := mkResponse (if required_failed then 503 else 200)
      (if required_failed then lit "Service Unavailable" else lit "OK")
      {[ lit "Content-Type" := lit "application/json"; lit "Content-Length" := to_string (size text) ]} text false in
    Ok (answer client src (st_req st) resp wk)
  end.

(** ** The end of an exchange *)

(** [epoll_.del], the owner and the child's descriptor. *)
Definition unregister (ch : ChildExchange) (wk : Worker) : ChildExchange * Worker :=
  match ch_fd ch with
  | Some fd => (ch{{ch_fd := None}}, wk{{upstream_fd_owner_ ::= delete fd}})
  | None => (ch, wk)
  end.

Definition record_outcome (x : UpstreamExchange) (ch : ChildExchange) (now : Z) (wk : Worker) : Worker :=
  let m := sh_upstreams (wk_shared wk) in
  set_upstreams
    (if succeeded_ x then record_success (ch_upstream_key ch) (ch_server ch) m
     else record_failure (ch_upstream_key ch) (ch_server ch) (ch_failure_threshold ch) now m) wk.

(** The entry of a finished dependency. *)
Definition child_item (x : UpstreamExchange) (ch : ChildExchange) (elapsed : Z) : gmap bytes json :=
  let item := <[lit "duration_ms" := JInt elapsed]> (ch_item ch) in
  let be := result_ x in
  if succeeded_ x then
    let ok := (200 <=? status_code be) && (status_code be <? 300) in
    let item := <[lit "timed_out" := JBool (status_code be =? 504)]>
      (<[lit "error" := JString (if ok then [] else resp_body be)]>
        (<[lit "backend" := JString (ch_upstream_key ch)]>
          (<[lit "http_status" := JInt (status_code be)]>
            (<[lit "status" := JString (if ok then "ok" else "failed")]> item)))) in
    if ok then <[lit "body" := JString (resp_body be)]> item else item
  else
    let timed_out := is_timeout (error be) in
    <[lit "timed_out" := JBool timed_out]>
      (<[lit "error" := JString (if timed_out then "upstream_timeout" else "upstream_unavailable")]>
        (<[lit "http_status" := JInt (if timed_out then 504 else 502)]>
          (<[lit "status" := JString "failed"]> item))).

Definition finish_composite_child (e : Drive) (client idx : nat) (st : ExchangeState) (ch : ChildExchange)
    (x : UpstreamExchange) (wk : Worker) : result Worker :=
  let ch := ch{{ch_item := child_item x ch (composite_elapsed_ms (st_started st) (dv_elapsed_at e)); ch_finished := true}} in
  let '(ch, wk) := unregister ch wk in
  let ch := ch{{ch_ex := None}} in
  let st := st{{st_children ::= <[idx := ch]>}} in
  let wk := set_state client st wk in
  if forallb ch_finished (st_children st) then finalize_composite client (dv_source e) st wk else Ok wk.

Definition upstream_error_response (e : BackendError) : HttpResponse :=
  if is_timeout e then Routes.make_error_response 504 "Gateway Timeout" "The upstream service timed out"
  else Routes.make_error_response 502 "Bad Gateway"
         "The upstream service returned an invalid response or could not be reached".

(** A new exchange with the same parameters. *)
Definition replayed (e : Drive) (ch : ChildExchange) (x : UpstreamExchange) : ChildExchange :=
  ch{{ch_attempt_count ::= Z.add 1;
      ch_ex := Some (exchange_init (params_ x) (is_idempotent (p_method (params_ x))) (dv_replay_at e))}}.

Definition should_replay (st : ExchangeState) (ch : ChildExchange) (x : UpstreamExchange) : bool :=
  (ch_attempt_count ch <? ch_max_retries ch) &&
  should_retry_backend_request (HttpParser.method (st_req st)) (error (result_ x)) (ch_attempt_count ch).

(** [finish_child]; [again] drives the child anew. *)
Definition finish_child (again : Worker → option (result Worker)) (e : Drive) (client idx : nat) (st : ExchangeState)
    (ch : ChildExchange) (x : UpstreamExchange) (wk : Worker) : option (result Worker) :=
  let wk := record_outcome x ch (dv_failed_at e) wk in
  if st_composite st then Some (finish_composite_child e client idx st ch x wk)
  else if succeeded_ x then
    let m := reuse_to_pool (dv_pooled_at e) (mkMachine x (wk_pool wk) []) in
    Some (Ok (answer client (dv_source e) (st_req st) (upstream_response (result_ x)) (wk{{wk_pool := global_pool m}})))
  else if should_replay st ch x then again (set_child client idx (replayed e ch x) wk)
  else Some (Ok (answer client (dv_source e) (st_req st) (upstream_error_response (error (result_ x))) wk)).

(** ** Driving *)

(** [drive_child]: one answer per call, the replays included; [None] if there are
    too few answers for the call to return. *)
Fixpoint drive_child (answers : list Drive) (events : Z) (client idx : nat) (wk : Worker) {struct answers}
    : option (result Worker) :=
  match answers with
  | [] => None
  | e :: answers' =>
    match child_of client idx wk with
    | None => Some (Ok wk)
    | Some (st, ch) =>
      match ch_ex ch with
      | None => Some (Ok wk)
      | Some x =>
        match advance events (dv_now e) (dv_turns e) (mkMachine x (wk_pool wk) []) with
        | (UpstreamExchange.Return want, m, _) =>
          let wk := wk{{wk_pool := global_pool m}} in
          let x := ex m in
          let ch := ch{{ch_ex := Some x}} in
          let '(ch, wk) := unregister ch wk in
          match want with
          | WantDone =>
            finish_child (drive_child answers' 0 client idx) e client idx (st{{st_children ::= <[idx := ch]>}}) ch x
              (set_child client idx ch wk)
          | _ =>
            match sock_ x with
            | Some fd =>
              Some (Ok (set_child client idx (ch{{ch_fd := Some fd}})
                          (wk{{upstream_fd_owner_ ::= <[fd := (client, idx)]>}})))
            | None => Some (Ok (set_child client idx ch wk))
            end
          end
        | (Raise, m, _) => Some (Escaped (set_child client idx (ch{{ch_ex := Some (ex m)}}) (wk{{wk_pool := global_pool m}})))
        | _ => None
        end
      end
    end
  end.

Definition drive_exchange (answers : list Drive) (client : nat) (events : Z) (wk : Worker) : option (result Worker) :=
  drive_child answers events client 0 wk.

Definition is_upstream_fd (fd : nat) (wk : Worker) : bool := bool_decide (is_Some (upstream_fd_owner_ wk !! fd)).

Definition on_upstream_event (answers : list Drive) (fd : nat) (events : Z) (wk : Worker) : option (result Worker) :=
  match upstream_fd_owner_ wk !! fd with
  | None => Some (Ok wk)
  | Some (client, idx) => drive_child answers events client idx wk
  end.

(** ** Abandoning *)

Definition force_finish_child (now : Z) (client idx : nat) (wk : Worker) : Worker :=
  match child_of client idx wk with
  | None => wk
  | Some (st, ch) =>
    if ch_finished ch then wk
    else
      let '(ch, wk) := unregister ch wk in
      let item :=
        <[lit "duration_ms" := JInt (composite_elapsed_ms (st_started st) now)]>
          (<[lit "timed_out" := JBool true]>
            (<[lit "error" := JString "upstream_timeout"]>
              (<[lit "http_status" := JInt 504]> (<[lit "status" := JString "failed"]> (ch_item ch))))) in
      set_child client idx (ch{{ch_ex := None; ch_item := item; ch_finished := true}}) wk
  end.

Definition abort_upstream_for_client (client : nat) (wk : Worker) : Worker :=
  match client_upstream_ wk !! client with
  | None => wk
  | Some st =>
    let owners := foldl (λ o ch, match ch_fd ch with Some fd => delete fd o | None => o end)
                    (upstream_fd_owner_ wk) (st_children st) in
    wk{{upstream_fd_owner_ := owners; client_upstream_ ::= delete client}}
  end.

(** [cleanup]: every entry of the connection, and its exchanges. *)
Definition cleanup_conn (client : nat) (wk : Worker) : Worker :=
  abort_upstream_for_client client (wk{{wk_conns ::= delete client; wk_ips ::= delete client; wk_started ::= delete client}}).

(** ** Starting *)

(** The answers the start of a request gets: the clock of [allow_request], of the
    constructor, and the generators. *)
Record Start := mkStart { sr_allow_at : Z; sr_init_at : Z; sr_source : TraceSource }.

Definition tls_options (server : UpstreamServer) : UpstreamTlsOptions :=
  mkTls (us_tls server) (us_tls_ca_file server) (us_tls_server_name server) (us_tls_skip_verify server).

(** The headers of the upstream hop. *)
Definition hop_headers (client_ip traceparent : bytes) (req : HttpRequest) : gmap bytes bytes :=
  inject_forwarded_headers client_ip (set_default "traceparent" traceparent (headers req)).

Definition has_servers (config : UpstreamConfig) (key : bytes) : bool :=
  match uc_upstreams config !! key with Some up => negb (is_empty (up_servers up)) | None => false end.

(** The server [pick_server] answers; [None]: it throws. *)
Definition picked (key : bytes) (m : UpstreamManager) : option UpstreamServer * UpstreamManager :=
  match pick_server key m with
  | (Some i, m') =>
    (match uc_upstreams (config_ m) !! key with Some up => up_servers up !! i | None => None end, m')
  | (None, m') => (None, m')
  end.

Definition upstream_child (server : UpstreamServer) (key : bytes) (route : GatewayRoute) (x : UpstreamExchange)
    : ChildExchange :=
  let t := rt_upstream_target route in
  mkChild (Some x) None server key (ut_max_retries t) (ut_circuit_failure_threshold t)
    (ut_circuit_recovery_timeout_ms t) 0 false true [] ∅.

(** The snapshot the exchange is built from. *)
Definition upstream_params (config : Config) (route : GatewayRoute) (server : UpstreamServer) (client_ip traceparent : bytes)
    (req : HttpRequest) : Params :=
  mkParams (us_host server) (us_port server) (HttpParser.method req) (HttpParser.path req)
    (hop_headers client_ip traceparent req) (body req) (ut_timeout_ms (rt_upstream_target route))
    (max_response_bytes config) (tls_options server).

Definition start_upstream_exchange (config : Config) (s : Start) (answers : list Drive) (client : nat)
    (req : HttpRequest) (route : GatewayRoute) (wk : Worker) : option (result Worker) :=
  let key := resolve_upstream_group_id route in
  let reply resp wk := set_conn client (finalize_response (w_hash w) (w_version w) (sr_source s) req resp false (conn_of client wk)) wk in
  if negb (has_servers (upstream_config config) key) then
    Some (Ok (reply (Routes.make_error_response 502 "Bad Gateway" "Bad Gateway: no upstream server") wk))
  else
    match picked key (sh_upstreams (wk_shared wk)) with
    | (None, m) => Some (Escaped (set_upstreams m wk))
    | (Some server, m) =>
      let t := rt_upstream_target route in
      let '(allowed, m) := allow_request key server (ut_circuit_recovery_timeout_ms t) (sr_allow_at s) m in
      let wk := set_upstreams m wk in
      if negb allowed then
        Some (Ok (reply (Routes.make_error_response 503 "Service Unavailable" "Upstream circuit is open") wk))
      else
        let ip := default [] (wk_ips wk !! client) in
        let traceparent := generate_traceparent (w_hash w) (fresh_parent_id (sr_source s)) [] [] (fresh_now (sr_source s)) in
        let params := upstream_params config route server ip traceparent req in
        let x := exchange_init params (is_idempotent (p_method params)) (sr_init_at s) in
        let st := mkState req [upstream_child server key route x] false [] [] 0 false 0 0 in
        drive_exchange answers client 0 (set_state client st wk)
    end.

(** The answers for one dependency: the clocks of [allow_request], of the
    constructor, of [composite_elapsed_ms], and the generators of its item. *)
Record DepStart := mkDepStart {
  ds_allow_at : Z; ds_init_at : Z; ds_elapsed_at : Z; ds_trace_id : bytes; ds_parent_id : bytes; ds_now : Z }.

Definition dep_item (d : DepStart) (req : HttpRequest) (dep : CompositeDependency) : gmap bytes json :=
  let id := if is_empty (trace_id req) then ds_trace_id d else trace_id req in
  let label := if is_empty (cd_name dep) then cd_upstream_name dep else cd_name dep in
  {[ lit "required" := JBool (cd_required dep); lit "upstream" := JString (cd_upstream_name dep);
     lit "method" := JString (cd_method dep); lit "path" := JString (cd_path dep);
     lit "trace_id" := JString id;
     lit "traceparent" := JString (generate_traceparent (w_hash w) (ds_parent_id d) id label (ds_now d));
     lit "attempts" := JInt 1; lit "timed_out" := JBool false ]}.

Definition item_text (k : bytes) (item : gmap bytes json) : bytes :=
  match item !! k with Some (JString s) => s | _ => [] end.

(** One dependency: its child, and whether it is live. [None]: [pick_server] throws. *)
Definition start_dependency (config : Config) (route : GatewayRoute) (client_ip : bytes) (req : HttpRequest)
    (started : Z) (d : DepStart) (dep : CompositeDependency) (m : UpstreamManager)
    : option ChildExchange * UpstreamManager :=
  let item := dep_item d req dep in
  let elapsed := JInt (composite_elapsed_ms started (ds_elapsed_at d)) in
  let threshold := ut_circuit_failure_threshold (rt_upstream_target route) in
  let blank := mkChild None None default_UpstreamServer (cd_upstream_name dep) 0 0 0 0 false (cd_required dep) (cd_name dep) in
  if is_empty (cd_upstream_name dep) || negb (has_servers (upstream_config config) (cd_upstream_name dep)) then
    let item := <[lit "duration_ms" := elapsed]>
      (<[lit "error" := JString (if cd_required dep then "missing_upstream" else "optional_dependency_missing")]>
        (<[lit "status" := JString "unavailable"]> item)) in
    (Some ((blank item){{ch_finished := true}}), m)
  else
    match picked (cd_upstream_name dep) m with
    | (None, m) => (None, m)
    | (Some server, m) =>
      let '(allowed, m) := allow_request (cd_upstream_name dep) server (cd_timeout_ms dep) (ds_allow_at d) m in
      let ch item := (blank item){{ch_server := server; ch_failure_threshold := threshold;
                                   ch_recovery_timeout_ms := cd_timeout_ms dep}} in
      if negb allowed then
        let item := <[lit "duration_ms" := elapsed]>
          (<[lit "error" := JString "circuit_open"]>
            (<[lit "http_status" := JInt 503]> (<[lit "status" := JString "failed"]> item))) in
        (Some ((ch item){{ch_finished := true}}), m)
      else
        let total := ct_total_timeout_ms (rt_composite_target route) in
        let timeout := if 0 <? total then Z.min (cd_timeout_ms dep) total else cd_timeout_ms dep in
        let params := mkParams (us_host server) (us_port server) (cd_method dep) (cd_path dep)
          (hop_headers client_ip (item_text "traceparent" item) req) (body req) timeout (max_response_bytes config)
          (tls_options server) in
        (Some ((ch item){{ch_ex := Some (exchange_init params (is_idempotent (cd_method dep)) (ds_init_at d))}}), m)
    end.

(** The dependencies in order, the [i]-th with its answers. *)
Fixpoint start_dependencies (config : Config) (route : GatewayRoute) (client_ip : bytes) (req : HttpRequest)
    (started : Z) (answers : nat → DepStart) (i : nat) (deps : list CompositeDependency) (m : UpstreamManager)
    : option (list ChildExchange) * UpstreamManager :=
  match deps with
  | [] => (Some [], m)
  | dep :: deps' =>
    match start_dependency config route client_ip req started (answers i) dep m with
    | (None, m) => (None, m)
    | (Some ch, m) =>
      match start_dependencies config route client_ip req started answers (S i) deps' m with
      | (Some chs, m) => (Some (ch :: chs), m)
      | (None, m) => (None, m)
      end
    end
  end.

(** The children with an exchange. *)
Definition live_children (chs : list ChildExchange) : list nat :=
  (λ p, p.1) <$> List.filter (λ p, bool_decide (is_Some (ch_ex p.2))) (imap pair chs).

(** [for (idx : live)]: each child once, as long as the state is there. *)
Fixpoint drive_live (answers : nat → list Drive) (live : list nat) (client : nat) (wk : Worker) : option (result Worker) :=
  match live with
  | [] => Some (Ok wk)
  | idx :: live' =>
    match client_upstream_ wk !! client with
    | None => Some (Ok wk)
    | Some _ =>
      match drive_child (answers idx) 0 client idx wk with
      | Some (Ok wk) => drive_live answers live' client wk
      | r => r
      end
    end
  end.

Definition start_composite_exchange (config : Config) (started : Z) (deps : nat → DepStart) (src : TraceSource)
    (answers : nat → list Drive) (client : nat) (client_ip : bytes) (req : HttpRequest) (route : GatewayRoute)
    (wk : Worker) : option (result Worker) :=
  let target := rt_composite_target route in
  match start_dependencies config route client_ip req started deps 0 (ct_dependencies target) (sh_upstreams (wk_shared wk)) with
  | (None, m) => Some (Escaped (set_upstreams m wk))
  | (Some chs, m) =>
    let total := ct_total_timeout_ms target in
    let st := mkState req chs true (rt_name route) (ct_name target) total (0 <? total) (started + total * ns_per_ms) started in
    let wk := set_state client st (set_upstreams m wk) in
    let live := live_children chs in
    if is_empty live then Some (finalize_composite client src st wk)
    else drive_live answers live client wk
  end.

(** ** Deadlines *)

(** The clock, in milliseconds, until a deadline; [static_cast<int>] of a count
    that fits. *)
Definition remaining_ms (now deadline : Z) : Z := Z.max 0 (Z.quot (deadline - now) ns_per_ms).

Definition live_exchange (ch : ChildExchange) : option UpstreamExchange := if ch_finished ch then None else ch_ex ch.

Definition child_deadlines (st : ExchangeState) : list Z := deadline_ <$> omap live_exchange (st_children st).

Definition deadlines (st : ExchangeState) : list Z :=
  (if st_composite st && st_has_total_deadline st then [st_total_deadline st] else []) ++ child_deadlines st.

Definition poll_timeout_ms (now : Z) (states : gmap nat ExchangeState) : Z :=
  foldl (λ best d, Z.min best (remaining_ms now d)) 1000 (concat (deadlines <$> (map_to_list states).*2)).

Definition total_expired (now : Z) (st : ExchangeState) : bool :=
  st_composite st && st_has_total_deadline st && (st_total_deadline st <=? now).

Definition is_due (now : Z) (st : ExchangeState) : bool :=
  total_expired now st || existsb (λ d, d <=? now) (child_deadlines st).

(** The inner loop over the children of one client: [n] of them from index [i]. *)
Fixpoint drive_expired (now : Z) (answers : nat → list Drive) (n client i : nat) (wk : Worker) : option (result Worker) :=
  match n with
  | O => Some (Ok wk)
  | S n' =>
    match child_of client i wk with
    | None => Some (Ok wk)
    | Some (_, ch) =>
      match live_exchange ch with
      | Some x =>
        if deadline_ x <=? now then
          match drive_child (answers i) 0 client i wk with
          | Some (Ok wk) => drive_expired now answers n' client (S i) wk
          | r => r
          end
        else drive_expired now answers n' client (S i) wk
      | None => drive_expired now answers n' client (S i) wk
      end
    end
  end.

(** The answers for one client that is due: the clocks of the forced children,
    the generators, and the answers for its children. *)
Record Due := mkDue { du_forced_at : nat → Z; du_source : TraceSource; du_answers : nat → list Drive }.

Fixpoint force_all (times : nat → Z) (n client i : nat) (wk : Worker) : Worker :=
  match n with
  | O => wk
  | S n' => force_all times n' client (S i) (force_finish_child (times i) client i wk)
  end.

Definition check_client (now : Z) (d : Due) (client : nat) (wk : Worker) : option (result Worker) :=
  match client_upstream_ wk !! client with
  | None => Some (Ok wk)
  | Some st =>
    if total_expired now st then
      let wk := force_all (du_forced_at d) (length (st_children st)) client 0 wk in
      match client_upstream_ wk !! client with
      | Some st => Some (finalize_composite client (du_source d) st wk)
      | None => Some (Ok wk)
      end
    else drive_expired now (du_answers d) (length (st_children st)) client 0 wk
  end.

Fixpoint check_clients (now : Z) (answers : nat → Due) (due : list nat) (wk : Worker) : option (result Worker) :=
  match due with
  | [] => Some (Ok wk)
  | client :: due' =>
    match check_client now (answers client) client wk with
    | Some (Ok wk) => check_clients now answers due' wk
    | r => r
    end
  end.

(** The clients in [order], the order of the map. *)
Definition due_clients (now : Z) (order : list nat) (wk : Worker) : list nat :=
  List.filter (λ client, match client_upstream_ wk !! client with Some st => is_due now st | None => false end) order.

Definition check_upstream_timeouts (now : Z) (answers : nat → Due) (order : list nat) (wk : Worker)
    : option (result Worker) :=
  check_clients now answers (due_clients now order wk) wk.
End proxy.
