(* ===== verification/ProxyInvariant.v ===== *)
(** Invariants of the exchanges in flight: the owners of backend descriptors, the
    shape of the states, the number of tries, the timer and the deadline of a
    composite. *)

From S2P Require Import Prelude Search Config RateLimiter RouteUtils ApiKeyManager FileCache FdCache ConnectionPool HttpParser HttpResponse ConfigFile UpstreamManager Routes HttpClient UpstreamResponse UpstreamExchange Tracing Responder Admission StaticFiles Proxy.

#[local] Open Scope Z_scope.
#[local] Open Scope gateway_scope.

(** * The links between descriptors and exchanges *)

Abbreviation states_t := (gmap nat ExchangeState).
Abbreviation owners_t := (gmap nat (nat * nat)).

(** Every entry of [upstream_fd_owner_] leads to a state, and there to the child
    that has the descriptor. *)
Definition links (S : states_t) (O : owners_t) : Prop :=
  ∀ fd client idx, O !! fd = Some (client, idx) →
  ∃ st ch, S !! client = Some st ∧ st_children st !! idx = Some ch ∧ ch_fd ch = Some fd.

(** The entries of one child, and of one client, are gone. *)
Definition unowned (O : owners_t) (client idx : nat) : Prop := ∀ fd, O !! fd ≠ Some (client, idx).

Lemma links_delete_fd S O fd : links S O → links S (delete fd O).
Proof. intros H fd' c i [_ E]%lookup_delete_Some. by apply H. Qed.

Lemma unowned_delete O fd client idx : unowned O client idx → unowned (delete fd O) client idx.
Proof. intros H fd' [_ E]%lookup_delete_Some. by apply (H fd'). Qed.

Lemma links_set_child S O client idx st ch ch' :
  links S O → S !! client = Some st → st_children st !! idx = Some ch →
  (∀ fd, O !! fd = Some (client, idx) → ch_fd ch' = Some fd) →
  ∀ st', st_children st' = <[idx := ch']> (st_children st) → links (<[client := st']> S) O.
Proof.
  intros HL HS Hc Hfd st' Hst' fd c i E. destruct (HL _ _ _ E) as (st0 & ch0 & E1 & E2 & E3).
  destruct (decide (c = client)) as [->|Hne].
  - simplify_eq. exists st'. rewrite lookup_insert_eq, Hst'.
    destruct (decide (i = idx)) as [->|Hni].
    + exists ch'. rewrite list_lookup_insert_eq by (by eapply lookup_lt_Some). auto.
    + exists ch0. by rewrite list_lookup_insert_ne.
  - exists st0, ch0. by rewrite lookup_insert_ne.
Qed.

Lemma links_delete_client S O client :
  links S O → (∀ idx, unowned O client idx) → links (delete client S) O.
Proof.
  intros HL Hno fd c i E. destruct (HL _ _ _ E) as (st & ch & E1 & E2 & E3).
  assert (client ≠ c) by (intros ->; by apply (Hno i fd)). exists st, ch. by rewrite lookup_delete_ne.
Qed.

Lemma links_new_client S O client st :
  links S O → S !! client = None → links (<[client := st]> S) O.
Proof.
  intros HL HS fd c i E. destruct (HL _ _ _ E) as (st0 & ch & E1 & E2 & E3).
  exists st0, ch. by rewrite lookup_insert_ne by congruence.
Qed.

Lemma links_unowned S O client st :
  links S O → S !! client = Some st → Forall (λ ch, ch_fd ch = None) (st_children st) → ∀ idx, unowned O client idx.
Proof.
  intros HL HS Hall idx fd E. destruct (HL _ _ _ E) as (st0 & ch & E1 & E2 & E3). simplify_eq.
  rewrite Forall_forall in Hall. specialize (Hall ch (list_elem_of_lookup_2 _ _ _ E2)). congruence.
Qed.

Lemma links_absent S O client : links S O → S !! client = None → ∀ idx, unowned O client idx.
Proof. intros HL HS idx fd E. destruct (HL _ _ _ E) as (st0 & ch & E1 & _). congruence. Qed.

(** Deleting the descriptor a child has leaves it without an entry. *)
Definition drop_fd (fd : option nat) (O : owners_t) : owners_t := match fd with Some fd => delete fd O | None => O end.

Lemma links_drop_fd S O fd : links S O → links S (drop_fd fd O).
Proof. destruct fd; [apply links_delete_fd|done]. Qed.

Lemma unowned_drop_fd S O client idx st ch :
  links S O → S !! client = Some st → st_children st !! idx = Some ch → unowned (drop_fd (ch_fd ch) O) client idx.
Proof.
  intros HL HS Hc fd E. assert (O !! fd = Some (client, idx) ∧ ch_fd ch ≠ Some fd) as [EO Hne].
  { destruct (ch_fd ch) as [fd0|]; simpl in E; [|done]. apply lookup_delete_Some in E as [? ?]. split; congruence. }
  destruct (HL _ _ _ EO) as (st0 & ch0 & E1 & E2 & E3). congruence.
Qed.

Lemma links_register S O client idx st st' ch ch' fd :
  links S O → S !! client = Some st → st_children st !! idx = Some ch → unowned O client idx →
  ch_fd ch' = Some fd → st_children st' = <[idx := ch']> (st_children st) →
  links (<[client := st']> S) (<[fd := (client, idx)]> O).
Proof.
  intros HL HS Hc Hno Hfd Hst' fd' c i. rewrite lookup_insert_Some. intros [[<- [= <- <-]]|[Hne E]].
  - exists st', ch'. rewrite lookup_insert_eq, Hst', list_lookup_insert_eq by (by eapply lookup_lt_Some). auto.
  - eapply links_set_child; [exact HL|exact HS|exact Hc| |exact Hst'|exact E]. intros fd0 E0. by destruct (Hno fd0).
Qed.

(** * The shape of a state *)

(** A finished child has no exchange, a child without exchange no descriptor, and
    the tries are within both bounds. *)
Record child_ok (ch : ChildExchange) : Prop := {
  co_finished : ch_finished ch = true → ch_ex ch = None;
  co_fd : ch_ex ch = None → ch_fd ch = None;
  co_status : ch_finished ch = true → item_status ch ∈ [lit "ok"; lit "failed"; lit "unavailable"];
  co_tries : 0 <= ch_attempt_count ch <= Z.min 2 (Z.max 0 (ch_max_retries ch));
}.

Record state_ok (st : ExchangeState) : Prop := {
  so_children : Forall child_ok (st_children st);
  so_single : st_composite st = false → length (st_children st) = 1%nat;
}.

(** The status of an item that was just set. *)
Ltac item_lookup :=
  unfold item_status; cbn [ch_item];
  repeat (rewrite lookup_insert_ne by done); rewrite lookup_insert_eq; set_solver.

Section invariant.
  Context `{HashOrder, Zlib, FileSystem}.

Record proxy_inv (wk : Worker) : Prop := {
  pi_links : links (client_upstream_ wk) (upstream_fd_owner_ wk);
  pi_states : map_Forall (λ _, state_ok) (client_upstream_ wk);
}.

(** The maps the invariant is about. *)
Definition maps (wk : Worker) : states_t * owners_t := (client_upstream_ wk, upstream_fd_owner_ wk).

Lemma proxy_inv_maps wk wk' : maps wk = maps wk' → proxy_inv wk → proxy_inv wk'.
Proof. unfold maps. intros E [HL HS]. injection E as E1 E2. rewrite E1, E2 in *. by split. Qed.

Lemma maps_set_conn client c wk : maps (set_conn client c wk) = maps wk.
Proof. by destruct wk. Qed.

Lemma maps_set_upstreams m wk : maps (set_upstreams m wk) = maps wk.
Proof. by destruct wk. Qed.

Lemma maps_set_pool p wk : maps (wk{{wk_pool := p}}) = maps wk.
Proof. by destruct wk. Qed.

Lemma maps_record_outcome x ch now wk : maps (record_outcome x ch now wk) = maps wk.
Proof. apply maps_set_upstreams. Qed.

Lemma answer_inv w client src req resp wk :
  proxy_inv wk → (∀ idx, unowned (upstream_fd_owner_ wk) client idx) → proxy_inv (answer w client src req resp wk).
Proof.
  intros [HL HS] Hno. unfold answer, set_conn. destruct wk. cbn in *. split; cbn.
  - by apply links_delete_client.
  - by apply map_Forall_delete.
Qed.

Definition holds (P : Worker → Prop) (r : result Worker) : Prop := match r with Ok wk | Escaped wk => P wk end.

Lemma child_of_Some client idx (wk : Worker) st ch :
  child_of client idx wk = Some (st, ch) ↔
  client_upstream_ wk !! client = Some st ∧ st_children st !! idx = Some ch.
Proof. unfold child_of. destruct (client_upstream_ wk !! client) as [st0|]; [|naive_solver]. case_match; naive_solver. Qed.

Lemma children_set st l : st_children (st{{st_children := l}}) = l.
Proof. by destruct st. Qed.

Lemma set_child_maps client idx ch (wk : Worker) st :
  client_upstream_ wk !! client = Some st →
  maps (set_child client idx ch wk) =
    (<[client := st{{st_children := <[idx := ch]> (st_children st)}}]> (client_upstream_ wk), upstream_fd_owner_ wk).
Proof. intros E. unfold set_child. rewrite E. by destruct wk, st. Qed.

Lemma set_child_states client idx ch (wk : Worker) st :
  client_upstream_ wk !! client = Some st →
  client_upstream_ (set_child client idx ch wk) =
    <[client := st{{st_children := <[idx := ch]> (st_children st)}}]> (client_upstream_ wk).
Proof. intros E. exact (f_equal fst (set_child_maps client idx ch wk st E)). Qed.

Lemma state_ok_child st idx ch :
  state_ok st → child_ok ch → state_ok (st{{st_children := <[idx := ch]> (st_children st)}}).
Proof.
  intros [Hall Hone] Hch. destruct st. split; cbn in *.
  - by apply Forall_insert.
  - by rewrite length_insert.
Qed.

(** Replacing a child whose entries, if any, are right for the new one. *)
Lemma set_child_inv_fd client idx ch ch' (wk : Worker) st :
  proxy_inv wk → child_of client idx wk = Some (st, ch) →
  (∀ fd, upstream_fd_owner_ wk !! fd = Some (client, idx) → ch_fd ch' = Some fd) →
  child_ok ch' → proxy_inv (set_child client idx ch' wk).
Proof.
  intros [HL HS] [Es Ec]%child_of_Some Hfd Hok.
  pose proof (set_child_maps client idx ch' wk st Es) as E. unfold maps in E. injection E as E1 E2.
  split; rewrite E1, ?E2.
  - eapply links_set_child; [exact HL|exact Es|exact Ec|exact Hfd|apply children_set].
  - apply map_Forall_insert_2; [|done]. apply state_ok_child; [by apply (HS client)|done].
Qed.

Lemma set_child_inv client idx ch ch' (wk : Worker) st :
  proxy_inv wk → child_of client idx wk = Some (st, ch) → unowned (upstream_fd_owner_ wk) client idx →
  child_ok ch' → proxy_inv (set_child client idx ch' wk).
Proof. intros Hinv Hch Hno. eapply set_child_inv_fd; [done|done|]. intros fd E. by destruct (Hno fd). Qed.

Lemma child_ok_of client idx (wk : Worker) st ch : proxy_inv wk → child_of client idx wk = Some (st, ch) → child_ok ch.
Proof.
  intros [_ HS] [Es Ec]%child_of_Some. destruct (HS _ _ Es) as [Hall _].
  rewrite Forall_forall in Hall. by eapply Hall, list_elem_of_lookup_2.
Qed.

Lemma unowned_child client idx (wk : Worker) st ch :
  proxy_inv wk → child_of client idx wk = Some (st, ch) → ch_fd ch = None → unowned (upstream_fd_owner_ wk) client idx.
Proof.
  intros [HL _] [Es Ec]%child_of_Some Hfd fd E. destruct (HL _ _ _ E) as (st0 & ch0 & E1 & E2 & E3). congruence.
Qed.

(** A client whose children have no descriptors. *)
Lemma unowned_client client (wk : Worker) st :
  proxy_inv wk → client_upstream_ wk !! client = Some st → Forall (λ ch, ch_fd ch = None) (st_children st) →
  ∀ idx, unowned (upstream_fd_owner_ wk) client idx.
Proof. intros [HL _] Es Hall. by eapply links_unowned. Qed.

Lemma finished_no_fd st :
  state_ok st → forallb ch_finished (st_children st) = true → Forall (λ ch, ch_fd ch = None) (st_children st).
Proof.
  intros [Hall _] Hfin. apply Forall_forall. intros ch Hin. rewrite Forall_forall in Hall.
  rewrite forallb_forall in Hfin. apply (co_fd _ (Hall _ Hin)), (co_finished _ (Hall _ Hin)).
  by apply Hfin, list_elem_of_In.
Qed.

Lemma single_no_fd st idx ch :
  state_ok st → st_composite st = false → st_children st !! idx = Some ch → ch_fd ch = None →
  Forall (λ ch, ch_fd ch = None) (st_children st).
Proof.
  intros [_ Hone] Hc Hi Hfd. specialize (Hone Hc). destruct (st_children st) as [|ch0 [|]]; try done.
  destruct idx; [|done]. simplify_eq/=. by constructor.
Qed.

Lemma finalize_composite_inv w client src st (wk : Worker) :
  proxy_inv wk → client_upstream_ wk !! client = Some st → Forall (λ ch, ch_fd ch = None) (st_children st) →
  holds proxy_inv (finalize_composite w client src st wk).
Proof.
  intros Hinv Es Hfd. unfold finalize_composite. case_match; [|done]. cbn [holds]. apply answer_inv; [done|].
  by eapply unowned_client.
Qed.

Lemma unregister_spec ch (wk : Worker) :
  let '(ch', wk') := unregister ch wk in
  ch' = ch{{ch_fd := None}} ∧ maps wk' = (client_upstream_ wk, drop_fd (ch_fd ch) (upstream_fd_owner_ wk)).
Proof. unfold unregister. destruct ch as [? [fd|]], wk; done. Qed.

(** A backend call that counts as a success of its dependency. *)
Definition dep_succeeded (x : UpstreamExchange) : bool :=
  succeeded_ x && (200 <=? status_code (result_ x)) && (status_code (result_ x) <? 300).

Lemma child_item_status x ch n :
  child_item x ch n !! lit "status" = Some (JString (if dep_succeeded x then "ok" else "failed")).
Proof.
  unfold child_item, dep_succeeded. destruct (succeeded_ x); cbn [andb].
  - destruct (_ && _); repeat (rewrite lookup_insert_ne by done); apply lookup_insert_eq.
  - repeat (rewrite lookup_insert_ne by done). apply lookup_insert_eq.
Qed.

Lemma finish_composite_child_inv w e client idx st ch x (wk : Worker) :
  proxy_inv wk → child_of client idx wk = Some (st, ch) → ch_fd ch = None →
  holds proxy_inv (finish_composite_child w e client idx st ch x wk).
Proof.
  intros Hinv Hch Hfd. unfold finish_composite_child. set (item := child_item _ _ _).
  pose proof (child_ok_of _ _ _ _ _ Hinv Hch) as [_ _ _ Htries].
  set (ch1 := ch{{ch_item := item; ch_finished := true}}).
  assert (unregister ch1 wk = (ch1, wk)) as -> by (unfold unregister, ch1; destruct ch; cbn in *; by rewrite Hfd).
  set (ch2 := ch1{{ch_ex := None}}).
  assert (child_ok ch2) as Hok2.
  { assert (item_status ch2 = if dep_succeeded x then "ok" else "failed") as Est.
    { unfold item_status. replace (ch_item ch2) with item by by destruct ch. unfold item. by rewrite child_item_status. }
    split; [by destruct ch|by destruct ch| |by destruct ch]. intros _. rewrite Est. destruct (dep_succeeded x); set_solver. }
  apply child_of_Some in Hch as Hch'. destruct Hch' as [Es Ec].
  set (st2 := st{{st_children ::= _}}).
  assert (set_state client st2 wk = set_child client idx ch2 wk) as -> by (unfold set_child; by rewrite Es).
  assert (proxy_inv (set_child client idx ch2 wk)) as Hinv2.
  { eapply set_child_inv; [done|done| |done]. by eapply unowned_child. }
  case_match eqn:Hfin; [|done].
  assert (client_upstream_ (set_child client idx ch2 wk) !! client = Some st2) as Es2.
  { rewrite (set_child_states client idx ch2 wk st Es), lookup_insert_eq. unfold st2. by destruct st. }
  apply finalize_composite_inv; [done|done|]. apply finished_no_fd; [by apply (pi_states _ Hinv2 client)|done].
Qed.

Lemma live_unfinished ch : child_ok ch → ch_ex ch ≠ None → ch_finished ch = false.
Proof. intros [Hf _ _ _] Hx. destruct (ch_finished ch); [by destruct Hx, Hf|done]. Qed.

Lemma replayed_ok e st ch x :
  child_ok ch → ch_ex ch ≠ None → should_replay st ch x = true → child_ok (replayed e ch x).
Proof.
  intros Hok Hx Hr. pose proof (live_unfinished _ Hok Hx) as Hf. destruct Hok as [_ _ _ Ht].
  unfold should_replay, should_retry_backend_request in Hr.
  apply andb_true_iff in Hr as [Hlt Hr]. destruct (2 <=? ch_attempt_count ch) eqn:E2; [done|].
  bool_props. destruct ch. unfold replayed. split; cbn in *; [congruence|done|congruence|lia].
Qed.

Lemma finish_child_inv w again e client idx st ch x (wk : Worker) r :
  (∀ wk' r', proxy_inv wk' → again wk' = Some r' → holds proxy_inv r') →
  proxy_inv wk → child_of client idx wk = Some (st, ch) → ch_fd ch = None → ch_ex ch ≠ None →
  finish_child w again e client idx st ch x wk = Some r → holds proxy_inv r.
Proof.
  intros Hagain Hinv0 Hch0 Hfd Hx. unfold finish_child.
  pose proof (maps_record_outcome x ch (dv_failed_at e) wk) as Em.
  set (wk1 := record_outcome x ch (dv_failed_at e) wk) in *. clearbody wk1.
  assert (proxy_inv wk1) as Hinv by (by eapply proxy_inv_maps).
  assert (child_of client idx wk1 = Some (st, ch)) as Hch.
  { unfold maps in Em. injection Em as E _. apply child_of_Some. rewrite E. by apply child_of_Some. }
  clear Hinv0 Hch0 Em wk. pose proof (child_ok_of _ _ _ _ _ Hinv Hch) as Hok.
  pose proof (proj1 (child_of_Some _ _ _ _ _) Hch) as [Es Ec].
  assert (∀ p resp src, st_composite st = false →
    proxy_inv (answer w client src (st_req st) resp (wk1{{wk_pool := p}}))) as Hanswer.
  { intros p resp src Hc. apply answer_inv; [by eapply proxy_inv_maps; [symmetry; apply maps_set_pool|]|].
    assert (upstream_fd_owner_ (wk1{{wk_pool := p}}) = upstream_fd_owner_ wk1) as -> by by destruct wk1.
    eapply unowned_client; [done|done|]. eapply single_no_fd; [by apply (pi_states _ Hinv client)|done|done|done]. }
  destruct (st_composite st) eqn:Hc.
  { intros [= <-]. by apply finish_composite_child_inv. }
  destruct (succeeded_ x); [intros [= <-]; by apply Hanswer|].
  destruct (should_replay st ch x) eqn:Hr.
  - apply Hagain. eapply set_child_inv; [done|done|by eapply unowned_child|by apply (replayed_ok e st)].
  - intros [= <-]. specialize (Hanswer (wk_pool wk1) (upstream_error_response (error (result_ x))) (dv_source e) eq_refl).
    by replace (wk1{{wk_pool := wk_pool wk1}}) with wk1 in Hanswer by by destruct wk1.
Qed.

Lemma child_of_set_child client idx ch' (wk : Worker) st ch :
  child_of client idx wk = Some (st, ch) →
  child_of client idx (set_child client idx ch' wk) = Some (st{{st_children := <[idx := ch']> (st_children st)}}, ch').
Proof.
  intros [Es Ec]%child_of_Some. apply child_of_Some.
  rewrite (set_child_states client idx ch' wk st Es), lookup_insert_eq. split; [done|]. rewrite children_set. apply list_lookup_insert_eq.
  by eapply lookup_lt_Some.
Qed.

(** After [epoll_.del] of its descriptor a child has no entry left. *)
Lemma drop_fd_inv client idx st ch (wk wk' : Worker) :
  proxy_inv wk → child_of client idx wk = Some (st, ch) →
  maps wk' = (client_upstream_ wk, drop_fd (ch_fd ch) (upstream_fd_owner_ wk)) →
  proxy_inv wk' ∧ child_of client idx wk' = Some (st, ch) ∧ unowned (upstream_fd_owner_ wk') client idx.
Proof.
  intros [HL HS] Hch E. unfold maps in E. injection E as E1 E2.
  apply child_of_Some in Hch as [Es Ec]. split_and!.
  - split; rewrite E1, ?E2; [by apply links_drop_fd|done].
  - apply child_of_Some. by rewrite E1.
  - rewrite E2. by eapply unowned_drop_fd.
Qed.

(** A descriptor is registered for a child without one. *)
Lemma register_inv client idx st ch ch' fd (wk : Worker) :
  proxy_inv wk → child_of client idx wk = Some (st, ch) → unowned (upstream_fd_owner_ wk) client idx →
  child_ok ch' → ch_fd ch' = Some fd →
  proxy_inv (set_child client idx ch' (wk{{upstream_fd_owner_ ::= <[fd := (client, idx)]>}})).
Proof.
  intros [HL HS] [Es Ec]%child_of_Some Hno Hok Hfd.
  set (wk' := wk{{upstream_fd_owner_ ::= _}}).
  assert (client_upstream_ wk' = client_upstream_ wk ∧
    upstream_fd_owner_ wk' = <[fd := (client, idx)]> (upstream_fd_owner_ wk)) as [E1 E2] by by destruct wk.
  pose proof (set_child_maps client idx ch' wk' st) as E. rewrite E1, E2 in E. specialize (E Es).
  unfold maps in E. injection E as F1 F2. split; rewrite F1, ?F2.
  - eapply links_register; [exact HL|exact Es|exact Ec|exact Hno|exact Hfd|apply children_set].
  - apply map_Forall_insert_2; [|done]. apply state_ok_child; [by apply (HS client)|done].
Qed.

Lemma drive_child_inv w answers ev client idx (wk : Worker) r :
  proxy_inv wk → drive_child w answers ev client idx wk = Some r → holds proxy_inv r.
Proof.
  revert ev wk r. induction answers as [|e answers IH]; intros ev wk r Hinv; cbn [drive_child]; [done|].
  destruct (child_of client idx wk) as [ [st ch]|] eqn:Hch; [|by intros [= <-] ].
  destruct (ch_ex ch) as [x|] eqn:Hx; [|by intros [= <-] ].
  pose proof (child_ok_of _ _ _ _ _ Hinv Hch) as Hok.
  assert (ch_finished ch = false) as Hf by (apply live_unfinished; [done|by rewrite Hx]).
  assert (∀ x' fd, child_ok (ch{{ch_ex := Some x'; ch_fd := fd}})) as Hok'.
  { intros x' fd. destruct Hok as [_ _ _ Ht], ch. split; cbn in *; congruence || done. }
  destruct (advance _ _ _ _) as [ [f m] rest]. destruct f as [|want| |]; try done.
  - set (wk1 := wk{{wk_pool := _}}). set (ch1 := ch{{ch_ex := Some (ex m)}}).
    pose proof (unregister_spec ch1 wk1) as Hun. destruct (unregister ch1 wk1) as [ch2 wk2].
    destruct Hun as [Ech Em2]. assert (ch2 = ch{{ch_ex := Some (ex m); ch_fd := None}}) as -> by (rewrite Ech; unfold ch1; by destruct ch).
    assert (maps wk2 = (client_upstream_ wk, drop_fd (ch_fd ch) (upstream_fd_owner_ wk))) as Em3
      by (rewrite Em2; unfold ch1, wk1; by destruct wk, ch).
    destruct (drop_fd_inv _ _ _ _ _ _ Hinv Hch Em3) as (Hinv2 & Hch2 & Hno2). clear Em2 Em3 Ech.
    set (ch2 := ch{{ch_ex := Some (ex m); ch_fd := None}}).
    assert (proxy_inv (set_child client idx ch2 wk2)) as Hinv3 by (eapply set_child_inv; [done|done|done|apply Hok']).
    pose proof (child_of_set_child client idx ch2 wk2 st ch Hch2) as Hch3.
    assert (∀ fd, proxy_inv (set_child client idx (ch2{{ch_fd := Some fd}})
      (wk2{{upstream_fd_owner_ ::= <[fd := (client, idx)]>}}))) as Hreg.
    { intros fd. eapply register_inv; [done|done|done| |by destruct ch].
      replace (ch2{{ch_fd := Some fd}}) with (ch{{ch_ex := Some (ex m); ch_fd := Some fd}}) by by destruct ch.
      apply Hok'. }
    destruct want; [destruct (sock_ (ex m)); intros <-%(inj Some); by try apply Hreg|
      destruct (sock_ (ex m)); intros <-%(inj Some); by try apply Hreg|].
    apply finish_child_inv; [by apply IH|done| |by destruct ch|by destruct ch]. rewrite Hch3. by destruct st.
  - intros <-%(inj Some). set (wk1 := wk{{wk_pool := _}}).
    assert (proxy_inv wk1) as Hinv1 by (eapply proxy_inv_maps; [symmetry; apply maps_set_pool|done]).
    assert (child_of client idx wk1 = Some (st, ch)) as Hch1 by by destruct wk.
    eapply set_child_inv_fd; [done|exact Hch1| |].
    + intros fd Hfd. destruct (pi_links _ Hinv1 _ _ _ Hfd) as (st0 & ch0 & E1 & E2 & E3).
      apply child_of_Some in Hch1 as [F1 F2]. simplify_eq. by destruct ch.
    + replace (ch{{ch_ex := Some (ex m)}}) with (ch{{ch_ex := Some (ex m); ch_fd := ch_fd ch}}) by by destruct ch.
      apply Hok'.
Qed.

(** ** The other operations *)

Lemma set_state_new_inv client st (wk : Worker) :
  proxy_inv wk → client_upstream_ wk !! client = None → state_ok st → proxy_inv (set_state client st wk).
Proof.
  intros [HL HS] E Hok. unfold set_state. destruct wk. split; cbn in *.
  - by apply links_new_client.
  - by apply map_Forall_insert_2.
Qed.

Lemma set_upstreams_inv m (wk : Worker) : proxy_inv wk → proxy_inv (set_upstreams m wk).
Proof. apply proxy_inv_maps. symmetry. apply maps_set_upstreams. Qed.

Lemma set_conn_inv client c (wk : Worker) : proxy_inv wk → proxy_inv (set_conn client c wk).
Proof. apply proxy_inv_maps. symmetry. apply maps_set_conn. Qed.

Lemma set_upstreams_states m (wk : Worker) : client_upstream_ (set_upstreams m wk) = client_upstream_ wk.
Proof. by destruct wk. Qed.

Lemma start_upstream_inv w config s answers client req route (wk : Worker) r :
  proxy_inv wk → client_upstream_ wk !! client = None →
  start_upstream_exchange w config s answers client req route wk = Some r → holds proxy_inv r.
Proof.
  intros Hinv Hnew. unfold start_upstream_exchange. case_match; [intros <-%(inj Some); by apply set_conn_inv|].
  destruct (picked _ _) as [ [server|] m]; [|intros <-%(inj Some); by apply set_upstreams_inv].
  destruct (allow_request _ _ _ _ _) as [allowed m']. case_match.
  { intros <-%(inj Some). by apply set_conn_inv, set_upstreams_inv. }
  apply drive_child_inv. apply set_state_new_inv; [by apply set_upstreams_inv|by rewrite set_upstreams_states|].
  split; [|done]. constructor; [|done]. split; cbn; [done|done|done|lia].
Qed.

Lemma start_dependency_ok w config route ip req started d dep m ch m' :
  start_dependency w config route ip req started d dep m = (Some ch, m') →
  child_ok ch ∧ ch_fd ch = None ∧ (ch_ex ch = None → ch_finished ch = true).
Proof.
  unfold start_dependency. case_match; [intros [= <- _]; split; [split; cbn; try done|done]; intros _; item_lookup|].
  destruct (picked _ _) as [ [server|] m1]; [|done]. destruct (allow_request _ _ _ _ _) as [allowed m2].
  case_match; intros [= <- _]; (split; [split; cbn; try done|done]). intros _. item_lookup.
Qed.

Lemma start_dependencies_ok w config route ip req started answers i deps m chs m' :
  start_dependencies w config route ip req started answers i deps m = (Some chs, m') →
  Forall (λ ch, child_ok ch ∧ ch_fd ch = None ∧ (ch_ex ch = None → ch_finished ch = true)) chs ∧
  length chs = length deps.
Proof.
  revert i m chs m'. induction deps as [|dep deps IH]; intros i m chs m'; cbn [start_dependencies]; [by intros [= <- _]|].
  destruct (start_dependency _ _ _ _ _ _ _ _ _) as [ [ch|] m1] eqn:E; [|done].
  destruct (start_dependencies _ _ _ _ _ _ _ _ _ _) as [ [chs'|] m2] eqn:E'; [|done]. intros [= <- _].
  apply start_dependency_ok in E. apply IH in E' as [? ?]. split; [by constructor|]. simpl. by f_equal.
Qed.

Lemma drive_live_inv w answers live client (wk : Worker) r :
  proxy_inv wk → drive_live w answers live client wk = Some r → holds proxy_inv r.
Proof.
  revert wk. induction live as [|idx live IH]; intros wk Hinv; cbn [drive_live]; [by intros [= <-]|].
  destruct (client_upstream_ wk !! client); [|by intros [= <-] ].
  destruct (drive_child _ _ _ _ _ _) as [ [wk'|wk']|] eqn:E; [|by intros [= <-]; eapply (drive_child_inv _ _ _ _ _ _ _ Hinv E)|done].
  apply IH. by apply (drive_child_inv _ _ _ _ _ _ _ Hinv E).
Qed.

Lemma start_composite_inv w config started deps src answers client ip req route (wk : Worker) r :
  proxy_inv wk → client_upstream_ wk !! client = None →
  start_composite_exchange w config started deps src answers client ip req route wk = Some r → holds proxy_inv r.
Proof.
  intros Hinv Hnew. unfold start_composite_exchange.
  destruct (start_dependencies _ _ _ _ _ _ _ _ _ _) as [ [chs|] m] eqn:E; [|intros <-%(inj Some); by apply set_upstreams_inv].
  apply start_dependencies_ok in E as [Hall _]. set (st := mkState _ _ _ _ _ _ _ _ _).
  assert (Forall (λ ch, ch_fd ch = None) chs) as Hfd by (eapply Forall_impl; [exact Hall|]; naive_solver).
  assert (proxy_inv (set_state client st (set_upstreams m wk))) as Hinv2.
  { apply set_state_new_inv; [by apply set_upstreams_inv|by rewrite set_upstreams_states|].
    split; [|done]. eapply Forall_impl; [exact Hall|]; naive_solver. }
  case_match; [|by apply drive_live_inv]. intros <-%(inj Some). apply finalize_composite_inv; [done| |done].
  destruct wk. cbn. by rewrite lookup_insert_eq.
Qed.

Lemma force_finish_child_inv now client idx (wk : Worker) :
  proxy_inv wk → proxy_inv (force_finish_child now client idx wk).
Proof.
  intros Hinv. unfold force_finish_child. destruct (child_of client idx wk) as [ [st ch]|] eqn:Hch; [|done].
  case_match; [done|]. pose proof (unregister_spec ch wk) as Hun. destruct (unregister ch wk) as [ch1 wk1].
  destruct Hun as [-> Em]. destruct (drop_fd_inv _ _ _ _ _ _ Hinv Hch Em) as (Hinv1 & Hch1 & Hno1).
  pose proof (child_ok_of _ _ _ _ _ Hinv Hch) as [_ _ _ Ht].
  eapply set_child_inv; [done|done|done|]. destruct ch. split; cbn; try done. intros _. item_lookup.
Qed.

(** What forcing one child does to the state of its client. *)
Lemma force_finish_child_state now client idx (wk : Worker) st :
  client_upstream_ wk !! client = Some st →
  ∃ st', client_upstream_ (force_finish_child now client idx wk) !! client = Some st' ∧
    length (st_children st') = length (st_children st) ∧
    ∀ j ch, st_children st !! j = Some ch →
      if decide (j = idx) then ∃ ch', st_children st' !! j = Some ch' ∧ ch_finished ch' = true
      else st_children st' !! j = Some ch.
Proof.
  intros Es. unfold force_finish_child. destruct (child_of client idx wk) as [ [st0 ch0]|] eqn:Hch.
  2: { exists st. split; [done|]. split; [done|]. intros j ch Hj. case_decide; [|done]. subst.
       by rewrite (proj2 (child_of_Some client idx wk st ch)) in Hch. }
  pose proof (proj1 (child_of_Some _ _ _ _ _) Hch) as [Es0 Ec0]. rewrite Es in Es0. injection Es0 as <-.
  destruct (ch_finished ch0) eqn:Hf.
  { exists st. split; [done|]. split; [done|]. intros j ch Hj. case_decide; [|done]. subst. simplify_eq. eauto. }
  pose proof (unregister_spec ch0 wk) as Hun. destruct (unregister ch0 wk) as [ch1 wk1]. destruct Hun as [_ Em].
  assert (client_upstream_ wk1 !! client = Some st) as Es1 by (unfold maps in Em; injection Em as -> _; done).
  set (ch2 := ch1{{ch_ex := None; ch_item := _; ch_finished := true}}).
  rewrite (set_child_states client idx ch2 wk1 st Es1). eexists. rewrite lookup_insert_eq. split; [done|]. rewrite children_set, length_insert. split; [done|].
  intros j ch Hj. case_decide as Hd; [|by rewrite list_lookup_insert_ne].
  subst j. exists ch2. split; [|by destruct ch1]. apply list_lookup_insert_eq. by eapply lookup_lt_Some.
Qed.

Lemma force_all_inv times n client i (wk : Worker) st :
  proxy_inv wk → client_upstream_ wk !! client = Some st → (i + n)%nat = length (st_children st) →
  (∀ j ch, (j < i)%nat → st_children st !! j = Some ch → ch_finished ch = true) →
  let wk' := force_all times n client i wk in
  proxy_inv wk' ∧ ∃ st', client_upstream_ wk' !! client = Some st' ∧ length (st_children st') = length (st_children st) ∧
    forallb ch_finished (st_children st') = true.
Proof.
  revert i wk st. induction n as [|n IH]; intros i wk st Hinv Es Hlen Hdone; cbn [force_all].
  - split; [done|]. exists st. split; [done|]. split; [done|]. apply forallb_forall. intros ch Hin.
    apply list_elem_of_In, list_elem_of_lookup in Hin as [j Hj]. eapply Hdone; [|done].
    apply lookup_lt_Some in Hj. lia.
  - destruct (force_finish_child_state (times i) client i wk st Es) as (st1 & Es1 & Hl1 & Hch1).
    destruct (IH (S i) (force_finish_child (times i) client i wk) st1) as [Hinv' (st' & E1 & E2 & E3)].
    + by apply force_finish_child_inv.
    + done.
    + lia.
    + intros j ch Hj Ej. destruct (lookup_lt_is_Some_2 (st_children st) j) as [ch0 E0].
      { apply lookup_lt_Some in Ej. lia. }
      specialize (Hch1 j ch0 E0). case_decide; [naive_solver|]. simplify_eq. eapply Hdone; [|done]. lia.
    + split; [done|]. exists st'. by rewrite E2.
Qed.

Lemma drive_expired_inv w now answers n client i (wk : Worker) r :
  proxy_inv wk → drive_expired w now answers n client i wk = Some r → holds proxy_inv r.
Proof.
  revert i wk. induction n as [|n IH]; intros i wk Hinv; cbn [drive_expired]; [by intros [= <-]|].
  destruct (child_of client i wk) as [ [st ch]|]; [|by intros [= <-] ].
  destruct (live_exchange ch) as [x|]; [|by apply IH]. case_match; [|by apply IH].
  destruct (drive_child _ _ _ _ _ _) as [ [wk'|wk']|] eqn:E; [|by intros [= <-]; eapply (drive_child_inv _ _ _ _ _ _ _ Hinv E)|done].
  apply IH. by apply (drive_child_inv _ _ _ _ _ _ _ Hinv E).
Qed.

Lemma check_client_inv w now d client (wk : Worker) r :
  proxy_inv wk → check_client w now d client wk = Some r → holds proxy_inv r.
Proof.
  intros Hinv. unfold check_client. destruct (client_upstream_ wk !! client) as [st|] eqn:Es; [|by intros [= <-] ].
  case_match; [|by apply drive_expired_inv].
  destruct (force_all_inv (du_forced_at d) (length (st_children st)) client 0 wk st) as [Hinv' (st' & Es' & _ & Hfin)];
    [done|done|done|lia|].
  rewrite Es'. intros <-%(inj Some). apply finalize_composite_inv; [done|done|].
  apply finished_no_fd; [by apply (pi_states _ Hinv' client)|done].
Qed.

Lemma check_clients_inv w now answers due (wk : Worker) r :
  proxy_inv wk → check_clients w now answers due wk = Some r → holds proxy_inv r.
Proof.
  revert wk. induction due as [|client due IH]; intros wk Hinv; cbn [check_clients]; [by intros [= <-]|].
  destruct (check_client _ _ _ _ _) as [ [wk'|wk']|] eqn:E; [|by intros [= <-]; eapply (check_client_inv _ _ _ _ _ _ Hinv E)|done].
  apply IH. by apply (check_client_inv _ _ _ _ _ _ Hinv E).
Qed.

Lemma foldl_drop_fd (chs : list ChildExchange) (O : owners_t) fd v :
  foldl (λ o ch, match ch_fd ch with Some fd => delete fd o | None => o end) O chs !! fd = Some v →
  O !! fd = Some v ∧ ∀ ch, ch ∈ chs → ch_fd ch ≠ Some fd.
Proof.
  revert O. induction chs as [|ch chs IH]; intros O; cbn [foldl]; [set_solver|]. intros [E Hall]%IH.
  split.
  - destruct (ch_fd ch); [|done]. by apply lookup_delete_Some in E as [_ ?].
  - intros ch' [->|Hin]%elem_of_cons; [|by apply Hall]. intros Ef. rewrite Ef in E. by rewrite lookup_delete_eq in E.
Qed.

Lemma abort_inv client (wk : Worker) : proxy_inv wk → proxy_inv (abort_upstream_for_client client wk).
Proof.
  intros [HL HS]. unfold abort_upstream_for_client. destruct (client_upstream_ wk !! client) as [st|] eqn:Es; [|done].
  destruct wk. split; cbn in *; [|by apply map_Forall_delete].
  apply links_delete_client.
  - intros fd c i [E _]%foldl_drop_fd. by apply HL.
  - intros idx fd [E Hno]%foldl_drop_fd. destruct (HL _ _ _ E) as (st0 & ch & E1 & E2 & E3). simplify_eq.
    by apply (Hno ch); [eapply list_elem_of_lookup_2|].
Qed.

Lemma cleanup_inv client (wk : Worker) : proxy_inv wk → proxy_inv (cleanup_conn client wk).
Proof. intros Hinv. apply abort_inv. by destruct Hinv, wk. Qed.
End invariant.

(** * Runs *)

(** The calls a worker makes. A request is started on a connection that has none in flight. *)
Inductive proxy_step `{HashOrder, Zlib, FileSystem} (w : World) : Worker → result Worker → Prop :=
| PStart config s answers client req route wk r :
    client_upstream_ wk !! client = None →
    start_upstream_exchange w config s answers client req route wk = Some r → proxy_step w wk r
| PStartComposite config started deps src answers client ip req route wk r :
    client_upstream_ wk !! client = None →
    start_composite_exchange w config started deps src answers client ip req route wk = Some r → proxy_step w wk r
| PEvent answers fd events wk r : on_upstream_event w answers fd events wk = Some r → proxy_step w wk r
| PTimeouts now answers order wk r : check_upstream_timeouts w now answers order wk = Some r → proxy_step w wk r
| PCleanup client wk : proxy_step w wk (Ok (cleanup_conn client wk))
| PConn client c wk : proxy_step w wk (Ok (set_conn client c wk)).

Inductive proxy_run `{HashOrder, Zlib, FileSystem} (w : World) (wk : Worker) : Worker → Prop :=
| run_here : proxy_run w wk wk
| run_step wk1 r wk2 : proxy_run w wk wk1 → proxy_step w wk1 r → r = Ok wk2 ∨ r = Escaped wk2 → proxy_run w wk wk2.

Lemma proxy_step_inv `{HashOrder, Zlib, FileSystem} w wk r : proxy_inv wk → proxy_step w wk r → holds proxy_inv r.
Proof.
  intros Hinv Hstep. destruct Hstep as [| |answers fd events wk r E|now answers order wk r E| |].
  - by eapply start_upstream_inv.
  - by eapply start_composite_inv.
  - unfold on_upstream_event in E. destruct (upstream_fd_owner_ wk !! fd) as [ [client idx]|].
    + by eapply drive_child_inv.
    + by injection E as <-.
  - unfold check_upstream_timeouts in E. exact (check_clients_inv _ _ _ _ _ _ Hinv E).
  - by apply cleanup_inv.
  - by apply set_conn_inv.
Qed.

Lemma proxy_run_inv `{HashOrder, Zlib, FileSystem} w wk wk' : proxy_inv wk → proxy_run w wk wk' → proxy_inv wk'.
Proof.
  intros Hinv. induction 1 as [|wk1 r wk2 _ IH Hs Hr]; [done|]. apply proxy_step_inv in Hs; [|done].
  by destruct Hr as [-> | ->].
Qed.

(** A worker before its first request. *)
Definition idle_worker `{FileSystem} (sh : Shared) (pool : ConnectionPool) : Worker := mkWorker _ sh pool ∅ ∅ ∅ ∅ ∅.

Lemma idle_inv `{FileSystem} sh pool : proxy_inv (idle_worker sh pool).
Proof. split; cbn; [intros fd c i E; by rewrite lookup_empty in E|apply map_Forall_empty]. Qed.

