(* ===== verification/ProxyProperties.v ===== *)
(** What the proxy promises: the wait of the event loop, the overall deadline of a
    composite, its verdict, and three places where it falls short: an abandoned
    probe, a body that is not UTF-8, the query string. *)

From S2P Require Import Prelude Search Config RateLimiter RouteUtils ApiKeyManager FileCache FdCache ConnectionPool HttpParser HttpResponse ConfigFile UpstreamManager Routes HttpClient UpstreamResponse UpstreamExchange Tracing HttpRoundtrip Responder Admission StaticFiles Proxy ProxyInvariant.

#[local] Open Scope Z_scope.
#[local] Open Scope gateway_scope.

(** * The wait of the event loop *)

Lemma foldl_min_spec (f : Z → Z) (l : list Z) b :
  let r := foldl (λ best d, Z.min best (f d)) b l in
  r <= b ∧ (∀ d, d ∈ l → r <= f d) ∧ (r = b ∨ ∃ d, d ∈ l ∧ r = f d).
Proof.
  revert b. induction l as [|d l IH]; intros b; simpl; [set_solver by lia|].
  destruct (IH (Z.min b (f d))) as (H1 & H2 & H3). split_and!; [lia| |].
  - intros d' [->|Hin]%elem_of_cons; [lia|by apply H2].
  - destruct H3 as [H3|(d' & Hd & H3)]; [|right; exists d'; set_solver].
    rewrite H3. destruct (Z.min_spec b (f d)) as [ [_ ->]|[_ ->] ]; [by left|right; exists d; set_solver].
Qed.

Lemma elem_of_deadlines (states : gmap nat ExchangeState) d :
  d ∈ concat (deadlines <$> (map_to_list states).*2) ↔ ∃ client st, states !! client = Some st ∧ d ∈ deadlines st.
Proof.
  rewrite list_elem_of_In, in_concat. setoid_rewrite <-list_elem_of_In. split.
  - intros (l & Hl & Hd). apply list_elem_of_fmap in Hl as (st & -> & Hst).
    apply list_elem_of_fmap in Hst as ([client st'] & -> & Hst). apply elem_of_map_to_list in Hst. eauto.
  - intros (client & st & E & Hd). exists (deadlines st). split; [|done]. apply list_elem_of_fmap. exists st.
    split; [done|]. apply list_elem_of_fmap. exists (client, st). split; [done|]. by apply elem_of_map_to_list.
Qed.

(** The wait handed to [epoll_wait] is between nothing and a second, is never
    longer than what is left of any deadline of an exchange in flight, and is
    exactly the shortest of these, so no backend timeout is slept through. *)
Theorem poll_timeout_correct now (states : gmap nat ExchangeState) :
  let r := poll_timeout_ms now states in
  0 <= r <= 1000 ∧
  (∀ client st d, states !! client = Some st → d ∈ deadlines st → r <= remaining_ms now d) ∧
  (r = 1000 ∨ ∃ client st d, states !! client = Some st ∧ d ∈ deadlines st ∧ r = remaining_ms now d).
Proof.
  intros r. destruct (foldl_min_spec (remaining_ms now) (concat (deadlines <$> (map_to_list states).*2)) 1000)
    as (H1 & H2 & H3). fold (poll_timeout_ms now states) in H1, H2, H3. fold r in H1, H2, H3.
  assert (∀ d, 0 <= remaining_ms now d) as Hpos by (intros d; unfold remaining_ms; lia).
  split_and!; try lia.
  - destruct H3 as [->|(d & _ & ->)]; [lia|apply Hpos].
  - intros client st d E Hd. apply H2, elem_of_deadlines. eauto.
  - destruct H3 as [H3|(d & Hd & H3)]; [by left|right]. apply elem_of_deadlines in Hd. naive_solver.
Qed.

(** * Abandoned probes *)

(** The answers of [allow_request] to a sequence of calls, each with its
    recovery timeout and its time. *)
Fixpoint allow_all (key : bytes) (server : UpstreamServer) (calls : list (Z * Z)) (m : UpstreamManager) : list bool :=
  match calls with
  | [] => []
  | (recovery, now) :: calls' =>
    let '(ok, m') := allow_request key server recovery now m in ok :: allow_all key server calls' m'
  end.

Lemma allow_all_probing key server calls m :
  open (circuit (circuit_key key server) m) = true → half_open_probe (circuit (circuit_key key server) m) = true →
  Forall (λ ok, ok = false) (allow_all key server calls m).
Proof.
  revert m. induction calls as [|[recovery now] calls IH]; intros m Ho Hp; cbn [allow_all]; [constructor|].
  unfold allow_request, circuit_allow. rewrite Ho, Hp. cbn [negb]. rewrite orb_true_r. constructor; [done|].
  apply IH; unfold circuit, set_circuit in *; destruct m; cbn; by rewrite lookup_insert_eq.
Qed.

Lemma cleanup_upstreams `{FileSystem} client (wk : Worker) : wk_shared (cleanup_conn client wk) = wk_shared wk.
Proof. unfold cleanup_conn, abort_upstream_for_client. destruct wk. cbn. by case_match. Qed.

(** While a backend's circuit is half open with its one probe in flight, a
    client that goes away takes the probe with it: no outcome is recorded, and
    every later request to that backend is refused, at whatever time it comes. *)
Theorem abandoned_probe_blocks `{FileSystem} key server client (wk : Worker) calls :
  let m := sh_upstreams (wk_shared wk) in
  open (circuit (circuit_key key server) m) = true → half_open_probe (circuit (circuit_key key server) m) = true →
  Forall (λ ok, ok = false) (allow_all key server calls (sh_upstreams (wk_shared (cleanup_conn client wk)))).
Proof. intros m Ho Hp. rewrite cleanup_upstreams. by apply allow_all_probing. Qed.

(** * The verdict of a composite *)

Lemma finalize_status hash version `{HashOrder, Zlib} src req resp z c :
  resp_status (finalize_response hash version src req resp z c) =
  Some (r_status_code (framed_response hash version src req z (keep_alive c) resp)).
Proof. unfold finalize_response. destruct c. by repeat case_match. Qed.

Lemma framed_status hash version `{HashOrder, Zlib} src req z alive resp :
  r_status_code (framed_response hash version src req z alive resp) = r_status_code resp.
Proof.
  unfold framed_response, chunk_response, compress_response, common_headers. destruct resp.
  repeat (case_match; try done); by cbn.
Qed.

Section composite.
  Context `{HashOrder, Zlib, FileSystem} (w : World).

Lemma conn_of_answer client src req resp (wk : Worker) :
  conn_of client (answer w client src req resp wk) =
  finalize_response (w_hash w) (w_version w) src req resp false (conn_of client wk).
Proof. unfold answer, set_conn, conn_of at 1. destruct wk. cbn. by rewrite lookup_insert_eq. Qed.

Lemma answer_status client src req resp (wk : Worker) :
  resp_status (conn_of client (answer w client src req resp wk)) = Some (r_status_code resp) ∧
  client_upstream_ (answer w client src req resp wk) !! client = None.
Proof.
  split; [by rewrite conn_of_answer, finalize_status, framed_status|].
  unfold answer, set_conn. destruct wk. apply lookup_delete_eq.
Qed.

Lemma finalize_composite_status client src st (wk wk' : Worker) :
  finalize_composite w client src st wk = Ok wk' →
  resp_status (conn_of client wk') = Some (if existsb child_failed (st_children st) then 503 else 200) ∧
  client_upstream_ wk' !! client = None.
Proof.
  unfold finalize_composite. case_match; [|done]. intros Heq. injection Heq as <-.
  apply (answer_status client src (st_req st)).
Qed.

(** A finished child counts against the composite unless its status is [ok]. *)
Lemma child_failed_spec ch :
  child_ok ch → ch_finished ch = true → child_failed ch = true ↔ ch_required ch = true ∧ item_status ch ≠ "ok".
Proof.
  intros Hok Hf. pose proof (co_status _ Hok Hf) as Hs. unfold child_failed.
  rewrite andb_true_iff, orb_true_iff, !bool_decide_eq_true.
  rewrite !elem_of_cons in Hs. destruct Hs as [->|[->|[->|Hs%elem_of_nil]]]; naive_solver.
Qed.

(** The state once the last child has finished with exchange [x]. *)
Definition finished_child (e : Drive) (st : ExchangeState) (ch : ChildExchange) (x : UpstreamExchange) : ChildExchange :=
  ch{{ch_item := child_item x ch (composite_elapsed_ms (st_started st) (dv_elapsed_at e)); ch_finished := true; ch_ex := None}}.

Definition last_state (e : Drive) (idx : nat) (st : ExchangeState) (ch : ChildExchange) (x : UpstreamExchange)
    : ExchangeState := st{{st_children ::= <[idx := finished_child e st ch x]>}}.

Lemma finish_last e client idx st ch x (wk : Worker) :
  child_of client idx wk = Some (st, ch) → ch_fd ch = None →
  (∀ j ch', j ≠ idx → st_children st !! j = Some ch' → ch_finished ch' = true) →
  finish_composite_child w e client idx st ch x wk =
    finalize_composite w client (dv_source e) (last_state e idx st ch x)
      (set_state client (last_state e idx st ch x) wk) ∧
  forallb ch_finished (st_children (last_state e idx st ch x)) = true.
Proof.
  intros Hch Hfd Hrest. pose proof (proj1 (child_of_Some _ _ _ _ _) Hch) as [Es Ec].
  assert (forallb ch_finished (st_children (last_state e idx st ch x)) = true) as Hall.
  { apply forallb_forall. intros ch' Hin. apply list_elem_of_In, list_elem_of_lookup in Hin as [j Hj].
    replace (st_children (last_state e idx st ch x)) with (<[idx := finished_child e st ch x]> (st_children st)) in Hj
      by by destruct st.
    destruct (decide (j = idx)) as [->|Hne].
    - rewrite list_lookup_insert_eq in Hj by (by eapply lookup_lt_Some). injection Hj as <-. by destruct ch.
    - rewrite list_lookup_insert_ne in Hj by done. by eapply Hrest. }
  split; [|done]. unfold finish_composite_child.
  set (ch1 := ch{{ch_item := _; ch_finished := true}}).
  assert (unregister ch1 wk = (ch1, wk)) as -> by (unfold unregister, ch1; destruct ch; cbn in *; by rewrite Hfd).
  replace (ch1{{ch_ex := None}}) with (finished_child e st ch x) by by destruct ch.
  fold (last_state e idx st ch x). by rewrite Hall.
Qed.

Lemma finished_status e st ch x :
  item_status (finished_child e st ch x) = (if dep_succeeded x then lit "ok" else lit "failed") ∧
  ch_required (finished_child e st ch x) = ch_required ch ∧ ch_name (finished_child e st ch x) = ch_name ch.
Proof. unfold item_status. destruct ch. cbn. rewrite child_item_status. by destruct (dep_succeeded x). Qed.

Lemma finished_child_failed e st ch x :
  child_failed (finished_child e st ch x) = ch_required ch && negb (dep_succeeded x).
Proof.
  destruct (finished_status e st ch x) as (Es & Er & _). unfold child_failed. rewrite Es, Er. by destruct (dep_succeeded x).
Qed.
End composite.


(** * Bodies that are not UTF-8 *)

(** A string that occurs as a value. *)
Fixpoint mentions (s : bytes) (j : json) : bool :=
  match j with
  | JString t => s == t
  | JArray l => existsb (mentions s) l
  | JObject m => existsb (λ kv, mentions s kv.2) m
  | _ => false
  end.

Lemma mentions_member (s k : bytes) (j : json) (m : gmap bytes json) : m !! k = Some j → mentions s j = true → mentions s (JObject (in_order m)) = true.
Proof.
  intros E Hj. cbn [mentions]. apply existsb_exists. exists (k, j). split; [|done].
  by apply list_elem_of_In, elem_of_in_order.
Qed.

Lemma aggregate_lookup chs ch :
  NoDup (ch_name <$> chs) → ch ∈ chs → aggregate chs !! ch_name ch = Some (JObject (in_order (ch_item ch))).
Proof.
  unfold aggregate. generalize (∅ : gmap bytes json). induction chs as [|c chs IH]; intros m Hnd Hin; [set_solver|].
  cbn [foldl]. rewrite fmap_cons, NoDup_cons in Hnd. destruct Hnd as [Hc Hnd].
  apply elem_of_cons in Hin as [->|Hin]; [|by apply IH]. clear IH Hnd.
  assert (∀ m' : gmap bytes json, m' !! ch_name c = Some (JObject (in_order (ch_item c))) →
    foldl (λ m ch, <[ch_name ch := JObject (in_order (ch_item ch))]> m) m' chs !! ch_name c =
    Some (JObject (in_order (ch_item c)))) as Hkeep.
  { induction chs as [|c' chs IH]; intros m' E; cbn [foldl]; [done|]. rewrite fmap_cons, not_elem_of_cons in Hc.
    destruct Hc as [Hne Hc]. apply IH; [done|]. by rewrite lookup_insert_ne. }
  apply Hkeep, lookup_insert_eq.
Qed.

(** nlohmann's [dump] throws on a string that is not UTF-8. A backend of a
    composite that answers 2xx with such a body makes the aggregation of the last
    dependency throw out of the event loop, with the client still unanswered. *)
Theorem composite_body_escapes `{HashOrder, Zlib, FileSystem} w e client idx st ch x (wk : Worker) :
  (∀ j, mentions (resp_body (result_ x)) j = true → w_dump w j = None) →
  child_of client idx wk = Some (st, ch) → ch_fd ch = None →
  (∀ j ch', j ≠ idx → st_children st !! j = Some ch' → ch_finished ch' = true) →
  NoDup (ch_name <$> st_children st) → dep_succeeded x = true →
  ∃ wk', finish_composite_child w e client idx st ch x wk = Escaped wk' ∧
    is_Some (client_upstream_ wk' !! client) ∧ wk_conns wk' = wk_conns wk.
Proof.
  intros Hdump Hch Hfd Hrest Hnd Hx. destruct (finish_last w e client idx st ch x wk Hch Hfd Hrest) as [-> _].
  pose proof (proj1 (child_of_Some _ _ _ _ _) Hch) as [Est Ec].
  unfold finalize_composite. rewrite Hdump.
  - eexists. split; [done|]. unfold set_state. destruct wk. cbn. by rewrite lookup_insert_eq.
  - unfold composite_payload. eapply mentions_member; [apply lookup_insert_eq|].
    replace (st_children (last_state e idx st ch x)) with (<[idx := finished_child e st ch x]> (st_children st)) by by destruct st.
    eapply mentions_member; [apply (aggregate_lookup _ (finished_child e st ch x))|].
    + replace (ch_name <$> <[idx := finished_child e st ch x]> (st_children st)) with (ch_name <$> st_children st); [done|].
      rewrite list_fmap_insert. destruct (finished_status e st ch x) as (_ & _ & ->).
      symmetry. apply list_insert_id. by rewrite list_lookup_fmap, Ec.
    + apply list_elem_of_lookup. exists idx. apply list_lookup_insert_eq. by eapply lookup_lt_Some.
    + eapply (mentions_member _ (lit "body") (JString (resp_body (result_ x)))); [|by apply bool_decide_eq_true].
      unfold dep_succeeded in Hx. apply andb_true_iff in Hx as [ [Hs Hlo]%andb_true_iff Hhi].
      replace (ch_item (finished_child e st ch x)) with
        (child_item x ch (composite_elapsed_ms (st_started st) (dv_elapsed_at e))) by by destruct ch.
      unfold child_item. rewrite Hs, Hlo, Hhi. apply lookup_insert_eq.
Qed.

(** * The overall deadline *)

(** Forcing keeps who is required, and an unfinished child comes out failed. *)
Lemma force_finish_child_failed `{FileSystem} now client idx (wk : Worker) st :
  client_upstream_ wk !! client = Some st →
  ∃ st', client_upstream_ (force_finish_child now client idx wk) !! client = Some st' ∧
    length (st_children st') = length (st_children st) ∧
    (∀ j ch, st_children st !! j = Some ch → j ≠ idx → st_children st' !! j = Some ch) ∧
    ∀ ch, st_children st !! idx = Some ch → ch_finished ch = false → ch_required ch = true →
      ∃ ch', st_children st' !! idx = Some ch' ∧ child_failed ch' = true.
Proof.
  intros Es. unfold force_finish_child. destruct (child_of client idx wk) as [ [st0 ch0]|] eqn:Hch.
  2: { exists st. split_and!; try done. intros ch Hj. by rewrite (proj2 (child_of_Some client idx wk st ch)) in Hch. }
  pose proof (proj1 (child_of_Some _ _ _ _ _) Hch) as [Es0 Ec0]. rewrite Es in Es0. injection Es0 as <-.
  destruct (ch_finished ch0) eqn:Hf; [exists st; split_and!; try done; congruence|].
  pose proof (unregister_spec ch0 wk) as Hun. destruct (unregister ch0 wk) as [ch1 wk1]. destruct Hun as [-> Em].
  assert (client_upstream_ wk1 !! client = Some st) as Es1 by (unfold maps in Em; injection Em as -> _; done).
  set (ch2 := (ch0{{ch_fd := None}}){{ch_ex := None; ch_item := _; ch_finished := true}}).
  rewrite (set_child_states client idx ch2 wk1 st Es1). eexists. rewrite lookup_insert_eq. split; [done|].
  rewrite children_set, length_insert. split_and!; [done|intros; by rewrite list_lookup_insert_ne|].
  intros ch Hj _ Hr. exists ch2. split; [apply list_lookup_insert_eq; by eapply lookup_lt_Some|].
  assert (ch = ch0) as -> by congruence. clear Hj Hch Ec0 Hf.
  unfold child_failed. replace (ch_required ch2) with (ch_required ch0) by by destruct ch0. rewrite Hr.
  replace (item_status ch2) with (lit "failed"); [done|]. unfold item_status. destruct ch0. cbn.
  repeat (rewrite lookup_insert_ne by done). by rewrite lookup_insert_eq.
Qed.

Lemma force_all_failed `{FileSystem} times n client i (wk : Worker) st j ch :
  client_upstream_ wk !! client = Some st → st_children st !! j = Some ch → (i <= j < i + n)%nat →
  ch_finished ch = false → ch_required ch = true →
  ∀ st', client_upstream_ (force_all times n client i wk) !! client = Some st' → existsb child_failed (st_children st') = true.
Proof.
  revert i wk st. induction n as [|n IH]; intros i wk st Es Hj Hij Hf Hr st'; [lia|]. cbn [force_all].
  destruct (force_finish_child_failed (times i) client i wk st Es) as (st1 & Es1 & Hl1 & Hother & Hhere).
  destruct (decide (j = i)) as [->|Hne]; [|eapply IH; [done|by apply Hother|lia|done|done] ].
  destruct (Hhere ch Hj Hf Hr) as (ch' & E' & Hfail). clear -Es1 E' Hfail.
  assert (∀ n k wk st, client_upstream_ wk !! client = Some st → (i < k)%nat → st_children st !! i = Some ch' →
    ∀ st', client_upstream_ (force_all times n client k wk) !! client = Some st' → st_children st' !! i = Some ch') as Hkeep.
  { clear. induction n as [|n IH]; intros k wk st Es Hk Hi st'; cbn [force_all]; [congruence|].
    destruct (force_finish_child_failed (times k) client k wk st Es) as (st1 & Es1 & _ & Hother & _).
    eapply IH; [done|lia|]. apply Hother; [done|lia]. }
  intros Hst'. apply existsb_exists. exists ch'. split; [|done]. apply list_elem_of_In, list_elem_of_lookup. exists i.
  eapply Hkeep; [exact Es1| |done|done]. lia.
Qed.

(** A composite whose overall deadline has passed is answered by the next
    check, whatever its backends do: it is among the clients that are due, its
    exchange is gone, none of its descriptors is left in the table, and the answer
    is 503 if a required dependency was still in flight. *)
Theorem composite_deadline `{HashOrder, Zlib, FileSystem} w now d client st (wk : Worker) :
  (∀ j, is_Some (w_dump w j)) →
  proxy_inv wk → client_upstream_ wk !! client = Some st → total_expired now st = true →
  (∀ order, client ∈ order → client ∈ due_clients now order wk) ∧
  ∃ wk', check_client w now d client wk = Some (Ok wk') ∧ client_upstream_ wk' !! client = None ∧
    (∀ fd idx, upstream_fd_owner_ wk' !! fd ≠ Some (client, idx)) ∧
    (existsb (λ ch, ch_required ch && negb (ch_finished ch)) (st_children st) = true →
     resp_status (conn_of client wk') = Some 503).
Proof.
  intros Hdump Hinv Es Hexp. split.
  { intros order Hin. unfold due_clients. apply list_elem_of_In, filter_In. rewrite <-list_elem_of_In, Es.
    split; [done|]. unfold is_due. by rewrite Hexp. }
  destruct (check_client w now d client wk) as [r|] eqn:Hr.
  2: { unfold check_client in Hr. rewrite Es, Hexp in Hr. by case_match. }
  pose proof (check_client_inv w now d client wk r Hinv Hr) as Hinv'.
  unfold check_client in Hr. rewrite Es, Hexp in Hr.
  destruct (force_all_inv (du_forced_at d) (length (st_children st)) client 0 wk st) as [_ (st' & Es' & _ & _)];
    [done|done|done|lia|].
  rewrite Es' in Hr. apply (inj Some) in Hr.
  destruct r as [wk'|wk'].
  2: { unfold finalize_composite in Hr. destruct (Hdump (composite_payload st')) as [text E]. by rewrite E in Hr. }
  exists wk'. split; [done|]. apply finalize_composite_status in Hr as [Hstatus Hgone]. split; [done|]. split.
  - intros fd idx. by apply (links_absent _ _ client (pi_links _ Hinv')).
  - intros (ch & Hin & [Hreq Hfin%negb_true_iff]%andb_true_iff)%existsb_exists.
    apply list_elem_of_In, list_elem_of_lookup in Hin as [j Hj]. apply lookup_lt_Some in Hj as Hlt.
    assert (0 <= j < 0 + length (st_children st))%nat as Hj0 by lia.
    by rewrite (force_all_failed _ _ _ _ _ _ j ch Es Hj Hj0 Hfin Hreq st' Es') in Hstatus.
Qed.

(** * Instances *)

#[local] Existing Instance stored_zlib.
#[local] Existing Instance posix.

Definition sample_server : UpstreamServer := default_UpstreamServer{{us_host := lit "10.0.0.1"}}.

Definition sample_config : Config :=
  default_Config{{upstream_config := mkUpstreamConfig {[ lit "api" := mkUpstream [sample_server] "round_robin" ]} [] 500}}.

Definition api_route : GatewayRoute := default_GatewayRoute{{rt_name := lit "api"; rt_path := lit "/api"}}.

Definition no_source : TraceSource := mkSource "id" "id" 0.

(** A connection attempt that stays in progress on descriptor 7. *)
Definition connecting_turn : Turn :=
  mkTurn 5 5 WaitTimeout None false (Some 7%nat) true (Some false) true 0 HS_COMPLETE WriteThrows ReadThrows SSL_NONE.

Definition connecting : list Drive := [mkDrive 0 [connecting_turn; connecting_turn] 0 0 0 0 no_source].

(** A worker whose circuit to the backend is in some state. *)
Definition worker_with (c : CircuitState) : Worker :=
  idle_worker ((fresh_worker 8 5 ∅){{sh_upstreams :=
    set_circuit (circuit_key "api" sample_server) c (manager_init (upstream_config sample_config))}}) pool_init.

Definition started (c : CircuitState) : option (result Worker) :=
  start_upstream_exchange sample_world sample_config (mkStart (10 ^ 12) 0 no_source) connecting 1
    (get_request "/api") api_route (worker_with c).

Definition in_flight (c : CircuitState) : Worker :=
  match started c with Some (Ok wk) => wk | _ => worker_with c end.

Lemma started_ok c : match started c with Some (Ok _) => true | _ => false end = true → started c = Some (Ok (in_flight c)).
Proof. unfold in_flight. by destruct (started c) as [ [?|?]|]. Qed.


(** A circuit that opened at time 0. *)
Definition opened : CircuitState := circuit_init{{consecutive_failures := 5; open := true; opened_at := 0}}.

Lemma abandoned_probe_blocks_witness :
  allow_all "api" sample_server [(10000, 2 * 10 ^ 12); (10000, 10 ^ 15)]
    (sh_upstreams (wk_shared (cleanup_conn 1 (in_flight opened)))) = [false; false].
Proof.
  assert (Forall (λ ok, ok = false) (allow_all "api" sample_server [(10000, 2 * 10 ^ 12); (10000, 10 ^ 15)]
    (sh_upstreams (wk_shared (cleanup_conn 1 (in_flight opened)))))) as Hall.
  { apply (abandoned_probe_blocks "api" sample_server 1 (in_flight opened)); vm_compute; reflexivity. }
  vm_compute. reflexivity.
Defined.

(** A composite with one dependency, whose backend has answered. *)
Definition answered (text : bytes) : UpstreamExchange :=
  (exchange_init (upstream_params sample_config api_route sample_server [] [] (get_request "/api")) true 0)
    {{succeeded_ := true; result_ := mkBackend 200 ∅ text ErrorNone}}.

Definition one_child (text : bytes) : ChildExchange :=
  mkChild (Some (answered text)) None sample_server "api" 0 5 5000 0 false true "dep" ∅.

Definition one_state (text : bytes) : ExchangeState :=
  mkState (get_request "/all") [one_child text] true "all" "all" 100 true (10 ^ 8) 0.

Definition one_worker (text : bytes) : Worker := set_state 1 (one_state text) (worker_with circuit_init).

Lemma one_worker_inv text : proxy_inv (one_worker text).
Proof.
  apply set_state_new_inv; [apply idle_inv|done|]. split; [|done]. constructor; [|done].
  split; cbn; [done|done|done|lia].
Qed.

Definition dumping_world (dump : json → option bytes) : World :=
  mkWorld (λ _, 0) dump (λ _, None) "1.0" [] Some (λ _, None) "/srv".

Lemma other_children text (P : nat → ChildExchange → Prop) :
  ∀ j ch', j ≠ 0%nat → st_children (one_state text) !! j = Some ch' → P j ch'.
Proof. by intros [|j] ch' Hj. Qed.


(** A byte that no UTF-8 text has. *)
Definition not_utf8 : bytes := [ascii_of_N 255].

Lemma composite_body_escapes_witness :
  ∃ wk', finish_composite_child (dumping_world (λ j, if mentions not_utf8 j then None else Some (lit "{}")))
      (mkDrive 0 [] 0 0 0 0 no_source) 1 0 (one_state not_utf8) (one_child not_utf8) (answered not_utf8)
      (one_worker not_utf8) = Escaped wk' ∧
    is_Some (client_upstream_ wk' !! 1%nat) ∧ wk_conns wk' = ∅.
Proof.
  apply (composite_body_escapes (dumping_world (λ j, if mentions not_utf8 j then None else Some (lit "{}")))
      (mkDrive 0 [] 0 0 0 0 no_source) 1 0 (one_state not_utf8) (one_child not_utf8) (answered not_utf8)
      (one_worker not_utf8)).
  - intros j Hj. cbn. cbn in Hj. by rewrite Hj.
  - reflexivity.
  - reflexivity.
  - apply (other_children not_utf8 (λ j ch', ch_finished ch' = true)).
  - apply NoDup_singleton.
  - reflexivity.
Defined.

Lemma composite_deadline_witness :
  ∃ wk', check_client (dumping_world (λ _, Some (lit "{}"))) (10 ^ 9) (mkDue (λ _, 0) no_source (λ _, [])) 1 (one_worker "hi")
      = Some (Ok wk') ∧ resp_status (conn_of 1 wk') = Some 503.
Proof.
  destruct (composite_deadline (dumping_world (λ _, Some (lit "{}"))) (10 ^ 9) (mkDue (λ _, 0) no_source (λ _, [])) 1
    (one_state "hi") (one_worker "hi")) as [_ (wk' & E & _ & _ & Hstatus)].
  - intros j. by eexists.
  - apply one_worker_inv.
  - reflexivity.
  - reflexivity.
  - exists wk'. split; [exact E|]. by apply Hstatus.
Defined.
