(* ===== verification/ProxyDelivery.v ===== *)
(** A request that is sent on to a backend, from the start of the exchange to the
    response that is queued for the client: [start_upstream_exchange], the calls of
    [on_upstream_event] with which the event loop drives the exchange, and
    [finish_child], with whatever the worker does for others in between. *)

From S2P Require Import Prelude Search Config RateLimiter RouteUtils ApiKeyManager FileCache FdCache ConnectionPool HttpParser HttpResponse ConfigFile UpstreamManager Routes HttpClient UpstreamResponse UpstreamExchange ExchangeDelivery Tracing Responder Admission StaticFiles Proxy ProxyInvariant ProxyProperties.

#[local] Open Scope Z_scope.
#[local] Open Scope gateway_scope.

(** * The exchange, call by call *)

Section exchange.
  Context `{HashOrder} (p : Params) (T : Z) (rsp : HttpResponse) (rest : bytes) (s : nat).
  Hypothesis wf : wf_response rsp (p_max_response_bytes p).
  Hypothesis stream_size : size (response_to_string rsp ++ rest) < 2 ^ 63.

(** What a backend does that accepts the connection and answers, turn by turn: it
    takes the request in pieces and then sends the response in pieces, *)
Definition read_script (got : bytes) (turns : list Turn) : Prop :=
  reads_ok (length (response_to_string rsp)) (response_to_string rsp ++ rest) got turns.

Definition send_script (off : nat) (turns : list Turn) : Prop :=
  ∃ sends t reads, turns = sends ++ t :: reads ∧ sends_ok (length (build_request p)) off sends ∧ read_script [] reads.

(** after a handshake of any number of turns, *)
Fixpoint tls_script (turns : list Turn) : Prop :=
  match turns with
  | [] => False
  | t :: turns =>
    match t_handshake t with
    | HS_COMPLETE => send_script 0 turns
    | HS_FAILED => False
    | _ => tls_script turns
    end
  end.

(** if the upstream has TLS ([t] is the turn that found the connection made), *)
Definition talk_script (t : Turn) (turns : list Turn) : Prop :=
  if enable (p_tls p) then t_ctx t = true ∧ tls_script turns else send_script 0 turns.

(** and before that accepts the connection, at once or later. *)
Definition backend_script (turns : list Turn) : Prop :=
  match turns with
  | [] => False
  | t :: turns =>
    t_socket t = Some s ∧ t_inet t = true ∧
    match t_connect t, turns with
    | Some true, _ => talk_script t turns
    | Some false, _ :: t' :: turns => t_sockerr t' = 0 ∧ talk_script t' turns
    | _, _ => False
    end
  end.

(** An exchange that has a socket and has neither sent nor received anything. *)
Record connected_only (x : UpstreamExchange) : Prop := {
  co_params : params_ x = p;
  co_request : request_bytes_ x = [];
  co_off : send_off_ x = 0%nat;
  co_bytes : response_bytes_ x = [];
  co_chunked : response_is_chunked_ x = false;
  co_headers : resp_headers (result_ x) = ∅;
  co_deadline : deadline_from p T <= deadline_ x;
}.

(** The exchange is on its way, and the backend does the rest. *)
Definition underway (ev : Z) (m : machine) (turns : list Turn) : Prop :=
  Forall (in_time p T) turns ∧ sock_ (ex m) = Some s ∧
  match phase_ (ex m) with
  | PhConnecting =>
    connected_only (ex m) ∧ ∃ t turns', t_sockerr t = 0 ∧ talk_script t turns' ∧
      if ev =? 0 then ∃ t', turns = t' :: t :: turns' else turns = t :: turns'
  | PhTlsHandshake => connected_only (ex m) ∧ tls_script turns
  | PhSend => sending p T m [] ∧ send_script (send_off_ (ex m)) turns
  | PhRead => ∃ got, reading p T m got ∧ got `prefix_of` response_to_string rsp ++ rest ∧ read_script got turns
  | PhConnect | PhDone => False
  end.

Lemma underway_machine ev m m' turns : ex m' = ex m → underway ev m turns → underway ev m' turns.
Proof.
  unfold underway. intros E. rewrite E. destruct (phase_ (ex m)); try done.
  - intros (? & ? & [] & ?). split_and!; try done. by split; rewrite E.
  - intros (? & ? & got & [] & ?). split_and!; try done. exists got. split; [|done]. by split; rewrite E.
Qed.

(** The connection is there: the next phase. *)
Lemma talk_underway x t turns pool att :
  connected_only x → sock_ x = Some s → Forall (in_time p T) turns → in_time p T t → talk_script t turns →
  let phase := if enable (p_tls p) then PhTlsHandshake else PhSend in
  underway 0 (mkMachine (refresh_deadline (t_refresh t) (x{{phase_ := phase}})) pool att) turns.
Proof.
  intros [C1 C2 C3 C4 C5 C6 C7] Hs Hts Ht Hk. cbv zeta. unfold underway, talk_script, refresh_deadline in *. destruct x. flat. subst.
  assert (deadline_from p T <= deadline_from p (t_refresh t)) by (apply deadline_later, Ht).
  destruct (enable _); flat; (split; [done|]; split; [done|]; split; [by split; flat; auto; lia|]); [apply Hk|done].
Qed.

(** What a turn of an exchange that is on its way comes to. *)
Definition makes_progress (ev : Z) (m : machine) (turns : list Turn) : Prop :=
  ∃ t turns' f m', turns = t :: turns' ∧ run_turn ev t m = (f, m') ∧ same_link m m' ∧
    (f = Return WantDone ∧ finished rsp m' (attempts m) ∨ f = Again 0 ∧ underway 0 m' turns' ∨
     (f = Return WantRead ∨ f = Return WantWrite) ∧ ∀ ev', ev' ≠ 0 → underway ev' m' turns').

Lemma goes_on_progress ev m t turns f m' :
  run_turn ev t m = (f, m') → same_link m m' → goes_on f → (∀ ev', underway ev' m' turns) → makes_progress ev m (t :: turns).
Proof. intros E Hl Hg Hu. exists t, turns, f, m'. split_and!; try done. destruct Hg as [->|Hg]; [right; left|right; right]; by auto. Qed.

Lemma connecting_progress ev m turns : phase_ (ex m) = PhConnecting → underway ev m turns → makes_progress ev m turns.
Proof.
  unfold underway. intros Ep (Hts & Hs & Hm). rewrite Ep in Hm. destruct Hm as (Hc & t & turns' & He & Hk & Hev). destruct (Z.eqb_spec ev 0) as [->|Hn].
  - destruct Hev as [t' ->]. exists t', (t :: turns'), (Return WantWrite), m. apply Forall_cons in Hts as [Ht Hts]. split_and!; try done.
    + unfold run_turn. by rewrite Ep, (not_expired p T), bool_decide_eq_false_2 by (done || apply Hc).
    + right; right. split; [by right|]. intros ev' He'. split_and!; [done..|]. rewrite Ep. split; [done|].
      exists t, turns'. by rewrite (proj2 (Z.eqb_neq _ _) He').
  - subst turns. apply Forall_cons in Hts as [Ht Hts].
    pose proof (talk_underway (ex m) t turns' (global_pool m) (attempts m) Hc Hs Hts Ht Hk) as Hu. cbv zeta in Hu.
    exists t, turns', (Again 0). eexists. split; [done|].
    split; [|split; [|right; left; split; [done|exact Hu] ] ]; [|by destruct m as [[] ? ?] ].
    unfold run_turn. rewrite Ep, (not_expired p T), bool_decide_eq_false_2 by (done || apply Hc). unfold step_Connecting, talk_script in *.
    rewrite (proj2 (Z.eqb_neq _ _) Hn), (proj2 (Z.eqb_eq _ _) He), (co_params _ Hc). cbn [negb].
    destruct m as [x pool att]. flat. destruct (enable _); [|done]. by destruct Hk as [-> _].
Qed.

Lemma handshake_progress ev m turns : phase_ (ex m) = PhTlsHandshake → underway ev m turns → makes_progress ev m turns.
Proof.
  unfold underway. intros Ep (Hts & Hs & Hm). rewrite Ep in Hm. destruct Hm as (Hc & Hk). destruct turns as [|t turns]; [done|].
  apply Forall_cons in Hts as [Ht Hts]. exists t, turns. cbn [tls_script] in Hk.
  unfold run_turn. rewrite Ep, (not_expired p T), bool_decide_eq_false_2 by (done || apply Hc). unfold step_TlsHandshake.
  assert (deadline_from p T <= deadline_from p (t_refresh t)) as Hd by (apply deadline_later, Ht).
  destruct Hc as [C1 C2 C3 C4 C5 C6 C7], m as [[] pool att]. flat. subst.
  destruct (t_handshake t); [| | |done]; eexists _, _; (split; [done|]; split; [reflexivity|]; split; [done|]); right;
    [left; split; [done|]|right; split; [by auto|]; intros ev' _..]; unfold underway, refresh_deadline; flat;
    (split_and!; [done..| |done]); split; flat; auto; lia.
Qed.

Lemma sending_progress ev m turns : phase_ (ex m) = PhSend → underway ev m turns → makes_progress ev m turns.
Proof.
  unfold underway. intros Ep (Hts & Hs & Hm). rewrite Ep in Hm. destruct Hm as (Hm & sends & t & reads & -> & Hsd & Hr).
  destruct sends as [|t0 sends]; cbn [app] in *; apply Forall_cons in Hts as [Ht Hts].
  - destruct (send_end p T t ev m [] Hm Ht Hsd) as (m' & E & Hl & Hm' & _). apply (goes_on_progress ev m t reads (Again 0) m' E Hl); [by left|].
    intros ev'. unfold underway. rewrite (rd_phase _ _ _ _ Hm'). split_and!; [done|destruct Hl; congruence|].
    exists []. split_and!; [done|apply prefix_nil|done].
  - destruct (send_turn p T t0 sends ev m [] Hm Ht Hsd) as (f & m' & E & Hg & Hl & Hm' & Hs' & _).
    apply (goes_on_progress ev m t0 _ f m' E Hl Hg). intros ev'. unfold underway. rewrite (sn_phase _ _ _ _ Hm').
    split_and!; [done|destruct Hl; congruence|done|]. by exists sends, t, reads.
Qed.

Lemma reading_progress ev m turns : phase_ (ex m) = PhRead → underway ev m turns → makes_progress ev m turns.
Proof.
  unfold underway. intros Ep (Hts & Hs & Hm). rewrite Ep in Hm. destruct Hm as (got & Hm & Hp & Hr). destruct turns as [|t turns]; [done|].
  apply Forall_cons in Hts as [Ht Hts].
  destruct (read_turn p T rsp rest wf stream_size t turns ev m got Hm Hp Ht Hr) as (f & m' & E & Hl & _ & [?|[Hg (got' & Hm' & Hp' & Hr')] ]).
  - exists t, turns, f, m'. split_and!; try done; [apply Hl..|by left].
  - apply (goes_on_progress ev m t turns f m' E Hl Hg). intros ev'. unfold underway. rewrite (rd_phase _ _ _ _ Hm').
    split_and!; [done|destruct Hl; congruence|]. by exists got'.
Qed.

Lemma underway_progress ev m turns : underway ev m turns → makes_progress ev m turns.
Proof.
  intros Hu. destruct (phase_ (ex m)) eqn:Ep; [|by apply connecting_progress|by apply handshake_progress|by apply sending_progress|by apply reading_progress|];
    destruct Hu as (_ & _ & Hu); by rewrite Ep in Hu.
Qed.

(** Where a call of [advance] leaves the exchange. *)
Definition call_ends (m m' : machine) (want : Want) (turns left : list Turn) : Prop :=
  same_link m m' ∧ (length left < length turns)%nat ∧
  (want = WantDone ∧ succeeded_ (ex m') = true ∧ result_ (ex m') = delivered rsp ∨
   want ≠ WantDone ∧ ∀ ev, ev ≠ 0 → underway ev m' left).

Lemma underway_run turns ev m :
  underway ev m turns → ∃ want m' left, run ev turns m = (Return want, m', left) ∧ call_ends m m' want turns left.
Proof.
  revert ev m. induction turns as [|t turns IH]; intros ev m (t0 & turns0 & f & m' & Et & E & Hl & Hf)%underway_progress; [done|].
  injection Et as <- <-. cbn [run]. rewrite E. unfold call_ends. destruct Hf as [ [-> [] ]|[ [-> Hu]|[Hw Hu] ] ].
  - eexists _, _, _. split_and!; [reflexivity|apply Hl..|cbn; lia|by left].
  - destruct (IH 0 m' Hu) as (want & m2 & left & -> & [L1 L2] & Hlen & Hend). destruct Hl as [K1 K2].
    eexists _, _, _. split; [reflexivity|]. split; [split; congruence|]. split; [cbn; lia|done].
  - assert (∃ want, f = Return want ∧ want ≠ WantDone) as (want & -> & Hn) by (destruct Hw as [->| ->]; by eexists).
    eexists _, _, _. split_and!; [reflexivity|apply Hl..|cbn; lia|by right].
Qed.

Lemma underway_advance turns ev now m :
  underway ev m turns → ∃ want m' left, advance ev now turns m = (Return want, m', left) ∧ call_ends m m' want turns left.
Proof. intros (want & m' & left & E & He)%underway_run. unfold advance. rewrite E. by eexists _, _, _. Qed.

(** The connection is opened, and the exchange is on its way. *)
Lemma open_underway t turns x pool att :
  connected_only x → Forall (in_time p T) (t :: turns) → backend_script (t :: turns) →
  ∃ x', open_fresh t x = (true, x') ∧ sock_ x' = Some s ∧ underway 0 (mkMachine x' pool att) turns.
Proof.
  intros Hc Hts (Hs & Hi & Hb). apply Forall_cons in Hts as [Ht Hts]. unfold open_fresh. rewrite Hs, Hi. cbn [negb].
  assert (connected_only (x{{sock_ := Some s}})) as Hc' by (by destruct Hc, x; split).
  destruct (t_connect t) as [ [] |]; [| |done]; cbn [negb].
  - pose proof (talk_underway (x{{sock_ := Some s}}) t turns pool att Hc' ltac:(by destruct x) Hts Ht Hb) as Hu. cbv zeta in Hu.
    exists (refresh_deadline (t_refresh t) ((x{{sock_ := Some s}}){{phase_ := if enable (p_tls p) then PhTlsHandshake else PhSend}})).
    split_and!; [|by destruct x|done]. rewrite (co_params _ Hc'). unfold talk_script in Hb.
    destruct (enable _); [|done]. by destruct Hb as [-> _].
  - destruct turns as [|t' [|t2 turns] ]; [done..|]. destruct Hb as [He Hk]. eexists. split; [reflexivity|]. split; [by destruct x|].
    unfold underway, refresh_deadline. destruct Hc as [C1 C2 C3 C4 C5 C6 C7], x. flat. subst. split_and!; [done..| |].
    + split; flat; auto. apply deadline_later, Ht.
    + exists t2, turns. split_and!; [done..|]. by exists t'.
Qed.

(** The first call, which opens the connection. *)
Lemma first_advance idem now turns pool pool' :
  0 < p_timeout_ms p → Forall (in_time p T) turns → backend_script turns →
  (∀ t, head turns = Some t → checkout (p_host p) (p_port p) (scheme_of_params p) (t_now t) pool = (None, pool')) →
  ∃ want m m' left, advance 0 now turns (mkMachine (exchange_init p idem T) pool []) = (Return want, m', left) ∧
    sock_ (ex m) = Some s ∧ call_ends m m' want turns left.
Proof.
  intros Htm Hts Hb Hp. destruct turns as [|t turns]; [done|]. pose proof (Forall_inv Hts) as Ht. specialize (Hp t eq_refl).
  assert (∃ m, run_turn 0 t (mkMachine (exchange_init p idem T) pool []) = (Again 0, m) ∧ sock_ (ex m) = Some s ∧ underway 0 m turns) as (m & E & Es & Hu).
  { unfold exchange_init. rewrite (proj2 (Z.leb_gt _ _)) by done. unfold run_turn. flat.
    rewrite bool_decide_eq_false_2 by done. unfold expired. flat. rewrite (proj2 (Z.leb_gt _ _)) by by destruct Ht.
    unfold step_Connect, open_connection. flat. rewrite Hp. unfold open_fresh_m. flat.
    set (x := mkExchange _ _ _ _ _ _ _ _ _ _ _ _ _ _ _ _ _ _ _).
    destruct (open_underway t turns x pool' []) as (x' & -> & Es & Hu); [by split|done|done|].
    eexists. split; [reflexivity|]. split; [exact Es|]. refine (underway_machine 0 _ _ turns _ Hu). reflexivity. }
  destruct (underway_run turns 0 m Hu) as (want & m' & left & E' & Hl & Hlen & Hend). exists want, m, m', left.
  split; [unfold advance; cbn [run]; by rewrite E, E'|]. split; [done|]. split; [done|]. split; [cbn; lia|done].
Qed.
End exchange.

(** * The worker *)

Section worker.
  Context `{HashOrder, Zlib, FileSystem} (w : World).

(** What the worker does in between concerns others. *)
Record undisturbed (client s : nat) (wk wk' : Worker) : Prop := {
  un_state : client_upstream_ wk' !! client = client_upstream_ wk !! client;
  un_owner : upstream_fd_owner_ wk' !! s = upstream_fd_owner_ wk !! s;
  un_conn : conn_of client wk' = conn_of client wk;
}.

(** The answers a call of [drive_child] leaves for the next one. *)
Definition turns_left (client : nat) (ev : Z) (e : Drive) (wk : Worker) : list Turn :=
  match child_of client 0 wk with
  | Some (_, ch) =>
    match ch_ex ch with
    | Some x => (advance ev (dv_now e) (dv_turns e) (mkMachine x (wk_pool wk) [])).2
    | None => []
    end
  | None => []
  end.

(** Events on the backend's descriptor, until the client's exchange is gone; the
    [i]-th comes after [others i]. [None]: not within [fuel] events. *)
Fixpoint backend_events (fuel : nat) (others : nat → Worker → Worker) (events : nat → Z) (drives : nat → Drive) (client s i : nat)
    (turns : list Turn) (wk : Worker) : option (result Worker) :=
  if bool_decide (is_Some (client_upstream_ wk !! client)) then
    match fuel with
    | O => None
    | S fuel =>
      let wk := others i wk in
      let e := (drives i){{dv_turns := turns}} in
      match on_upstream_event w [e] s (events i) wk with
      | Some (Ok wk') => backend_events fuel others events drives client s (S i) (turns_left client (events i) e wk) wk'
      | r => r
      end
    end
  else Some (Ok wk).

(** The client waits for one backend. *)
Definition awaits (client : nat) (req : HttpRequest) (x : UpstreamExchange) (wk : Worker) : Prop :=
  ∃ st ch, client_upstream_ wk !! client = Some st ∧ st_children st = [ch] ∧ st_composite st = false ∧ st_req st = req ∧ ch_ex ch = Some x.

(** The client has the response of the backend in its queue. *)
Definition answered (client : nat) (req : HttpRequest) (be : BackendResponse) (c : Conn) (wk : Worker) : Prop :=
  client_upstream_ wk !! client = None ∧
  ∃ src, conn_of client wk = finalize_response (w_hash w) (w_version w) src req (upstream_response be) false c.

Lemma conn_of_conns client (wk wk' : Worker) : wk_conns wk' = wk_conns wk → conn_of client wk' = conn_of client wk.
Proof. unfold conn_of. by intros ->. Qed.

Lemma set_child_conns client idx ch (wk : Worker) : wk_conns (set_child client idx ch wk) = wk_conns wk.
Proof. unfold set_child, set_state. destruct wk. by case_match. Qed.

Lemma set_child_awaits client req x ch ch0 st (wk : Worker) :
  client_upstream_ wk !! client = Some st → st_children st = [ch0] → st_composite st = false → st_req st = req → ch_ex ch = Some x →
  awaits client req x (set_child client 0 ch wk).
Proof.
  intros Es Ec Ek Er Ex. unfold set_child. rewrite Es. exists (st{{st_children ::= <[0%nat := ch]>}}), ch.
  split; [destruct wk; apply lookup_insert_eq|]. destruct st. cbn in *. by rewrite Ec.
Qed.

Lemma record_outcome_conns x ch now (wk : Worker) : wk_conns (record_outcome x ch now wk) = wk_conns wk.
Proof. by destruct wk. Qed.

(** One call of [drive_child]. *)
Lemma drive_done e ev client req x (wk : Worker) m left :
  awaits client req x wk → advance ev (dv_now e) (dv_turns e) (mkMachine x (wk_pool wk) []) = (Return WantDone, m, left) →
  succeeded_ (ex m) = true →
  ∃ wk', drive_child w [e] ev client 0 wk = Some (Ok wk') ∧ answered client req (result_ (ex m)) (conn_of client wk) wk'.
Proof.
  intros (st & ch & Es & Ec & Ek & Er & Ex) E Hok. cbn [drive_child]. unfold child_of. rewrite Es, Ec. cbn [lookup list_lookup]. rewrite Ex, E.
  destruct (unregister _ _) as [ch' wk1] eqn:Eu. unfold finish_child. cbv zeta.
  assert (conn_of client wk1 = conn_of client wk) as Hc by (unfold unregister in Eu; destruct wk; case_match; by injection Eu as <- <-).
  set (st' := st{{st_children ::= _}}). assert (st_composite st' = false ∧ st_req st' = req) as [Ek' Er'] by (unfold st'; by destruct st). clearbody st'.
  rewrite Ek', Hok, Er'. eexists. split; [reflexivity|]. split; [apply (answer_status w)|].
  exists (dv_source e). rewrite conn_of_answer. erewrite conn_of_conns; [rewrite Hc; reflexivity|].
  trans (wk_conns (record_outcome (ex m) ch' (dv_failed_at e) (set_child client 0 ch' wk1))); [by destruct (record_outcome _ _ _ _)|].
  by rewrite record_outcome_conns, set_child_conns.
Qed.

Lemma drive_waits e ev client req x (wk : Worker) want m left s :
  awaits client req x wk → advance ev (dv_now e) (dv_turns e) (mkMachine x (wk_pool wk) []) = (Return want, m, left) →
  want ≠ WantDone → sock_ (ex m) = Some s →
  ∃ wk', drive_child w [e] ev client 0 wk = Some (Ok wk') ∧ awaits client req (ex m) wk' ∧
    upstream_fd_owner_ wk' !! s = Some (client, 0%nat) ∧ conn_of client wk' = conn_of client wk.
Proof.
  intros (st & ch & Es & Ec & Ek & Er & Ex) E Hw Hs. cbn [drive_child]. unfold child_of. rewrite Es, Ec. cbn [lookup list_lookup]. rewrite Ex, E.
  destruct (unregister _ _) as [ch' wk1] eqn:Eu.
  assert (conn_of client wk1 = conn_of client wk ∧ client_upstream_ wk1 !! client = Some st ∧ ch_ex ch' = Some (ex m)) as (Hc & Hst & Hx).
  { unfold unregister in Eu. destruct wk, ch; repeat case_match; by injection Eu as <- <-. }
  assert (∃ wk', Some (Ok (set_child client 0 (ch'{{ch_fd := Some s}}) (wk1{{upstream_fd_owner_ ::= <[s := (client, 0%nat)]>}}))) = Some (Ok wk') ∧
    awaits client req (ex m) wk' ∧ upstream_fd_owner_ wk' !! s = Some (client, 0%nat) ∧ conn_of client wk' = conn_of client wk) as Hd.
  { eexists. split; [reflexivity|]. split_and!.
    - apply (set_child_awaits client req (ex m) _ ch st); [by destruct wk1|done..|by destruct ch'].
    - unfold set_child, set_state. destruct wk1. case_match; apply lookup_insert_eq.
    - rewrite <-Hc. apply conn_of_conns. rewrite set_child_conns. by destruct wk1. }
  destruct want; [| |done]; by rewrite Hs.
Qed.

(** The events of a backend that answers end with the response in the queue. *)
Lemma events_answered p T rsp rest s others events drives client req fuel i turns x (wk : Worker) :
  wf_response rsp (p_max_response_bytes p) → size (response_to_string rsp ++ rest) < 2 ^ 63 →
  (∀ i wk, undisturbed client s wk (others i wk)) → (∀ i, events i ≠ 0) →
  awaits client req x wk → upstream_fd_owner_ wk !! s = Some (client, 0%nat) →
  (∀ ev m, ev ≠ 0 → ex m = x → underway p T rsp rest s ev m turns) → (length turns <= fuel)%nat →
  ∃ wk', backend_events fuel others events drives client s i turns wk = Some (Ok wk') ∧ answered client req (delivered rsp) (conn_of client wk) wk'.
Proof.
  intros Hwf Hsz Ho Hev. revert i turns x wk. induction fuel as [|fuel IH]; intros i turns x wk Ha Hs Hu Hf.
  { destruct (underway_progress p T rsp rest s Hwf Hsz 1 (mkMachine x (wk_pool wk) []) turns) as (? & ? & ? & ? & -> & _); [by apply Hu|cbn in Hf; lia]. }
  pose proof Ha as (st & ch & Es & Ec & Ek & Er & Ex). cbn [backend_events]. rewrite bool_decide_eq_true_2 by (by rewrite Es).
  destruct (Ho i wk) as [U1 U2 U3]. set (wk0 := others i wk) in *. clearbody wk0. set (e := (drives i){{dv_turns := turns}}).
  assert (awaits client req x wk0) as Ha0 by (exists st, ch; by rewrite U1).
  unfold on_upstream_event. rewrite U2, Hs.
  assert (turns_left client (events i) e wk0 = (advance (events i) (dv_now e) (dv_turns e) (mkMachine x (wk_pool wk0) [])).2) as ->
    by (unfold turns_left, child_of; by rewrite U1, Es, Ec; cbn; rewrite Ex).
  destruct (underway_advance p T rsp rest s Hwf Hsz (dv_turns e) (events i) (dv_now e) (mkMachine x (wk_pool wk0) []))
    as (want & m & left & E & [L1 L2] & Hlen & Hend); [by apply Hu|].
  assert (length (dv_turns e) <= S fuel)%nat as Hl by (unfold e; by destruct (drives i)).
  assert (sock_ x = Some s) as Hx by (destruct (Hu 1 (mkMachine x (wk_pool wk0) [])) as (_ & ? & _); [done|done|done]).
  rewrite E. destruct Hend as [(-> & Hok & Hr)|[Hw Hu'] ].
  - destruct (drive_done e (events i) client req x wk0 m left Ha0 E Hok) as (wk' & -> & [Hn Hq]). cbn [snd].
    exists wk'. rewrite Hr, U3 in Hq. split; [|by split]. destruct fuel; cbn [backend_events]; by rewrite bool_decide_eq_false_2 by (rewrite Hn; by intros []).
  - destruct (drive_waits e (events i) client req x wk0 want m left s Ha0 E Hw) as (wk' & -> & Ha' & Hs' & Hc'); [cbn in L1; congruence|].
    rewrite <-U3, <-Hc'. cbn [snd]. apply (IH (S i) left (ex m) wk' Ha' Hs'); [|lia].
    intros ev m' Hn Em. apply (underway_machine p T rsp rest s ev m m' left); [done|by apply Hu'].
Qed.

(** The first call of an exchange, made by [start_upstream_exchange]. *)
Lemma start_answered p T idem rsp rest s others events drives client req fuel turns e (wk : Worker) pool' :
  wf_response rsp (p_max_response_bytes p) → size (response_to_string rsp ++ rest) < 2 ^ 63 → 0 < p_timeout_ms p →
  (∀ i wk, undisturbed client s wk (others i wk)) → (∀ i, events i ≠ 0) → awaits client req (exchange_init p idem T) wk →
  Forall (in_time p T) turns → backend_script p rsp rest s turns → dv_turns e = turns →
  (∀ t, head turns = Some t → checkout (p_host p) (p_port p) (scheme_of_params p) (t_now t) (wk_pool wk) = (None, pool')) →
  (length turns <= fuel)%nat →
  let left := (advance 0 (dv_now e) turns (mkMachine (exchange_init p idem T) (wk_pool wk) [])).2 in
  ∃ wk1 wk2, drive_exchange w [e] client 0 wk = Some (Ok wk1) ∧
    backend_events fuel others events drives client s 0 left wk1 = Some (Ok wk2) ∧ answered client req (delivered rsp) (conn_of client wk) wk2.
Proof.
  intros Hwf Hsz Htm Ho Hev Ha Ht Hb Et Hco Hf. cbv zeta.
  destruct (first_advance p T rsp rest s Hwf Hsz idem (dv_now e) turns (wk_pool wk) pool' Htm Ht Hb Hco)
    as (want & m & m' & left & E & Hs & [L1 L2] & Hlen & Hend). rewrite E. cbn [snd]. rewrite <-Et in E. unfold drive_exchange.
  destruct Hend as [(-> & Hok & Hr)|[Hw Hu] ].
  - destruct (drive_done e 0 client req _ wk m' left Ha E Hok) as (wk' & -> & [Hn Hq]). exists wk', wk'. split; [done|]. rewrite Hr in Hq. split; [|by split].
    destruct fuel; cbn [backend_events]; by rewrite bool_decide_eq_false_2 by (rewrite Hn; by intros []).
  - destruct (drive_waits e 0 client req _ wk want m' left s Ha E Hw) as (wk' & -> & Ha' & Hs' & <-); [congruence|].
    destruct (events_answered p T rsp rest s others events drives client req fuel 0 left (ex m') wk' Hwf Hsz Ho Hev Ha' Hs') as (wk2 & E2 & H2).
    + intros ev m2 Hn Em. apply (underway_machine p T rsp rest s ev m' m2 left); [done|by apply Hu].
    + lia.
    + by exists wk', wk2.
Qed.
End worker.

(** ** From the request to the response *)

(** The exchange [start_upstream_exchange] makes for a request. *)
Definition exchange_params `{FileSystem} (w : World) (config : Config) (sr : Start) (client : nat) (req : HttpRequest) (route : GatewayRoute)
    (server : UpstreamServer) (wk : Worker) : Params :=
  upstream_params config route server (default [] (wk_ips wk !! client))
    (generate_traceparent (w_hash w) (fresh_parent_id (sr_source sr)) [] [] (fresh_now (sr_source sr))) req.


(** ** Example *)

#[local] Existing Instance some_order.
#[local] Existing Instance stored_zlib.
#[local] Existing Instance posix.

(** A backend that accepts the connection later, takes the request at once and
    sends its response in two pieces. *)
Definition prompt_backend (request : nat) : list Turn :=
  [(sample_turn WriteThrows ReadThrows){{t_connect := Some false}}; sample_turn WriteThrows ReadThrows; sample_turn WriteThrows ReadThrows;
   sample_turn (Wrote request EOTHER) ReadThrows; sample_turn WriteThrows ReadThrows;
   sample_turn WriteThrows (ReadErr EAGAIN); sample_turn WriteThrows (Got (take 20 (response_to_string sample_response)));
   sample_turn WriteThrows (ReadErr EAGAIN); sample_turn WriteThrows (Got (drop 20 (response_to_string sample_response)));
   sample_turn WriteThrows ReadThrows].

Lemma undisturbed_refl client s (wk : Worker) : undisturbed client s wk wk.
Proof. done. Qed.

