(* ===== verification/ReadPath.v ===== *)
(** [HttpHandler::handle_read] and [rearm_reads] of [src/server/http_handler.cpp]:
    reading, parsing, admission and dispatch of the requests of one connection. *)

From S2P Require Import Prelude Search Config RateLimiter RouteUtils ApiKeyManager FileCache FdCache ConnectionPool HttpParser HttpResponse ConfigFile UpstreamManager Routes HttpClient UpstreamResponse UpstreamExchange Tracing Responder Admission StaticFiles Proxy ProxyInvariant.

#[local] Open Scope Z_scope.
#[local] Open Scope gateway_scope.

(** What [recv] or [sslRead] answers; no answer left is [EAGAIN]. *)
Inductive received := Data (data : bytes) | EndOfStream | ReadFailure.

(** The answers one parsed request gets: clocks and generators of admission, of
    the response, of the static files, of an upstream and of a composite start. *)
Record RequestAnswers := mkAnswers {
  q_env : RequestEnv;
  q_source : TraceSource;
  q_files : FileClock;
  q_start : Start;
  q_drives : list Drive;
  q_started : Z;
  q_deps : nat → DepStart;
  q_dep_drives : nat → list Drive;
}.

Section read.
  Context `{HashOrder, Zlib, FileSystem} (w : World) (config : Config).

(** The end of one turn of the inner loop. [Starved]: too few answers were given
    for a call to return, or the rate limiter's arithmetic left its range. *)
Inductive turn := NextRequest (wk : Worker) | Broke (wk : Worker) | Dispatched (wk : Worker) | Thrown (wk : Worker) | Starved.

Definition set_shared (sh : Shared) (wk : Worker) : Worker := wk{{wk_shared := sh}}.

Definition in_flight_of (client : nat) (wk : Worker) : bool := bool_decide (is_Some (client_upstream_ wk !! client)).

(** [parsers_[sock].reset()] *)
Definition reset_parser (client : nat) (wk : Worker) : Worker :=
  set_conn client ((conn_of client wk){{parser ::= reset}}) wk.

(** [start_upstream_exchange] or [start_composite_exchange] for an admitted request. *)
Definition start_proxied (q : RequestAnswers) (client : nat) (ip : bytes) (composite : bool) (req : HttpRequest)
    (route : GatewayRoute) (wk : Worker) : option (result Worker) :=
  if composite then
    start_composite_exchange w config (q_started q) (q_deps q) (q_source q) (q_dep_drives q) client ip req route wk
  else start_upstream_exchange w config (q_start q) (q_drives q) client req route wk.

(** A complete request, in [c]. *)
Definition handle_request (q : RequestAnswers) (client : nat) (ip : bytes) (c : Conn) (wk : Worker) : turn :=
  let sh := wk_shared wk in
  match admit_request (w_hash w) (q_env q) (policy_of config) ip (request c) (sh_limiter sh) with
  | None => Starved
  | Some (v, req, limiter) =>
    let sh := sh{{sh_limiter := limiter}} in
    let wk := set_shared sh wk in
    let c := c{{request := req}} in
    match v with
    | Refuse code message allow =>
      let c := send_error_response code message allow (c{{last_request := Some req}}) in
      NextRequest (set_conn client (c{{parser ::= reset}}) wk)
    | StaticFallback res =>
      match send_response w (q_source q) (q_files q) req res (c{{last_request := Some req}}) sh with
      | Sent c sh => NextRequest (set_conn client (c{{parser ::= reset}}) (set_shared sh wk))
      | _ => Thrown (set_conn client c wk)
      end
    | Admit res =>
      let c := c{{keep_alive := wants_keep_alive req}} in
      match send_response w (q_source q) (q_files q) req res c sh with
      | Sent c sh =>
        let wk := set_conn client (c{{parser ::= reset}}) (set_shared sh wk) in
        if in_flight_of client wk then Dispatched wk else Broke wk
      | Proxied composite c =>
        match rs_route res with
        | None => Thrown wk
        | Some registered =>
          match start_proxied q client ip composite req (rr_route registered) (set_conn client c wk) with
          | None => Starved
          | Some (Escaped wk) => Thrown wk
          | Some (Ok wk) =>
            let wk := reset_parser client wk in
            if in_flight_of client wk then Dispatched wk else Broke wk
          end
        end
      | Threw => Thrown (set_conn client c wk)
      end
    end
  end.

(** One turn of the inner loop: parse what is buffered, handle the outcome; the
    answers of the next request are used if one is complete. *)
Definition parse_turn (q : RequestAnswers) (client : nat) (ip : bytes) (wk : Worker) : bool * turn :=
  let c := conn_of client wk in
  let x := parse (read_buf c) (parser c) (request c) in
  let c := c{{read_buf ::= drop (res_consumed x); parser := res_parser x; request := res_request x}} in
  if res_done x then (true, handle_request q client ip c (set_conn client c wk))
  else if parse_error_ (res_parser x) != NONE then
    let c := c{{last_request := Some (res_request x)}} in
    let c := if parse_error_ (res_parser x) == BODY_TOO_LARGE then send_error_response 413 "Payload Too Large" [] c
             else send_error_response 400 "Bad Request" [] c in
    (false, Broke (set_conn client (c{{parser ::= reset; request := request_clear}}) wk))
  else (false, Broke (set_conn client c wk)).

(** The inner loop; [n] requests were complete so far. [None]: out of fuel. *)
Fixpoint inner_loop (fuel : nat) (env : nat → RequestAnswers) (n client : nat) (ip : bytes) (wk : Worker)
    : option (nat * turn) :=
  match fuel with
  | O => None
  | S fuel' =>
    match parse_turn (env n) client ip wk with
    | (complete, NextRequest wk) => inner_loop fuel' env (if complete : bool then S n else n) client ip wk
    | (complete, t) => Some (if complete : bool then S n else n, t)
    end
  end.

Definition rearm_reads (client : nat) (wk : Worker) : Worker :=
  if in_flight_of client wk then wk
  else
    let c := conn_of client wk in
    set_conn client (c{{armed := if is_empty (send_queue c) then ArmIn else ArmInOut}}) wk.

(** How a call ends: armed again, closed, or waiting for a backend. *)
Inductive read_end := Rearmed | Closed | Waiting | NoAnswer.

(** What follows the inner loop; [again] is the next turn of the outer one. *)
Definition after_inner (again : nat → Worker → option (read_end * Worker)) (client : nat) (wk : Worker)
    (r : option (nat * turn)) : option (read_end * Worker) :=
  match r with
  | None => None
  | Some (n, Broke wk) | Some (n, NextRequest wk) => again n wk
  | Some (_, Dispatched wk) => Some (Waiting, wk)
  | Some (_, Thrown wk) => Some (Closed, cleanup_conn client wk)
  | Some (_, Starved) => Some (NoAnswer, wk)
  end.

(** The outer loop. *)
Fixpoint outer_loop (fuel : nat) (env : nat → RequestAnswers) (n : nat) (reads : list received) (client : nat)
    (ip : bytes) (wk : Worker) : option (read_end * Worker) :=
  match fuel with
  | O => None
  | S fuel' =>
    let c := conn_of client wk in
    let go wk reads :=
      after_inner (λ n wk, outer_loop fuel' env n reads client ip wk) client wk
        (inner_loop (S (S (length (read_buf (conn_of client wk))))) env n client ip wk) in
    if negb (is_empty (read_buf c)) then go wk reads
    else
      match reads with
      | [] => Some (Rearmed, rearm_reads client wk)
      | Data data :: reads => go (set_conn client (c{{read_buf := data}}) wk) reads
      | EndOfStream :: _ => Some (Closed, cleanup_conn client wk)
      | ReadFailure :: _ => Some (Closed, cleanup_conn client wk)
      end
  end.

(** The turns the outer loop can take. *)
Definition read_fuel (reads : list received) (wk : Worker) (client : nat) : nat :=
  S (length (read_buf (conn_of client wk)) +
     sum_list_with (λ r, match r with Data d => S (length d) | _ => 1%nat end) reads).

Definition handle_read (now : Z) (env : nat → RequestAnswers) (reads : list received) (client : nat) (ip : bytes)
    (wk : Worker) : option (read_end * Worker) :=
  let wk := wk{{wk_ips ::= <[client := ip]>; wk_started ::= <[client := now]>}} in
  outer_loop (read_fuel reads wk client) env 0 reads client ip wk.
End read.
