(* ===== verification/ReadProperties.v ===== *)
(** What [handle_read] guarantees: it returns, it only appends to what is queued
    for its client, it touches no other client, and it keeps the invariant of the
    exchanges. *)

From S2P Require Import Prelude Search Config RateLimiter RouteUtils ApiKeyManager FileCache FdCache ConnectionPool HttpParser HttpResponse ConfigFile UpstreamManager Routes HttpClient UpstreamResponse UpstreamExchange Tracing Responder Admission StaticFiles Proxy ProxyInvariant ProxyProperties ReadPath.

#[local] Open Scope Z_scope.
#[local] Open Scope gateway_scope.

(** * Responses only extend a connection *)

(** What is left alone when responses are queued: the input, and the queue before. *)
Record extends (c c' : Conn) : Prop := {
  ext_buf : read_buf c' = read_buf c;
  ext_queue : send_queue c `prefix_of` send_queue c';
}.

#[global] Instance extends_preorder : PreOrder extends.
Proof.
  split.
  - by intros c.
  - intros c1 c2 c3 [E1 E2] [F1 F2]. split; [congruence|]. by etrans.
Qed.

Lemma finalize_extends `{HashOrder, Zlib} hash version src req resp z c :
  extends c (finalize_response hash version src req resp z c).
Proof.
  unfold finalize_response. destruct (bool_decide (HttpParser.method req = _)), c; (split; [done|eexists; reflexivity]).
Qed.

Lemma send_error_extends `{HashOrder} code message allow c : extends c (send_error_response code message allow c).
Proof. unfold send_error_response. destruct c. split; cbn; [done|by eexists]. Qed.

Section extension.
  Context `{HashOrder, Zlib, FileSystem} (w : World).

(** A call for one client: its connection is extended, the others are untouched. *)
Record only (client : nat) (wk wk' : Worker) : Prop := {
  only_conn : extends (conn_of client wk) (conn_of client wk');
  only_alive : is_Some (wk_conns wk !! client) → is_Some (wk_conns wk' !! client);
  only_others : ∀ o, o ≠ client →
    wk_conns wk' !! o = wk_conns wk !! o ∧ client_upstream_ wk' !! o = client_upstream_ wk !! o;
}.

#[global] Instance only_preorder client : PreOrder (only client).
Proof.
  split; [by split|]. intros wk1 wk2 wk3 [E1 Ea E2] [F1 Fa F2]. split; [by etrans|by auto|].
  intros o Ho. destruct (E2 o Ho), (F2 o Ho). split; congruence.
Qed.

Lemma only_same client (wk wk' : Worker) :
  wk_conns wk' = wk_conns wk → client_upstream_ wk' = client_upstream_ wk → only client wk wk'.
Proof. intros E F. split; [unfold conn_of; by rewrite E|by rewrite E|]. by rewrite E, F. Qed.

Lemma only_state client f (wk wk' : Worker) :
  wk_conns wk' = wk_conns wk → client_upstream_ wk' = partial_alter f client (client_upstream_ wk) → only client wk wk'.
Proof.
  intros E F. split; [unfold conn_of; by rewrite E|by rewrite E|]. intros o Ho. rewrite E, F, lookup_partial_alter_ne by done. done.
Qed.

Lemma conn_of_set_conn client c (wk : Worker) : conn_of client (set_conn client c wk) = c.
Proof. unfold conn_of, set_conn. destruct wk. cbn. by rewrite lookup_insert_eq. Qed.

Lemma set_conn_alive client c (wk : Worker) : wk_conns (set_conn client c wk) !! client = Some c.
Proof. unfold set_conn. destruct wk. cbn. by rewrite lookup_insert_eq. Qed.

Lemma set_conn_only client c (wk : Worker) : extends (conn_of client wk) c → only client wk (set_conn client c wk).
Proof.
  intros E. split; [by rewrite conn_of_set_conn|by rewrite set_conn_alive|].
  intros o Ho. unfold set_conn. destruct wk. cbn. by rewrite lookup_insert_ne.
Qed.

Lemma set_child_only client idx ch (wk : Worker) : only client wk (set_child client idx ch wk).
Proof. unfold set_child, set_state. case_match; [|done]. eapply only_state; by destruct wk. Qed.

Lemma set_upstreams_only client m (wk : Worker) : only client wk (set_upstreams m wk).
Proof. apply only_same; by destruct wk. Qed.

Lemma set_state_only client st (wk : Worker) : only client wk (set_state client st wk).
Proof. eapply only_state; by destruct wk. Qed.

Lemma unregister_only client ch (wk : Worker) : only client wk (unregister ch wk).2.
Proof. unfold unregister. case_match; [apply only_same; by destruct wk|done]. Qed.

Lemma answer_only client src req resp (wk : Worker) : only client wk (answer w client src req resp wk).
Proof.
  unfold answer. etrans; [apply set_conn_only, finalize_extends|]. eapply only_state; unfold set_conn; by destruct wk.
Qed.

Lemma holds_only client wk1 wk2 r : only client wk1 wk2 → holds (only client wk2) r → holds (only client wk1) r.
Proof. intros E. destruct r; cbn; intros F; exact (transitivity E F). Qed.

Lemma finalize_composite_only client src st (wk : Worker) : holds (only client wk) (finalize_composite w client src st wk).
Proof. unfold finalize_composite. case_match; cbn [holds]; [apply answer_only|reflexivity]. Qed.

Lemma finish_composite_only e client idx st ch x (wk : Worker) :
  holds (only client wk) (finish_composite_child w e client idx st ch x wk).
Proof.
  unfold finish_composite_child. set (ch1 := ch{{ch_item := _; ch_finished := true}}).
  pose proof (unregister_only client ch1 wk) as Eu. destruct (unregister ch1 wk) as [ch2 wk2]. cbn [snd] in Eu.
  set (wk3 := set_state _ _ wk2). assert (only client wk wk3) as E3 by (etrans; [exact Eu|apply set_state_only]).
  case_match; [|exact E3]. eapply holds_only; [exact E3|apply finalize_composite_only].
Qed.

Lemma finish_child_only again e client idx st ch x (wk : Worker) r :
  (∀ wk' r', again wk' = Some r' → holds (only client wk') r') →
  finish_child w again e client idx st ch x wk = Some r → holds (only client wk) r.
Proof.
  intros Hagain. unfold finish_child. set (wk1 := record_outcome _ _ _ _).
  assert (only client wk wk1) as E1 by apply set_upstreams_only.
  clearbody wk1. intros Hr. apply (holds_only client wk wk1 r E1). revert Hr. clear E1 wk.
  destruct (st_composite st); [intros <-%(inj Some); apply finish_composite_only|].
  destruct (succeeded_ x).
  - intros <-%(inj Some). cbn [holds]. etrans; [|apply answer_only]. apply only_same; by destruct wk1.
  - destruct (should_replay st ch x).
    + intros Hr%Hagain. eapply holds_only; [apply set_child_only|exact Hr].
    + intros <-%(inj Some). apply answer_only.
Qed.

Lemma drive_child_only answers ev client idx (wk : Worker) r :
  drive_child w answers ev client idx wk = Some r → holds (only client wk) r.
Proof.
  revert ev wk r. induction answers as [|e answers IH]; intros ev wk r; cbn [drive_child]; [done|].
  destruct (child_of client idx wk) as [ [st ch]|]; [|intros <-%(inj Some); exact (reflexivity wk)].
  destruct (ch_ex ch) as [x|]; [|intros <-%(inj Some); exact (reflexivity wk)].
  destruct (advance _ _ _ _) as [ [f m] rest]. set (wk1 := wk{{wk_pool := _}}).
  assert (only client wk wk1) as E1 by (apply only_same; by destruct wk).
  destruct f as [|want| |]; try done.
  - set (ch1 := ch{{ch_ex := Some (ex m)}}).
    pose proof (unregister_only client ch1 wk1) as Eu. destruct (unregister ch1 wk1) as [ch2 wk2]. cbn [snd] in Eu.
    assert (only client wk wk2) as E2 by by etrans.
    assert (∀ ch', only client wk (set_child client idx ch' wk2)) as Hset by (intros; etrans; [exact E2|apply set_child_only]).
    assert (∀ ch' owners, only client wk (set_child client idx ch' (wk2{{upstream_fd_owner_ := owners}}))) as Hreg.
    { intros ch' owners. etrans; [|apply set_child_only]. etrans; [exact E2|]. apply only_same; by destruct wk2. }
    destruct want; [destruct (sock_ (ex m)); intros <-%(inj Some); [apply Hreg|apply Hset]
                   |destruct (sock_ (ex m)); intros <-%(inj Some); [apply Hreg|apply Hset]|].
    intros Hr. apply finish_child_only in Hr; [|by intros; eapply IH]. eapply holds_only; [apply Hset|exact Hr].
  - intros <-%(inj Some). cbn [holds]. etrans; [exact E1|apply set_child_only].
Qed.

Lemma drive_live_only answers live client (wk : Worker) r :
  drive_live w answers live client wk = Some r → holds (only client wk) r.
Proof.
  revert wk r. induction live as [|idx live IH]; intros wk r; cbn [drive_live].
  { intros <-%(inj Some). exact (reflexivity wk). }
  case_match; [|intros <-%(inj Some); exact (reflexivity wk)].
  destruct (drive_child _ _ _ _ _ _) as [ [wk'|wk']|] eqn:E; [|intros <-%(inj Some)|done];
    apply drive_child_only in E; [|exact E].
  intros Hr%IH. eapply holds_only; [exact E|exact Hr].
Qed.

Lemma start_upstream_only config s answers client req route (wk : Worker) r :
  start_upstream_exchange w config s answers client req route wk = Some r → holds (only client wk) r.
Proof.
  unfold start_upstream_exchange. case_match.
  { intros <-%(inj Some). apply set_conn_only, finalize_extends. }
  destruct (picked _ _) as [ [server|] m]; [|intros <-%(inj Some); apply set_upstreams_only].
  destruct (allow_request _ _ _ _ _) as [allowed m']. case_match.
  - intros <-%(inj Some). cbn [holds]. etrans; [apply (set_upstreams_only client m')|]. apply set_conn_only, finalize_extends.
  - intros Hr%drive_child_only. eapply holds_only; [|exact Hr]. etrans; [apply set_upstreams_only|apply set_state_only].
Qed.

Lemma start_composite_only config started deps src answers client ip req route (wk : Worker) r :
  start_composite_exchange w config started deps src answers client ip req route wk = Some r → holds (only client wk) r.
Proof.
  unfold start_composite_exchange. destruct (start_dependencies _ _ _ _ _ _ _ _ _ _) as [ [chs|] m].
  2:{ intros <-%(inj Some). apply set_upstreams_only. }
  set (st := mkState _ _ _ _ _ _ _ _ _).
  assert (only client wk (set_state client st (set_upstreams m wk))) as E1
    by (etrans; [apply set_upstreams_only|apply set_state_only]).
  case_match.
  - intros <-%(inj Some). eapply holds_only; [exact E1|apply finalize_composite_only].
  - intros Hr%drive_live_only. eapply holds_only; [exact E1|exact Hr].
Qed.
End extension.

(** * One turn *)

Lemma parse_done_consumed data p r : res_done (parse data p r) = true → data ≠ [].
Proof. by destruct data. Qed.

Lemma parse_progress data p r : data ≠ [] → (1 <= res_consumed (parse data p r))%nat.
Proof.
  destruct data as [|c data]; [done|]. intros _. unfold parse. cbn [parse_loop].
  destruct (parse_byte c p r) as [ [p' r'] [|b] ]; [|cbn; lia]. case_match; [cbn; lia|]. rewrite parse_loop_consumed. cbn. lia.
Qed.

Section turns.
  Context `{HashOrder, Zlib, FileSystem} (w : World) (config : Config).

Definition turn_holds (P : Worker → Prop) (t : turn) : Prop :=
  match t with NextRequest wk | Broke wk | Dispatched wk | Thrown wk => P wk | Starved => True end.

Lemma send_response_extends src t req matched c sh :
  match send_response w src t req matched c sh with
  | Sent c' _ | Proxied _ c' => extends c c'
  | Threw => True
  end.
Proof.
  unfold send_response. set (c1 := c{{last_request := Some req}}).
  assert (extends c c1) as E1 by by destruct c. clearbody c1.
  destruct (rs_route matched).
  - destruct (bool_decide (_ = lit "upstream")); [done|]. destruct (bool_decide (_ = lit "composite")); [done|].
    destruct (dispatch_route _ _ _ _ _ _ _ _ _ _ _); [|done]. etrans; [exact E1|apply finalize_extends].
  - destruct (static_fallback _ _ _ _ _) as [ [ [ [resp z] file] sh'] |]; [|done].
    etrans; [exact E1|]. etrans; [|apply finalize_extends]. destruct file; [by destruct c1|done].
Qed.

Lemma extends_parser c p : extends c (c{{parser := p}}).
Proof. by destruct c. Qed.

Lemma set_conn_twice client c c' (wk : Worker) : set_conn client c (set_conn client c' wk) = set_conn client c wk.
Proof. destruct wk. unfold set_conn. cbn. by rewrite insert_insert_eq. Qed.

Lemma set_shared_only client sh (wk : Worker) : only client wk (set_shared sh wk).
Proof. apply only_same; by destruct wk. Qed.

Lemma conn_of_set_shared client sh (wk : Worker) : conn_of client (set_shared sh wk) = conn_of client wk.
Proof. by destruct wk. Qed.

Lemma turn_only_trans client wk1 wk2 t :
  only client wk1 wk2 → turn_holds (only client wk2) t → turn_holds (only client wk1) t.
Proof. intros E. destruct t; cbn; try done; intros F; exact (transitivity E F). Qed.

Lemma handle_request_only q client ip c (wk : Worker) :
  conn_of client wk = c → turn_holds (only client wk) (handle_request w config q client ip c wk).
Proof.
  intros Ec. unfold handle_request.
  destruct (admit_request _ _ _ _ _ _) as [ [ [v req] limiter] |]; [|done].
  set (sh := _{{sh_limiter := limiter}}). set (c1 := c{{request := req}}).
  assert (extends c c1) as E1 by by destruct c.
  assert (∀ c', extends c c' → only client wk (set_conn client c' (set_shared sh wk))) as Hset.
  { intros c' Hc'. etrans; [apply set_shared_only|]. apply set_conn_only. by rewrite conn_of_set_shared, Ec. }
  assert (∀ c' sh', extends c c' → only client wk (set_conn client c' (set_shared sh' (set_shared sh wk)))) as Hset2.
  { intros c' sh' Hc'. etrans; [apply set_shared_only|]. etrans; [apply set_shared_only|]. apply set_conn_only.
    by rewrite !conn_of_set_shared, Ec. }
  destruct v as [code message allow|res|res].
  - apply Hset. etrans; [|apply extends_parser]. etrans; [|apply send_error_extends]. by destruct c.
  - set (c2 := c1{{last_request := Some req}}). assert (extends c c2) as E2 by by destruct c.
    pose proof (send_response_extends (q_source q) (q_files q) req res c2 sh) as Hs.
    destruct (send_response _ _ _ _ _ _ _) as [c3 sh'|composite c3|]; [|by apply Hset..].
    apply Hset2. etrans; [exact E2|]. etrans; [exact Hs|apply extends_parser].
  - set (c2 := c1{{keep_alive := wants_keep_alive req}}). assert (extends c c2) as E2 by by destruct c.
    pose proof (send_response_extends (q_source q) (q_files q) req res c2 sh) as Hs.
    destruct (send_response _ _ _ _ _ _ _) as [c3 sh'|composite c3|]; [| |by apply Hset].
    + set (wk' := set_conn _ _ _). assert (only client wk wk') as Hw
        by (apply Hset2; etrans; [exact E2|]; etrans; [exact Hs|apply extends_parser]).
      by case_match.
    + destruct (rs_route res); [|by apply set_shared_only].
      set (wk1 := set_conn client c3 _). assert (only client wk wk1) as Hw by (apply Hset; by etrans).
      destruct (start_proxied _ _ _ _ _ _ _ _ _) as [r'|] eqn:Es; [|done].
      assert (holds (only client wk) r') as Hr.
      { eapply holds_only; [exact Hw|]. unfold start_proxied in Es.
        destruct composite; [by eapply start_composite_only|by eapply start_upstream_only]. }
      destruct r' as [wk2|wk2]; [|exact Hr]. cbn [holds] in Hr.
      assert (only client wk (reset_parser client wk2)) as H2.
      { etrans; [exact Hr|]. apply set_conn_only, extends_parser. }
      by case_match.
Qed.

(** A turn takes [k] bytes of the input and only appends to the client's queue. *)
Record consumed (k client : nat) (wk wk' : Worker) : Prop := {
  cs_buf : read_buf (conn_of client wk') = drop k (read_buf (conn_of client wk));
  cs_queue : send_queue (conn_of client wk) `prefix_of` send_queue (conn_of client wk');
  cs_alive : is_Some (wk_conns wk !! client) → is_Some (wk_conns wk' !! client);
  cs_others : ∀ o, o ≠ client →
    wk_conns wk' !! o = wk_conns wk !! o ∧ client_upstream_ wk' !! o = client_upstream_ wk !! o;
}.

Lemma consumed_trans k k' client wk1 wk2 wk3 :
  consumed k client wk1 wk2 → consumed k' client wk2 wk3 → consumed (k + k') client wk1 wk3.
Proof.
  intros [E1 E2 Ea E3] [F1 F2 Fa F3]. split; [by rewrite F1, E1, drop_drop|by etrans|by auto|].
  intros o Ho. destruct (E3 o Ho), (F3 o Ho). split; congruence.
Qed.

Lemma only_consumed client wk wk' : only client wk wk' → consumed 0 client wk wk'.
Proof. intros [ [E1 E2] Ea E3]. by split. Qed.

Lemma turn_consumed k k' client wk1 wk2 t :
  consumed k client wk1 wk2 → turn_holds (consumed k' client wk2) t → turn_holds (consumed (k + k') client wk1) t.
Proof. intros E. destruct t; cbn; try done; by apply consumed_trans. Qed.

Lemma turn_holds_impl P Q t : (∀ wk, P wk → Q wk) → turn_holds P t → turn_holds Q t.
Proof. intros E. destruct t; cbn; auto. Qed.

Lemma turn_consumed_only k client wk1 wk2 t :
  consumed k client wk1 wk2 → turn_holds (only client wk2) t → turn_holds (consumed k client wk1) t.
Proof.
  intros E. apply turn_holds_impl. intros wk F%only_consumed. rewrite <-(Nat.add_0_r k). by eapply consumed_trans.
Qed.

Lemma set_conn_consumed k client c (wk : Worker) :
  read_buf c = drop k (read_buf (conn_of client wk)) → send_queue (conn_of client wk) `prefix_of` send_queue c →
  consumed k client wk (set_conn client c wk).
Proof.
  intros E F. split; [by rewrite conn_of_set_conn|by rewrite conn_of_set_conn|by rewrite set_conn_alive|].
  intros o Ho. unfold set_conn. destruct wk. cbn. by rewrite lookup_insert_ne.
Qed.

Definition is_next (t : turn) : bool := match t with NextRequest _ => true | _ => false end.

Lemma parse_turn_spec q client ip (wk : Worker) :
  let '(complete, t) := parse_turn w config q client ip wk in
  ∃ k, turn_holds (consumed k client wk) t ∧ (read_buf (conn_of client wk) ≠ [] → (1 <= k)%nat) ∧
    (is_next t = true → read_buf (conn_of client wk) ≠ []).
Proof.
  unfold parse_turn. set (c := conn_of client wk). set (x := parse _ _ _).
  set (c1 := c{{read_buf := drop (res_consumed x) (read_buf c); parser := res_parser x; request := res_request x}}).
  assert (read_buf c ≠ [] → (1 <= res_consumed x)%nat) as Hp by apply parse_progress.
  assert (∀ c2, extends c1 c2 → consumed (res_consumed x) client wk (set_conn client c2 wk)) as Hset.
  { intros c2 [E1 E2]. apply set_conn_consumed; [rewrite E1; unfold c1, c; by destruct (conn_of client wk)|].
    replace (send_queue (conn_of client wk)) with (send_queue c1) by (unfold c1, c; by destruct (conn_of client wk)). done. }
  destruct (res_done x) eqn:Hd.
  - exists (res_consumed x). split_and!; [|done|intros _; by eapply parse_done_consumed].
    eapply (turn_consumed_only _ _ _ (set_conn client c1 wk)); [by apply (Hset c1)|].
    exact (handle_request_only q client ip c1 (set_conn client c1 wk) (conn_of_set_conn client c1 wk)).
  - destruct (bool_decide (parse_error_ _ = NONE)); cbn [negb].
    + exists (res_consumed x). split_and!; [by apply Hset|done|done].
    + exists (res_consumed x). split_and!; [|done|done]. apply Hset. set (c2 := c1{{last_request := Some (res_request x)}}).
      assert (extends c1 c2) as E2 by (unfold c2, c1; by destruct c).
      set (c3 := if (_ : bool) then _ else _). assert (extends c1 c3) as E3.
      { etrans; [exact E2|]. unfold c3. case_match; apply send_error_extends. }
      clearbody c3. etrans; [exact E3|]. by destruct c3.
Qed.

(** * The loops end *)

Lemma consumed_length k client wk wk' :
  consumed k client wk wk' →
  length (read_buf (conn_of client wk')) = (length (read_buf (conn_of client wk)) - k)%nat.
Proof. intros [E _ _ _]. by rewrite E, length_drop. Qed.

Lemma inner_loop_spec fuel env n client ip (wk : Worker) :
  (length (read_buf (conn_of client wk)) < fuel)%nat →
  ∃ n' t k, inner_loop w config fuel env n client ip wk = Some (n', t) ∧ is_next t = false ∧
    turn_holds (consumed k client wk) t ∧ (read_buf (conn_of client wk) ≠ [] → (1 <= k)%nat).
Proof.
  revert n wk. induction fuel as [|fuel IH]; intros n wk Hf; [lia|]. cbn [inner_loop].
  pose proof (parse_turn_spec (env n) client ip wk) as Ht. destruct (parse_turn _ _ _ _ _ _) as [complete t].
  destruct Ht as (k & Hc & Hk & Hn). destruct t as [wk'|wk'|wk'|wk'|]; try by (eexists _, _, k).
  specialize (Hk (Hn eq_refl)). specialize (Hn eq_refl). cbn [turn_holds] in Hc.
  pose proof (consumed_length _ _ _ _ Hc) as Hl.
  assert (length (read_buf (conn_of client wk)) ≠ 0%nat) by by destruct (read_buf (conn_of client wk)).
  destruct (IH (if complete then S n else n) wk' ltac:(lia)) as (n' & t & k' & E & Et & Ht & _).
  exists n', t, (k + k')%nat. split_and!; [done|done|by eapply turn_consumed|lia].
Qed.

(** How a call may end: a connection that is armed again has no input left, a
    closed one has no entry left, and only a backend leaves input waiting. *)
Definition ended (client : nat) (queue : list bytes) (wk0 : Worker) (e : read_end) (wk : Worker) : Prop :=
  (∀ o, o ≠ client → wk_conns wk !! o = wk_conns wk0 !! o ∧ client_upstream_ wk !! o = client_upstream_ wk0 !! o) ∧
  (e ≠ Closed → is_Some (wk_conns wk0 !! client) → is_Some (wk_conns wk !! client)) ∧
  match e with
  | Closed => wk_conns wk !! client = None ∧ client_upstream_ wk !! client = None
  | Rearmed =>
    let c := conn_of client wk in
    queue `prefix_of` send_queue c ∧ read_buf c = [] ∧
    (client_upstream_ wk !! client = None → armed c = if is_empty (send_queue c) then ArmIn else ArmInOut)
  | Waiting => queue `prefix_of` send_queue (conn_of client wk) ∧ is_Some (client_upstream_ wk !! client)
  | NoAnswer => True
  end.

Lemma ended_trans client queue wk0 wk1 e wk :
  queue `prefix_of` send_queue (conn_of client wk1) →
  (is_Some (wk_conns wk0 !! client) → is_Some (wk_conns wk1 !! client)) →
  (∀ o, o ≠ client → wk_conns wk1 !! o = wk_conns wk0 !! o ∧ client_upstream_ wk1 !! o = client_upstream_ wk0 !! o) →
  ended client (send_queue (conn_of client wk1)) wk1 e wk → ended client queue wk0 e wk.
Proof.
  intros Hq Ha Ho (He1 & Hea & He2). split_and!.
  - intros o Hne. destruct (Ho o Hne), (He1 o Hne). split; congruence.
  - auto.
  - destruct e; naive_solver (by etrans).
Qed.

Lemma cleanup_ended client queue wk0 (wk : Worker) :
  (∀ o, o ≠ client → wk_conns wk !! o = wk_conns wk0 !! o ∧ client_upstream_ wk !! o = client_upstream_ wk0 !! o) →
  ended client queue wk0 Closed (cleanup_conn client wk).
Proof.
  intros Ho. unfold cleanup_conn, abort_upstream_for_client. destruct wk as [sh pool conns ips starts states owners].
  cbn in *. destruct (states !! client) as [st|] eqn:E; cbn; (split; [|split; [done|] ]); cbn.
  - intros o Hne. rewrite !lookup_delete_ne by done. by apply Ho.
  - by rewrite !lookup_delete_eq.
  - intros o Hne. rewrite !lookup_delete_ne by done. by apply Ho.
  - by rewrite !lookup_delete_eq.
Qed.

Lemma rearm_ended client (wk : Worker) :
  read_buf (conn_of client wk) = [] →
  ended client (send_queue (conn_of client wk)) wk Rearmed (rearm_reads client wk).
Proof.
  intros Hb. unfold rearm_reads, in_flight_of. destruct (client_upstream_ wk !! client) eqn:E.
  - rewrite bool_decide_eq_true_2 by eauto. split_and!; [done|done|]. by rewrite E.
  - rewrite bool_decide_eq_false_2 by (by intros []). set (c := conn_of client wk) in *. set (c' := c{{armed := _}}).
    split_and!.
    + intros o Hne. unfold set_conn. destruct wk. cbn. by rewrite lookup_insert_ne.
    + intros _ _. by rewrite set_conn_alive.
    + rewrite !conn_of_set_conn. unfold c'. by destruct c.
Qed.

Lemma handle_request_dispatched q client ip c (wk wk' : Worker) :
  handle_request w config q client ip c wk = Dispatched wk' → is_Some (client_upstream_ wk' !! client).
Proof.
  unfold handle_request. intros E. repeat (case_match; try done); injection E as <-; by eapply bool_decide_eq_true_1.
Qed.

Lemma parse_turn_dispatched q client ip (wk wk' : Worker) b :
  parse_turn w config q client ip wk = (b, Dispatched wk') → is_Some (client_upstream_ wk' !! client).
Proof.
  unfold parse_turn. case_match; [|by case_match].
  intros [_ E]%pair_equal_spec. by eapply handle_request_dispatched.
Qed.

Lemma inner_loop_dispatched fuel env n client ip (wk wk' : Worker) n' :
  inner_loop w config fuel env n client ip wk = Some (n', Dispatched wk') → is_Some (client_upstream_ wk' !! client).
Proof.
  revert n wk. induction fuel as [|fuel IH]; intros n wk; [done|]. cbn [inner_loop].
  destruct (parse_turn _ _ _ _ _ _) as [b t] eqn:Et. destruct t; try done; [by apply IH|].
  intros [_ E]%(inj Some)%pair_equal_spec. injection E as <-. by eapply parse_turn_dispatched.
Qed.

(** Every read makes progress: a byte of the input is taken, or an answer used. *)
Definition pending (reads : list received) (client : nat) (wk : Worker) : nat :=
  length (read_buf (conn_of client wk)) + sum_list_with (λ r, match r with Data d => S (length d) | _ => 1%nat end) reads.

Lemma outer_loop_spec fuel env n reads client ip (wk : Worker) :
  (pending reads client wk < fuel)%nat →
  ∃ e wk', outer_loop w config fuel env n reads client ip wk = Some (e, wk') ∧
    ended client (send_queue (conn_of client wk)) wk e wk'.
Proof.
  revert n reads wk. induction fuel as [|fuel IH]; intros n reads wk Hf; [lia|]. cbn [outer_loop].
  set (go := λ (wk : Worker) (reads : list received), 
    after_inner (λ n wk, outer_loop w config fuel env n reads client ip wk) client wk
      (inner_loop w config (S (S (length (read_buf (conn_of client wk))))) env n client ip wk)).
  assert (∀ wk1 reads1, (pending reads1 client wk1 <= fuel)%nat →
    (read_buf (conn_of client wk1) ≠ [] ∨ (pending reads1 client wk1 < fuel)%nat) →
    ∃ e wk', go wk1 reads1 = Some (e, wk') ∧ ended client (send_queue (conn_of client wk1)) wk1 e wk') as Hgo.
  { intros wk1 reads1 Hle Hprog. unfold go.
    edestruct (inner_loop_spec (S (S (length (read_buf (conn_of client wk1))))) env n client ip wk1)
      as (n' & t & k & E & Et & Hc & Hk); [lia|]. rewrite E. destruct t as [wk2|wk2|wk2|wk2|]; [done| | | |].
    - cbn [turn_holds] in Hc. pose proof (consumed_length _ _ _ _ Hc) as Hl. destruct Hc as [_ Hq Ha Ho].
      destruct (IH n' reads1 wk2) as (e & wk' & E' & He).
      { unfold pending in *. destruct Hprog as [Hne|]; [|lia]. specialize (Hk Hne).
        assert (length (read_buf (conn_of client wk1)) ≠ 0%nat) by by destruct (read_buf (conn_of client wk1)). lia. }
      exists e, wk'. split; [done|]. by eapply ended_trans.
    - destruct Hc as [_ Hq Ha Ho]. exists Waiting, wk2. split; [done|]. split; [done|]. split; [done|]. split; [done|].
      by eapply inner_loop_dispatched.
    - destruct Hc as [_ _ _ Ho]. eexists Closed, _. split; [done|]. by apply cleanup_ended.
    - by exists NoAnswer, wk1. }
  unfold go in Hgo. clear go. destruct (is_empty (read_buf (conn_of client wk))) eqn:Hb; cbn [negb].
  2:{ apply Hgo; [lia|]. left. intros E. by rewrite E in Hb. }
  assert (read_buf (conn_of client wk) = []) as Hb' by by destruct (read_buf (conn_of client wk)).
  destruct reads as [|[data| |] reads].
  - exists Rearmed, (rearm_reads client wk). split; [done|]. by apply rearm_ended.
  - set (wk1 := set_conn _ _ wk). assert (conn_of client wk1 = (conn_of client wk){{read_buf := data}}) as Ec
      by (unfold wk1; apply conn_of_set_conn).
    assert (read_buf (conn_of client wk1) = data) as Ed by (rewrite Ec; by destruct (conn_of client wk)).
    assert (send_queue (conn_of client wk1) = send_queue (conn_of client wk)) as Eq by (rewrite Ec; by destruct (conn_of client wk)).
    destruct (Hgo wk1 reads) as (e & wk' & E & He).
    { unfold pending in *. rewrite Ed, Hb' in *. cbn in *. lia. }
    { right. unfold pending in *. rewrite Ed, Hb' in *. cbn in *. lia. }
    exists e, wk'. split; [done|]. eapply ended_trans; [by rewrite <-Eq|by unfold wk1; rewrite set_conn_alive| |exact He].
    intros o Hne. unfold wk1, set_conn. destruct wk. cbn. by rewrite lookup_insert_ne.
  - eexists Closed, _. split; [done|]. by apply cleanup_ended.
  - eexists Closed, _. split; [done|]. by apply cleanup_ended.
Qed.

(** * The invariant of the exchanges *)

Lemma maps_set_shared sh (wk : Worker) : maps (set_shared sh wk) = maps wk.
Proof. by destruct wk. Qed.

(** The client has no exchange in flight, and the invariant holds. *)
Definition idle_inv_for (client : nat) (wk : Worker) : Prop := proxy_inv wk ∧ client_upstream_ wk !! client = None.

Lemma idle_inv_maps client wk wk' : maps wk' = maps wk → idle_inv_for client wk → idle_inv_for client wk'.
Proof.
  intros E [F1 F2]. split; [by eapply proxy_inv_maps|]. unfold maps in E. apply pair_equal_spec in E as [E _]. by rewrite E.
Qed.

(** A turn leaves the client idle, or dispatched with the invariant. *)
Definition turn_inv (client : nat) (t : turn) : Prop :=
  match t with
  | NextRequest wk | Broke wk => idle_inv_for client wk
  | Dispatched wk | Thrown wk => proxy_inv wk
  | Starved => True
  end.

Lemma handle_request_inv q client ip c (wk : Worker) :
  idle_inv_for client wk → turn_inv client (handle_request w config q client ip c wk).
Proof.
  intros Hidle. unfold handle_request.
  destruct (admit_request _ _ _ _ _ _) as [ [ [v req] limiter] |]; [|done].
  set (sh := _{{sh_limiter := limiter}}). set (c1 := c{{request := req}}).
  assert (∀ c' sh', idle_inv_for client (set_conn client c' (set_shared sh' (set_shared sh wk)))) as Hset2.
  { intros c' sh'. eapply idle_inv_maps; [|exact Hidle]. by rewrite maps_set_conn, !maps_set_shared. }
  assert (∀ c', idle_inv_for client (set_conn client c' (set_shared sh wk))) as Hset.
  { intros c'. eapply idle_inv_maps; [|exact Hidle]. by rewrite maps_set_conn, !maps_set_shared. }
  destruct v as [code message allow|res|res]; [apply Hset| |].
  { destruct (send_response _ _ _ _ _ _ _); [apply Hset2|apply Hset..]. }
  destruct (send_response _ _ _ _ _ _ _) as [c3 sh'|composite c3|]; [| |apply Hset].
  - case_match; [apply Hset2|apply Hset2].
  - destruct (rs_route res); [|by eapply proxy_inv_maps; [|apply Hidle]; rewrite maps_set_shared].
    destruct (Hset c3) as [Hi Hn]. destruct (start_proxied _ _ _ _ _ _ _ _ _) as [r'|] eqn:Es; [|done].
    assert (holds proxy_inv r') as Hr.
    { unfold start_proxied in Es. destruct composite; [by eapply start_composite_inv|by eapply start_upstream_inv]. }
    destruct r' as [wk2|wk2]; [|exact Hr]. cbn [holds] in Hr.
    assert (proxy_inv (reset_parser client wk2)) as Hr2 by by apply set_conn_inv.
    unfold in_flight_of. case_bool_decide as Hb; [exact Hr2|]. split; [exact Hr2|]. by apply eq_None_not_Some.
Qed.

Lemma parse_turn_inv q client ip (wk : Worker) :
  idle_inv_for client wk → turn_inv client (parse_turn w config q client ip wk).2.
Proof.
  intros Hidle. unfold parse_turn.
  assert (∀ c, idle_inv_for client (set_conn client c wk)) as Hset.
  { intros c. eapply idle_inv_maps; [|exact Hidle]. by rewrite maps_set_conn. }
  destruct (res_done _); [by apply handle_request_inv|]. case_match; apply Hset.
Qed.

Lemma inner_loop_inv fuel env n client ip (wk : Worker) n' t :
  idle_inv_for client wk → inner_loop w config fuel env n client ip wk = Some (n', t) → turn_inv client t.
Proof.
  revert n wk. induction fuel as [|fuel IH]; intros n wk Hidle; [done|]. cbn [inner_loop].
  pose proof (parse_turn_inv (env n) client ip wk Hidle) as Ht.
  destruct (parse_turn _ _ _ _ _ _) as [b t']. cbn [snd] in Ht.
  destruct t'; try by (intros [_ <-]%(inj Some)%pair_equal_spec). by apply IH.
Qed.

Lemma outer_loop_inv fuel env n reads client ip (wk : Worker) e wk' :
  idle_inv_for client wk → outer_loop w config fuel env n reads client ip wk = Some (e, wk') →
  proxy_inv wk' ∧ (client_upstream_ wk' !! client = None ∨ e = Waiting).
Proof.
  revert n reads wk. induction fuel as [|fuel IH]; intros n reads wk Hidle; [done|]. cbn [outer_loop].
  assert (∀ wk1 reads1, idle_inv_for client wk1 →
    after_inner (λ n wk, outer_loop w config fuel env n reads1 client ip wk) client wk1
      (inner_loop w config (S (S (length (read_buf (conn_of client wk1))))) env n client ip wk1) = Some (e, wk') →
    proxy_inv wk' ∧ (client_upstream_ wk' !! client = None ∨ e = Waiting)) as Hgo.
  { intros wk1 reads1 Hi. destruct (inner_loop _ _ _ _ _ _ _ _) as [ [n' t]|] eqn:E; [|done].
    apply inner_loop_inv in E; [|done]. destruct t as [wk2|wk2|wk2|wk2|]; cbn [after_inner turn_inv] in *.
    - by apply IH.
    - by apply IH.
    - intros [<- <-]%(inj Some)%pair_equal_spec. auto.
    - intros [<- <-]%(inj Some)%pair_equal_spec. split; [by apply cleanup_inv|].
      left. by destruct (cleanup_ended client [] wk2 wk2) as (_ & _ & _ & ?).
    - intros [<- <-]%(inj Some)%pair_equal_spec. destruct Hi. auto. }
  assert (proxy_inv (cleanup_conn client wk) ∧ client_upstream_ (cleanup_conn client wk) !! client = None) as [Hc1 Hc2].
  { split; [apply cleanup_inv, Hidle|]. by destruct (cleanup_ended client [] wk wk) as (_ & _ & _ & ?). }
  destruct (negb _); [by apply Hgo|]. destruct reads as [|[data| |] reads].
  - intros [<- <-]%(inj Some)%pair_equal_spec. unfold rearm_reads, in_flight_of. destruct Hidle as [Hi Hn].
    case_bool_decide; [auto|]. split; [by apply set_conn_inv|]. left. by destruct wk.
  - apply Hgo. eapply idle_inv_maps; [|exact Hidle]. by rewrite maps_set_conn.
  - intros [<- <-]%(inj Some)%pair_equal_spec. auto.
  - intros [<- <-]%(inj Some)%pair_equal_spec. auto.
Qed.
End turns.

Lemma handle_read_ended `{HashOrder, Zlib, FileSystem} w config now env reads client ip (wk : Worker) :
  ∃ e wk', handle_read w config now env reads client ip wk = Some (e, wk') ∧
    ended client (send_queue (conn_of client wk)) wk e wk'.
Proof.
  unfold handle_read. set (wk0 := wk{{wk_ips ::= <[client := ip]>; wk_started ::= <[client := now]>}}).
  destruct (outer_loop_spec w config (read_fuel reads wk0 client) env 0 reads client ip wk0)
    as (e & wk' & E & He); [unfold pending, read_fuel; lia|].
  exists e, wk'. split; [done|]. by destruct wk.
Qed.


(** If the client has no exchange in flight, [handle_read] keeps the
    invariant of the exchanges (every backend descriptor leads to the live exchange
    that holds it), and leaves an exchange of the client only when it returns to
    wait for it. *)
Theorem handle_read_keeps_links `{HashOrder, Zlib, FileSystem} w config now env reads client ip (wk wk' : Worker) e :
  proxy_inv wk → client_upstream_ wk !! client = None →
  handle_read w config now env reads client ip wk = Some (e, wk') →
  proxy_inv wk' ∧ (client_upstream_ wk' !! client = None ∨ e = Waiting).
Proof.
  intros Hi Hn. unfold handle_read. apply outer_loop_inv, (idle_inv_maps _ wk); [by destruct wk|by split].
Qed.
