(* ===== verification/ReadScenarios.v ===== *)
(** [handle_read] on concrete input: what one client sees when several requests
    share its connection. *)

From S2P Require Import Prelude Search Config RateLimiter RouteUtils ApiKeyManager FileCache FdCache ConnectionPool HttpParser HttpResponse ConfigFile UpstreamManager Routes HttpClient UpstreamResponse UpstreamExchange Tracing Responder Admission StaticFiles Proxy ProxyInvariant ProxyProperties ReadPath ReadProperties.

#[local] Open Scope Z_scope.
#[local] Open Scope gateway_scope.
#[local] Existing Instance some_order.
#[local] Existing Instance stored_zlib.
#[local] Existing Instance posix.

(** * A site *)

(** Two routes: one needs a key and serves a file, one goes to the backend. *)
Definition private_route : GatewayRoute :=
  default_GatewayRoute{{rt_name := lit "private"; rt_path := lit "/private"; rt_target_type := lit "static"}}.

Definition open_route : GatewayRoute := api_route{{rt_auth_required := false}}.

Definition site : Config :=
  sample_config{{api_keys := [default_ApiKeyConfig{{ak_key := lit "secret"}}];
    upstream_config ::= fun u => mkUpstreamConfig (uc_upstreams u) [private_route; open_route] (uc_health_check_timeout_ms u)}}.

Definition site_world : World := mkWorld (λ _, 0) (λ _, None) (λ _, None) "1.0" [] Some (λ _, Some (lit "data")) "/srv".

Definition site_files : gmap bytes PosixFile :=
  {[ lit "/srv/a.txt" := mkPosixFile 3 1 (lit "aaa"); lit "/srv/a.bin" := mkPosixFile (2 ^ 21) 1 [];
     lit "/srv/b.bin" := mkPosixFile (2 ^ 22) 1 [] ]}.

(** A worker with one client. *)
Definition connected : Worker :=
  (idle_worker ((fresh_worker 8 5 site_files){{sh_upstreams := manager_init (upstream_config site)}}) pool_init)
    {{wk_conns := {[ 1%nat := on_connect false ]} }}.

(** Connections to the backend stay in progress on descriptor [fd]. *)
Definition site_answers (fd n : nat) : RequestAnswers :=
  let t := connecting_turn{{t_socket := Some fd}} in
  mkAnswers (mkEnv no_source (mkClock 0 0 0)) no_source (mkFileClock 1 1 1) (mkStart 0 0 no_source)
    [mkDrive 0 [t; t] 0 0 0 0 no_source] 0 (λ _, mkDepStart 0 0 0 [] [] 0) (λ _, []).

Definition reading (fd : nat) (reads : list received) (wk : Worker) : option (read_end * Worker) :=
  handle_read site_world site 0 (site_answers fd) reads 1 "10.1.1.1" wk.

(** * Requests and what is answered *)

Definition line (s : bytes) : bytes := s ++ [CR; LF].

Definition get (path : bytes) (fields : list bytes) : bytes :=
  line ("GET " ++ path ++ lit " HTTP/1.1") ++ concat (line <$> fields) ++ line [].

Definition status_of (chunk : bytes) : option bytes :=
  if take 9 chunk == "HTTP/1.1 " then Some (take 3 (drop 9 chunk)) else None.

(** The status codes queued for the client. *)
Definition statuses (wk : Worker) : list bytes := omap status_of (send_queue (conn_of 1 wk)).

Definition answered_with (r : option (read_end * Worker)) : list bytes :=
  match r with Some (_, wk) => statuses wk | None => [] end.

(** The request object of a connection is not cleared after a complete
    request: a request without a key for a route that needs one is refused on a
    new connection and served on a connection where a key was sent before. *)
Theorem key_inherited :
  answered_with (reading 7 [Data (get "/private" [])] connected) = [lit "401"] ∧
  answered_with (reading 7 [Data (get "/private" [lit "X-Api-Key: secret"]); Data (get "/private" [])] connected) =
    [lit "200"; lit "200"].
Proof. by vm_compute. Qed.

(** Its [Content-Length] is inherited as well: the second request waits for a body
    it does not have. *)
Lemma length_inherited :
  answered_with (reading 7 [Data (get "/a.txt" [] ++ get "/a.txt" [])] connected) = [lit "200"; lit "200"] ∧
  answered_with (reading 7 [Data (get "/a.txt" [lit "Content-Length: 3"] ++ "xyz" ++ get "/a.txt" [])] connected) =
    [lit "200"].
Proof. by vm_compute. Qed.

(** After a malformed request the rest of the buffer is parsed and served
    although the answer that refuses it announces the end of the connection. *)
Theorem malformed_then_served :
  answered_with (reading 7 [Data (get "/a.txt" [lit "Content-Length: x"] ++ get "/a.txt" [])] connected) =
    [lit "400"; lit "200"].
Proof. by vm_compute. Qed.

(** A client that has sent its request and then closes its sending side gets
    no response if both are seen by the same call: the queued response is dropped
    with the connection. *)
Theorem half_closed_unanswered :
  answered_with (reading 7 [Data (get "/a.txt" [])] connected) = [lit "200"] ∧
  match reading 7 [Data (get "/a.txt" []); EndOfStream] connected with
  | Some (e, wk) => e = Closed ∧ wk_conns wk = ∅
  | None => False
  end.
Proof. by vm_compute. Qed.

(** Two pipelined requests for large files queue both headers, and leave one
    file to be sent after them: the second. *)
Theorem pipelined_files_lost :
  match reading 7 [Data (get "/a.bin" [] ++ get "/b.bin" [])] connected with
  | Some (_, wk) =>
    statuses wk = [lit "200"; lit "200"] ∧ length (send_queue (conn_of 1 wk)) = 2%nat ∧
    (f_size <$> file_send (conn_of 1 wk)) = Some (2 ^ 22)
  | None => False
  end.
Proof. by vm_compute. Qed.

(** The links between descriptors and exchanges, as a check. *)
Definition links_hold (wk : Worker) : bool :=
  forallb (λ '(fd, (client, idx)),
    match child_of client idx wk with Some (_, ch) => bool_decide (ch_fd ch = Some fd) | None => false end)
    (map_to_list (upstream_fd_owner_ wk)).

Lemma links_hold_spec (wk : Worker) : links (client_upstream_ wk) (upstream_fd_owner_ wk) → links_hold wk = true.
Proof.
  intros HL. apply forallb_forall. intros [fd [client idx] ] E%list_elem_of_In%elem_of_map_to_list.
  destruct (HL _ _ _ E) as (st & ch & E1 & E2 & E3).
  assert (child_of client idx wk = Some (st, ch)) as -> by by apply child_of_Some. by apply bool_decide_eq_true_2.
Qed.

(** A request answered at once, with a request for a backend behind it in
    the same buffer, leaves the client armed while the backend is asked. What the
    client sends then is read and dispatched: the exchange in flight is replaced,
    and the descriptor of its backend connection leads to an exchange that does
    not hold it. *)
Theorem armed_while_in_flight :
  match reading 7 [Data (get "/healthz" [] ++ get "/api" [])] connected with
  | Some (e, wk) =>
    e = Waiting ∧ armed (conn_of 1 wk) = ArmInOut ∧ is_Some (client_upstream_ wk !! 1%nat) ∧
    match reading 8 [Data (get "/api" [])] wk with
    | Some (e', wk') => e' = Waiting ∧ ¬ proxy_inv wk'
    | None => False
    end
  | None => False
  end.
Proof.
  assert (match reading 7 [Data (get "/healthz" [] ++ get "/api" [])] connected with
    | Some (Waiting, wk) =>
      match armed (conn_of 1 wk), client_upstream_ wk !! 1%nat, reading 8 [Data (get "/api" [])] wk with
      | ArmInOut, Some _, Some (Waiting, wk') => negb (links_hold wk')
      | _, _, _ => false
      end
    | _ => false
    end = true) as E by (vm_compute; reflexivity).
  destruct (reading 7 _ connected) as [ [ [] wk]|]; try discriminate E.
  destruct (armed _); try discriminate E. destruct (client_upstream_ wk !! _); [|discriminate E].
  destruct (reading 8 _ wk) as [ [ [] wk']|]; try discriminate E. split_and!; [done|done|by eexists|done|].
  intros [HL _]. by rewrite links_hold_spec in E.
Qed.

Lemma idle_inv_with_conns sh pool conns : proxy_inv ((idle_worker sh pool){{wk_conns := conns}}).
Proof. by apply (proxy_inv_maps (idle_worker sh pool)), idle_inv. Qed.

Lemma handle_read_keeps_links_witness :
  match reading 7 [Data (get "/healthz" [] ++ get "/api" [])] connected with
  | Some (_, wk) => proxy_inv wk
  | None => False
  end.
Proof.
  assert (match reading 7 [Data (get "/healthz" [] ++ get "/api" [])] connected with Some _ => true | None => false end = true) as Hs
    by (vm_compute; reflexivity).
  assert (proxy_inv connected) as Hi by by exact (idle_inv_with_conns _ _ _).
  assert (client_upstream_ connected !! 1%nat = None) as Hn by reflexivity.
  destruct (reading 7 _ connected) as [ [e wk]|] eqn:E; [|discriminate Hs]. unfold reading in E.
  exact (proj1 (handle_read_keeps_links _ _ _ _ _ _ _ _ _ _ Hi Hn E)).
Defined.
