(* ===== verification/WritePath.v ===== *)
(** [HttpHandler::handle_write] of [src/server/http_handler.cpp]: the queue and the
    file of one connection, the records made when a response has been sent, and
    what follows it. *)

From S2P Require Import Prelude Search Config RateLimiter RouteUtils ApiKeyManager FileCache FdCache ConnectionPool LoggingUtils HttpParser HttpResponse ConfigFile UpstreamManager Routes HttpClient UpstreamResponse UpstreamExchange Tracing Responder Admission StaticFiles Proxy ProxyInvariant ReadPath.

#[local] Open Scope Z_scope.
#[local] Open Scope gateway_scope.

(** What [writev], [sslWrite] or [sendfile] answers; [Wrote n]: the first [n] bytes
    it was offered are taken, or all of them if there are fewer. *)
Inductive wrote := Wrote (n : nat) | WouldBlock (want : SSLWant) | BrokenPipe | WriteError.

(** What a client receives: bytes, or a range of a file. *)
Inductive piece := Raw (data : bytes) | Range (fd offset count : Z).

(** How a phase ends: everything is sent; the kernel takes no more; TLS waits for
    an event; the connection is closed; an exception; no answer is left. *)
Inductive phase := AllSent | Full | WantEvent (want : SSLWant) | Hangup | Fault | Unanswered.

Definition kMaxIov : nat := 64.

Definition SSL_SENDFILE_BUF : Z := 65536.

(** * The queue *)

Fixpoint drop_empty (q : list bytes) : list bytes :=
  match q with [] :: q' => drop_empty q' | _ => q end.

(** [while (left > 0 && !queue.empty())] *)
Fixpoint consume_queue (left : nat) (q : list bytes) : list bytes :=
  match q with
  | [] => []
  | front :: q' =>
    if bool_decide (left = 0)%nat then q
    else if bool_decide (length front <= left)%nat then consume_queue (left - length front) q'
    else drop left front :: q'
  end.

(** The bytes a [writev] is offered. *)
Definition gathered (q : list bytes) : bytes := concat (take kMaxIov q).

Fixpoint send_plain (writes : list wrote) (q : list bytes) : phase * list bytes * bytes * list wrote :=
  match q with
  | [] => (AllSent, [], [], writes)
  | _ =>
    match writes with
    | [] => (Unanswered, q, [], [])
    | Wrote n :: writes' =>
      match Nat.min n (length (gathered q)) with
      | O => (Fault, q, [], writes')
      | n => let '(p, q', out, rest) := send_plain writes' (consume_queue n q) in (p, q', take n (gathered q) ++ out, rest)
      end
    | WouldBlock _ :: writes' => (Full, q, [], writes')
    | BrokenPipe :: writes' => (Hangup, q, [], writes')
    | WriteError :: writes' => (Fault, q, [], writes')
    end
  end.

(** With TLS; also whether [pending_ssl_writes_] was erased. *)
Fixpoint send_ssl (writes : list wrote) (q : list bytes) : phase * list bytes * bytes * list wrote * bool :=
  match q with
  | [] => (AllSent, [], [], writes, false)
  | front :: q' =>
    match writes with
    | [] => (Unanswered, q, [], [], false)
    | Wrote n :: writes' =>
      match Nat.min n (length front) with
      | O => (Fault, q, [], writes', false)
      | n =>
        if bool_decide (n = length front) then
          let '(p, q'', out, rest, _) := send_ssl writes' q' in (p, q'', front ++ out, rest, true)
        else (Full, drop n front :: q', take n front, writes', true)
      end
    | WouldBlock want :: writes' => (WantEvent want, q, [], writes', false)
    | BrokenPipe :: writes' => (Hangup, q, [], writes', false)
    | WriteError :: writes' => (Fault, q, [], writes', false)
    end
  end.

(** * The file *)

(** [sendfile]: the answer 0 matches no branch of the loop. *)
Fixpoint sendfile_loop (writes : list wrote) (fd offset remaining : Z) : phase * Z * list piece * list wrote :=
  if remaining <=? 0 then (AllSent, offset, [], writes)
  else
    match writes with
    | [] => (Unanswered, offset, [], [])
    | Wrote n :: writes' =>
      let k := Z.min (Z.of_nat n) remaining in
      let '(p, offset', out, rest) := sendfile_loop writes' fd (offset + k) (remaining - k) in
      (p, offset', (if k =? 0 then out else Range fd offset k :: out), rest)
    | WouldBlock _ :: writes' => (Full, offset, [], writes')
    | _ :: writes' => (Hangup, offset, [], writes')
    end.

(** The chunk of a file that is offered to TLS; [None]: [pread] fails or the file
    ends. *)
Definition file_chunk (pread : Z → Z → Z → option bytes) (fd offset remaining : Z) (filebuf : bytes) : option bytes :=
  if is_empty filebuf then
    match pread fd offset (Z.min SSL_SENDFILE_BUF remaining) with Some [] => None | r => r end
  else Some filebuf.

Fixpoint ssl_file_loop (pread : Z → Z → Z → option bytes) (writes : list wrote) (fd offset remaining : Z)
    (filebuf : bytes) : phase * Z * bytes * bytes * list wrote * bool :=
  if remaining <=? 0 then (AllSent, offset, filebuf, [], writes, false)
  else
    match file_chunk pread fd offset remaining filebuf with
    | None => (Hangup, offset, filebuf, [], writes, false)
    | Some filebuf =>
      match writes with
      | [] => (Unanswered, offset, filebuf, [], [], false)
      | Wrote n :: writes' =>
        match Nat.min n (length filebuf) with
        | O => (Hangup, offset, filebuf, [], writes', false)
        | n =>
          let k := Z.of_nat n in
          let rest := drop n filebuf in
          if is_empty rest then
            let '(p, offset', filebuf', out, ws, _) := ssl_file_loop pread writes' fd (offset + k) (remaining - k) rest in
            (p, offset', filebuf', take n filebuf ++ out, ws, true)
          else (Full, offset + k, rest, take n filebuf, writes', true)
        end
      | WouldBlock want :: writes' => (WantEvent want, offset, filebuf, [], writes', false)
      | _ :: writes' => (Hangup, offset, filebuf, [], writes', false)
      end
    end.

(** * Both phases *)

Definition wait_for_ssl_write (want : SSLWant) (c : Conn) : Conn :=
  c{{pending_ssl_write := Some want; armed := match want with SSL_READ => ArmIn | _ => ArmOut end}}.

Definition has_pending_ssl_write (c : Conn) : bool := bool_decide (is_Some (pending_ssl_write c)).

Definition clear_pending (sent : bool) (c : Conn) : Conn := if sent then c{{pending_ssl_write := None}} else c.

Definition send_queued (writes : list wrote) (c : Conn) : phase * Conn * list piece * list wrote :=
  let q := drop_empty (send_queue c) in
  if c_ssl c then
    let '(p, q, out, rest, sent) := send_ssl writes q in (p, clear_pending sent (c{{send_queue := q}}), [Raw out], rest)
  else
    let '(p, q, out, rest) := send_plain writes q in (p, c{{send_queue := q}}, [Raw out], rest).

Definition send_file (pread : Z → Z → Z → option bytes) (writes : list wrote) (c : Conn)
    : phase * Conn * list piece * list wrote :=
  match file_send c with
  | None => (AllSent, c, [], writes)
  | Some f =>
    let remaining := f_size f - f_offset f in
    if c_ssl c then
      let '(p, offset, filebuf, out, rest, sent) :=
        ssl_file_loop pread writes (f_fd f) (f_offset f) remaining (ssl_file_buffer c) in
      let c := clear_pending sent c in
      match p with
      | AllSent => (AllSent, c{{file_send := None; ssl_file_buffer := [] }}, [Raw out], rest)
      | _ => (p, c{{file_send := Some (mkFile (f_fd f) offset (f_size f)); ssl_file_buffer := filebuf}}, [Raw out], rest)
      end
    else
      let '(p, offset, out, rest) := sendfile_loop writes (f_fd f) (f_offset f) remaining in
      match p with
      | AllSent => (AllSent, c{{file_send := None}}, out, rest)
      | _ => (p, c{{file_send := Some (mkFile (f_fd f) offset (f_size f))}}, out, rest)
      end
  end.

(** The queue, then the file once the queue is empty. *)
Definition send_phases (pread : Z → Z → Z → option bytes) (writes : list wrote) (c : Conn)
    : phase * Conn * list piece * list wrote :=
  match send_queued writes c with
  | (AllSent, c, out, rest) =>
    let '(p, c, out', rest) := send_file pread rest c in (p, c, out ++ out', rest)
  | r => r
  end.

(** * Records *)

Definition classify_failure_reason (status_code : Z) (error : option BackendError) : bytes :=
  if (200 <=? status_code) && (status_code <? 400) then "none"
  else if status_code =? 401 then "auth_failed"
  else if status_code =? 403 then "forbidden"
  else if status_code =? 404 then "route_not_found"
  else if status_code =? 405 then "method_not_allowed"
  else if status_code =? 413 then "payload_too_large"
  else if status_code =? 429 then "rate_limited"
  else if status_code =? 503 then "upstream_circuit_open"
  else if status_code =? 502 then "upstream_unavailable"
  else if status_code =? 504 then "upstream_timeout"
  else if status_code =? 500 then "internal_error"
  else
    match error with
    | Some ConnectFailed => "connect_failed"
    | Some ConnectTimeout => "connect_timeout"
    | Some WriteFailed => "write_failed"
    | Some WriteTimeout => "write_timeout"
    | Some ReadFailed => "read_failed"
    | Some ReadTimeout => "read_timeout"
    | Some InvalidResponse => "invalid_upstream_response"
    | _ => "unknown_error"
    end.

Definition header_or (k dflt : bytes) (req : HttpRequest) : bytes := default dflt (headers req !! k).

(** The fields of an audit line. *)
Record AuditLine := mkAudit {
  au_trace_id : bytes; au_method : bytes; au_target : option bytes; au_host : bytes; au_tenant : bytes;
  au_route : bytes; au_status : Z; au_failure : bytes; au_api_key : bytes; au_user_agent : bytes;
  au_authorization : bytes; au_cookie : bytes }.

Definition or_dash (s : bytes) : bytes := if is_empty s then "-" else s.

Definition emit_audit_log (req : HttpRequest) (status_code : Z) (failure_reason route_name host tenant : bytes)
    (logging : LoggingConfig) : AuditLine :=
  mkAudit (if is_empty (trace_id req) then "unknown" else trace_id req) (HttpParser.method req)
    (redact_path_query (HttpParser.path req) (HttpParser.query req) logging) host tenant route_name status_code failure_reason
    (redact_api_key (header_or "x-api-key" [] req))
    (redact_header_value "user-agent" (header_or "user-agent" "-" req) logging)
    (redact_header_value "authorization" (header_or "authorization" [] req) logging)
    (redact_header_value "cookie" (header_or "cookie" [] req) logging).

(** The fields of an access line, the time apart. *)
Record AccessLine := mkAccess {
  ac_ip : bytes; ac_method : bytes; ac_target : option bytes; ac_version : bytes; ac_status : Z; ac_size : Z;
  ac_user_agent : bytes; ac_duration_us : Z }.

(** What is recorded when a response has been sent; durations in nanoseconds. *)
Inductive event :=
| RecordRequest (status duration : Z)
| RecordRouteRequest (route host tenant : bytes) (status duration : Z)
| Audited (l : AuditLine)
| Accessed (l : AccessLine).

(** The label of a request in the metrics. *)
Definition metrics_route (req : HttpRequest) : bytes :=
  match headers req !! lit "x-route-name" with
  | Some name => name
  | None => if bool_decide (take 1 (HttpParser.path req) = lit "/") then HttpParser.path req else "-"
  end.

(** The clocks of the two durations. *)
Record DoneClock := mkDone { dn_metrics : Z; dn_access : Z }.

Section records.
  Context `{FileSystem}.

Definition metrics_events (t : DoneClock) (client : nat) (c : Conn) (wk : Worker) : list event :=
  match resp_status c, wk_started wk !! client with
  | Some status, Some start =>
    let duration := dn_metrics t - start in
    RecordRequest status duration ::
      match last_request c with
      | Some req => [RecordRouteRequest (metrics_route req) (HttpParser.host req) (tenant req) status duration]
      | None => []
      end
  | _, _ => []
  end.

Definition audit_events (logging : LoggingConfig) (c : Conn) : list event :=
  match last_request c, resp_status c with
  | Some req, Some status =>
    if 400 <=? status then
      [Audited (emit_audit_log req status (classify_failure_reason status None) (header_or "x-route-name" "-" req)
                  (or_dash (HttpParser.host req)) (or_dash (tenant req)) logging)]
    else []
  | _, _ => []
  end.

Definition access_events (logging : LoggingConfig) (t : DoneClock) (client : nat) (c : Conn) (wk : Worker) : list event :=
  if lg_access_log_enabled logging then
    let ip := default (lit "-") (wk_ips wk !! client) in
    let duration := match wk_started wk !! client with Some start => Z.quot (dn_access t - start) 1000 | None => 0 end in
    let status := default 0 (resp_status c) in
    let size := default 0 (resp_size c) in
    [Accessed
      match last_request c with
      | Some req =>
        mkAccess ip (HttpParser.method req) (redact_path_query (HttpParser.path req) (HttpParser.query req) logging)
          (HttpParser.version req) status size
          (match headers req !! lit "user-agent" with
           | Some ua => redact_header_value "user-agent" ua logging
           | None => "-"
           end) duration
      | None => mkAccess ip [] (Some []) [] status size [] duration
      end]
  else [].

(** The records, and the connection afterwards. *)
Definition finish_response (logging : LoggingConfig) (t : DoneClock) (client : nat) (c : Conn) (wk : Worker)
    : list event * Conn :=
  (metrics_events t client c wk ++ audit_events logging c ++ access_events logging t client c wk,
   c{{last_request := None; resp_status := None; resp_size := None}}).
End records.

(** * The handler *)

(** The answers of one turn: the clocks, and those of the nested [handle_read]. *)
Record WriteAnswers := mkWriteAnswers {
  wr_done : DoneClock;
  wr_now : Z;
  wr_env : nat → RequestAnswers;
  wr_reads : list received;
}.

(** How a call ends: waiting for an event, closed, or with an exchange of the client
    in flight. *)
Inductive write_end := WArmed | WClosed | WWaiting | WNoAnswer.

Section write.
  Context `{HashOrder, Zlib, FileSystem} (w : World) (config : Config) (pread : Z → Z → Z → option bytes).

(** After a response: the connection is closed, waits for the next request, or goes
    on with the one that is already in the read buffer. [None]: the loop goes on. *)
Definition after_response (q : WriteAnswers) (client : nat) (c : Conn) (wk : Worker) : option write_end * Worker :=
  if negb (keep_alive c) then (Some WClosed, cleanup_conn client wk)
  else if is_empty (read_buf c) then (Some WArmed, set_conn client (c{{armed := ArmIn}}) wk)
  else
    match handle_read w config (wr_now q) (wr_env q) (wr_reads q) client (default [] (wk_ips wk !! client)) wk with
    | None | Some (NoAnswer, _) => (Some WNoAnswer, wk)
    | Some (_, wk) => (if in_flight_of client wk then Some WWaiting else None, wk)
    end.

(** One turn of the loop ends the call, or ([None]) asks for another turn. *)
Definition write_turn (q : WriteAnswers) (writes : list wrote) (client : nat) (wk : Worker)
    : option write_end * Worker * list piece * list event * list wrote :=
  let '(p, c, out, rest) := send_phases pread writes (conn_of client wk) in
  match p with
  | Full => (Some WArmed, set_conn client (c{{armed := ArmOut}}) wk, out, [], rest)
  | WantEvent want => (Some WArmed, set_conn client (wait_for_ssl_write want c) wk, out, [], rest)
  | Hangup | Fault => (Some WClosed, cleanup_conn client wk, out, [], rest)
  | Unanswered => (Some WNoAnswer, wk, out, [], rest)
  | AllSent =>
    let '(events, c) := finish_response (logging config) (wr_done q) client c wk in
    let '(e, wk) := after_response q client c (set_conn client c wk) in
    (e, wk, out, events, rest)
  end.

(** [None]: out of fuel. *)
Fixpoint write_loop (fuel : nat) (answers : nat → WriteAnswers) (n : nat) (writes : list wrote) (client : nat)
    (wk : Worker) : option (write_end * Worker * list piece * list event) :=
  match fuel with
  | O => None
  | S fuel' =>
    match write_turn (answers n) writes client wk with
    | (Some e, wk, out, events, _) => Some (e, wk, out, events)
    | (None, wk, out, events, rest) =>
      match write_loop fuel' answers (S n) rest client wk with
      | Some (e, wk, out', events') => Some (e, wk, out ++ out', events ++ events')
      | None => None
      end
    end
  end.

(** A turn asks for another one only after [handle_read] has taken all the input. *)
Definition write_fuel : nat := 2.

Definition handle_write (answers : nat → WriteAnswers) (writes : list wrote) (client : nat) (wk : Worker)
    : option (write_end * Worker * list piece * list event) := write_loop write_fuel answers 0 writes client wk.

(** [HttpHandler::has_inflight_work]; [request_ready_] is never set. *)
Definition has_inflight_work (client : nat) (wk : Worker) : bool :=
  in_flight_of client wk ||
  match wk_conns wk !! client with
  | Some c => negb (is_empty (read_buf c)) || negb (is_empty (send_queue c)) || bool_decide (is_Some (file_send c))
  | None => false
  end.
End write.
