(* ===== verification/WriteProperties.v ===== *)
(** What [handle_write] guarantees: every byte is delivered once and in order, the
    call returns, and the connection is left waiting for the right event. *)

From S2P Require Import Prelude Search Config RateLimiter RouteUtils ApiKeyManager FileCache FdCache ConnectionPool LoggingUtils HttpParser HttpResponse ConfigFile UpstreamManager Routes HttpClient UpstreamResponse UpstreamExchange Tracing Responder Admission StaticFiles Proxy ProxyInvariant ProxyProperties ReadPath ReadProperties ReadScenarios WritePath.

#[local] Open Scope Z_scope.
#[local] Open Scope gateway_scope.

(** * The queue *)

Lemma concat_drop_empty (q : list bytes) : concat (drop_empty q) = concat q.
Proof. by induction q as [|[|] q IH]. Qed.

Lemma concat_consume_queue k (q : list bytes) :
  (k <= length (concat q))%nat → concat (consume_queue k q) = drop k (concat q).
Proof.
  revert k. induction q as [|front q IH]; intros k Hk; cbn [consume_queue concat]; [by rewrite drop_nil|].
  case_bool_decide; [by subst|]. case_bool_decide.
  - cbn in Hk. rewrite length_app in Hk. rewrite IH by lia. rewrite drop_app_ge by lia. done.
  - cbn [concat]. rewrite drop_app_le by lia. done.
Qed.

Lemma gathered_prefix q : gathered q `prefix_of` concat q.
Proof. unfold gathered. exists (concat (drop kMaxIov q)). by rewrite <-concat_app, take_drop. Qed.

Lemma send_plain_exact writes q p q' out rest :
  send_plain writes q = (p, q', out, rest) → concat q = out ++ concat q' ∧ (p = AllSent → q' = []).
Proof.
  revert q p q' out rest. induction writes as [|wr writes IH]; intros q p q' out rest; cbn [send_plain].
  { destruct q; by intros [= <- <- <- <-]. }
  destruct q as [|front q0]; [by intros [= <- <- <- <-]|]. set (q := front :: q0).
  destruct wr as [n| | |]; [|by intros [= <- <- <- <-]..].
  destruct (Nat.min n (length (gathered q))) as [|k0] eqn:Hk; [by intros [= <- <- <- <-]|]. set (k := S k0) in *.
  destruct (gathered_prefix q) as [tl Hq].
  destruct (send_plain writes (consume_queue k q)) as [ [ [p1 q1] out1] rest1] eqn:E.
  destruct (IH _ _ _ _ _ E) as [IH1 IH2]. intros [= <- <- <- <-]. split; [|done].
  rewrite concat_consume_queue in IH1 by (rewrite Hq, length_app; lia).
  rewrite <-(assoc_L (++)), <-IH1. rewrite <-(take_drop k (concat q)) at 1. f_equal. rewrite Hq, take_app_le; [done|lia].
Qed.

Lemma send_ssl_exact writes q p q' out rest sent :
  send_ssl writes q = (p, q', out, rest, sent) → concat q = out ++ concat q' ∧ (p = AllSent → q' = []).
Proof.
  revert q p q' out rest sent. induction writes as [|wr writes IH]; intros q p q' out rest sent; cbn [send_ssl].
  { destruct q; by intros [= <- <- <- <- <-]. }
  destruct q as [|front q]; [by intros [= <- <- <- <- <-]|].
  destruct wr as [n| | |]; [|by intros [= <- <- <- <- <-]..].
  destruct (Nat.min n (length front)) as [|k0] eqn:Hk; [by intros [= <- <- <- <- <-]|]. set (k := S k0) in *.
  case_bool_decide.
  - destruct (send_ssl writes q) as [ [ [ [p1 q1] out1] rest1] sent1] eqn:E.
    destruct (IH _ _ _ _ _ _ E) as [IH1 IH2]. intros [= <- <- <- <- <-]. split; [|done].
    cbn [concat]. by rewrite IH1, (assoc_L (++)).
  - intros [= <- <- <- <- <-]. split; [|done]. cbn [concat]. by rewrite (assoc_L (++)), take_drop.
Qed.

(** * The file *)

Definition slice (content : bytes) (offset count : Z) : bytes := take (Z.to_nat count) (drop (Z.to_nat offset) content).

Lemma slice_take content o k n : k <= n → slice content o k = take (Z.to_nat k) (slice content o n).
Proof. intros Hk. unfold slice. rewrite take_take. f_equal. lia. Qed.

Lemma slice_drop content o k n : 0 <= o → 0 <= k → slice content (o + k) (n - k) = drop (Z.to_nat k) (slice content o n).
Proof. intros Ho Hk. unfold slice. rewrite skipn_firstn_comm, drop_drop. f_equal; [lia|f_equal; lia]. Qed.

Lemma slice_split content o k n :
  0 <= o → 0 <= k <= n → slice content o n = slice content o k ++ slice content (o + k) (n - k).
Proof. intros Ho Hk. rewrite (slice_take _ _ k n), (slice_drop _ _ k n), take_drop by lia. done. Qed.

Lemma slice_none content o n : n <= 0 → slice content o n = [].
Proof. intros Hn. unfold slice. by replace (Z.to_nat n) with 0%nat by lia. Qed.

Section delivery.
  (** The bytes of the file behind a descriptor, which do not change while they are
      sent. *)
  Context (content : Z → bytes).

Definition render (x : piece) : bytes :=
  match x with Raw data => data | Range fd offset count => slice (content fd) offset count end.

Definition delivered (out : list piece) : bytes := concat (render <$> out).

Lemma delivered_app a b : delivered (a ++ b) = delivered a ++ delivered b.
Proof. unfold delivered. by rewrite fmap_app, concat_app. Qed.

(** What is left of a file. *)
Definition file_rest (f : FileSend) : bytes := slice (content (f_fd f)) (f_offset f) (f_size f - f_offset f).

Lemma sendfile_exact writes fd offset remaining p offset' out rest :
  0 <= offset → sendfile_loop writes fd offset remaining = (p, offset', out, rest) →
  delivered out ++ slice (content fd) offset' (offset + remaining - offset') = slice (content fd) offset remaining ∧
  offset <= offset' ∧ (p = AllSent → offset + remaining <= offset').
Proof.
  revert offset remaining p offset' out rest. induction writes as [|wr writes IH]; intros offset remaining p offset' out rest Ho;
    cbn [sendfile_loop]; destruct (Z.leb_spec remaining 0).
  1,3: intros [= <- <- <- <-]; split_and!; [|lia|lia]; by rewrite !slice_none by lia.
  - intros [= <- <- <- <-]. split_and!; [|lia|done]. cbn. f_equal. lia.
  - destruct wr as [n| | |]; [|intros [= <- <- <- <-]; split_and!; [cbn; f_equal; lia|lia|done]..].
    set (k := Z.min (Z.of_nat n) remaining). destruct (sendfile_loop writes _ _ _) as [ [ [p1 o1] out1] rest1] eqn:E.
    intros [= <- <- <- <-]. apply IH in E as (E1 & E2 & E3); [|lia]. split_and!; [|lia|intros Hp; specialize (E3 Hp); lia].
    rewrite (slice_split _ offset k remaining) by lia. rewrite <-E1, (assoc_L (++)).
    f_equal; [|f_equal; lia]. destruct (Z.eqb_spec k 0) as [->|]; [by rewrite slice_none|done].
Qed.

(** [pread] reads the bytes of the file, maybe fewer than asked for. *)
Definition reads_file (pread : Z → Z → Z → option bytes) : Prop :=
  ∀ fd offset count data, pread fd offset count = Some data → data `prefix_of` slice (content fd) offset count.

Lemma file_chunk_prefix pread fd offset remaining buf chunk :
  reads_file pread → buf `prefix_of` slice (content fd) offset remaining →
  file_chunk pread fd offset remaining buf = Some chunk → chunk `prefix_of` slice (content fd) offset remaining.
Proof.
  intros Hp Hb. unfold file_chunk. destruct (is_empty buf); [|by intros <-%(inj Some)].
  destruct (pread _ _ _) as [[|c d]|] eqn:E; [done| |done]. intros <-%(inj Some). apply Hp in E. etrans; [exact E|].
  rewrite (slice_take _ _ _ remaining) by lia. apply prefix_take.
Qed.

Lemma ssl_file_exact pread writes fd offset remaining buf p offset' buf' out rest sent :
  reads_file pread → 0 <= offset → buf `prefix_of` slice (content fd) offset remaining →
  ssl_file_loop pread writes fd offset remaining buf = (p, offset', buf', out, rest, sent) →
  let left := slice (content fd) offset' (offset + remaining - offset') in
  out ++ left = slice (content fd) offset remaining ∧ buf' `prefix_of` left ∧ offset <= offset' ∧
  (p = AllSent → offset + remaining <= offset').
Proof.
  intros Hread. revert offset remaining buf p offset' buf' out rest sent.
  induction writes as [|wr writes IH]; intros offset remaining buf p offset' buf' out rest sent Ho Hbuf;
    cbn [ssl_file_loop]; destruct (Z.leb_spec remaining 0).
  1,3: intros [= <- <- <- <- <- <-]; cbn; rewrite (slice_none _ _ remaining) in * by lia;
    rewrite slice_none by lia; split_and!; [done|done|lia|lia].
  - replace (offset + remaining - offset) with remaining by lia.
    destruct (file_chunk _ _ _ _ _) as [chunk|] eqn:Ec; intros [= <- <- <- <- <- <-]; cbn;
      replace (offset + remaining - offset) with remaining by lia; split_and!; try done; try lia.
    by eapply file_chunk_prefix.
  - destruct (file_chunk _ _ _ _ _) as [chunk|] eqn:Ec; cycle 1.
    { intros [= <- <- <- <- <- <-]; cbn; replace (offset + remaining - offset) with remaining by lia; split_and!; try done; lia. }
    apply file_chunk_prefix in Ec as Hchunk; [|done|done].
    destruct wr as [n| | |]; [|intros [= <- <- <- <- <- <-]; cbn;
      replace (offset + remaining - offset) with remaining by lia; split_and!; try done; lia..].
    destruct (Nat.min n (length chunk)) as [|k0] eqn:Hk.
    { intros [= <- <- <- <- <- <-]; cbn; replace (offset + remaining - offset) with remaining by lia; split_and!; try done; lia. }
    set (k := S k0) in *. destruct Hchunk as [tl Htl].
    assert (slice (content fd) (offset + Z.of_nat k) (remaining - Z.of_nat k) = drop k chunk ++ tl) as Hdrop.
    { rewrite slice_drop by lia. rewrite Nat2Z.id, Htl, drop_app_le by lia. done. }
    assert (∀ l, take k chunk ++ drop k chunk ++ l = chunk ++ l) as Htd by (intros; by rewrite (assoc_L (++)), take_drop).
    destruct (is_empty (drop k chunk)) eqn:He.
    + destruct (ssl_file_loop _ _ _ _ _ _) as [ [ [ [ [p1 o1] b1] out1] rest1] s1] eqn:E.
      intros [= <- <- <- <- <- <-]. apply IH in E; [|lia|rewrite Hdrop; by eexists]. cbn in E.
      replace (offset + Z.of_nat k + (remaining - Z.of_nat k) - o1) with (offset + remaining - o1) in E by lia.
      destruct E as (E1 & E2 & E3 & E4). cbn. split_and!; [|done|lia|intros Hp; specialize (E4 Hp); lia].
      by rewrite <-(assoc_L (++)), E1, Hdrop, Htd, Htl.
    + intros [= <- <- <- <- <- <-]. cbn.
      replace (offset + remaining - (offset + Z.of_nat k)) with (remaining - Z.of_nat k) by lia.
      rewrite Hdrop, Htd. split_and!; [done|by eexists|lia|done].
Qed.

(** * What a connection still has to send *)

Definition outstanding (c : Conn) : bytes :=
  concat (send_queue c) ++ match file_send c with Some f => file_rest f | None => [] end.

(** The offset is in the file, and what TLS was offered is what follows. *)
Definition sending_ok (c : Conn) : Prop :=
  (c_ssl c = false → ssl_file_buffer c = []) ∧
  match file_send c with
  | Some f => 0 <= f_offset f ∧ ssl_file_buffer c `prefix_of` file_rest f
  | None => ssl_file_buffer c = []
  end.

Lemma send_queued_exact writes c p c' out rest :
  send_queued writes c = (p, c', out, rest) →
  concat (send_queue c) = delivered out ++ concat (send_queue c') ∧ (p = AllSent → send_queue c' = []) ∧
  file_send c' = file_send c ∧ ssl_file_buffer c' = ssl_file_buffer c ∧ c_ssl c' = c_ssl c.
Proof.
  unfold send_queued. rewrite <-(concat_drop_empty (send_queue c)). destruct (c_ssl c) eqn:Hssl.
  - destruct (send_ssl _ _) as [ [ [ [p1 q1] out1] rest1] s1] eqn:E. apply send_ssl_exact in E as [E1 E2].
    intros [= <- <- <- <-]. rewrite E1. unfold delivered, clear_pending. cbn. rewrite (right_id_L [] (++)).
    destruct s1, c; cbn in *; by split_and!.
  - destruct (send_plain _ _) as [ [ [p1 q1] out1] rest1] eqn:E. apply send_plain_exact in E as [E1 E2].
    intros [= <- <- <- <-]. rewrite E1. unfold delivered. cbn. rewrite (right_id_L [] (++)).
    destruct c; cbn in *; by split_and!.
Qed.

(** The file as it is after a call. *)
Lemma file_rest_at f offset : file_rest (mkFile (f_fd f) offset (f_size f)) = slice (content (f_fd f)) offset (f_size f - offset).
Proof. done. Qed.

Lemma send_file_exact pread writes c p c' out rest :
  reads_file pread → sending_ok c → send_queue c = [] → send_file pread writes c = (p, c', out, rest) →
  delivered out ++ outstanding c' = outstanding c ∧ sending_ok c' ∧ send_queue c' = [] ∧ (p = AllSent → file_send c' = None).
Proof.
  intros Hread Hok Hq. unfold send_file, outstanding, sending_ok in *. rewrite Hq. cbn [concat].
  destruct (file_send c) as [f|] eqn:Hf; [|intros [= <- <- <- <-]; rewrite Hq, Hf; cbn; naive_solver].
  destruct Hok as [Hplain [Ho Hbuf] ]. destruct (c_ssl c) eqn:Hssl.
  - destruct (ssl_file_loop _ _ _ _ _ _) as [ [ [ [ [p1 o1] b1] out1] rest1] s1] eqn:E.
    apply ssl_file_exact in E; [|done|done|exact Hbuf]. cbn in E.
    replace (f_offset f + (f_size f - f_offset f) - o1) with (f_size f - o1) in E by lia.
    destruct E as (E1 & E2 & E3 & E4).
    assert (send_queue (clear_pending s1 c) = [] ∧ c_ssl (clear_pending s1 c) = true) as [Hcq Hcs] by (by destruct s1, c).
    destruct p1; intros [= <- <- <- <-]; unfold delivered; cbn; rewrite !(right_id_L [] (++)).
    { rewrite slice_none, (right_id_L [] (++)) in E1 by (specialize (E4 eq_refl); lia).
      destruct (clear_pending s1 c). cbn in *. rewrite Hcq. cbn. rewrite (right_id_L [] (++)). by split_and!. }
    all: destruct (clear_pending s1 c); cbn in *; rewrite Hcq, Hcs; cbn; rewrite file_rest_at; split_and!; (done || lia).
  - destruct (sendfile_loop _ _ _ _) as [ [ [p1 o1] out1] rest1] eqn:E. apply sendfile_exact in E as (E1 & E2 & E3); [|done].
    replace (f_offset f + (f_size f - f_offset f) - o1) with (f_size f - o1) in E1 by lia.
    destruct p1; intros [= <- <- <- <-].
    { rewrite slice_none in E1 by (specialize (E3 eq_refl); lia).
      destruct c; cbn in *. rewrite Hq. cbn. specialize (Hplain eq_refl). by split_and!. }
    all: destruct c; cbn in *; rewrite Hq; cbn; rewrite file_rest_at; specialize (Hplain eq_refl); subst;
      split_and!; (done || lia || apply prefix_nil).
Qed.

Lemma send_phases_exact pread writes c p c' out rest :
  reads_file pread → sending_ok c → send_phases pread writes c = (p, c', out, rest) →
  delivered out ++ outstanding c' = outstanding c ∧ sending_ok c' ∧
  (p = AllSent → send_queue c' = [] ∧ file_send c' = None).
Proof.
  intros Hread Hok. unfold send_phases. destruct (send_queued _ _) as [ [ [p1 c1] out1] rest1] eqn:E.
  apply send_queued_exact in E as (E1 & E2 & E3 & E4 & E5).
  assert (sending_ok c1) as Hok1 by (unfold sending_ok in *; by rewrite E3, E4, E5).
  assert (outstanding c = delivered out1 ++ outstanding c1) as Hout
    by (unfold outstanding; by rewrite E1, E3, (assoc_L (++))).
  destruct p1; try by (intros [= <- <- <- <-]; rewrite Hout).
  specialize (E2 eq_refl). destruct (send_file _ _ _) as [ [ [p2 c2] out2] rest2] eqn:F.
  apply send_file_exact in F as (F1 & F2 & F3 & F4); [|done|done|done]. intros [= <- <- <- <-].
  rewrite delivered_app, <-(assoc_L (++)), F1, Hout. by split_and!; auto.
Qed.
End delivery.

(** C3: Whatever the kernel takes of each write, every byte that was queued for a
    client is delivered exactly once and in order, plain or TLS, followed by the
    bytes of the file: when a turn of [handle_write] waits for an event, what it
    delivered and what it still keeps is what there was to send; before another
    request is read, and before a connection is closed with its response recorded,
    everything has been delivered; and a connection that is closed early has
    received a prefix. *)
Theorem delivery_exact `{HashOrder, Zlib, FileSystem} w config content pread q writes client (wk wk' : Worker) e out events rest :
  reads_file content pread → sending_ok content (conn_of client wk) →
  write_turn w config pread q writes client wk = (e, wk', out, events, rest) →
  let before := outstanding content (conn_of client wk) in
  match e with
  | Some WArmed => delivered content out ++ outstanding content (conn_of client wk') = before
  | None | Some WWaiting => delivered content out = before
  | Some WClosed => delivered content out `prefix_of` before ∧ (events ≠ [] → delivered content out = before)
  | Some WNoAnswer => delivered content out `prefix_of` before
  end.
Proof.
  intros Hread Hok. unfold write_turn. destruct (send_phases _ _ _) as [ [ [p c] out1] rest1] eqn:E.
  apply (send_phases_exact content) in E as (E1 & E2 & E3); [|done|done].
  assert (delivered content out1 `prefix_of` outstanding content (conn_of client wk)) as Hpre by (rewrite <-E1; by eexists).
  assert (∀ c1, send_queue c1 = send_queue c → file_send c1 = file_send c →
    delivered content out1 ++ outstanding content (conn_of client (set_conn client c1 wk)) = outstanding content (conn_of client wk)) as Hset.
  { intros c1 F1 F2. rewrite conn_of_set_conn, <-E1. unfold outstanding. by rewrite F1, F2. }
  destruct p.
  - destruct (E3 eq_refl) as [Hq Hf]. destruct (finish_response _ _ _ _ _) as [ev c1] eqn:Er.
    assert (c1 = c{{last_request := None; resp_status := None; resp_size := None}}) as Ec by (by injection Er).
    assert (delivered content out1 = outstanding content (conn_of client wk)) as Hall.
    { rewrite <-E1. unfold outstanding. rewrite Hq, Hf. symmetry. apply (right_id_L [] (++)). }
    assert (send_queue c1 = [] ∧ file_send c1 = None) as [Hq1 Hf1] by (rewrite Ec; by destruct c).
    unfold after_response. destruct (negb (keep_alive c1)); [intros [= <- <- <- <- <-]; split; [done|done]|].
    destruct (is_empty (read_buf c1)).
    + intros [= <- <- <- <- <-]. rewrite Hall, conn_of_set_conn. rewrite <-(right_id_L [] (++) (outstanding _ _)) at 2. f_equal.
      unfold outstanding. destruct c1. cbn in *. by rewrite Hq1, Hf1.
    + destruct (handle_read _ _ _ _ _ _ _ _) as [ [re wk2]|]; [|by intros [= <- <- <- <- <-] ].
      destruct re; try (by intros [= <- <- <- <- <-]); destruct (in_flight_of client wk2); by intros [= <- <- <- <- <-].
  - intros [= <- <- <- <- <-]. apply Hset; by destruct c.
  - intros [= <- <- <- <- <-]. apply Hset; by destruct c.
  - intros [= <- <- <- <- <-]. done.
  - intros [= <- <- <- <- <-]. done.
  - intros [= <- <- <- <- <-]. done.
Qed.

(** * How a call ends *)

Section ends.
  Context `{HashOrder, Zlib, FileSystem} (w : World) (config : Config) (pread : Z → Z → Z → option bytes).

Lemma send_phases_buf writes c p c' out rest :
  send_phases pread writes c = (p, c', out, rest) →
  read_buf c' = read_buf c ∧ (p = AllSent → send_queue c' = [] ∧ file_send c' = None).
Proof.
  unfold send_phases. destruct (send_queued _ _) as [ [ [p1 c1] out1] rest1] eqn:E.
  assert (read_buf c1 = read_buf c) as Hb.
  { unfold send_queued in E. destruct (c_ssl c); [destruct (send_ssl _ _) as [ [ [ [? ?] ?] ?] s]|destruct (send_plain _ _) as [ [ [? ?] ?] ?] ];
      injection E as _ <- _ _; [by destruct s, c|by destruct c]. }
  apply (send_queued_exact (λ _, [])) in E as (_ & E2 & _).
  destruct p1; try by (intros [= <- <- <- <-]). specialize (E2 eq_refl).
  destruct (send_file _ _ _) as [ [ [p2 c2] out2] rest2] eqn:F. intros [= <- <- <- <-]. rewrite <-Hb. clear Hb.
  unfold send_file in F. destruct (file_send c1) as [f|] eqn:Ef; [|by injection F as <- <- _ _].
  destruct (c_ssl c1).
  - destruct (ssl_file_loop _ _ _ _ _ _) as [ [ [ [ [p3 ?] ?] ?] ?] s].
    destruct p3; injection F as <- <- _ _; destruct s, c1; by cbn in *.
  - destruct (sendfile_loop _ _ _ _) as [ [ [p3 ?] ?] ?]. destruct p3; injection F as <- <- _ _; destruct c1; by cbn in *.
Qed.

Definition untouched (client : nat) (wk wk' : Worker) : Prop :=
  ∀ o, o ≠ client → wk_conns wk' !! o = wk_conns wk !! o ∧ client_upstream_ wk' !! o = client_upstream_ wk !! o.

Lemma untouched_trans client wk1 wk2 wk3 : untouched client wk1 wk2 → untouched client wk2 wk3 → untouched client wk1 wk3.
Proof. intros E F o Ho. destruct (E o Ho), (F o Ho). split; congruence. Qed.

Lemma set_conn_untouched client c (wk : Worker) : untouched client wk (set_conn client c wk).
Proof. intros o Ho. unfold set_conn. destruct wk. cbn. by rewrite lookup_insert_ne. Qed.

Lemma cleanup_untouched client (wk : Worker) :
  untouched client wk (cleanup_conn client wk) ∧ wk_conns (cleanup_conn client wk) !! client = None ∧
  client_upstream_ (cleanup_conn client wk) !! client = None.
Proof. destruct (cleanup_ended client [] wk wk (λ o Ho, conj eq_refl eq_refl)) as (E & _ & F). by split. Qed.

(** A connection waits for writability, or for input with nothing left to do, or
    for the input that TLS wants before it can write. *)
Definition waits (c : Conn) : Prop :=
  armed c = ArmOut ∨
  armed c = ArmIn ∧ (pending_ssl_write c = Some SSL_READ ∨ send_queue c = [] ∧ file_send c = None ∧ read_buf c = []).

Definition write_ended (client : nat) (wk0 : Worker) (e : write_end) (wk : Worker) : Prop :=
  untouched client wk0 wk ∧
  (e ≠ WClosed → is_Some (wk_conns wk0 !! client) → is_Some (wk_conns wk !! client)) ∧
  match e with
  | WArmed => waits (conn_of client wk)
  | WClosed => wk_conns wk !! client = None ∧ client_upstream_ wk !! client = None
  | WWaiting => is_Some (client_upstream_ wk !! client)
  | WNoAnswer => True
  end.

(** What follows a response: nothing is left to send, and the input is as it was. *)
Lemma after_response_ended q client c (wk : Worker) :
  send_queue c = [] → file_send c = None →
  let '(e, wk') := after_response w config q client c (set_conn client c wk) in
  match e with
  | Some e => write_ended client wk e wk'
  | None => untouched client wk wk' ∧ read_buf c ≠ [] ∧ read_buf (conn_of client wk') = []
  end.
Proof.
  intros Hq Hf. unfold after_response. set (wk1 := set_conn client c wk). pose proof (set_conn_untouched client c wk) as Hu. fold wk1 in Hu.
  destruct (negb (keep_alive c)).
  { destruct (cleanup_untouched client wk1) as (F1 & F2 & F3). split_and!; [by eapply untouched_trans|done..]. }
  destruct (is_empty (read_buf c)) eqn:He.
  { split_and!; [eapply untouched_trans; [exact Hu|apply set_conn_untouched]|by rewrite set_conn_alive|].
    rewrite conn_of_set_conn. right. destruct c. cbn in *. split; [done|]. right. split_and!; [done|done|]. by destruct read_buf. }
  assert (read_buf c ≠ []) as Hne by (intros Hn; by rewrite Hn in He).
  destruct (handle_read_ended w config (wr_now q) (wr_env q) (wr_reads q) client (default [] (wk_ips wk1 !! client)) wk1)
    as (re & wk2 & Eh & Ho & Ha & Hend). rewrite Eh. apply (untouched_trans _ _ _ _ Hu) in Ho.
  destruct re; [| | |by split_and!; [| unfold wk1; rewrite set_conn_alive|] ].
  all: unfold in_flight_of; case_bool_decide as Hb; [split_and!; [done| |done]; intros _ _|].
  + apply Ha; [done|]. unfold wk1. by rewrite set_conn_alive.
  + split_and!; [done|done|by destruct Hend as (_ & ? & _)].
  + by destruct Hend as [_ Hn]; rewrite Hn in Hb; destruct Hb.
  + split_and!; [done|done|unfold conn_of; by destruct Hend as [-> _] ].
  + apply Ha; [done|]. unfold wk1. by rewrite set_conn_alive.
  + by destruct Hend as [_ ?].
Qed.

Lemma write_turn_ended q writes client (wk : Worker) :
  let '(e, wk', _, _, _) := write_turn w config pread q writes client wk in
  match e with
  | Some e => write_ended client wk e wk'
  | None => untouched client wk wk' ∧ read_buf (conn_of client wk) ≠ [] ∧ read_buf (conn_of client wk') = []
  end.
Proof.
  unfold write_turn. destruct (send_phases _ _ _) as [ [ [p c] out] rest] eqn:E.
  apply send_phases_buf in E as [Eb E3]. pose proof (cleanup_untouched client wk) as Hclean.
  assert (∀ c', waits c' → write_ended client wk WArmed (set_conn client c' wk)) as Hset.
  { intros c' Hc'. split_and!; [apply set_conn_untouched|by rewrite set_conn_alive|by rewrite conn_of_set_conn]. }
  destruct p as [| |want| | |]; [|..|done].
  - destruct (E3 eq_refl) as [Hq Hf]. destruct (finish_response _ _ _ _ _) as [ev c1] eqn:Er.
    assert (send_queue c1 = [] ∧ file_send c1 = None ∧ read_buf c1 = read_buf c) as (Hq1 & Hf1 & Hb1) by (injection Er as _ <-; by destruct c).
    pose proof (after_response_ended q client c1 wk Hq1 Hf1) as Ha. destruct (after_response _ _ _ _ _ _) as [e wk']. by rewrite <-Eb, <-Hb1.
  - apply Hset. left. by destruct c.
  - apply Hset. destruct want, c; cbn; unfold waits; cbn; auto.
  - by split_and!; [apply Hclean| |apply Hclean..].
  - by split_and!; [apply Hclean| |apply Hclean..].
Qed.

(** A connection that is gone is closed again. *)
Lemma write_turn_absent q writes client (wk : Worker) :
  wk_conns wk !! client = None → (write_turn w config pread q writes client wk).1.1.1.1 = Some WClosed.
Proof.
  intros E. unfold write_turn, conn_of. rewrite E. unfold send_phases, send_queued. cbn.
  assert (∀ x : list wrote, send_plain x [] = (AllSent, [], [], x)) as -> by by intros []. done.
Qed.

Lemma write_ended_trans client wk0 wk1 e wk :
  untouched client wk0 wk1 → (wk_conns wk1 !! client = None → e = WClosed) →
  write_ended client wk1 e wk → write_ended client wk0 e wk.
Proof.
  intros Hu Hn (F1 & Fa & F2). split_and!; [by eapply untouched_trans| |done].
  intros He _. apply Fa; [done|]. destruct (wk_conns wk1 !! client); [by eexists|]. by destruct He; auto.
Qed.

(** A client without exchange keeps the invariant of the exchanges. *)
Lemma write_turn_inv q writes client (wk : Worker) :
  idle_inv_for client wk →
  let '(e, wk', _, _, _) := write_turn w config pread q writes client wk in
  proxy_inv wk' ∧ (client_upstream_ wk' !! client = None ∨ e = Some WWaiting).
Proof.
  intros Hidle. unfold write_turn. destruct (send_phases _ _ _) as [ [ [p c] out] rest].
  assert (∀ c', idle_inv_for client (set_conn client c' wk)) as Hset.
  { intros c'. eapply idle_inv_maps; [|exact Hidle]. by rewrite maps_set_conn. }
  assert (∀ wk1, idle_inv_for client wk1 →
    proxy_inv (cleanup_conn client wk1) ∧ (client_upstream_ (cleanup_conn client wk1) !! client = None)) as Hclean.
  { intros wk1 [Hi _]. split; [by apply cleanup_inv|apply cleanup_untouched]. }
  destruct p as [| |want| | |]; [|by destruct (Hset (c{{armed := ArmOut}})); auto
    |by destruct (Hset (wait_for_ssl_write want c)); auto|by destruct (Hclean _ Hidle); auto..|by destruct Hidle; auto].
  destruct (finish_response _ _ _ _ _) as [ev c1]. unfold after_response. destruct (negb _); [by destruct (Hclean _ (Hset c1)); auto|].
  destruct (is_empty _).
  - rewrite set_conn_twice. destruct (Hset (c1{{armed := ArmIn}})). auto.
  - destruct (handle_read _ _ _ _ _ _ _ _) as [ [re wk2]|] eqn:Eh; [|by destruct (Hset c1); auto].
    destruct (Hset c1) as [Hi Hn]. pose proof Eh as Eh'. unfold handle_read in Eh'.
    apply outer_loop_inv in Eh' as [Hi2 Hn2]; [|by eapply idle_inv_maps; [|exact (Hset c1)]; destruct wk].
    destruct re; try (by auto); unfold in_flight_of; case_bool_decide as Hb; auto; split; auto; left; by apply eq_None_not_Some.
Qed.
End ends.

(** * A kernel that blocks at last *)

(** The answers end with one that blocks. *)
Definition blocks (writes : list wrote) : Prop := ∃ before want, writes = before ++ [WouldBlock want].

Definition answered (p : phase) (rest : list wrote) : Prop := p ≠ Unanswered ∧ (p = AllSent → blocks rest).

Lemma blocks_tail wr writes : blocks (wr :: writes) → (∀ want, wr ≠ WouldBlock want) → blocks writes.
Proof.
  intros (before & want & E) Hwr. destruct before as [|x before]; [|by exists before, want; injection E].
  injection E as -> _. by destruct (Hwr want).
Qed.

Lemma blocks_nil : ¬ blocks [].
Proof. by intros ([|] & ? & ?). Qed.

Lemma send_plain_answered writes q p q' out rest :
  blocks writes → send_plain writes q = (p, q', out, rest) → answered p rest.
Proof.
  revert q p q' out rest. induction writes as [|wr writes IH]; intros q p q' out rest Hb; [by destruct (blocks_nil Hb)|].
  cbn [send_plain]. destruct q as [|front q0]; [by intros [= <- <- <- <-]|]. set (q := front :: q0).
  destruct wr as [n| | |]; [|by intros [= <- <- <- <-]..].
  destruct (Nat.min n _) as [|k]; [by intros [= <- <- <- <-]|].
  destruct (send_plain writes _) as [ [ [p1 q1] out1] rest1] eqn:E. intros [= <- <- <- <-].
  eapply IH; [by eapply blocks_tail|exact E].
Qed.

Lemma send_ssl_answered writes q p q' out rest sent :
  blocks writes → send_ssl writes q = (p, q', out, rest, sent) → answered p rest.
Proof.
  revert q p q' out rest sent. induction writes as [|wr writes IH]; intros q p q' out rest sent Hb; [by destruct (blocks_nil Hb)|].
  cbn [send_ssl]. destruct q as [|front q]; [by intros [= <- <- <- <- <-]|].
  destruct wr as [n| | |]; [|by intros [= <- <- <- <- <-]..].
  destruct (Nat.min n _) as [|k]; [by intros [= <- <- <- <- <-]|]. case_bool_decide; [|by intros [= <- <- <- <- <-] ].
  destruct (send_ssl writes _) as [ [ [ [p1 q1] out1] rest1] s1] eqn:E. intros [= <- <- <- <- <-].
  eapply IH; [by eapply blocks_tail|exact E].
Qed.

Lemma sendfile_answered writes fd offset remaining p offset' out rest :
  blocks writes → sendfile_loop writes fd offset remaining = (p, offset', out, rest) → answered p rest.
Proof.
  revert offset remaining p offset' out rest.
  induction writes as [|wr writes IH]; intros offset remaining p offset' out rest Hb; [by destruct (blocks_nil Hb)|].
  cbn [sendfile_loop]. destruct (remaining <=? 0); [by intros [= <- <- <- <-]|].
  destruct wr as [n| | |]; [|by intros [= <- <- <- <-]..].
  destruct (sendfile_loop writes _ _ _) as [ [ [p1 o1] out1] rest1] eqn:E. intros [= <- <- <- <-].
  eapply IH; [by eapply blocks_tail|exact E].
Qed.

Lemma ssl_file_answered pread writes fd offset remaining buf p offset' buf' out rest sent :
  blocks writes → ssl_file_loop pread writes fd offset remaining buf = (p, offset', buf', out, rest, sent) → answered p rest.
Proof.
  revert offset remaining buf p offset' buf' out rest sent.
  induction writes as [|wr writes IH]; intros offset remaining buf p offset' buf' out rest sent Hb; [by destruct (blocks_nil Hb)|].
  cbn [ssl_file_loop]. destruct (remaining <=? 0); [by intros [= <- <- <- <- <- <-]|].
  destruct (file_chunk _ _ _ _ _); [|by intros [= <- <- <- <- <- <-] ].
  destruct wr as [n| | |]; [|by intros [= <- <- <- <- <- <-]..].
  destruct (Nat.min n _) as [|k]; [by intros [= <- <- <- <- <- <-]|].
  destruct (is_empty _); [|by intros [= <- <- <- <- <- <-] ].
  destruct (ssl_file_loop _ writes _ _ _ _) as [ [ [ [ [p1 o1] b1] out1] rest1] s1] eqn:E. intros [= <- <- <- <- <- <-].
  eapply IH; [by eapply blocks_tail|exact E].
Qed.

Lemma send_phases_answered pread writes c p c' out rest :
  blocks writes → send_phases pread writes c = (p, c', out, rest) → answered p rest.
Proof.
  intros Hb. unfold send_phases. destruct (send_queued _ _) as [ [ [p1 c1] out1] rest1] eqn:E.
  assert (answered p1 rest1) as H1.
  { unfold send_queued in E. destruct (c_ssl c).
    - destruct (send_ssl _ _) as [ [ [ [? ?] ?] ?] ?] eqn:F. apply send_ssl_answered in F; [|done]. by injection E as <- _ _ <-.
    - destruct (send_plain _ _) as [ [ [? ?] ?] ?] eqn:F. apply send_plain_answered in F; [|done]. by injection E as <- _ _ <-. }
  destruct p1; try by (intros [= <- <- <- <-]). destruct H1 as [_ Hb1]. specialize (Hb1 eq_refl).
  destruct (send_file _ _ _) as [ [ [p2 c2] out2] rest2] eqn:F. intros [= <- <- <- <-]. unfold send_file in F.
  destruct (file_send c1); [|by injection F as <- _ _ <-]. destruct (c_ssl c1).
  - destruct (ssl_file_loop _ _ _ _ _ _) as [ [ [ [ [? ?] ?] ?] ?] ?] eqn:G. apply ssl_file_answered in G; [|done].
    by case_match; injection F as <- _ _ <-.
  - destruct (sendfile_loop _ _ _ _) as [ [ [? ?] ?] ?] eqn:G. apply sendfile_answered in G; [|done].
    by case_match; injection F as <- _ _ <-.
Qed.

Lemma handle_write_ended `{HashOrder, Zlib, FileSystem} w config pread answers writes client (wk : Worker) :
  ∃ e wk' out events, handle_write w config pread answers writes client wk = Some (e, wk', out, events) ∧
    write_ended client wk e wk' ∧
    (blocks writes → read_buf (conn_of client wk) = [] → e ≠ WNoAnswer) ∧
    (wk_conns wk !! client = None → e = WClosed).
Proof.
  unfold handle_write, write_fuel. cbn [write_loop].
  pose proof (write_turn_ended w config pread (answers 0%nat) writes client wk) as Ht1.
  pose proof (write_turn_absent w config pread (answers 0%nat) writes client wk) as Habs.
  destruct (write_turn _ _ _ (answers 0%nat) _ _ _) as [ [ [ [e1 wk1] out1] ev1] rest1] eqn:E1. cbn [fst] in Habs. destruct e1 as [e|].
  - eexists e, wk1, _, _. split_and!; [done|done| |by intros Hw; apply (inj Some), (Habs Hw)]. intros Hb Hn ->. unfold write_turn in E1.
    destruct (send_phases _ _ _) as [ [ [p c] out] rest] eqn:E. apply send_phases_buf in E as Hbuf. destruct Hbuf as [Hbuf _].
    apply send_phases_answered in E as [Hp _]; [|done]. destruct p; try done.
    destruct (finish_response _ _ _ _ _) as [ev c1] eqn:Er. unfold after_response in E1. destruct (negb _); [done|].
    assert (read_buf c1 = []) as Hb1 by (rewrite <-Hn, <-Hbuf; injection Er as _ <-; by destruct c). by rewrite Hb1 in E1.
  - destruct Ht1 as (Hu & Hne & Hb). pose proof (write_turn_ended w config pread (answers 1%nat) rest1 client wk1) as Ht2.
    pose proof (write_turn_absent w config pread (answers 1%nat) rest1 client wk1) as Hn.
    destruct (write_turn _ _ _ (answers 1%nat) _ _ _) as [ [ [ [e2 wk2] out2] ev2] rest2]. cbn [fst] in Hn. destruct e2 as [e|].
    + eexists e, wk2, _, _. split_and!; [done| |done|by intros Hw; specialize (Habs Hw)]. eapply write_ended_trans; [done| |done].
      intros Hw. by apply (inj Some), Hn.
    + by destruct Ht2 as (_ & Hne2 & _).
Qed.


(** If the client has no exchange in flight, [handle_write] keeps the
    invariant of the exchanges, and leaves an exchange of the client only when it
    returns to wait for it. *)
Theorem handle_write_keeps_links `{HashOrder, Zlib, FileSystem} w config pread answers writes client (wk wk' : Worker) e out events :
  proxy_inv wk → client_upstream_ wk !! client = None →
  handle_write w config pread answers writes client wk = Some (e, wk', out, events) →
  proxy_inv wk' ∧ (client_upstream_ wk' !! client = None ∨ e = WWaiting).
Proof.
  intros Hi Hn. unfold handle_write. generalize write_fuel, 0%nat. intros fuel. revert wk writes e out events Hi Hn.
  induction fuel as [|fuel IH]; intros wk writes e out events Hi Hn n; [done|]. cbn [write_loop].
  pose proof (write_turn_inv w config pread (answers n) writes client wk (conj Hi Hn)) as Ht.
  destruct (write_turn _ _ _ _ _ _ _) as [ [ [ [e1 wk1] out1] ev1] rest1]. destruct Ht as [Hi1 Hn1]. destruct e1 as [e1|].
  - intros [= <- <- <- <-]. split; [done|]. destruct Hn1 as [|[= ->] ]; auto.
  - destruct Hn1 as [Hn1|]; [|done]. destruct (write_loop _ _ _ _ _ _ _ _ _) as [ [ [ [e2 wk2] out2] ev2]|] eqn:E; [|done].
    intros [= <- <- <- <-]. by eapply IH.
Qed.

(** * A file that gets shorter *)

(** If a file becomes shorter while it is sent over a plain connection,
    [sendfile] answers 0 from then on and [handle_write] does not return: no number
    of answers is enough. *)
Theorem sendfile_spins `{HashOrder, Zlib, FileSystem} w config pread answers client (wk : Worker) f n :
  let c := conn_of client wk in
  c_ssl c = false → send_queue c = [] → file_send c = Some f → f_offset f < f_size f →
  handle_write w config pread answers (replicate n (Wrote 0)) client wk = Some (WNoAnswer, wk, [Raw [] ], []).
Proof.
  intros c Hs Hq Hf Hlt. unfold handle_write, write_fuel. cbn [write_loop]. unfold write_turn, send_phases, send_queued.
  fold c. rewrite Hs, Hq. cbn [drop_empty].
  assert (∀ x : list wrote, send_plain x [] = (AllSent, [], [], x)) as -> by by intros [].
  assert (c{{send_queue := [] }} = c) as -> by (destruct c; cbn in *; congruence). unfold send_file. rewrite Hf, Hs.
  assert (sendfile_loop (replicate n (Wrote 0)) (f_fd f) (f_offset f) (f_size f - f_offset f) =
    (Unanswered, f_offset f, [], [])) as ->; [|done].
  induction n as [|n IH]; cbn [replicate sendfile_loop]; destruct (Z.leb_spec (f_size f - f_offset f) 0); try lia; [done|].
  replace (Z.min (Z.of_nat 0) _) with 0 by lia. by rewrite Z.add_0_r, Z.sub_0_r, IH.
Qed.
