(* ===== verification/WriteScenarios.v ===== *)
(** [handle_write] on concrete connections, alone and after [handle_read]; and what
    the audit log shows of a request. *)

From S2P Require Import Prelude Search Config RateLimiter RouteUtils ApiKeyManager FileCache FdCache ConnectionPool LoggingUtils HttpParser HttpResponse ConfigFile UpstreamManager Routes HttpClient UpstreamResponse UpstreamExchange Tracing Responder Admission StaticFiles Proxy ProxyInvariant ProxyProperties ReadPath ReadProperties ReadScenarios WritePath WriteProperties.

#[local] Open Scope Z_scope.
#[local] Open Scope gateway_scope.

(** * The audit log *)

(** A request with credentials in its header. *)
Definition with_credentials (key authorization cookie : bytes) (req : HttpRequest) : HttpRequest :=
  req{{headers ::= fun h => <[lit "cookie" := cookie]> (<[lit "authorization" := authorization]> (<[lit "x-api-key" := key]> h))}}.

Lemma credentials_spec k a c req :
  header_or "x-api-key" [] (with_credentials k a c req) = k ∧
  header_or "authorization" [] (with_credentials k a c req) = a ∧
  header_or "cookie" [] (with_credentials k a c req) = c ∧
  header_or "user-agent" "-" (with_credentials k a c req) = header_or "user-agent" "-" req.
Proof.
  unfold header_or. assert (headers (with_credentials k a c req) =
    <[lit "cookie" := c]> (<[lit "authorization" := a]> (<[lit "x-api-key" := k]> (headers req)))) as -> by by destruct req.
  rewrite lookup_insert_eq, !(lookup_insert_ne _ (lit "cookie")), lookup_insert_eq, !(lookup_insert_ne _ (lit "authorization")),
    lookup_insert_eq, lookup_insert_ne by done. done.
Qed.

Lemma redact_header_value_secret name value config :
  lg_redact_sensitive_headers config = true → contains_name (lg_sensitive_headers config) name = true → value ≠ [] →
  redact_header_value name value config = REDACTED.
Proof. intros Hr Hn Hv. unfold redact_header_value. rewrite Hr, Hn. by destruct value. Qed.

(** The audit line of a request that was refused does not depend on the
    credentials it carries: with the redaction of headers on, and the names
    [authorization] and [cookie] on its list as they are by default, two requests
    that differ in key, authorization and cookie leave the same line. *)
Theorem audit_hides_credentials config req k a c k' a' c' status failure route host tenant :
  lg_redact_sensitive_headers config = true →
  contains_name (lg_sensitive_headers config) "authorization" = true →
  contains_name (lg_sensitive_headers config) "cookie" = true →
  k ≠ [] → a ≠ [] → c ≠ [] → k' ≠ [] → a' ≠ [] → c' ≠ [] →
  emit_audit_log (with_credentials k a c req) status failure route host tenant config =
  emit_audit_log (with_credentials k' a' c' req) status failure route host tenant config.
Proof.
  intros Hr Ha Hc Hk1 Ha1 Hc1 Hk2 Ha2 Hc2.
  assert (∀ k a c, k ≠ [] → a ≠ [] → c ≠ [] →
    emit_audit_log (with_credentials k a c req) status failure route host tenant config =
    mkAudit (if is_empty (trace_id req) then "unknown" else trace_id req) (HttpParser.method req)
      (redact_path_query (HttpParser.path req) (HttpParser.query req) config) host tenant route status failure REDACTED
      (redact_header_value "user-agent" (header_or "user-agent" "-" req) config) REDACTED REDACTED) as Hline; [|by rewrite !Hline].
  clear -Hr Ha Hc. intros k a c Hk1 Ha1 Hc1. unfold emit_audit_log. destruct (credentials_spec k a c req) as (-> & -> & -> & ->).
  rewrite (redact_header_value_secret "authorization" a), (redact_header_value_secret "cookie" c) by done.
  unfold redact_api_key, with_credentials. by destruct k, req.
Qed.

Lemma audit_hides_credentials_witness :
  emit_audit_log (with_credentials "k1" "Bearer x" "sid=1" request_clear) 401 "auth_failed" "r" "h" "t" default_LoggingConfig =
  emit_audit_log (with_credentials "key2" "Basic y" "sid=2" request_clear) 401 "auth_failed" "r" "h" "t" default_LoggingConfig.
Proof. apply audit_hides_credentials; (vm_compute; done) || done. Defined.

(** * After [handle_read] *)

#[local] Existing Instance some_order.
#[local] Existing Instance stored_zlib.
#[local] Existing Instance posix.

Definition no_file (fd offset count : Z) : option bytes := None.

(** A kernel that takes everything. *)
Definition wide_open : list wrote := replicate 8 (Wrote (Z.to_nat 100000)).

Definition writing (reads : list received) (writes : list wrote) (wk : Worker) : option (write_end * Worker * list piece * list event) :=
  handle_write site_world site no_file (λ _, mkWriteAnswers (mkDone 5 5) 5 (site_answers 8) reads) writes 1 wk.

(** The statuses recorded by the metrics. *)
Definition recorded (events : list event) : list Z :=
  omap (λ ev, match ev with RecordRequest status _ => Some status | _ => None end) events.

(** The metrics, the audit log and the access log have one entry per drain of
    the queue, not per response: of two pipelined requests, one refused and one
    served, only the last is recorded, and nothing is audited. *)
Theorem pipelined_recorded_once :
  match reading 7 [Data (get "/private" [] ++ get "/healthz" [])] connected with
  | Some (_, wk) =>
    statuses wk = [lit "401"; lit "200"] ∧
    match writing [] wide_open wk with
    | Some (_, _, _, events) =>
      recorded events = [200] ∧ (∀ l, Audited l ∉ events) ∧ length events = 3%nat
    | None => False
    end
  | None => False
  end.
Proof.
  assert (match reading 7 [Data (get "/private" [] ++ get "/healthz" [])] connected with
    | Some (_, wk) =>
      bool_decide (statuses wk = [lit "401"; lit "200"]) &&
      match writing [] wide_open wk with
      | Some (_, _, _, [RecordRequest 200 _; RecordRouteRequest _ _ _ _ _; Accessed _]) => true
      | _ => false
      end
    | None => false
    end = true) as E by (vm_compute; reflexivity).
  destruct (reading _ _ _) as [ [e wk]|]; [|done]. apply andb_true_iff in E as [E1%bool_decide_eq_true_1 E2].
  split; [exact E1|]. destruct (writing _ _ _) as [ [ [ [we wk'] out] events]|]; [|done].
  repeat (case_match; try discriminate E2). split_and!; [done| |done]. intros audited Hl. set_solver.
Qed.

(** The order of the responses on one connection is lost when a local and an
    upstream request are pipelined: [handle_write] sends the local response, then
    waits for input although an exchange is in flight, and a request that arrives
    before the backend has answered is served at once, ahead of the pending one. *)
Theorem responses_reordered :
  match reading 7 [Data (get "/healthz" [] ++ get "/api" [])] connected with
  | Some (_, wk) =>
    match writing [] wide_open wk with
    | Some (e, wk, _, _) =>
      e = WArmed ∧ armed (conn_of 1 wk) = ArmIn ∧ is_Some (client_upstream_ wk !! 1%nat) ∧
      match reading 8 [Data (get "/a.txt" [])] wk with
      | Some (_, wk) => statuses wk = [lit "200"] ∧ is_Some (client_upstream_ wk !! 1%nat)
      | None => False
      end
    | None => False
    end
  | None => False
  end.
Proof.
  assert (match reading 7 [Data (get "/healthz" [] ++ get "/api" [])] connected with
    | Some (_, wk) =>
      match writing [] wide_open wk with
      | Some (WArmed, wk, _, _) =>
        match armed (conn_of 1 wk), client_upstream_ wk !! 1%nat, reading 8 [Data (get "/a.txt" [])] wk with
        | ArmIn, Some _, Some (_, wk) => bool_decide (statuses wk = [lit "200"]) && in_flight_of 1 wk
        | _, _, _ => false
        end
      | _ => false
      end
    | None => false
    end = true) as E by (vm_compute; reflexivity).
  destruct (reading 7 _ _) as [ [e wk]|]; [|done]. destruct (writing _ _ _) as [ [ [ [ [] wk1] out] events]|]; try discriminate E.
  destruct (armed _); try discriminate E. destruct (client_upstream_ wk1 !! _); [|done].
  destruct (reading 8 _ _) as [ [e2 wk2]|]; [|done]. apply andb_true_iff in E as [E1%bool_decide_eq_true_1 E2%bool_decide_eq_true_1].
  split_and!; [done|done|by eexists|exact E1|exact E2].
Qed.

(** When a [handle_read] nested in [handle_write] closes the connection, the
    loop goes on with what is left of it: a line without method, target and status
    is written to the access log. *)
Theorem closed_connection_logged :
  let wk := set_conn 1 ((on_connect false){{read_buf := get "/a.txt" [] }}) connected in
  match writing [EndOfStream] wide_open wk with
  | Some (e, wk', _, events) =>
    e = WClosed ∧ wk_conns wk' = ∅ ∧
    last events = Some (Accessed (mkAccess "-" [] (Some []) [] 0 0 [] 0))
  | None => False
  end.
Proof. by vm_compute. Qed.

(** * Witnesses *)

(** A plain connection with a queue of two chunks and a file of ten bytes. *)
Definition busy_conn (ssl : bool) : Conn :=
  (on_connect ssl){{send_queue := [lit "head"; lit "body"]; file_send := Some (mkFile 9 2 10)}}.

Definition ten_bytes (fd : Z) : bytes := "0123456789".

Definition pread_ten (fd offset count : Z) : option bytes := Some (take 3 (slice (ten_bytes fd) offset count)).

Lemma pread_ten_ok : reads_file ten_bytes pread_ten.
Proof. intros fd offset count data <-%(inj Some). apply prefix_take. Qed.

Definition busy_worker (ssl : bool) : Worker := set_conn 1 (busy_conn ssl) connected.

Definition sample_write : WriteAnswers := mkWriteAnswers (mkDone 5 5) 5 (site_answers 8) [].

Lemma busy_ok ssl : sending_ok ten_bytes (conn_of 1 (busy_worker ssl)).
Proof. unfold busy_worker. rewrite conn_of_set_conn. split; [by destruct ssl|]. split; [cbn; lia|apply prefix_nil]. Qed.

Lemma delivery_exact_witness :
  match write_turn site_world site pread_ten sample_write [Wrote 6; Wrote 10; Wrote 2; Wrote 1; WouldBlock SSL_WRITE] 1 (busy_worker false) with
  | (Some WArmed, wk', out, _, _) =>
    delivered ten_bytes out ++ outstanding ten_bytes (conn_of 1 wk') = outstanding ten_bytes (conn_of 1 (busy_worker false))
  | _ => False
  end.
Proof.
  set (writes := [Wrote 6; Wrote 10; Wrote 2; Wrote 1; WouldBlock SSL_WRITE]).
  assert (match write_turn site_world site pread_ten sample_write writes 1 (busy_worker false) with
    | (Some WArmed, _, _, _, _) => true | _ => false end = true) as Hs by (vm_compute; reflexivity).
  destruct (write_turn _ _ _ _ _ _ _) as [ [ [ [e wk'] out] events] rest] eqn:E.
  pose proof (delivery_exact site_world site ten_bytes pread_ten _ _ _ _ _ _ _ _ _ pread_ten_ok (busy_ok false) E) as Hd.
  destruct e as [ []|]; try discriminate Hs. exact Hd.
Defined.

Lemma handle_write_keeps_links_witness :
  match handle_write site_world site pread_ten (λ _, sample_write) wide_open 1 (busy_worker true) with
  | Some (_, wk', _, _) => proxy_inv wk'
  | None => False
  end.
Proof.
  assert (match handle_write site_world site pread_ten (λ _, sample_write) wide_open 1 (busy_worker true) with
    | Some _ => true | None => false end = true) as Hs by (vm_compute; reflexivity).
  assert (proxy_inv (busy_worker true)) as Hi by (apply set_conn_inv, idle_inv_with_conns).
  assert (client_upstream_ (busy_worker true) !! 1%nat = None) as Hn by reflexivity.
  destruct (handle_write _ _ _ _ _ _ _) as [ [ [ [e wk'] out] events]|] eqn:E; [|discriminate Hs].
  exact (proj1 (handle_write_keeps_links _ _ _ _ _ _ _ _ _ _ _ Hi Hn E)).
Defined.

Lemma sendfile_spins_witness :
  let wk := set_conn 1 ((on_connect false){{file_send := Some (mkFile 9 2 10)}}) connected in
  handle_write site_world site no_file (λ _, sample_write) (replicate 1000 (Wrote 0)) 1 wk = Some (WNoAnswer, wk, [Raw [] ], []).
Proof.
  intros wk. assert (conn_of 1 wk = (on_connect false){{file_send := Some (mkFile 9 2 10)}}) as Ec by (unfold wk; apply conn_of_set_conn).
  apply (sendfile_spins site_world site no_file (λ _, sample_write) 1 wk (mkFile 9 2 10) 1000); rewrite ?Ec; reflexivity.
Defined.
