(* ===== verification/TcpWorker.v ===== *)
(** [src/server/tcpworker.cpp]: one worker, its connection table, its event loop
    with reload, idle timeouts and the draining at shutdown. The handler is the
    [Worker] of [Proxy]. *)

From S2P Require Import Prelude Search Config RateLimiter RouteUtils ApiKeyManager ConnectionBudget FileCache FdCache ConnectionPool LoggingUtils HttpParser HttpResponse ConfigFile UpstreamManager Routes HttpClient UpstreamResponse UpstreamExchange Tracing Responder Admission StaticFiles Proxy ProxyInvariant ReadPath WritePath.

#[local] Open Scope Z_scope.
#[local] Open Scope gateway_scope.

(** * Reading a configuration *)

(** What [check_timeout] reads for a new generation, with every complaint. *)
Definition read_reload `{HashOrder} (env : ConfigEnv) (path : bytes) : Config * list bytes :=
  let '(reloaded, errors) :=
    if file_ok env path then file_config env path else (default_Config, [lit "file missing or not valid JSON"]) in
  (reloaded, errors ++ Config.validate (ce_inet_pton env) reloaded).

(** * State *)

Inductive SSLState := HANDSHAKING | READY.

(** An entry of [conns_]: the socket, by its number, and its state; the entry owns
    one slot of the budget, if there is one. *)
Record ConnInfo := mkInfo { ci_sock : nat; ci_state : SSLState }.

Record Tcp `{FileSystem} := mkTcp {
  handler_ : Worker;
  handler_config : Config;
  ssl_ctx_ : TlsConfig;
  conns_ : gmap nat ConnInfo;
  connection_budget_ : option budget;
  last_active_ : gmap nat Z;
  client_ips_ : gmap nat bytes;
  keepalive_timeout_ : Z;
  shutdown_drain_timeout_ : Z;
  last_timeout_check_ : Z;
  last_limiter_cleanup_ : Z;
  applied_reload_generation_ : Z;
  sockets : nat;
  rejected : Z;
  active_gauge : Z;
}.

(** [ConnectionBudget::try_acquire] with no other worker in between. *)
Definition try_acquire (b : budget) : option budget :=
  if in_use_ b <? max_ b then Some (b{{in_use_ ::= fun n => wrap64 (n + 1)}}) else None.

Section tcp.
  Context `{HashOrder, Zlib, FileSystem} (w : World).

(** The destructor of a ticket that owns a slot. *)
Definition release_slot (st : Tcp) : Tcp := st{{connection_budget_ ::= fmap ConnectionBudget.release}}.

(** [conns_.erase(fd)] *)
Definition erase_entry (fd : nat) (st : Tcp) : Tcp :=
  match conns_ st !! fd with
  | None => st
  | Some _ => release_slot (st{{conns_ ::= delete fd}})
  end.

Definition forget_fd (fd : nat) (st : Tcp) : Tcp := st{{last_active_ ::= delete fd; client_ips_ ::= delete fd}}.

(** [handler_.cleanup(conn.sock)] *)
Definition cleanup_sock (sock : nat) (st : Tcp) : Tcp := st{{handler_ ::= cleanup_conn sock}}.

(** * Accepting *)

(** [accept] answers with a socket and its address, the clock, and whether the
    options and the TLS session could be set; or it throws. *)
Inductive accepted := Accepted (fd : nat) (ip : bytes) (now : Z) (options ssl : bool) | AcceptThrows.

Definition acquire_slot (st : Tcp) : option Tcp :=
  match connection_budget_ st with
  | None => Some st
  | Some b => match try_acquire b with Some b => Some (st{{connection_budget_ := Some b}}) | None => None end
  end.

(** The entry is assigned: what was there under the same number loses its slot. *)
Definition insert_entry (fd : nat) (st : Tcp) : Tcp :=
  let st := erase_entry fd st in
  st{{conns_ ::= <[fd := mkInfo (sockets st) HANDSHAKING]>; handler_ ::= set_conn (sockets st) (on_connect true); sockets ::= S}}.

Fixpoint handle_accept (answers : list accepted) (st : Tcp) : result Tcp :=
  match answers with
  | [] => Ok st
  | AcceptThrows :: _ => Escaped st
  | Accepted fd ip now options ssl :: answers' =>
    match acquire_slot st with
    | None => handle_accept answers' (st{{rejected ::= Z.add 1}})
    | Some st =>
      let st := st{{client_ips_ ::= <[fd := ip]>; last_active_ ::= <[fd := now]>}} in
      if negb options then Escaped (release_slot st)
      else if negb ssl then handle_accept answers' (release_slot st)
      else handle_accept answers' (insert_entry fd st)
    end
  end.

(** * Events of clients *)

(** [EPOLLERR | EPOLLHUP | EPOLLRDHUP], [EPOLLIN], [EPOLLOUT] *)
Record Events := mkEvents { ev_hup : bool; ev_in : bool; ev_out : bool }.

Record ClientAnswers := mkClientAnswers {
  ca_handshake : SSLHandshakeStatus;
  ca_time : Z;
  ca_now : Z;
  ca_env : nat → RequestAnswers;
  ca_reads : list received;
  ca_turns : nat → WriteAnswers;
  ca_writes : list wrote;
  ca_pread : Z → Z → Z → option bytes;
}.

Definition set_handler (wk : Worker) (st : Tcp) : Tcp := st{{handler_ := wk}}.

Definition set_ready (fd : nat) (info : ConnInfo) (st : Tcp) : Tcp :=
  st{{conns_ ::= <[fd := mkInfo (ci_sock info) READY]>;
      handler_ ::= fun wk => set_conn (ci_sock info) ((conn_of (ci_sock info) wk){{armed := ArmIn}}) wk}}.

Definition handshake_step (a : ClientAnswers) (fd : nat) (ev : Events) (info : ConnInfo) (st : Tcp) : Tcp :=
  if ev_hup ev then forget_fd fd (erase_entry fd st)
  else
    match ca_handshake a with
    | HS_COMPLETE => set_ready fd info st
    | HS_FAILED => forget_fd fd (erase_entry fd st)
    | _ => st{{handler_ ::= fun wk => set_conn (ci_sock info) ((conn_of (ci_sock info) wk){{armed := ArmInOut}}) wk}}
    end.

Definition close_client (fd : nat) (info : ConnInfo) (st : Tcp) : Tcp :=
  forget_fd fd (erase_entry fd (cleanup_sock (ci_sock info) st)).

Definition run_write (a : ClientAnswers) (sock : nat) (st : Tcp) : option Tcp :=
  match handle_write w (handler_config st) (ca_pread a) (ca_turns a) (ca_writes a) sock (handler_ st) with
  | Some (WNoAnswer, _, _, _) | None => None
  | Some (_, wk, _, _) => Some (set_handler wk st)
  end.

Definition run_read (a : ClientAnswers) (sock fd : nat) (st : Tcp) : option Tcp :=
  let ip := default [] (client_ips_ st !! fd) in
  match handle_read w (handler_config st) (ca_now a) (ca_env a) (ca_reads a) sock ip (handler_ st) with
  | Some (NoAnswer, _) | None => None
  | Some (_, wk) => Some (set_handler wk st)
  end.

(** [None]: too few answers for the call to return. *)
Definition handle_client (a : ClientAnswers) (fd : nat) (ev : Events) (st : Tcp) : option Tcp :=
  match conns_ st !! fd with
  | None => Some st
  | Some info =>
    match ci_state info with
    | HANDSHAKING => Some (handshake_step a fd ev info st)
    | READY =>
      let st := st{{last_active_ ::= <[fd := ca_time a]>}} in
      if ev_hup ev then Some (close_client fd info st)
      else
        let served :=
          if ev_in ev then
            if has_pending_ssl_write (conn_of (ci_sock info) (handler_ st)) then run_write a (ci_sock info) st
            else run_read a (ci_sock info) fd st
          else if ev_out ev then run_write a (ci_sock info) st
          else Some (close_client fd info st) in
        match served with
        | Some st => Some (if bool_decide (is_Some (conns_ st !! fd)) then st else st{{last_active_ ::= delete fd}})
        | None => None
        end
    end
  end.

(** * Maintenance *)

Definition reload_config (config : Config) (st : Tcp) : Tcp :=
  st{{handler_config := config;
      handler_ ::= fun wk => set_shared ((wk_shared wk){{sh_upstreams ::= UpstreamManager.reload (upstream_config config);
                                                         sh_limiter ::= update_default_config (rate_limit_config config)}}) wk}}.

(** [check_timeout]'s answers: [time], the generation, the file, whether the TLS
    context can be built, the clock of the limiter, and the health probe. *)
Record Maintenance := mkMaintenance {
  mt_now : Z;
  mt_generation : Z;
  mt_env : ConfigEnv;
  mt_path : bytes;
  mt_tls : TlsConfig → bool;
  mt_limiter_now : Z;
  mt_probe : ProbeTarget → bool;
}.

Definition maybe_reload (t : Maintenance) (st : Tcp) : Tcp :=
  if mt_generation t =? applied_reload_generation_ st then st
  else
    match read_reload (mt_env t) (mt_path t) with
    | (reloaded, []) =>
      let st := reload_config reloaded st in
      let st := st{{keepalive_timeout_ := keepalive_timeout reloaded;
                    connection_budget_ ::= fmap (λ b, b{{max_ := max_connections reloaded}})}} in
      let st := if mt_tls t (tls reloaded) then st{{ssl_ctx_ := tls reloaded}} else st in
      st{{applied_reload_generation_ := mt_generation t}}
    | (_, _ :: _) => st
    end.

(** One entry of [last_active_]. *)
Definition check_idle (now : Z) (st : Tcp) (fd : nat) : Tcp :=
  match last_active_ st !! fd, conns_ st !! fd with
  | Some _, None => st{{last_active_ ::= delete fd}}
  | Some t, Some info =>
    if keepalive_timeout_ st <? now - t then
      (erase_entry fd (cleanup_sock (ci_sock info) st)){{last_active_ ::= delete fd}}
    else st
  | None, _ => st
  end.

Definition check_all_idle (now : Z) (st : Tcp) : Tcp := foldl (check_idle now) st (map_to_list (last_active_ st)).*1.

Definition check_timeout (t : Maintenance) (st : Tcp) : Tcp :=
  let st := check_all_idle (mt_now t) (maybe_reload t st) in
  let st := st{{handler_ ::= fun wk => set_upstreams (check_health (mt_probe t) (sh_upstreams (wk_shared wk))) wk}} in
  let st := match connection_budget_ st with Some b => st{{active_gauge := in_use_ b}} | None => st end in
  if 60 <=? mt_now t - last_limiter_cleanup_ st then
    st{{handler_ ::= fun wk => set_shared ((wk_shared wk){{sh_limiter ::= RateLimiter.cleanup DEFAULT_IDLE (mt_limiter_now t)}}) wk;
        last_limiter_cleanup_ := mt_now t}}
  else st.

(** * The event loop *)

(** One event: the descriptor, the flags, and the answers for whoever gets it. *)
Record FdEvent := mkFdEvent {
  fe_fd : nat;
  fe_events : Events;
  fe_mask : Z;
  fe_accept : list accepted;
  fe_drives : list Drive;
  fe_client : ClientAnswers;
}.

Definition lift_result (st : Tcp) (r : option (result Worker)) : option (result Tcp) :=
  match r with
  | Some (Ok wk) => Some (Ok (set_handler wk st))
  | Some (Escaped wk) => Some (Escaped (set_handler wk st))
  | None => None
  end.

Definition handle_event (listen : nat) (e : FdEvent) (st : Tcp) : option (result Tcp) :=
  if fe_fd e == listen then Some (handle_accept (fe_accept e) st)
  else if is_upstream_fd (fe_fd e) (handler_ st) then
    lift_result st (on_upstream_event w (fe_drives e) (fe_fd e) (fe_mask e) (handler_ st))
  else match handle_client (fe_client e) (fe_fd e) (fe_events e) st with Some st => Some (Ok st) | None => None end.

Fixpoint handle_events (handle : FdEvent → Tcp → option (result Tcp)) (events : list FdEvent) (st : Tcp)
    : option (result Tcp) :=
  match events with
  | [] => Some (Ok st)
  | e :: events' =>
    match handle e st with
    | Some (Ok st) => handle_events handle events' st
    | r => r
    end
  end.

(** The answers of [check_upstream_timeouts]. *)
Record Timeouts := mkTimeouts { to_now : Z; to_due : nat → Due; to_order : list nat }.

Definition upstream_timeouts (t : Timeouts) (st : Tcp) : option (result Tcp) :=
  lift_result st (check_upstream_timeouts w (to_now t) (to_due t) (to_order t) (handler_ st)).

(** What [epoll_wait] answers, with what follows it. *)
Inductive wait_result :=
| Interrupted
| TimedOut (m : Maintenance) (t : Timeouts)
| Events_ready (events : list FdEvent) (t : Timeouts) (now : Z) (m : Maintenance).

Definition and_then (r : option (result Tcp)) (f : Tcp → option (result Tcp)) : option (result Tcp) :=
  match r with Some (Ok st) => f st | r => r end.

(** One turn of [run], before the stop flag is set. *)
Definition run_turn (listen : nat) (r : wait_result) (st : Tcp) : option (result Tcp) :=
  match r with
  | Interrupted => Some (Ok st)
  | TimedOut m t => upstream_timeouts t (check_timeout m st)
  | Events_ready events t now m =>
    and_then (handle_events (handle_event listen) events st) (λ st,
    and_then (upstream_timeouts t st) (λ st,
      Some (Ok (if 1 <=? now - last_timeout_check_ st then (check_timeout m st){{last_timeout_check_ := now}} else st))))
  end.

(** * Draining *)

Definition drain_event (listen : nat) (e : FdEvent) (st : Tcp) : option (result Tcp) :=
  if is_upstream_fd (fe_fd e) (handler_ st) then
    lift_result st (on_upstream_event w (fe_drives e) (fe_fd e) (fe_mask e) (handler_ st))
  else if fe_fd e == listen then Some (Ok st)
  else match handle_client (fe_client e) (fe_fd e) (fe_events e) st with Some st => Some (Ok st) | None => None end.

(** Between requests, or still in its handshake. *)
Definition is_idle (st : Tcp) (info : ConnInfo) : bool :=
  match ci_state info with
  | HANDSHAKING => true
  | READY => negb (has_inflight_work (ci_sock info) (handler_ st))
  end.

Definition drain_idle (st : Tcp) (fd : nat) : Tcp :=
  match conns_ st !! fd with
  | Some info => if is_idle st info then close_client fd info st else st
  | None => st
  end.

Definition close_idle (st : Tcp) : Tcp := foldl drain_idle st (map_to_list (conns_ st)).*1.

Definition force_close (st : Tcp) (fd : nat) : Tcp :=
  match conns_ st !! fd with Some info => erase_entry fd (cleanup_sock (ci_sock info) st) | None => st end.

(** [conns_.clear()] after every cleanup. *)
Definition close_rest (st : Tcp) : Tcp :=
  (foldl force_close st (map_to_list (conns_ st)).*1){{last_active_ := ∅}}.

(** One turn: the clock, the events, the timeouts. *)
Record DrainTurn := mkDrain { dr_now : Z; dr_events : list FdEvent; dr_timeouts : Timeouts }.

Definition drain_turn (listen : nat) (t : DrainTurn) (st : Tcp) : option (result Tcp) :=
  and_then (handle_events (drain_event listen) (dr_events t) st) (λ st,
  and_then (upstream_timeouts (dr_timeouts t) st) (λ st, Some (Ok (close_idle st)))).

Fixpoint drain_loop (listen : nat) (deadline : Z) (turns : list DrainTurn) (st : Tcp) : option (result Tcp) :=
  if bool_decide (conns_ st = ∅) then Some (Ok (close_rest st))
  else
    match turns with
    | [] => None
    | t :: turns' =>
      if deadline <=? dr_now t then Some (Ok (close_rest st))
      else and_then (drain_turn listen t st) (drain_loop listen deadline turns')
    end.

(** [start]: the clock when the draining begins; the budget in seconds. *)
Definition drain_connections (listen : nat) (start : Z) (turns : list DrainTurn) (st : Tcp) : option (result Tcp) :=
  drain_loop listen (start + shutdown_drain_timeout_ st * 10 ^ 9) turns st.

(** * The life of a worker *)

(** One turn of the loop: whether the worker is told to stop at its head, what
    [wait] answers, and the flag as it is read again after a wait without events. *)
Record LoopTurn := mkLoopTurn { lt_stop : bool; lt_wait : wait_result; lt_stop_again : bool }.

Definition waited_in_vain (r : wait_result) : bool := match r with TimedOut _ _ => true | _ => false end.

Fixpoint run_loop (listen : nat) (turns : list LoopTurn) (st : Tcp) : option (result Tcp) :=
  match turns with
  | [] => None
  | t :: turns' =>
    if lt_stop t then Some (Ok st)
    else if waited_in_vain (lt_wait t) && lt_stop_again t then Some (Ok st)
    else and_then (run_turn listen (lt_wait t) st) (run_loop listen turns')
  end.

Definition run_worker (listen : nat) (turns : list LoopTurn) (start : Z) (drains : list DrainTurn) (st : Tcp) : option (result Tcp) :=
  and_then (run_loop listen turns st) (drain_connections listen start drains).
End tcp.
