(* ===== verification/TcpInvariant.v ===== *)
(** Invariants of a worker: its connection table against the budget, the handler's
    connections and the exchanges; the configuration in force; the draining. *)

From S2P Require Import Prelude Search Config RateLimiter RouteUtils ApiKeyManager ConnectionBudget FileCache FdCache ConnectionPool LoggingUtils HttpParser HttpResponse ConfigFile UpstreamManager Routes HttpClient UpstreamResponse UpstreamExchange Tracing Responder Admission StaticFiles Proxy ProxyInvariant ProxyProperties ReadPath ReadProperties WritePath WriteProperties TcpWorker.

#[local] Open Scope Z_scope.
#[local] Open Scope gateway_scope.

(** * What backend events do to the connections *)

Section evolution.
  Context `{HashOrder, Zlib, FileSystem} (w : World).

(** Exchanges end and do not appear; only connections with an exchange change, and
    none disappears. *)
Record evolves (wk wk' : Worker) : Prop := {
  ev_exchanges : ∀ o, is_Some (client_upstream_ wk' !! o) → is_Some (client_upstream_ wk !! o);
  ev_conns : ∀ o, client_upstream_ wk !! o = None → wk_conns wk' !! o = wk_conns wk !! o;
  ev_alive : ∀ o, is_Some (wk_conns wk !! o) → is_Some (wk_conns wk' !! o);
}.

#[global] Instance evolves_preorder : PreOrder evolves.
Proof.
  split; [by split|]. intros wk1 wk2 wk3 [E1 E2 E3] [F1 F2 F3]. split; [by auto| |by auto].
  intros o Ho. rewrite F2; [by apply E2|]. apply eq_None_not_Some. intros Hs%E1. by rewrite Ho in Hs; destruct Hs.
Qed.

Lemma only_evolves client wk wk' : is_Some (client_upstream_ wk !! client) → only client wk wk' → evolves wk wk'.
Proof.
  intros Hs [_ Ha Ho]. split.
  - intros o Hx. destruct (decide (o = client)) as [->|Hne]; [done|]. by destruct (Ho o Hne) as [_ <-].
  - intros o Hn. destruct (decide (o = client)) as [->|Hne]; [by rewrite Hn in Hs; destruct Hs|]. by apply Ho.
  - intros o Hx. destruct (decide (o = client)) as [->|Hne]; [by auto|]. by destruct (Ho o Hne) as [-> _].
Qed.

Lemma child_of_exchange client idx (wk : Worker) x : child_of client idx wk = Some x → is_Some (client_upstream_ wk !! client).
Proof. unfold child_of. destruct (client_upstream_ wk !! client); [by eexists|done]. Qed.

Lemma drive_child_evolves answers ev client idx (wk : Worker) r :
  drive_child w answers ev client idx wk = Some r → holds (evolves wk) r.
Proof.
  intros E. destruct (child_of client idx wk) as [x|] eqn:Ec.
  - apply child_of_exchange in Ec. apply drive_child_only in E. destruct r; by eapply only_evolves.
  - destruct answers; [done|]. cbn [drive_child] in E. rewrite Ec in E. injection E as <-. exact (reflexivity wk).
Qed.

Lemma on_upstream_event_evolves answers fd ev (wk : Worker) r :
  on_upstream_event w answers fd ev wk = Some r → holds (evolves wk) r.
Proof.
  unfold on_upstream_event. destruct (upstream_fd_owner_ wk !! fd) as [ [client idx]|].
  - apply drive_child_evolves.
  - intros <-%(inj Some). exact (reflexivity wk).
Qed.

Lemma holds_evolves wk1 wk2 r : evolves wk1 wk2 → holds (evolves wk2) r → holds (evolves wk1) r.
Proof. intros E. destruct r; cbn; intros F; exact (transitivity E F). Qed.

Lemma force_finish_evolves now client idx (wk : Worker) : evolves wk (force_finish_child now client idx wk).
Proof.
  unfold force_finish_child. destruct (child_of client idx wk) as [ [st ch]|] eqn:Ec; [|done].
  destruct (ch_finished ch); [done|]. pose proof (unregister_only client ch wk) as Hu.
  destruct (unregister ch wk) as [ch2 wk2]. cbn [snd] in Hu. eapply only_evolves; [by eapply child_of_exchange|].
  etrans; [exact Hu|apply set_child_only].
Qed.

Lemma force_all_evolves times n client i (wk : Worker) : evolves wk (force_all times n client i wk).
Proof.
  revert i wk. induction n as [|n IH]; intros i wk; cbn [force_all]; [done|].
  etrans; [apply force_finish_evolves|apply IH].
Qed.

Lemma drive_expired_evolves now answers n client i (wk : Worker) r :
  drive_expired w now answers n client i wk = Some r → holds (evolves wk) r.
Proof.
  revert i wk r. induction n as [|n IH]; intros i wk r; cbn [drive_expired].
  { intros <-%(inj Some). exact (reflexivity wk). }
  destruct (child_of client i wk) as [ [st ch]|]; [|intros <-%(inj Some); exact (reflexivity wk)].
  destruct (live_exchange ch); [|by apply IH]. case_match; [|by apply IH].
  destruct (drive_child _ _ _ _ _ _) as [ [wk'|wk']|] eqn:E; [|intros <-%(inj Some)|done];
    apply drive_child_evolves in E; [|exact E]. intros Hr%IH. by eapply holds_evolves.
Qed.

Lemma finalize_composite_evolves client src st (wk : Worker) :
  is_Some (client_upstream_ wk !! client) → holds (evolves wk) (finalize_composite w client src st wk).
Proof.
  intros Hs. pose proof (finalize_composite_only w client src st wk) as Ho.
  destruct (finalize_composite _ _ _ _ _); by eapply only_evolves.
Qed.

Lemma check_client_evolves now d client (wk : Worker) r :
  check_client w now d client wk = Some r → holds (evolves wk) r.
Proof.
  unfold check_client. destruct (client_upstream_ wk !! client) as [st|]; [|intros <-%(inj Some); exact (reflexivity wk)].
  case_match; [|apply drive_expired_evolves]. set (wk1 := force_all _ _ _ _ wk).
  assert (evolves wk wk1) as E1 by apply force_all_evolves.
  destruct (client_upstream_ wk1 !! client) eqn:Es; intros <-%(inj Some); [|exact E1].
  eapply holds_evolves; [exact E1|]. apply finalize_composite_evolves. by rewrite Es.
Qed.

Lemma check_upstream_timeouts_evolves now answers order (wk : Worker) r :
  check_upstream_timeouts w now answers order wk = Some r → holds (evolves wk) r.
Proof.
  unfold check_upstream_timeouts. generalize (due_clients now order wk). intros due. revert wk r.
  induction due as [|client due IH]; intros wk r; cbn [check_clients].
  { intros <-%(inj Some). exact (reflexivity wk). }
  destruct (check_client _ _ _ _ _) as [ [wk'|wk']|] eqn:E; [|intros <-%(inj Some)|done];
    apply check_client_evolves in E; [|exact E]. intros Hr%IH. by eapply holds_evolves.
Qed.
End evolution.

(** * The connection table *)

(** A connection before its first request. *)
Definition blank (a : Interest) : Conn := (on_connect true){{armed := a}}.

(** The slots of the budget: those of the other workers, and one per entry. *)
Definition slots_ok (others : Z) (B : option budget) (C : gmap nat ConnInfo) : Prop :=
  match B with
  | Some b => in_use_ b = others + Z.of_nat (base.size C) ∧ in_use_ b <= SIZE_MAX ∧ max_ b <= SIZE_MAX
  | None => True
  end.

(** The table against the connections [W] and the exchanges [X] of the handler;
    [n] sockets were created. *)
Record table_ok (C : gmap nat ConnInfo) (n : nat) (W : gmap nat Conn) (X : states_t) : Prop := {
  tb_old : ∀ fd info, C !! fd = Some info → (ci_sock info < n)%nat;
  tb_inj : ∀ fd fd' info info', C !! fd = Some info → C !! fd' = Some info' → ci_sock info = ci_sock info' → fd = fd';
  tb_exchange : ∀ client, is_Some (X !! client) →
    is_Some (W !! client) ∧ ∃ fd info, C !! fd = Some info ∧ ci_sock info = client ∧ ci_state info = READY;
  tb_conn : ∀ client c, W !! client = Some c →
    (client < n)%nat ∧ ((∃ fd info, C !! fd = Some info ∧ ci_sock info = client) ∨ ∃ a, c = blank a);
  tb_handshake : ∀ fd info, C !! fd = Some info → ci_state info = HANDSHAKING → ∃ a, W !! ci_sock info = Some (blank a);
}.

(** An entry in its handshake has no exchange. *)
Lemma handshake_no_exchange C n W X fd info :
  table_ok C n W X → C !! fd = Some info → ci_state info = HANDSHAKING → X !! ci_sock info = None.
Proof.
  intros HT E Hs. apply eq_None_not_Some. intros Hx. destruct (tb_exchange _ _ _ _ HT _ Hx) as (_ & fd' & info' & E' & Es & Hr).
  assert (fd' = fd) as -> by (by eapply (tb_inj _ _ _ _ HT)). simplify_eq. congruence.
Qed.

(** An entry is erased: its socket has no exchange, and at most a blank connection. *)
Lemma table_erase C n W X fd info :
  table_ok C n W X → C !! fd = Some info → X !! ci_sock info = None →
  (∀ c, W !! ci_sock info = Some c → ∃ a, c = blank a) → table_ok (delete fd C) n W X.
Proof.
  intros HT E Hx Hb. split.
  - intros fd' info' [_ E']%lookup_delete_Some. by eapply tb_old.
  - intros fd1 fd2 i1 i2 [_ E1]%lookup_delete_Some [_ E2]%lookup_delete_Some. by eapply tb_inj.
  - intros client Hc. destruct (tb_exchange _ _ _ _ HT _ Hc) as (Hw & fd' & info' & E' & Es & Hr).
    split; [done|]. exists fd', info'. rewrite lookup_delete_ne; [done|]. intros ->. simplify_eq.
    by rewrite Hx in Hc; destruct Hc.
  - intros client c Hc. destruct (tb_conn _ _ _ _ HT _ _ Hc) as (Hn & [(fd' & info' & E' & Es)|Hblank]); split; try done; [|by right].
    destruct (decide (fd' = fd)) as [->|Hne]; [right; simplify_eq; by apply Hb|].
    left. exists fd', info'. by rewrite lookup_delete_ne.
  - intros fd' info' [_ E']%lookup_delete_Some. by eapply tb_handshake.
Qed.

(** A socket is cleaned up and its entry erased. *)
Lemma table_close C n W X fd info :
  table_ok C n W X → C !! fd = Some info →
  table_ok (delete fd C) n (delete (ci_sock info) W) (delete (ci_sock info) X).
Proof.
  intros HT E. split.
  - intros fd' info' [_ E']%lookup_delete_Some. by eapply tb_old.
  - intros fd1 fd2 i1 i2 [_ E1]%lookup_delete_Some [_ E2]%lookup_delete_Some. by eapply tb_inj.
  - intros client [st [Hne Hc]%lookup_delete_Some].
    destruct (tb_exchange _ _ _ _ HT client) as (Hw & fd' & info' & E' & Es & Hr); [by eexists|].
    rewrite lookup_delete_ne by done. split; [done|]. exists fd', info'. rewrite lookup_delete_ne; [done|]. congruence.
  - intros client c [Hne Hc]%lookup_delete_Some.
    destruct (tb_conn _ _ _ _ HT _ _ Hc) as (Hn & [(fd' & info' & E' & Es)|Hblank]); split; try done; [|by right].
    left. exists fd', info'. rewrite lookup_delete_ne; [done|]. congruence.
  - intros fd' info' [Hne E']%lookup_delete_Some Hs. destruct (tb_handshake _ _ _ _ HT _ _ E' Hs) as [a Ha].
    exists a. rewrite lookup_delete_ne; [done|]. intros Es. by apply Hne, (tb_inj _ _ _ _ HT _ _ _ _ E E').
Qed.

(** A new socket is entered. *)
Lemma table_insert C n W X fd :
  table_ok C n W X → C !! fd = None →
  table_ok (<[fd := mkInfo n HANDSHAKING]> C) (S n) (<[n := on_connect true]> W) X.
Proof.
  intros HT E.
  assert (∀ fd' info', C !! fd' = Some info' → (ci_sock info' < n)%nat) as Hold by apply HT.
  assert (X !! n = None) as Hx.
  { apply eq_None_not_Some. intros Hx. destruct (tb_exchange _ _ _ _ HT _ Hx) as (_ & fd' & info' & E' & Es & _).
    apply Hold in E'. lia. }
  split.
  - intros fd' info' [ [<- <-]|[_ E'%Hold] ]%lookup_insert_Some; cbn; lia.
  - intros fd1 fd2 i1 i2 [ [<- <-]|[_ E1] ]%lookup_insert_Some [ [<- <-]|[_ E2] ]%lookup_insert_Some; cbn; try done.
    + apply Hold in E2. lia.
    + apply Hold in E1. lia.
    + by eapply (tb_inj _ _ _ _ HT).
  - intros client Hc. destruct (tb_exchange _ _ _ _ HT _ Hc) as (Hw & fd' & info' & E' & Es & Hr).
    split; [rewrite lookup_insert_is_Some'; by right|]. exists fd', info'. rewrite lookup_insert_ne; [done|]. congruence.
  - intros client c [ [<- <-]|[Hne Hc] ]%lookup_insert_Some; [split; [lia|right; by exists Disarmed]|].
    destruct (tb_conn _ _ _ _ HT _ _ Hc) as (Hn & [(fd' & info' & E' & Es)|Hblank]); (split; [lia|]); [|by right].
    left. exists fd', info'. rewrite lookup_insert_ne; [done|]. congruence.
  - intros fd' info' [ [<- <-]|[_ E'] ]%lookup_insert_Some Hs; cbn.
    + exists Disarmed. by rewrite lookup_insert_eq.
    + destruct (tb_handshake _ _ _ _ HT _ _ E' Hs) as [a Ha]. exists a. rewrite lookup_insert_ne; [done|].
      apply Hold in E'. lia.
Qed.

(** The entry of a socket becomes ready, or stays in its handshake. *)
Lemma table_rearm C n W X fd info s a :
  table_ok C n W X → C !! fd = Some info → ci_state info = HANDSHAKING →
  table_ok (<[fd := mkInfo (ci_sock info) s]> C) n (<[ci_sock info := blank a]> W) X.
Proof.
  intros HT E Hs. pose proof (handshake_no_exchange _ _ _ _ _ _ HT E Hs) as Hx. split.
  - intros fd' info' [ [<- <-]|[_ E'] ]%lookup_insert_Some; cbn; by eapply tb_old.
  - intros fd1 fd2 i1 i2 [ [<- <-]|[? E1] ]%lookup_insert_Some [ [<- <-]|[? E2] ]%lookup_insert_Some; cbn; try done;
      by eapply tb_inj.
  - intros client Hc. destruct (tb_exchange _ _ _ _ HT _ Hc) as (Hw & fd' & info' & E' & Es & Hr).
    assert (client ≠ ci_sock info) by (intros ->; by rewrite Hx in Hc; destruct Hc).
    rewrite lookup_insert_ne by done. split; [done|]. exists fd', info'. rewrite lookup_insert_ne; [done|]. congruence.
  - intros client c [ [<- <-]|[Hne Hc] ]%lookup_insert_Some.
    + split; [by eapply tb_old|]. left. exists fd, (mkInfo (ci_sock info) s). by rewrite lookup_insert_eq.
    + destruct (tb_conn _ _ _ _ HT _ _ Hc) as (Hn & [(fd' & info' & E' & Es)|Hblank]); split; try done; [|by right].
      left. exists fd', info'. rewrite lookup_insert_ne; [done|]. congruence.
  - intros fd' info' [ [<- <-]|[Hne E'] ]%lookup_insert_Some Hs'; cbn in *.
    + exists a. by rewrite lookup_insert_eq.
    + destruct (tb_handshake _ _ _ _ HT _ _ E' Hs') as [a' Ha]. exists a'. rewrite lookup_insert_ne; [done|].
      intros Es. by apply Hne, (tb_inj _ _ _ _ HT _ _ _ _ E E').
Qed.

(** One ready connection is served. *)
Lemma table_serve C n W X W' X' fd info :
  table_ok C n W X → C !! fd = Some info → ci_state info = READY →
  (∀ o, o ≠ ci_sock info → W' !! o = W !! o ∧ X' !! o = X !! o) →
  (is_Some (X' !! ci_sock info) → is_Some (W' !! ci_sock info)) → table_ok C n W' X'.
Proof.
  intros HT E Hs Ho Ha. split; [apply HT|apply HT|..].
  - intros client Hc. destruct (decide (client = ci_sock info)) as [->|Hne]; [split; [by auto|by exists fd, info]|].
    destruct (Ho client Hne) as [Hw Hx]. rewrite Hw. rewrite Hx in Hc. by apply HT.
  - intros client c Hc. destruct (decide (client = ci_sock info)) as [->|Hne].
    + split; [by eapply tb_old|]. left. by exists fd, info.
    + destruct (Ho client Hne) as [Hw _]. rewrite Hw in Hc. by apply HT.
  - intros fd' info' E' Hs'. destruct (decide (ci_sock info' = ci_sock info)) as [Es|Hne].
    + assert (fd' = fd) as -> by (by eapply (tb_inj _ _ _ _ HT)). simplify_eq. congruence.
    + destruct (Ho _ Hne) as [-> _]. by eapply tb_handshake.
Qed.

(** Backends answer, or their time is up. *)
Lemma table_evolve `{FileSystem} C n (wk wk' : Worker) :
  evolves wk wk' → table_ok C n (wk_conns wk) (client_upstream_ wk) → table_ok C n (wk_conns wk') (client_upstream_ wk').
Proof.
  intros [E1 E2 E3] HT. split; [apply HT|apply HT|..].
  - intros client Hc. destruct (tb_exchange _ _ _ _ HT client) as [Hw Hent]; [by apply E1|]. split; [by apply E3|done].
  - intros client c Hc. destruct (client_upstream_ wk !! client) as [st|] eqn:Ex.
    + destruct (tb_exchange _ _ _ _ HT client) as ([c0 Hw] & fd & info & E & Es & _); [by rewrite Ex|].
      split; [by eapply (tb_conn _ _ _ _ HT)|]. left. by exists fd, info.
    + rewrite E2 in Hc by done. by apply HT.
  - intros fd info E Hs. rewrite E2; [by eapply tb_handshake|]. by eapply handshake_no_exchange.
Qed.

(** * The slots *)

Lemma slots_release others B C fd info :
  0 <= others → slots_ok others B C → C !! fd = Some info → slots_ok others (ConnectionBudget.release <$> B) (delete fd C).
Proof.
  intros Ho. destruct B as [b|]; [|done]. intros (E1 & E2 & E3) Hc.
  assert (base.size C = S (base.size (delete fd C))) as Hd.
  { rewrite <-(insert_delete_id C fd info) at 1 by done. apply map_size_insert_None, lookup_delete_eq. }
  destruct b as [n mx ws ts]. cbn in *. unfold wrap64. rewrite Z.mod_small; [|unfold SIZE_MAX in *; lia]. lia.
Qed.

Lemma slots_give_back others B C :
  0 <= others → slots_ok (others + 1) B C → slots_ok others (ConnectionBudget.release <$> B) C.
Proof.
  intros Ho. destruct B as [b|]; [|done]. intros (E1 & E2 & E3). destruct b as [n mx ws ts]. cbn in *.
  unfold wrap64. rewrite Z.mod_small; [|unfold SIZE_MAX in *; lia]. lia.
Qed.

Lemma slots_insert others B C fd info : C !! fd = None → slots_ok (others + 1) B C → slots_ok others B (<[fd := info]> C).
Proof. intros E. destruct B as [b|]; [|done]. intros (E1 & E2 & E3). cbn. rewrite map_size_insert_None by done. lia. Qed.

Section worker.
  Context `{HashOrder, Zlib, FileSystem} (w : World).

Definition tcp_inv (others : Z) (st : Tcp) : Prop :=
  0 <= others ∧ slots_ok others (connection_budget_ st) (conns_ st) ∧
  table_ok (conns_ st) (sockets st) (wk_conns (handler_ st)) (client_upstream_ (handler_ st)).

(** What the invariant depends on. *)
Definition core (st : Tcp) : option budget * gmap nat ConnInfo * nat * gmap nat Conn * states_t :=
  (connection_budget_ st, conns_ st, sockets st, wk_conns (handler_ st), client_upstream_ (handler_ st)).

Lemma tcp_inv_core others st st' : core st' = core st → tcp_inv others st → tcp_inv others st'.
Proof. unfold tcp_inv, core. intros [= -> -> -> -> ->]. done. Qed.

Lemma erase_entry_core fd (st : Tcp) info :
  conns_ st !! fd = Some info →
  core (erase_entry fd st) =
    (ConnectionBudget.release <$> connection_budget_ st, delete fd (conns_ st), sockets st, wk_conns (handler_ st), client_upstream_ (handler_ st)).
Proof. intros E. unfold erase_entry. rewrite E. by destruct st. Qed.

Lemma erase_entry_none fd (st : Tcp) : conns_ st !! fd = None → erase_entry fd st = st.
Proof. intros E. unfold erase_entry. by rewrite E. Qed.

Lemma cleanup_conn_maps client (wk : Worker) :
  wk_conns (cleanup_conn client wk) = delete client (wk_conns wk) ∧
  client_upstream_ (cleanup_conn client wk) = delete client (client_upstream_ wk).
Proof.
  unfold cleanup_conn, abort_upstream_for_client. destruct wk as [sh pool conns ips starts states owners]. cbn.
  destruct (states !! client) eqn:E; [done|]. cbn. split; [done|]. symmetry. by apply delete_id.
Qed.

(** The core after a cleanup and the erasure of the entry. *)
Lemma close_core fd (st : Tcp) info :
  conns_ st !! fd = Some info →
  core (erase_entry fd (cleanup_sock (ci_sock info) st)) =
    (ConnectionBudget.release <$> connection_budget_ st, delete fd (conns_ st), sockets st,
     delete (ci_sock info) (wk_conns (handler_ st)), delete (ci_sock info) (client_upstream_ (handler_ st))).
Proof.
  intros E. rewrite (erase_entry_core _ _ info) by by destruct st.
  destruct (cleanup_conn_maps (ci_sock info) (handler_ st)) as [E1 E2]. destruct st. cbn in *. by rewrite E1, E2.
Qed.

Lemma close_inv others fd (st : Tcp) info :
  tcp_inv others st → conns_ st !! fd = Some info → tcp_inv others (erase_entry fd (cleanup_sock (ci_sock info) st)).
Proof.
  intros (Ho & Hs & Ht) E. pose proof (close_core fd st info E) as Hc. unfold core in Hc. injection Hc as E1 E2 E3 E4 E5.
  unfold tcp_inv. rewrite E1, E2, E3, E4, E5. split_and!; [done|by eapply slots_release|by apply table_close].
Qed.

Lemma close_client_inv others fd (st : Tcp) info :
  tcp_inv others st → conns_ st !! fd = Some info → tcp_inv others (close_client fd info st).
Proof.
  intros Hi E. eapply tcp_inv_core; [|by eapply close_inv]. unfold close_client, forget_fd.
  by destruct (erase_entry fd (cleanup_sock (ci_sock info) st)).
Qed.

(** The entry of a socket without exchange is erased. *)
Lemma erase_inv others fd (st : Tcp) :
  tcp_inv others st →
  (∀ info, conns_ st !! fd = Some info → client_upstream_ (handler_ st) !! ci_sock info = None ∧
    ∀ c, wk_conns (handler_ st) !! ci_sock info = Some c → ∃ a, c = blank a) →
  tcp_inv others (erase_entry fd st).
Proof.
  intros (Ho & Hs & Ht) Hf. destruct (conns_ st !! fd) as [info|] eqn:E; [|by rewrite erase_entry_none].
  destruct (Hf info eq_refl) as [Hx Hb]. pose proof (erase_entry_core fd st info E) as Hc. unfold core in Hc.
  injection Hc as E1 E2 E3 E4 E5. unfold tcp_inv. rewrite E1, E2, E3, E4, E5.
  split_and!; [done|by eapply slots_release|by eapply table_erase].
Qed.

(** ** Accepting *)

(** The kernel hands out a number that is not in use: an entry under it belongs to a
    socket that is closed. *)
Definition fresh (fd : nat) (st : Tcp) : Prop :=
  ∀ info, conns_ st !! fd = Some info → wk_conns (handler_ st) !! ci_sock info = None.

Lemma acquire_slot_inv others (st st' : Tcp) :
  tcp_inv others st → acquire_slot st = Some st' →
  slots_ok (others + 1) (connection_budget_ st') (conns_ st') ∧
  (conns_ st', sockets st', handler_ st') = (conns_ st, sockets st, handler_ st).
Proof.
  intros (Ho & Hs & _). unfold acquire_slot. destruct (connection_budget_ st) as [b|] eqn:Eb.
  - unfold try_acquire. destruct (Z.ltb_spec (in_use_ b) (max_ b)); [|done]. intros <-%(inj Some). split; [|by destruct st].
    cbn in Hs. destruct Hs as (E1 & E2 & E3). destruct st as [? ? ? conns ?]. cbn in *. destruct b as [n mx ws ts]. cbn in *.
    unfold wrap64. rewrite Z.mod_small; [|unfold SIZE_MAX in *; lia]. lia.
  - intros <-%(inj Some). by rewrite Eb.
Qed.

Lemma insert_entry_inv others fd (st : Tcp) :
  0 <= others → slots_ok (others + 1) (connection_budget_ st) (conns_ st) →
  table_ok (conns_ st) (sockets st) (wk_conns (handler_ st)) (client_upstream_ (handler_ st)) → fresh fd st →
  tcp_inv others (insert_entry fd st).
Proof.
  intros Ho Hs Ht Hf. unfold insert_entry. set (st1 := erase_entry fd st).
  assert (tcp_inv (others + 1) st1 ∧ conns_ st1 !! fd = None) as [ (_ & Hs1 & Ht1) Hn].
  { split.
    - apply erase_inv; [by split_and!; [lia|..] |]. intros info E. pose proof (Hf info E) as Hw. split.
      + apply eq_None_not_Some. intros Hx. destruct (tb_exchange _ _ _ _ Ht _ Hx) as [Hw' _].
        rewrite Hw in Hw'. by destruct Hw'.
      + intros c Hc. by rewrite Hw in Hc.
    - unfold st1. destruct (conns_ st !! fd) as [info|] eqn:E; [|by rewrite erase_entry_none].
      pose proof (erase_entry_core fd st info E) as Hc. unfold core in Hc. injection Hc as _ -> _ _ _. apply lookup_delete_eq. }
  clearbody st1. unfold tcp_inv, set_conn. destruct st1 as [wk ? ? conns ? ? ? ? ? ? ? ? n ? ?]. cbn in *. destruct wk. cbn in *.
  split_and!; [done|by apply slots_insert|by apply table_insert].
Qed.

Lemma handle_accept_inv others a (st : Tcp) :
  tcp_inv others st → (∀ fd ip now options ssl, a = Accepted fd ip now options ssl → fresh fd st) →
  match handle_accept [a] st with Ok st' | Escaped st' => tcp_inv others st' end.
Proof.
  intros Hi Hf. destruct a as [fd ip now options ssl|]; [|done]. specialize (Hf _ _ _ _ _ eq_refl). cbn [handle_accept].
  destruct (acquire_slot st) as [st1|] eqn:Ea; [|by eapply tcp_inv_core; [|exact Hi]; destruct st].
  destruct (acquire_slot_inv _ _ _ Hi Ea) as [Hs [= E1 E2 E3]]. destruct Hi as (Ho & _ & Ht).
  set (st2 := st1{{client_ips_ ::= <[fd := ip]>; last_active_ ::= <[fd := now]>}}).
  assert (core st2 = core st1) as Ec by by destruct st1. clearbody st2. unfold core in Ec. injection Ec as F1 F2 F3 F4 F5.
  rewrite <-F1, <-F2 in Hs. rewrite <-E1, <-E2, <-E3, <-F2, <-F3, <-F4, <-F5 in Ht.
  assert (fresh fd st2) as Hf2 by (unfold fresh; by rewrite F2, F4, E1, E3). clear -Ho Hs Ht Hf2.
  assert (tcp_inv others (release_slot st2)) as Hrel.
  { destruct st2. unfold tcp_inv, release_slot. cbn in *. split_and!; [done|by apply slots_give_back|done]. }
  destruct options; [|exact Hrel]. destruct ssl; [|exact Hrel]. cbn [negb]. by apply insert_entry_inv.
Qed.

(** ** Clients *)

(** A socket that is closed answers [recv] with an error. *)
Definition answers_ok (a : ClientAnswers) (fd : nat) (st : Tcp) : Prop :=
  ∀ info, conns_ st !! fd = Some info → wk_conns (handler_ st) !! ci_sock info = None → head (ca_reads a) = Some ReadFailure.

Lemma serve_inv others fd info (st : Tcp) wk' :
  tcp_inv others st → conns_ st !! fd = Some info → ci_state info = READY →
  untouched (ci_sock info) (handler_ st) wk' →
  (is_Some (client_upstream_ wk' !! ci_sock info) → is_Some (wk_conns wk' !! ci_sock info)) →
  tcp_inv others (set_handler wk' st).
Proof.
  intros (Ho & Hs & Ht) E Hr Hu Ha. unfold tcp_inv, set_handler. destruct st. cbn in *. split_and!; [done|done|].
  by eapply table_serve.
Qed.

Lemma run_read_inv others a fd info (st st' : Tcp) :
  tcp_inv others st → conns_ st !! fd = Some info → ci_state info = READY → answers_ok a fd st →
  run_read w a (ci_sock info) fd st = Some st' → tcp_inv others st'.
Proof.
  intros Hi E Hr Hok. unfold run_read. set (ip := default [] _).
  destruct (handle_read_ended w (handler_config st) (ca_now a) (ca_env a) (ca_reads a) (ci_sock info) ip (handler_ st))
    as (e & wk' & Eh & Hu & Ha & Hend). rewrite Eh. intros Hst.
  assert (st' = set_handler wk' st ∧ e ≠ NoAnswer) as [-> Hne] by (by destruct e; simplify_eq).
  eapply serve_inv; [done|done|done|exact Hu|]. intros Hx. destruct e; try done.
  2:{ destruct Hend as [_ Hn]. by rewrite Hn in Hx; destruct Hx. }
  all: apply Ha; [done|]; destruct (wk_conns (handler_ st) !! ci_sock info) eqn:Ew; [by eexists|].
  all: pose proof (Hok info E Ew) as Hh; unfold handle_read, read_fuel in Eh; cbn [outer_loop] in Eh; unfold conn_of in Eh;
    destruct (handler_ st) as [sh pool conns ips starts states owners]; cbn in Ew, Eh; rewrite Ew in Eh; cbn in Eh;
    by destruct (ca_reads a) as [|[] ]; simplify_eq/=.
Qed.

Lemma run_write_inv others a fd info (st st' : Tcp) :
  tcp_inv others st → conns_ st !! fd = Some info → ci_state info = READY →
  run_write w a (ci_sock info) st = Some st' → tcp_inv others st'.
Proof.
  intros Hi E Hr. unfold run_write.
  destruct (handle_write_ended w (handler_config st) (ca_pread a) (ca_turns a) (ca_writes a) (ci_sock info) (handler_ st))
    as (e & wk' & out & evs & Eh & (Hu & Ha & Hend) & _ & Habs). rewrite Eh. intros Hst.
  assert (st' = set_handler wk' st ∧ e ≠ WNoAnswer) as [-> Hne] by (by destruct e; simplify_eq).
  eapply serve_inv; [done|done|done|exact Hu|]. intros Hx.
  destruct (wk_conns (handler_ st) !! ci_sock info) eqn:Ew; [|specialize (Habs eq_refl); subst e].
  - destruct e; [apply Ha; [done|by eexists] | |apply Ha; [done|by eexists]|done]. destruct Hend as [_ Hn]. by rewrite Hn in Hx; destruct Hx.
  - destruct Hend as [_ Hn]. by rewrite Hn in Hx; destruct Hx.
Qed.

Lemma handshake_step_inv others a fd ev info (st : Tcp) :
  tcp_inv others st → conns_ st !! fd = Some info → ci_state info = HANDSHAKING →
  tcp_inv others (handshake_step a fd ev info st).
Proof.
  intros Hi E Hs. pose proof Hi as (Ho & Hsl & Ht). destruct (tb_handshake _ _ _ _ Ht _ _ E Hs) as [a0 Hb].
  assert (tcp_inv others (forget_fd fd (erase_entry fd st))) as Hgone.
  { eapply (tcp_inv_core _ (erase_entry fd st)); [unfold forget_fd; by destruct (erase_entry fd st)|].
    apply erase_inv; [done|]. intros info' E'. simplify_eq. split; [by eapply handshake_no_exchange|].
    intros c Hc. simplify_eq. by exists a0. }
  assert (∀ s ar, tcp_inv others (st{{conns_ ::= <[fd := mkInfo (ci_sock info) s]>;
    handler_ ::= fun wk => set_conn (ci_sock info) ((conn_of (ci_sock info) wk){{armed := ar}}) wk}})) as Hset.
  { intros s ar. assert (conn_of (ci_sock info) (handler_ st) = blank a0) as Ec by (unfold conn_of; by rewrite Hb).
    unfold tcp_inv, set_conn. destruct st as [wk ? ? conns B]. cbn in *. rewrite Ec. destruct wk. cbn in *. split_and!; [done| |].
    - destruct B as [b|]; [|done]. cbn in *. rewrite map_size_insert_Some by (by eexists). exact Hsl.
    - by eapply table_rearm. }
  unfold handshake_step. destruct (ev_hup ev); [exact Hgone|]. destruct (ca_handshake a); [apply Hset| | |exact Hgone].
  all: specialize (Hset (ci_state info) ArmInOut); eapply tcp_inv_core; [|exact Hset]; destruct st, info; unfold core; cbn in *;
    by rewrite (insert_id _ _ _ E).
Qed.

Lemma handle_client_inv others a fd ev (st st' : Tcp) :
  tcp_inv others st → answers_ok a fd st → handle_client w a fd ev st = Some st' → tcp_inv others st'.
Proof.
  intros Hi Hok. unfold handle_client. destruct (conns_ st !! fd) as [info|] eqn:E; [|by intros <-%(inj Some)].
  destruct (ci_state info) eqn:Hs; [intros <-%(inj Some); by apply handshake_step_inv|].
  set (st1 := st{{last_active_ ::= <[fd := ca_time a]>}}). assert (core st1 = core st) as Ec by by destruct st.
  assert (tcp_inv others st1) as Hi1 by by eapply tcp_inv_core.
  assert (conns_ st1 !! fd = Some info) as E1 by by destruct st.
  assert (answers_ok a fd st1) as Hok1 by by destruct st. clearbody st1.
  destruct (ev_hup ev); [intros <-%(inj Some); by apply close_client_inv|].
  set (served := if ev_in ev then _ else _). assert (∀ st2, served = Some st2 → tcp_inv others st2) as Hserved.
  { intros st2. unfold served. destruct (ev_in ev).
    - destruct (has_pending_ssl_write _); [by eapply run_write_inv|by eapply run_read_inv].
    - destruct (ev_out ev); [by eapply run_write_inv|]. intros <-%(inj Some). by apply close_client_inv. }
  destruct served as [st2|]; [|done]. intros <-%(inj Some). specialize (Hserved st2 eq_refl).
  case_bool_decide; [done|]. by eapply tcp_inv_core; [|exact Hserved]; destruct st2.
Qed.

Lemma lift_inv others (st : Tcp) r res :
  tcp_inv others st → (∀ x, r = Some x → holds (evolves (handler_ st)) x) → lift_result st r = Some res →
  match res with Ok st' | Escaped st' => tcp_inv others st' end.
Proof.
  intros (Ho & Hs & Ht) Hr. destruct r as [x|]; [|done]. specialize (Hr x eq_refl).
  destruct x as [wk'|wk']; cbn [lift_result holds] in *; intros <-%(inj Some); unfold tcp_inv, set_handler;
    destruct st; cbn in *; split_and!; try done; by eapply table_evolve.
Qed.

(** ** Maintenance *)

Lemma max_connections_in_range env path : between 1 1000000000 (max_connections (read_reload env path).1).
Proof.
  unfold read_reload. destruct (file_ok env path); [|by vm_compute].
  pose proof (from_file_ranges (ce_open env) (ce_stream env) (ce_parse env) (ce_keys env) path) as [].
  unfold file_config. by destruct (from_file _ _ _ _ _).
Qed.

Lemma maybe_reload_inv others t (st : Tcp) : tcp_inv others st → tcp_inv others (maybe_reload t st).
Proof.
  intros Hi. unfold maybe_reload. destruct (_ =? _); [done|].
  pose proof (max_connections_in_range (mt_env t) (mt_path t)) as Hr.
  destruct (read_reload _ _) as [reloaded [|e errors] ]; [|done]. cbn [fst] in Hr. destruct Hi as (Ho & Hs & Ht).
  destruct (mt_tls t (tls reloaded)), st as [wk ? ? conns B]; unfold tcp_inv; cbn in *; destruct wk; cbn in *;
    (split_and!; [done| |done]); destruct B as [b|]; try done; destruct b; cbn in *; unfold between, SIZE_MAX in *; lia.
Qed.

Lemma check_idle_inv others now (st : Tcp) fd : tcp_inv others st → tcp_inv others (check_idle now st fd).
Proof.
  intros Hi. unfold check_idle. destruct (last_active_ st !! fd) as [t|]; [|done].
  destruct (conns_ st !! fd) as [info|] eqn:E; [|by eapply tcp_inv_core; [|exact Hi]; destruct st].
  destruct (_ <? _); [|done]. eapply tcp_inv_core; [|by eapply close_inv].
  by destruct (erase_entry fd (cleanup_sock (ci_sock info) st)).
Qed.

Lemma foldl_inv {A} (P : Tcp → Prop) (f : Tcp → A → Tcp) l st :
  (∀ st x, P st → P (f st x)) → P st → P (foldl f st l).
Proof. intros Hf. revert st. induction l as [|x l IH]; intros st Hp; cbn; auto. Qed.

Lemma check_timeout_inv others t (st : Tcp) : tcp_inv others st → tcp_inv others (check_timeout t st).
Proof.
  intros Hi. unfold check_timeout. set (st1 := check_all_idle _ _).
  assert (tcp_inv others st1) as Hi1.
  { unfold st1, check_all_idle. apply foldl_inv; [intros; by apply check_idle_inv|by apply maybe_reload_inv]. }
  clearbody st1. eapply tcp_inv_core; [|exact Hi1]. unfold core. destruct st1 as [wk ? ? conns B]. cbn.
  destruct B; cbn; case_match; cbn; by destruct wk.
Qed.

(** ** Draining *)

Lemma drain_idle_inv others (st : Tcp) fd : tcp_inv others st → tcp_inv others (drain_idle st fd).
Proof.
  intros Hi. unfold drain_idle. destruct (conns_ st !! fd) as [info|] eqn:E; [|done].
  destruct (is_idle st info); [by apply close_client_inv|done].
Qed.

Lemma force_close_inv others (st : Tcp) fd : tcp_inv others st → tcp_inv others (force_close st fd).
Proof. intros Hi. unfold force_close. destruct (conns_ st !! fd) as [info|] eqn:E; [by apply close_inv|done]. Qed.

Lemma close_rest_inv others (st : Tcp) : tcp_inv others st → tcp_inv others (close_rest st).
Proof.
  intros Hi. unfold close_rest. set (st1 := foldl _ _ _). assert (tcp_inv others st1) as Hi1.
  { apply foldl_inv; [intros; by apply force_close_inv|done]. }
  clearbody st1. by eapply tcp_inv_core; [|exact Hi1]; destruct st1.
Qed.
End worker.
