(* ===== verification/TcpProperties.v ===== *)
(** Runs of a worker: its steps interleaved with those of the other workers, the
    turns of [run] and of [drain_connections] as sequences of steps, and what holds
    in every state that can be reached. *)

From S2P Require Import Prelude Search Config RateLimiter RouteUtils ApiKeyManager ConnectionBudget FileCache FdCache ConnectionPool LoggingUtils HttpParser HttpResponse ConfigFile UpstreamManager Routes HttpClient UpstreamResponse UpstreamExchange Tracing Responder Admission StaticFiles Proxy ProxyInvariant ProxyProperties ReadPath ReadProperties ReadScenarios WritePath WriteProperties TcpWorker TcpInvariant.

#[local] Open Scope Z_scope.
#[local] Open Scope gateway_scope.

(** [try_acquire] is what the atomic steps of [ConnectionBudget] do when no other
    worker is in between. *)
Lemma try_acquire_steps b b' i t :
  workers b !! i = None → tickets b !! t = None → try_acquire b = Some b' →
  rtc budget_step b (b'{{tickets ::= <[t := true]> }}).
Proof.
  unfold try_acquire. destruct (Z.ltb_spec (in_use_ b) (max_ b)); [|done]. intros Hi Ht <-%(inj Some).
  destruct b as [n mx ws ts]. cbn in *. eapply rtc_l; [by apply (step_load i)|]. cbn.
  eapply rtc_l; [apply (step_below i n); [apply lookup_insert_eq|done]|]. cbn.
  eapply rtc_l; [apply (step_exchange i n t); [apply lookup_insert_eq|done|done]|]. cbn.
  rewrite insert_insert_eq, delete_insert_id by done. apply rtc_refl.
Qed.

Section runs.
  Context `{HashOrder, Zlib, FileSystem} (w : World).

(** * Steps *)

(** The kernel hands out numbers that are not in use. *)
Definition accept_ok (a : accepted) (st : Tcp) : Prop :=
  match a with Accepted fd _ _ _ _ => fresh fd st | AcceptThrows => True end.

(** What the workers share beside the budget: the limiter, the manager of the
    upstreams and the pool of idle connections to them. *)
Record Common := mkCommon { cm_limiter : RateLimiterManager; cm_upstreams : UpstreamManager; cm_pool : ConnectionPool }.

Definition common_of (st : Tcp) : Common :=
  mkCommon (sh_limiter (wk_shared (handler_ st))) (sh_upstreams (wk_shared (handler_ st))) (wk_pool (handler_ st)).

Definition adopt (c : Common) (st : Tcp) : Tcp :=
  st{{handler_ ::= fun wk => wk{{wk_shared ::= fun sh => sh{{sh_limiter := cm_limiter c; sh_upstreams := cm_upstreams c}};
    wk_pool := cm_pool c}} }}.

(** The other workers leave the budget as [b], and change what is shared in any
    way. *)
Definition others_act (b : budget) (c : Common) (st : Tcp) : Tcp :=
  (adopt c st){{connection_budget_ ::= fmap (λ _, b)}}.

(** A step of the worker itself. *)
Inductive own_step : Tcp → Tcp → Prop :=
| O_accept a st st' : accept_ok a st → handle_accept [a] st = Ok st' → own_step st st'
| O_client a fd ev st st' : answers_ok a fd st → handle_client w a fd ev st = Some st' → own_step st st'
| O_upstream answers fd mask st st' :
    lift_result st (on_upstream_event w answers fd mask (handler_ st)) = Some (Ok st') → own_step st st'
| O_timeouts t st st' : upstream_timeouts w t st = Some (Ok st') → own_step st st'
| O_maintenance m st : own_step st (check_timeout m st)
| O_tick now st : own_step st (st{{last_timeout_check_ := now}})
| O_idle fd st : own_step st (drain_idle st fd)
| O_rest st : own_step st (close_rest st).

Inductive tcp_step : Z * Tcp → Z * Tcp → Prop :=
| T_own o st st' : own_step st st' → tcp_step (o, st) (o, st')
| T_others o d b c st :
    0 <= o + d → (∀ b0, connection_budget_ st = Some b0 → in_use_ b = in_use_ b0 + d) → in_use_ b <= SIZE_MAX → max_ b <= SIZE_MAX →
    tcp_step (o, st) (o + d, others_act b c st).

Definition own_steps : Tcp → Tcp → Prop := rtc own_step.

Definition tcp_steps : Z * Tcp → Z * Tcp → Prop := rtc tcp_step.

Lemma own_steps_tcp o st st' : own_steps st st' → tcp_steps (o, st) (o, st').
Proof. induction 1 as [|st st1 st' Hs _ IH]; [apply rtc_refl|]. eapply rtc_l; [by apply T_own|done]. Qed.

(** A worker when its constructor returns: no connection, no exchange. *)
Record tcp_started (config : Config) (o : Z) (st : Tcp) : Prop := {
  ts_conns : conns_ st = ∅;
  ts_handler : wk_conns (handler_ st) = ∅;
  ts_exchanges : client_upstream_ (handler_ st) = ∅;
  ts_config : handler_config st = config;
  ts_timeout : keepalive_timeout_ st = keepalive_timeout config;
  ts_others : 0 <= o;
  ts_budget : ∀ b, connection_budget_ st = Some b → in_use_ b = o ∧ o <= SIZE_MAX ∧ max_ b <= SIZE_MAX;
}.

Lemma started_inv config o st : tcp_started config o st → tcp_inv o st.
Proof.
  intros [Ec Eh Ex _ _ Ho Hb]. unfold tcp_inv. rewrite Ec, Eh, Ex. split_and!; [done| |].
  - destruct (connection_budget_ st) as [b|]; [|done]. destruct (Hb b eq_refl) as (E & Hm & Hx). cbn. rewrite map_size_empty. lia.
  - split; intros *; rewrite ?lookup_empty; try done.
Qed.

Lemma own_step_inv o st st' : own_step st st' → tcp_inv o st → tcp_inv o st'.
Proof.
  intros [a ? ? Hf E|a fd ev ? ? Ha E|answers fd mask ? ? E|t ? ? E|m ?|now ?|fd ?|?] Hi.
  - pose proof (handle_accept_inv o a _ Hi) as Hacc. rewrite E in Hacc. apply Hacc. by intros * ->.
  - by eapply handle_client_inv.
  - eapply (lift_inv o _ _ (Ok _)); [exact Hi| |exact E]. intros x Hx. by eapply on_upstream_event_evolves.
  - eapply (lift_inv o _ _ (Ok _)); [exact Hi| |exact E]. intros x Hx. by eapply check_upstream_timeouts_evolves.
  - by apply check_timeout_inv.
  - by eapply tcp_inv_core; [|exact Hi]; destruct st.
  - by apply drain_idle_inv.
  - by apply close_rest_inv.
Qed.

Lemma tcp_step_inv s s' : tcp_step s s' → tcp_inv s.1 s.2 → tcp_inv s'.1 s'.2.
Proof.
  intros [o ? ? Hs|o d b c st' Ho Hb Hu Hl]; [by apply own_step_inv|]. intros (Ho0 & Hs & Ht). unfold others_act, adopt, tcp_inv.
  destruct st' as [wk ? ? conns B]. cbn in *. split_and!; [done| |by destruct wk].
  destruct B as [b0|]; [|done]. specialize (Hb b0 eq_refl). cbn in *. lia.
Qed.

Lemma tcp_steps_inv s s' : tcp_steps s s' → tcp_inv s.1 s.2 → tcp_inv s'.1 s'.2.
Proof. induction 1; [done|]. eauto using tcp_step_inv. Qed.

(** * Turns *)

Fixpoint accepts_ok (answers : list accepted) (st : Tcp) : Prop :=
  match answers with
  | [] => True
  | a :: answers' => accept_ok a st ∧ ∀ st', handle_accept [a] st = Ok st' → accepts_ok answers' st'
  end.

(** What the kernel answers in one event. *)
Definition event_ok (listen : nat) (e : FdEvent) (st : Tcp) : Prop :=
  if fe_fd e == listen then accepts_ok (fe_accept e) st else answers_ok (fe_client e) (fe_fd e) st.

Fixpoint events_ok (listen : nat) (handle : FdEvent → Tcp → option (result Tcp)) (events : list FdEvent) (st : Tcp) : Prop :=
  match events with
  | [] => True
  | e :: events' => event_ok listen e st ∧ ∀ st', handle e st = Some (Ok st') → events_ok listen handle events' st'
  end.

Definition turn_ok (listen : nat) (r : wait_result) (st : Tcp) : Prop :=
  match r with
  | Events_ready events _ _ _ => events_ok listen (handle_event w listen) events st
  | _ => True
  end.

Lemma handle_accept_cons a answers (st : Tcp) :
  handle_accept (a :: answers) st = match handle_accept [a] st with Ok st => handle_accept answers st | r => r end.
Proof. destruct a as [fd ip now [] []|]; cbn; try done; by destruct (acquire_slot st). Qed.

Lemma handle_accept_steps answers (st st' : Tcp) :
  accepts_ok answers st → handle_accept answers st = Ok st' → own_steps st st'.
Proof.
  revert st. induction answers as [|a answers IH]; intros st Hok; [intros [= <-]; apply rtc_refl|].
  destruct Hok as [Ha Hok]. rewrite handle_accept_cons. destruct (handle_accept [a] st) as [st1|st1] eqn:E; [|done].
  intros Hr. eapply rtc_l; [by eapply O_accept|]. by apply IH; auto.
Qed.

Lemma handle_event_steps listen e (st st' : Tcp) :
  event_ok listen e st → handle_event w listen e st = Some (Ok st') → own_steps st st'.
Proof.
  unfold event_ok, handle_event. destruct (fe_fd e == listen).
  - intros Hok [= E]. by eapply handle_accept_steps.
  - intros Hok. destruct (is_upstream_fd _ _); [intros E; apply rtc_once; by eapply O_upstream|].
    destruct (handle_client _ _ _ _ _) eqn:E; [|done]. intros [= <-]. apply rtc_once. by eapply O_client.
Qed.

Lemma drain_event_steps listen e (st st' : Tcp) :
  event_ok listen e st → drain_event w listen e st = Some (Ok st') → own_steps st st'.
Proof.
  unfold event_ok, drain_event. destruct (is_upstream_fd _ _); [intros _ E; apply rtc_once; by eapply O_upstream|].
  destruct (fe_fd e == listen); intros Hok; [intros [= <-]; apply rtc_refl|].
  destruct (handle_client _ _ _ _ _) eqn:E; [|done]. intros [= <-]. apply rtc_once. by eapply O_client.
Qed.

Lemma handle_events_steps listen handle events (st st' : Tcp) :
  (∀ e st st', event_ok listen e st → handle e st = Some (Ok st') → own_steps st st') →
  events_ok listen handle events st → handle_events handle events st = Some (Ok st') → own_steps st st'.
Proof.
  intros Hh. revert st. induction events as [|e events IH]; intros st Hok; cbn [handle_events]; [intros [= <-]; apply rtc_refl|].
  destruct Hok as [He Hok]. destruct (handle e st) as [ [st1|]|] eqn:E; try done. intros Hr. etrans; [by eapply Hh|]. by apply IH; auto.
Qed.

Lemma and_then_ok (r : option (result Tcp)) f (st' : Tcp) :
  and_then r f = Some (Ok st') → ∃ st1, r = Some (Ok st1) ∧ f st1 = Some (Ok st').
Proof. destruct r as [ [st1|]|]; cbn; try done. by exists st1. Qed.

(** A turn of [run] is a sequence of steps. *)
Lemma run_turn_steps listen r (st st' : Tcp) :
  turn_ok listen r st → run_turn w listen r st = Some (Ok st') → own_steps st st'.
Proof.
  destruct r as [|m t|events t now m]; cbn [turn_ok run_turn].
  - intros _ [= <-]. apply rtc_refl.
  - intros _ E. eapply rtc_l; [apply (O_maintenance m)|]. apply rtc_once. by eapply O_timeouts.
  - intros Hok (st1 & E1 & E2)%and_then_ok. apply and_then_ok in E2 as (st2 & E2 & [= E3]).
    etrans; [by eapply handle_events_steps; [apply handle_event_steps|exact Hok|exact E1]|].
    eapply rtc_l; [by eapply O_timeouts|]. rewrite <-E3. destruct (1 <=? _); [|apply rtc_refl].
    eapply rtc_l; [apply (O_maintenance m)|]. apply rtc_once, O_tick.
Qed.

Lemma close_idle_steps (st : Tcp) : own_steps st (close_idle st).
Proof.
  unfold close_idle. generalize (map_to_list (conns_ st)).*1. intros fds. revert st.
  induction fds as [|fd fds IH]; intros st; cbn; [apply rtc_refl|]. eapply rtc_l; [apply (O_idle fd)|apply IH].
Qed.

Definition drain_ok (listen : nat) (t : DrainTurn) (st : Tcp) : Prop :=
  events_ok listen (drain_event w listen) (dr_events t) st.

Lemma drain_turn_steps listen t (st st' : Tcp) :
  drain_ok listen t st → drain_turn w listen t st = Some (Ok st') → own_steps st st'.
Proof.
  intros Hok (st1 & E1 & E2)%and_then_ok. apply and_then_ok in E2 as (st2 & E2 & [= <-]).
  etrans; [by eapply handle_events_steps; [apply drain_event_steps|exact Hok|exact E1]|].
  eapply rtc_l; [by eapply O_timeouts|]. apply close_idle_steps.
Qed.

(** What the kernel answers while a worker drains. *)
Fixpoint drains_ok (listen : nat) (turns : list DrainTurn) (st : Tcp) : Prop :=
  match turns with
  | [] => True
  | t :: turns' =>
    drain_ok listen t st ∧ drain_turn w listen t st ≠ None ∧
    ∀ st', drain_turn w listen t st = Some (Ok st') → drains_ok listen turns' st'
  end.

(** The loop ends when the deadline is past, at the latest. *)
Lemma drain_loop_steps o listen deadline turns (st : Tcp) :
  drains_ok listen turns st → Exists (λ t, deadline <= dr_now t) turns →
  ∃ r, drain_loop w listen deadline turns st = Some r ∧
    match r with Ok st' => ∃ st1, tcp_steps (o, st) (o, st1) ∧ st' = close_rest st1 | Escaped _ => True end.
Proof.
  revert st. induction turns as [|t turns IH]; intros st Hok Hd; [by inv Hd|]. cbn [drain_loop].
  assert (∃ st1 : Tcp, tcp_steps (o, st) (o, st1) ∧ close_rest st = close_rest st1) as Hnow
    by (exists st; split; [apply rtc_refl|done]).
  case_bool_decide; [by eexists|]. destruct (Z.leb_spec deadline (dr_now t)) as [Hl|Hl]; [by eexists|].
  destruct Hok as (Ht & Hn & Hok). destruct (drain_turn w listen t st) as [ [st1|st1]|] eqn:E; [|by eexists|done]. cbn [and_then].
  destruct (IH st1) as (r & Er & Hr); [by apply Hok|inv Hd; [lia|done]|]. exists r. split; [done|]. destruct r; [|done].
  destruct Hr as (st2 & Hs & ->). exists st2. split; [|done]. etrans; [by eapply own_steps_tcp, drain_turn_steps|done].
Qed.

(** What the kernel answers while the loop runs. *)
Fixpoint loop_ok (listen : nat) (turns : list LoopTurn) (st : Tcp) : Prop :=
  match turns with
  | [] => True
  | t :: turns' =>
    turn_ok listen (lt_wait t) st ∧ run_turn w listen (lt_wait t) st ≠ None ∧
    ∀ st', run_turn w listen (lt_wait t) st = Some (Ok st') → loop_ok listen turns' st'
  end.

(** The loop ends when the flag is set, at the latest. *)
Lemma run_loop_steps listen turns (st : Tcp) :
  loop_ok listen turns st → Exists (λ t, lt_stop t = true) turns →
  ∃ r, run_loop w listen turns st = Some r ∧ match r with Ok st' => own_steps st st' | Escaped _ => True end.
Proof.
  revert st. induction turns as [|t turns IH]; intros st Hok Hd; [by inv Hd|]. cbn [run_loop].
  assert (∃ r, Some (Ok st) = Some r ∧ match r with Ok st' => own_steps st st' | Escaped _ => True end) as Hnow
    by (eexists; split; [done|apply rtc_refl]).
  destruct (lt_stop t) eqn:Hs; [done|]. destruct (_ && _); [done|]. destruct Hok as (Ht & Hn & Hok).
  destruct (run_turn w listen (lt_wait t) st) as [ [st1|st1]|] eqn:E; [|by eexists|done]. cbn [and_then].
  destruct (IH st1) as (r & Er & Hr); [by apply Hok|inv Hd; [congruence|done]|]. exists r. split; [done|]. destruct r; [|done].
  etrans; [by eapply run_turn_steps|done].
Qed.

(** * Draining *)

(** The handler's state of one connection is the same. *)
Definition kept (st st' : Tcp) (info : ConnInfo) : Prop :=
  wk_conns (handler_ st') !! ci_sock info = wk_conns (handler_ st) !! ci_sock info ∧
  client_upstream_ (handler_ st') !! ci_sock info = client_upstream_ (handler_ st) !! ci_sock info.

Lemma kept_idle st st' info : kept st st' info → is_idle st' info = is_idle st info.
Proof. intros [Ew Ex]. unfold is_idle, has_inflight_work, in_flight_of. by rewrite Ew, Ex. Qed.

Lemma close_client_core fd (st : Tcp) info :
  conns_ st !! fd = Some info →
  core (close_client fd info st) =
    (ConnectionBudget.release <$> connection_budget_ st, delete fd (conns_ st), sockets st,
     delete (ci_sock info) (wk_conns (handler_ st)), delete (ci_sock info) (client_upstream_ (handler_ st))).
Proof.
  intros E. rewrite <-(close_core fd st info E). unfold close_client, forget_fd. by destruct (erase_entry _ _).
Qed.

Lemma drain_idle_spec o (st : Tcp) fd :
  tcp_inv o st →
  (∀ fd' info, conns_ (drain_idle st fd) !! fd' = Some info ↔
    conns_ st !! fd' = Some info ∧ (fd' = fd → is_idle st info = false)) ∧
  (∀ fd' info, conns_ (drain_idle st fd) !! fd' = Some info → kept st (drain_idle st fd) info).
Proof.
  intros (_ & _ & Ht). unfold drain_idle. destruct (conns_ st !! fd) as [info0|] eqn:E.
  2:{ split; [|done]. intros fd' info. split; [|by intros [? _]]. intros E'. split; [done|]. intros ->. by rewrite E in E'. }
  destruct (is_idle st info0) eqn:Hidle.
  2:{ split; [|done]. intros fd' info. split; [|by intros [? _]]. intros E'. split; [done|]. intros ->. by simplify_eq. }
  pose proof (close_client_core fd st info0 E) as Hc. set (st1 := close_client fd info0 st) in *. clearbody st1.
  unfold core in Hc. injection Hc as _ Ec _ Ew Ex. unfold kept.
  rewrite Ec, Ew, Ex. split; intros fd' info; rewrite lookup_delete_Some.
  - split; [by intros [? ?]|]. intros [E' Hf]. split; [|done]. intros ->. simplify_eq. by rewrite Hf in Hidle.
  - intros [Hne E']. assert (ci_sock info0 ≠ ci_sock info) as Hs.
    { intros Es. by apply Hne, (tb_inj _ _ _ _ Ht _ _ _ _ E E'). }
    by rewrite !lookup_delete_ne.
Qed.

Lemma drain_all_spec o fds (st : Tcp) :
  tcp_inv o st →
  (∀ fd info, conns_ (foldl drain_idle st fds) !! fd = Some info ↔
    conns_ st !! fd = Some info ∧ (fd ∈ fds → is_idle st info = false)) ∧
  (∀ fd info, conns_ (foldl drain_idle st fds) !! fd = Some info → kept st (foldl drain_idle st fds) info).
Proof.
  revert st. induction fds as [|fd0 fds IH]; intros st Hi; cbn [foldl].
  { split; [|done]. intros fd info. split; [|by intros [? _]]. intros E. split; [done|]. by intros ?%elem_of_nil. }
  destruct (drain_idle_spec o st fd0 Hi) as [G1 G2]. destruct (IH (drain_idle st fd0)) as [F1 F2]; [by apply drain_idle_inv|]. split.
  - intros fd info. rewrite F1, G1. split.
    + intros [ [E Hf] Hl]. split; [done|]. intros [->|Hin]%elem_of_cons; [by apply Hf|].
      rewrite <-(kept_idle st (drain_idle st fd0)); [by apply Hl|]. by apply (G2 fd), G1.
    + intros [E Hf]. assert (conns_ (drain_idle st fd0) !! fd = Some info) as E1.
      { apply G1. split; [done|]. intros ->. apply Hf. by left. }
      split; [by apply G1|]. intros Hin. rewrite (kept_idle st); [apply Hf; by right|]. by apply (G2 fd).
  - intros fd info E. destruct (F2 fd info E) as [K1 K2]. apply F1 in E as [E _]. destruct (G2 fd info E) as [L1 L2].
    split; congruence.
Qed.

Lemma close_idle_spec o (st : Tcp) :
  tcp_inv o st →
  (∀ fd info, conns_ (close_idle st) !! fd = Some info ↔ conns_ st !! fd = Some info ∧ is_idle st info = false) ∧
  (∀ fd info, conns_ (close_idle st) !! fd = Some info → kept st (close_idle st) info).
Proof.
  intros Hi. destruct (drain_all_spec o (map_to_list (conns_ st)).*1 st Hi) as [G1 G2]. split; [|exact G2].
  intros fd info. unfold close_idle. rewrite G1. split.
  - intros [E Hf]. split; [done|]. apply Hf, list_elem_of_fmap. exists (fd, info). split; [done|]. by apply elem_of_map_to_list.
  - by intros [E Hf].
Qed.

Lemma force_close_conns (st : Tcp) fd : conns_ (force_close st fd) = delete fd (conns_ st).
Proof.
  unfold force_close. destruct (conns_ st !! fd) as [info|] eqn:E; [|by rewrite delete_id].
  pose proof (close_core fd st info E) as Hc. set (st1 := erase_entry _ _) in *. clearbody st1. unfold core in Hc. by injection Hc as _ -> _ _ _.
Qed.

Lemma force_all_conns fds (st : Tcp) fd : fd ∈ fds ∨ conns_ st !! fd = None → conns_ (foldl force_close st fds) !! fd = None.
Proof.
  revert st. induction fds as [|fd0 fds IH]; intros st Hor; cbn [foldl]; [set_solver|]. apply IH. rewrite force_close_conns.
  destruct (decide (fd0 = fd)) as [->|Hne]; [right; apply lookup_delete_eq|]. rewrite lookup_delete_ne by done. set_solver.
Qed.

Lemma close_rest_empty (st : Tcp) : conns_ (close_rest st) = ∅.
Proof.
  unfold close_rest. set (st1 := foldl _ _ _). assert (conns_ st1 = ∅) as E; [|clearbody st1; by destruct st1].
  apply map_empty. intros fd. apply force_all_conns. destruct (conns_ st !! fd) as [info|] eqn:E; [left|by right].
  apply list_elem_of_fmap. exists (fd, info). split; [done|]. by apply elem_of_map_to_list.
Qed.

(** With no entry left, every slot of this worker is returned, and nothing of a
    request is left in the handler. *)
Lemma closed_clean o (st : Tcp) :
  tcp_inv o st → conns_ st = ∅ →
  (∀ b, connection_budget_ st = Some b → in_use_ b = o) ∧ client_upstream_ (handler_ st) = ∅ ∧
  map_Forall (λ _ c, ∃ a, c = blank a) (wk_conns (handler_ st)).
Proof.
  intros (Ho & Hs & Ht) E. rewrite E in Hs, Ht. split_and!.
  - intros b Eb. rewrite Eb in Hs. cbn in Hs. rewrite map_size_empty in Hs. lia.
  - apply map_empty. intros client. apply eq_None_not_Some. intros Hx.
    destruct (tb_exchange _ _ _ _ Ht _ Hx) as (_ & fd & info & Ef & _). by rewrite lookup_empty in Ef.
  - intros client c Hc. destruct (tb_conn _ _ _ _ Ht _ _ Hc) as (_ & [(fd & info & Ef & _)|Hb]); [by rewrite lookup_empty in Ef|done].
Qed.

(** * The settings *)

Definition settings (st : Tcp) : Config * Z := (handler_config st, keepalive_timeout_ st).

Lemma set_handler_settings wk (st : Tcp) : settings (set_handler wk st) = settings st.
Proof. by destruct st. Qed.

Lemma erase_entry_settings fd (st : Tcp) : settings (erase_entry fd st) = settings st.
Proof. unfold erase_entry, release_slot. destruct (conns_ st !! fd); by destruct st. Qed.

Lemma close_entry_settings fd sock (st : Tcp) : settings (erase_entry fd (cleanup_sock sock st)) = settings st.
Proof. rewrite erase_entry_settings. by destruct st. Qed.

Lemma close_client_settings fd info (st : Tcp) : settings (close_client fd info st) = settings st.
Proof. rewrite <-(close_entry_settings fd (ci_sock info) st). unfold close_client, forget_fd. by destruct (erase_entry _ _). Qed.

Lemma insert_entry_settings fd (st : Tcp) : settings (insert_entry fd st) = settings st.
Proof. rewrite <-(erase_entry_settings fd st). unfold insert_entry. by destruct (erase_entry fd st). Qed.

Lemma accept_settings a (st st' : Tcp) : handle_accept [a] st = Ok st' → settings st' = settings st.
Proof.
  destruct a as [fd ip now options ssl|]; [|done]. cbn [handle_accept]. destruct (acquire_slot st) as [st1|] eqn:Ea.
  2:{ intros [= <-]. by destruct st. }
  assert (settings st1 = settings st) as <-.
  { unfold acquire_slot in Ea. destruct (connection_budget_ st); [|by simplify_eq]. destruct (try_acquire _); [|done].
    simplify_eq. by destruct st. }
  destruct options; [|done]. destruct ssl; cbn [negb]; intros [= <-]; [|by destruct st1].
  rewrite insert_entry_settings. by destruct st1.
Qed.

Lemma run_settings a sock fd (st st' : Tcp) : run_read w a sock fd st = Some st' ∨ run_write w a sock st = Some st' → settings st' = settings st.
Proof.
  unfold run_read, run_write. intros [Hr|Hr]; repeat (case_match; try done); simplify_eq; apply set_handler_settings.
Qed.

Lemma client_settings a fd ev (st st' : Tcp) : handle_client w a fd ev st = Some st' → settings st' = settings st.
Proof.
  unfold handle_client. destruct (conns_ st !! fd) as [info|]; [|by intros [= <-]]. destruct (ci_state info).
  - intros [= <-]. unfold handshake_step, set_ready, forget_fd. rewrite <-(erase_entry_settings fd st).
    destruct (ev_hup ev), (ca_handshake a); try (by destruct (erase_entry fd st)); rewrite erase_entry_settings; by destruct st.
  - set (st1 := st{{last_active_ ::= <[fd := ca_time a]>}}). assert (settings st1 = settings st) as <- by by destruct st.
    clearbody st1. destruct (ev_hup ev); [intros [= <-]; apply close_client_settings|]. set (served := if ev_in ev then _ else _).
    assert (∀ st2, served = Some st2 → settings st2 = settings st1) as Hs.
    { intros st2. unfold served. destruct (ev_in ev), (ev_out ev); try (destruct (has_pending_ssl_write _));
        try (intros ?; eapply (run_settings a _ fd); by eauto). all: intros [= <-]; apply close_client_settings. }
    destruct served as [st2|]; [|done]. intros [= <-]. rewrite <-(Hs st2 eq_refl). case_bool_decide; [done|by destruct st2].
Qed.

Lemma lift_settings (st st' : Tcp) r : lift_result st r = Some (Ok st') → settings st' = settings st.
Proof. destruct r as [ [wk|wk]|]; cbn; try done. intros [= <-]. apply set_handler_settings. Qed.

Lemma foldl_settings (f : Tcp → nat → Tcp) fds st :
  (∀ st fd, settings (f st fd) = settings st) → settings (foldl f st fds) = settings st.
Proof. intros Hf. revert st. induction fds as [|fd fds IH]; intros st; cbn; [done|]. by rewrite IH, Hf. Qed.

Lemma check_idle_settings now (st : Tcp) fd : settings (check_idle now st fd) = settings st.
Proof.
  unfold check_idle. destruct (last_active_ st !! fd); [|done]. destruct (conns_ st !! fd) as [info|]; [|by destruct st].
  destruct (_ <? _); [|done]. rewrite <-(close_entry_settings fd (ci_sock info) st). by destruct (erase_entry _ _).
Qed.

(** A configuration that was read from a file without complaint. *)
Definition accepted_config (c : Config) : Prop := ∃ env path, file_ok env path = true ∧ read_reload env path = (c, []).

Lemma accepted_config_ok c : accepted_config c → in_ranges c ∧ ∃ inet_pton, config_ok inet_pton c.
Proof.
  intros (env & path & Hf & E). unfold read_reload in E. rewrite Hf in E. destruct (file_config env path) as [c' errors] eqn:Ef.
  injection E as -> [_ Ev]%app_eq_nil. split.
  - pose proof (from_file_ranges (ce_open env) (ce_stream env) (ce_parse env) (ce_keys env) path) as Hr.
    unfold file_config in Ef. by rewrite Ef in Hr.
  - exists (ce_inet_pton env). by apply validate_ok.
Qed.

(** The start-up configuration or one that was accepted, with its idle timeout. *)
Definition settings_ok (config : Config) (st : Tcp) : Prop :=
  (handler_config st = config ∨ accepted_config (handler_config st)) ∧ keepalive_timeout_ st = keepalive_timeout (handler_config st).

Lemma settings_ok_eq config st st' : settings st' = settings st → settings_ok config st → settings_ok config st'.
Proof. unfold settings_ok, settings. by intros [= -> ->]. Qed.

Lemma maybe_reload_settings config m (st : Tcp) : settings_ok config st → settings_ok config (maybe_reload m st).
Proof.
  intros Hs. unfold maybe_reload. destruct (_ =? _); [done|]. destruct (read_reload _ _) as [c [|e errors] ] eqn:E; [|done].
  assert (accepted_config c) as Ha.
  { exists (mt_env m), (mt_path m). split; [|done]. unfold read_reload in E. by destruct (file_ok _ _). }
  clear Hs E. destruct (mt_tls m (tls c)), st; split; cbn; auto.
Qed.

Lemma check_timeout_settings config m (st : Tcp) : settings_ok config st → settings_ok config (check_timeout m st).
Proof.
  intros Hs. unfold check_timeout. set (st1 := check_all_idle _ _). assert (settings_ok config st1) as Hs1.
  { eapply settings_ok_eq; [|by apply (maybe_reload_settings config m)]. unfold st1, check_all_idle.
    apply foldl_settings, check_idle_settings. }
  clearbody st1. eapply settings_ok_eq; [|exact Hs1]. unfold settings.
  destruct st1 as [wk ? ? conns B]. cbn. destruct B; cbn; case_match; done.
Qed.

Lemma own_step_settings config st st' : own_step st st' → settings_ok config st → settings_ok config st'.
Proof.
  intros [a ? ? Hf E|a fd ev ? ? Ha E|answers fd mask ? ? E|t ? ? E|m ?|now ?|fd ?|st0];
    try apply check_timeout_settings; apply settings_ok_eq; try by destruct st.
  - by eapply accept_settings.
  - by eapply client_settings.
  - by eapply lift_settings.
  - by eapply lift_settings.
  - unfold drain_idle. destruct (conns_ _ !! fd); [|done]. destruct (is_idle _ _); [|done]. apply close_client_settings.
  - unfold close_rest. set (st1 := foldl _ _ _). trans (settings st1); [by destruct st1|]. apply foldl_settings.
    intros st2 fd. unfold force_close. destruct (conns_ st2 !! fd); [|done]. apply close_entry_settings.
Qed.

Lemma tcp_step_settings config s s' : tcp_step s s' → settings_ok config s.2 → settings_ok config s'.2.
Proof. intros [o ? ? Hs|o d b c st Ho Hb Hu Hl]; [by apply own_step_settings|]. apply settings_ok_eq. by destruct st. Qed.

Lemma tcp_steps_settings config s s' : tcp_steps s s' → settings_ok config s.2 → settings_ok config s'.2.
Proof. induction 1; [done|]. eauto using tcp_step_settings. Qed.
End runs.

(** * What holds in every state *)

(** C8: However the accepts, the events of clients and backends, the timeouts, the
    reloads and the draining of a worker interleave with each other and with the
    other workers: the slots in use are those of the other workers and one per
    entry of the connection table; every exchange with a backend belongs to a
    connection that has finished its handshake and is alive; a connection of the
    handler that no entry refers to is one that never got past its handshake; and
    two entries never share a socket. *)
Theorem worker_accounting `{HashOrder, Zlib, FileSystem} w config o0 st0 o (st : Tcp) :
  tcp_started config o0 st0 → tcp_steps w (o0, st0) (o, st) →
  (∀ b, connection_budget_ st = Some b → in_use_ b = o + Z.of_nat (base.size (conns_ st)) ∧ 0 <= in_use_ b <= SIZE_MAX) ∧
  (∀ client, is_Some (client_upstream_ (handler_ st) !! client) →
    is_Some (wk_conns (handler_ st) !! client) ∧ ∃ fd info, conns_ st !! fd = Some info ∧ ci_sock info = client ∧ ci_state info = READY) ∧
  (∀ client c, wk_conns (handler_ st) !! client = Some c →
    (∃ fd info, conns_ st !! fd = Some info ∧ ci_sock info = client) ∨ ∃ a, c = blank a) ∧
  (∀ fd fd' info info', conns_ st !! fd = Some info → conns_ st !! fd' = Some info' → ci_sock info = ci_sock info' → fd = fd').
Proof.
  intros Hi%started_inv Hs. pose proof (tcp_steps_inv w _ _ Hs Hi) as (Ho & Hb & Ht). cbn [fst snd] in *. split_and!.
  - intros b Eb. rewrite Eb in Hb. cbn in Hb. lia.
  - apply Ht.
  - intros client c Hc. by apply (tb_conn _ _ _ _ Ht).
  - apply Ht.
Qed.


(** Draining closes exactly the connections that are idle, those still in
    their handshake included: a connection with a request in flight, a response
    half sent or input half read stays, with its state and its exchange as they
    were. *)
Theorem draining_spares_busy `{HashOrder, Zlib, FileSystem} w config o0 st0 o (st : Tcp) :
  tcp_started config o0 st0 → tcp_steps w (o0, st0) (o, st) →
  (∀ fd info, conns_ (close_idle st) !! fd = Some info ↔ conns_ st !! fd = Some info ∧ is_idle st info = false) ∧
  (∀ fd info, conns_ (close_idle st) !! fd = Some info → kept st (close_idle st) info).
Proof.
  intros Hi%started_inv Hs. pose proof (tcp_steps_inv w _ _ Hs Hi) as Hinv. by eapply close_idle_spec.
Qed.

(** Once the clock is past the deadline [drain_connections] returns, unless an
    exception escapes, and then the connection table is empty, every slot of this
    worker is back in the budget, no exchange is in flight, and what is left in the
    handler are connections that never got past their handshake. *)
Theorem drain_returns_slots `{HashOrder, Zlib, FileSystem} w config o0 st0 o (st : Tcp) listen start turns :
  tcp_started config o0 st0 → tcp_steps w (o0, st0) (o, st) → drains_ok w listen turns st →
  Exists (λ t, start + shutdown_drain_timeout_ st * 10 ^ 9 <= dr_now t) turns →
  ∃ r, drain_connections w listen start turns st = Some r ∧
    match r with
    | Ok st' =>
      conns_ st' = ∅ ∧ (∀ b, connection_budget_ st' = Some b → in_use_ b = o) ∧ client_upstream_ (handler_ st') = ∅ ∧
      map_Forall (λ _ c, ∃ a, c = blank a) (wk_conns (handler_ st'))
    | Escaped _ => True
    end.
Proof.
  intros Hi%started_inv Hs Hok Hd. destruct (drain_loop_steps w o listen _ turns st Hok Hd) as (r & Er & Hr).
  exists r. split; [exact Er|]. destruct r as [st'|]; [|done]. destruct Hr as (st1 & Hs1 & ->). split; [apply close_rest_empty|].
  apply closed_clean; [|apply close_rest_empty]. apply close_rest_inv.
  by apply (tcp_steps_inv w (o0, st0) (o, st1)); [etrans|].
Qed.


(** A connection that breaks during its handshake is erased from the table, and
    its entry in the handler's maps stays. *)
Lemma failed_handshake_leaks `{HashOrder, Zlib, FileSystem} w a fd ev info (st st' : Tcp) :
  conns_ st !! fd = Some info → ci_state info = HANDSHAKING → ev_hup ev = true ∨ ca_handshake a = HS_FAILED →
  handle_client w a fd ev st = Some st' → conns_ st' !! fd = None ∧ wk_conns (handler_ st') = wk_conns (handler_ st).
Proof.
  intros E Hs Hf. unfold handle_client. rewrite E, Hs. intros [= <-].
  assert (handshake_step a fd ev info st = forget_fd fd (erase_entry fd st)) as ->.
  { unfold handshake_step. destruct Hf as [->| ->]; [done|by destruct (ev_hup ev)]. }
  pose proof (erase_entry_core fd st info E) as Hc. set (st1 := erase_entry fd st) in *. clearbody st1. unfold core in Hc.
  injection Hc as _ Ec _ Ew _. unfold forget_fd. destruct st1. cbn in *. rewrite Ec, Ew. split; [apply lookup_delete_eq|done].
Qed.
