(* ===== verification/TcpScenarios.v ===== *)
(** A worker on concrete events: a client that waits for a backend, one in its
    handshake, and the draining of both. *)

From S2P Require Import Prelude Search Config RateLimiter RouteUtils ApiKeyManager ConnectionBudget FileCache FdCache ConnectionPool LoggingUtils HttpParser HttpResponse ConfigFile UpstreamManager Routes HttpClient UpstreamResponse UpstreamExchange Tracing Responder Admission StaticFiles Proxy ProxyInvariant ProxyProperties ReadPath ReadProperties ReadScenarios WritePath WriteProperties TcpWorker TcpInvariant TcpProperties.

#[local] Open Scope Z_scope.
#[local] Open Scope gateway_scope.
#[local] Existing Instance some_order.
#[local] Existing Instance stored_zlib.
#[local] Existing Instance posix.

(** A new worker; another one holds three slots. *)
Definition quiet : Tcp :=
  mkTcp posix (connected{{wk_conns := ∅}}) site (tls site) ∅ (Some (mkBudget 3 10 ∅ ∅)) ∅ ∅ (keepalive_timeout site) 5 0 0 0 0%nat 0 0.

Definition client_answers (hs : SSLHandshakeStatus) (reads : list received) : ClientAnswers :=
  mkClientAnswers hs 0 0 (site_answers 7) reads (λ _, mkWriteAnswers (mkDone 5 5) 5 (site_answers 8) []) [] (λ _ _ _, None).

Definition event_on (fd : nat) (ev : Events) (accepts : list accepted) (a : ClientAnswers) : FdEvent :=
  mkFdEvent fd ev 0 accepts [] a.

Definition readable : Events := mkEvents false true false.

Definition no_timeouts : Timeouts := mkTimeouts 0 (λ _, mkDue (λ _, 0) no_source (λ _, [])) [].

(** A client connects, finishes its handshake and asks for a backend's page;
    another one connects. *)
Definition busy_turn : wait_result :=
  Events_ready
    [event_on 3 readable [Accepted 9 "10.1.1.1" 0 true true] (client_answers HS_COMPLETE []);
     event_on 9 readable [] (client_answers HS_COMPLETE []);
     event_on 9 readable [] (client_answers HS_COMPLETE [Data (get "/api" [])]);
     event_on 3 readable [Accepted 10 "10.1.1.2" 0 true true] (client_answers HS_COMPLETE [])]
    no_timeouts 0
    (mkMaintenance 0 0 (mkConfigEnv (λ _, None) (λ _, (JNull, None)) (λ _, None) None (λ _, true)) [] (λ _, true) 0 (λ _, true)).

Definition after (r : option (result Tcp)) : Tcp := match r with Some (Ok st) => st | _ => quiet end.

Definition arrives (r : option (result Tcp)) : bool := match r with Some (Ok _) => true | _ => false end.

Lemma arrives_after r : arrives r = true → r = Some (Ok (after r)).
Proof. by destruct r as [ [st|st]|]. Qed.

(** The state after the turn. *)
Definition busy : Tcp := after (run_turn site_world 3 busy_turn quiet).

Lemma fresh_none `{FileSystem} fd (st : Tcp) : conns_ st !! fd = None → fresh fd st.
Proof. intros E info E'. by rewrite E in E'. Qed.

(** The socket of an entry is alive. *)
Definition alive_entry (fd : nat) (st : Tcp) : bool :=
  match conns_ st !! fd with Some info => bool_decide (is_Some (wk_conns (handler_ st) !! ci_sock info)) | None => true end.

Lemma answers_alive a fd (st : Tcp) : alive_entry fd st = true → answers_ok a fd st.
Proof.
  unfold alive_entry. intros Ha info E En. rewrite E in Ha. apply bool_decide_eq_true_1 in Ha as [c Hc]. by rewrite Hc in En.
Qed.

(** The kernel's part in an event, as a check. *)
Definition event_fine (listen : nat) (e : FdEvent) (st : Tcp) : bool :=
  if fe_fd e == listen then
    match fe_accept e with
    | [Accepted fd _ _ _ _] => bool_decide (conns_ st !! fd = None)
    | _ => false
    end
  else alive_entry (fe_fd e) st.

Lemma event_fine_ok listen e (st : Tcp) : event_fine listen e st = true → event_ok listen e st.
Proof.
  unfold event_fine, event_ok. destruct (fe_fd e == listen); [|apply answers_alive].
  destruct (fe_accept e) as [|[fd ip now op ssl|] [|]]; try done. intros Hn%bool_decide_eq_true_1.
  split; [by apply fresh_none|done].
Qed.

Fixpoint events_fine (listen : nat) (handle : FdEvent → Tcp → option (result Tcp)) (events : list FdEvent) (st : Tcp) : bool :=
  match events with
  | [] => true
  | e :: events' => event_fine listen e st && arrives (handle e st) && events_fine listen handle events' (after (handle e st))
  end.

Lemma events_fine_ok listen handle events (st : Tcp) : events_fine listen handle events st = true → events_ok listen handle events st.
Proof.
  revert st. induction events as [|e events IH]; intros st; cbn [events_fine events_ok]; [done|].
  intros [ [He Ha]%andb_true_iff Hr]%andb_true_iff. split; [by apply event_fine_ok|].
  intros st' E. rewrite E in Hr. by apply IH.
Qed.

Lemma quiet_started : tcp_started site 3 quiet.
Proof. split; [reflexivity..|lia|]. intros b [= <-]. unfold SIZE_MAX. cbn. lia. Qed.

Lemma busy_turn_ok : turn_ok site_world 3 busy_turn quiet.
Proof. apply events_fine_ok. by vm_compute. Qed.

Lemma busy_turn_runs : run_turn site_world 3 busy_turn quiet = Some (Ok busy).
Proof. apply arrives_after. by vm_compute. Qed.

Lemma busy_steps : tcp_steps site_world (3, quiet) (3, busy).
Proof. eapply own_steps_tcp, run_turn_steps; [exact busy_turn_ok|exact busy_turn_runs]. Qed.

(** A new file that sets the idle timeout. *)
Definition new_file : ConfigEnv :=
  mkConfigEnv (λ _, Some (lit "{...}")) (λ _, (JObject [(lit "keepalive_timeout", JInt 7)], None)) (λ _, None) None (λ _, true).

Definition reload_turn : wait_result :=
  TimedOut (mkMaintenance 1 1 new_file "config.json" (λ _, true) 0 (λ _, true)) no_timeouts.

Definition reloaded : Tcp := after (run_turn site_world 3 reload_turn busy).

Lemma reload_turn_runs : run_turn site_world 3 reload_turn busy = Some (Ok reloaded).
Proof. apply arrives_after. by vm_compute. Qed.

Lemma worker_accounting_witness :
  ∃ b, connection_budget_ busy = Some b ∧ in_use_ b = 3 + Z.of_nat (base.size (conns_ busy)) ∧ base.size (conns_ busy) = 2%nat ∧
    ∃ fd info, conns_ busy !! fd = Some info ∧ ci_sock info = 0%nat ∧ ci_state info = READY.
Proof.
  destruct (worker_accounting site_world site 3 quiet 3 busy quiet_started busy_steps) as (Hb & Hx & _).
  assert (is_Some (connection_budget_ busy)) as [b Eb] by (refine (bool_decide_eq_true_1 _ _); by vm_compute). exists b. split_and!; [done|by apply Hb|by vm_compute|].
  apply (Hx 0%nat). refine (bool_decide_eq_true_1 _ _). by vm_compute.
Defined.


(** The second client is closed, the first one is not. *)
Lemma draining_spares_busy_witness :
  base.size (conns_ (close_idle busy)) = 1%nat ∧ ∀ info, conns_ (close_idle busy) !! 9%nat = Some info → kept busy (close_idle busy) info.
Proof.
  destruct (draining_spares_busy site_world site 3 quiet 3 busy quiet_started busy_steps) as [_ Hk].
  split; [by vm_compute|]. intros info. apply (Hk 9%nat).
Defined.

(** Nothing happens for a while, then the deadline is past. *)
Definition idle_turns : list DrainTurn := [mkDrain 1 [] no_timeouts; mkDrain (6 * 10 ^ 9) [] no_timeouts].

Lemma idle_turns_ok : drains_ok site_world 3 idle_turns busy.
Proof.
  assert (∀ now st, drain_turn site_world 3 (mkDrain now [] no_timeouts) st ≠ None) as Hn by done.
  split_and!; [done|apply Hn|]. intros st' _. split_and!; [done|apply Hn|done].
Qed.

Lemma drain_returns_slots_witness : ∃ r, drain_connections site_world 3 0 idle_turns busy = Some r ∧ arrives (Some r) = true.
Proof.
  destruct (drain_returns_slots site_world site 3 quiet 3 busy 3 0 idle_turns quiet_started busy_steps idle_turns_ok) as (r & Er & _).
  { right. left. by vm_compute. }
  exists r. split; [exact Er|]. rewrite <-Er. by vm_compute.
Defined.

(** The same turn, after which the worker is told to stop. *)
Definition short_life : list LoopTurn := [mkLoopTurn false busy_turn false; mkLoopTurn true Interrupted false].

Lemma short_life_ok : loop_ok site_world 3 short_life quiet.
Proof.
  split; [exact busy_turn_ok|]. split; [change (run_turn site_world 3 busy_turn quiet ≠ None); rewrite busy_turn_runs; discriminate|].
  intros st' _. split; [exact I|]. split; [discriminate|]. intros st'' _. exact I.
Qed.

Lemma short_life_loop : run_loop site_world 3 short_life quiet = Some (Ok busy).
Proof.
  trans (and_then (run_turn site_world 3 busy_turn quiet) (run_loop site_world 3 [mkLoopTurn true Interrupted false])); [reflexivity|].
  rewrite busy_turn_runs. reflexivity.
Qed.

Lemma some_ok_inj {A} (x y : A) : Some (Ok x) = Some (Ok y) → x = y.
Proof. by intros [= ->]. Qed.

