(* ===== verification/Startup.v ===== *)
(** Starting the gateway: [main] of [src/server/main.cpp] and [Tcpserver] of
    [src/server/server.cpp], up to the first turn of the workers. The files, the
    environment, OpenSSL and the kernel are answers. *)

From S2P Require Import Prelude Config RateLimiter ConnectionBudget FileCache FdCache ConnectionPool ConfigFile UpstreamManager AdminServer StaticFiles Proxy ProxyInvariant UpstreamExchange Sockets Descriptors TlsContexts TcpWorker TcpInvariant TcpProperties.

#[local] Open Scope Z_scope.
#[local] Open Scope gateway_scope.

(** * Signals *)

Inductive signal := SIGINT | SIGTERM | SIGHUP | OtherSignal.

Record Flags := mkFlags { stop_server_flag : bool; config_reload_generation : Z }.

Definition signal_handler (s : signal) (f : Flags) : Flags :=
  match s with
  | SIGINT | SIGTERM => f{{stop_server_flag := true}}
  | SIGHUP => f{{config_reload_generation ::= fun n => wrap64 (n + 1)}}
  | OtherSignal => f
  end.

(** * Workers *)

(** The calls of [create_listen_sock] in their order, and of the worker's
    constructor: the epoll descriptor, [Epoll::add] of the listener, OpenSSL. *)
Record WorkerStart := mkWorkerStart {
  ws_socket : sys_result;
  ws_reuseport : option sys_error;
  ws_bind : sys_result;
  ws_listen : sys_result;
  ws_epoll : sys_result;
  ws_add : sys_result;
  ws_ssl : ssl_call → bool;
  ws_generation : Z;
}.

(** A new listener's description: non-blocking, closed by [exec]. *)
Definition new_listener : Description := mkDescription (Z.lor 2 O_NONBLOCK) FD_CLOEXEC ∅.

Definition create_listen_sock (a : WorkerStart) : wrapped Z :=
  fd ← socket_new (ws_socket a);
  _ ← setReusePort true (ws_reuseport a) new_listener;
  _ ← sock_bind (ws_bind a);
  _ ← sock_listen (ws_listen a);
  mret fd.

Section start.
  Context `{FileSystem} (reason : ssl_call → bytes) (strerror : Z → bytes) (fs : fs_t).

(** The value, or the text of the exception. *)
Definition or_what {A} (x : wrapped A) : A + bytes :=
  match x with Returned a => inl a | SystemError context e => inr (throw_system_error strerror context (errno_of e)) end.

(** The handler's own caches, and what it shares with the other workers. *)
Definition http_handler (config : Config) (upstreams : UpstreamManager) (limiter : RateLimiterManager) (pool : ConnectionPool) : Worker :=
  idle_worker (mkShared _ limiter upstreams (fd_cache_new 256 10) (cache_new (cache_max_entries config) (cache_max_file_size_mb config)) fs) pool.

Definition tcp_worker (a : WorkerStart) (config : Config) (upstreams : UpstreamManager) (limiter : RateLimiterManager) (b : budget) : Tcp + bytes :=
  match or_what (_ ← epoll_new (ws_epoll a); epoll_add (ws_add a)) with
  | inr what => inr what
  | inl _ =>
    match (build_hardened_ssl_ctx (ws_ssl a) reason (tls_cert_path (tls config)) (tls_key_path (tls config))).1 with
    | inr e => inr ("TLS setup failed (" ++ tls_cert_path (tls config) ++ ", " ++ tls_key_path (tls config) ++ "): " ++ e)
    | inl _ =>
      inl (mkTcp _ (http_handler config upstreams limiter pool_init) config (tls config) ∅ (Some b) ∅ ∅
        (keepalive_timeout config) (shutdown_drain_timeout config) 0 0 (ws_generation a) 0 0 0)
    end
  end.

Definition effective_workers (num_workers hardware : Z) : Z :=
  if num_workers =? 0 then (if hardware =? 0 then 4 else hardware) else num_workers.

(** The loop of [start]: the workers whose threads run, and the exception that
    ended the loop, if one did. *)
Fixpoint launch_workers (n : nat) (answers : nat → WorkerStart) (config : Config) (upstreams : UpstreamManager)
    (limiter : RateLimiterManager) (b : budget) (started : list Tcp) : list Tcp * option bytes :=
  match n with
  | O => (started, None)
  | S n' =>
    let a := answers (length started) in
    match or_what (create_listen_sock a) with
    | inr e => (started, Some e)
    | inl _ =>
      match tcp_worker a config upstreams limiter b with
      | inr e => (started, Some e)
      | inl st => launch_workers n' answers config upstreams limiter b (started ++ [st])
      end
    end
  end.

Definition start (num_workers hardware : Z) (answers : nat → WorkerStart) (config : Config) (upstreams : UpstreamManager) : list Tcp * option bytes :=
  launch_workers (Z.to_nat (effective_workers num_workers hardware)) answers config upstreams
    (manager_new (rate_limit_config config)) (budget_init (max_connections config)) [].

(** * [main] *)

(** The texts printed are given by their variable part: the errors of the
    configuration, of OpenSSL, or the text of the exception. *)

(** How the process goes on. [Serving]: every worker runs, and the process ends
    with status 0 after they do. [Joining]: an exception is being handled while the
    administrative thread runs; its destructor waits for that thread, which ends
    only with the stop flag. [Terminated]: the destructor of a thread that has not
    been joined calls [std::terminate]. *)
Inductive process :=
| Exit (status : Z) (messages : list bytes)
| Serving (workers : list Tcp)
| Joining (running : list Tcp) (error : bytes)
| Terminated.

Record MainAnswers := mkMainAnswers {
  ma_env : ConfigEnv;
  ma_ssl : ssl_call → bool;
  ma_admin : AdminStart;
  ma_hardware : Z;
  ma_workers : nat → WorkerStart;
}.

Definition startup_config `{HashOrder} (a : MainAnswers) (argv : list bytes) : Config * list bytes :=
  let path := match argv with [] => lit "config.json" | path :: _ => path end in
  let '(config, errors) := file_config (ma_env a) path in
  (config, errors ++ Config.validate (ce_inet_pton (ma_env a)) config).

Definition main `{HashOrder} (a : MainAnswers) (argv : list bytes) : process :=
  let '(config, errors) := startup_config a argv in
  match errors with
  | _ :: _ => Exit 1 errors
  | [] =>
    match (build_hardened_ssl_ctx (ma_ssl a) reason (tls_cert_path (tls config)) (tls_key_path (tls config))).1 with
    | inr e => Exit 1 [e]
    | inl _ =>
      let upstreams := UpstreamManager.manager_init (upstream_config config) in
      match (if adm_enabled (admin config) then admin_start (ce_inet_pton (ma_env a)) (ma_admin a) (admin config) else None) with
      | Some e => Exit 1 [e]
      | None =>
        match start (num_workers config) (ma_hardware a) (ma_workers a) config upstreams with
        | (workers, None) => Serving workers
        | (running, Some e) =>
          if adm_enabled (admin config) then Joining running e
          else match running with [] => Exit 1 [e] | _ => Terminated end
        end
      end
    end
  end.
End start.

(** * Properties *)

Section started.
  Context `{FileSystem} (reason : ssl_call → bytes) (strerror : Z → bytes) (fs : fs_t).

(** A worker as it should come up: no connection, the shared budget, limiter and
    manager, and a context with the project's policy. *)
Definition worker_ready (config : Config) (a : WorkerStart) (st : Tcp) : Prop :=
  tcp_started config 0 st ∧ connection_budget_ st = Some (budget_init (max_connections config)) ∧
  sh_limiter (wk_shared (handler_ st)) = manager_new (rate_limit_config config) ∧
  sh_upstreams (wk_shared (handler_ st)) = UpstreamManager.manager_init (upstream_config config) ∧
  wk_pool (handler_ st) = pool_init ∧
  ∃ ctx, (build_hardened_ssl_ctx (ws_ssl a) reason (tls_cert_path (tls config)) (tls_key_path (tls config))).1 = inl ctx ∧ hardened ctx.

Lemma tcp_worker_started a config st :
  between 1 1000000000 (max_connections config) →
  tcp_worker reason strerror fs a config (UpstreamManager.manager_init (upstream_config config)) (manager_new (rate_limit_config config))
    (budget_init (max_connections config)) = inl st →
  worker_ready config a st.
Proof.
  intros Hm. unfold tcp_worker, worker_ready. destruct (or_what _ _); [|done].
  pose proof (server_ctx_spec (ws_ssl a) reason (tls_cert_path (tls config)) (tls_key_path (tls config))) as Hc.
  destruct (build_hardened_ssl_ctx _ _ _ _) as [ [ctx|e] live]; [|done]. cbn [fst]. intros [= <-]. split_and!; [|done..|].
  - split; try done. intros b [= <-]. cbn. unfold between, SIZE_MAX in *. lia.
  - exists ctx. split; [done|apply Hc].
Qed.

Lemma launch_workers_spec (P : nat → Tcp → Prop) n answers config upstreams limiter b started ws :
  (∀ i st, tcp_worker reason strerror fs (answers i) config upstreams limiter b = inl st → P i st) →
  (∀ i st, started !! i = Some st → P i st) →
  launch_workers reason strerror fs n answers config upstreams limiter b started = (ws, None) →
  length ws = (length started + n)%nat ∧ ∀ i st, ws !! i = Some st → P i st.
Proof.
  intros Hw. revert started. induction n as [|n IH]; intros started Hs; cbn [launch_workers].
  { intros [= <-]. split; [lia|done]. }
  destruct (or_what _ (create_listen_sock _)); [|done]. destruct (tcp_worker _ _ _ _ _ _ _ _) as [st|] eqn:E; [|done].
  intros Hr. apply IH in Hr as [Hl Hp]; [split; [rewrite Hl, length_app; cbn; lia|done]|].
  intros i st' [Hi|[Hi Hl] ]%lookup_app_Some; [by apply Hs|].
  apply list_lookup_singleton_Some in Hl as [Hl <-]. replace i with (length started) by lia. by apply Hw.
Qed.

Lemma startup_config_ranges `{HashOrder} a argv : in_ranges (startup_config a argv).1.
Proof.
  unfold startup_config, file_config. pose proof (from_file_ranges (ce_open (ma_env a)) (ce_stream (ma_env a)) (ce_parse (ma_env a)) (ce_keys (ma_env a))
    (match argv with [] => lit "config.json" | path :: _ => path end)) as Hr. by destruct (from_file _ _ _ _ _).
Qed.

Lemma main_serves `{HashOrder} a argv ws :
  0 <= ma_hardware a → main reason strerror fs a argv = Serving ws →
  let config := (startup_config a argv).1 in
  Config.validate (ce_inet_pton (ma_env a)) config = [] ∧ in_ranges config ∧
  Z.of_nat (length ws) = effective_workers (num_workers config) (ma_hardware a) ∧ ws ≠ [] ∧
  ∀ i st, ws !! i = Some st → worker_ready config (ma_workers a i) st.
Proof.
  intros Hh. pose proof (startup_config_ranges a argv) as Hr. unfold main.
  assert (∀ config errors, startup_config a argv = (config, errors) → errors = [] → Config.validate (ce_inet_pton (ma_env a)) config = []) as Hv.
  { unfold startup_config. destruct (file_config _ _). intros ? ? [= <- <-] E. by apply app_nil in E as [_ ?]. }
  destruct (startup_config a argv) as [config errors] eqn:Ec. cbn [fst] in *. destruct errors as [|e errors]; [|done].
  specialize (Hv _ _ eq_refl eq_refl). destruct (build_hardened_ssl_ctx _ _ _ _).1; [|done]. destruct (if adm_enabled _ then _ else _); [done|].
  destruct (start _ _ _ _ _ _ _ _) as [ws' [e|] ] eqn:Es; [by repeat case_match|]. intros [= ->].
  unfold start in Es. apply (launch_workers_spec (λ i, worker_ready config (ma_workers a i))) in Es as [Hl Hp].
  2: { intros i st. apply tcp_worker_started, Hr. } 2: done.
  assert (1 <= effective_workers (num_workers config) (ma_hardware a)) as Hw.
  { unfold effective_workers. pose proof (rg_workers _ Hr) as Hn. unfold between in Hn.
    destruct (Z.eqb_spec (num_workers config) 0), (Z.eqb_spec (ma_hardware a) 0); lia. }
  cbn in Hl. split_and!; [done|done|lia| |exact Hp]. intros ->. cbn in Hl. lia.
Qed.

(** C21: When the process starts to serve, the file was read without complaint, its
    configuration passes every check and all its numbers are in range; there are as
    many workers as it asks for, or as the machine has, and at least one; each
    of them is in the initial state from which the runs of a worker start, with a
    TLS context that has the project's policy; and all share one budget of
    connections, empty and with the configured limit, one limiter and one manager
    of the upstreams. *)
Theorem startup_serves `{HashOrder} a argv ws :
  0 <= ma_hardware a → main reason strerror fs a argv = Serving ws →
  let config := (startup_config a argv).1 in
  Config.validate (ce_inet_pton (ma_env a)) config = [] ∧ in_ranges config ∧
  Z.of_nat (length ws) = effective_workers (num_workers config) (ma_hardware a) ∧ ws ≠ [] ∧
  ∀ i st, ws !! i = Some st → worker_ready config (ma_workers a i) st.
Proof. apply main_serves. Qed.

(** ** Failures *)

(** What setting up one worker throws. *)
Definition worker_error (a : WorkerStart) (config : Config) (upstreams : UpstreamManager) (limiter : RateLimiterManager) (b : budget) : option bytes :=
  match or_what strerror (create_listen_sock a) with
  | inr e => Some e
  | inl _ => match tcp_worker reason strerror fs a config upstreams limiter b with inr e => Some e | inl _ => None end
  end.

Lemma launch_workers_error n answers config upstreams limiter b started ws e :
  launch_workers reason strerror fs n answers config upstreams limiter b started = (ws, Some e) →
  (length started <= length ws < length started + n)%nat ∧ worker_error (answers (length ws)) config upstreams limiter b = Some e.
Proof.
  revert started. induction n as [|n IH]; intros started; cbn [launch_workers]; [done|]. unfold worker_error.
  destruct (or_what strerror (create_listen_sock (answers (length started)))) eqn:E; [|intros [= <- <-]; rewrite E; split; [lia|done]].
  destruct (tcp_worker _ _ _ _ _ _ _ _) as [st|] eqn:Et; [|intros [= <- <-]; rewrite E, Et; split; [lia|done]].
  intros [Hl He]%IH. rewrite length_app in Hl. cbn in Hl. split; [lia|done].
Qed.

End started.

(** * Concrete starts *)

#[local] Existing Instance posix.
#[local] Existing Instance some_order.

Definition no_files : ConfigEnv := mkConfigEnv (λ _, None) (λ _, (JNull, None)) (λ _, None) None (λ _, true).

Definition empty_disk : PosixFs := mkFs ∅ ∅ 10.

Definition good_start : WorkerStart := mkWorkerStart (SysOk 5) None (SysOk 0) (SysOk 0) (SysOk 6) (SysOk 0) (λ _, true) 0.

(** The second worker cannot bind its listener. *)
Definition busy_port (i : nat) : WorkerStart := if decide (i = 1%nat) then good_start{{ws_bind := SysErr (SE_OTHER 98)}} else good_start.

Definition serves (p : process) : bool := match p with Serving _ => true | _ => false end.

Lemma serves_some p : serves p = true → ∃ ws, p = Serving ws.
Proof. destruct p; naive_solver. Qed.

Lemma startup_serves_witness :
  ∃ ws, main (λ _, []) (λ _, []) empty_disk (mkMainAnswers no_files (λ _, true) (mkAdminStart 4 true true) 8 (λ _, good_start)) [] = Serving ws ∧ length ws = 8%nat.
Proof.
  set (a := mkMainAnswers _ _ _ _ _). assert (∃ ws, main (λ _, []) (λ _, []) empty_disk a [] = Serving ws) as [ws Hm] by (apply serves_some; vm_compute; reflexivity).
  exists ws. split; [done|]. destruct (@startup_serves posix (λ _, []) (λ _, []) empty_disk _ a [] ws ltac:(done) Hm) as (_ & _ & Hl & _).
  apply Nat2Z.inj. rewrite Hl. by vm_compute.
Defined.

(** A listener that cannot be bound for a worker after the first does not lead to
    the error message and the exit status of the handlers in [main]. *)
Lemma second_worker_terminates :
  main (λ _, []) (λ _, []) empty_disk (mkMainAnswers no_files (λ _, true) (mkAdminStart 4 true true) 8 busy_port) [] = Terminated.
Proof. by vm_compute. Qed.

Definition busy_main : MainAnswers := mkMainAnswers no_files (λ _, true) (mkAdminStart 4 true true) 8 busy_port.

