(* ===== verification/Process.v ===== *)
(** The process: the workers [Tcpserver::start] leaves running, which share one
    budget of connections, one limiter, one manager of the upstreams and one pool
    of idle connections. Its runs interleave the steps of the workers; the history
    of each worker in such a run is a run of [TcpProperties], so what is proved
    there of one worker among others holds of every worker of the process. *)

From S2P Require Import Prelude Config RateLimiter ConnectionBudget ConnectionPool UpstreamManager ConfigFile UpstreamExchange Responder StaticFiles Proxy ProxyInvariant WritePath ReadPath ReadScenarios TcpWorker TcpInvariant TcpProperties AdminServer Sockets Descriptors TlsContexts Startup.

#[local] Open Scope Z_scope.
#[local] Open Scope gateway_scope.

Lemma sum_list_with_insert {A} (f : A → nat) (l : list A) i x y :
  l !! i = Some x → (sum_list_with f (<[i := y]> l) + f x = sum_list_with f l + f y)%nat.
Proof.
  revert i. induction l as [|z l IH]; intros [|i] E; simplify_eq/=; [lia|]. specialize (IH i E). lia.
Qed.

Lemma sum_list_with_lookup {A} (f : A → nat) (l : list A) i x : l !! i = Some x → (f x <= sum_list_with f l)%nat.
Proof. revert i. induction l as [|z l IH]; intros [|i] E; simplify_eq/=; [lia|]. specialize (IH i E). lia. Qed.

Section process.
  Context `{HashOrder, Zlib, FileSystem} (w : World).

(** * What a step of a worker does to the budget *)

Definition limit_of (st : Tcp) : option Z := max_ <$> connection_budget_ st.

(** No new entry, and the limit as it was. *)
Definition calm (st st' : Tcp) : Prop := dom (conns_ st') ⊆ dom (conns_ st) ∧ limit_of st' = limit_of st.

#[local] Instance calm_preorder : PreOrder calm.
Proof.
  split; [by intros ?|]. intros x y z [D1 L1] [D2 L2]. split; [set_solver|congruence].
Qed.

Lemma calm_same st st' : conns_ st' = conns_ st → connection_budget_ st' = connection_budget_ st → calm st st'.
Proof. unfold calm, limit_of. by intros -> ->. Qed.

Lemma calm_deleted fd st st' :
  conns_ st' = delete fd (conns_ st) → connection_budget_ st' = ConnectionBudget.release <$> connection_budget_ st → calm st st'.
Proof.
  unfold calm, limit_of. intros -> ->. split; [rewrite dom_delete; set_solver|]. by destruct (connection_budget_ st) as [ [] |].
Qed.

Lemma erase_entry_calm fd st : calm st (erase_entry fd st).
Proof.
  destruct (conns_ st !! fd) as [info|] eqn:E; [|by rewrite erase_entry_none].
  pose proof (erase_entry_core fd st info E) as Hc. unfold core in Hc. injection Hc as ? ? _ _ _. by eapply calm_deleted.
Qed.

Lemma cleanup_calm sock st : calm st (cleanup_sock sock st).
Proof. by apply calm_same; destruct st. Qed.

Lemma close_entry_calm fd sock st : calm st (erase_entry fd (cleanup_sock sock st)).
Proof. etrans; [apply (cleanup_calm sock)|apply erase_entry_calm]. Qed.

Lemma forget_calm fd st : calm st (forget_fd fd st).
Proof. by apply calm_same; destruct st. Qed.

Lemma close_client_calm fd info st : calm st (close_client fd info st).
Proof. etrans; [apply (close_entry_calm fd (ci_sock info))|apply forget_calm]. Qed.

Lemma run_calm a sock fd st st' : run_read w a sock fd st = Some st' ∨ run_write w a sock st = Some st' → calm st st'.
Proof.
  unfold run_read, run_write. intros [Hr|Hr]; repeat (case_match; try done); simplify_eq; by apply calm_same; destruct st.
Qed.

Lemma handshake_calm a fd ev info st : conns_ st !! fd = Some info → calm st (handshake_step a fd ev info st).
Proof.
  intros E. unfold handshake_step. assert (calm st (forget_fd fd (erase_entry fd st))) as Hf.
  { etrans; [apply erase_entry_calm|apply forget_calm]. }
  destruct (ev_hup ev); [done|]. destruct (ca_handshake a); [|by apply calm_same; destruct st..|done].
  unfold set_ready. split; [|by destruct st]. destruct st as [? ? ? conns]. cbn in *. rewrite dom_insert_lookup_L; [done|by eexists].
Qed.

Lemma handle_client_calm a fd ev st st' : handle_client w a fd ev st = Some st' → calm st st'.
Proof.
  unfold handle_client. destruct (conns_ st !! fd) as [info|] eqn:E; [|by intros [= <-]].
  destruct (ci_state info); [intros [= <-]; by apply handshake_calm|].
  set (st1 := st{{last_active_ ::= <[fd := ca_time a]>}}). assert (calm st st1) as Hc by by apply calm_same; destruct st.
  clearbody st1. intros Hr. etrans; [exact Hc|]. clear E Hc. revert Hr.
  destruct (ev_hup ev); [intros [= <-]; apply close_client_calm|]. set (served := if ev_in ev then _ else _).
  assert (∀ st2, served = Some st2 → calm st1 st2) as Hs.
  { intros st2. unfold served. destruct (ev_in ev), (ev_out ev); try (destruct (has_pending_ssl_write _));
      try (intros ?; eapply (run_calm a _ fd); by eauto). all: intros [= <-]; apply close_client_calm. }
  destruct served as [st2|]; [|done]. intros [= <-]. etrans; [by apply Hs|]. case_bool_decide; [done|by apply calm_same; destruct st2].
Qed.

Lemma lift_calm st st' r : lift_result st r = Some (Ok st') → calm st st'.
Proof. destruct r as [ [wk|wk]|]; cbn; try done. intros [= <-]. by apply calm_same; destruct st. Qed.

Lemma foldl_calm (f : Tcp → nat → Tcp) fds st : (∀ st fd, calm st (f st fd)) → calm st (foldl f st fds).
Proof. intros Hf. revert st. induction fds as [|fd fds IH]; intros st; cbn; [done|]. by etrans; [apply Hf|apply IH]. Qed.

Lemma check_idle_calm now st fd : calm st (check_idle now st fd).
Proof.
  unfold check_idle. destruct (last_active_ st !! fd); [|done]. destruct (conns_ st !! fd) as [info|]; [|by apply calm_same; destruct st].
  destruct (_ <? _); [|done]. etrans; [apply (close_entry_calm fd (ci_sock info))|]. by apply calm_same; destruct (erase_entry _ _).
Qed.

(** The limit is the one in force before, or the one of a file that was accepted. *)
Definition limit_ok (st st' : Tcp) : Prop :=
  limit_of st' = limit_of st ∨ ∃ c, accepted_config c ∧ limit_of st' = (λ _, max_connections c) <$> limit_of st.

Lemma maybe_reload_limit m st : conns_ (maybe_reload m st) = conns_ st ∧ limit_ok st (maybe_reload m st).
Proof.
  unfold maybe_reload. destruct (_ =? _); [split; [done|by left]|].
  destruct (read_reload _ _) as [c [|e errors] ] eqn:E; [|split; [done|by left]].
  assert (accepted_config c) as Ha.
  { exists (mt_env m), (mt_path m). split; [|done]. unfold read_reload in E. by destruct (file_ok _ _). }
  clear E. split; [by destruct (mt_tls m (tls c)), st|]. right. exists c. split; [done|].
  destruct (mt_tls m (tls c)), st as [? ? ? ? B]; unfold limit_of; cbn; by destruct B as [ [] |].
Qed.

Lemma check_timeout_limit m st : dom (conns_ (check_timeout m st)) ⊆ dom (conns_ st) ∧ limit_ok st (check_timeout m st).
Proof.
  destruct (maybe_reload_limit m st) as [Ec Hl]. unfold check_timeout. set (st1 := check_all_idle _ _).
  assert (calm (maybe_reload m st) st1) as [Hd1 Hl1] by apply foldl_calm, check_idle_calm. rewrite Ec in Hd1. unfold limit_ok in *.
  rewrite <-Hl1 in Hl. clearbody st1. clear Ec Hl1. revert Hd1 Hl. unfold limit_of. destruct st1 as [wk ? ? conns B]. cbn.
  destruct B; cbn; case_match; done.
Qed.

(** Only an accept adds an entry: one, and only with a slot below the limit. *)
Lemma accept_limit a st st' b :
  connection_budget_ st = Some b → accept_ok a st → handle_accept [a] st = Ok st' →
  limit_of st' = limit_of st ∧
  (dom (conns_ st') ⊆ dom (conns_ st) ∨ in_use_ b < max_ b ∧ (base.size (conns_ st') <= S (base.size (conns_ st)))%nat).
Proof.
  intros Eb Hok. destruct a as [fd ip now options ssl|]; [|done]. cbn [handle_accept]. unfold acquire_slot. rewrite Eb.
  unfold try_acquire. destruct (Z.ltb_spec (in_use_ b) (max_ b)) as [Hlt|_]; [|intros [= <-]; split; [by destruct st|left; by destruct st]].
  destruct options; [|done]. cbn [negb]. set (st1 := (st{{connection_budget_ := _}}){{client_ips_ ::= _; last_active_ ::= _}}).
  assert (conns_ st1 = conns_ st ∧ limit_of st1 = limit_of st) as [Ec1 Hl1].
  { unfold st1, limit_of. destruct st as [? ? ? ? B]. cbn in *. subst B. by destruct b. }
  clearbody st1. destruct ssl; cbn [negb]; intros [= <-].
  - destruct (erase_entry_calm fd st1) as [Hd Hl]. unfold insert_entry. set (st2 := erase_entry fd st1) in *. clearbody st2.
    rewrite Hl1, Ec1 in *. split; [rewrite <-Hl; by destruct st2|]. right. split; [done|].
    assert (base.size (conns_ st2) <= base.size (conns_ st))%nat by (rewrite <-!size_dom; by apply subseteq_size).
    etrans; [|apply le_n_S; eassumption]. destruct st2 as [? ? ? conns]. cbn. rewrite map_size_insert. case_match; cbn; lia.
  - rewrite <-Hl1, <-Ec1. unfold release_slot, limit_of. destruct st1 as [? ? ? conns B]. cbn. split; [by destruct B as [ [] |]|by left].
Qed.

(** * Steps *)

Lemma own_step_limit st st' b :
  connection_budget_ st = Some b → own_step w st st' →
  limit_ok st st' ∧
  (dom (conns_ st') ⊆ dom (conns_ st) ∨ in_use_ b < max_ b ∧ (base.size (conns_ st') <= S (base.size (conns_ st)))%nat).
Proof.
  intros Eb Hs. assert (∀ st', calm st st' → limit_ok st st' ∧ (dom (conns_ st') ⊆ dom (conns_ st) ∨
    in_use_ b < max_ b ∧ (base.size (conns_ st') <= S (base.size (conns_ st)))%nat)) as Hcalm.
  { intros ? [Hd Hl]. split; by left. }
  destruct Hs as [a ? ? Hf E|a fd ev ? ? Ha E|answers fd mask ? st1 E|t ? st1 E|m ?|now ?|fd ?|?].
  - destruct (accept_limit a _ _ b Eb Hf E) as [Hl Hc]. split; [by left|done].
  - by eapply Hcalm, handle_client_calm.
  - by eapply Hcalm, lift_calm.
  - by eapply Hcalm, lift_calm.
  - destruct (check_timeout_limit m st) as [Hd Hl]. split; [done|by left].
  - by apply Hcalm, calm_same; destruct st.
  - apply Hcalm. unfold drain_idle. destruct (conns_ st !! fd) as [info|]; [|done]. destruct (is_idle _ _); [apply close_client_calm|done].
  - apply Hcalm. unfold close_rest. set (st1 := foldl _ _ _). trans st1; [|by apply calm_same; destruct st1].
    apply foldl_calm. clear st1. intros st1 fd. unfold force_close. destruct (conns_ st1 !! fd); [apply close_entry_calm|done].
Qed.

(** * The process *)

(** What is shared is kept once; a worker finds it in its fields when it takes a
    step. [ps_peak] records the highest limit that was in force. *)
Record Process := mkProcess {
  ps_workers : list Tcp;
  ps_budget : budget;
  ps_common : Common;
  ps_peak : Z;
}.

Definition attach (pr : Process) (st : Tcp) : Tcp := (adopt (ps_common pr) st){{connection_budget_ := Some (ps_budget pr)}}.

(** Worker [i] is now in state [st] and has left the budget as [b]. *)
Definition put_back (i : nat) (st : Tcp) (b : budget) (pr : Process) : Process :=
  mkProcess (<[i := st]> (ps_workers pr)) b (common_of st) (Z.max (ps_peak pr) (max_ b)).

Inductive process_step : Process → Process → Prop :=
| P_worker i st st' b pr :
    ps_workers pr !! i = Some st → own_step w (attach pr st) st' → connection_budget_ st' = Some b →
    process_step pr (put_back i st' b pr).

Definition entries (st : Tcp) : nat := base.size (conns_ st).

(** The connections open in the process. *)
Definition connections (pr : Process) : nat := sum_list_with entries (ps_workers pr).

(** The slots the other workers hold. *)
Definition held_by_others (pr : Process) (st : Tcp) : Z := in_use_ (ps_budget pr) - Z.of_nat (entries st).

(** The limits a process with this start-up configuration can have. *)
Definition legal_limit (config : Config) (n : Z) : Prop :=
  n = max_connections config ∨ ∃ c, accepted_config c ∧ n = max_connections c.

Record process_ok (config : Config) (pr : Process) : Prop := {
  po_slots : in_use_ (ps_budget pr) = Z.of_nat (connections pr);
  po_workers : ∀ i st, ps_workers pr !! i = Some st → tcp_inv (held_by_others pr st) (attach pr st);
  po_limit : legal_limit config (max_ (ps_budget pr)) ∧ max_ (ps_budget pr) <= ps_peak pr;
  po_peak : legal_limit config (ps_peak pr) ∧ in_use_ (ps_budget pr) <= ps_peak pr;
}.

(** ** Workers among the others *)

Lemma attach_put_back i st b pr : connection_budget_ st = Some b → attach (put_back i st b pr) st = st.
Proof. intros E. destruct st as [ [ [] ] ? ? ? B]. cbn in *. by rewrite E. Qed.

Lemma attach_others i st b pr st' : attach (put_back i st b pr) st' = others_act b (common_of st) (attach pr st').
Proof. by destruct st' as [ [ [] ] ]. Qed.

Lemma attach_entries pr st : entries (attach pr st) = entries st.
Proof. by destruct st. Qed.

(** The worker that takes the step counts one entry per slot it adds. *)
Lemma step_slots config pr i st st' b :
  process_ok config pr → ps_workers pr !! i = Some st → own_step w (attach pr st) st' → connection_budget_ st' = Some b →
  tcp_inv (held_by_others pr st) st' ∧ in_use_ b = Z.of_nat (connections (put_back i st' b pr)) ∧ in_use_ b <= SIZE_MAX ∧ max_ b <= SIZE_MAX.
Proof.
  intros Hok Ei Hs Eb. pose proof (own_step_inv w _ _ _ Hs (po_workers _ _ Hok i st Ei)) as Hi. split; [done|].
  destruct Hi as (_ & Hb & _). rewrite Eb in Hb. destruct Hb as (E1 & E2 & E3). pose proof (po_slots _ _ Hok) as E.
  pose proof (sum_list_with_insert entries (ps_workers pr) i st st' Ei) as Hsum. unfold connections, held_by_others in *. cbn [ps_workers put_back].
  split; [|done]. change (base.size (conns_ st')) with (entries st') in E1. lia.
Qed.

(** Every worker makes a step: its own, or one in which the others act. *)
Lemma process_step_project config pr pr' i st :
  process_ok config pr → process_step pr pr' → ps_workers pr !! i = Some st →
  ∃ st', ps_workers pr' !! i = Some st' ∧ tcp_step w (held_by_others pr st, attach pr st) (held_by_others pr' st', attach pr' st').
Proof.
  intros Hok Hs Ei. destruct Hs as [j stj st' b pr Ej Hs Eb]. destruct (step_slots config pr j stj st' b Hok Ej Hs Eb) as ((Ho & Hb & _) & E1 & E2 & E3).
  destruct (decide (i = j)) as [->|Hne].
  - assert (stj = st) as -> by congruence. exists st'. split; [apply list_lookup_insert_eq; by eapply lookup_lt_Some|]. rewrite attach_put_back by done.
    rewrite Eb in Hb. destruct Hb as (F1 & _). replace (held_by_others (put_back j st' b pr) st') with (held_by_others pr st); [by apply T_own|].
    unfold held_by_others in *. cbn [ps_budget put_back]. unfold entries at 2. lia.
  - assert (ps_workers (put_back j st' b pr) !! i = Some st) as Ei' by (cbn; by rewrite list_lookup_insert_ne).
    exists st. split; [done|]. rewrite attach_others.
    replace (held_by_others (put_back j st' b pr) st) with (held_by_others pr st + (in_use_ b - in_use_ (ps_budget pr)));
      [|unfold held_by_others; cbn [ps_budget put_back]; lia].
    apply T_others; [|destruct st; intros ? [= <-]; lia|done..].
    pose proof (sum_list_with_lookup entries _ i st Ei'). unfold held_by_others, connections in *. lia.
Qed.

Lemma legal_limit_ok config st st' b b' :
  connection_budget_ st = Some b → connection_budget_ st' = Some b' → limit_ok st st' → legal_limit config (max_ b) → legal_limit config (max_ b').
Proof.
  unfold limit_ok, limit_of. intros -> ->. cbn. intros [ [= ->] |(c & Hc & [= ->])]; [done|]. intros _. right. by exists c.
Qed.

Lemma process_step_ok config pr pr' : process_step pr pr' → process_ok config pr → process_ok config pr'.
Proof.
  intros Hs Hok. pose proof (λ i st, process_step_project config pr pr' i st Hok Hs) as Hp.
  destruct Hs as [j stj st' b pr Ej Hs Eb].
  destruct (step_slots config pr j stj st' b Hok Ej Hs Eb) as (_ & E1 & E2 & E3).
  assert (connection_budget_ (attach pr stj) = Some (ps_budget pr)) as Ea by by destruct stj.
  destruct (own_step_limit _ st' _ Ea Hs) as [Hl Hc]. destruct (po_limit _ _ Hok) as [L1 L2], (po_peak _ _ Hok) as [P1 P2].
  pose proof (legal_limit_ok config _ _ _ _ Ea Eb Hl L1) as L1'. split.
  - done.
  - intros i st Ei. assert (is_Some (ps_workers pr !! i)) as [st0 Ei0].
    { apply lookup_lt_is_Some. cbn in Ei. apply lookup_lt_Some in Ei. by rewrite length_insert in Ei. }
    destruct (Hp i st0 Ei0) as (st1 & E & Ht). assert (st1 = st) as -> by congruence.
    by apply (tcp_step_inv w _ _ Ht), (po_workers _ _ Hok i).
  - split; [done|]. cbn. lia.
  - split; [cbn; destruct (Z.max_spec (ps_peak pr) (max_ b)) as [ [_ ->]|[_ ->] ]; done|].
    cbn [ps_budget ps_peak put_back]. pose proof (po_slots _ _ Hok) as E0.
    pose proof (sum_list_with_insert entries (ps_workers pr) j stj st' Ej) as Hsum. unfold connections in *. cbn [ps_workers put_back] in *.
    destruct Hc as [Hd|[Hlt Hd] ].
    + assert (entries st' <= entries (attach pr stj))%nat as Hle by (unfold entries; rewrite <-!size_dom; by apply subseteq_size).
      rewrite attach_entries in Hle. lia.
    + fold (entries st') (entries (attach pr stj)) in Hd. rewrite attach_entries in Hd. lia.
Qed.

Lemma process_run config pr pr' :
  rtc process_step pr pr' → process_ok config pr →
  process_ok config pr' ∧ length (ps_workers pr') = length (ps_workers pr) ∧
  ∀ i st, ps_workers pr !! i = Some st → ∃ st', ps_workers pr' !! i = Some st' ∧
    tcp_steps w (held_by_others pr st, attach pr st) (held_by_others pr' st', attach pr' st').
Proof.
  induction 1 as [pr|pr pr1 pr' Hs _ IH]; intros Hok.
  { split_and!; [done..|]. intros i st E. exists st. split; [done|apply rtc_refl]. }
  destruct IH as (Hok' & Hl & Hp); [by eapply process_step_ok|]. split_and!; [done| |].
  - rewrite Hl. destruct Hs. cbn. apply length_insert.
  - intros i st E. destruct (process_step_project config pr pr1 i st Hok Hs E) as (st1 & E1 & T1).
    destruct (Hp i st1 E1) as (st' & E' & T'). exists st'. split; [done|]. by eapply rtc_l.
Qed.

(** Several steps of one worker with none of the others in between. *)
Lemma process_own_steps i st0 st' :
  own_steps w st0 st' → ∀ pr st, ps_workers pr !! i = Some st → attach pr st = st0 →
  ∃ pr' st1, rtc process_step pr pr' ∧ ps_workers pr' !! i = Some st1 ∧ attach pr' st1 = st' ∧
    ∀ j, j ≠ i → ps_workers pr' !! j = ps_workers pr !! j.
Proof.
  induction 1 as [st0|st0 st1 st' Hs _ IH]; intros pr st Ei Ea; [exists pr, st; split_and!; [apply rtc_refl|done..]|].
  assert (connection_budget_ st0 = Some (ps_budget pr)) as Eb by (subst st0; by destruct st).
  destruct (own_step_limit _ _ _ Eb Hs) as [Hl _]. assert (∃ b, connection_budget_ st1 = Some b) as [b E1].
  { unfold limit_ok, limit_of in Hl. rewrite Eb in Hl. destruct (connection_budget_ st1); [by eexists|]. destruct Hl as [Hl|(c & _ & Hl)]; done. }
  destruct (IH (put_back i st1 b pr) st1) as (pr' & st2 & Hr & E2 & Ea2 & Ho).
  { apply list_lookup_insert_eq. by eapply lookup_lt_Some. }
  { by apply attach_put_back. }
  exists pr', st2. split_and!; [|done..|].
  - eapply rtc_l; [|exact Hr]. eapply P_worker; [exact Ei|by rewrite Ea|done].
  - intros j Hj. rewrite Ho by done. cbn. by rewrite list_lookup_insert_ne.
Qed.

(** A turn of a worker's loop is a run of the process. *)
Lemma process_turn pr i st listen r st' :
  ps_workers pr !! i = Some st → turn_ok w listen r (attach pr st) → run_turn w listen r (attach pr st) = Some (Ok st') →
  ∃ pr' st1, rtc process_step pr pr' ∧ ps_workers pr' !! i = Some st1 ∧ attach pr' st1 = st' ∧
    ∀ j, j ≠ i → ps_workers pr' !! j = ps_workers pr !! j.
Proof. intros Ei Hok Hr. eapply process_own_steps; [by eapply run_turn_steps|done|done]. Qed.

(** * From the start *)

Definition process_start (config : Config) (ws : list Tcp) : Process :=
  mkProcess ws (budget_init (max_connections config))
    (mkCommon (manager_new (rate_limit_config config)) (UpstreamManager.manager_init (upstream_config config)) pool_init) (max_connections config).

Lemma attach_ready reason config a ws st : worker_ready reason config a st → attach (process_start config ws) st = st.
Proof.
  intros (_ & Eb & El & Eu & Ep & _). destruct st as [ [ [] ] ? ? ? B]. unfold attach, adopt, process_start. cbn in *. by subst.
Qed.

Lemma process_start_ok reason config (answers : nat → WorkerStart) ws :
  in_ranges config → (∀ i st, ws !! i = Some st → worker_ready reason config (answers i) st) → process_ok config (process_start config ws).
Proof.
  intros Hr Hw. assert (between 1 1000000000 (max_connections config)) as Hm by apply Hr. unfold between in Hm.
  assert (connections (process_start config ws) = 0%nat) as Hz.
  { unfold connections. cbn. clear Hr Hm. revert answers Hw. induction ws as [|st ws IH]; intros answers Hw; [done|]. cbn.
    rewrite (IH (λ i, answers (S i))) by (intros i; apply (Hw (S i))). destruct (Hw 0%nat st eq_refl) as ([Ec _ _ _ _ _ _] & _).
    unfold entries. rewrite Ec. by rewrite map_size_empty. }
  split.
  - by rewrite Hz.
  - intros i st E. pose proof (Hw i st E) as Hready. rewrite (attach_ready _ _ _ _ _ Hready). destruct Hready as [Hs _].
    unfold held_by_others, entries. rewrite (ts_conns _ _ _ Hs), map_size_empty. by eapply started_inv.
  - split; [by left|]. cbn. lia.
  - split; [by left|]. cbn. lia.
Qed.

Lemma legal_limit_range config n : in_ranges config → legal_limit config n → between 1 1000000000 n.
Proof.
  intros Hr [->|(c & Hc & ->)]; [apply Hr|]. apply accepted_config_ok in Hc as [Hc _]. apply Hc.
Qed.
End process.

(** C2: From the state [main] leaves the workers in, however their steps interleave:
    the slots in use are the connections open in the whole process, and never more
    than the highest limit that was in force, which is the limit of the start-up
    configuration or of a file that was accepted; every worker's configuration
    is one of those; and the history of every worker is a run of a worker among
    others, the others holding the remaining slots, so that what is proved of such
    runs holds for it. *)
Theorem process_bounded `{HashOrder, Zlib, FileSystem} w reason strerror fs a argv ws pr :
  0 <= ma_hardware a → main reason strerror fs a argv = Serving ws →
  rtc (process_step w) (process_start (startup_config a argv).1 ws) pr →
  let config := (startup_config a argv).1 in
  in_use_ (ps_budget pr) = Z.of_nat (connections pr) ∧ Z.of_nat (connections pr) <= ps_peak pr ∧
  legal_limit config (ps_peak pr) ∧ 1 <= ps_peak pr <= 1000000000 ∧
  ∀ i st, ws !! i = Some st → ∃ st', ps_workers pr !! i = Some st' ∧ settings_ok config st' ∧
    tcp_started config 0 st ∧ tcp_steps w (0, st) (held_by_others pr st', attach pr st').
Proof.
  intros Hh Hm Hs config. destruct (main_serves reason strerror fs a argv ws Hh Hm) as (_ & Hr & _ & _ & Hw). fold config in Hr, Hw, Hs.
  pose proof (process_start_ok reason config (ma_workers a) ws Hr Hw) as Hok0.
  destruct (process_run w config _ _ Hs Hok0) as (Hok & _ & Hp). destruct (po_peak _ _ Hok) as [P1 P2].
  pose proof (po_slots _ _ Hok) as E. split_and!; [done|lia|done|by apply (legal_limit_range config)|by apply (legal_limit_range config)|].
  intros i st Ei. destruct (Hp i st Ei) as (st' & E' & Ht). exists st'. split; [done|].
  pose proof (Hw i st Ei) as Hready. rewrite (attach_ready _ _ _ _ _ Hready) in Ht. destruct Hready as [Hst _].
  assert (held_by_others (process_start config ws) st = 0) as Eh.
  { unfold held_by_others, entries. by rewrite (ts_conns _ _ _ Hst), map_size_empty. }
  rewrite Eh in Ht. split_and!; [|done|done]. pose proof (tcp_steps_settings w config _ _ Ht) as Hset. cbn [snd] in Hset.
  destruct st'. apply Hset. split; [left; apply Hst|]. cbn [snd]. by rewrite (ts_timeout _ _ _ Hst), (ts_config _ _ _ Hst).
Qed.

(** * A concrete run *)

#[local] Existing Instance some_order.
#[local] Existing Instance stored_zlib.
#[local] Existing Instance posix.

(** Worker [i] accepts a connection, its number unused by the worker. *)
Definition accept_on (fd i : nat) (pr : Process) : option Process :=
  st ← ps_workers pr !! i;
  guard (conns_ st !! fd = None);;
  match handle_accept [Accepted fd "10.1.1.1" 0 true true] (attach pr st) with
  | Ok st' => (λ b, put_back i st' b pr) <$> connection_budget_ st'
  | Escaped _ => None
  end.

Lemma accept_on_step fd i pr pr' : accept_on fd i pr = Some pr' → process_step site_world pr pr'.
Proof.
  unfold accept_on. destruct (ps_workers pr !! i) as [st|] eqn:Ei; [|done]. cbn [mbind option_bind]. case_guard as Hf; [|done]. cbn [mbind option_bind].
  destruct (handle_accept _ (attach pr st)) as [st'|] eqn:E; [|done]. destruct (connection_budget_ st') as [b|] eqn:Eb; [|done]. intros [= <-].
  eapply P_worker; [exact Ei| |exact Eb]. eapply O_accept; [|exact E]. intros info E'. destruct st. cbn in *. congruence.
Qed.

Definition two_cores : MainAnswers := mkMainAnswers no_files (λ _, true) (mkAdminStart 4 true true) 2 (λ _, good_start).

(** Two workers, one connection each. *)
Definition two_clients (pr : Process) : option Process := pr ← accept_on 7 0 pr; accept_on 8 1 pr.

Definition two_clients_fine (p : process) : bool :=
  match p with
  | Serving ws =>
    match two_clients (process_start (startup_config two_cores []).1 ws) with
    | Some pr => bool_decide (connections pr = 2%nat)
    | None => false
    end
  | _ => false
  end.

Lemma two_clients_steps pr pr' : two_clients pr = Some pr' → rtc (process_step site_world) pr pr'.
Proof.
  intros (pr1 & E1 & E2)%bind_Some. eapply rtc_l; [exact (accept_on_step _ _ _ _ E1)|]. apply rtc_once. exact (accept_on_step _ _ _ _ E2).
Qed.

Lemma two_clients_run p :
  two_clients_fine p = true →
  ∃ ws pr, p = Serving ws ∧ rtc (process_step site_world) (process_start (startup_config two_cores []).1 ws) pr ∧ connections pr = 2%nat.
Proof.
  unfold two_clients_fine. destruct p as [ |ws| |]; try done. destruct (two_clients _) as [pr|] eqn:E; [|done].
  intros Hc%bool_decide_eq_true_1. exists ws, pr. split_and!; [done|by apply two_clients_steps|done].
Qed.

Lemma process_bounded_witness :
  ∃ ws pr, main (λ _, []) (λ _, []) empty_disk two_cores [] = Serving ws ∧ connections pr = 2%nat ∧ in_use_ (ps_budget pr) = 2 ∧ 2 <= ps_peak pr.
Proof.
  destruct (two_clients_run (@main posix (λ _, []) (λ _, []) empty_disk _ two_cores [])) as (ws & pr & Hm & Hr & Hc); [by vm_compute|].
  destruct (@process_bounded some_order stored_zlib posix site_world (λ _, []) (λ _, []) empty_disk two_cores [] ws pr ltac:(done) Hm Hr) as (Hb & Hp & _).
  rewrite Hc in Hb, Hp. by exists ws, pr.
Defined.
