(* ===== verification/ServeRequest.v ===== *)
(** A request from the bytes on the socket to the bytes of its response: the
    reading loops, the parser, admission, the handlers and the writing loop put
    together. *)

From S2P Require Import Prelude Search Config RateLimiter RouteUtils ApiKeyManager FileCache FdCache ConnectionPool HttpParser HttpResponse ConfigFile UpstreamManager Routes HttpClient UpstreamResponse UpstreamExchange Tracing HttpRoundtrip Responder Admission StaticFiles Proxy ProxyInvariant ProxyProperties ReadPath ReadProperties ReadScenarios LoggingUtils WritePath WriteProperties.

#[local] Open Scope Z_scope.
#[local] Open Scope gateway_scope.

Ltac conn_fields := cbn [c_ssl read_buf parser request keep_alive send_queue file_send ssl_file_buffer pending_ssl_write resp_status
  resp_size last_request armed apply_update constant] in *.

(** ** How much a parser takes *)

Lemma parse_loop_takes data p r n :
  let x := parse_loop data p r n in
  (res_consumed x <= n + length data)%nat ∧ (receptive p → finished x = false → res_consumed x = (n + length data)%nat).
Proof.
  revert p r n. induction data as [|b data IH]; intros p r n; cbn [parse_loop length]; [cbn; split; lia|].
  destruct (parse_byte b p r) as [ [p' r'] [|[] ] ] eqn:E.
  - destruct (state_ p' == DONE) eqn:Ed; cbv zeta.
    { split; [cbn; lia|]. intros [Hst _] _. apply parse_byte_Break in E as [Hd _]; [|done]. by apply bool_decide_eq_true_1 in Ed. }
    destruct (IH p' r' (S n)) as [H1 H2]. split; [lia|]. intros [Hst Herr] Hf. rewrite H2; [lia| |done].
    apply parse_byte_Break in E as [Hd He]; [|done]. split; [done|congruence].
  - cbn. split; [lia|]. unfold finished. cbn. done.
  - cbn. split; [lia|]. intros _ Hf. apply parse_byte_Return_false in E. unfold finished in Hf. cbn in Hf.
    by rewrite bool_decide_eq_false_2 in Hf.
Qed.

Section serve.
  Context `{HashOrder, Zlib, FileSystem} (w : World) (config : Config).

(** * Reading *)

(** The connection while a request arrives. *)
Definition reading (c : Conn) (p : HttpParser) (r : HttpRequest) : Conn := c{{read_buf := []; parser := p; request := r}}.

Lemma parse_turn_reading q client ip c p r data (wk : Worker) :
  let x := parse data p r in
  let c' := (reading c (res_parser x) (res_request x)){{read_buf := drop (res_consumed x) data}} in
  parse_turn w config q client ip (set_conn client ((reading c p r){{read_buf := data}}) wk) =
  if res_done x then (true, handle_request w config q client ip c' (set_conn client c' wk))
  else if parse_error_ (res_parser x) != NONE then
    let c'' := c'{{last_request := Some (res_request x)}} in
    (false, Broke (set_conn client (((if parse_error_ (res_parser x) == BODY_TOO_LARGE then send_error_response 413 "Payload Too Large" [] c''
      else send_error_response 400 "Bad Request" [] c'')){{parser ::= reset; request := request_clear}}) wk))
  else (false, Broke (set_conn client c' wk)).
Proof.
  cbv zeta. unfold parse_turn. rewrite conn_of_set_conn. destruct c. unfold reading. conn_fields. by rewrite !set_conn_twice.
Qed.

(** What is left to do after the last turn: the loop finds no further input. *)
Definition settle (t : turn) : turn := match t with NextRequest wk => Broke wk | t => t end.

Lemma next_request_conn q client ip c (wk wk' : Worker) :
  handle_request w config q client ip c wk = NextRequest wk' →
  ∃ c', wk_conns wk' !! client = Some c' ∧ parse_error_ (parser c') = NONE.
Proof.
  assert (∀ c0 : Conn, parse_error_ (parser (c0{{parser ::= reset}})) = NONE) as Hreset by by intros [].
  unfold handle_request. intros E. repeat (case_match; try done); injection E as <-; rewrite set_conn_alive; (eexists; split; [reflexivity|apply Hreset]).
Qed.

Lemma parse_turn_nothing q client ip (wk : Worker) c :
  wk_conns wk !! client = Some c → read_buf c = [] → parse_error_ (parser c) = NONE →
  parse_turn w config q client ip wk = (false, Broke wk).
Proof.
  intros E Hb Hp. assert (conn_of client wk = c) as Ec by (unfold conn_of; by rewrite E). unfold parse_turn. rewrite Ec, Hb. cbn [parse parse_loop res_consumed res_parser res_request res_done].
  rewrite Hp. rewrite bool_decide_eq_true_2 by done. cbn [negb]. do 2 f_equal. unfold set_conn. destruct wk as [? ? conns ? ? ? ?]. cbn in *. f_equal.
  apply insert_id. rewrite E. f_equal. destruct c. cbn in *. by rewrite Hb.
Qed.

Lemma inner_loop_request fuel env n client ip c p r data (wk : Worker) :
  let x := parse data p r in
  let c' := reading c (res_parser x) (res_request x) in
  res_done x = true → res_consumed x = length data →
  inner_loop w config (S (S fuel)) env n client ip (set_conn client ((reading c p r){{read_buf := data}}) wk) =
  Some (S n, settle (handle_request w config (env n) client ip c' (set_conn client c' wk))).
Proof.
  cbv zeta. intros Hd Hc. set (x := parse data p r) in *. set (c' := reading c (res_parser x) (res_request x)).
  pose proof (parse_turn_reading (env n) client ip c p r data wk) as Ht. cbv zeta in Ht. fold x in Ht. rewrite Hd, Hc, drop_all in Ht.
  replace ((reading c (res_parser x) (res_request x)){{read_buf := [] }}) with c' in Ht by (unfold c', reading; by destruct c).
  cbn [inner_loop]. rewrite Ht. pose proof (handle_request_only w config (env n) client ip c' (set_conn client c' wk) (conn_of_set_conn _ _ _)) as Ho.
  destruct (handle_request _ _ _ _ _ _ _) as [wk'|wk'|wk'|wk'|] eqn:E; try done. cbn [settle].
  destruct (next_request_conn _ _ _ _ _ _ E) as (c2 & E2 & Hp2). cbn [turn_holds] in Ho. destruct Ho as [ [Hb _] _ _].
  rewrite conn_of_set_conn in Hb. unfold conn_of in Hb. rewrite E2 in Hb. cbn in Hb.
  rewrite (parse_turn_nothing _ _ _ wk' c2); [done|done| |done]. rewrite Hb. unfold c', reading. by destruct c.
Qed.

(** How the call ends after the one request has been handled. *)
Definition served (client : nat) (t : turn) (r : option (read_end * Worker)) : Prop :=
  match t with
  | NextRequest wk | Broke wk => r = Some (Rearmed, rearm_reads client wk)
  | Dispatched wk => r = Some (Waiting, wk)
  | Thrown wk => r = Some (Closed, cleanup_conn client wk)
  | Starved => ∃ wk, r = Some (NoAnswer, wk)
  end.

Lemma outer_loop_nothing fuel env n client ip (wk : Worker) :
  read_buf (conn_of client wk) = [] → outer_loop w config (S fuel) env n [] client ip wk = Some (Rearmed, rearm_reads client wk).
Proof. intros Hb. cbn [outer_loop]. by rewrite Hb. Qed.

Lemma outer_loop_request env n client ip c chunks p r fuel (wk : Worker) :
  let x := parse (concat chunks) p r in
  let c' := reading c (res_parser x) (res_request x) in
  receptive p → Forall (λ d, d ≠ []) chunks → res_done x = true → res_consumed x = length (concat chunks) → (length chunks < fuel)%nat →
  served client (handle_request w config (env n) client ip c' (set_conn client c' wk))
    (outer_loop w config fuel env n (Data <$> chunks) client ip (set_conn client (reading c p r) wk)).
Proof.
  cbv zeta. revert p r fuel. induction chunks as [|d chunks IH]; intros p r fuel Hp Hne Hd Hc Hf; [done|].
  destruct fuel as [|fuel]; [cbn in Hf; lia|]. apply Forall_cons in Hne as [Hdne Hne]. cbn [fmap list_fmap outer_loop].
  rewrite conn_of_set_conn. replace (read_buf (reading c p r)) with (@nil ascii) by (unfold reading; by destruct c). cbn [is_empty negb].
  rewrite set_conn_twice. cbn [concat] in *. unfold parse in *. rewrite parse_loop_app in Hd, Hc |- * by done.
  destruct (parse_loop_takes d p r 0) as [Ht1 Ht2]. set (y := parse_loop d p r 0) in *. rewrite conn_of_set_conn.
  set (k := S (length _)). destruct (finished y) eqn:Ef.
  - assert (concat chunks = []) as Hnil by (apply length_zero_iff_nil; rewrite length_app in Hc; lia).
    assert (chunks = []) as -> by (destruct Hne as [|d' chunks' Hd' _]; [done|]; by destruct d').
    unfold k. rewrite (inner_loop_request _ env n client ip c p r d wk) by (unfold parse; fold y; rewrite ?Hc, ?app_nil_r; done).
    unfold parse. fold y. set (c' := reading c (res_parser y) (res_request y)).
    pose proof (handle_request_only w config (env n) client ip c' (set_conn client c' wk) (conn_of_set_conn _ _ _)) as Ho.
    assert (∀ wk', only client (set_conn client c' wk) wk' → read_buf (conn_of client wk') = []) as Hb.
    { intros wk' [ [Hb _] _ _]. rewrite Hb, conn_of_set_conn. unfold c', reading. by destruct c. }
    destruct fuel as [|fuel]; [cbn in Hf; lia|].
    destruct (handle_request _ _ _ _ _ _ _) as [wk'|wk'|wk'|wk'|] eqn:E; cbn [settle after_inner served fmap list_fmap turn_holds] in *;
      try (apply outer_loop_nothing, Hb, Ho); try done. by eexists.
  - pose proof (parse_turn_reading (env n) client ip c p r d wk) as Htr. cbv zeta in Htr. unfold parse in Htr. fold y in Htr.
    pose proof Ef as Ef'. unfold finished in Ef. apply orb_false_iff in Ef as [Ey En]. rewrite Ey, En in Htr.
    pose proof (Ht2 Hp eq_refl) as Hcy. cbn [Nat.add] in Hcy. rewrite Hcy, drop_all in Htr.
    unfold k. cbn [inner_loop]. rewrite Htr. cbn [after_inner].
    replace ((reading c (res_parser y) (res_request y)){{read_buf := [] }}) with (reading c (res_parser y) (res_request y)) by (unfold reading; by destruct c).
    pose proof (parse_loop_receptive d p r 0 Hp Ef') as Hp'. fold y in Hp'.
    rewrite parse_loop_consumed in Hd, Hc |- *. cbn [res_done res_consumed res_parser res_request] in *. cbn in Hd, Hc.
    apply (IH (res_parser y) (res_request y) fuel Hp' Hne); [done|rewrite length_app in Hc; unfold parse; lia|cbn in Hf; lia].
Qed.

(** ** A request on the wire *)

(** The bytes of a request: with a declared length or without a body, or chunked. *)
Inductive wire_of : bytes → HttpRequest → Prop :=
| wire_framed m path query v hs b :
    wf_head m path query v hs → body_framed (head_request m path query v hs) b → size b <= MAX_BODY_SIZE →
    wire_of (print_head m path query v hs ++ b) ((head_request m path query v hs){{body := b}})
| wire_chunked m path query v hs chunks t :
    wf_head m path query v hs → te (head_request m path query v hs) = Some t → lowercase t = "chunked" →
    Forall (λ d, d ≠ []) chunks → size (concat chunks) <= MAX_BODY_SIZE →
    wire_of (print_head m path query v hs ++ print_chunked chunks) ((head_request m path query v hs){{body := concat chunks}}).

Lemma wire_of_parsed wire req :
  wire_of wire req →
  let x := parse wire parser_init request_clear in res_request x = req ∧ res_consumed x = length wire ∧ res_done x = true.
Proof.
  intros [m path query v hs b Hwf Hf Hb|m path query v hs chunks t Hwf Ht Hl Hc Hb].
  - pose proof (parse_framed_request m path query v hs b [] Hwf Hf Hb) as Hp. cbv zeta in Hp. by rewrite app_nil_r in Hp.
  - pose proof (parse_chunked_request m path query v hs chunks [] t Hwf Ht Hl Hc Hb) as Hp. cbv zeta in Hp. rewrite app_nil_r in Hp.
    by destruct Hp as (? & ? & ? & _).
Qed.

(** A connection whose first request is about to come. *)
Definition fresh_conn (c : Conn) : Prop := read_buf c = [] ∧ parser c = parser_init ∧ request c = request_clear.

(** [handle_read] up to its loop. *)
Definition stamped (now : Z) (client : nat) (ip : bytes) (wk : Worker) : Worker := wk{{wk_ips ::= <[client := ip]>; wk_started ::= <[client := now]>}}.

Lemma read_fuel_chunks chunks (wk : Worker) client : (length chunks < read_fuel (Data <$> chunks) wk client)%nat.
Proof.
  unfold read_fuel. enough (length chunks <= sum_list_with (λ r, match r with Data d => S (length d) | _ => 1%nat end) (Data <$> chunks))%nat by lia.
  induction chunks as [|d chunks IH]; cbn in *; lia.
Qed.

Lemma request_handled wire req chunks client ip now env (wk : Worker) c :
  wire_of wire req → Forall (λ d, d ≠ []) chunks → concat chunks = wire → wk_conns wk !! client = Some c → fresh_conn c →
  let c' := reading c (res_parser (parse wire parser_init request_clear)) req in
  served client (handle_request w config (env 0%nat) client ip c' (set_conn client c' (stamped now client ip wk)))
    (handle_read w config now env (Data <$> chunks) client ip wk).
Proof.
  intros Hw Hne <- E (Eb & Ep & Er) c'. destruct (wire_of_parsed _ _ Hw) as (E1 & E2 & E3). unfold c'. rewrite <-E1. unfold handle_read.
  fold (stamped now client ip wk). set (wk1 := stamped now client ip wk).
  assert (wk1 = set_conn client (reading c parser_init request_clear) wk1) as Hwk.
  { unfold wk1, stamped, set_conn, reading. destruct wk as [? ? conns ? ? ? ?], c. cbn in *. subst. by rewrite (insert_id conns). }
  rewrite Hwk at 3. apply outer_loop_request; [done|done|done|done|apply read_fuel_chunks].
Qed.

(** * Writing *)

(** The kernel takes every piece it is offered. *)
Lemma send_ssl_all q n k :
  Forall (λ d : bytes, d ≠ [] ∧ (length d <= n)%nat) q → (length q <= k)%nat →
  ∃ sent, send_ssl (replicate k (Wrote n)) q = (AllSent, [], concat q, replicate (k - length q) (Wrote n), sent).
Proof.
  intros Hq. revert k. induction Hq as [|d q [Hd Hn] _ IH]; intros k Hk; [exists false; cbn; by rewrite Nat.sub_0_r; destruct k|].
  destruct k as [|k]; [cbn in Hk; lia|]. cbn [replicate send_ssl]. rewrite Nat.min_r by done.
  destruct (IH k) as [sent E]; [cbn in Hk; lia|]. destruct (length d) as [|l] eqn:El; [by destruct d|].
  rewrite bool_decide_eq_true_2 by done. rewrite E. by exists true.
Qed.

Lemma consume_queue_all q n : (length (concat q) <= n)%nat → Forall (λ d : bytes, d ≠ []) q → consume_queue n q = [].
Proof.
  intros Hn Hq. revert n Hn. induction Hq as [|d q Hd _ IH]; intros n Hn; [done|]. cbn [consume_queue concat] in *.
  rewrite length_app in Hn. assert (length d ≠ 0)%nat by (by destruct d).
  rewrite bool_decide_eq_false_2, bool_decide_eq_true_2 by lia. apply IH. lia.
Qed.

Lemma send_plain_all q n k :
  Forall (λ d : bytes, d ≠ []) q → (length (concat q) <= n)%nat → (length q <= k)%nat → (length q <= kMaxIov)%nat →
  ∃ rest, send_plain (replicate k (Wrote n)) q = (AllSent, [], concat q, rest).
Proof.
  intros Hq Hn Hk Hm. assert (gathered q = concat q) as Eg by (unfold gathered; by rewrite take_ge).
  destruct k as [|k]; [destruct q; [by eexists|cbn in Hk; lia]|].
  destruct Hq as [|d q Hd Hq]; [by eexists|]. cbn [replicate send_plain]. rewrite Eg, Nat.min_r by done.
  destruct (length (concat (d :: q))) as [|l] eqn:El; [cbn in El; rewrite length_app in El; by destruct d|].
  rewrite consume_queue_all by (try (by constructor); lia). rewrite <-El, firstn_all. exists (replicate k (Wrote n)).
  by destruct k; cbn [replicate send_plain]; rewrite app_nil_r.
Qed.

(** The whole queue is sent, with TLS or without. *)
Lemma send_queued_all n k c :
  Forall (λ d : bytes, d ≠ []) (send_queue c) → (length (concat (send_queue c)) <= n)%nat →
  (length (send_queue c) <= k)%nat → (length (send_queue c) <= kMaxIov)%nat →
  ∃ c1 rest, send_queued (replicate k (Wrote n)) c = (AllSent, c1, [Raw (concat (send_queue c))], rest) ∧
    keep_alive c1 = keep_alive c ∧ read_buf c1 = read_buf c ∧ file_send c1 = file_send c ∧ send_queue c1 = [].
Proof.
  intros Hq Hn Hk Hm. unfold send_queued. assert (drop_empty (send_queue c) = send_queue c) as -> by (by destruct Hq as [|[|b d] q ? _]).
  destruct (c_ssl c).
  - destruct (send_ssl_all (send_queue c) n k) as [sent ->]; [|done|].
    + apply Forall_forall. intros d Hd. rewrite Forall_forall in Hq. split; [by apply Hq|].
      apply list_elem_of_split in Hd as (q1 & q2 & Eq). rewrite Eq, concat_app in Hn. cbn in Hn. rewrite !length_app in Hn. lia.
    + eexists _, _. split; [reflexivity|]. unfold clear_pending. by destruct sent, c.
  - destruct (send_plain_all _ n k Hq Hn Hk Hm) as [rest ->]. eexists _, _. split; [reflexivity|]. by destruct c.
Qed.

(** A response that is queued, with nothing behind it, goes out in one call. *)
Lemma handle_write_all pread answers n k client (wk : Worker) :
  let c := conn_of client wk in
  file_send c = None → read_buf c = [] → Forall (λ d : bytes, d ≠ []) (send_queue c) →
  (length (concat (send_queue c)) <= n)%nat → (length (send_queue c) <= k)%nat → (length (send_queue c) <= kMaxIov)%nat →
  ∃ wk' events,
    handle_write w config pread answers (replicate k (Wrote n)) client wk =
      Some (if keep_alive c then WArmed else WClosed, wk', [Raw (concat (send_queue c))], events) ∧
    (if keep_alive c then armed (conn_of client wk') = ArmIn ∧ send_queue (conn_of client wk') = [] else wk_conns wk' !! client = None).
Proof.
  cbv zeta. intros Hf Hb Hq Hn Hk Hm. unfold handle_write, write_fuel. cbn [write_loop]. unfold write_turn, send_phases.
  destruct (send_queued_all n k _ Hq Hn Hk Hm) as (c1 & rest & -> & Ek & Eb & Ef & Eq). rewrite Hb in Eb. rewrite Hf in Ef.
  set (c := conn_of client wk) in *. unfold send_file. rewrite Ef.
  cbn [app]. destruct (finish_response _ _ _ _ _) as [events c2] eqn:Er.
  assert (keep_alive c2 = keep_alive c ∧ read_buf c2 = [] ∧ send_queue c2 = []) as (Ek2 & Eb2 & Eq2) by (injection Er as _ <-; by destruct c1).
  unfold after_response. rewrite Ek2, Eb2. destruct (keep_alive c); cbn [negb is_empty].
  - eexists _, _. split; [reflexivity|]. rewrite conn_of_set_conn. by destruct c2.
  - eexists _, _. split; [reflexivity|]. apply cleanup_untouched.
Qed.

(** What is queued for a response: no empty piece. *)
Lemma queue_response_pieces ssl header text :
  header ≠ [] →
  let q := queue_response ssl (negb (is_empty text)) header text in
  Forall (λ d : bytes, d ≠ []) q ∧ (length q <= 2)%nat ∧ concat q = header ++ text.
Proof.
  intros Hh. cbv zeta. unfold queue_response. destruct text as [|b text]; cbn [is_empty negb andb].
  - split_and!; [by repeat constructor|cbn; lia|cbn; by rewrite !app_nil_r].
  - destruct (ssl && _).
    + split_and!; [|cbn; lia|cbn; by rewrite app_nil_r]. repeat constructor; by destruct header.
    + split_and!; [|cbn; lia|cbn; by rewrite app_nil_r]. by repeat constructor.
Qed.

(** * The liveness probe *)

Definition ok_text : bytes := "ok" ++ [LF].

(** The response the handler makes, before it is framed. *)
Definition is_ok (resp : HttpResponse) : Prop := r_status_code resp = 200 ∧ r_body resp = ok_text ∧ announced resp.

Lemma healthz_response src t req res c (sh : Shared) meth pattern :
  rs_route res = Some (local_route meth pattern Healthz) →
  ∃ resp, is_ok resp ∧
    send_response w src t req res c sh = Sent (finalize_response (w_hash w) (w_version w) src req resp false (c{{last_request := Some req}})) sh.
Proof.
  intros Er. unfold send_response, dispatch_route. rewrite Er. set (rr := local_route meth pattern Healthz).
  assert (rt_target_type (rr_route rr) = "local" ∧ rr_handler rr = Some Healthz) as [-> ->] by done. clearbody rr.
  rewrite !(bool_decide_eq_false_2 (lit "local" = _)) by done. rewrite bool_decide_eq_true_2 by done. cbn [run_handler].
  eexists. split; [|reflexivity]. split_and!; [done|done|].
  apply announced_set_default; [done|]. apply announced_insert; [done|]. apply with_body_announced.
Qed.

Lemma healthz_handled q client ip c (wk : Worker) :
  HttpParser.method (request c) = "GET" → HttpParser.path (request c) = "/healthz" → client_upstream_ wk !! client = None →
  ∃ req resp sh, HttpParser.method req = "GET" ∧ is_ok resp ∧ sh_limiter sh = sh_limiter (wk_shared wk) ∧
    handle_request w config q client ip c wk =
    Broke (set_conn client ((finalize_response (w_hash w) (w_version w) (q_source q) req resp false
      (c{{request := req; keep_alive := wants_keep_alive req; last_request := Some req}})){{parser ::= reset}}) (set_shared sh wk)).
Proof.
  intros Hm Hp Hx. unfold handle_request.
  destruct (probe_admitted (w_hash w) (q_env q) config ip (request c) (sh_limiter (wk_shared wk)) Hm) as (res & req & meth & pattern & h & -> & Er & Eh & Em).
  { rewrite Hp. apply (bool_decide_unpack _). by vm_compute. }
  assert (h = Healthz) as -> by (rewrite Hp in Eh; vm_compute in Eh; by injection Eh).
  set (sh := (wk_shared wk){{sh_limiter := sh_limiter (wk_shared wk)}}).
  destruct (healthz_response (q_source q) (q_files q) req res (c{{request := req; keep_alive := wants_keep_alive req}}) sh meth pattern Er) as (resp & Hok & ->).
  exists req, resp, sh. split_and!; [congruence|apply Hok..|unfold sh; by destruct (wk_shared wk)|].
  assert (∀ c0, in_flight_of client (set_conn client c0 (set_shared sh (set_shared sh wk))) = false) as ->.
  { intros c0. unfold in_flight_of. apply bool_decide_eq_false_2. destruct wk. cbn in *. rewrite Hx. by intros []. }
  assert (set_shared sh (set_shared sh wk) = set_shared sh wk) as -> by by destruct wk. clearbody sh. by destruct c.
Qed.

(** A response that [finalize_response] queues. *)
Lemma finalize_queue src req resp c :
  HttpParser.method req ≠ "HEAD" → send_queue c = [] → file_send c = None → announced resp →
  let resp' := framed_response (w_hash w) (w_version w) src req false (keep_alive c) resp in
  let c' := finalize_response (w_hash w) (w_version w) src req resp false c in
  let text := headers_to_string resp' ++ r_body resp' in
  file_send c' = None ∧ keep_alive c' = keep_alive c ∧ read_buf c' = read_buf c ∧
  Forall (λ d : bytes, d ≠ []) (send_queue c') ∧ (length (send_queue c') <= 2)%nat ∧ concat (send_queue c') = text.
Proof.
  intros Hm Hq Hf Ha. cbv zeta. set (resp' := framed_response _ _ _ _ _ _ _). unfold finalize_response. fold resp'. rewrite (bool_decide_eq_false_2 _ Hm).
  destruct (queue_response_pieces (c_ssl c) (headers_to_string resp') (r_body resp')) as (P1 & P2 & P3); [done|].
  clearbody resp'. destruct c. cbn in *. subst. cbn. by split_and!.
Qed.

Lemma healthz_served hs chunks client ip now env (wk : Worker) ssl a :
  wf_head "GET" "/healthz" [] "HTTP/1.1" hs → body_framed (head_request "GET" "/healthz" [] "HTTP/1.1" hs) [] →
  Forall (λ d, d ≠ []) chunks → concat chunks = print_head "GET" "/healthz" [] "HTTP/1.1" hs →
  wk_conns wk !! client = Some ((on_connect ssl){{armed := a}}) → client_upstream_ wk !! client = None →
  ∃ wk1 req resp alive, handle_read w config now env (Data <$> chunks) client ip wk = Some (Rearmed, wk1) ∧
    HttpParser.method req = "GET" ∧ is_ok resp ∧ sh_limiter (wk_shared wk1) = sh_limiter (wk_shared wk) ∧
    let resp' := framed_response (w_hash w) (w_version w) (q_source (env 0%nat)) req false alive resp in
    let text := headers_to_string resp' ++ r_body resp' in
    let c1 := conn_of client wk1 in
    file_send c1 = None ∧ keep_alive c1 = alive ∧ read_buf c1 = [] ∧ armed c1 = ArmInOut ∧
    Forall (λ d : bytes, d ≠ []) (send_queue c1) ∧ (length (send_queue c1) <= 2)%nat ∧ concat (send_queue c1) = text.
Proof.
  intros Hwf Hb Hne Hc E Hx.
  pose proof (request_handled (print_head "GET" "/healthz" [] "HTTP/1.1" hs ++ []) _ chunks client ip now env wk _
    (wire_framed _ _ _ _ _ [] Hwf Hb ltac:(done)) Hne ltac:(by rewrite app_nil_r) E ltac:(done)) as Hserved. cbv zeta in Hserved.
  set (c' := reading _ _ _) in Hserved. set (wk0 := set_conn client c' _) in Hserved.
  assert (client_upstream_ wk0 !! client = None ∧ wk_shared wk0 = wk_shared wk) as [Hx0 Hsh] by (unfold wk0; by destruct wk).
  destruct (healthz_handled (env 0%nat) client ip c' wk0) as (req & resp & sh & Hm & Hok & Hl & Eh); [done|done|done|].
  rewrite Eh in Hserved. cbn [served] in Hserved. set (c2 := c'{{request := req; keep_alive := wants_keep_alive req; last_request := Some req}}) in *.
  destruct (finalize_queue (q_source (env 0%nat)) req resp c2) as (F2 & F3 & F4 & F5 & F6 & F7); [by rewrite Hm|done|done|apply Hok|].
  change (keep_alive c2) with (wants_keep_alive req) in *. change (read_buf c2) with (@nil ascii) in F4.
  set (c3 := finalize_response _ _ _ _ _ _ c2) in *. clearbody c3 c2.
  assert (send_queue c3 ≠ []) as Hnq by (intros E3; by rewrite E3 in F7).
  eexists _, req, resp, (wants_keep_alive req). split; [exact Hserved|]. split; [done|]. split; [done|].
  unfold rearm_reads, in_flight_of. rewrite (bool_decide_eq_false_2 (is_Some _)); [|unfold wk0 in *; destruct wk; cbn in *; rewrite Hx0; by intros [] ].
  rewrite !conn_of_set_conn. split; [destruct wk0; cbn in *; congruence|]. destruct c3. cbn in *. destruct send_queue; [done|]. by split_and!.
Qed.
End serve.

(** C5: A well-formed request on a new connection, with a declared length, chunked
    or without a body, is handled exactly once, as exactly the request that was
    written, however its bytes are cut into reads; [handle_read] returns, ends as
    the handling of the request ends, and leaves no input behind. *)
Theorem request_reaches_handler `{HashOrder, Zlib, FileSystem} w config wire req chunks client ip now env (wk : Worker) c :
  wire_of wire req → Forall (λ d, d ≠ []) chunks → concat chunks = wire → wk_conns wk !! client = Some c → fresh_conn c →
  let c' := reading c (res_parser (parse wire parser_init request_clear)) req in
  served client (handle_request w config (env 0%nat) client ip c' (set_conn client c' (stamped now client ip wk)))
    (handle_read w config now env (Data <$> chunks) client ip wk).
Proof. apply request_handled. Qed.

(** C7: The liveness probe on a new connection is answered, whatever the configuration, the routes, the
    rate limits and the other connections: from the bytes of [GET /healthz] with
    any headers, cut into reads in any way, to the bytes on the socket. The response
    has status 200 and the body ["ok"], or its compressed form if the client
    accepts that, and is framed; no token is taken; and when the kernel takes
    what it is offered, exactly the response is sent, and the connection waits for
    the next request or is closed. *)
Theorem healthz_answered `{HashOrder, Zlib, FileSystem} w config hs chunks client ip now env (wk : Worker) ssl a :
  wf_head "GET" "/healthz" [] "HTTP/1.1" hs → body_framed (head_request "GET" "/healthz" [] "HTTP/1.1" hs) [] →
  Forall (λ d, d ≠ []) chunks → concat chunks = print_head "GET" "/healthz" [] "HTTP/1.1" hs →
  wk_conns wk !! client = Some ((on_connect ssl){{armed := a}}) → client_upstream_ wk !! client = None →
  ∃ wk1 resp, handle_read w config now env (Data <$> chunks) client ip wk = Some (Rearmed, wk1) ∧
    sh_limiter (wk_shared wk1) = sh_limiter (wk_shared wk) ∧ r_status_code resp = 200 ∧
    (size (r_body resp) < 2 ^ 63 → ∃ text, framing (r_headers resp) (r_body resp) text ∧
      (text = ok_text ∨ gzip ok_text = Some text ∧ r_headers resp !! lit "Content-Encoding" = Some (lit "gzip"))) ∧
    ∀ pread answers n, (length (headers_to_string resp ++ r_body resp) <= n)%nat →
      ∃ e wk2 events, handle_write w config pread answers [Wrote n; Wrote n] client wk1 =
          Some (e, wk2, [Raw (headers_to_string resp ++ r_body resp)], events) ∧
        (e = WArmed ∧ armed (conn_of client wk2) = ArmIn ∧ send_queue (conn_of client wk2) = [] ∨ e = WClosed ∧ wk_conns wk2 !! client = None).
Proof.
  intros Hwf Hb Hne Hc E Hx.
  destruct (healthz_served w config hs chunks client ip now env wk ssl a Hwf Hb Hne Hc E Hx)
    as (wk1 & req & resp & alive & Hr & Hm & (Hs & Ht & Ha) & Hl & F2 & F3 & F4 & _ & F5 & F6 & F7).
  set (resp' := framed_response _ _ _ _ _ _ _) in *. exists wk1, resp'. split_and!; [done|done| | |].
  - destruct (finalize_response_framing (w_hash w) (w_version w) (q_source (env 0%nat)) req resp false ((on_connect ssl){{keep_alive := alive}}) Ha) as (_ & Es & _).
    unfold resp'. cbn [keep_alive on_connect] in Es. by rewrite <-Hs.
  - destruct (finalize_response_framing (w_hash w) (w_version w) (q_source (env 0%nat)) req resp false ((on_connect ssl){{keep_alive := alive}}) Ha) as (_ & _ & _ & _ & Ef).
    by rewrite Ht in Ef.
  - intros pread answers n Hn. destruct (handle_write_all w config pread answers n 2 client wk1 F2 F4 F5) as (wk2 & events & Ew & He);
      [by rewrite F7|done|unfold kMaxIov; lia|].
    rewrite F7, F3 in Ew. rewrite F3 in He. eexists _, wk2, events. split; [exact Ew|]. destruct alive; [left|right]; by split.
Qed.

(** ** Examples *)

#[local] Existing Instance some_order.
#[local] Existing Instance stored_zlib.
#[local] Existing Instance posix.

Definition order_wire : bytes := print_head "POST" "/items" "id=7" "HTTP/1.1" (sample_headers (lit "Content-Length", lit "3")) ++ "abc".

(** A request with a body, in three reads. *)
Lemma request_reaches_handler_witness :
  let req := (head_request "POST" "/items" "id=7" "HTTP/1.1" (sample_headers (lit "Content-Length", lit "3"))){{body := lit "abc"}} in
  let c := reading (on_connect false) (res_parser (parse order_wire parser_init request_clear)) req in
  let chunks := [take 3 order_wire; take 20 (drop 3 order_wire); drop 23 order_wire] in
  served 1%nat
    (handle_request site_world site (site_answers 7 0%nat) 1%nat "10.1.1.1" c
      (set_conn 1%nat c (stamped 0 1%nat "10.1.1.1" connected)))
    (handle_read site_world site 0 (site_answers 7) (Data <$> chunks) 1%nat "10.1.1.1" connected).
Proof.
  intros req c chunks.
  apply (request_reaches_handler site_world site order_wire req chunks 1%nat "10.1.1.1" 0 (site_answers 7) connected (on_connect false)).
  - apply wire_framed; [apply sample_head_wf; [evaluate|done|done]|split; [|left]; by vm_compute|by vm_compute].
  - repeat constructor; by vm_compute.
  - by vm_compute.
  - reflexivity.
  - done.
Defined.

Definition probe_headers : list (bytes * bytes) := [(lit "Host", lit "shop")].

Lemma probe_head_wf : wf_head "GET" "/healthz" [] "HTTP/1.1" probe_headers.
Proof. split; [evaluate..| |by vm_compute|by split]. constructor; [evaluate|done]. Qed.

(** A probe in two reads. *)
Lemma healthz_answered_witness :
  let wire := print_head "GET" "/healthz" [] "HTTP/1.1" probe_headers in
  ∃ wk1, handle_read site_world site 0 (site_answers 7) (Data <$> [take 9 wire; drop 9 wire]) 1%nat "10.1.1.1" connected =
    Some (Rearmed, wk1).
Proof.
  intros wire.
  destruct (healthz_answered site_world site probe_headers [take 9 wire; drop 9 wire] 1%nat "10.1.1.1" 0 (site_answers 7) connected
    false Disarmed probe_head_wf) as (wk1 & resp & E & _); [split; [|right]; by vm_compute|repeat constructor; by vm_compute|by vm_compute|reflexivity|reflexivity|].
  exists wk1. exact E.
Defined.
