(* ===== verification/UpstreamRequest.v ===== *)
(** The request sent to a backend, read by a server with the gateway's own parser:
    [UpstreamExchange::build_request] against [HttpParser::parse]. *)

From S2P Require Import Prelude Search HttpParser HttpRoundtrip HttpClient UpstreamExchange.

#[local] Open Scope Z_scope.
#[local] Open Scope gateway_scope.

(** * What is sent, as a list of headers *)

Section request.
  Context `{HashOrder} (p : Params).

Definition forwarded_headers : list (bytes * bytes) :=
  filter (λ kv, forwarded (p_headers p) kv.1 = true) (iter (p_headers p)).

Definition host_header : bytes * bytes := (lit "Host", p_host p ++ ":" ++ to_string (p_port p)).

Definition length_header : list (bytes * bytes) :=
  if needs_content_length p then [(lit "Content-Length", to_string (size (p_body p)))] else [].

Definition sent_headers : list (bytes * bytes) := host_header :: forwarded_headers ++ length_header.

Lemma print_header_app kv x : print_header kv ++ x = kv.1 ++ ": " ++ kv.2 ++ CRLF ++ x.
Proof. unfold print_header. by rewrite <- !app_assoc. Qed.

(** The target splits into a path and a query. *)
Lemma build_request_print path query :
  p_path p = print_target path query →
  build_request p = print_head (p_method p) path query "HTTP/1.1" sent_headers ++ p_body p.
Proof.
  intros Hp. unfold build_request, print_head, sent_headers, print_headers. rewrite Hp.
  rewrite fmap_cons, fmap_app, concat_cons, concat_app.
  change (header_text <$> _) with (print_header <$> forwarded_headers).
  change (lit " HTTP/1.1" ++ ?x) with (" " ++ lit "HTTP/1.1" ++ x).
  change (lit "Host: " ++ ?x) with (lit "Host" ++ ": " ++ x).
  rewrite <- !app_assoc, print_header_app. unfold length_header, host_header. cbn [fst snd].
  destruct (needs_content_length p); rewrite <- !app_assoc; [|done].
  change (lit "Content-Length: " ++ ?x) with (lit "Content-Length" ++ ": " ++ x).
  change (concat (print_header <$> [?kv])) with (print_header kv ++ []).
  by rewrite app_nil_r, print_header_app.
Qed.

(** The parameters an exchange is built with: the headers are a table of the
    parser, with names in lower case. *)
Record wf_params (path query : bytes) : Prop := {
  wp_target : p_path p = print_target path query;
  wp_method : Forall (line_char METHOD) (p_method p) ∧ size (p_method p) <= MAX_REQUEST_LINE_SIZE;
  wp_path : Forall (line_char PATH) path ∧ size path <= MAX_REQUEST_LINE_SIZE;
  wp_query : Forall (line_char QUERY) query ∧ size query <= MAX_REQUEST_LINE_SIZE;
  wp_host : wf_header host_header;
  wp_headers : map_Forall (λ k v, wf_header (k, v) ∧ lowercase k = k) (p_headers p);
  wp_headers_size : size (print_headers sent_headers) + 2 <= MAX_HEADERS_SIZE;
  wp_body : size (p_body p) <= MAX_BODY_SIZE;
}.

(** ** The table the other side builds *)

Lemma table_app t hs hs' : table t (hs ++ hs') = table (table t hs) hs'.
Proof. apply foldl_app. Qed.

Lemma table_lookup (hs : list (bytes * bytes)) t k :
  NoDup hs.*1 → Forall (λ kv, lowercase kv.1 = kv.1) hs →
  table t hs !! k = match (list_to_map hs : gmap bytes bytes) !! k with Some v => Some v | None => t !! k end.
Proof.
  unfold table. revert t. induction hs as [|[k' v] hs IH]; intros t Hn Hl; [done|].
  apply Forall_cons in Hl as [Hk Hl]. apply NoDup_cons in Hn as [Hin Hn]. cbn [foldl]. rewrite IH by done.
  simpl in Hin, Hk |- *. rewrite Hk. apply not_elem_of_list_to_map_1 in Hin.
  destruct (decide (k = k')) as [->|Hne].
  - by rewrite Hin, !lookup_insert_eq.
  - by rewrite !lookup_insert_ne by done.
Qed.

Lemma framing_ok_app t hs hs' :
  Forall (λ kv, is_framing (lowercase kv.1) = false) hs → framing_ok (table t hs) hs' → framing_ok t (hs ++ hs').
Proof.
  intros Hf. revert t. induction Hf as [|kv hs Hkv _ IH]; intros t Hok; [done|].
  split; [congruence|]. by apply IH.
Qed.

Context (path query : bytes) (wf : wf_params path query).

Lemma elem_of_forwarded k v :
  (k, v) ∈ forwarded_headers ↔ p_headers p !! k = Some v ∧ forwarded (p_headers p) k = true.
Proof. unfold forwarded_headers. rewrite list_elem_of_filter, elem_of_iter. simpl. naive_solver. Qed.

Lemma forwarded_NoDup : NoDup forwarded_headers.*1.
Proof.
  apply (sublist_NoDup _ (iter (p_headers p)).*1); [apply NoDup_iter|]. apply fmap_sublist, sublist_filter.
Qed.

Lemma forwarded_lookup k v :
  (list_to_map forwarded_headers : gmap bytes bytes) !! k = Some v ↔
  p_headers p !! k = Some v ∧ forwarded (p_headers p) k = true.
Proof. rewrite <- elem_of_list_to_map by apply forwarded_NoDup. apply elem_of_forwarded. Qed.

Lemma forwarded_lowercase : Forall (λ kv, lowercase kv.1 = kv.1) forwarded_headers.
Proof.
  apply Forall_forall. intros [k v] [Hk _]%elem_of_forwarded. apply (wp_headers _ _ wf) in Hk. apply Hk.
Qed.

(** A name is forwarded when neither the list nor the Connection header names it. *)
Lemma forwarded_spec k :
  k ≠ [] → lowercase k = k →
  forwarded (p_headers p) k = true ↔
  (k ∉ kHopByHop) ∧
  ∀ value part, p_headers p !! ("connection" : bytes) = Some value → part ∈ split_on "," value [] →
    lowercase (trim part) ≠ k.
Proof.
  intros Hk Hl. unfold forwarded, is_hop_by_hop_header.
  rewrite negb_true_iff, orb_false_iff, !bool_decide_eq_false, Hl, connection_tokens_spec. naive_solver.
Qed.

Lemma hop_by_hop_dropped k v : k ∈ kHopByHop → (list_to_map forwarded_headers : gmap bytes bytes) !! k ≠ Some v.
Proof.
  intros Hk [Hv Hf]%forwarded_lookup. apply (wp_headers _ _ wf) in Hv as [Hwf Hl].
  apply forwarded_spec in Hf as [? _]; [done|apply (wf_name _ Hwf)|done].
Qed.

Lemma hop_by_hop_absent k : k ∈ kHopByHop → (list_to_map forwarded_headers : gmap bytes bytes) !! k = None.
Proof. intros Hk. destruct (_ !! k) as [v|] eqn:E; [|done]. by apply hop_by_hop_dropped in E. Qed.

(** Without the length, then with it. *)
Lemma base_table (k : bytes) :
  table ∅ (host_header :: forwarded_headers) !! k =
  if k == "host" then Some host_header.2 else (list_to_map forwarded_headers : gmap bytes bytes) !! k.
Proof.
  change (table ∅ (host_header :: ?l)) with (table (<[lit "host" := host_header.2]> ∅) l).
  rewrite table_lookup by (apply forwarded_NoDup || apply forwarded_lowercase).
  case_bool_decide as Ek; [subst; rewrite hop_by_hop_absent by evaluate; by rewrite lookup_insert_eq|].
  rewrite lookup_insert_ne, lookup_empty by done. by destruct (_ !! k).
Qed.

Lemma sent_table (k : bytes) :
  table ∅ sent_headers !! k =
  if k == "content-length" then if needs_content_length p then Some (to_string (size (p_body p))) else None
  else if k == "host" then Some host_header.2
  else (list_to_map forwarded_headers : gmap bytes bytes) !! k.
Proof.
  unfold sent_headers, length_header. rewrite app_comm_cons, table_app. destruct (needs_content_length p).
  - change (table ?t [(?a, ?b)]) with (<[lowercase a := b]> t).
    change (lowercase "Content-Length") with (lit "content-length"). case_bool_decide as Ek.
    + subst. by rewrite lookup_insert_eq.
    + by rewrite lookup_insert_ne, base_table.
  - change (table ?t []) with t. rewrite base_table.
    case_bool_decide as Eh; case_bool_decide as Ec; subst; try done. by rewrite hop_by_hop_absent by evaluate.
Qed.

Lemma sent_framing : framing_ok ∅ sent_headers.
Proof.
  unfold sent_headers. rewrite app_comm_cons. apply framing_ok_app.
  - constructor; [done|]. apply Forall_forall. intros [k v] Hin. destruct (is_framing _) eqn:E; [|done].
    exfalso. pose proof forwarded_lowercase as Hl. rewrite Forall_forall in Hl. pose proof (Hl _ Hin) as Hlk.
    simpl in Hlk, E. rewrite Hlk in E. apply elem_of_list_to_map in Hin; [|apply forwarded_NoDup].
    apply hop_by_hop_dropped in Hin; [done|]. unfold is_framing in E.
    apply orb_true_iff in E as [E|E]; apply bool_decide_eq_true in E; subst; evaluate.
  - unfold length_header. destruct (needs_content_length p) eqn:E; [|done]. split; [|done]. intros _.
    rewrite !base_table. split; rewrite hop_by_hop_absent by evaluate; by case_bool_decide.
Qed.

Lemma digit_field_char c : is_digit c = true → is_valid_field_value_char c = true ∧ is_blank c = false.
Proof. by destruct c as [[][][][][][][][]]; intros Hc; try discriminate Hc. Qed.

Lemma length_header_wf : Forall wf_header length_header.
Proof.
  unfold length_header. destruct (needs_content_length p); constructor; [|done].
  pose proof (size_nonneg (p_body p)) as Hb. pose proof (to_string_digits _ Hb) as Hd.
  pose proof (wp_body _ _ wf) as Hmax. rewrite Forall_forall in Hd. split; cbn [fst snd].
  - done.
  - evaluate.
  - apply Forall_forall. intros c Hc. by apply digit_field_char, Hd.
  - apply trim_id. split; intros c Hc; apply digit_field_char, Hd.
    + by apply head_Some_elem_of.
    + by apply last_Some_elem_of.
  - rewrite !size_app. change (size "Content-Length") with 14. change (size ": ") with 2.
    enough (length (to_string (size (p_body p))) ≤ 7)%nat by (unfold size, MAX_HEADER_LINE_SIZE in *; lia).
    unfold to_string. rewrite (proj2 (Z.ltb_ge _ _)) by done.
    etrans; [apply (render_length 10 6); [lia|unfold MAX_BODY_SIZE in *; simpl; lia]|simpl; lia].
Qed.

Lemma sent_head_wf : wf_head (p_method p) path query "HTTP/1.1" sent_headers.
Proof.
  destruct wf as [? [? ?] [? ?] [? ?] ? Hh ? ?]. split; try done; [evaluate| |].
  - constructor; [done|]. apply Forall_app. split; [|apply length_header_wf].
    apply Forall_forall. intros [k v] [Hk _]%elem_of_forwarded. by apply Hh in Hk as [? _].
  - apply sent_framing.
Qed.

Lemma sent_body_framed : body_framed (head_request (p_method p) path query "HTTP/1.1" sent_headers) (p_body p).
Proof.
  unfold body_framed, te, cl, head_request. cbn [headers]. rewrite !sent_table. split.
  - rewrite !bool_decide_eq_false_2 by evaluate. apply hop_by_hop_absent. evaluate.
  - rewrite bool_decide_eq_true_2 by done. unfold needs_content_length.
    destruct (p_body p); simpl; [|by left]. destruct (_ || _); [by left|by right].
Qed.
End request.

(** C19: What the exchange writes to a backend is one request to a server that
    reads it with the same grammar: it is consumed exactly, whatever follows, and
    carries the method, path, query and body given; its Host is the backend, its
    length the length of the body, and a header of the client is on it exactly
    when it is neither hop-by-hop nor named by the client's Connection header. *)
Theorem built_request_parses `{HashOrder} p path query rest :
  wf_params p path query →
  let x := parse (build_request p ++ rest) parser_init request_clear in
  let r := res_request x in
  res_done x = true ∧ res_consumed x = length (build_request p) ∧
  method r = p_method p ∧ HttpParser.path r = path ∧ HttpParser.query r = query ∧ body r = p_body p ∧
  headers r !! ("host" : bytes) = Some (p_host p ++ ":" ++ to_string (p_port p)) ∧
  headers r !! ("content-length" : bytes) =
    (if needs_content_length p then Some (to_string (size (p_body p))) else None) ∧
  ∀ k v : bytes, k ≠ "content-length" → k ≠ "host" →
    headers r !! k = Some v ↔
    p_headers p !! k = Some v ∧ (k ∉ kHopByHop) ∧
    ∀ value part, p_headers p !! ("connection" : bytes) = Some value → part ∈ split_on "," value [] →
      lowercase (trim part) ≠ k.
Proof.
  intros wf. cbv zeta. rewrite (build_request_print p path query) by apply wf.
  destruct (parse_framed_request (p_method p) path query "HTTP/1.1" (sent_headers p) (p_body p) rest)
    as (E1 & E2 & E3); [by apply sent_head_wf|by apply sent_body_framed|apply wf|].
  rewrite E1, E2, E3. unfold head_request. cbn [method HttpParser.path HttpParser.query body headers apply_update constant].
  split_and!; try done.
  - by rewrite (sent_table p path query wf).
  - by rewrite (sent_table p path query wf).
  - intros k v Hcl Hho. rewrite (sent_table p path query wf), !bool_decide_eq_false_2 by done.
    rewrite forwarded_lookup. split; intros [Hk Hf]; (split; [done|]);
      pose proof (wp_headers _ _ _ wf _ _ Hk) as [Hwf Hl]; apply (forwarded_spec p k); auto using wf_name;
      apply (wf_name _ Hwf).
Qed.

Definition sample_forward : Params :=
  mkParams "10.0.0.1" 8080 "POST" "/items?id=7"
    (<[lit "connection" := lit "close, X-Hop"]> (<[lit "x-hop" := lit "1"]> {[ lit "accept" := lit "*/*" ]}))
    "abc" 1000 1048576 (mkTls false [] [] false).

Lemma built_request_parses_witness :
  let r := res_request (parse (build_request sample_forward ++ "GET /") parser_init request_clear) in
  body r = "abc" ∧ headers r !! lit "accept" = Some (lit "*/*").
Proof.
  destruct (built_request_parses sample_forward "/items" "id=7" "GET /") as (_ & _ & _ & _ & _ & E & _ & _ & Hk).
  - split; evaluate.
  - split; [exact E|]. clear E. apply Hk; clear Hk; [evaluate|evaluate|]. split; [reflexivity|].
    split; [evaluate|]. intros value part Hv Hp. vm_compute in Hv. injection Hv as <-.
    apply (proj1 (Forall_forall (λ part, lowercase (trim part) ≠ lit "accept") _)) with (2 := Hp). evaluate.
Defined.
